(* ===== verification/_CoqProject ===== *)
-Q . S2P
Prelude.v
Sql.v
Utf8.v
IntText.v
Crates.v
Pgwire.v
Errors.v
Envelope.v
Budget.v
RowKeys.v
KeySpec.v
Fields.v
Transform.v
Policy.v
Records.v
Keys.v
ArrayCodec.v
Lexer.v
LexSpec.v
Settings.v
Unprotected.v
Portal.v
Rows.v
RowsSpec.v
Catalog.v
Rewrite.v
WalkSpec.v
Walked.v
Decision.v
PredicateSpec.v
Invariants.v
SealSpec.v
CatalogSpec.v
Gaps.v
Frame.v
FrameSpec.v
Session.v
SessionSpec.v
SessionEnd.v
Resolve.v
ResolveSpec.v
Config.v
Vault.v
VaultSpec.v
ConfigSpec.v
Process.v
Serve.v
ServeSpec.v
RecordsSpec.v
Interop.v
SessionInv.v
Served.v
Tls.v
TlsSpec.v
Running.v
RunningSpec.v
