(* ===== verification/Prelude.v ===== *)
(** * dbsec: a verification development

    dbsec protects columns of a PostgreSQL database. Its library ([crates/core],
    [crates/derive]) seals, opens, searches and masks values under a policy; its
    proxy ([crates/proxy]) sits between client and server, speaks the wire protocol
    ([crates/pgwire]), seals what clients write and opens what they read, with keys
    from a file or from Vault ([crates/vault]). This library models the program's
    own logic as executable definitions and proves what makes it correct.

    ** The program and the files

    Shared by all:
    - [Prelude]: results and the monad [M] of fallible state, bytes and machine
      integers, the lemmas and tactics the other files use.
    - [Utf8], [IntText]: what the program uses of Rust's [str], [char] and integer
      parsing and printing.
    - [Crates], [Sql]: third-party code as classes: one class of operations per crate
      ([hex], [aes-gcm], [hmac], [fpe], [sqlparser], [str::to_lowercase]), one
      class of the documented laws the proofs rely on, and concrete [Toy] instances
      of all of them, so the laws are satisfiable together and witnesses compute;
      and the syntax trees of [sqlparser] as far as the code takes them apart.
    - [Errors]: the error enums of the library and of the proxy.

    The library:
    - [Envelope] ([core/envelope.rs]): the envelope format, the associated data of a
      cell and of a row, per-key ciphers with a budget, and the process-wide cipher
      cache. [KeySource] is the interface to key material; a caller passes it with
      every call, so a theorem may use a different one for each. [Budget]: the same
      [seal] as the atomic steps of threads that share a cache.
    - [RowKeys] ([core/rowkey.rs]), [Fields] ([core/mask.rs], [ident.rs],
      [blind_index.rs]), [Transform] ([core/transform.rs]): row-key
      canonicalisation, masks, identifier folding, blind indexes, and the trait
      [FieldTransform] as a class with its three implementations.
    - [Policy] ([core/policy.rs], [core/protector.rs]): validation, the building of
      columns, and the protector in front of them.
    - [Records], [RecordsSpec] ([core/record.rs], [derive/lib.rs]): what the derive
      macro reads off a struct, and what the code it generates does.
    - [Keys] ([core/keys.rs]), [Vault], [VaultSpec] ([vault/source.rs]): the two key
      sources. Vault's client is a class of operations on a store that other
      processes change between calls; resolving an index key is a step relation.

    The proxy's write path ([proxy/encrypt]):
    - [Lexer], [Settings], [ArrayCodec], [Unprotected] ([lexer.rs], [settings.rs],
      [array.rs], [unprotected.rs]): splitting and reassembling a text, the settings
      it moves, array parameters, what cannot be protected and how that is said.
    - [Catalog], [Rewrite] ([catalog.rs], [scope.rs], [seal.rs], [predicate.rs],
      [query.rs], [statement.rs], [mod.rs]): what a name resolves to, and the rewrite
      of a statement.
    - [Frame] ([frame.rs]): the frames of a client; [on_client_frame] is
      [QueryRewriter::on_frame].
    - [WalkSpec], [Walked]: termination of the walk over queries, and the one
      induction over it that the theorems on rewrites instantiate: [Decision],
      [Invariants], [PredicateSpec], [SealSpec], [CatalogSpec]; [Gaps] holds runs that
      bound what those can claim. [FrameSpec]: what the frames guarantee.

    The proxy's read path and sessions:
    - [Portal] ([proxy/portal.rs]): prepared statements, portals and the queue of
      expected responses, the state the two directions of a session share.
    - [Rows], [RowsSpec] ([proxy/rows.rs]): [Rows.on_frame] is
      [RowDecryptor::on_frame].
    - [Session], [SessionSpec] ([proxy/session.rs]): startup, one turn of each relay,
      and their interleaving as a step relation over byte streams, in which reads and
      writes fail, shutdown is seen and the drain period runs out. [SessionEnd]: how
      that relation comes to an end.
    - [SessionInv]: that relation with the refresher and the other sessions in it.
      [Interop]: the library and the proxy on each other's values.

    The process:
    - [Config], [ConfigSpec] ([proxy/config.rs], [vault/lib.rs]), [Resolve],
      [ResolveSpec] ([proxy/resolve.rs]), [Tls], [TlsSpec] ([proxy/tls.rs]),
      [Process] ([core/diag.rs], [core/sync.rs], [proxy/hardening.rs]), [Serve],
      [ServeSpec] ([proxy/main.rs]): validation and redaction, resolution of columns
      against the catalog and its refresh, both TLS hops, error reporting and core
      dumps, the command line, the wiring of sessions and the accept loop.
    - [Served]: from a served configuration to one of its running sessions.
    - [Running], [RunningSpec] ([proxy/main.rs], [refresh_loop]): [main] and [serve], and
      then the process as one step relation: sessions, accept loop, refresher and
      shutdown over the row context, the caches and the key source they share. What
      sessions ask of a key source is the class [KeyService] with its laws; the key file
      and the Vault source, which other proxies use at the same time, are its instances.

    Every [Example] module at the end of a file evaluates its theorems on concrete
    inputs.

    ** Conventions

    Bytes are [list byte], a Rust string is its UTF-8 bytes, a machine integer is a
    [Z] with its wrap-around written out where the code can overflow (the release
    build does not check), a length or an index is a [nat]. A [Result] is [result];
    a method on [&mut self] is a function in the monad [M S E A], whose state after
    an error is kept. An error or a refusal carries the data its message is
    formatted from, except where the message itself goes on the wire, and then the
    wording is written out or is a parameter. A map is a [gmap]; a list that the code
    searches in order is a list. A lock held for one method makes the method one step;
    [Budget], [RowsSpec], [VaultSpec], [SessionInv] and [Running] interleave steps where
    the code's own argument is about interleaving. Nonces are arguments; of log lines
    only those on what cannot be protected ([Unprotected.warn]) and on a failed session
    are modelled, and the flags that silence a repeated one.

    ** What is proved

    - What is written: a Bind seals or refuses ([bind_seals_or_refuses]); under
      [reject] an accepted INSERT or UPDATE stores only NULL, recorded parameters and
      sealed literals ([insert_protects_values], [update_protects_values]), for the row
      its key pins ([row_key_pins_the_row]); an accepted predicate selects the rows the
      client meant ([predicate_rewrite_equivalent]); [reject] and [warn] are one rewrite
      ([reject_is_warn_without_sites]).
    - What is read: no running session hands the client an envelope it should open
      ([session_shows_plaintext]), rows are opened with the positions of the statement
      they answer ([running_session_refines_portals]) and never with a mapping older
      than the one published ([current_never_stale]).
    - Round trips: envelope, transform, protector, record, a whole DataRow, from the
      write path's Bind to the read path's row ([written_is_read]), and between library
      and proxy ([library_and_proxy_agree], [record_reads_through_proxy]).
    - Binding: moving a ciphertext to another column or row, or relabelling its
      version, is an AEAD forgery; strict columns refuse downgraded values; the
      associated data and the canonical row key are injective.
    - Invariants: from the command line on, throughout every session of a process among
      all the others, the caches hold only the source's keys and every description is
      sound ([process_stays_sound]); proxies that share a Vault agree on index keys
      ([index_keys_agree]); no key encrypts past its budget under any schedule.
    - Sessions and protocol: both hops are encrypted as configured
      ([configured_hops_are_encrypted]), framing is never lost, an unprotected session
      is transparent, the response queue follows what is relayed, a refused batch is
      swallowed up to its Sync, what a client can make the proxy remember is bounded, and
      a session ends, with the failure that ended it ([session_ends]).
    - The process: validation accepts exactly the usable configurations, resolution is
      the configuration at the catalog's places, a run does not start silently
      unprotected or able to dump core, sessions are limited, a refresh asked for is not
      lost ([refresh_requests_are_kept]), a token that runs out is reported
      ([expiring_token_is_reported]), errors are reported with their causes.
    - Text and codecs: only changed statements are replaced, each by a text that parses
      back to it; the scan ends; DataRow, Bind, Parse and the two array formats are
      inverse to their readers.

    Several proofs are about what the code does not do as documented: the lemmas
    [misread_as_indexed], [bind_large_count_reads_no_params], [mask_overflow_reveals],
    [uuid_hyphens_anywhere], [order_decides], [empty_elements_accepted],
    [truncated_header_is_a_clean_end], [dashed_option_not_seen], those of [Gaps], and
    the last three of [ConfigSpec].

    ** Fuel

    A fuelled loop is given a turn more than its input has bytes, and a turn that does
    not end it consumes one: [Lexer.ranges_loop], [ArrayCodec.text_loop],
    [Session.negotiate], [Session.startup_loop], [Session.relay], [Config.mask_loop];
    more fuel changes nothing ([ranges_loop_fuel], [text_loop_fuel],
    [negotiate_fuel], [relay_ends]). [Rewrite.rewrite_query] is fuelled by the depth of
    query nesting, which is always enough ([rewrite_query_unfold]).
    [IntText.numerals_fuel] has a digit more than the binary logarithm. Everything else
    is structural.

    ** What is not modelled

    Sockets, clocks and signals: a peer's bytes are a list, and a step that a deadline, a
    timer or a signal brings about may happen at any time its other conditions allow, so
    nothing is proved of how long anything takes; the forwarding of reads and writes in
    [MaybeTls]; the set-up of the log and most of its lines; zeroisation of memory; the
    hardening of targets other than Linux, which is empty; TOML, URL and
    connection-string parsing and the SQL grammar, which are third-party; the tests. *)

From Stdlib Require Strings.Byte.
From stdpp Require Export prelude gmap strings.
Export Corelib.Init.Byte(byte(..)).
Export Corelib.Init.Byte.ByteSyntaxNotations.
#[global] Delimit Scope byte_scope with byte.

Set Default Goal Selector "!".
#[export] Set Default Proof Using "Type*".

(** ** Bytes and byte strings *)

#[global] Instance byte_eq_dec : EqDecision byte := Strings.Byte.byte_eq_dec.

#[global] Program Instance byte_countable : Countable byte :=
  inj_countable Strings.Byte.to_N Strings.Byte.of_N _.
Next Obligation. intros b. apply Strings.Byte.of_to_N. Qed.

(** A [&[u8]], a [Vec<u8>], and a Rust [str] or [String] seen as its bytes. *)
Abbreviation bytes := (list byte).

Declare Scope dbsec_scope.
Delimit Scope dbsec_scope with dbsec.
Open Scope dbsec_scope.

(** A byte-string literal, [b"..."]. *)
Definition bstr (s : string) : bytes := String.list_byte_of_string s.

Notation "'b#' s" := (bstr s%string)
  (at level 1, s at level 0, format "'b#' s") : dbsec_scope.

(** A [u8] read as a number, and the truncating cast [z as u8]. *)
Definition b2z (b : byte) : Z := Z.of_N (Strings.Byte.to_N b).

Definition z2b (z : Z) : byte :=
  default x00 (Strings.Byte.of_N (Z.to_N (z mod 256))).

Lemma b2z_range b : (0 ≤ b2z b < 256)%Z.
Proof.
  unfold b2z. pose proof (Strings.Byte.to_N_bounded b). lia.
Qed.

Lemma b2z_inj b1 b2 : b2z b1 = b2z b2 → b1 = b2.
Proof.
  unfold b2z. intros H. apply N2Z.inj in H.
  pose proof (Strings.Byte.of_to_N b1) as E1.
  pose proof (Strings.Byte.of_to_N b2) as E2.
  rewrite H in E1. congruence.
Qed.

Lemma b2z_z2b z : b2z (z2b z) = (z mod 256)%Z.
Proof.
  unfold b2z, z2b.
  pose proof (Z.mod_pos_bound z 256 eq_refl) as Hb.
  destruct (Strings.Byte.of_N (Z.to_N (z mod 256))) as [b|] eqn:E; simpl.
  - apply Strings.Byte.to_of_N in E. rewrite E. lia.
  - apply Strings.Byte.of_N_None_iff in E. lia.
Qed.

Lemma z2b_b2z b : z2b (b2z b) = b.
Proof.
  apply b2z_inj. rewrite b2z_z2b.
  apply Z.mod_small, b2z_range.
Qed.

Lemma b2z_z2b_small z : (0 ≤ z < 256)%Z → b2z (z2b z) = z.
Proof. intros H. rewrite b2z_z2b. by apply Z.mod_small. Qed.

(** [b] as an unsigned comparison range [lo ..= hi]. *)
Definition in_range (lo hi : Z) (b : byte) : bool :=
  (lo <=? b2z b)%Z && (b2z b <=? hi)%Z.

Lemma in_range_spec lo hi b :
  in_range lo hi b = true ↔ (lo ≤ b2z b ≤ hi)%Z.
Proof. unfold in_range. rewrite andb_true_iff, !Z.leb_le. done. Qed.

(** ** Results *)

(** Rust's [Result<A, E>]. *)
Inductive result (E A : Type) : Type :=
  | Ok (a : A)
  | Err (e : E).
Arguments Ok {E A} a.
Arguments Err {E A} e.

#[global] Instance result_ret E : MRet (result E) := λ A a, Ok a.
#[global] Instance result_bind E : MBind (result E) :=
  λ A B f r, match r with Ok a => f a | Err e => Err e end.
#[global] Instance result_fmap E : FMap (result E) :=
  λ A B f r, match r with Ok a => Ok (f a) | Err e => Err e end.

#[global] Instance result_eq_dec {E A} `{EqDecision E, EqDecision A} :
  EqDecision (result E A).
Proof. solve_decision. Defined.

(** [option::ok_or], [Result::map_err], [Result::is_ok]. *)
Definition ok_or {E A} (e : E) (o : option A) : result E A :=
  match o with Some a => Ok a | None => Err e end.

Definition map_err {E F A} (f : E → F) (r : result E A) : result F A :=
  match r with Ok a => Ok a | Err e => Err (f e) end.

Definition is_ok {E A} (r : result E A) : bool :=
  match r with Ok _ => true | Err _ => false end.

Lemma bind_Ok_inv {E A B} (r : result E A) (f : A → result E B) b :
  (r ≫= f) = Ok b → ∃ a, r = Ok a ∧ f a = Ok b.
Proof. destruct r; simpl; [eauto|discriminate]. Qed.

Lemma map_err_Ok {E F A} (f : E → F) (r : result E A) a :
  map_err f r = Ok a ↔ r = Ok a.
Proof. destruct r; simpl; split; congruence. Qed.

Lemma ok_or_Ok {E A} (e : E) (o : option A) a :
  ok_or e o = Ok a ↔ o = Some a.
Proof. destruct o; simpl; split; congruence. Qed.

(** [Vec::collect] of fallible items into a [Result]: the first error wins. *)
Fixpoint try_map {E A B} (f : A → result E B) (l : list A) : result E (list B) :=
  match l with
  | [] => Ok []
  | a :: l => b ← f a; bs ← try_map f l; mret (b :: bs)
  end.

(** Running a fallible parser [count] times over a threaded state. *)
Fixpoint try_repeat {E S A} (p : S → result E (A * S)) (n : nat) (s : S)
    : result E (list A * S) :=
  match n with
  | O => Ok ([], s)
  | S n =>
      '(a, s1) ← p s;
      '(l, s2) ← try_repeat p n s1;
      mret (a :: l, s2)
  end.

(** [needle] stands somewhere in [s]. *)
Definition quotes {A} (s needle : list A) : Prop := ∃ before after, s = before ++ needle ++ after.

Lemma quotes_refl {A} (s : list A) : quotes s s.
Proof. exists [], []. by rewrite app_nil_r. Qed.

Lemma quotes_trans {A} (a b c : list A) : quotes a b → quotes b c → quotes a c.
Proof. intros (x & y & ->) (u & v & ->). exists (x ++ u), (v ++ y). by rewrite !app_assoc. Qed.

Lemma quotes_app_r {A} (a b c : list A) : quotes b c → quotes (a ++ b) c.
Proof. intros (x & y & ->). exists (a ++ x), y. by rewrite !app_assoc. Qed.

Lemma quotes_app_l {A} (a b c : list A) : quotes a c → quotes (a ++ b) c.
Proof. intros (x & y & ->). exists x, (y ++ b). by rewrite !app_assoc. Qed.

(** ** Stateful fallible code

    A method that takes [&self] or [&mut self] and returns a [Result]: the state
    it leaves behind is kept on the error path too. *)

Definition M (S E A : Type) : Type := S → result E A * S.

#[global] Instance M_ret S E : MRet (M S E) := λ A a s, (Ok a, s).
#[global] Instance M_bind S E : MBind (M S E) :=
  λ A B f m s, match m s with (Ok a, s) => f a s | (Err e, s) => (Err e, s) end.

(** A fallible computation that does not touch the state, a read, an update. *)
Definition lift {S E A} (r : result E A) : M S E A := λ s, (r, s).
Definition gets {S E A} (f : S → A) : M S E A := λ s, (Ok (f s), s).
Definition modify {S E} (f : S → S) : M S E () := λ s, (Ok tt, f s).
Definition runs {S E A} (f : S → A * S) : M S E A := λ s, let '(a, s) := f s in (Ok a, s).

(** [check?; rest]. *)
Definition guarded {S E A} (check : result E ()) (rest : M S E A) : M S E A :=
  λ s, match check with Ok _ => rest s | Err e => (Err e, s) end.

(** [match m { Err(e) if handled(e) => .., r => r }]. *)
Definition catch {S E A} (m : M S E A) (h : E → option (M S E A)) : M S E A :=
  λ s, match m s with
       | (Err e, s') => match h e with Some k => k s' | None => (Err e, s') end
       | r => r
       end.

(** A call whose error is converted on the way out. *)
Definition with_err {S E F A} (f : E → F) (m : M S E A) : M S F A :=
  λ s, let '(r, s) := m s in (map_err f r, s).

Lemma M_bind_Ok {S E A B} (m : M S E A) (f : A → M S E B) s b s' :
  (m ≫= f) s = (Ok b, s') → ∃ a s1, m s = (Ok a, s1) ∧ f a s1 = (Ok b, s').
Proof.
  unfold mbind, M_bind. destruct (m s) as [[a|e] s1]; [eauto|discriminate].
Qed.

Lemma M_bind_eval {S E A B} (m : M S E A) (f : A → M S E B) s a s1 :
  m s = (Ok a, s1) → (m ≫= f) s = f a s1.
Proof. unfold mbind, M_bind. by intros ->. Qed.

Lemma mret_Ok {S E A} (a b : A) (s s' : S) :
  (mret a : M S E A) s = (Ok b, s') ↔ a = b ∧ s = s'.
Proof. unfold mret, M_ret. split; [by intros [= -> ->]|by intros [-> ->]]. Qed.

Lemma gets_Ok {S E A} (f : S → A) (b : A) (s s' : S) :
  (gets f : M S E A) s = (Ok b, s') ↔ f s = b ∧ s = s'.
Proof. unfold gets. split; [by intros [= -> ->]|by intros [-> ->]]. Qed.

Lemma with_err_Ok {S E F A} (f : E → F) (m : M S E A) s a s' :
  with_err f m s = (Ok a, s') ↔ m s = (Ok a, s').
Proof.
  unfold with_err. destruct (m s) as [[x|] t]; simpl; split; congruence.
Qed.

(** A Hoare triple over both outcomes of stateful fallible code, and its rules. *)
Definition triple {S E A} (P : S → Prop) (m : M S E A) (Q : result E A → S → Prop) : Prop :=
  ∀ s, P s → Q (m s).1 (m s).2.

Lemma triple_bind {S E A B} (P : S → Prop) (R : A → S → Prop) (Q : result E B → S → Prop)
    (m : M S E A) (f : A → M S E B) :
  triple P m (λ r s, match r with Ok a => R a s | Err e => Q (Err e) s end) →
  (∀ a, triple (R a) (f a) Q) →
  triple P (m ≫= f) Q.
Proof.
  intros Hm Hf s Hs. specialize (Hm s Hs). unfold mbind, M_bind.
  destruct (m s) as [[a|e] s']; simpl in *; [by apply Hf|done].
Qed.

Lemma triple_catch {S E A} (P : S → Prop) (R : E → S → Prop) (Q : result E A → S → Prop)
    (m : M S E A) (h : E → option (M S E A)) :
  triple P m (λ r s, match r with Ok a => Q (Ok a) s | Err e => R e s end) →
  (∀ e, match h e with
        | Some k => triple (R e) k Q
        | None => ∀ s, R e s → Q (Err e) s
        end) →
  triple P (catch m h) Q.
Proof.
  intros Hm Hh s Hs. specialize (Hm s Hs). unfold catch.
  destruct (m s) as [[a|e] s']; simpl in *; [done|].
  specialize (Hh e). destruct (h e); simpl; by apply Hh.
Qed.

Lemma triple_conseq {S E A} (P P' : S → Prop) (Q Q' : result E A → S → Prop) (m : M S E A) :
  triple P' m Q' → (∀ s, P s → P' s) → (∀ r s, Q' r s → Q r s) → triple P m Q.
Proof. intros Hm HP HQ s Hs. by apply HQ, Hm, HP. Qed.

Lemma triple_lift {S E A} (P : S → Prop) (r : result E A) (Q : result E A → S → Prop) :
  (∀ s, P s → Q r s) → triple P (lift r) Q.
Proof. intros HQ s Hs. by apply HQ. Qed.

Lemma triple_gets {S E A} (P : S → Prop) (f : S → A) (Q : result E A → S → Prop) :
  (∀ s, P s → Q (Ok (f s)) s) → triple P (gets f) Q.
Proof. intros HQ s Hs. by apply HQ. Qed.

Lemma triple_runs {S E A} (P : S → Prop) (f : S → A * S) (Q : result E A → S → Prop) :
  (∀ s, P s → Q (Ok (f s).1) (f s).2) → triple P (runs f) Q.
Proof. intros HQ s Hs. unfold runs. specialize (HQ s Hs). by destruct (f s). Qed.

(** ** Tactics *)

(** Takes apart a computation known to have produced a value. *)
Ltac simpl_res :=
  repeat match goal with
  | H : (_ ≫= _) = Ok _ |- _ => apply bind_Ok_inv in H as (?&?&?)
  | H : Ok _ = Ok _ |- _ => injection H as H; subst
  | H : Err _ = Err _ |- _ => injection H as H; subst
  | H : Ok _ = Err _ |- _ => discriminate H
  | H : Err _ = Ok _ |- _ => discriminate H
  | H : mret _ = Ok _ |- _ => unfold mret, result_ret in H
  | H : map_err _ _ = Ok _ |- _ => apply map_err_Ok in H
  | H : ok_or _ _ = Ok _ |- _ => apply ok_or_Ok in H
  end.

(** Splits every boolean test of the goal into its two propositional cases. *)
Ltac case_bool :=
  repeat match goal with
  | H : (_ && _) = true |- _ => apply andb_true_iff in H as [? ?]
  | H : (_ || _) = false |- _ => apply orb_false_iff in H as [? ?]
  | H : negb _ = true |- _ => apply negb_true_iff in H
  | H : negb _ = false |- _ => apply negb_false_iff in H
  | H : bool_decide _ = true |- _ => apply bool_decide_eq_true in H
  | H : bool_decide _ = false |- _ => apply bool_decide_eq_false in H
  | H : (_ <=? _)%Z = true |- _ => apply Z.leb_le in H
  | H : (_ <=? _)%Z = false |- _ => apply Z.leb_gt in H
  | H : (_ <? _)%Z = true |- _ => apply Z.ltb_lt in H
  | H : (_ <? _)%Z = false |- _ => apply Z.ltb_ge in H
  | H : (_ =? _)%Z = true |- _ => apply Z.eqb_eq in H
  | H : (_ =? _)%Z = false |- _ => apply Z.eqb_neq in H
  end.

(** Right-associates every append and pushes conses out of it. *)
Ltac norm_app := repeat first [rewrite <- app_assoc | rewrite <- app_comm_cons]; simpl.

(** ** Slices *)

(** [slice::split_at_checked]. *)
Definition split_at_checked {A} (n : nat) (l : list A) : option (list A * list A) :=
  if bool_decide (n ≤ length l) then Some (take n l, drop n l) else None.

Lemma split_at_checked_Some {A} n (l : list A) h t :
  split_at_checked n l = Some (h, t) ↔ l = h ++ t ∧ length h = n.
Proof.
  unfold split_at_checked. case_bool_decide as Hn; split.
  - intros [= <- <-]. rewrite take_drop, length_take. split; [done|lia].
  - intros [-> <-]. rewrite take_app_length, drop_app_length. done.
  - done.
  - intros [-> <-]. rewrite length_app in Hn. lia.
Qed.

Lemma split_at_checked_app {A} (h t : list A) :
  split_at_checked (length h) (h ++ t) = Some (h, t).
Proof. by apply split_at_checked_Some. Qed.

(** [slice::starts_with] and [slice::strip_prefix]. *)
Fixpoint strip_prefix {A} `{EqDecision A} (p l : list A) : option (list A) :=
  match p, l with
  | [], _ => Some l
  | x :: p, y :: l => if bool_decide (x = y) then strip_prefix p l else None
  | _ :: _, [] => None
  end.

Definition starts_with {A} `{EqDecision A} (l p : list A) : bool :=
  bool_decide (is_Some (strip_prefix p l)).

Lemma strip_prefix_Some {A} `{EqDecision A} (p l r : list A) :
  strip_prefix p l = Some r ↔ l = p ++ r.
Proof.
  revert l. induction p as [|x p IH]; intros [|y l]; simpl.
  1, 2: split; congruence.
  - split; discriminate.
  - case_bool_decide; subst; [rewrite IH|]; split; congruence.
Qed.

Lemma starts_with_spec {A} `{EqDecision A} (l p : list A) :
  starts_with l p = true ↔ ∃ r, l = p ++ r.
Proof.
  unfold starts_with, is_Some. rewrite bool_decide_eq_true.
  setoid_rewrite strip_prefix_Some. done.
Qed.

Lemma starts_with_app {A} `{EqDecision A} (p r : list A) :
  starts_with (p ++ r) p = true.
Proof. apply starts_with_spec. eauto. Qed.

Lemma starts_with_ne {A} `{EqDecision A} (p q r : list A) :
  length p = length q → p ≠ q → starts_with (p ++ r) q = false.
Proof.
  intros Hl Hne. destruct (starts_with (p ++ r) q) eqn:E; [|done].
  apply starts_with_spec in E as [r' E].
  apply app_inj_1 in E as [-> _]; done.
Qed.

(** Induction on strings for parsers that read one byte or two. *)
Lemma bytes_ind2 (P : bytes → Prop) :
  P [] → (∀ b l, P l → (∀ c l', l = c :: l' → P l') → P (b :: l)) → ∀ l, P l.
Proof.
  intros H0 Hs l. cut (P l ∧ ∀ c l', l = c :: l' → P l'); [by intros [? _]|].
  induction l as [|b l [IH1 IH2]]; [done|]. split; [by apply Hs|]. by intros c l' [= -> ->].
Qed.

(** [iter().position(..)]. *)
Fixpoint position {A} (f : A → bool) (l : list A) : option nat :=
  match l with
  | [] => None
  | x :: l => if f x then Some 0 else S <$> position f l
  end.

Lemma position_Some {A} (f : A → bool) l n :
  position f l = Some n →
  ∃ x, l !! n = Some x ∧ f x = true ∧ Forall (λ y, f y = false) (take n l).
Proof.
  revert n. induction l as [|x l IH]; intros n; simpl; [done|].
  destruct (f x) eqn:E.
  - intros [= <-]. exists x. simpl. auto.
  - intros (m & Hm & ->)%fmap_Some.
    apply IH in Hm as (y & ? & ? & ?). exists y. simpl. eauto.
Qed.

Lemma position_app {A} (f : A → bool) l x r :
  Forall (λ y, f y = false) l → f x = true →
  position f (l ++ x :: r) = Some (length l).
Proof.
  intros Hl Hx. induction Hl as [|y l Hy Hl IH]; simpl.
  - by rewrite Hx.
  - by rewrite Hy, IH.
Qed.

Lemma position_None {A} (f : A → bool) l :
  position f l = None ↔ Forall (λ y, f y = false) l.
Proof.
  induction l as [|x l IH]; simpl; [done|].
  rewrite Forall_cons, <- IH. destruct (f x).
  - split; [done|]. by intros [? _].
  - rewrite fmap_None. split; [done|]. by intros [_ ?].
Qed.

(** Elements with distinct images are told apart by them. *)
Lemma NoDup_fmap_unique {A B} (f : A → B) (l : list A) x y :
  NoDup (f <$> l) → x ∈ l → y ∈ l → f x = f y → x = y.
Proof.
  intros Hn [i1 H1]%list_elem_of_lookup [i2 H2]%list_elem_of_lookup E.
  assert (i1 = i2) as ->; [|congruence].
  apply (NoDup_lookup _ _ _ (f x) Hn); rewrite list_lookup_fmap.
  - by rewrite H1.
  - by rewrite H2, E.
Qed.

(** ** Big-endian integers *)

(** [uN::from_be_bytes] and [to_be_bytes]: [n] bytes, most significant first. *)
Fixpoint be_val_acc (acc : Z) (l : bytes) : Z :=
  match l with
  | [] => acc
  | b :: l => be_val_acc (acc * 256 + b2z b) l
  end.

Definition be_val (l : bytes) : Z := be_val_acc 0 l.

Fixpoint be_bytes (n : nat) (z : Z) : bytes :=
  match n with
  | O => []
  | S n => be_bytes n (z / 256) ++ [z2b z]
  end.

(** [iN::from_be_bytes]: the two's complement reading of [8 * length l] bits. *)
Definition signed (bits : Z) (z : Z) : Z :=
  if (z <? 2 ^ (bits - 1))%Z then z else (z - 2 ^ bits)%Z.

Definition i16_of_be (l : bytes) : Z := signed 16 (be_val l).
Definition i32_of_be (l : bytes) : Z := signed 32 (be_val l).
Definition i64_of_be (l : bytes) : Z := signed 64 (be_val l).

Definition in_bits (bits z : Z) : Prop := (- 2 ^ (bits - 1) ≤ z < 2 ^ (bits - 1))%Z.

#[global] Instance in_bits_dec bits z : Decision (in_bits bits z).
Proof. unfold in_bits. apply _. Defined.

Lemma length_be_bytes n z : length (be_bytes n z) = n.
Proof. revert z. induction n; intros z; simpl; [done|]. rewrite length_app, IHn. simpl. lia. Qed.

Lemma be_val_acc_app acc l1 l2 :
  be_val_acc acc (l1 ++ l2) = be_val_acc (be_val_acc acc l1) l2.
Proof. revert acc. induction l1; intros acc; simpl; auto. Qed.

Lemma be_val_app1 l b : be_val (l ++ [b]) = (be_val l * 256 + b2z b)%Z.
Proof. unfold be_val. by rewrite be_val_acc_app. Qed.

Lemma be_val_range l : (0 ≤ be_val l < 256 ^ Z.of_nat (length l))%Z.
Proof.
  induction l as [|b l IH] using rev_ind; [done|].
  rewrite be_val_app1, length_app, Nat2Z.inj_add, Z.pow_add_r by lia.
  change (256 ^ Z.of_nat (length [b]))%Z with 256%Z.
  pose proof (b2z_range b). lia.
Qed.

Lemma be_val_cons_zero l : be_val ([x00] ++ l) = be_val l.
Proof. done. Qed.

Lemma be_val_bytes n z : be_val (be_bytes n z) = (z mod 256 ^ Z.of_nat n)%Z.
Proof.
  revert z. induction n as [|n IH]; intros z; cbn [be_bytes].
  - change (256 ^ Z.of_nat 0)%Z with 1%Z. by rewrite Z.mod_1_r.
  - rewrite be_val_app1, IH, b2z_z2b, Nat2Z.inj_succ, Z.pow_succ_r by lia.
    assert (0 < 256 ^ Z.of_nat n)%Z by (apply Z.pow_pos_nonneg; lia).
    rewrite Z.rem_mul_r by lia. lia.
Qed.

Lemma be_bytes_val l : be_bytes (length l) (be_val l) = l.
Proof.
  induction l as [|b l IH] using rev_ind; [done|].
  rewrite length_app, Nat.add_1_r. simpl. rewrite be_val_app1.
  pose proof (b2z_range b).
  rewrite Z.div_add_l, (Z.div_small (b2z b)), Z.add_0_r, IH by lia.
  f_equal. f_equal. apply b2z_inj. rewrite b2z_z2b.
  rewrite Z.add_comm, Z_mod_plus_full. by apply Z.mod_small.
Qed.

Lemma be_bytes_mod n z : be_bytes n z = be_bytes n (z mod 256 ^ Z.of_nat n).
Proof.
  rewrite <- (be_bytes_val (be_bytes n z)), length_be_bytes, be_val_bytes. done.
Qed.

Lemma signed_mod bits z :
  (0 < bits)%Z → in_bits bits z → signed bits (z mod 2 ^ bits) = z.
Proof.
  unfold signed, in_bits. intros Hb Hz.
  assert (2 ^ bits = 2 * 2 ^ (bits - 1))%Z as Hp.
  { rewrite <- Z.pow_succ_r by lia. f_equal. lia. }
  destruct (decide (0 ≤ z)%Z).
  - rewrite Z.mod_small by lia. destruct (Z.ltb_spec z (2 ^ (bits - 1))); lia.
  - rewrite <- (Z_mod_plus_full z 1 (2 ^ bits)), Z.mod_small by lia.
    destruct (Z.ltb_spec (z + 1 * 2 ^ bits) (2 ^ (bits - 1))); lia.
Qed.

Lemma signed_range bits z :
  (0 < bits)%Z → (0 ≤ z < 2 ^ bits)%Z → in_bits bits (signed bits z).
Proof.
  unfold signed, in_bits. intros Hb Hz.
  assert (2 ^ bits = 2 * 2 ^ (bits - 1))%Z as Hp.
  { rewrite <- Z.pow_succ_r by lia. f_equal. lia. }
  destruct (Z.ltb_spec z (2 ^ (bits - 1))); lia.
Qed.

Lemma mod_signed bits z :
  (0 < bits)%Z → (0 ≤ z < 2 ^ bits)%Z → (signed bits z mod 2 ^ bits)%Z = z.
Proof.
  unfold signed. intros Hb Hz.
  destruct (Z.ltb_spec z (2 ^ (bits - 1))).
  - by apply Z.mod_small.
  - rewrite <- (Z_mod_plus_full (z - 2 ^ bits) 1), Z.mod_small; lia.
Qed.

(** Each width's conversion and its inverse. *)
Lemma i16_be_bytes z : in_bits 16 z → i16_of_be (be_bytes 2 z) = z.
Proof. intros H. unfold i16_of_be. rewrite be_val_bytes. by apply (signed_mod 16). Qed.

Lemma i32_be_bytes z : in_bits 32 z → i32_of_be (be_bytes 4 z) = z.
Proof. intros H. unfold i32_of_be. rewrite be_val_bytes. by apply (signed_mod 32). Qed.

Lemma i64_be_bytes z : in_bits 64 z → i64_of_be (be_bytes 8 z) = z.
Proof. intros H. unfold i64_of_be. rewrite be_val_bytes. by apply (signed_mod 64). Qed.

Lemma be_val_be_bytes n z :
  (0 ≤ z < 256 ^ Z.of_nat n)%Z → be_val (be_bytes n z) = z.
Proof. intros H. rewrite be_val_bytes. by apply Z.mod_small. Qed.

Lemma be_bytes_i16 l : length l = 2 → be_bytes 2 (i16_of_be l) = l.
Proof.
  intros Hl. unfold i16_of_be. pose proof (be_val_range l) as Hr. rewrite Hl in Hr.
  rewrite be_bytes_mod. change (256 ^ Z.of_nat 2)%Z with (2 ^ 16)%Z in *.
  rewrite mod_signed by lia. rewrite <- Hl. apply be_bytes_val.
Qed.

Lemma be_bytes_i32 l : length l = 4 → be_bytes 4 (i32_of_be l) = l.
Proof.
  intros Hl. unfold i32_of_be. pose proof (be_val_range l) as Hr. rewrite Hl in Hr.
  rewrite be_bytes_mod. change (256 ^ Z.of_nat 4)%Z with (2 ^ 32)%Z in *.
  rewrite mod_signed by lia. rewrite <- Hl. apply be_bytes_val.
Qed.

Lemma i16_of_be_range l : length l = 2 → in_bits 16 (i16_of_be l).
Proof.
  intros Hl. pose proof (be_val_range l) as Hr. rewrite Hl in Hr.
  by apply signed_range.
Qed.

Lemma i32_of_be_range l : length l = 4 → in_bits 32 (i32_of_be l).
Proof.
  intros Hl. pose proof (be_val_range l) as Hr. rewrite Hl in Hr.
  by apply signed_range.
Qed.

(** ** Hints *)

(** [wire]: lengths and ranges of big-endian fields, and reading back what was
    written; the conditional rewrites leave the range to [done]. *)
Create HintDb wire.
Create Rewrite HintDb wire.
#[export] Hint Resolve length_be_bytes b2z_range i16_of_be_range i32_of_be_range : wire.
#[export] Hint Rewrite @length_app length_be_bytes : wire.
#[export] Hint Rewrite i16_be_bytes i32_be_bytes i64_be_bytes be_val_be_bytes using done : wire.

(** Normalises lengths and field reads in the goal. *)
Ltac simpl_wire := autorewrite with wire.

#[global] Opaque be_bytes be_val b2z z2b.
#[global] Arguments bstr : simpl never.
