(* ===== verification/Sql.v ===== *)
(** * The SQL syntax the write path reads

    The types of the [sqlparser] crate, as far as [crates/proxy/src/encrypt] takes
    them apart: one constructor for every variant the source matches on, with the
    fields it binds. What it writes [..] for is an [opaque] payload, which nothing
    computes with; the variants it never names are one [Other] constructor each.
    Source positions, which the crate's equality ignores, are left out.

    A container whose only recursive parts are expressions or queries is a type of
    its own over them, so that the mutual block holds the recursion and nothing
    else. *)

From S2P Require Import Prelude.

(** What the source never reads. *)
Definition opaque : Type := bytes.

(** ** Tokens and errors *)

Inductive Token :=
  | Word (value : bytes) (quote_style : option Z)
  | TokenNumber (value : bytes) (long : bool)
  | TokenString (value : bytes)
  | TokenEq
  | TokenComma
  | LParen
  | RParen
  | SemiColon
  | Whitespace (rest : opaque)
  | TokenOther (rest : opaque).

Record TokenWithSpan := { tws_token : Token; tws_span : opaque }.

(** [sqlparser::parser::ParserError]. *)
Inductive ParserError :=
  | TokenizerError (message : bytes)
  | ParserErrorMessage (message : bytes)
  | RecursionLimitExceeded.

(** ** Names and literals *)

Module Ast.

Record Ident := { id_value : bytes; id_quote_style : option Z }.

(** [Ident::new]. *)
Definition ident_new (value : bytes) : Ident := {| id_value := value; id_quote_style := None |}.

Definition ObjectName : Type := list Ident.

Record TableAlias := { ta_name : Ident; ta_rest : opaque }.

Inductive Value :=
  | Number (n : bytes) (long : bool)
  | SingleQuotedString (s : bytes)
  | EscapedStringLiteral (s : bytes)
  | UnicodeStringLiteral (s : bytes)
  | NationalStringLiteral (s : bytes)
  | DollarQuotedString (value : bytes) (rest : opaque)
  | Placeholder (s : bytes)
  | Null
  | ValueOther (rest : opaque).

Inductive BinaryOperator := BinEq | BinAnd | BinOr | BinOther (rest : opaque).
Inductive UnaryOperator := UnNot | UnMinus | UnPlus | UnOther (rest : opaque).

(** ** Containers of expressions *)

Inductive FunctionArgExpr (E : Type) :=
  | ArgExpr (inner : E)
  | ArgWildcard (rest : opaque).

Inductive FunctionArg (E : Type) :=
  | ArgNamed (arg : FunctionArgExpr E) (rest : opaque)
  | ArgExprNamed (arg : FunctionArgExpr E) (rest : opaque)
  | ArgUnnamed (arg : FunctionArgExpr E).

Inductive FunctionArguments (E : Type) :=
  | ArgumentList (args : list (FunctionArg E)) (rest : opaque)
  | ArgumentOther (rest : opaque).

Inductive SelectItem (E : Type) :=
  | UnnamedExpr (expr : E)
  | ExprWithAlias (expr : E) (alias : Ident)
  | QualifiedWildcard (name : ObjectName) (rest : opaque)
  | Wildcard (rest : opaque).

Inductive GroupByExpr (E : Type) :=
  | GroupByAll (rest : opaque)
  | GroupByExpressions (exprs : list E) (rest : opaque).

Inductive JoinConstraint (E : Type) :=
  | On (expr : E)
  | Using (rest : opaque)
  | Natural
  | NoConstraint.

(** The joins that carry a constraint, and those that do not. *)
Inductive JoinKind :=
  | Inner | LeftOuter | RightOuter | FullOuter | Semi | LeftSemi | RightSemi | Anti | LeftAnti
  | RightAnti | AsOf (rest : opaque).
Inductive CrossKind := CrossJoin | CrossApply | OuterApply.

Inductive JoinOperator (E : Type) :=
  | Constrained (kind : JoinKind) (constraint : JoinConstraint E)
  | Unconstrained (kind : CrossKind).

Inductive AssignmentTarget :=
  | ColumnName (name : ObjectName)
  | TupleTarget (names : list ObjectName).

Record Assignment (E : Type) := { as_target : AssignmentTarget; as_value : E }.

Inductive ConflictTarget :=
  | ConflictColumns (columns : list Ident)
  | OnConstraint (rest : opaque).

Inductive OnInsert (E : Type) :=
  | DuplicateKeyUpdate (assignments : list (Assignment E))
  | OnConflictDoNothing (conflict_target : option ConflictTarget)
  | OnConflictDoUpdate (conflict_target : option ConflictTarget)
      (assignments : list (Assignment E)) (selection : option E)
  | OnInsertOther (rest : opaque).

Record InsertOf (Q E : Type) := {
  in_table_name : ObjectName;
  in_table_alias : option Ident;
  in_columns : list Ident;
  in_source : option Q;
  in_on : option (OnInsert E);
  in_rest : opaque;
}.

Record UpdateOf (T E : Type) := {
  up_table : T;
  up_assignments : list (Assignment E);
  up_from : option T;
  up_selection : option E;
  up_rest : opaque;
}.

Inductive FromTable (T : Type) :=
  | WithFromKeyword (tables : list T)
  | WithoutKeyword (tables : list T).

Record DeleteOf (T E : Type) := {
  de_from : FromTable T;
  de_using : option (list T);
  de_selection : option E;
  de_rest : opaque;
}.

Inductive CopySource (Q : Type) :=
  | CopyTable (table_name : ObjectName) (rest : opaque)
  | CopyQuery (query : Q).

(** One join of a relation list, one CTE and one ORDER BY key, each with the part
    the walk descends into first. *)
Record JoinOf (F E : Type) := { jo_relation : F; jo_operator : JoinOperator E; jo_rest : opaque }.
Record CteOf (Q : Type) := { cte_query : Q; cte_rest : opaque }.
Record OrderByOf (E : Type) := { ob_expr : E; ob_rest : opaque }.

Arguments ArgExpr {E}. Arguments ArgWildcard {E}.
Arguments ArgNamed {E}. Arguments ArgExprNamed {E}. Arguments ArgUnnamed {E}.
Arguments ArgumentList {E}. Arguments ArgumentOther {E}.
Arguments UnnamedExpr {E}. Arguments ExprWithAlias {E}. Arguments QualifiedWildcard {E}.
Arguments Wildcard {E}. Arguments GroupByAll {E}. Arguments GroupByExpressions {E}.
Arguments On {E}. Arguments Using {E}. Arguments Natural {E}. Arguments NoConstraint {E}.
Arguments Constrained {E}. Arguments Unconstrained {E}.
Arguments as_target {E}. Arguments as_value {E}.
Arguments DuplicateKeyUpdate {E}. Arguments OnConflictDoNothing {E}.
Arguments OnConflictDoUpdate {E}. Arguments OnInsertOther {E}.
Arguments in_table_name {Q E}. Arguments in_table_alias {Q E}. Arguments in_columns {Q E}.
Arguments in_source {Q E}. Arguments in_on {Q E}. Arguments in_rest {Q E}.
Arguments up_table {T E}. Arguments up_assignments {T E}. Arguments up_from {T E}.
Arguments up_selection {T E}. Arguments up_rest {T E}.
Arguments WithFromKeyword {T}. Arguments WithoutKeyword {T}.
Arguments de_from {T E}. Arguments de_using {T E}. Arguments de_selection {T E}.
Arguments de_rest {T E}. Arguments CopyTable {Q}. Arguments CopyQuery {Q}.
Arguments jo_relation {F E}. Arguments jo_operator {F E}. Arguments jo_rest {F E}.
Arguments cte_query {Q}. Arguments cte_rest {Q}. Arguments ob_expr {E}. Arguments ob_rest {E}.

(** ** Expressions, queries and statements *)

#[warnings="-register-all"]
Inductive Expr :=
  | Identifier (ident : Ident)
  | CompoundIdentifier (idents : list Ident)
  | EValue (value : Value)
  | TypedString (rest : opaque)
  | Cast (expr : Expr) (rest : opaque)
  | Nested (inner : Expr)
  | Collate (inner : Expr) (rest : opaque)
  | UnaryOp (op : UnaryOperator) (inner : Expr)
  | IsNull (inner : Expr)
  | IsNotNull (inner : Expr)
  | IsTrue (inner : Expr)
  | IsNotTrue (inner : Expr)
  | IsFalse (inner : Expr)
  | IsNotFalse (inner : Expr)
  | BinaryOp (left : Expr) (op : BinaryOperator) (right : Expr)
  | AnyOp (left : Expr) (compare_op : BinaryOperator) (right : Expr) (rest : opaque)
  | AllOp (left : Expr) (compare_op : BinaryOperator) (right : Expr)
  | IsDistinctFrom (left right : Expr)
  | IsNotDistinctFrom (left right : Expr)
  | Like (expr pattern : Expr) (rest : opaque)
  | ILike (expr pattern : Expr) (rest : opaque)
  | SimilarTo (expr pattern : Expr) (rest : opaque)
  | Between (expr : Expr) (negated : bool) (low high : Expr)
  | InList (expr : Expr) (list_ : list Expr) (negated : bool)
  | Tuple (items : list Expr)
  | Case (operand : option Expr) (conditions results : list Expr) (else_result : option Expr)
  | Function (args : FunctionArguments Expr) (rest : opaque)
  | EArray (elem : list Expr) (named : bool)
  | Substring (expr : Expr) (substring_from substring_for : option Expr) (special : bool)
  | Subquery (query : Query)
  | Exists (subquery : Query) (negated : bool)
  | InSubquery (expr : Expr) (subquery : Query) (negated : bool)
  | ExprOther (rest : opaque)
with Query :=
  | MkQuery (with_ : option (list (CteOf Query) * opaque)) (body : SetExpr)
      (order_by : option (list (OrderByOf Expr) * opaque)) (rest : opaque)
with SetExpr :=
  | BodySelect (select : Select)
  | BodyQuery (query : Query)
  | SetOperation (left right : SetExpr) (rest : opaque)
  | BodyInsert (statement : Statement)
  | BodyUpdate (statement : Statement)
  | BodyValues (rows : list (list Expr)) (rest : opaque)
  | BodyTable (schema_name table_name : option bytes)
with Select :=
  | MkSelect (projection : list (SelectItem Expr)) (from : list TableWithJoins)
      (selection having : option Expr) (group_by : GroupByExpr Expr) (rest : opaque)
with TableWithJoins :=
  | MkTable (relation : TableFactor) (joins : list (JoinOf TableFactor Expr))
with TableFactor :=
  | Table (name : ObjectName) (alias : option TableAlias) (rest : opaque)
  | Derived (subquery : Query) (alias : option TableAlias) (rest : opaque)
  | NestedJoin (table_with_joins : TableWithJoins) (rest : opaque)
  | Pivot (table : TableFactor) (rest : opaque)
  | Unpivot (table : TableFactor) (rest : opaque)
  | MatchRecognize (table : TableFactor) (rest : opaque)
  | FactorOther (rest : opaque)
with Statement :=
  | Insert (insert : InsertOf Query Expr)
  | Update (update : UpdateOf TableWithJoins Expr)
  | QueryStatement (query : Query)
  | Delete (delete : DeleteOf TableWithJoins Expr)
  | Copy (source : CopySource Query) (to : bool) (rest : opaque)
  | Merge (table : TableFactor) (rest : opaque)
  | Prepare (statement : Statement) (rest : opaque)
  | StatementOther (rest : opaque).

End Ast.

(** ** Decidable equality

    [#[derive(PartialEq)]] of the crate. Every comparison of a container takes the
    comparison of its elements as an argument, so the mutual recursion is visible
    to the guard. *)

Section dec.
Context {A B : Type} (dA : ∀ x y : A, {x = y} + {x ≠ y}) (dB : ∀ x y : B, {x = y} + {x ≠ y}).

Definition opt_dec (x y : option A) : {x = y} + {x ≠ y}.
Proof. decide equality. Defined.
Definition pair_dec (x y : A * B) : {x = y} + {x ≠ y}.
Proof. decide equality. Defined.
Fixpoint seq_dec (x y : list A) : {x = y} + {x ≠ y}.
Proof. decide equality. Defined.

End dec.

Module AstEq.
Import Ast.

Definition bytes_dec (x y : bytes) : {x = y} + {x ≠ y} := seq_dec byte_eq_dec x y.

Ltac leaf := solve [decide equality; auto using bytes_dec, Z.eq_dec, bool_dec].

Definition ident_dec (x y : Ident) : {x = y} + {x ≠ y}.
Proof. decide equality; [apply opt_dec, Z.eq_dec|apply bytes_dec]. Defined.
Definition name_dec (x y : ObjectName) : {x = y} + {x ≠ y} := seq_dec ident_dec x y.
Definition alias_dec (x y : TableAlias) : {x = y} + {x ≠ y}.
Proof. decide equality; [apply bytes_dec|apply ident_dec]. Defined.
Definition value_dec (x y : Value) : {x = y} + {x ≠ y}.
Proof. leaf. Defined.
Definition binary_dec (x y : BinaryOperator) : {x = y} + {x ≠ y}.
Proof. leaf. Defined.
Definition unary_dec (x y : UnaryOperator) : {x = y} + {x ≠ y}.
Proof. leaf. Defined.
Definition target_dec (x y : AssignmentTarget) : {x = y} + {x ≠ y}.
Proof. decide equality; [apply name_dec|apply seq_dec, name_dec]. Defined.
Definition conflict_dec (x y : ConflictTarget) : {x = y} + {x ≠ y}.
Proof. decide equality; [apply seq_dec, ident_dec|apply bytes_dec]. Defined.
Definition kind_dec (x y : JoinKind) : {x = y} + {x ≠ y}.
Proof. leaf. Defined.
Definition cross_dec (x y : CrossKind) : {x = y} + {x ≠ y}.
Proof. leaf. Defined.

Create HintDb eqs.

Section containers.
Context {E F Q T : Type}.
Context (dE : ∀ x y : E, {x = y} + {x ≠ y}) (dF : ∀ x y : F, {x = y} + {x ≠ y}).
Context (dQ : ∀ x y : Q, {x = y} + {x ≠ y}) (dT : ∀ x y : T, {x = y} + {x ≠ y}).

#[local] Hint Resolve bytes_dec ident_dec name_dec target_dec kind_dec cross_dec opt_dec seq_dec
  conflict_dec bool_dec : eqs.

Definition arg_expr_dec (x y : FunctionArgExpr E) : {x = y} + {x ≠ y}.
Proof. decide equality; auto with eqs. Defined.
Definition arg_dec (x y : FunctionArg E) : {x = y} + {x ≠ y}.
Proof. decide equality; auto using arg_expr_dec with eqs. Defined.
Definition args_dec (x y : FunctionArguments E) : {x = y} + {x ≠ y}.
Proof. decide equality; auto using arg_dec with eqs. Defined.
Definition item_dec (x y : SelectItem E) : {x = y} + {x ≠ y}.
Proof. decide equality; auto with eqs. Defined.
Definition group_dec (x y : GroupByExpr E) : {x = y} + {x ≠ y}.
Proof. decide equality; auto with eqs. Defined.
Definition constraint_dec (x y : JoinConstraint E) : {x = y} + {x ≠ y}.
Proof. decide equality; auto with eqs. Defined.
Definition operator_dec (x y : JoinOperator E) : {x = y} + {x ≠ y}.
Proof. decide equality; auto using constraint_dec with eqs. Defined.
Definition assignment_dec (x y : Assignment E) : {x = y} + {x ≠ y}.
Proof. decide equality; auto with eqs. Defined.
Definition on_dec (x y : OnInsert E) : {x = y} + {x ≠ y}.
Proof. decide equality; auto using assignment_dec with eqs. Defined.
Definition insert_dec (x y : InsertOf Q E) : {x = y} + {x ≠ y}.
Proof. decide equality; auto using on_dec with eqs. Defined.
Definition update_dec (x y : UpdateOf T E) : {x = y} + {x ≠ y}.
Proof. decide equality; auto using assignment_dec with eqs. Defined.
Definition from_dec (x y : FromTable T) : {x = y} + {x ≠ y}.
Proof. decide equality; auto with eqs. Defined.
Definition delete_dec (x y : DeleteOf T E) : {x = y} + {x ≠ y}.
Proof. decide equality; auto using from_dec with eqs. Defined.
Definition source_dec (x y : CopySource Q) : {x = y} + {x ≠ y}.
Proof. decide equality; auto with eqs. Defined.
Definition join_dec (x y : JoinOf F E) : {x = y} + {x ≠ y}.
Proof. decide equality; auto using operator_dec with eqs. Defined.
Definition cte_dec (x y : CteOf Q) : {x = y} + {x ≠ y}.
Proof. decide equality; auto with eqs. Defined.
Definition order_dec (x y : OrderByOf E) : {x = y} + {x ≠ y}.
Proof. decide equality; auto with eqs. Defined.

End containers.

Ltac part expr query body select twj factor statement :=
  first [apply expr | apply query | apply body | apply select | apply twj | apply factor
        | apply statement
        | apply (opt_dec expr) | apply (seq_dec expr) | apply (seq_dec (seq_dec expr))
        | apply (args_dec expr) | apply (seq_dec (item_dec expr)) | apply (group_dec expr)
        | apply (opt_dec (pair_dec (seq_dec (cte_dec query)) bytes_dec))
        | apply (opt_dec (pair_dec (seq_dec (order_dec expr)) bytes_dec))
        | apply (seq_dec twj) | apply (seq_dec (join_dec expr factor))
        | apply (insert_dec expr query) | apply (update_dec expr twj)
        | apply (delete_dec expr twj) | apply (source_dec query)
        | apply bytes_dec | apply name_dec | apply ident_dec | apply value_dec | apply binary_dec
        | apply unary_dec | apply bool_dec | apply (opt_dec bytes_dec) | apply (opt_dec alias_dec)
        | apply (seq_dec ident_dec)].

Fixpoint expr_dec (x y : Expr) {struct x} : {x = y} + {x ≠ y}
with query_dec (x y : Query) {struct x} : {x = y} + {x ≠ y}
with body_dec (x y : SetExpr) {struct x} : {x = y} + {x ≠ y}
with select_dec (x y : Select) {struct x} : {x = y} + {x ≠ y}
with twj_dec (x y : TableWithJoins) {struct x} : {x = y} + {x ≠ y}
with factor_dec (x y : TableFactor) {struct x} : {x = y} + {x ≠ y}
with statement_dec (x y : Statement) {struct x} : {x = y} + {x ≠ y}.
Proof.
  all: decide equality;
    part expr_dec query_dec body_dec select_dec twj_dec factor_dec statement_dec.
Defined.

#[export] Instance Expr_eq_dec : EqDecision Expr := expr_dec.
#[export] Instance Statement_eq_dec : EqDecision Statement := statement_dec.

End AstEq.
