(* ===== verification/Utf8.v ===== *)
(** * Rust strings

    A [str] is its UTF-8 bytes. This file models what the program uses of
    [core::str] and of the ASCII methods of [u8] and [char]: validation and
    decoding ([from_utf8], [chars]), encoding ([char::encode_utf8]), character
    boundaries, [trim], and ASCII classification and case. *)

From S2P Require Import Prelude.

Local Open Scope Z_scope.

(** ** ASCII *)

Definition is_ascii_digit (b : byte) : bool := in_range 48 57 b.
Definition is_ascii_uppercase (b : byte) : bool := in_range 65 90 b.
Definition is_ascii_lowercase (b : byte) : bool := in_range 97 122 b.
Definition is_ascii_alphanumeric (b : byte) : bool :=
  is_ascii_digit b || is_ascii_uppercase b || is_ascii_lowercase b.
Definition is_ascii_hexdigit (b : byte) : bool :=
  is_ascii_digit b || in_range 65 70 b || in_range 97 102 b.
(** [u8::is_ascii_whitespace]: space, tab, line feed, form feed, return. *)
Definition is_ascii_whitespace (b : byte) : bool :=
  bool_decide (b ∈ [x20; x09; x0a; x0c; x0d]).

Definition to_ascii_lowercase (b : byte) : byte :=
  if is_ascii_uppercase b then z2b (b2z b + 32) else b.

Definition eq_ignore_ascii_case (a b : bytes) : bool :=
  bool_decide (to_ascii_lowercase <$> a = to_ascii_lowercase <$> b).

(** ** Validation and decoding *)

Definition cont (b : byte) : bool := in_range 128 191 b.

Definition three_ok (b0 b1 : byte) : bool :=
  (in_range 224 224 b0 && in_range 160 191 b1)
  || (in_range 225 236 b0 && cont b1)
  || (in_range 237 237 b0 && in_range 128 159 b1)
  || (in_range 238 239 b0 && cont b1).

Definition four_ok (b0 b1 : byte) : bool :=
  (in_range 240 240 b0 && in_range 144 191 b1)
  || (in_range 241 243 b0 && cont b1)
  || (in_range 244 244 b0 && in_range 128 143 b1).

Definition cp2 (b0 b1 : byte) : Z := (b2z b0 - 192) * 64 + (b2z b1 - 128).
Definition cp3 (b0 b1 b2 : byte) : Z :=
  (b2z b0 - 224) * 4096 + (b2z b1 - 128) * 64 + (b2z b2 - 128).
Definition cp4 (b0 b1 b2 b3 : byte) : Z :=
  (b2z b0 - 240) * 262144 + (b2z b1 - 128) * 4096 + (b2z b2 - 128) * 64 + (b2z b3 - 128).

(** The scalar values of a byte string, [None] when it is not UTF-8. *)
Fixpoint decode_utf8 (l : bytes) : option (list Z) :=
  match l with
  | [] => Some []
  | b0 :: l1 =>
      if in_range 0 127 b0 then cons (b2z b0) <$> decode_utf8 l1
      else match l1 with
      | [] => None
      | b1 :: l2 =>
          if in_range 194 223 b0 && cont b1 then cons (cp2 b0 b1) <$> decode_utf8 l2
          else match l2 with
          | [] => None
          | b2 :: l3 =>
              if three_ok b0 b1 && cont b2 then cons (cp3 b0 b1 b2) <$> decode_utf8 l3
              else match l3 with
              | [] => None
              | b3 :: l4 =>
                  if four_ok b0 b1 && cont b2 && cont b3
                  then cons (cp4 b0 b1 b2 b3) <$> decode_utf8 l4
                  else None
              end
          end
      end
  end.

Definition is_utf8 (l : bytes) : bool := bool_decide (is_Some (decode_utf8 l)).

(** [String::from_utf8_lossy]: one U+FFFD for every maximal prefix of a sequence
    that does not complete. *)
Definition replacement : bytes := [xef; xbf; xbd].

Fixpoint from_utf8_lossy (l : bytes) : bytes :=
  match l with
  | [] => []
  | b0 :: l1 =>
      if in_range 0 127 b0 then b0 :: from_utf8_lossy l1
      else if in_range 194 223 b0 then
        match l1 with
        | b1 :: l2 =>
            if cont b1 then b0 :: b1 :: from_utf8_lossy l2 else replacement ++ from_utf8_lossy l1
        | [] => replacement
        end
      else
        match l1 with
        | b1 :: l2 =>
            if three_ok b0 b1 then
              match l2 with
              | b2 :: l3 =>
                  if cont b2 then b0 :: b1 :: b2 :: from_utf8_lossy l3
                  else replacement ++ from_utf8_lossy l2
              | [] => replacement
              end
            else if four_ok b0 b1 then
              match l2 with
              | b2 :: l3 =>
                  if cont b2 then
                    match l3 with
                    | b3 :: l4 =>
                        if cont b3 then b0 :: b1 :: b2 :: b3 :: from_utf8_lossy l4
                        else replacement ++ from_utf8_lossy l3
                    | [] => replacement
                    end
                  else replacement ++ from_utf8_lossy l2
              | [] => replacement
              end
            else replacement ++ from_utf8_lossy l1
        | [] => replacement
        end
  end.

(** [s.chars()] of a string already known to be valid. *)
Definition chars (l : bytes) : list Z := default [] (decode_utf8 l).

(** ** Encoding *)

Definition valid_scalar (z : Z) : Prop := 0 ≤ z < 55296 ∨ 57344 ≤ z ≤ 1114111.

#[global] Instance valid_scalar_dec z : Decision (valid_scalar z).
Proof. unfold valid_scalar. apply _. Defined.

Definition encode_char (z : Z) : bytes :=
  if z <? 128 then [z2b z]
  else if z <? 2048 then [z2b (192 + z / 64); z2b (128 + z mod 64)]
  else if z <? 65536 then
    [z2b (224 + z / 4096); z2b (128 + z / 64 mod 64); z2b (128 + z mod 64)]
  else
    [z2b (240 + z / 262144); z2b (128 + z / 4096 mod 64); z2b (128 + z / 64 mod 64);
     z2b (128 + z mod 64)].

Definition encode_utf8 (cs : list Z) : bytes := concat (encode_char <$> cs).

(** ** Boundaries and trimming *)

Definition is_char_boundary (l : bytes) (i : nat) : bool :=
  match i with
  | O => true
  | _ => match l !! i with
         | Some b => negb (cont b)
         | None => bool_decide (i = length l)
         end
  end.

(** [char::is_whitespace]: the Unicode [White_Space] property. *)
Definition is_whitespace (c : Z) : bool :=
  ((9 <=? c) && (c <=? 13)) || (c =? 32) || (c =? 133) || (c =? 160) || (c =? 5760)
  || ((8192 <=? c) && (c <=? 8202)) || (c =? 8232) || (c =? 8233) || (c =? 8239)
  || (c =? 8287) || (c =? 12288).

Fixpoint drop_while {A} (f : A → bool) (l : list A) : list A :=
  match l with
  | [] => []
  | x :: l' => if f x then drop_while f l' else l
  end.

Definition trim_chars (cs : list Z) : list Z :=
  reverse (drop_while is_whitespace (reverse (drop_while is_whitespace cs))).

Definition trim_start (l : bytes) : bytes :=
  encode_utf8 (drop_while is_whitespace (chars l)).

Definition trim (l : bytes) : bytes := encode_utf8 (trim_chars (chars l)).

(** ** Lemmas *)

(** Turns range tests on bytes into inequalities for [lia]. *)
Ltac byte_lia :=
  unfold three_ok, four_ok, cont, in_range, cp2, cp3, cp4 in *;
  repeat match goal with
  | b : byte |- _ =>
      lazymatch goal with
      | _ : 0 ≤ b2z b < 256 |- _ => fail
      | _ => pose proof (b2z_range b)
      end
  end;
  Z.to_euclidean_division_equations; lia.

(** Linear arithmetic with division and remainder by constants. *)
Ltac div_lia := Z.to_euclidean_division_equations; lia.

(** The shapes one encoded scalar can take. *)
Inductive one_char : bytes → Z → Prop :=
  | one_char1 b0 : in_range 0 127 b0 = true → one_char [b0] (b2z b0)
  | one_char2 b0 b1 :
      in_range 194 223 b0 = true → cont b1 = true → one_char [b0; b1] (cp2 b0 b1)
  | one_char3 b0 b1 b2 :
      three_ok b0 b1 = true → cont b2 = true → one_char [b0; b1; b2] (cp3 b0 b1 b2)
  | one_char4 b0 b1 b2 b3 :
      four_ok b0 b1 = true → cont b2 = true → cont b3 = true →
      one_char [b0; b1; b2; b3] (cp4 b0 b1 b2 b3).

Lemma decode_utf8_one e z r :
  one_char e z → decode_utf8 (e ++ r) = cons z <$> decode_utf8 r.
Proof.
  destruct 1 as [b0 H0|b0 b1 H0 H1|b0 b1 b2 H0 H2|b0 b1 b2 b3 H0 H2 H3]; simpl.
  - by rewrite H0.
  - assert (in_range 0 127 b0 = false) as -> by byte_lia. by rewrite H0, H1.
  - assert (in_range 0 127 b0 = false) as -> by byte_lia.
    assert (in_range 194 223 b0 = false) as -> by byte_lia. simpl. by rewrite H0, H2.
  - assert (in_range 0 127 b0 = false) as -> by byte_lia.
    assert (in_range 194 223 b0 = false) as -> by byte_lia. simpl.
    assert (three_ok b0 b1 = false) as -> by byte_lia. simpl. by rewrite H0, H2, H3.
Qed.

Lemma decode_utf8_inv l cs :
  decode_utf8 l = Some cs →
  (l = [] ∧ cs = []) ∨
  ∃ e z r cs', l = e ++ r ∧ cs = z :: cs' ∧ one_char e z ∧ decode_utf8 r = Some cs'.
Proof.
  destruct l as [|b0 l1]; [intros [= <-]; by left|]. simpl. intros H. right.
  destruct (in_range 0 127 b0) eqn:H0.
  { apply fmap_Some in H as (cs' & H & ->).
    exists [b0], (b2z b0), l1, cs'. eauto using one_char1. }
  destruct l1 as [|b1 l2]; [done|].
  destruct (in_range 194 223 b0 && cont b1) eqn:H1; case_bool.
  { apply fmap_Some in H as (cs' & H & ->).
    exists [b0; b1], (cp2 b0 b1), l2, cs'. eauto using one_char2. }
  destruct l2 as [|b2 l3]; [done|].
  destruct (three_ok b0 b1 && cont b2) eqn:H2; case_bool.
  { apply fmap_Some in H as (cs' & H & ->).
    exists [b0; b1; b2], (cp3 b0 b1 b2), l3, cs'. eauto using one_char3. }
  destruct l3 as [|b3 l4]; [done|].
  destruct (four_ok b0 b1 && cont b2 && cont b3) eqn:H3; [|done]. case_bool.
  apply fmap_Some in H as (cs' & H & ->).
  exists [b0; b1; b2; b3], (cp4 b0 b1 b2 b3), l4, cs'. eauto using one_char4.
Qed.

Lemma one_char_scalar e z : one_char e z → valid_scalar z.
Proof. unfold valid_scalar. destruct 1; byte_lia. Qed.

Lemma one_char_nonempty e z : one_char e z → (0 < length e)%nat.
Proof. destruct 1; simpl; lia. Qed.

(** Induction along the decoder: the string, one character at a time. *)
Lemma utf8_ind (P : bytes → list Z → Prop) :
  P [] [] →
  (∀ e z r cs, one_char e z → decode_utf8 r = Some cs → P r cs → P (e ++ r) (z :: cs)) →
  ∀ l cs, decode_utf8 l = Some cs → P l cs.
Proof.
  intros H0 H1 l. remember (length l) as n eqn:Hn. revert l Hn.
  induction (lt_wf n) as [n _ IH]. intros l -> cs Hd.
  apply decode_utf8_inv in Hd as [[-> ->]|(e & z & r & cs' & -> & -> & He & Hr)]; [done|].
  apply H1; [done..|]. pose proof (one_char_nonempty _ _ He).
  eapply (IH (length r)); [|done..]. rewrite length_app. lia.
Qed.

Lemma one_char_encode e z : one_char e z → encode_char z = e.
Proof.
  intros He. unfold encode_char.
  destruct He as [b0 H0|b0 b1 H0 H1|b0 b1 b2 H0 H2|b0 b1 b2 b3 H0 H2 H3].
  - destruct (Z.ltb_spec (b2z b0) 128); [|byte_lia]. by rewrite z2b_b2z.
  - destruct (Z.ltb_spec (cp2 b0 b1) 128); [byte_lia|].
    destruct (Z.ltb_spec (cp2 b0 b1) 2048); [|byte_lia].
    repeat f_equal; apply b2z_inj; rewrite b2z_z2b_small; byte_lia.
  - destruct (Z.ltb_spec (cp3 b0 b1 b2) 128); [byte_lia|].
    destruct (Z.ltb_spec (cp3 b0 b1 b2) 2048); [byte_lia|].
    destruct (Z.ltb_spec (cp3 b0 b1 b2) 65536); [|byte_lia].
    repeat f_equal; apply b2z_inj; rewrite b2z_z2b_small; byte_lia.
  - destruct (Z.ltb_spec (cp4 b0 b1 b2 b3) 128); [byte_lia|].
    destruct (Z.ltb_spec (cp4 b0 b1 b2 b3) 2048); [byte_lia|].
    destruct (Z.ltb_spec (cp4 b0 b1 b2 b3) 65536); [byte_lia|].
    repeat f_equal; apply b2z_inj; rewrite b2z_z2b_small; byte_lia.
Qed.

Lemma encode_char_one z : valid_scalar z → one_char (encode_char z) z.
Proof.
  unfold valid_scalar. intros Hz. unfold encode_char.
  destruct (Z.ltb_spec z 128).
  { rewrite <- (b2z_z2b_small z) at 2 by div_lia. constructor.
    apply in_range_spec. rewrite b2z_z2b_small; div_lia. }
  destruct (Z.ltb_spec z 2048).
  { assert (z = cp2 (z2b (192 + z / 64)) (z2b (128 + z mod 64))) as E
      by (unfold cp2; rewrite !b2z_z2b_small by div_lia; div_lia).
    rewrite E at 3. constructor; apply in_range_spec; rewrite b2z_z2b_small; div_lia. }
  destruct (Z.ltb_spec z 65536).
  { assert (z = cp3 (z2b (224 + z / 4096)) (z2b (128 + z / 64 mod 64))
                    (z2b (128 + z mod 64))) as E
      by (unfold cp3; rewrite !b2z_z2b_small by div_lia; div_lia).
    rewrite E at 4. constructor.
    - unfold three_ok, cont, in_range. rewrite !b2z_z2b_small by div_lia. div_lia.
    - apply in_range_spec; rewrite b2z_z2b_small; div_lia. }
  assert (z = cp4 (z2b (240 + z / 262144)) (z2b (128 + z / 4096 mod 64))
                  (z2b (128 + z / 64 mod 64)) (z2b (128 + z mod 64))) as E
    by (unfold cp4; rewrite !b2z_z2b_small by div_lia; div_lia).
  rewrite E at 5. constructor.
  - unfold four_ok, cont, in_range. rewrite !b2z_z2b_small by div_lia. div_lia.
  - apply in_range_spec; rewrite b2z_z2b_small; div_lia.
  - apply in_range_spec; rewrite b2z_z2b_small; div_lia.
Qed.

Lemma decode_utf8_app l cs r :
  decode_utf8 l = Some cs → decode_utf8 (l ++ r) = app cs <$> decode_utf8 r.
Proof.
  revert l cs. apply (utf8_ind (λ l cs, decode_utf8 (l ++ r) = app cs <$> decode_utf8 r)).
  - simpl. by destruct (decode_utf8 r).
  - intros e z r' cs He _ IH. rewrite <- app_assoc, (decode_utf8_one _ _ _ He), IH.
    by destruct (decode_utf8 r).
Qed.

Lemma encode_decode_utf8 l cs :
  decode_utf8 l = Some cs → encode_utf8 cs = l ∧ Forall valid_scalar cs.
Proof.
  revert l cs. apply utf8_ind; [done|].
  intros e z r cs He _ [IH1 IH2]. split.
  - change (encode_char z ++ encode_utf8 cs = e ++ r).
    by rewrite (one_char_encode _ _ He), IH1.
  - constructor; eauto using one_char_scalar.
Qed.

Lemma decode_encode_utf8 cs :
  Forall valid_scalar cs → decode_utf8 (encode_utf8 cs) = Some cs.
Proof.
  induction 1 as [|z cs Hz _ IH]; [done|].
  change (encode_utf8 (z :: cs)) with (encode_char z ++ encode_utf8 cs).
  by rewrite (decode_utf8_one _ _ _ (encode_char_one _ Hz)), IH.
Qed.

Lemma is_utf8_spec l : is_utf8 l = true ↔ decode_utf8 l = Some (chars l).
Proof.
  unfold is_utf8, chars. rewrite bool_decide_eq_true.
  by destruct (decode_utf8 l).
Qed.

Lemma is_utf8_false l : is_utf8 l = false ↔ decode_utf8 l = None.
Proof.
  unfold is_utf8. by rewrite bool_decide_eq_false, <- eq_None_not_Some.
Qed.

(** Every byte of an encoded scalar but the first is a continuation byte. *)
Lemma one_char_cont e z i b :
  one_char e z → e !! i = Some b → (0 < i)%nat → cont b = true.
Proof.
  intros He Hi Hpos.
  destruct He, i as [|[|[|[|i]]]]; simpl in Hi; simplify_eq; try lia; byte_lia.
Qed.

Lemma one_char_first e z b : one_char e z → e !! 0%nat = Some b → cont b = false.
Proof. intros He Hi. destruct He; simpl in Hi; simplify_eq; byte_lia. Qed.

(** A prefix that ends on a character boundary is still valid UTF-8. *)
Lemma take_boundary_utf8 l cs i :
  decode_utf8 l = Some cs → is_char_boundary l i = true → (i ≤ length l)%nat →
  ∃ cs', decode_utf8 (take i l) = Some cs' ∧ cs' `prefix_of` cs.
Proof.
  intros Hd. revert i. revert l cs Hd.
  apply (utf8_ind (λ l cs, ∀ i, is_char_boundary l i = true → (i ≤ length l)%nat →
    ∃ cs', decode_utf8 (take i l) = Some cs' ∧ cs' `prefix_of` cs)).
  - intros i _ _. exists []. by rewrite take_nil.
  - intros e z r cs He Hr IH i Hb Hi.
    destruct (decide (i = 0)%nat) as [->|Hi0].
    { exists []. split; [done|]. apply prefix_nil. }
    destruct (decide (i < length e)%nat) as [Hlt|Hge].
    { exfalso. destruct (lookup_lt_is_Some_2 e i Hlt) as [b Eb].
      unfold is_char_boundary in Hb. destruct i as [|i]; [lia|].
      rewrite lookup_app_l, Eb in Hb by done.
      pose proof (one_char_cont _ _ _ _ He Eb). rewrite H in Hb; [done|lia]. }
    rewrite take_app_ge by lia.
    destruct (IH (i - length e)%nat) as (cs' & Hd & Hp).
    + unfold is_char_boundary in *. destruct i as [|i]; [lia|].
      destruct (S i - length e)%nat as [|j] eqn:Ej; [done|].
      rewrite lookup_app_r, Ej in Hb by lia.
      destruct (r !! S j) eqn:Er; [done|].
      apply bool_decide_eq_true in Hb. rewrite length_app in Hb.
      apply bool_decide_eq_true. lia.
    + rewrite length_app in Hi. lia.
    + exists (z :: cs'). rewrite (decode_utf8_one _ _ _ He), Hd. split; [done|].
      by apply prefix_cons.
Qed.

(** ASCII case folding maps characters one to one. *)
Lemma to_ascii_lowercase_high b : (127 < b2z b)%Z → to_ascii_lowercase b = b.
Proof.
  intros H. unfold to_ascii_lowercase, is_ascii_uppercase.
  destruct (in_range 65 90 b) eqn:E; [|done]. apply in_range_spec in E. lia.
Qed.

Lemma to_ascii_lowercase_low b :
  (b2z b ≤ 127)%Z → (b2z (to_ascii_lowercase b) ≤ 127)%Z.
Proof.
  intros H. unfold to_ascii_lowercase, is_ascii_uppercase.
  destruct (in_range 65 90 b) eqn:E; [|done]. apply in_range_spec in E.
  rewrite b2z_z2b_small; lia.
Qed.

Lemma to_ascii_lowercase_idemp b :
  to_ascii_lowercase (to_ascii_lowercase b) = to_ascii_lowercase b.
Proof.
  unfold to_ascii_lowercase at 1.
  destruct (is_ascii_uppercase (to_ascii_lowercase b)) eqn:E; [|done].
  exfalso. unfold is_ascii_uppercase, to_ascii_lowercase in E.
  destruct (is_ascii_uppercase b) eqn:E2; apply in_range_spec in E.
  - apply in_range_spec in E2. rewrite b2z_z2b_small in E; lia.
  - unfold is_ascii_uppercase, in_range in E2. lia.
Qed.

Lemma one_char_lowercase e z :
  one_char e z → ∃ z', one_char (to_ascii_lowercase <$> e) z'.
Proof.
  destruct 1 as [b0 H0|b0 b1 H0 H1|b0 b1 b2 H0 H2|b0 b1 b2 b3 H0 H2 H3]; simpl.
  - exists (b2z (to_ascii_lowercase b0)). constructor.
    apply in_range_spec in H0. apply in_range_spec.
    pose proof (to_ascii_lowercase_low b0). pose proof (b2z_range (to_ascii_lowercase b0)). lia.
  - rewrite !to_ascii_lowercase_high by byte_lia. eauto using one_char2.
  - rewrite !to_ascii_lowercase_high by byte_lia. eauto using one_char3.
  - rewrite !to_ascii_lowercase_high by byte_lia. eauto using one_char4.
Qed.

Lemma lowercase_utf8 l : is_utf8 l = true → is_utf8 (to_ascii_lowercase <$> l) = true.
Proof.
  rewrite is_utf8_spec. unfold is_utf8. rewrite bool_decide_eq_true.
  generalize (chars l). intros cs. revert l cs.
  apply (utf8_ind (λ l _, is_Some (decode_utf8 (to_ascii_lowercase <$> l)))); [by eexists|].
  intros e z r cs He _ [cs' IH]. rewrite fmap_app.
  destruct (one_char_lowercase _ _ He) as [z' He'].
  rewrite (decode_utf8_one _ _ _ He'), IH. by eexists.
Qed.

(** An ASCII string is its own list of scalar values. *)
Lemma decode_ascii l :
  Forall (λ b, b2z b ≤ 127) l → decode_utf8 l = Some (b2z <$> l).
Proof.
  induction 1 as [|b l Hb _ IH]; [done|].
  change (b :: l) with ([b] ++ l). rewrite (decode_utf8_one _ (b2z b)), IH; [done|].
  constructor. apply in_range_spec. pose proof (b2z_range b). lia.
Qed.

Lemma encode_ascii l :
  Forall (λ b, b2z b ≤ 127) l → encode_utf8 (b2z <$> l) = l.
Proof. intros H. by apply encode_decode_utf8, decode_ascii. Qed.

Lemma drop_while_id {A} (f : A → bool) l :
  (∀ x, head l = Some x → f x = false) → drop_while f l = l.
Proof. destruct l as [|x l]; [done|]. simpl. intros H. by rewrite H. Qed.

(** [trim] leaves a string without surrounding whitespace alone. *)
Lemma trim_chars_id cs :
  Forall (λ c, is_whitespace c = false) cs → trim_chars cs = cs.
Proof.
  intros H. unfold trim_chars.
  rewrite (drop_while_id _ cs), (drop_while_id _ (reverse cs)).
  - apply reverse_involutive.
  - intros x Hx. apply (Forall_forall _ _) with (x := x) in H; [done|].
    apply elem_of_reverse. apply head_Some_elem_of in Hx. done.
  - intros x Hx. apply head_Some_elem_of in Hx. by apply (Forall_forall _ _) with (x := x) in H.
Qed.

Lemma trim_ascii_id l :
  Forall (λ b, b2z b ≤ 127 ∧ is_whitespace (b2z b) = false) l → trim l = l.
Proof.
  intros H. unfold trim, chars.
  rewrite decode_ascii by (eapply Forall_impl; [exact H|naive_solver]). simpl.
  rewrite trim_chars_id; [|apply Forall_fmap; eapply Forall_impl; [exact H|naive_solver]].
  apply encode_ascii. eapply Forall_impl; [exact H|naive_solver].
Qed.

(** ** Slices and trimming *)

Lemma utf8_app l r : is_utf8 l = true → is_utf8 r = true → is_utf8 (l ++ r) = true.
Proof.
  intros Hl%is_utf8_spec Hr%is_utf8_spec. apply bool_decide_eq_true.
  rewrite (decode_utf8_app _ _ _ Hl), Hr. by eexists.
Qed.

Lemma utf8_app_r l r : is_utf8 l = true → is_utf8 (l ++ r) = true → is_utf8 r = true.
Proof.
  intros Hl%is_utf8_spec Hlr%is_utf8_spec. apply bool_decide_eq_true.
  rewrite (decode_utf8_app _ _ _ Hl) in Hlr. by destruct (decode_utf8 r).
Qed.

Lemma utf8_encode cs : Forall valid_scalar cs → is_utf8 (encode_utf8 cs) = true.
Proof. intros H. apply bool_decide_eq_true. rewrite decode_encode_utf8 by done. by eexists. Qed.

(** A string never begins in the middle of a character. *)
Lemma utf8_head b l : is_utf8 (b :: l) = true → cont b = false.
Proof.
  intros [[??]|(e & z & r & cs & E & _ & He & _)]%is_utf8_spec%decode_utf8_inv; [done|].
  apply (one_char_first _ _ _ He). destruct e as [|b' e]; [by inversion He|].
  by injection E as <- _.
Qed.

Lemma boundary_app l r : is_utf8 r = true → is_char_boundary (l ++ r) (length l) = true.
Proof.
  intros Hr. unfold is_char_boundary. destruct (length l) as [|n] eqn:E; [done|].
  rewrite lookup_app_r, E, Nat.sub_diag by lia. destruct r as [|b r]; simpl.
  - rewrite app_nil_r, E. by apply bool_decide_eq_true.
  - by rewrite (utf8_head _ _ Hr).
Qed.

(** An ASCII byte ends a character. *)
Lemma boundary_after_ascii l i b :
  is_utf8 l = true → l !! i = Some b → in_range 0 127 b = true →
  is_char_boundary l (S i) = true.
Proof.
  intros Hl%is_utf8_spec. revert i. revert Hl. generalize (chars l) as cs. intros cs. revert l cs.
  apply (utf8_ind (λ l cs, ∀ i, l !! i = Some b → in_range 0 127 b = true →
    is_char_boundary l (S i) = true)).
  - intros i. by rewrite lookup_nil.
  - intros e z r cs He Hr IH i Hi Hb.
    assert (is_utf8 r = true) as Hu by (apply bool_decide_eq_true; rewrite Hr; by eexists).
    destruct (decide (i < length e)%nat) as [Hlt|Hge].
    + rewrite lookup_app_l in Hi by done.
      assert (S i = length e) as ->; [|by apply boundary_app].
      destruct He; simpl in *; [lia|exfalso..];
        repeat (destruct i as [|i]; simpl in Hi; [injection Hi as ->; byte_lia|]); done.
    + rewrite lookup_app_r in Hi by lia. specialize (IH _ Hi Hb).
      unfold is_char_boundary in *. rewrite lookup_app_r by lia.
      replace (S i - length e)%nat with (S (i - length e)) by lia.
      destruct (r !! S (i - length e)); [done|]. apply bool_decide_eq_true in IH.
      apply bool_decide_eq_true. rewrite length_app. lia.
Qed.

Lemma boundary_at l i b : l !! i = Some b → cont b = false → is_char_boundary l i = true.
Proof. intros Hi Hb. destruct i as [|i]; [done|]. simpl. by rewrite Hi, Hb. Qed.

Lemma drop_while_suffix {A} (f : A → bool) l : ∃ w, l = w ++ drop_while f l.
Proof.
  induction l as [|x l [w IH]]; [by exists []|]. simpl. destruct (f x); [|by exists []].
  exists (x :: w). simpl. by f_equal.
Qed.

Lemma encode_utf8_app cs1 cs2 : encode_utf8 (cs1 ++ cs2) = encode_utf8 cs1 ++ encode_utf8 cs2.
Proof. unfold encode_utf8. by rewrite fmap_app, concat_app. Qed.

(** [trim] and [trim_start] cut whole characters off the ends. *)
Lemma trim_spec l :
  is_utf8 l = true → ∃ w1 w2, l = w1 ++ trim l ++ w2 ∧ trim_start l = trim l ++ w2 ∧
    is_utf8 w1 = true ∧ is_utf8 (trim l) = true ∧ is_utf8 w2 = true.
Proof.
  intros Hl%is_utf8_spec. apply encode_decode_utf8 in Hl as [Henc Hv].
  unfold trim, trim_start, trim_chars.
  destruct (drop_while_suffix is_whitespace (chars l)) as [c1 Hc1].
  set (d := drop_while is_whitespace (chars l)) in *.
  destruct (drop_while_suffix is_whitespace (reverse d)) as [c2 Hc2].
  set (t := drop_while is_whitespace (reverse d)) in *.
  assert (d = reverse t ++ reverse c2) as Hd.
  { by rewrite <- reverse_app, <- Hc2, reverse_involutive. }
  rewrite Hc1, Hd in Hv. apply Forall_app in Hv as [Hv1 [Hv2 Hv3]%Forall_app].
  exists (encode_utf8 c1), (encode_utf8 (reverse c2)).
  split_and!; [|by rewrite Hd, encode_utf8_app|by apply utf8_encode..].
  rewrite <- encode_utf8_app, <- Hd, <- encode_utf8_app, <- Hc1. done.
Qed.

Lemma trim_not_utf8 l : is_utf8 l = false → trim l = [].
Proof. intros Hl%is_utf8_false. unfold trim, chars. by rewrite Hl. Qed.

Lemma drop_boundary_utf8 l i :
  is_utf8 l = true → is_char_boundary l i = true → (i ≤ length l)%nat → is_utf8 (drop i l) = true.
Proof.
  intros Hl Hb Hi. pose proof Hl as Hd. apply is_utf8_spec in Hd.
  destruct (take_boundary_utf8 _ _ _ Hd Hb Hi) as (cs & Ht & _).
  apply (utf8_app_r (take i l)); [|by rewrite take_drop].
  apply bool_decide_eq_true. rewrite Ht. by eexists.
Qed.
