(* ===== verification/IntText.v ===== *)
(** * Integers as text

    [ToString] and [FromStr] of Rust's integers: decimal, an optional sign on
    input, refused on an empty digit string and outside the type's range. *)

From S2P Require Import Prelude Utf8.

Local Open Scope Z_scope.

(** The decimal numerals of a non-negative integer, most significant first. *)
Fixpoint numerals_fuel (fuel : nat) (z : Z) : list Z :=
  match fuel with
  | O => []
  | S fuel => if z <? 10 then [z] else numerals_fuel fuel (z / 10) ++ [z mod 10]
  end.

(** One numeral per bit is always enough. *)
Definition numerals_of (z : Z) : list Z := numerals_fuel (S (Z.to_nat (Z.log2 z))) z.

Definition value_of (ds : list Z) : Z := foldl (λ acc d, acc * 10 + d) 0 ds.

Definition digit_char (d : Z) : byte := z2b (48 + d).

(** [z.to_string()]. *)
Definition int_to_string (z : Z) : bytes :=
  if z <? 0 then "-"%byte :: (digit_char <$> numerals_of (- z))
  else digit_char <$> numerals_of z.

(** The value of a non-empty string of ASCII digits. *)
Definition parse_digits (s : bytes) : option Z :=
  if bool_decide (s = []) || negb (forallb is_ascii_digit s) then None
  else Some (value_of ((λ b, b2z b - 48) <$> s)).

(** [str::parse::<iN>()]. *)
Definition parse_int (bits : Z) (s : bytes) : option Z :=
  z ← match s with
      | "-"%byte :: ds => Z.opp <$> parse_digits ds
      | "+"%byte :: ds => parse_digits ds
      | ds => parse_digits ds
      end;
  if decide (in_bits bits z) then Some z else None.

(** [str::parse::<usize>()]: no minus sign, 64 bits. *)
Definition parse_usize (s : bytes) : option nat :=
  z ← match s with
      | "+"%byte :: ds => parse_digits ds
      | ds => parse_digits ds
      end;
  if (z <? 2 ^ 64) then Some (Z.to_nat z) else None.

Definition usize_to_string (n : nat) : bytes := int_to_string (Z.of_nat n).

(** ** Lemmas *)

Lemma value_of_snoc ds d : value_of (ds ++ [d]) = value_of ds * 10 + d.
Proof. unfold value_of. by rewrite foldl_app. Qed.

Lemma numerals_fuel_spec fuel z :
  0 ≤ z < 10 ^ Z.of_nat fuel →
  value_of (numerals_fuel fuel z) = z ∧
  Forall (λ d, 0 ≤ d < 10) (numerals_fuel fuel z).
Proof.
  revert z. induction fuel as [|fuel IH]; intros z Hz.
  - change (10 ^ Z.of_nat 0) with 1 in Hz. assert (z = 0) as -> by lia. done.
  - rewrite Nat2Z.inj_succ, Z.pow_succ_r in Hz by lia. cbn [numerals_fuel].
    destruct (Z.ltb_spec z 10) as [Hlt|Hge].
    { unfold value_of. simpl. repeat constructor; lia. }
    destruct (IH (z / 10)) as [Hv Hf]; [div_lia|].
    rewrite value_of_snoc, Hv. split; [div_lia|].
    apply Forall_app. split; [done|]. repeat constructor; div_lia.
Qed.

Lemma numerals_of_spec z :
  0 ≤ z → value_of (numerals_of z) = z ∧ Forall (λ d, 0 ≤ d < 10) (numerals_of z).
Proof.
  intros Hz. apply numerals_fuel_spec. split; [done|].
  destruct (decide (z = 0)) as [->|]; [done|].
  eapply Z.lt_le_trans; [apply (Z.log2_spec z); lia|].
  rewrite Nat2Z.inj_succ, Z2Nat.id by apply Z.log2_nonneg.
  apply Z.pow_le_mono_l. lia.
Qed.

Lemma numerals_of_nonempty z : numerals_of z ≠ [].
Proof.
  unfold numerals_of. cbn [numerals_fuel]. destruct (z <? 10); [done|].
  intros E. by apply app_eq_nil in E as [_ ?].
Qed.

Lemma digit_char_val d : 0 ≤ d < 10 → b2z (digit_char d) = 48 + d.
Proof. intros. apply b2z_z2b_small. lia. Qed.

Lemma parse_digits_render ds :
  ds ≠ [] → Forall (λ d, 0 ≤ d < 10) ds →
  parse_digits (digit_char <$> ds) = Some (value_of ds).
Proof.
  intros Hne Hds. unfold parse_digits.
  rewrite bool_decide_eq_false_2 by (by intros ?%fmap_nil_inv).
  assert (forallb is_ascii_digit (digit_char <$> ds) = true) as ->.
  { apply forallb_forall. intros b Hb. apply list_elem_of_In, list_elem_of_fmap in Hb
      as (d & -> & Hd). eapply Forall_forall in Hds; [|done].
    unfold is_ascii_digit, in_range. rewrite digit_char_val by done. lia. }
  simpl. do 2 f_equal. rewrite <- list_fmap_compose.
  rewrite <- (list_fmap_id ds) at 2. apply list_fmap_ext. intros i d Hd.
  eapply Forall_lookup_1 in Hds; [|done]. simpl. rewrite digit_char_val by done.
  simpl. lia.
Qed.

(** A string that starts with a digit carries no sign. *)
Lemma digit_head b : is_ascii_digit b = true → b ≠ "-"%byte ∧ b ≠ "+"%byte.
Proof. intros Hb. split; intros ->; vm_compute in Hb; discriminate. Qed.

Lemma render_head ds :
  ds ≠ [] → Forall (λ d, 0 ≤ d < 10) ds →
  ∃ b s, digit_char <$> ds = b :: s ∧ b ≠ "-"%byte ∧ b ≠ "+"%byte ∧ is_ascii_digit b = true.
Proof.
  destruct ds as [|d ds]; [done|]. intros _ Hds. inversion Hds; subst.
  eexists _, _. split; [done|]. apply and_assoc. 
  assert (is_ascii_digit (digit_char d) = true).
  { unfold is_ascii_digit, in_range. rewrite digit_char_val by done. lia. }
  split; [by apply digit_head|done].
Qed.

(** [FromStr] reads back what [ToString] wrote, within the type's range. *)
Lemma parse_int_to_string bits z : in_bits bits z → parse_int bits (int_to_string z) = Some z.
Proof.
  intros Hz. unfold parse_int, int_to_string. destruct (Z.ltb_spec z 0).
  - destruct (numerals_of_spec (- z)) as [Hv Hf]; [lia|].
    rewrite parse_digits_render by (done || apply numerals_of_nonempty). simpl.
    rewrite Hv, Z.opp_involutive, decide_True; done.
  - destruct (numerals_of_spec z) as [Hv Hf]; [lia|].
    pose proof (parse_digits_render _ (numerals_of_nonempty z) Hf) as Hp.
    destruct (render_head _ (numerals_of_nonempty z) Hf) as (b & s & E & Hm & Hpl & _).
    rewrite E in *. rewrite Hv in Hp.
    destruct b; try (rewrite Hp; simpl; by rewrite decide_True); done.
Qed.

Lemma parse_int_range bits s z : parse_int bits s = Some z → in_bits bits z.
Proof.
  unfold parse_int. intros (z' & _ & H)%bind_Some. by case_decide; simplify_eq.
Qed.

(** Decimal text is ASCII without whitespace, so trimming leaves it alone. *)
Lemma int_to_string_plain z :
  Forall (λ b, b2z b ≤ 127 ∧ is_whitespace (b2z b) = false) (int_to_string z).
Proof.
  assert (∀ ds, Forall (λ d, 0 ≤ d < 10) ds →
    Forall (λ b, b2z b ≤ 127 ∧ is_whitespace (b2z b) = false) (digit_char <$> ds)) as Hd.
  { intros ds Hds. apply Forall_fmap. eapply Forall_impl; [exact Hds|].
    intros d Hr. simpl in *. rewrite digit_char_val by done. unfold is_whitespace. split; [lia|].
    repeat (apply orb_false_iff; split); lia. }
  unfold int_to_string. destruct (Z.ltb_spec z 0).
  - constructor; [vm_compute; done|]. apply Hd, numerals_of_spec. lia.
  - apply Hd, numerals_of_spec. lia.
Qed.

#[global] Opaque numerals_of.
