(* ===== verification/Crates.v ===== *)
(** * Third-party crates

    The cryptographic and encoding crates the program links are parameters of
    the model: one class of operations per crate, and one class of the laws the
    crate documents. Nothing in the development computes with anything else
    about them. The last section instantiates every class with a small concrete
    function, so the laws are known to be satisfiable together and the
    witnesses of the other files can be evaluated. *)

From S2P Require Import Prelude Sql Utf8.

(** ** [hex] *)

Class HexCrate := {
  hex_encode : bytes → bytes;
  hex_decode : bytes → option bytes;
}.

(** A lowercase hexadecimal digit. *)
Definition lower_hex (b : byte) : bool := is_ascii_digit b || in_range 97 102 b.

(** The lowercase digit of a nibble. *)
Definition hex_digit (z : Z) : byte := if (z <? 10)%Z then z2b (48 + z) else z2b (87 + z).

(** "Encodes data as hex string using lowercase characters"; decoding accepts
    two digits of either case per byte, and refuses any other character. *)
Class HexLaws `{HexCrate} : Prop := {
  hex_encode_digits bs :
    hex_encode bs = concat ((λ b, [hex_digit (b2z b / 16); hex_digit (b2z b mod 16)]) <$> bs);
  hex_encode_length bs : length (hex_encode bs) = 2 * length bs;
  hex_encode_lower bs : Forall (λ b, lower_hex b = true) (hex_encode bs);
  hex_decode_encode bs : hex_decode (hex_encode bs) = Some bs;
  hex_decode_length s bs : hex_decode s = Some bs → length s = 2 * length bs;
  hex_decode_digits s bs : hex_decode s = Some bs → Forall (λ b, is_ascii_hexdigit b = true) s;
}.

(** ** [aes-gcm] *)

(** [Aes256Gcm::encrypt] and [decrypt] under a key, a nonce, a message and
    associated data. *)
Class AeadCrate := {
  gcm_encrypt : bytes → bytes → bytes → bytes → option bytes;
  gcm_decrypt : bytes → bytes → bytes → bytes → option bytes;
}.

(** The tag is 16 bytes, what was sealed opens under the same key, nonce and
    associated data, and sealing fails only past the 64 GiB limits. *)
Class AeadLaws `{AeadCrate} : Prop := {
  gcm_open_sealed k n m a c : gcm_encrypt k n m a = Some c → gcm_decrypt k n c a = Some m;
  gcm_length k n m a c : gcm_encrypt k n m a = Some c → length c = length m + 16;
  gcm_total k n m a :
    (Z.of_nat (length m) ≤ 2 ^ 36)%Z → (Z.of_nat (length a) ≤ 2 ^ 36)%Z →
    is_Some (gcm_encrypt k n m a);
}.

(** What an attacker who moves a ciphertext needs: that the very bytes [c] sealed
    from [m] under the associated data [a] also open, to [m'], under the given
    other associated data [a']. *)
Definition aead_forgery `{AeadCrate} (k n m a c a' m' : bytes) : Prop :=
  a ≠ a' ∧ gcm_encrypt k n m a = Some c ∧ gcm_decrypt k n c a' = Some m'.

(** ** [hmac] with [sha2] *)

Class HmacCrate := { hmac_sha256 : bytes → bytes → bytes }.

Class HmacLaws `{HmacCrate} : Prop := {
  hmac_length k m : length (hmac_sha256 k m) = 32;
}.

(** ** [fpe]: FF1 in radix 10, over numeral strings *)

Class Ff1Crate := {
  ff1_encrypt : bytes → list Z → option (list Z);
  ff1_decrypt : bytes → list Z → option (list Z);
}.

Definition numerals (ds : list Z) : Prop := Forall (λ d, 0 ≤ d < 10)%Z ds.

Class Ff1Laws `{Ff1Crate} : Prop := {
  ff1_shape k ds out :
    ff1_encrypt k ds = Some out → length out = length ds ∧ numerals out;
  ff1_decrypt_encrypt k ds out :
    numerals ds → ff1_encrypt k ds = Some out → ff1_decrypt k out = Some ds;
  ff1_total k ds :
    numerals ds → 6 ≤ length ds → (Z.of_nat (length ds) < 2 ^ 32)%Z →
    is_Some (ff1_encrypt k ds);
}.

(** ** [str::to_lowercase]

    Full Unicode case mapping, of which only the ASCII part is relied on. *)

Class Lowercase := { to_lowercase : bytes → bytes }.

Class LowercaseLaws `{Lowercase} : Prop := {
  to_lowercase_ascii s :
    Forall (λ b, b2z b ≤ 127)%Z s → to_lowercase s = to_ascii_lowercase <$> s;
}.

(** ** [sqlparser], PostgreSQL dialect

    Tokenizing, parsing and rendering are the crate's; nothing is assumed of them:
    the program checks what it renders by parsing it again. The types are those of
    [Sql]. *)

Class SqlParserCrate := {
  sql_to_string : Ast.Statement → bytes;
  (** [ObjectName]'s [Display]. *)
  sql_name_to_string : Ast.ObjectName → bytes;
  sql_tokenize : bytes → result ParserError (list TokenWithSpan);
  sql_parse_statements : list TokenWithSpan → result ParserError (list Ast.Statement);
  sql_parse : bytes → result ParserError (list Ast.Statement);
}.

(** ** Concrete instances *)

Module Toy.

Definition undigit (b : byte) : option Z :=
  if is_ascii_digit b then Some (b2z b - 48)%Z
  else if in_range 97 102 b then Some (b2z b - 87)%Z
  else if in_range 65 70 b then Some (b2z b - 55)%Z
  else None.

Fixpoint encode (bs : bytes) : bytes :=
  match bs with
  | [] => []
  | b :: bs => hex_digit (b2z b / 16) :: hex_digit (b2z b mod 16) :: encode bs
  end.

Fixpoint decode (s : bytes) : option bytes :=
  match s with
  | [] => Some []
  | [_] => None
  | h :: l :: s =>
      h ← undigit h; l ← undigit l; bs ← decode s; Some (z2b (h * 16 + l) :: bs)
  end.

Definition hash (width : nat) (bs : bytes) : bytes :=
  be_bytes width (foldl (λ h b, ((h * 263 + b2z b + 1) mod 256 ^ Z.of_nat width)%Z) 7%Z bs).

Definition tag (k n m a : bytes) : bytes :=
  hash 16 (be_bytes 8 (Z.of_nat (length a)) ++ a ++ k ++ n ++ m).

Definition gcm_limit (m a : bytes) : bool :=
  (Z.of_nat (length m) <=? 2 ^ 36)%Z && (Z.of_nat (length a) <=? 2 ^ 36)%Z.

#[export] Instance hex : HexCrate := {| hex_encode := encode; hex_decode := decode |}.

#[export] Instance aead : AeadCrate := {|
  gcm_encrypt k n m a := if gcm_limit m a then Some (m ++ tag k n m a) else None;
  gcm_decrypt k n c a :=
    let m := take (length c - 16) c in
    if bool_decide (16 ≤ length c ∧ drop (length c - 16) c = tag k n m a)
    then Some m else None;
|}.

#[export] Instance hmac : HmacCrate := {| hmac_sha256 k m := hash 32 (k ++ m) |}.

Definition shift (d : Z) (ds : list Z) : list Z := (λ x, (x + d) mod 10)%Z <$> ds.

#[export] Instance ff1 : Ff1Crate := {|
  ff1_encrypt k ds := Some (shift (be_val k mod 10) ds);
  ff1_decrypt k ds := Some (shift (- (be_val k mod 10)) ds);
|}.

Lemma undigit_digit z : (0 ≤ z < 16)%Z → undigit (hex_digit z) = Some z.
Proof.
  intros Hz. unfold undigit, hex_digit, is_ascii_digit, in_range.
  destruct (Z.ltb_spec z 10); rewrite b2z_z2b_small by lia.
  - destruct (Z.leb_spec 48 (48 + z)); [|lia].
    destruct (Z.leb_spec (48 + z) 57); [|lia]. simpl. f_equal. lia.
  - destruct (Z.leb_spec 48 (87 + z)); [|lia].
    destruct (Z.leb_spec (87 + z) 57); [lia|]. simpl.
    destruct (Z.leb_spec 97 (87 + z)); [|lia].
    destruct (Z.leb_spec (87 + z) 102); [|lia]. simpl. f_equal. lia.
Qed.

Lemma digit_lower z : (0 ≤ z < 16)%Z → lower_hex (hex_digit z) = true.
Proof.
  intros Hz. unfold lower_hex, hex_digit, is_ascii_digit, in_range.
  destruct (Z.ltb_spec z 10); rewrite b2z_z2b_small by lia; lia.
Qed.

Lemma decode_length s bs : decode s = Some bs → length s = 2 * length bs.
Proof.
  revert bs. induction s as [s IH] using (induction_ltof1 _ length); unfold ltof in IH.
  intros bs. destruct s as [|h [|l s]]; simpl; [intros [= <-]; done|done|].
  intros (h' & _ & (l' & _ & (bs' & Hbs & [= <-])%bind_Some)%bind_Some)%bind_Some.
  apply IH in Hbs; simpl; lia.
Qed.

Lemma undigit_hexdigit b z : undigit b = Some z → is_ascii_hexdigit b = true.
Proof.
  unfold undigit, is_ascii_hexdigit, is_ascii_digit. intros Hu.
  destruct (in_range 48 57 b), (in_range 97 102 b), (in_range 65 70 b); done.
Qed.

Lemma decode_digits s bs : decode s = Some bs → Forall (λ b, is_ascii_hexdigit b = true) s.
Proof.
  revert bs. induction s as [s IH] using (induction_ltof1 _ length); unfold ltof in IH.
  intros bs. destruct s as [|h [|l s]]; simpl; [by constructor|done|].
  intros (h' & Hh & (l' & Hl & (bs' & Hbs & [= <-])%bind_Some)%bind_Some)%bind_Some.
  repeat constructor; [by eapply undigit_hexdigit..|]. eapply IH; [|exact Hbs]. simpl. lia.
Qed.

#[export] Instance hex_laws : HexLaws.
Proof.
  split.
  - intros bs. simpl. induction bs as [|b bs IH]; simpl; [done|by rewrite IH].
  - intros bs. simpl. induction bs as [|b bs IH]; simpl; lia.
  - intros bs. simpl. induction bs as [|b bs IH]; simpl; [constructor|].
    pose proof (b2z_range b).
    repeat constructor; [apply digit_lower; div_lia..|done].
  - intros bs. simpl. induction bs as [|b bs IH]; simpl; [done|].
    pose proof (b2z_range b). rewrite !undigit_digit by div_lia. simpl.
    rewrite IH. simpl. do 2 f_equal. apply b2z_inj. rewrite b2z_z2b_small; div_lia.
  - apply decode_length.
  - apply decode_digits.
Qed.

Lemma length_tag k n m a : length (tag k n m a) = 16.
Proof. apply length_be_bytes. Qed.

#[export] Instance aead_laws : AeadLaws.
Proof.
  split; simpl; intros k n m a.
  - intros c. destruct (gcm_limit m a); [|done]. intros [= <-].
    rewrite length_app, length_tag, Nat.add_sub, take_app_length, drop_app_length.
    rewrite bool_decide_eq_true_2; [done|]. split; [lia|done].
  - intros c. destruct (gcm_limit m a); [|done]. intros [= <-].
    by rewrite length_app, length_tag.
  - intros Hm Ha. unfold gcm_limit.
    apply Z.leb_le in Hm. apply Z.leb_le in Ha. rewrite Hm, Ha. eauto.
Qed.

(** An AEAD that forgets its associated data satisfies the same laws: nothing in
    them rules out a forgery, so theorems that end in one are not vacuous. *)
Definition aad_blind : AeadCrate := {|
  gcm_encrypt k n m a := @gcm_encrypt aead k n m [];
  gcm_decrypt k n c a := @gcm_decrypt aead k n c [];
|}.

Lemma aad_blind_laws : @AeadLaws aad_blind.
Proof.
  split; intros k n m a.
  - intros c. apply (@gcm_open_sealed aead aead_laws).
  - intros c. apply (@gcm_length aead aead_laws).
  - intros Hm _. by apply (@gcm_total aead aead_laws).
Qed.

#[export] Instance ascii_lowercase : Lowercase := {| to_lowercase s := to_ascii_lowercase <$> s |}.

#[export] Instance lowercase_laws : LowercaseLaws.
Proof. by split. Qed.

#[export] Instance hmac_laws : HmacLaws.
Proof. split. intros. apply length_be_bytes. Qed.

#[export] Instance ff1_laws : Ff1Laws.
Proof.
  split; simpl; unfold shift.
  - intros k ds out [= <-]. split; [by rewrite length_fmap|].
    apply Forall_fmap, Forall_true. intros x. apply Z.mod_pos_bound. lia.
  - intros k ds out Hds [= <-]. f_equal.
    induction Hds as [|d ds Hd _ IH]; simpl; [done|]. f_equal; [div_lia|done].
  - eauto.
Qed.

(** A dialect with one token and one kind of statement: a text without a bang. *)
Definition parse_text (text : bytes) : result ParserError (list Ast.Statement) :=
  if bool_decide ("!"%byte ∈ text) then Err RecursionLimitExceeded
  else Ok [Ast.StatementOther text].

Definition render_text (statement : Ast.Statement) : bytes :=
  match statement with Ast.StatementOther text => text | _ => b#"!" end.

Definition name_text (name : Ast.ObjectName) : bytes :=
  concat (Ast.id_value <$> name).

#[export] Instance sqlparser : SqlParserCrate := {|
  sql_to_string := render_text;
  sql_name_to_string := name_text;
  sql_tokenize s := Ok [{| tws_token := TokenOther s; tws_span := [] |}];
  sql_parse_statements tokens :=
    match tokens with [t] => match tws_token t with TokenOther s => parse_text s | _ => Ok [] end
                    | _ => Ok [] end;
  sql_parse := parse_text;
|}.

End Toy.
