(* ===== verification/Pgwire.v ===== *)
(** * PostgreSQL v3 wire framing ([crates/pgwire/src/lib.rs])

    The crate is a set of pure functions over byte slices: length-field
    validation, and a parser and an encoder per message the proxy rewrites.
    A parser that advances a [&mut &[u8]] returns the rest of the buffer next
    to its value. *)

From S2P Require Import Prelude.

(** ** Errors and constants *)

(** [pgwire::Error]. *)
Inductive WireError :=
  | BadMessageLength (len : Z)
  | StartupMessageTooLarge (len max : Z)
  | WireFieldOverflow
  | MalformedBackend.

#[global] Instance WireError_eq_dec : EqDecision WireError.
Proof. solve_decision. Defined.

Definition PROTOCOL_V3 : Z := Z.shiftl 3 16.
Definition SSL_REQUEST : Z := 80877103.
Definition GSSENC_REQUEST : Z := 80877104.
Definition CANCEL_REQUEST : Z := 80877102.
Definition STARTUP_HEADER_LEN : nat := 8.
Definition FRAME_HEADER_LEN : nat := 5.
Definition MAX_MESSAGE_LEN : Z := Z.shiftl 1 30.
Definition MAX_STARTUP_MESSAGE_LEN : Z := 16 * 1024.
Definition MAX_PRE_AUTH_MESSAGE_LEN : Z := MAX_STARTUP_MESSAGE_LEN.

(** [pgwire::Startup]. *)
Inductive Startup :=
  | StartupTls
  | StartupGssEnc
  | StartupCancel
  | StartupProtocol (version : Z).

Definition startup_kind (code : Z) : Startup :=
  if (code =? SSL_REQUEST)%Z then StartupTls
  else if (code =? GSSENC_REQUEST)%Z then StartupGssEnc
  else if (code =? CANCEL_REQUEST)%Z then StartupCancel
  else StartupProtocol code.

(** ** Length fields *)

Definition startup_body_len (len_field : bytes) : result WireError Z :=
  let len := i32_of_be len_field in
  if (len <? Z.of_nat STARTUP_HEADER_LEN)%Z then Err (BadMessageLength len)
  else if (MAX_STARTUP_MESSAGE_LEN <? len)%Z
  then Err (StartupMessageTooLarge len MAX_STARTUP_MESSAGE_LEN)
  else Ok (len - 4)%Z.

Definition frame_body_len (header : bytes) : result WireError (byte * Z) :=
  let len := i32_of_be (take 4 (drop 1 header)) in
  if (len <? 4)%Z || (MAX_MESSAGE_LEN <? len)%Z then Err (BadMessageLength len)
  else Ok (default x00 (header !! 0), (len - 4)%Z).

(** ** Primitive readers and writers *)

Definition take_cstr (buf : bytes) : result WireError (bytes * bytes) :=
  match position (λ b, bool_decide (b = x00)) buf with
  | Some e => Ok (take e buf, drop (S e) buf)
  | None => Err MalformedBackend
  end.

Definition take_n (n : nat) (buf : bytes) : result WireError (bytes * bytes) :=
  ok_or MalformedBackend (split_at_checked n buf).

Definition take_i16 (buf : bytes) : result WireError (Z * bytes) :=
  '(h, rest) ← take_n 2 buf; mret (i16_of_be h, rest).

Definition take_u32 (buf : bytes) : result WireError (Z * bytes) :=
  '(h, rest) ← take_n 4 buf; mret (be_val h, rest).

Definition take_nullable (buf : bytes) : result WireError (option bytes * bytes) :=
  '(h, rest) ← take_n 4 buf;
  let len := i32_of_be h in
  if (len =? -1)%Z then Ok (None, rest)
  else if (0 <=? len)%Z then
    '(v, rest) ← take_n (Z.to_nat len) rest; mret (Some v, rest)
  else Err MalformedBackend.

Definition push_nullable (out : bytes) (value : option bytes) : result WireError bytes :=
  match value with
  | None => Ok (out ++ be_bytes 4 (-1))
  | Some v =>
      if (Z.of_nat (length v) <=? 2 ^ 31 - 1)%Z
      then Ok (out ++ be_bytes 4 (Z.of_nat (length v)) ++ v)
      else Err WireFieldOverflow
  end.

(** Appending every value of a row in order, stopping at the first error. *)
Fixpoint push_all (out : bytes) (values : list (option bytes)) : result WireError bytes :=
  match values with
  | [] => Ok out
  | v :: values => out ← push_nullable out v; push_all out values
  end.

Definition wire_count (len : nat) : result WireError Z :=
  if (Z.of_nat len <=? 2 ^ 15 - 1)%Z then Ok (Z.of_nat len) else Err WireFieldOverflow.

(** ** RowDescription *)

Record RowField := {
  rf_name : bytes;
  rf_table_oid : Z;
  rf_attnum : Z;
  rf_type_oid : Z;
  rf_format : Z;
}.

Definition take_row_field (body : bytes) : result WireError (RowField * bytes) :=
  '(name, body) ← take_cstr body;
  '(table_oid, body) ← take_u32 body;
  '(attnum, body) ← take_i16 body;
  '(type_oid, body) ← take_u32 body;
  '(_, body) ← take_n 6 body;
  '(format, body) ← take_i16 body;
  mret ({| rf_name := name; rf_table_oid := table_oid; rf_attnum := attnum;
           rf_type_oid := type_oid; rf_format := format |}, body).

Definition parse_row_description (body : bytes) : result WireError (list RowField) :=
  '(count, body) ← take_i16 body;
  '(fields, body) ← try_repeat take_row_field (Z.to_nat count) body;
  if bool_decide (body = []) then Ok fields else Err MalformedBackend.

(** ** DataRow *)

Definition parse_data_row (body : bytes) : result WireError (list (option bytes)) :=
  '(count, body) ← take_i16 body;
  '(values, body) ← try_repeat take_nullable (Z.to_nat count) body;
  if bool_decide (body = []) then Ok values else Err MalformedBackend.

Definition encode_data_row (values : list (option bytes)) : result WireError bytes :=
  count ← wire_count (length values);
  push_all (be_bytes 2 count) values.

(** ** Parse *)

Record ParseMessage := {
  pm_statement : bytes;
  pm_query : bytes;
  pm_param_types : bytes;
}.

Definition parse_parse (body : bytes) : result WireError ParseMessage :=
  '(statement, body) ← take_cstr body;
  '(query, body) ← take_cstr body;
  mret {| pm_statement := statement; pm_query := query; pm_param_types := body |}.

Definition encode_parse (statement query param_types : bytes) : bytes :=
  statement ++ [x00] ++ query ++ [x00] ++ param_types.

(** ** Bind *)

Record BindMessage := {
  bm_portal : bytes;
  bm_statement : bytes;
  bm_param_formats : list Z;
  bm_params : list (option bytes);
  bm_result_formats : bytes;
}.

Definition format_code (codes : list Z) (index : nat) : Z :=
  match codes with
  | [] => 0
  | [only] => only
  | codes => default 0%Z (codes !! index)
  end.

Definition param_format (bind : BindMessage) (index : nat) : Z :=
  format_code (bm_param_formats bind) index.

Definition result_format_codes (bind : BindMessage) : result WireError (list Z) :=
  '(count, raw) ← take_i16 (bm_result_formats bind);
  '(codes, _) ← try_repeat take_i16 (Z.to_nat count) raw;
  mret codes.

Definition parse_bind (body : bytes) : result WireError BindMessage :=
  '(portal, body) ← take_cstr body;
  '(statement, body) ← take_cstr body;
  '(format_count, body) ← take_i16 body;
  '(param_formats, body) ← try_repeat take_i16 (Z.to_nat format_count) body;
  '(param_count, body) ← take_i16 body;
  '(params, body) ← try_repeat take_nullable (Z.to_nat param_count) body;
  mret {| bm_portal := portal; bm_statement := statement;
          bm_param_formats := param_formats; bm_params := params;
          bm_result_formats := body |}.

Definition encode_bind (portal statement : bytes) (param_formats : list Z)
    (params : list (option bytes)) (result_formats : bytes) : result WireError bytes :=
  format_count ← wire_count (length param_formats);
  param_count ← wire_count (length params);
  let out := portal ++ [x00] ++ statement ++ [x00] ++ be_bytes 2 format_count
               ++ concat (be_bytes 2 <$> param_formats) ++ be_bytes 2 param_count in
  out ← push_all out params;
  mret (out ++ result_formats).

(** ** Codecs

    A reader and a writer that are inverse to each other on the front of a
    buffer. Every field of every message is one; the messages are sequences
    of them. *)

Class Codec {A} (enc : A → result WireError bytes)
    (dec : bytes → result WireError (A * bytes)) : Prop := {
  codec_complete a e r : enc a = Ok e → dec (e ++ r) = Ok (a, r);
  codec_sound buf a r : dec buf = Ok (a, r) → ∃ e, enc a = Ok e ∧ buf = e ++ r;
}.

Definition enc_i16 (z : Z) : result WireError bytes :=
  if decide (in_bits 16 z) then Ok (be_bytes 2 z) else Err WireFieldOverflow.

Definition enc_u32 (z : Z) : result WireError bytes :=
  if decide (0 ≤ z < 2 ^ 32)%Z then Ok (be_bytes 4 z) else Err WireFieldOverflow.

Definition enc_cstr (s : bytes) : result WireError bytes :=
  if decide (x00 ∈ s) then Err WireFieldOverflow else Ok (s ++ [x00]).

Definition enc_list {A} (enc : A → result WireError bytes) (l : list A)
    : result WireError bytes :=
  (λ es, concat es) <$> try_map enc l.

Lemma enc_list_nil {A} (enc : A → result WireError bytes) e :
  enc_list enc [] = Ok e ↔ e = [].
Proof. unfold enc_list. simpl. split; congruence. Qed.

Lemma enc_list_cons {A} (enc : A → result WireError bytes) a l e :
  enc_list enc (a :: l) = Ok e ↔
  ∃ e1 e2, enc a = Ok e1 ∧ enc_list enc l = Ok e2 ∧ e = e1 ++ e2.
Proof.
  unfold enc_list. simpl.
  destruct (enc a) as [e1|]; simpl; [|naive_solver].
  destruct (try_map enc l) as [e2|]; simpl; naive_solver.
Qed.

Lemma take_n_Ok n buf h t :
  take_n n buf = Ok (h, t) ↔ buf = h ++ t ∧ length h = n.
Proof. unfold take_n. by rewrite ok_or_Ok, split_at_checked_Some. Qed.

Lemma take_cstr_Ok buf s r :
  take_cstr buf = Ok (s, r) ↔ buf = s ++ [x00] ++ r ∧ x00 ∉ s.
Proof.
  unfold take_cstr. split.
  - destruct (position _ buf) as [n|] eqn:E; [|done]. intros [= <- <-].
    apply position_Some in E as (x & Hx & Hb & Hall).
    apply bool_decide_eq_true in Hb as ->. split.
    + simpl. rewrite <- (take_drop_middle buf n x00 Hx) at 1. done.
    + intros Hin. rewrite Forall_forall in Hall.
      apply Hall in Hin. by rewrite bool_decide_eq_false in Hin.
  - intros [-> Hs]. rewrite (position_app _ s x00 r).
    + by rewrite take_app_length, drop_app_ge, Nat.sub_succ_l, Nat.sub_diag by lia.
    + apply Forall_forall. intros x Hx. apply bool_decide_eq_false. by intros ->.
    + by apply bool_decide_eq_true.
Qed.

#[global] Instance i16_codec : Codec enc_i16 take_i16.
Proof.
  split.
  - intros z e r. unfold enc_i16, take_i16. case_decide as Hz; [|done]. intros [= <-].
    rewrite (proj2 (take_n_Ok 2 _ (be_bytes 2 z) r)) by auto with wire.
    simpl. by simpl_wire.
  - intros buf z r. unfold take_i16. intros H.
    apply bind_Ok_inv in H as ([h t] & (-> & Hl)%take_n_Ok & [= <- <-]).
    exists h. unfold enc_i16. rewrite decide_True by by apply i16_of_be_range.
    by rewrite be_bytes_i16.
Qed.

#[global] Instance u32_codec : Codec enc_u32 take_u32.
Proof.
  split.
  - intros z e r. unfold enc_u32, take_u32. case_decide as Hz; [|done]. intros [= <-].
    rewrite (proj2 (take_n_Ok 4 _ (be_bytes 4 z) r)) by auto with wire.
    simpl. by simpl_wire.
  - intros buf z r. unfold take_u32. intros H.
    apply bind_Ok_inv in H as ([h t] & (-> & Hl)%take_n_Ok & [= <- <-]).
    exists h. unfold enc_u32. pose proof (be_val_range h) as Hr. rewrite Hl in Hr.
    rewrite decide_True by done. by rewrite <- Hl, be_bytes_val.
Qed.

#[global] Instance cstr_codec : Codec enc_cstr take_cstr.
Proof.
  split.
  - intros s e r. unfold enc_cstr. case_decide as Hs; [done|]. intros [= <-].
    apply take_cstr_Ok. by rewrite <- app_assoc.
  - intros buf s r (-> & Hs)%take_cstr_Ok. exists (s ++ [x00]).
    unfold enc_cstr. rewrite decide_False by done. by rewrite <- app_assoc.
Qed.

#[global] Instance nullable_codec : Codec (push_nullable []) take_nullable.
Proof.
  split.
  - intros [v|] e r; unfold take_nullable; simpl.
    + destruct (Z.leb_spec (Z.of_nat (length v)) (2 ^ 31 - 1)); [|done]. intros [= <-].
      assert (in_bits 32 (Z.of_nat (length v))) by (unfold in_bits; lia).
      rewrite <- (app_assoc _ v r).
      rewrite (proj2 (take_n_Ok 4 _ (be_bytes 4 (Z.of_nat (length v))) (v ++ r)))
        by auto with wire.
      simpl. rewrite i32_be_bytes by done.
      destruct (Z.eqb_spec (Z.of_nat (length v)) (-1)); [lia|].
      destruct (Z.leb_spec 0 (Z.of_nat (length v))); [|lia].
      by rewrite (proj2 (take_n_Ok _ _ v r)) by (split; [done|lia]).
    + intros [= <-].
      by rewrite (proj2 (take_n_Ok 4 _ (be_bytes 4 (-1)) r)) by auto with wire.
  - intros buf a r. unfold take_nullable. intros H.
    apply bind_Ok_inv in H as ([h t] & (-> & Hl)%take_n_Ok & H).
    destruct (Z.eqb_spec (i32_of_be h) (-1)) as [E|E].
    + injection H as <- <-. exists h. simpl. by rewrite <- E, be_bytes_i32.
    + destruct (Z.leb_spec 0 (i32_of_be h)); [|done].
      apply bind_Ok_inv in H as ([v t'] & (-> & Hv)%take_n_Ok & [= <- <-]).
      pose proof (i32_of_be_range h Hl) as Hr. unfold in_bits in Hr.
      exists (h ++ v). simpl.
      replace (Z.of_nat (length v)) with (i32_of_be h) by lia.
      destruct (Z.leb_spec (i32_of_be h) (2 ^ 31 - 1)); [|lia].
      by rewrite be_bytes_i32, app_assoc.
Qed.

Lemma try_repeat_complete {A} enc dec `{!Codec (A:=A) enc dec} l e r :
  enc_list enc l = Ok e → try_repeat dec (length l) (e ++ r) = Ok (l, r).
Proof.
  revert e. induction l as [|a l IH]; intros e.
  - intros ->%enc_list_nil. done.
  - intros (e1 & e2 & H1 & H2 & ->)%enc_list_cons. simpl.
    rewrite <- app_assoc, (codec_complete _ _ _ H1). simpl.
    by rewrite (IH _ H2).
Qed.

Lemma try_repeat_sound {A} enc dec `{!Codec (A:=A) enc dec} n buf l r :
  try_repeat dec n buf = Ok (l, r) →
  length l = n ∧ ∃ e, enc_list enc l = Ok e ∧ buf = e ++ r.
Proof.
  revert buf l. induction n as [|n IH]; intros buf l; simpl.
  - intros [= <- <-]. split; [done|]. exists []. done.
  - intros H. apply bind_Ok_inv in H as ([a s1] & H1 & H).
    apply bind_Ok_inv in H as ([l' s2] & H2 & [= <- <-]).
    apply codec_sound in H1 as (e1 & H1 & ->).
    apply IH in H2 as (Hl & e2 & H2 & ->). split; [simpl; congruence|].
    exists (e1 ++ e2). rewrite <- app_assoc. split; [|done].
    apply enc_list_cons. eauto.
Qed.

Lemma push_all_Ok out vs body :
  push_all out vs = Ok body ↔
  ∃ e, enc_list (push_nullable []) vs = Ok e ∧ body = out ++ e.
Proof.
  revert out. induction vs as [|v vs IH]; intros out; simpl.
  - split.
    + intros [= <-]. exists []. by rewrite app_nil_r.
    + intros (e & ->%enc_list_nil & ->). by rewrite app_nil_r.
  - setoid_rewrite enc_list_cons.
    assert (push_nullable out v = app out <$> push_nullable [] v) as ->.
    { destruct v as [v|]; simpl; [by case_match|done]. }
    destruct (push_nullable [] v) as [e1|]; simpl; [|naive_solver].
    rewrite IH. split.
    + intros (e2 & H2 & ->). exists (e1 ++ e2). rewrite <- app_assoc. eauto 6.
    + intros (e & (e1' & e2 & [= <-] & H2 & ->) & ->). exists e2.
      by rewrite <- app_assoc.
Qed.

Lemma enc_formats fs :
  Forall (in_bits 16) fs → enc_list enc_i16 fs = Ok (concat (be_bytes 2 <$> fs)).
Proof.
  induction 1 as [|z fs Hz _ IH]; [done|].
  apply enc_list_cons. exists (be_bytes 2 z), (concat (be_bytes 2 <$> fs)).
  unfold enc_i16 at 1. by rewrite decide_True.
Qed.

Lemma wire_count_Ok n z :
  wire_count n = Ok z ↔ z = Z.of_nat n ∧ in_bits 16 z.
Proof.
  unfold wire_count, in_bits.
  destruct (Z.leb_spec (Z.of_nat n) (2 ^ 15 - 1)); naive_solver lia.
Qed.

Lemma take_i16_app z r : in_bits 16 z → take_i16 (be_bytes 2 z ++ r) = Ok (z, r).
Proof. intros Hz. apply codec_complete. unfold enc_i16. by rewrite decide_True. Qed.

Lemma take_cstr_app s r : x00 ∉ s → take_cstr (s ++ x00 :: r) = Ok (s, r).
Proof. intros Hs. by apply take_cstr_Ok. Qed.

(** ** Message round trips *)

(** The two counts a Bind body declares, read the way [parse_bind] reads them. *)
Definition bind_counts (body : bytes) : result WireError (Z * Z) :=
  '(_, body) ← take_cstr body;
  '(_, body) ← take_cstr body;
  '(format_count, body) ← take_i16 body;
  '(_, body) ← try_repeat take_i16 (Z.to_nat format_count) body;
  '(param_count, _) ← take_i16 body;
  mret (format_count, param_count).

Lemma be_bytes_app_inj z1 z2 r1 r2 :
  in_bits 16 z1 → in_bits 16 z2 →
  be_bytes 2 z1 ++ r1 = be_bytes 2 z2 ++ r2 → z1 = z2 ∧ r1 = r2.
Proof.
  intros H1 H2 E. apply app_inj_1 in E as [E ->]; [|by simpl_wire].
  split; [|done]. by rewrite <- (i16_be_bytes z1), E, i16_be_bytes.
Qed.

Lemma data_row_iff body vs :
  encode_data_row vs = Ok body ↔
  parse_data_row body = Ok vs ∧ (0 ≤ i16_of_be (take 2 body))%Z.
Proof.
  unfold encode_data_row, parse_data_row. split.
  - intros H. apply bind_Ok_inv in H as (z & (-> & Hz)%wire_count_Ok & H).
    apply push_all_Ok in H as (e & He & ->).
    rewrite take_i16_app by done. simpl. rewrite Nat2Z.id.
    rewrite <- (app_nil_r e), (try_repeat_complete _ _ _ _ _ He). simpl.
    split; [done|].
    rewrite app_nil_r, take_app_le, take_ge by (simpl_wire; lia).
    rewrite i16_be_bytes by done. lia.
  - intros [H Hpos]. apply bind_Ok_inv in H as ([z body'] & Hz & H).
    apply codec_sound in Hz as (e0 & He0 & ->). unfold enc_i16 in He0.
    case_decide as Hz; [|done]. injection He0 as <-.
    rewrite take_app_le, take_ge, i16_be_bytes in Hpos by (first [done | rewrite length_be_bytes; lia]).
    apply bind_Ok_inv in H as ([l r] & Hl & H).
    apply (try_repeat_sound (push_nullable []) take_nullable) in Hl as (Hlen & e & He & ->).
    case_bool_decide; [|done]. injection H as ->. subst r.
    rewrite (proj2 (wire_count_Ok (length vs) z)) by (split; [lia|done]). simpl.
    apply push_all_Ok. exists e. by rewrite app_nil_r.
Qed.

(** The size of a row: two bytes of count, four per value, and the values. *)
Definition row_size (vs : list (option bytes)) : nat :=
  2 + sum_list ((λ v, 4 + length (default [] v)) <$> vs).

Lemma enc_row_length vs e :
  enc_list (push_nullable []) vs = Ok e → length e + 2 = row_size vs.
Proof.
  unfold row_size. revert e. induction vs as [|v vs IH]; intros e.
  - intros ->%enc_list_nil. done.
  - intros (e1 & e2 & H1 & H2 & ->)%enc_list_cons. apply IH in H2. rewrite fmap_cons.
    cbn [sum_list_with sum_list]. rewrite length_app.
    assert (length e1 = 4 + length (default [] v)) as ->.
    { destruct v as [v|]; simpl in H1.
      - destruct (_ <=? _)%Z; [|done]. injection H1 as <-.
        by simpl_wire.
      - injection H1 as <-. by simpl_wire. }
    simpl in *. lia.
Qed.

Lemma encode_data_row_length vs body : encode_data_row vs = Ok body → length body = row_size vs.
Proof.
  unfold encode_data_row. intros H. apply bind_Ok_inv in H as (z & _ & H).
  apply push_all_Ok in H as (e & He & ->). apply enc_row_length in He.
  simpl_wire. lia.
Qed.

(** What [encode_data_row] can express. *)
Lemma encode_data_row_fits vs :
  is_ok (encode_data_row vs) = true ↔
  (Z.of_nat (length vs) ≤ 2 ^ 15 - 1)%Z ∧
  Forall (λ v, (Z.of_nat (length (default [] v)) ≤ 2 ^ 31 - 1)%Z) vs.
Proof.
  unfold encode_data_row, wire_count.
  destruct (Z.leb_spec (Z.of_nat (length vs)) (2 ^ 15 - 1)); simpl; [|naive_solver lia].
  generalize (be_bytes 2 (Z.of_nat (length vs))). intros out.
  transitivity (Forall (λ v, (Z.of_nat (length (default [] v)) ≤ 2 ^ 31 - 1)%Z) vs); [|naive_solver].
  clear. revert out. induction vs as [|v vs IH]; intros out; [done|].
  rewrite Forall_cons. destruct v as [v|]; simpl.
  - destruct (Z.leb_spec (Z.of_nat (length v)) (2 ^ 31 - 1)); simpl; [rewrite IH|]; naive_solver lia.
  - rewrite IH. naive_solver lia.
Qed.

(** A row that parses is exactly its count and its values. *)
Lemma parsed_row_size body vs : parse_data_row body = Ok vs → length body = row_size vs.
Proof.
  unfold parse_data_row. intros H. apply bind_Ok_inv in H as ([z body'] & Hz & H).
  apply codec_sound in Hz as (e0 & He0 & ->). unfold enc_i16 in He0.
  case_decide as Hz; [|done]. injection He0 as <-.
  apply bind_Ok_inv in H as ([l r] & Hl & H).
  apply (try_repeat_sound (push_nullable []) take_nullable) in Hl as (Hlen & e & He & ->).
  case_bool_decide; [|done]. injection H as ->. subst r. apply enc_row_length in He.
  rewrite app_nil_r, length_app, length_be_bytes. lia.
Qed.

(** Encoding a DataRow and parsing one are inverse. A row that encodes
    parses back to the same columns, NULLs included; and a body that parses
    with a non-negative column count re-encodes to exactly the bytes received,
    so a row the proxy rewrites changes only where a value changed. *)
Theorem data_row_codec body vs :
  encode_data_row vs = Ok body ↔
  parse_data_row body = Ok vs ∧ (0 ≤ i16_of_be (take 2 body))%Z.
Proof. apply data_row_iff. Qed.

(** A Parse body is [encode_parse] of what [parse_parse] reads from it, and
    nothing else parses to those three fields: rewriting the query text of a
    Parse leaves the statement name and the parameter types byte for byte. *)
Theorem parse_codec body m :
  (parse_parse body = Ok m) ↔
  body = encode_parse (pm_statement m) (pm_query m) (pm_param_types m) ∧
  (x00 ∉ pm_statement m) ∧ (x00 ∉ pm_query m).
Proof.
  unfold parse_parse, encode_parse. destruct m as [s q t]; simpl. split.
  - intros H. apply bind_Ok_inv in H as ([s' r1] & (-> & Hs)%take_cstr_Ok & H).
    apply bind_Ok_inv in H as ([q' r2] & (-> & Hq)%take_cstr_Ok & [= -> -> ->]). done.
  - intros (-> & Hs & Hq). rewrite (take_cstr_app s) by done. simpl.
    by rewrite (take_cstr_app q).
Qed.

(** Encoding a Bind and parsing one are inverse, for every message whose
    names carry no NUL, whose format codes are [i16]s and whose declared counts
    are not negative: every field, the raw result-format section included,
    survives the round trip in both directions. *)
Theorem bind_codec body portal statement fs ps rf :
  encode_bind portal statement fs ps rf = Ok body ∧
    (x00 ∉ portal) ∧ (x00 ∉ statement) ∧ Forall (in_bits 16) fs ↔
  parse_bind body = Ok {| bm_portal := portal; bm_statement := statement;
      bm_param_formats := fs; bm_params := ps; bm_result_formats := rf |} ∧
    ∃ nf np, bind_counts body = Ok (nf, np) ∧ (0 ≤ nf)%Z ∧ (0 ≤ np)%Z.
Proof.
  unfold encode_bind, parse_bind, bind_counts. split.
  - intros (H & Hp & Hs & Hf).
    apply bind_Ok_inv in H as (nf & (-> & Hnf)%wire_count_Ok & H).
    apply bind_Ok_inv in H as (np & (-> & Hnp)%wire_count_Ok & H).
    apply bind_Ok_inv in H as (out & (e & He & ->)%push_all_Ok & [= <-]).
    norm_app. rewrite (take_cstr_app portal) by done. simpl.
    rewrite (take_cstr_app statement) by done. simpl.
    rewrite take_i16_app by done. simpl. rewrite Nat2Z.id.
    rewrite (try_repeat_complete _ _ _ _ _ (enc_formats _ Hf)). simpl.
    rewrite take_i16_app by done. simpl. rewrite Nat2Z.id.
    rewrite (try_repeat_complete _ _ _ _ _ He). simpl.
    split; [done|]. eexists _, _. split; [done|lia].
  - intros (H & nf & np & Hc & Hnf & Hnp).
    apply bind_Ok_inv in H as ([p b1] & Hp & H). rewrite Hp in Hc. simpl in Hc.
    apply bind_Ok_inv in H as ([s b2] & Hs & H). rewrite Hs in Hc. simpl in Hc.
    apply bind_Ok_inv in H as ([nf' b3] & Hf & H). rewrite Hf in Hc. simpl in Hc.
    apply bind_Ok_inv in H as ([fs' b4] & Hfs & H). rewrite Hfs in Hc. simpl in Hc.
    apply bind_Ok_inv in H as ([np' b5] & Hn & H). rewrite Hn in Hc. simpl in Hc.
    apply bind_Ok_inv in H as ([ps' b6] & Hps & [= -> -> -> -> ->]).
    injection Hc as -> ->.
    apply take_cstr_Ok in Hp as (-> & Hp). apply take_cstr_Ok in Hs as (-> & Hs).
    apply codec_sound in Hf as (e1 & He1 & ->). apply codec_sound in Hn as (e2 & He2 & ->).
    unfold enc_i16 in He1, He2. do 2 (case_decide; [|done]). simplify_eq.
    apply (try_repeat_sound enc_i16 take_i16) in Hfs as (Hlf & ef & Hef & Heq).
    apply (try_repeat_sound (push_nullable []) take_nullable) in Hps as (Hlp & ep & Hep & ->).
    assert (Forall (in_bits 16) fs) as Hfs.
    { clear -Hef. revert ef Hef. induction fs as [|z fs IH]; intros ef; [constructor|].
      intros (e1 & e2 & H1 & H2 & _)%enc_list_cons. unfold enc_i16 in H1.
      case_decide; [|done]. constructor; eauto. }
    rewrite enc_formats in Hef by done. injection Hef as <-.
    split; [|done]. subst b3.
    rewrite (proj2 (wire_count_Ok (length fs) nf)) by (split; [lia|done]). simpl.
    rewrite (proj2 (wire_count_Ok (length ps) np)) by (split; [lia|done]). simpl.
    rewrite (proj2 (push_all_Ok _ ps _)) by eauto. simpl. by norm_app.
Qed.

(** A Bind that declares [32768 .. 65535] parameters, which the protocol
    carries as an unsigned 16-bit count, is read as carrying none: the whole
    parameter list ends up in the result-format section. *)
Theorem bind_large_count_reads_no_params portal statement n rest :
  x00 ∉ portal → x00 ∉ statement → (2 ^ 15 ≤ n < 2 ^ 16)%Z →
  parse_bind (portal ++ [x00] ++ statement ++ [x00] ++ be_bytes 2 0 ++ be_bytes 2 n ++ rest)
  = Ok {| bm_portal := portal; bm_statement := statement; bm_param_formats := [];
          bm_params := []; bm_result_formats := rest |}.
Proof.
  intros Hp Hs Hn. unfold parse_bind. simpl.
  rewrite (take_cstr_app portal) by done. simpl.
  rewrite (take_cstr_app statement) by done. simpl.
  rewrite take_i16_app by done. simpl.
  rewrite be_bytes_mod. change (256 ^ Z.of_nat 2)%Z with (2 ^ 16)%Z.
  replace (n mod 2 ^ 16)%Z with ((n - 2 ^ 16) mod 2 ^ 16)%Z
    by (rewrite <- (Z_mod_plus_full (n - 2 ^ 16) 1); f_equal; lia).
  change (2 ^ 16)%Z with (256 ^ Z.of_nat 2)%Z. rewrite <- be_bytes_mod.
  change (256 ^ Z.of_nat 2)%Z with (2 ^ 16)%Z.
  rewrite take_i16_app by (unfold in_bits; lia). simpl.
  by replace (Z.to_nat (n - 2 ^ 16)) with 0 by lia.
Qed.

Lemma bind_large_count_witness :
  parse_bind ([] ++ [x00] ++ b#"s" ++ [x00] ++ be_bytes 2 0 ++ be_bytes 2 40000 ++ b#"rest")
  = Ok {| bm_portal := []; bm_statement := b#"s"; bm_param_formats := [];
          bm_params := []; bm_result_formats := b#"rest" |}.
Proof.
  apply (bind_large_count_reads_no_params [] b#"s" 40000 b#"rest").
  - apply not_elem_of_nil.
  - apply (bool_decide_eq_true_1 (x00 ∉ b#"s")). vm_compute. reflexivity.
  - lia.
Defined.

Lemma startup_body_len_spec len_field n :
  startup_body_len len_field = Ok n ↔
  (8 ≤ i32_of_be len_field ≤ 16384)%Z ∧ n = (i32_of_be len_field - 4)%Z.
Proof.
  unfold startup_body_len, STARTUP_HEADER_LEN, MAX_STARTUP_MESSAGE_LEN.
  destruct (Z.ltb_spec (i32_of_be len_field) (Z.of_nat 8)); [naive_solver lia|].
  destruct (Z.ltb_spec (16 * 1024) (i32_of_be len_field)); naive_solver lia.
Qed.

Lemma frame_body_len_spec header t n :
  frame_body_len header = Ok (t, n) ↔
  t = default x00 (header !! 0) ∧ n = (i32_of_be (take 4 (drop 1 header)) - 4)%Z ∧
  (0 ≤ n ≤ 2 ^ 30 - 4)%Z.
Proof.
  unfold frame_body_len, MAX_MESSAGE_LEN.
  change (Z.shiftl 1 30) with (2 ^ 30)%Z.
  set (len := i32_of_be _).
  destruct (Z.ltb_spec len 4); simpl; [naive_solver lia|].
  destruct (Z.ltb_spec (2 ^ 30) len); naive_solver lia.
Qed.
