(* ===== verification/Errors.v ===== *)
(** * Errors

    The error enums of [dbsec-core] ([crates/core/src/lib.rs]) and of the proxy
    ([crates/proxy/src/main.rs]). A variant that carries a formatted message
    carries here the data the message is formatted from; the variants that only
    wrap an operating-system or backend cause carry nothing. *)

From S2P Require Import Prelude Pgwire.

(** Why a declared row key could not be canonicalised ([Error::RowKeyType]). *)
Inductive RowKeyProblem :=
  | KeyIsNull
  | KeyNotUtf8
  | KeyNotInteger (text : bytes)
  | KeyNotUuid (text : bytes)
  | KeyWrongWidth (len expected : nat)
  | KeyTypeRefused (type_oid : Z)
  | KeyColumnRefused (schema table column : bytes) (type_oid : Z)
  | KeyFormatUnknown (code : Z)
  | KeyOutsideRow (index len : nat)
  | KeyTypeChanged (table column : bytes) (wire resolved : Z).

(** Why a policy is refused ([Error::Policy]). *)
Inductive PolicyProblem :=
  | DuplicateColumn (name : bytes)
  | SearchableNotEncrypt (name : bytes)
  | DetokenizeNotFpe (name : bytes)
  | NoneWithoutMask (name : bytes)
  | IdentifierTooLong (name kind : bytes) (len : nat)
  | DuplicateTable (name : bytes)
  | NothingToBind (name row_key : bytes)
  | NothingEncrypted (name row_key : bytes)
  | RowKeyTransformed (name row_key : bytes)
  | NotDeclaredSearchable (name : bytes)
  | StoredFormDiffers (name : bytes).

(** Why key material is refused ([Error::KeySource]). *)
Inductive KeyProblem :=
  | KeyNotHex (what : bytes)
  | KeyBadLength (what : bytes) (expected : nat)
  | ActiveKeyAbsent (active : bytes)
  | VersionAbsent (version : Z)
  | IndexKeyLength
  | DataKeyLength (len : nat)
  | NoDataKey
  | NotAPathSegment (name : bytes)
  | IndexKeyDisappeared (name : bytes)
  | SingleThreadedRuntime (what : bytes)
  | NoAnswerInTime (what : bytes).

Module Core.

(** [dbsec_core::Error]. *)
Inductive Error :=
  | Malformed
  | Decrypt
  | RowKeyMissing
  | RowBindingDowngraded
  | RowBindingFieldTooLong (field : bytes) (len : nat)
  | Encrypt
  | RowKeyType (why : RowKeyProblem)
  | KeyExhausted (id : bytes)
  | UnknownKey (id : bytes)
  | SecretFileMode (path : bytes) (mode : Z)
  | Policy (why : PolicyProblem)
  | UnknownColumn (name : bytes)
  | RowKeyRequired (name : bytes)
  | RowKeyNotDeclared (name : bytes)
  | NotReadable (name : bytes)
  | Unprotected (name : bytes)
  | FpeDomain
  | Fpe
  | KeyFileRead
  | KeyFileWrite
  | KeyFileParse
  | KeySource (why : KeyProblem)
  | KeyBackend (context : bytes)
  | Entropy.

End Core.

Module Proxy.

(** The proxy's [Error]. *)
Inductive Error :=
  | Usage (message : bytes)
  | NoConfig (path : bytes)
  | ConfigRead (path : bytes)
  | ConfigParse (path reason : bytes)
  | Hardening (what : bytes)
  | ConnectTimeout (addr : bytes)
  | StartupTimeout
  | TlsHandshakeTimeout
  | FrameTooLarge (msg_type : byte) (body_len max : Z)
  | TlsConfig (reason : bytes)
  | PlaintextRejected
  | UpstreamTlsRefused (addr : bytes)
  | InvalidConfig (reason : bytes)
  | Listen (addr : bytes)
  | VaultToken (path : bytes)
  | Control (host : bytes)
  | ControlTimeout (host : bytes)
  | ColumnNotFound (table column : bytes)
  | RewriteDiverged
  | NameTooLong (what : bytes) (len max : nat)
  | SessionLimit (what : bytes) (limit : nat)
  | ConflictingParameter (placeholder : nat)
  | UndescribedRow
  | StaleColumnMap (column : bytes) (table_oid : Z)
  | ProtectedValueTooLarge (position len max : nat)
  | PreAuthFrameTooLarge (msg_type : byte) (body_len max : Z)
  | ComputedProtectedColumn (column : bytes)
  | FunctionCallResult
  | RowBindingFailed (column row_key : bytes) (position : nat)
  | AmbiguousRowKey (table column : bytes)
  | AmbiguousRowInstance (table column : bytes)
  | Wire (e : Core.Error)
  | Pgwire (e : WireError)
  | Io.

End Proxy.
