(* ===== verification/Envelope.v ===== *)
(** * The ciphertext envelope ([crates/core/src/envelope.rs])

    ["DBS2" | key id (16) | nonce (12) | AES-256-GCM ciphertext and tag], the
    associated data that binds it to its column and row, the per-DEK invocation
    budget, and the process-wide cipher cache.

    An [Arc<Cipher>] is a pointer into the [cells] of the cache, so that two
    holders of one cipher share its counter. The nonce an encryption draws is an
    argument. The key source is an argument of every call that consults it, so
    that two calls may see it in different states. *)

From S2P Require Import Prelude Crates Pgwire Errors.

(** ** The key source interface ([trait KeySource], [crates/core/src/keys.rs]) *)

Record KeySource := {
  ks_active_key : result Core.Error (bytes * bytes);
  ks_key : bytes → result Core.Error bytes;
  ks_index_key : bytes → result Core.Error bytes;
}.

(** ** Format constants *)

Definition MAGIC : bytes := b#"DBS2".
Definition MAGIC_V1 : bytes := b#"DBS1".
Definition MAGIC_V3 : bytes := b#"DBS3".
Definition KEY_ID_LEN : nat := 16.
Definition NONCE_LEN : nat := 12.
Definition HEADER_LEN : nat := length MAGIC + KEY_ID_LEN + NONCE_LEN.
Definition MAX_ENCRYPTIONS_PER_KEY : Z := Z.shiftl 1 32.

(** ** Where a ciphertext belongs *)

Record CellContext := { cell_name : bytes }.
Record RowKey := { row_key_bytes : bytes }.

#[global] Instance CellContext_eq_dec : EqDecision CellContext.
Proof. solve_decision. Defined.
#[global] Instance RowKey_eq_dec : EqDecision RowKey.
Proof. solve_decision. Defined.

Definition aad (self : CellContext) (key_id : bytes) : bytes :=
  key_id ++ cell_name self.

Definition aad_prefix (field : bytes) (bs : bytes) : result Core.Error bytes :=
  if (Z.of_nat (length bs) <=? 2 ^ 32 - 1)%Z
  then Ok (be_bytes 4 (Z.of_nat (length bs)))
  else Err (Core.RowBindingFieldTooLong field (length bs)).

Definition aad_with_row (self : CellContext) (key_id : bytes) (row : RowKey)
    : result Core.Error bytes :=
  let column := cell_name self in
  let key := row_key_bytes row in
  p1 ← aad_prefix b#"column context" column;
  p2 ← aad_prefix b#"row key" key;
  mret (key_id ++ p1 ++ column ++ p2 ++ key).

Record Binding := {
  b_context : CellContext;
  b_row : option RowKey;
  b_strict : bool;
}.

Definition binding_cell (context : CellContext) : Binding :=
  {| b_context := context; b_row := None; b_strict := false |}.
Definition binding_row (context : CellContext) (row : RowKey) : Binding :=
  {| b_context := context; b_row := Some row; b_strict := false |}.
Definition binding_row_strict (context : CellContext) (row : RowKey) : Binding :=
  {| b_context := context; b_row := Some row; b_strict := true |}.

Definition is_enveloped (data : bytes) : bool :=
  bool_decide (HEADER_LEN < length data)
  && (starts_with data MAGIC || starts_with data MAGIC_V1 || starts_with data MAGIC_V3).

(** The header's fields. *)
Definition header_id (data : bytes) : bytes := take KEY_ID_LEN (drop (length MAGIC) data).
Definition header_nonce (data : bytes) : bytes :=
  take NONCE_LEN (drop (length MAGIC + KEY_ID_LEN) data).

Definition key_id (data : bytes) : result Core.Error bytes :=
  if is_enveloped data then Ok (header_id data) else Err Core.Malformed.

(** ** One DEK's cipher *)

Record Cipher := {
  c_key : bytes;
  (** [AtomicU64]: encryptions charged so far. *)
  c_used : Z;
  c_budget : Z;
}.

Definition with_budget (key : bytes) (budget : Z) : Cipher :=
  {| c_key := key; c_used := 0; c_budget := budget |}.

Definition cipher_new (key : bytes) : Cipher := with_budget key MAX_ENCRYPTIONS_PER_KEY.

(** [self.budget.saturating_sub(used)]. *)
Definition remaining (c : Cipher) : Z := Z.max 0 (c_budget c - c_used c).

(** [fetch_add(1)], which wraps at the counter's 64 bits. *)
Definition charge (c : Cipher) : Cipher :=
  {| c_key := c_key c; c_used := (c_used c + 1) mod 2 ^ 64; c_budget := c_budget c |}.

Section envelope.
Context `{HexCrate, AeadCrate}.

Definition sealed_bytes (c : Cipher) (nonce id : bytes) (binding : Binding)
    (plaintext : bytes) : result Core.Error bytes :=
  '(magic, a) ←
    match b_row binding with
    | Some row => a ← aad_with_row (b_context binding) id row; mret (MAGIC_V3, a)
    | None => mret (MAGIC, aad (b_context binding) id)
    end;
  ciphertext ← ok_or Core.Encrypt (gcm_encrypt (c_key c) nonce plaintext a);
  mret (magic ++ id ++ nonce ++ ciphertext).

Definition cipher_encrypt (nonce id : bytes) (binding : Binding) (plaintext : bytes)
    : M Cipher Core.Error bytes :=
  λ c,
    if (c_budget c <=? c_used c)%Z then (Err (Core.KeyExhausted (hex_encode id)), charge c)
    else (sealed_bytes c nonce id binding plaintext, charge c).

(** The associated data an enveloped value is verified against: the stored
    version decides which. *)
Definition decrypt_aad (binding : Binding) (data : bytes) : result Core.Error bytes :=
  let id := header_id data in
  let downgraded := bool_decide (is_Some (b_row binding)) && b_strict binding in
  if starts_with data MAGIC_V1 then
    if downgraded then Err Core.RowBindingDowngraded else Ok id
  else if starts_with data MAGIC_V3 then
    row ← ok_or Core.RowKeyMissing (b_row binding);
    aad_with_row (b_context binding) id row
  else if downgraded then Err Core.RowBindingDowngraded
  else Ok (aad (b_context binding) id).

Definition cipher_decrypt (c : Cipher) (binding : Binding) (data : bytes)
    : result Core.Error bytes :=
  if negb (is_enveloped data) then Err Core.Malformed
  else
    a ← decrypt_aad binding data;
    ok_or Core.Decrypt
      (gcm_decrypt (c_key c) (header_nonce data) (drop HEADER_LEN data) a).

(** [envelope::encrypt] and [envelope::decrypt]: one call, no history. *)
Definition encrypt (key nonce id : bytes) (binding : Binding) (plaintext : bytes)
    : result Core.Error bytes :=
  (cipher_encrypt nonce id binding plaintext (cipher_new key)).1.

Definition decrypt (key : bytes) (binding : Binding) (data : bytes)
    : result Core.Error bytes :=
  cipher_decrypt (cipher_new key) binding data.

End envelope.

(** ** The cipher cache *)

Record Ciphers := {
  cs_budget : Z;
  (** The heap of cipher objects; an [Arc<Cipher>] is an index into it. *)
  cs_cells : list Cipher;
  cs_active : option (bytes * nat);
  cs_by_id : gmap bytes nat;
}.

Definition ciphers_with_budget (budget : Z) : Ciphers :=
  {| cs_budget := budget; cs_cells := []; cs_active := None; cs_by_id := ∅ |}.

Definition ciphers_new : Ciphers := ciphers_with_budget MAX_ENCRYPTIONS_PER_KEY.

(** [Arc::new(Cipher::with_budget(key, self.budget))]. *)
Definition alloc (key : bytes) (s : Ciphers) : nat * Ciphers :=
  (length (cs_cells s),
   {| cs_budget := cs_budget s; cs_cells := cs_cells s ++ [with_budget key (cs_budget s)];
      cs_active := cs_active s; cs_by_id := cs_by_id s |}).

Definition set_active (a : bytes * nat) (s : Ciphers) : Ciphers :=
  {| cs_budget := cs_budget s; cs_cells := cs_cells s; cs_active := Some a;
     cs_by_id := cs_by_id s |}.

(** The critical section of [active]: [slot.get_or_insert_with(..)]. *)
Definition active_fill (id key : bytes) (s : Ciphers) : (bytes * nat) * Ciphers :=
  match cs_active s with
  | Some a => (a, s)
  | None => let '(p, s) := alloc key s in ((id, p), set_active (id, p) s)
  end.

(** The critical section of [roll_active]. *)
Definition roll_fill (spent id key : bytes) (s : Ciphers) : (bytes * nat) * Ciphers :=
  match cs_active s with
  | Some (current, p) =>
      if bool_decide (current ≠ spent) then ((current, p), s)
      else let '(p, s) := alloc key s in ((id, p), set_active (id, p) s)
  | None => let '(p, s) := alloc key s in ((id, p), set_active (id, p) s)
  end.

(** The critical section of [for_id]: [entry(id).or_insert(cipher)]. *)
Definition for_id_fill (id key : bytes) (s : Ciphers) : nat * Ciphers :=
  match cs_by_id s !! id with
  | Some p => (p, s)
  | None =>
      let '(p, s) := alloc key s in
      (p, {| cs_budget := cs_budget s; cs_cells := cs_cells s; cs_active := cs_active s;
             cs_by_id := <[id := p]> (cs_by_id s) |})
  end.

Section ciphers.
Context `{HexCrate, AeadCrate}.

Definition ciphers_active (ks : KeySource) : M Ciphers Core.Error (bytes * nat) :=
  slot ← gets cs_active;
  match slot with
  | Some a => mret a
  | None =>
      '(id, key) ← lift (ks_active_key ks);
      runs (active_fill id key)
  end.

Definition roll_active (ks : KeySource) (spent : bytes) : M Ciphers Core.Error (bytes * nat) :=
  '(id, key) ← lift (ks_active_key ks);
  if bool_decide (id = spent) then lift (Err (Core.KeyExhausted (hex_encode spent)))
  else runs (roll_fill spent id key).

Definition for_id (ks : KeySource) (id : bytes) : M Ciphers Core.Error nat :=
  cached ← gets (λ s, cs_by_id s !! id);
  match cached with
  | Some p => mret p
  | None =>
      key ← lift (ks_key ks id);
      runs (for_id_fill id key)
  end.

(** A method call on the cipher behind a pointer. A pointer is never dangling
    ([ciphers_ok]), so the error of the first branch is not reachable. *)
Definition on_cell {A} (p : nat) (m : M Cipher Core.Error A) : M Ciphers Core.Error A :=
  λ s,
    match cs_cells s !! p with
    | None => (Err Core.Malformed, s)
    | Some c =>
        let '(r, c) := m c in
        (r, {| cs_budget := cs_budget s; cs_cells := <[p := c]> (cs_cells s);
               cs_active := cs_active s; cs_by_id := cs_by_id s |})
    end.

(** [Ciphers::seal]. The nonce is the one the encryption that succeeds draws:
    an exhausted key refuses before drawing. *)
Definition ciphers_seal (ks : KeySource) (nonce : bytes) (binding : Binding)
    (plaintext : bytes) : M Ciphers Core.Error bytes :=
  '(id, p) ← ciphers_active ks;
  catch (on_cell p (cipher_encrypt nonce id binding plaintext)) (λ e,
    match e with
    | Core.KeyExhausted _ => Some (
        '(id, p) ← roll_active ks id;
        on_cell p (cipher_encrypt nonce id binding plaintext))
    | _ => None
    end).

(** [Ciphers::open]. *)
Definition ciphers_open (ks : KeySource) (binding : Binding) (enveloped : bytes)
    : M Ciphers Core.Error bytes :=
  id ← lift (key_id enveloped);
  p ← for_id ks id;
  on_cell p (λ c, (cipher_decrypt c binding enveloped, c)).

End ciphers.

(** ** Associated data is injective *)

Lemma aad_inj c1 c2 id1 id2 :
  length id1 = length id2 → aad c1 id1 = aad c2 id2 → id1 = id2 ∧ c1 = c2.
Proof.
  unfold aad. intros Hl E. apply app_inj_1 in E as [-> E]; [|done].
  split; [done|]. destruct c1, c2; simpl in E. by subst.
Qed.

Lemma aad_prefix_Ok f bs p :
  aad_prefix f bs = Ok p ↔
  p = be_bytes 4 (Z.of_nat (length bs)) ∧ (Z.of_nat (length bs) < 2 ^ 32)%Z.
Proof.
  unfold aad_prefix.
  destruct (Z.leb_spec (Z.of_nat (length bs)) (2 ^ 32 - 1)); naive_solver lia.
Qed.

Lemma aad_with_row_Ok c id r a :
  aad_with_row c id r = Ok a ↔
  (Z.of_nat (length (cell_name c)) < 2 ^ 32)%Z ∧
  (Z.of_nat (length (row_key_bytes r)) < 2 ^ 32)%Z ∧
  a = id ++ be_bytes 4 (Z.of_nat (length (cell_name c))) ++ cell_name c
        ++ be_bytes 4 (Z.of_nat (length (row_key_bytes r))) ++ row_key_bytes r.
Proof.
  unfold aad_with_row. split.
  - intros H. apply bind_Ok_inv in H as (p1 & (-> & H1)%aad_prefix_Ok & H).
    apply bind_Ok_inv in H as (p2 & (-> & H2)%aad_prefix_Ok & [= <-]). done.
  - intros (H1 & H2 & ->).
    rewrite (proj2 (aad_prefix_Ok b#"column context" (cell_name c) _) (conj eq_refl H1)).
    rewrite (proj2 (aad_prefix_Ok b#"row key" (row_key_bytes r) _) (conj eq_refl H2)). done.
Qed.

(** A length-prefixed field at the front of a buffer is uniquely readable. *)
Lemma framed_inj (x y r1 r2 : bytes) :
  (Z.of_nat (length x) < 2 ^ 32)%Z → (Z.of_nat (length y) < 2 ^ 32)%Z →
  be_bytes 4 (Z.of_nat (length x)) ++ x ++ r1 = be_bytes 4 (Z.of_nat (length y)) ++ y ++ r2 →
  x = y ∧ r1 = r2.
Proof.
  intros Hx Hy E. apply app_inj_1 in E as [E1 E2]; [|by simpl_wire].
  apply app_inj_1 in E2 as [-> ->]; [done|].
  apply (f_equal be_val) in E1. rewrite !be_val_be_bytes in E1 by lia. lia.
Qed.

Lemma aad_with_row_inj c1 c2 id1 id2 r1 r2 a :
  length id1 = KEY_ID_LEN → length id2 = KEY_ID_LEN →
  aad_with_row c1 id1 r1 = Ok a → aad_with_row c2 id2 r2 = Ok a →
  id1 = id2 ∧ c1 = c2 ∧ r1 = r2.
Proof.
  intros L1 L2 (C1 & R1 & ->)%aad_with_row_Ok (C2 & R2 & E)%aad_with_row_Ok.
  apply app_inj_1 in E as [-> E]; [|congruence].
  apply framed_inj in E as [Ec E]; [|done..].
  pose proof (framed_inj (row_key_bytes r1) (row_key_bytes r2) [] []) as F.
  rewrite !app_nil_r in F. destruct (F R1 R2 E) as [Er _].
  destruct c1, c2, r1, r2; simpl in *; subst; done.
Qed.

(** The associated data of a row-bound envelope determines the key id, the
    column and the row: two bindings under 16-byte key ids that frame to the
    same bytes are the same binding, so no choice of column name and row key can
    straddle the seam between the two fields. *)
Theorem aad_with_row_injective c1 c2 id1 id2 r1 r2 a :
  length id1 = KEY_ID_LEN → length id2 = KEY_ID_LEN →
  aad_with_row c1 id1 r1 = Ok a → aad_with_row c2 id2 r2 = Ok a →
  id1 = id2 ∧ c1 = c2 ∧ r1 = r2.
Proof. apply aad_with_row_inj. Qed.

Lemma aad_with_row_injective_witness :
  ∃ a, aad_with_row {| cell_name := b#"public.users.ssn" |} (replicate 16 x01)
         {| row_key_bytes := b#"42" |} = Ok a ∧
  (aad_with_row {| cell_name := b#"public.users.ssn" |} (replicate 16 x01)
     {| row_key_bytes := b#"42" |} = Ok a →
   replicate 16 x01 = replicate 16 x01 ∧
   {| cell_name := b#"public.users.ssn" |} = {| cell_name := b#"public.users.ssn" |} ∧
   {| row_key_bytes := b#"42" |} = {| row_key_bytes := b#"42" |}).
Proof.
  eexists. split; [vm_compute; reflexivity|].
  intros E. eapply (aad_with_row_injective _ _ (replicate 16 x01) (replicate 16 x01) _ _ _
            eq_refl eq_refl E E).
Defined.

(** ** Header parsing *)

Definition envelope (magic id nonce ct : bytes) : bytes := magic ++ id ++ nonce ++ ct.

Lemma header_envelope magic id nonce ct :
  length magic = 4 → length id = KEY_ID_LEN → length nonce = NONCE_LEN →
  header_id (envelope magic id nonce ct) = id ∧
  header_nonce (envelope magic id nonce ct) = nonce ∧
  drop HEADER_LEN (envelope magic id nonce ct) = ct.
Proof.
  unfold header_id, header_nonce, envelope, HEADER_LEN. intros Hm Hi Hn.
  change (length MAGIC) with 4.
  assert (∀ r : bytes, drop 4 (magic ++ r) = r) as D4
    by (intros; rewrite <- Hm; apply drop_app_length).
  assert (∀ r : bytes, drop KEY_ID_LEN (id ++ r) = r) as D16
    by (intros; rewrite <- Hi; apply drop_app_length).
  repeat split.
  - rewrite D4, <- Hi. apply take_app_length.
  - rewrite <- drop_drop, D4, D16, <- Hn. apply take_app_length.
  - rewrite <- drop_drop, <- drop_drop, D4, D16, <- Hn. apply drop_app_length.
Qed.

Lemma is_enveloped_envelope magic id nonce ct :
  magic ∈ [MAGIC; MAGIC_V1; MAGIC_V3] →
  length id = KEY_ID_LEN → length nonce = NONCE_LEN → 0 < length ct →
  is_enveloped (envelope magic id nonce ct) = true.
Proof.
  intros Hm Hi Hn Hc. unfold is_enveloped, envelope.
  rewrite bool_decide_eq_true_2.
  - repeat (apply elem_of_cons in Hm as [->|Hm]); rewrite ?starts_with_app; simpl;
      rewrite ?orb_true_r; try done. by apply elem_of_nil in Hm.
  - assert (length magic = 4) by
      (repeat (apply elem_of_cons in Hm as [->|Hm]; [done|]); by apply elem_of_nil in Hm).
    rewrite !length_app, Hi, Hn. unfold HEADER_LEN. change (length MAGIC) with 4. lia.
Qed.

Lemma versions_length magic : magic ∈ [MAGIC; MAGIC_V1; MAGIC_V3] → length magic = 4.
Proof. set_unfold. naive_solver. Qed.

Lemma starts_with_magic magic magic' rest :
  magic ∈ [MAGIC; MAGIC_V1; MAGIC_V3] → magic' ∈ [MAGIC; MAGIC_V1; MAGIC_V3] →
  starts_with (magic ++ rest) magic' = bool_decide (magic = magic').
Proof.
  intros Hm Hm'. case_bool_decide as E.
  - rewrite E. apply starts_with_app.
  - apply starts_with_ne; [|done]. by rewrite !versions_length.
Qed.

(** ** One cipher: what sealing writes and what opening reads *)

(** The version and the associated data a binding is written under. *)
Definition written (b : Binding) (id : bytes) (magic a : bytes) : Prop :=
  match b_row b with
  | Some row => magic = MAGIC_V3 ∧ aad_with_row (b_context b) id row = Ok a
  | None => magic = MAGIC ∧ a = aad (b_context b) id
  end.

(** The associated data a value is sealed under. *)
Definition sealing_aad (b : Binding) (id : bytes) : result Core.Error bytes :=
  match b_row b with
  | Some row => aad_with_row (b_context b) id row
  | None => Ok (aad (b_context b) id)
  end.

Lemma written_aad b id magic a : written b id magic a → sealing_aad b id = Ok a.
Proof. unfold written, sealing_aad. destruct (b_row b); [by intros []|by intros [_ ->]]. Qed.

Lemma written_version b id magic a :
  written b id magic a → magic ∈ [MAGIC; MAGIC_V1; MAGIC_V3].
Proof. unfold written. destruct (b_row b); set_solver. Qed.

Lemma decrypt_aad_envelope b magic id nonce ct :
  magic ∈ [MAGIC; MAGIC_V1; MAGIC_V3] → length id = KEY_ID_LEN → length nonce = NONCE_LEN →
  decrypt_aad b (envelope magic id nonce ct) =
  let downgraded := bool_decide (is_Some (b_row b)) && b_strict b in
  if bool_decide (magic = MAGIC_V1) then
    if downgraded then Err Core.RowBindingDowngraded else Ok id
  else if bool_decide (magic = MAGIC_V3) then
    row ← ok_or Core.RowKeyMissing (b_row b); aad_with_row (b_context b) id row
  else if downgraded then Err Core.RowBindingDowngraded
  else Ok (aad (b_context b) id).
Proof.
  intros Hm Hi Hn. unfold decrypt_aad.
  destruct (header_envelope magic id nonce ct) as (-> & _ & _); [|done..|].
  { by apply versions_length. }
  unfold envelope. by rewrite !starts_with_magic by set_solver.
Qed.

Lemma written_decrypt_aad b id magic a nonce ct :
  written b id magic a → length id = KEY_ID_LEN → length nonce = NONCE_LEN →
  decrypt_aad b (envelope magic id nonce ct) = Ok a.
Proof.
  intros Hw Hi Hn. rewrite decrypt_aad_envelope; [|by eapply written_version|done..].
  unfold written in Hw. destruct (b_row b); destruct Hw as [-> Ha]; simpl.
  - done.
  - by rewrite Ha.
Qed.

Section cipher_theorems.
Context `{HexCrate, AeadCrate, !AeadLaws}.

Lemma sealed_bytes_Ok c nonce id b p e :
  sealed_bytes c nonce id b p = Ok e ↔
  ∃ magic a ct, written b id magic a ∧ gcm_encrypt (c_key c) nonce p a = Some ct ∧
    e = envelope magic id nonce ct.
Proof.
  unfold sealed_bytes, written, envelope. split.
  - intros Hs. apply bind_Ok_inv in Hs as ([magic a] & Hw & Hs).
    apply bind_Ok_inv in Hs as (ct & Hc%ok_or_Ok & [= <-]).
    exists magic, a, ct. split; [|done].
    destruct (b_row b); [|by injection Hw as <- <-].
    by apply bind_Ok_inv in Hw as (? & ? & [= <- <-]).
  - intros (magic & a & ct & Hw & Hs & ->).
    destruct (b_row b); destruct Hw as [-> Ha]; rewrite Ha in *; simpl; by rewrite Hs.
Qed.

(** Opening an envelope is opening its ciphertext under the associated data its
    version selects. *)
Lemma cipher_decrypt_envelope c b magic id nonce ct :
  magic ∈ [MAGIC; MAGIC_V1; MAGIC_V3] → length id = KEY_ID_LEN →
  length nonce = NONCE_LEN → 0 < length ct →
  cipher_decrypt c b (envelope magic id nonce ct) =
  a ← decrypt_aad b (envelope magic id nonce ct);
  ok_or Core.Decrypt (gcm_decrypt (c_key c) nonce ct a).
Proof.
  intros Hm Hi Hn Hc. unfold cipher_decrypt.
  rewrite is_enveloped_envelope by done. simpl.
  destruct (header_envelope magic id nonce ct) as (_ & -> & ->); [|done..].
  by apply versions_length.
Qed.

Lemma sealed_bytes_opens c c' nonce id b p e :
  length id = KEY_ID_LEN → length nonce = NONCE_LEN → c_key c' = c_key c →
  sealed_bytes c nonce id b p = Ok e →
  cipher_decrypt c' b e = Ok p.
Proof.
  intros Hi Hn Hk (magic & a & ct & Hw & Hs & ->)%sealed_bytes_Ok.
  pose proof (gcm_length _ _ _ _ _ Hs).
  rewrite cipher_decrypt_envelope; [|by eapply written_version|done..|lia].
  rewrite (written_decrypt_aad _ _ _ a) by done. simpl.
  by rewrite Hk, (gcm_open_sealed _ _ _ _ _ Hs).
Qed.

Lemma sealed_bytes_enveloped c nonce id b p e :
  length id = KEY_ID_LEN → length nonce = NONCE_LEN →
  sealed_bytes c nonce id b p = Ok e →
  is_enveloped e = true ∧ key_id e = Ok id ∧ length e = length p + 48.
Proof.
  intros Hi Hn (magic & a & ct & Hw & Hs & ->)%sealed_bytes_Ok.
  pose proof (gcm_length _ _ _ _ _ Hs) as Hl.
  pose proof (written_version _ _ _ _ Hw) as Hv.
  assert (is_enveloped (envelope magic id nonce ct) = true) as He
    by (apply is_enveloped_envelope; [done..|lia]).
  split; [done|]. split.
  - unfold key_id. rewrite He.
    destruct (header_envelope magic id nonce ct) as (-> & _ & _); [|done..].
    by apply versions_length.
  - unfold envelope. rewrite !length_app, Hl, Hi, Hn, versions_length by done.
    unfold KEY_ID_LEN, NONCE_LEN. lia.
Qed.

(** ** Moved and relabelled ciphertexts *)

(** What an opener learns when it opens an envelope whose version and binding
    are not those it was sealed under. *)
Lemma opened_elsewhere c c' nonce id b b' p magic' m e ct :
  length id = KEY_ID_LEN → length nonce = NONCE_LEN → c_key c' = c_key c →
  sealed_bytes c nonce id b p = Ok e → drop HEADER_LEN e = ct →
  magic' ∈ [MAGIC; MAGIC_V1; MAGIC_V3] →
  cipher_decrypt c' b' (envelope magic' id nonce ct) = Ok m →
  ∃ magic a a', written b id magic a ∧ e = envelope magic id nonce ct ∧
    decrypt_aad b' (envelope magic' id nonce ct) = Ok a' ∧
    (a ≠ a' → aead_forgery (c_key c) nonce p a ct a' m).
Proof.
  intros Hi Hn Hk (magic & a & ct0 & Hw & Hs & ->)%sealed_bytes_Ok Hct Hm' Ho.
  destruct (header_envelope magic id nonce ct0) as (_ & _ & Hd); [|done..|].
  { apply versions_length. by eapply written_version. }
  rewrite Hd in Hct. subst ct0.
  pose proof (gcm_length _ _ _ _ _ Hs).
  rewrite cipher_decrypt_envelope in Ho; [|done..|lia].
  apply bind_Ok_inv in Ho as (a' & Ha' & Ho%ok_or_Ok). rewrite Hk in Ho.
  exists magic, a, a'. split_and!; [done..|]. by intros Hne.
Qed.

End cipher_theorems.

(** The binding under which bytes are read names another cell, or another row
    of the same column, than the one they were written for. *)
Definition relocated (b b' : Binding) : Prop :=
  b_context b ≠ b_context b' ∨ (is_Some (b_row b) ∧ b_row b ≠ b_row b').

Lemma written_relocated b b' id magic a a' nonce ct :
  length id = KEY_ID_LEN → length nonce = NONCE_LEN →
  written b id magic a → relocated b b' →
  decrypt_aad b' (envelope magic id nonce ct) = Ok a' → a ≠ a'.
Proof.
  intros Hi Hn Hw Hr Ha' <-.
  rewrite decrypt_aad_envelope in Ha'; [|by eapply written_version|done..].
  unfold written, relocated in *.
  destruct (b_row b) as [row|]; destruct Hw as [-> Ha]; simpl in *.
  - destruct (b_row b') as [row'|]; simpl in Ha'; [|done].
    destruct (aad_with_row_inj _ _ _ _ _ _ _ Hi Hi Ha Ha') as (_ & ? & ?). naive_solver.
  - destruct (_ && _); [done|]. injection Ha' as E. subst a.
    apply aad_inj in E as [_ ?]; [|done]. destruct Hr as [|[[? ?] _]]; [|done]. congruence.
Qed.

(** A context a validated policy configures: [schema.table.column] is not empty,
    does not begin with NUL and is shorter than 16 MiB. *)
Definition context_wf (c : CellContext) : Prop :=
  cell_name c ≠ [] ∧ head (cell_name c) ≠ Some x00 ∧
  (Z.of_nat (length (cell_name c)) < 2 ^ 24)%Z.

(** A four-byte length under 2^24 begins with a zero byte. *)
Lemma be_bytes_4_small z : (0 ≤ z < 2 ^ 24)%Z → ∃ r, be_bytes 4 z = x00 :: r.
Proof.
  intros Hz. exists (be_bytes 3 z).
  rewrite <- (be_bytes_val (x00 :: be_bytes 3 z)). simpl length. rewrite length_be_bytes.
  f_equal. change (x00 :: be_bytes 3 z) with ([x00] ++ be_bytes 3 z).
  rewrite be_val_cons_zero. by rewrite be_val_be_bytes.
Qed.

Lemma framed_not_context c c' id r a :
  length id = KEY_ID_LEN → context_wf c → context_wf c' →
  aad_with_row c id r = Ok a → a ≠ aad c' id ∧ a ≠ id.
Proof.
  intros Hi (_ & _ & Hc) (Hne & Hnul & _) (_ & _ & ->)%aad_with_row_Ok.
  destruct (be_bytes_4_small (Z.of_nat (length (cell_name c)))) as [t ->]; [lia|].
  split; intros E.
  - unfold aad in E. apply app_inj_1 in E as [_ E]; [|done]. apply Hnul. by rewrite <- E.
  - rewrite <- (app_nil_r id) in E at 2. apply app_inj_1 in E as [_ E]; done.
Qed.

Lemma written_relabelled b b' id magic magic' a a' nonce ct :
  length id = KEY_ID_LEN → length nonce = NONCE_LEN →
  context_wf (b_context b) → context_wf (b_context b') →
  written b id magic a → magic' ∈ [MAGIC; MAGIC_V1; MAGIC_V3] → magic' ≠ magic →
  decrypt_aad b' (envelope magic' id nonce ct) = Ok a' → a ≠ a'.
Proof.
  intros Hi Hn Hc Hc' Hw Hm' Hne Ha'. rewrite decrypt_aad_envelope in Ha' by done.
  cbv zeta in Ha'. destruct (_ && _) in Ha'.
  - repeat case_bool_decide; try done.
    apply bind_Ok_inv in Ha' as (row' & _ & Ha'). subst magic'. unfold written in Hw.
    destruct (b_row b); destruct Hw as [-> Ha]; [done|]. subst a.
    apply framed_not_context with (c' := b_context b) in Ha' as [? _]; [|done..]. congruence.
  - unfold written in Hw. destruct (b_row b) as [row|]; destruct Hw as [-> Ha].
    + destruct (framed_not_context _ (b_context b') _ _ _ Hi Hc Hc' Ha) as [E1 E2].
      repeat case_bool_decide; try done; by injection Ha' as <-.
    + subst a. repeat case_bool_decide.
      * injection Ha' as <-. unfold aad. intros E.
        rewrite <- (app_nil_r id) in E at 2. apply app_inj_1 in E as [_ E]; [|done].
        by destruct Hc as (? & _).
      * apply bind_Ok_inv in Ha' as (row' & _ & Ha').
        apply framed_not_context with (c' := b_context b) in Ha' as [? _]; [|done..]. congruence.
      * exfalso. set_solver.
Qed.

(** ** The cache keeps its ciphers under their own keys *)

(** [K] is the keyring: the DEK behind every key id there ever was. A key source
    may answer or fail, and offer any active key, but never two keys for one id. *)
Record source_ok (K : bytes → option bytes) (ks : KeySource) : Prop := {
  source_active id k :
    ks_active_key ks = Ok (id, k) → length id = KEY_ID_LEN ∧ K id = Some k;
  source_key id k : ks_key ks id = Ok k → K id = Some k;
}.

(** The pointer is not dangling, and the cipher behind it is the one of [id]. *)
Definition cell_ok (K : bytes → option bytes) (s : Ciphers) (id : bytes) (p : nat) : Prop :=
  ∃ c, cs_cells s !! p = Some c ∧ K id = Some (c_key c) ∧ c_budget c = cs_budget s.

Record ciphers_ok (K : bytes → option bytes) (s : Ciphers) : Prop := {
  active_ok id p : cs_active s = Some (id, p) → length id = KEY_ID_LEN ∧ cell_ok K s id p;
  by_id_ok id p : cs_by_id s !! id = Some p → cell_ok K s id p;
}.

(** Cells are only ever added or charged. *)
Record extends (s s' : Ciphers) : Prop := {
  extends_budget : cs_budget s' = cs_budget s;
  extends_cells p c : cs_cells s !! p = Some c →
    ∃ c', cs_cells s' !! p = Some c' ∧ c_key c' = c_key c ∧ c_budget c' = c_budget c;
}.

#[global] Instance extends_preorder : PreOrder extends.
Proof.
  split.
  - intros s. split; [done|]. eauto.
  - intros s1 s2 s3 [B1 E1] [B2 E2]. split; [congruence|].
    intros p c Hc. apply E1 in Hc as (c2 & Hc & ? & ?).
    apply E2 in Hc as (c3 & Hc & ? & ?). exists c3. split_and!; congruence.
Qed.

Lemma extends_cells_eq s s' s'' :
  extends s s' → cs_budget s'' = cs_budget s' → cs_cells s'' = cs_cells s' → extends s s''.
Proof. intros [Hb Hc] Eb Ec. split; [congruence|]. by rewrite Ec. Qed.

Lemma cell_ok_extends K s s' id p : extends s s' → cell_ok K s id p → cell_ok K s' id p.
Proof.
  intros [Hb He] (c & Hc & Hk & Hbc). apply He in Hc as (c' & ? & ? & ?).
  exists c'. split_and!; congruence.
Qed.

Lemma ciphers_ok_frame K s s' :
  ciphers_ok K s → extends s s' → cs_active s' = cs_active s → cs_by_id s' = cs_by_id s →
  ciphers_ok K s'.
Proof.
  intros [Ha Hi] He Ea Ei. split; intros id p; rewrite ?Ea, ?Ei; intros Hp.
  - destruct (Ha _ _ Hp). eauto using cell_ok_extends.
  - eauto using cell_ok_extends.
Qed.

Lemma ciphers_new_ok K budget : ciphers_ok K (ciphers_with_budget budget).
Proof. by split. Qed.

Lemma alloc_spec K key s id :
  K id = Some key →
  extends s (alloc key s).2 ∧ cell_ok K (alloc key s).2 id (alloc key s).1.
Proof.
  intros HK. split.
  - split; [done|]. intros p c Hc. exists c. split; [|done].
    simpl. by apply lookup_app_l_Some.
  - eexists. simpl. rewrite list_lookup_middle by done. done.
Qed.

Lemma alloc_ok K key s : ciphers_ok K s → extends s (alloc key s).2 → ciphers_ok K (alloc key s).2.
Proof. intros Hs He. by eapply ciphers_ok_frame. Qed.

Lemma set_active_ok K s id p :
  ciphers_ok K s → length id = KEY_ID_LEN → cell_ok K s id p →
  ciphers_ok K (set_active (id, p) s).
Proof. intros [Ha Hi] Hl Hp. split; [|done]. by intros ? ? [= <- <-]. Qed.

(** What a pointer handed out by the cache promises. *)
Definition handed_out (K : bytes → option bytes) (s0 : Ciphers)
    (r : result Core.Error (bytes * nat)) (s : Ciphers) : Prop :=
  ciphers_ok K s ∧ extends s0 s ∧
  match r with Ok (id, p) => length id = KEY_ID_LEN ∧ cell_ok K s id p | Err _ => True end.

Lemma handed_out_active K s id p :
  ciphers_ok K s → cs_active s = Some (id, p) → handed_out K s (Ok (id, p)) s.
Proof. intros Hs E. split; [done|]. split; [done|]. by apply (active_ok _ _ Hs). Qed.

Lemma fill_ok K s id key :
  ciphers_ok K s → length id = KEY_ID_LEN → K id = Some key →
  handed_out K s (Ok (id, (alloc key s).1)) (set_active (id, (alloc key s).1) (alloc key s).2).
Proof.
  intros Hs Hl HK. destruct (alloc_spec K key s id HK) as [He Hc].
  split; [|split; [|done]].
  - apply set_active_ok; [|done..]. by apply alloc_ok.
  - by eapply extends_cells_eq.
Qed.

Lemma active_fill_ok K s id key :
  ciphers_ok K s → length id = KEY_ID_LEN → K id = Some key →
  handed_out K s (Ok (active_fill id key s).1) (active_fill id key s).2.
Proof.
  intros Hs Hl HK. unfold active_fill. destruct (cs_active s) as [[id' p']|] eqn:E.
  - by apply handed_out_active.
  - by apply fill_ok.
Qed.

Lemma roll_fill_ok K s spent id key :
  ciphers_ok K s → length id = KEY_ID_LEN → K id = Some key →
  handed_out K s (Ok (roll_fill spent id key s).1) (roll_fill spent id key s).2.
Proof.
  intros Hs Hl HK. unfold roll_fill. destruct (cs_active s) as [[id' p']|] eqn:E.
  - case_bool_decide; [|by apply fill_ok].
    by apply handed_out_active.
  - by apply fill_ok.
Qed.

Lemma for_id_fill_ok K s id key :
  ciphers_ok K s → K id = Some key →
  ciphers_ok K (for_id_fill id key s).2 ∧ extends s (for_id_fill id key s).2 ∧
  cell_ok K (for_id_fill id key s).2 id (for_id_fill id key s).1.
Proof.
  intros Hs HK. unfold for_id_fill. destruct (cs_by_id s !! id) as [p|] eqn:E.
  - split; [done|]. split; [done|]. by apply (by_id_ok _ _ Hs).
  - destruct (alloc_spec K key s id HK) as [He Hc].
    split; [|split; [by eapply extends_cells_eq|done]].
    destruct (alloc_ok K key s Hs He) as [Ha Hi].
    split; [done|]. intros id' p'. simpl.
    intros [[<- <-]|[? ?]]%lookup_insert_Some; [done|by apply Hi].
Qed.

Section cache.
Context `{HexCrate, AeadCrate}.
Context (K : bytes → option bytes).

(** The state after an operation: the invariant holds and cells only grew. *)
Definition kept {A} (s0 : Ciphers) (_ : result Core.Error A) (s : Ciphers) : Prop :=
  ciphers_ok K s ∧ extends s0 s.

Lemma ciphers_active_triple ks s0 :
  source_ok K ks →
  triple (λ s, ciphers_ok K s ∧ s = s0) (ciphers_active ks) (handed_out K s0).
Proof.
  intros Hks. apply (triple_bind _ (λ a s, ciphers_ok K s ∧ s = s0 ∧ a = cs_active s)).
  { apply triple_gets. naive_solver. }
  intros [[id p]|].
  { intros s (Hs & -> & E). by apply handed_out_active. }
  apply (triple_bind _
    (λ '(id, key) s, ciphers_ok K s ∧ s = s0 ∧ length id = KEY_ID_LEN ∧ K id = Some key)).
  - apply triple_lift. intros s (Hs & -> & _).
    destruct (ks_active_key ks) as [[id key]|] eqn:E; [|done].
    destruct (source_active _ _ Hks _ _ E). done.
  - intros [id key]. apply triple_runs. intros s (Hs & -> & ? & ?). by apply active_fill_ok.
Qed.

Lemma roll_active_triple ks spent s0 :
  source_ok K ks →
  triple (λ s, ciphers_ok K s ∧ s = s0) (roll_active ks spent) (handed_out K s0).
Proof.
  intros Hks. apply (triple_bind _
    (λ '(id, key) s, ciphers_ok K s ∧ s = s0 ∧ length id = KEY_ID_LEN ∧ K id = Some key)).
  { apply triple_lift. intros s (Hs & ->).
    destruct (ks_active_key ks) as [[id key]|] eqn:E; [|done].
    destruct (source_active _ _ Hks _ _ E). done. }
  intros [id key]. case_bool_decide.
  - apply triple_lift. by intros s (Hs & -> & _).
  - apply triple_runs. intros s (Hs & -> & ? & ?). by apply roll_fill_ok.
Qed.

Lemma for_id_triple ks id s0 :
  source_ok K ks →
  triple (λ s, ciphers_ok K s ∧ s = s0) (for_id ks id)
    (λ r s, kept s0 r s ∧ match r with Ok p => cell_ok K s id p | Err _ => True end).
Proof.
  intros Hks.
  apply (triple_bind _ (λ a s, ciphers_ok K s ∧ s = s0 ∧ a = cs_by_id s !! id)).
  { apply triple_gets. naive_solver. }
  intros [p|].
  { intros s (Hs & -> & E). simpl. split; [done|]. by apply (by_id_ok _ _ Hs). }
  apply (triple_bind _ (λ key s, ciphers_ok K s ∧ s = s0 ∧ K id = Some key)).
  - apply triple_lift. intros s (Hs & -> & _).
    destruct (ks_key ks id) as [key|] eqn:E; [|done].
    split_and!; [done..|]. by eapply source_key.
  - intros key. apply triple_runs. intros s (Hs & -> & HK).
    destruct (for_id_fill_ok K s0 id key Hs HK) as (? & ? & ?). done.
Qed.

(** A method that keeps the cipher's key and budget keeps the cache. *)
Lemma on_cell_kept {A} p (m : M Cipher Core.Error A) s0 :
  (∀ c, c_key (m c).2 = c_key c ∧ c_budget (m c).2 = c_budget c) →
  triple (λ s, ciphers_ok K s ∧ extends s0 s) (on_cell p m) (kept s0).
Proof.
  intros Hm s [Hs He]. unfold on_cell, kept.
  destruct (cs_cells s !! p) as [c|] eqn:Hc; [|done].
  specialize (Hm c). destruct (m c) as [r c'] eqn:E. simpl in Hm. destruct Hm as [Hk Hb].
  assert (extends s {| cs_budget := cs_budget s; cs_cells := <[p:=c']> (cs_cells s);
                       cs_active := cs_active s; cs_by_id := cs_by_id s |}) as He'.
  { split; [done|]. intros q d Hd. simpl. destruct (decide (p = q)) as [<-|].
    - rewrite list_lookup_insert_eq by (by eapply lookup_lt_Some).
      exists c'. split_and!; congruence.
    - rewrite list_lookup_insert_ne by done. eauto. }
  simpl. split; [|by etrans]. by eapply ciphers_ok_frame.
Qed.

Lemma cipher_encrypt_kept nonce id b p c :
  c_key (cipher_encrypt nonce id b p c).2 = c_key c ∧
  c_budget (cipher_encrypt nonce id b p c).2 = c_budget c.
Proof. unfold cipher_encrypt. by destruct (_ <=? _)%Z. Qed.

Lemma ciphers_seal_kept ks nonce b p s0 :
  source_ok K ks →
  triple (λ s, ciphers_ok K s ∧ s = s0) (ciphers_seal ks nonce b p) (kept s0).
Proof.
  intros Hks. apply (triple_bind _ (λ _ s, ciphers_ok K s ∧ extends s0 s)).
  { apply (triple_conseq _ _ _ _ _ (ciphers_active_triple ks s0 Hks)); [done|].
    intros [[]|] s; unfold handed_out, kept; naive_solver. }
  intros [id q]. apply (triple_catch _ (λ _ s, ciphers_ok K s ∧ extends s0 s)).
  { apply (triple_conseq _ _ _ _ _
      (on_cell_kept q _ s0 (cipher_encrypt_kept nonce id b p))); [done|]. by intros [] s. }
  intros []; try done.
  intros s1 [Hs1 He1]. apply (triple_bind (λ s, ciphers_ok K s ∧ s = s1)
    (λ _ s, ciphers_ok K s ∧ extends s0 s)).
  - apply (triple_conseq _ _ _ _ _ (roll_active_triple ks _ s1 Hks)); [done|].
    intros [[]|] s (? & ? & _); unfold kept; split; try done; by etrans.
  - intros [? ?]. apply on_cell_kept, cipher_encrypt_kept.
  - done.
Qed.

Lemma ciphers_open_kept ks b e s0 :
  source_ok K ks →
  triple (λ s, ciphers_ok K s ∧ s = s0) (ciphers_open ks b e) (kept s0).
Proof.
  intros Hks. apply (triple_bind _ (λ _ s, ciphers_ok K s ∧ s = s0)).
  { apply triple_lift. intros s [Hs ->]. by destruct (key_id e). }
  intros id. apply (triple_bind _ (λ _ s, ciphers_ok K s ∧ extends s0 s)).
  { apply (triple_conseq _ _ _ _ _ (for_id_triple ks id s0 Hks)); [done|].
    intros [] s [? _]; done. }
  intros q. by apply on_cell_kept.
Qed.

(** Successful sealing is sealing by some cell of the cache that holds the key of
    the id it stamps. *)
Lemma ciphers_seal_Ok ks nonce b p s e s' :
  source_ok K ks → ciphers_ok K s →
  ciphers_seal ks nonce b p s = (Ok e, s') →
  ∃ id c, length id = KEY_ID_LEN ∧ K id = Some (c_key c) ∧
    sealed_bytes c nonce id b p = Ok e.
Proof.
  intros Hks Hs Hseal.
  assert (∀ id q s1 s2,
    cell_ok K s1 id q → length id = KEY_ID_LEN →
    on_cell q (cipher_encrypt nonce id b p) s1 = (Ok e, s2) →
    ∃ id c, length id = KEY_ID_LEN ∧ K id = Some (c_key c) ∧
      sealed_bytes c nonce id b p = Ok e) as Hcell.
  { intros id q s1 s2 (c & Hc & Hk & _) Hl. unfold on_cell. rewrite Hc.
    unfold cipher_encrypt. destruct (_ <=? _)%Z; [done|]. intros [= E _]. eauto. }
  apply M_bind_Ok in Hseal as ([id q] & s1 & Ha & Hseal).
  pose proof (ciphers_active_triple ks s Hks s (conj Hs eq_refl)) as Ht.
  rewrite Ha in Ht. destruct Ht as (Hs1 & He1 & Hl & Hq). simpl in Hs1, He1, Hq.
  unfold catch in Hseal.
  pose proof (on_cell_kept q (cipher_encrypt nonce id b p) s1
    (cipher_encrypt_kept nonce id b p) s1 (conj Hs1 (reflexivity s1))) as Hk1.
  destruct (on_cell q _ s1) as [[e'|err] s2] eqn:E; simpl in Hk1.
  { injection Hseal as -> ->. by eapply Hcell. }
  destruct err; simpl in Hseal; try done.
  apply M_bind_Ok in Hseal as ([id' q'] & s3 & Hr & Hseal).
  pose proof (roll_active_triple ks id s2 Hks s2 (conj (proj1 Hk1) eq_refl)) as Ht.
  rewrite Hr in Ht. destruct Ht as (Hs3 & He3 & Hl' & Hq'). by eapply Hcell.
Qed.

Lemma ciphers_open_eval ks b e s id k :
  source_ok K ks → ciphers_ok K s → key_id e = Ok id → ks_key ks id = Ok k →
  (ciphers_open ks b e s).1 = cipher_decrypt (cipher_new k) b e.
Proof.
  intros Hks Hs Hid Hk. unfold ciphers_open. rewrite Hid.
  pose proof (for_id_triple ks id s Hks s (conj Hs eq_refl)) as Ht.
  assert (∃ q s1, for_id ks id s = (Ok q, s1)) as (q & s1 & Hf).
  { unfold for_id, mbind, M_bind, gets, lift, runs. rewrite Hk.
    destruct (cs_by_id s !! id); [eauto|]. destruct (for_id_fill id k s). eauto. }
  rewrite Hf in Ht. destruct Ht as (_ & c & Hc & HK & _). simpl in Hc.
  apply (source_key _ _ Hks) in Hk. rewrite Hk in HK.
  unfold mbind at 1, M_bind at 1, lift at 1. erewrite M_bind_eval by done.
  unfold on_cell. rewrite Hc. simpl. unfold cipher_decrypt. by injection HK as ->.
Qed.

Lemma ciphers_open_Ok ks b e s id m :
  source_ok K ks → ciphers_ok K s → key_id e = Ok id →
  (ciphers_open ks b e s).1 = Ok m →
  ∃ k, K id = Some k ∧ cipher_decrypt (cipher_new k) b e = Ok m.
Proof.
  intros Hks Hs Hid Ho.
  destruct (ciphers_open ks b e s) as [r s'] eqn:E. simpl in Ho. subst r.
  unfold ciphers_open in E. rewrite Hid in E.
  apply M_bind_Ok in E as (id' & s0 & [= <- <-] & E).
  apply M_bind_Ok in E as (q & s1 & Hf & E).
  pose proof (for_id_triple ks id s Hks s (conj Hs eq_refl)) as Ht.
  rewrite Hf in Ht. destruct Ht as (_ & c & Hc & HK & _). simpl in Hc.
  exists (c_key c). split; [done|]. unfold on_cell in E. rewrite Hc in E.
  by injection E as E _.
Qed.

Lemma sealed_bytes_not_exhausted c nonce id b p i :
  sealed_bytes c nonce id b p ≠ Err (Core.KeyExhausted i).
Proof.
  unfold sealed_bytes, aad_with_row, aad_prefix.
  destruct (b_row b); simpl; repeat destruct (_ <=? _)%Z; simpl; try done.
  all: destruct (gcm_encrypt _ _ _ _); done.
Qed.

(** Within its budget the active cipher seals, and is charged one encryption. *)
Lemma ciphers_seal_within ks nonce b p s id q c :
  cs_active s = Some (id, q) → cs_cells s !! q = Some c → (c_used c < c_budget c)%Z →
  ciphers_seal ks nonce b p s =
  (sealed_bytes c nonce id b p,
   {| cs_budget := cs_budget s; cs_cells := <[q := charge c]> (cs_cells s);
      cs_active := cs_active s; cs_by_id := cs_by_id s |}).
Proof.
  intros Ha Hc Hu. unfold ciphers_seal, ciphers_active.
  erewrite M_bind_eval.
  2: { erewrite M_bind_eval by done. rewrite Ha. done. }
  unfold catch, on_cell. rewrite Hc. unfold cipher_encrypt.
  apply Z.leb_gt in Hu. rewrite Hu.
  pose proof (sealed_bytes_not_exhausted c nonce id b p).
  destruct (sealed_bytes c nonce id b p) as [e|err]; [done|].
  destruct err; try done. by edestruct H1.
Qed.

End cache.

(** ** Theorems of the cipher cache *)

Section cache_claims.
Context `{HexCrate, AeadCrate, !AeadLaws}.

(** Every operation of the cipher cache, successful or not, preserves its
    invariant: each cached pointer is live, and the cipher behind it holds the
    key its key id names and the cache's budget. *)
Theorem ciphers_invariant K ks nonce b p e s :
  source_ok K ks → ciphers_ok K s →
  ciphers_ok K (ciphers_seal ks nonce b p s).2 ∧ ciphers_ok K (ciphers_open ks b e s).2.
Proof.
  intros Hks Hs. split.
  - by apply (ciphers_seal_kept K ks nonce b p s Hks s).
  - by apply (ciphers_open_kept K ks b e s Hks s).
Qed.

Lemma written_strictness b b' id magic a :
  b_context b' = b_context b → b_row b' = b_row b → written b id magic a → written b' id magic a.
Proof. unfold written. by intros -> ->. Qed.

(** Opening ignores how strict the sealing side was. *)
Lemma ciphers_seal_open K ks ks' nonce b b' p s s' e s2 :
  source_ok K ks → source_ok K ks' → ciphers_ok K s → ciphers_ok K s2 →
  length nonce = NONCE_LEN → b_context b' = b_context b → b_row b' = b_row b →
  ciphers_seal ks nonce b p s = (Ok e, s') →
  is_ok (id ← key_id e; ks_key ks' id) = true →
  (ciphers_open ks' b' e s2).1 = Ok p ∧ is_enveloped e = true.
Proof.
  intros Hks Hks' Hs Hs2 Hn Hbc Hbr Hseal Hknown.
  destruct (ciphers_seal_Ok K _ _ _ _ _ _ _ Hks Hs Hseal) as (id & c & Hl & HK & He).
  destruct (sealed_bytes_enveloped _ _ _ _ _ _ Hl Hn He) as (Hen & Hid & _).
  rewrite Hid in Hknown. simpl in Hknown.
  destruct (ks_key ks' id) as [k|] eqn:Hk; [|done].
  rewrite (ciphers_open_eval K ks' b' e s2 id k) by done.
  apply (source_key _ _ Hks') in Hk. split; [|done].
  apply (sealed_bytes_opens c _ nonce id b'); [done..|simpl; congruence|].
  apply sealed_bytes_Ok in He as (magic & a & ct & Hw & He).
  apply sealed_bytes_Ok. exists magic, a, ct. split; [|done]. by apply (written_strictness b).
Qed.

(** C16: whatever [Ciphers::seal] returned, [Ciphers::open] gives back under the
    same binding, from any later state of the cache and of the key source, as
    long as that source still knows the key id the envelope names. *)
Theorem seal_open_roundtrip K ks ks' nonce b p s s' e s2 :
  source_ok K ks → source_ok K ks' → ciphers_ok K s → ciphers_ok K s2 →
  length nonce = NONCE_LEN →
  ciphers_seal ks nonce b p s = (Ok e, s') →
  is_ok (id ← key_id e; ks_key ks' id) = true →
  (ciphers_open ks' b e s2).1 = Ok p.
Proof.
  intros Hks Hks' Hs Hs2 Hn Hseal Hknown.
  by apply (ciphers_seal_open K ks ks' nonce b b p s s' e s2).
Qed.

(** C17: a ciphertext copied to another cell, or to another row of a row-bound
    column, does not open there: the associated data it was sealed under and the
    associated data the other place is opened under are different byte strings, so
    whoever makes it open has the AES-GCM of the sealing key open that very ciphertext
    under associated data it was not sealed under. *)
Theorem relocated_is_forgery K ks ks' nonce b b' p s s' e s2 m :
  source_ok K ks → source_ok K ks' → ciphers_ok K s → ciphers_ok K s2 →
  length nonce = NONCE_LEN → relocated b b' →
  ciphers_seal ks nonce b p s = (Ok e, s') →
  (ciphers_open ks' b' e s2).1 = Ok m →
  ∃ id k a a', key_id e = Ok id ∧ K id = Some k ∧
    sealing_aad b id = Ok a ∧ decrypt_aad b' e = Ok a' ∧
    aead_forgery k nonce p a (drop HEADER_LEN e) a' m.
Proof.
  intros Hks Hks' Hs Hs2 Hn Hr Hseal Hopen.
  destruct (ciphers_seal_Ok K _ _ _ _ _ _ _ Hks Hs Hseal) as (id & c & Hl & HK & He).
  destruct (sealed_bytes_enveloped _ _ _ _ _ _ Hl Hn He) as (_ & Hid & _).
  destruct (ciphers_open_Ok K _ _ _ _ _ _ Hks' Hs2 Hid Hopen) as (k & HK' & Hd).
  assert (k = c_key c) as -> by congruence.
  pose proof He as He'. apply sealed_bytes_Ok in He' as (magic & a & ct & Hw & _ & ->).
  pose proof (written_version _ _ _ _ Hw) as Hv.
  destruct (header_envelope magic id nonce ct) as (_ & _ & Hct);
    [by apply versions_length|done..|].
  destruct (opened_elsewhere c (cipher_new (c_key c)) nonce id b b' p magic m _ ct
    Hl Hn eq_refl He Hct Hv Hd) as (magic2 & a2 & a' & Hw2 & E2 & Ha' & Hf).
  exists id, (c_key c), a2, a'. rewrite Hct. split_and!; [done..|by eapply written_aad|done|]. apply Hf.
  assert (magic2 = magic) as ->.
  { apply app_inj_1 in E2 as [-> _]; [done|].
    by rewrite !versions_length by eauto using written_version. }
  by eapply written_relocated.
Qed.

(** Rewriting the version in an envelope's header to any other version
    downgrades nothing, in its own cell or in any other: the relabelled bytes
    open only for an AES-GCM forger. The column names must be non-empty, not
    begin with NUL and be under 16 MiB, as the names of a validated policy are. *)
Theorem relabelled_is_forgery K ks ks' nonce b b' p s s' e s2 magic' m :
  source_ok K ks → source_ok K ks' → ciphers_ok K s → ciphers_ok K s2 →
  length nonce = NONCE_LEN → context_wf (b_context b) → context_wf (b_context b') →
  magic' ∈ [MAGIC; MAGIC_V1; MAGIC_V3] → starts_with e magic' = false →
  ciphers_seal ks nonce b p s = (Ok e, s') →
  (ciphers_open ks' b' (magic' ++ drop 4 e) s2).1 = Ok m →
  ∃ id k a a', key_id e = Ok id ∧ K id = Some k ∧
    sealing_aad b id = Ok a ∧ decrypt_aad b' (magic' ++ drop 4 e) = Ok a' ∧
    aead_forgery k nonce p a (drop HEADER_LEN e) a' m.
Proof.
  intros Hks Hks' Hs Hs2 Hn Hcw Hcw' Hm' Hnot Hseal Hopen.
  destruct (ciphers_seal_Ok K _ _ _ _ _ _ _ Hks Hs Hseal) as (id & c & Hl & HK & He).
  destruct (sealed_bytes_enveloped _ _ _ _ _ _ Hl Hn He) as (_ & Hid & _).
  pose proof He as He'. apply sealed_bytes_Ok in He' as (magic & a & ct & Hw & Hs' & ->).
  pose proof (written_version _ _ _ _ Hw) as Hv. pose proof (gcm_length _ _ _ _ _ Hs').
  assert (magic' ++ drop 4 (envelope magic id nonce ct) = envelope magic' id nonce ct) as E.
  { unfold envelope. by rewrite <- (versions_length magic Hv), drop_app_length. }
  rewrite E in Hopen. unfold envelope in Hnot. rewrite starts_with_magic in Hnot by done.
  apply bool_decide_eq_false in Hnot.
  assert (key_id (envelope magic' id nonce ct) = Ok id) as Hid'.
  { unfold key_id. rewrite is_enveloped_envelope by (done || lia).
    destruct (header_envelope magic' id nonce ct) as (-> & _); [|done..].
    by apply versions_length. }
  destruct (ciphers_open_Ok K _ _ _ _ _ _ Hks' Hs2 Hid' Hopen) as (k & HK' & Hd).
  assert (k = c_key c) as -> by congruence.
  destruct (header_envelope magic id nonce ct) as (_ & _ & Hct);
    [by apply versions_length|done..|].
  destruct (opened_elsewhere c (cipher_new (c_key c)) nonce id b b' p magic' m _ ct
    Hl Hn eq_refl He Hct Hm' Hd) as (magic2 & a2 & a' & Hw2 & E2 & Ha' & Hf).
  exists id, (c_key c), a2, a'. rewrite Hct, E. split_and!; [done..|by eapply written_aad|done|]. apply Hf.
  assert (magic2 = magic) as ->.
  { apply app_inj_1 in E2 as [-> _]; [done|].
    by rewrite !versions_length by eauto using written_version. }
  by eapply (written_relabelled b b' id magic magic'); eauto.
Qed.

(** Once the migration window of a row-bound column is closed, only row-bound
    envelopes open there: a cell-only envelope that [seal] wrote for that very
    column is refused as a downgrade, and whatever does open is [DBS3]. *)
Theorem strict_refuses_downgrade c c' nonce id ctx row p e data m :
  length id = KEY_ID_LEN → length nonce = NONCE_LEN →
  sealed_bytes c nonce id (binding_cell ctx) p = Ok e →
  cipher_decrypt c' (binding_row_strict ctx row) e = Err Core.RowBindingDowngraded ∧
  cipher_decrypt c' (binding_row ctx row) e = cipher_decrypt c' (binding_cell ctx) e ∧
  (cipher_decrypt c' (binding_row_strict ctx row) data = Ok m →
   starts_with data MAGIC_V3 = true).
Proof.
  intros Hi Hn He.
  destruct (sealed_bytes_enveloped _ _ _ _ _ _ Hi Hn He) as (Hen & _).
  apply sealed_bytes_Ok in He as (magic & a & ct & [-> ->] & _ & ->).
  unfold cipher_decrypt. rewrite Hen, !decrypt_aad_envelope by set_solver.
  split; [done|]. split; [done|].
  destruct (is_enveloped data); [|done]. unfold decrypt_aad. simpl.
  destruct (starts_with data MAGIC_V1); [done|]. by destruct (starts_with data MAGIC_V3).
Qed.

(** A spent DEK is never used again: with the budget of the active key
    exhausted, [seal] fails closed with [KeyExhausted] when the key source offers
    the same key id, propagates the source's error, and otherwise seals under
    the fresh key it offers. *)
Theorem seal_exhausted_fails_closed ks nonce b p s id q c :
  cs_active s = Some (id, q) → cs_cells s !! q = Some c →
  (c_budget c ≤ c_used c)%Z → (0 < cs_budget s)%Z →
  (ciphers_seal ks nonce b p s).1 =
  match ks_active_key ks with
  | Err e => Err e
  | Ok (id', k') =>
      if bool_decide (id' = id) then Err (Core.KeyExhausted (hex_encode id))
      else sealed_bytes (with_budget k' (cs_budget s)) nonce id' b p
  end.
Proof.
  intros Ha Hc Hu Hb. unfold ciphers_seal, ciphers_active.
  erewrite M_bind_eval.
  2: { erewrite M_bind_eval by done. rewrite Ha. done. }
  unfold catch, on_cell at 1. rewrite Hc. unfold cipher_encrypt at 1.
  apply Z.leb_le in Hu. rewrite Hu. unfold roll_active.
  destruct (ks_active_key ks) as [[id' k']|e]; [|done].
  unfold mbind, M_bind, lift, runs. case_bool_decide; [done|].
  unfold roll_fill. cbn [cs_active]. rewrite Ha, bool_decide_eq_false_2 by auto.
  simpl. unfold on_cell. simpl. rewrite list_lookup_middle by done.
  unfold cipher_encrypt. simpl. destruct (Z.leb_spec (cs_budget s) 0); [lia|done].
Qed.

End cache_claims.

(** ** Witnesses *)

Module EnvelopeExample.
Export Toy.

Definition id1 : bytes := replicate 16 x01.
Definition id2 : bytes := replicate 16 x02.
Definition key1 : bytes := replicate 32 x07.
Definition key2 : bytes := replicate 32 x09.
Definition nonce1 : bytes := replicate 12 x03.

(** A keyring of two DEKs. *)
Definition ring (id : bytes) : option bytes :=
  if bool_decide (id = id1) then Some key1
  else if bool_decide (id = id2) then Some key2 else None.

Definition ring_source (active : bytes * bytes) : KeySource := {|
  ks_active_key := Ok active;
  ks_key id := ok_or (Core.UnknownKey (hex_encode id)) (ring id);
  ks_index_key _ := Ok (replicate 32 x0b);
|}.

Definition source1 : KeySource := ring_source (id1, key1).
Definition source2 : KeySource := ring_source (id2, key2).

Definition ssn : CellContext := {| cell_name := b#"public.users.ssn" |}.
Definition card : CellContext := {| cell_name := b#"public.users.card" |}.
Definition row42 : RowKey := {| row_key_bytes := b#"42" |}.

Definition fresh : Ciphers := ciphers_with_budget 2.

Lemma source1_ok : source_ok ring source1.
Proof.
  split.
  - by intros id k [= <- <-].
  - intros id k. simpl. apply ok_or_Ok.
Qed.

Lemma source2_ok : source_ok ring source2.
Proof.
  split.
  - by intros id k [= <- <-].
  - intros id k. simpl. apply ok_or_Ok.
Qed.

Lemma fresh_ok : ciphers_ok ring fresh.
Proof. apply ciphers_new_ok. Qed.

(** The value of a computation that succeeds, for use as a concrete input. *)
Definition value {A} (d : A) (r : result Core.Error A) : A :=
  match r with Ok a => a | Err _ => d end.

Lemma ciphers_invariant_witness :
  ciphers_ok ring (ciphers_seal source1 nonce1 (binding_cell ssn) b#"hi" fresh).2.
Proof.
  apply (ciphers_invariant ring source1 nonce1 (binding_cell ssn) b#"hi" [] fresh
    source1_ok fresh_ok).
Defined.

Lemma seal_open_roundtrip_witness :
  let b := binding_row ssn row42 in
  let r := ciphers_seal source1 nonce1 b b#"078-05-1120" fresh in
  (ciphers_open source2 b (value [] r.1) fresh).1 = Ok b#"078-05-1120".
Proof.
  eapply (seal_open_roundtrip ring source1 source2 nonce1 (binding_row ssn row42) _ fresh _ _
    fresh source1_ok source2_ok fresh_ok fresh_ok eq_refl);
    vm_compute; reflexivity.
Defined.

Lemma relocated_is_forgery_witness :
  let e := value [] (@ciphers_seal hex aad_blind source1 nonce1 (binding_cell ssn) b#"hi" fresh).1 in
  ∃ id k a a', key_id e = Ok id ∧ ring id = Some k ∧
    sealing_aad (binding_cell ssn) id = Ok a ∧ decrypt_aad (binding_cell card) e = Ok a' ∧
    @aead_forgery aad_blind k nonce1 b#"hi" a (drop HEADER_LEN e) a' b#"hi".
Proof.
  eapply (@relocated_is_forgery hex aad_blind aad_blind_laws ring source1 source1 nonce1
    (binding_cell ssn) (binding_cell card) b#"hi" fresh _ _ fresh b#"hi"
    source1_ok source1_ok fresh_ok fresh_ok eq_refl).
  - left. vm_compute. discriminate.
  - vm_compute. reflexivity.
  - vm_compute. reflexivity.
Defined.

Lemma relabelled_is_forgery_witness :
  let e := value [] (@ciphers_seal hex aad_blind source1 nonce1 (binding_cell ssn) b#"hi" fresh).1 in
  ∃ id k a a', key_id e = Ok id ∧ ring id = Some k ∧
    sealing_aad (binding_cell ssn) id = Ok a ∧
    decrypt_aad (binding_cell card) (MAGIC_V1 ++ drop 4 e) = Ok a' ∧
    @aead_forgery aad_blind k nonce1 b#"hi" a (drop HEADER_LEN e) a' b#"hi".
Proof.
  eapply (@relabelled_is_forgery hex aad_blind aad_blind_laws ring source1 source1 nonce1
    (binding_cell ssn) (binding_cell card) b#"hi" fresh _ _ fresh MAGIC_V1 b#"hi"
    source1_ok source1_ok fresh_ok fresh_ok eq_refl).
  - split_and!; [discriminate|discriminate|reflexivity].
  - split_and!; [discriminate|discriminate|reflexivity].
  - set_solver.
  - vm_compute. reflexivity.
  - vm_compute. reflexivity.
  - vm_compute. reflexivity.
Defined.

Lemma strict_refuses_downgrade_witness :
  let c := cipher_new key1 in
  let e := value [] (sealed_bytes c nonce1 id1 (binding_cell ssn) b#"hi") in
  cipher_decrypt c (binding_row_strict ssn row42) e = Err Core.RowBindingDowngraded.
Proof.
  eapply (strict_refuses_downgrade (cipher_new key1) (cipher_new key1) nonce1 id1 ssn row42
    b#"hi" _ [] [] eq_refl eq_refl).
  vm_compute. reflexivity.
Defined.

(** Two values seal under the first key; the third is refused by a source that
    still offers it, and seals under the second key otherwise. *)
Definition spent : Ciphers :=
  (ciphers_seal source1 nonce1 (binding_cell ssn) b#"b"
    (ciphers_seal source1 nonce1 (binding_cell ssn) b#"a" fresh).2).2.

Lemma seal_exhausted_witness :
  (ciphers_seal source1 nonce1 (binding_cell ssn) b#"c" spent).1
    = Err (Core.KeyExhausted (hex_encode id1)) ∧
  (ciphers_seal source2 nonce1 (binding_cell ssn) b#"c" spent).1
    = sealed_bytes (with_budget key2 2) nonce1 id2 (binding_cell ssn) b#"c".
Proof.
  split.
  - eapply (seal_exhausted_fails_closed source1 nonce1 (binding_cell ssn) b#"c" spent id1 0
      {| c_key := key1; c_used := 2; c_budget := 2 |}); vm_compute; try reflexivity; discriminate.
  - eapply (seal_exhausted_fails_closed source2 nonce1 (binding_cell ssn) b#"c" spent id1 0
      {| c_key := key1; c_used := 2; c_budget := 2 |}); vm_compute; try reflexivity; discriminate.
Defined.

End EnvelopeExample.
