(* ===== verification/Budget.v ===== *)
(** * Sealing from many sessions at once ([crates/core/src/envelope.rs])

    [Ciphers] is one object per process, shared by every session: its slot and
    its map are behind locks, the counter of each cipher is atomic. The steps of
    [Ciphers::seal] between which another session may run are those of
    [thread_step]; a run interleaves the steps of any number of sealing sessions
    with decryptions and with rotations of the key source. *)

From S2P Require Import Prelude Crates Pgwire Errors Envelope.

(** One call of [seal] in progress. *)
Record Job := { j_nonce : bytes; j_binding : Binding; j_plaintext : bytes }.

Inductive Pc :=
  | Start
  | AskActive
  | FillActive (id key : bytes)
  | ChargeFirst (id : bytes) (p : nat)
  | AskRoll (spent : bytes)
  | FillRoll (spent id key : bytes)
  | ChargeSecond (id : bytes) (p : nat)
  | Done (r : result Core.Error bytes).

(** A [fetch_add]: the key id it was made for, the [Cipher] object whose counter it
    moved, and whether the encryption went on to draw a nonce. *)
Record Event := { e_id : bytes; e_cell : nat; e_drew : bool }.

#[global] Instance Event_eq_dec : EqDecision Event.
Proof. solve_decision. Defined.

Definition event (id : bytes) (p : nat) (drew : bool) : Event := {| e_id := id; e_cell := p; e_drew := drew |}.

Section steps.
Context `{HexCrate, AeadCrate}.

Definition thread_step (ks : KeySource) (job : Job) (pc : Pc) (s : Ciphers)
    : Pc * Ciphers * list Event :=
  let seal_with id := cipher_encrypt (j_nonce job) id (j_binding job) (j_plaintext job) in
  match pc with
  | Start =>
      (match cs_active s with Some (id, p) => ChargeFirst id p | None => AskActive end, s, [])
  | AskActive =>
      (match ks_active_key ks with
       | Ok (id, key) => FillActive id key
       | Err e => Done (Err e)
       end, s, [])
  | FillActive id key =>
      let '((id, p), s) := active_fill id key s in (ChargeFirst id p, s, [])
  | ChargeFirst id p =>
      let '(r, s) := on_cell p (seal_with id) s in
      match r with
      | Err (Core.KeyExhausted _) => (AskRoll id, s, [event id p false])
      | r => (Done r, s, [event id p true])
      end
  | AskRoll spent =>
      (match ks_active_key ks with
       | Ok (id, key) =>
           if bool_decide (id = spent) then Done (Err (Core.KeyExhausted (hex_encode spent)))
           else FillRoll spent id key
       | Err e => Done (Err e)
       end, s, [])
  | FillRoll spent id key =>
      let '((id, p), s) := roll_fill spent id key s in (ChargeSecond id p, s, [])
  | ChargeSecond id p =>
      let '(r, s) := on_cell p (seal_with id) s in
      match r with
      | Err (Core.KeyExhausted _) => (Done r, s, [event id p false])
      | r => (Done r, s, [event id p true])
      end
  | Done r => (Done r, s, [])
  end.

(** The key source is a history of sources, of which [w_gen] is the present. *)
Record World := {
  w_gen : nat;
  w_cache : Ciphers;
  w_threads : list (Job * Pc);
  w_trace : list Event;
}.

Context (src : nat → KeySource).

Inductive wstep : World → World → Prop :=
  | step_thread w t job pc pc' s' evs :
      w_threads w !! t = Some (job, pc) →
      thread_step (src (w_gen w)) job pc (w_cache w) = (pc', s', evs) →
      wstep w {| w_gen := w_gen w; w_cache := s';
                 w_threads := <[t := (job, pc')]> (w_threads w);
                 w_trace := w_trace w ++ evs |}
  | step_spawn w job :
      wstep w {| w_gen := w_gen w; w_cache := w_cache w;
                 w_threads := w_threads w ++ [(job, Start)]; w_trace := w_trace w |}
  | step_open w id key :
      wstep w {| w_gen := w_gen w; w_cache := (for_id_fill id key (w_cache w)).2;
                 w_threads := w_threads w; w_trace := w_trace w |}
  | step_rotate w gen :
      w_gen w ≤ gen →
      wstep w {| w_gen := gen; w_cache := w_cache w;
                 w_threads := w_threads w; w_trace := w_trace w |}.

Definition initial (budget : Z) : World :=
  {| w_gen := 0; w_cache := ciphers_with_budget budget; w_threads := []; w_trace := [] |}.

End steps.

(** Counter increments and nonce draws of one cipher object, and the nonces drawn
    under one key id. *)
Definition charges_at (p : nat) (tr : list Event) : nat := length (filter (λ e, e_cell e = p) tr).
Definition draws_at (p : nat) (tr : list Event) : nat :=
  length (filter (λ e, e_cell e = p ∧ e_drew e = true) tr).
Definition draws (id : bytes) (tr : list Event) : nat :=
  length (filter (λ e, e_id e = id ∧ e_drew e = true) tr).

Lemma charges_at_snoc p tr e :
  charges_at p (tr ++ [e]) = charges_at p tr + if decide (e_cell e = p) then 1 else 0.
Proof.
  unfold charges_at. rewrite filter_app, length_app, filter_cons, filter_nil. by destruct (decide _).
Qed.
Lemma draws_at_snoc p tr e :
  draws_at p (tr ++ [e]) = draws_at p tr + if decide (e_cell e = p) then if e_drew e then 1 else 0 else 0.
Proof.
  unfold draws_at. rewrite filter_app, length_app, filter_cons, filter_nil.
  destruct (decide (_ ∧ _)) as [[Hc Hd]|Hn]; [by rewrite decide_True, Hd|].
  destruct (decide (e_cell e = p)); [|done]. destruct (e_drew e); [naive_solver|done].
Qed.

Lemma draws_at_charges p tr : draws_at p tr ≤ charges_at p tr.
Proof.
  induction tr as [|e tr IH] using rev_ind; [done|]. rewrite draws_at_snoc, charges_at_snoc.
  destruct (decide (e_cell e = p)), (e_drew e); lia.
Qed.

Lemma charges_at_length p tr : charges_at p tr ≤ length tr.
Proof. apply length_filter. Qed.

(** ** The steps of one thread are [Ciphers::seal] *)

Section solo.
Context `{HexCrate, AeadCrate}.

Fixpoint solo (n : nat) (ks : KeySource) (job : Job) (pc : Pc) (s : Ciphers) : Pc * Ciphers :=
  match n with
  | O => (pc, s)
  | S n => let '(pc, s, _) := thread_step ks job pc s in solo n ks job pc s
  end.

Lemma solo_done n ks job r s : solo n ks job (Done r) s = (Done r, s).
Proof. by induction n. Qed.

Definition as_done (x : result Core.Error bytes * Ciphers) : Pc * Ciphers := (Done x.1, x.2).

Lemma solo_second n ks job id p s :
  solo (S n) ks job (ChargeSecond id p) s =
  as_done (on_cell p (cipher_encrypt (j_nonce job) id (j_binding job) (j_plaintext job)) s).
Proof.
  simpl. destruct (on_cell _ _ s) as [r s'].
  destruct r as [|[]]; apply solo_done.
Qed.

Lemma solo_roll n ks job spent s :
  solo (S (S (S n))) ks job (AskRoll spent) s =
  as_done (('(id, p) ← roll_active ks spent;
    on_cell p (cipher_encrypt (j_nonce job) id (j_binding job) (j_plaintext job))) s).
Proof.
  unfold roll_active, mbind, M_bind, lift, runs.
  cbn [solo thread_step]. destruct (ks_active_key ks) as [[id key]|e].
  - case_bool_decide; [apply (solo_done (S (S n)))|]. cbn [solo thread_step].
    destruct (roll_fill spent id key s) as [[id' p'] s']. apply (solo_second n).
  - apply (solo_done (S (S n))).
Qed.

Lemma solo_first n ks job id p s :
  solo (S (S (S (S n)))) ks job (ChargeFirst id p) s =
  as_done (catch (on_cell p (cipher_encrypt (j_nonce job) id (j_binding job) (j_plaintext job)))
    (λ e, match e with
          | Core.KeyExhausted _ => Some ('(id, p) ← roll_active ks id;
              on_cell p (cipher_encrypt (j_nonce job) id (j_binding job) (j_plaintext job)))
          | _ => None
          end) s).
Proof.
  unfold catch. remember (S (S (S n))) as m. simpl.
  destruct (on_cell _ _ s) as [r s'] eqn:E.
  destruct r as [e|err]; [apply solo_done|].
  destruct err; try apply solo_done. subst m. apply solo_roll.
Qed.

(** A session that runs alone takes at most seven steps to compute exactly
    what the sequential [Ciphers::seal] returns, and leaves the cache in the
    same state: the interleaved steps refine the function. *)
Theorem solo_is_seal ks job s :
  solo 7 ks job Start s =
  as_done (ciphers_seal ks (j_nonce job) (j_binding job) (j_plaintext job) s).
Proof.
  unfold ciphers_seal. unfold mbind at 1, M_bind at 1.
  assert (ciphers_active ks s =
    match cs_active s with
    | Some a => (Ok a, s)
    | None => match ks_active_key ks with
              | Ok (id, key) => let '(a, s) := active_fill id key s in (Ok a, s)
              | Err e => (Err e, s)
              end
    end) as ->.
  { unfold ciphers_active, mbind, M_bind, gets, lift, runs.
    destruct (cs_active s); [done|]. by destruct (ks_active_key ks) as [[]|]. }
  cbn [solo thread_step]. destruct (cs_active s) as [[id p]|]; [apply (solo_first 2)|].
  cbn [solo thread_step]. destruct (ks_active_key ks) as [[id key]|e]; [|done].
  cbn [solo thread_step]. destruct (active_fill id key s) as [[id' p'] s'].
  apply (solo_first 0).
Qed.

End solo.

(** ** Every DEK's budget holds under any interleaving *)

(** Once the source has moved on from a key id it does not offer that id again.
    The trait does not ask this of a source. The two sources of the program keep one
    active key for as long as they live and have it; a source of an application's own
    that returns to an earlier key does not. *)
Definition no_return (src : nat → KeySource) : Prop :=
  ∀ g1 g2 g3 id id' k1 k2 k3, g1 ≤ g2 → g2 ≤ g3 →
    ks_active_key (src g1) = Ok (id, k1) → ks_active_key (src g2) = Ok (id', k2) →
    ks_active_key (src g3) = Ok (id, k3) → id' = id.

Definition offered (src : nat → KeySource) (g : nat) (id : bytes) : Prop :=
  ∃ k, ks_active_key (src g) = Ok (id, k).

Lemma last_elem {A} (l : list A) x : last l = Some x → x ∈ l.
Proof. rewrite last_lookup. apply list_elem_of_lookup_2. Qed.

(** *** Every cipher object *)

(** A cipher has been charged once per event of its cell, and let through as many as
    its budget allows; a cell that does not exist yet has no events. *)
Record cells_inv (s : Ciphers) (tr : list Event) : Prop := {
  ci_cell p c : cs_cells s !! p = Some c → c_budget c = cs_budget s ∧
    ((Z.of_nat (length tr) < 2 ^ 64)%Z →
     c_used c = Z.of_nat (charges_at p tr) ∧
     Z.of_nat (draws_at p tr) = Z.min (c_used c) (c_budget c));
  ci_new p : length (cs_cells s) ≤ p → charges_at p tr = 0;
  ci_slot id p : cs_active s = Some (id, p) → p < length (cs_cells s);
  ci_budget : (0 ≤ cs_budget s)%Z;
}.

(** The cipher a thread is about to charge exists. *)
Definition pc_cell (s : Ciphers) (pc : Pc) : Prop :=
  match pc with ChargeFirst _ p | ChargeSecond _ p => p < length (cs_cells s) | _ => True end.

Lemma alloc_cells key s s' tr :
  cells_inv s tr → cs_budget s' = cs_budget s →
  cs_cells s' = cs_cells s ++ [with_budget key (cs_budget s)] →
  (∀ id p, cs_active s' = Some (id, p) → p = length (cs_cells s) ∨ cs_active s = Some (id, p)) →
  cells_inv s' tr.
Proof.
  intros [Hc Hn Hs Hb] Eb Ec Ha. split; rewrite ?Eb, ?Ec, ?length_app; cbn [length].
  - intros p c [Hp|[Hp E]]%lookup_app_Some; [by apply Hc|].
    apply list_lookup_singleton_Some in E as [E <-].
    split; [done|]. intros _. assert (p = length (cs_cells s)) as -> by lia. cbn.
    rewrite Hn by done. pose proof (draws_at_charges (length (cs_cells s)) tr) as Hd. rewrite Hn in Hd by done. lia.
  - intros p Hp. apply Hn. lia.
  - intros i p [-> |Hp%Hs]%Ha; lia.
  - done.
Qed.

(** One [fetch_add] with its outcome. *)
Lemma attempt_cells `{HexCrate, AeadCrate} s tr id p job r s' :
  cells_inv s tr → p < length (cs_cells s) →
  on_cell p (cipher_encrypt (j_nonce job) id (j_binding job) (j_plaintext job)) s = (r, s') →
  cells_inv s' (tr ++ [event id p match r with Err (Core.KeyExhausted _) => false | _ => true end]) ∧
  length (cs_cells s') = length (cs_cells s).
Proof.
  intros [Hc Hn Hs Hb] [c Hp]%lookup_lt_is_Some. unfold on_cell. rewrite Hp.
  assert (match (cipher_encrypt (j_nonce job) id (j_binding job) (j_plaintext job) c).1 with
          | Err (Core.KeyExhausted _) => false | _ => true end = negb (c_budget c <=? c_used c)%Z ∧
    (cipher_encrypt (j_nonce job) id (j_binding job) (j_plaintext job) c).2 = charge c) as [Hdrew Hch].
  { unfold cipher_encrypt. destruct (c_budget c <=? c_used c)%Z; [done|]. split; [|done]. cbn.
    pose proof (sealed_bytes_not_exhausted c (j_nonce job) id (j_binding job) (j_plaintext job)) as Hx.
    destruct (sealed_bytes _ _ _ _ _) as [|[]]; try done. by edestruct Hx. }
  destruct (cipher_encrypt _ _ _ _ c) as [r' c']. cbn in Hdrew, Hch. subst c'. intros [= <- <-].
  cbn. rewrite length_insert, Hdrew. split; [|done]. split; cbn.
  - intros q c'. rewrite length_app, charges_at_snoc, draws_at_snoc. cbn. intros Hq.
    destruct (decide (p = q)) as [<-|Hne].
    + rewrite list_lookup_insert_eq in Hq by (by eapply lookup_lt_Some). injection Hq as <-.
      destruct (Hc p c Hp) as [Hbud Hcnt]. split; [done|]. intros Hlen. destruct Hcnt as [Hu Hd]; [lia|].
      pose proof (charges_at_length p tr). cbn. rewrite Z.mod_small by lia.
      destruct (Z.leb_spec (c_budget c) (c_used c)); cbn; lia.
    + rewrite list_lookup_insert_ne in Hq by done. destruct (Hc q c' Hq) as [Hbud Hcnt].
      split; [done|]. intros Hlen. destruct Hcnt as [Hu Hd]; [lia|]. lia.
  - intros q. rewrite length_insert, charges_at_snoc. cbn. intros Hq. rewrite Hn by done.
    rewrite decide_False; [done|]. intros <-. apply lookup_lt_Some in Hp. lia.
  - intros i q Hq. rewrite length_insert. by eapply Hs.
  - done.
Qed.

Lemma thread_step_cells `{HexCrate, AeadCrate} ks s tr job pc pc' s' evs :
  cells_inv s tr → pc_cell s pc → thread_step ks job pc s = (pc', s', evs) →
  cells_inv s' (tr ++ evs) ∧ pc_cell s' pc' ∧ length (cs_cells s) ≤ length (cs_cells s').
Proof.
  intros Hi Hpc. pose proof (ci_slot _ _ Hi) as Hslot.
  destruct pc as [| |id key|id p|spent|spent id key|id p|r]; cbn [thread_step].
  - intros [= <- <- <-]. rewrite app_nil_r. split_and!; [done| |done].
    destruct (cs_active s) as [[id p]|]; [by eapply Hslot|done].
  - intros [= <- <- <-]. rewrite app_nil_r. split_and!; [done| |done].
    by destruct (ks_active_key ks) as [[id key]|].
  - unfold active_fill. destruct (cs_active s) as [[i p]|]; cbn; intros [= <- <- <-]; rewrite app_nil_r.
    + split_and!; [done|by eapply Hslot|done].
    + split_and!; [eapply (alloc_cells key); [done..|intros ?? [= _ <-]; by left]|cbn; rewrite length_app; cbn; lia..].
  - destruct (on_cell p _ s) as [r s2] eqn:Ho. apply (attempt_cells s tr) in Ho as [Hi2 Hl]; [|done..].
    destruct r as [e|[]]; intros [= <- <- <-]; rewrite Hl; done.
  - intros [= <- <- <-]. rewrite app_nil_r. split_and!; [done| |done].
    destruct (ks_active_key ks) as [[id key]|]; [|done]. by case_bool_decide.
  - unfold roll_fill. destruct (cs_active s) as [[i p]|]; [case_bool_decide|]; cbn; intros [= <- <- <-];
      rewrite app_nil_r.
    + split_and!; [done|by eapply Hslot|done].
    + split_and!; [eapply (alloc_cells key); [done..|intros ?? [= _ <-]; by left]|cbn; rewrite length_app; cbn; lia..].
    + split_and!; [eapply (alloc_cells key); [done..|intros ?? [= _ <-]; by left]|cbn; rewrite length_app; cbn; lia..].
  - destruct (on_cell p _ s) as [r s2] eqn:Ho. apply (attempt_cells s tr) in Ho as [Hi2 Hl]; [|done..].
    destruct r as [e|[]]; intros [= <- <- <-]; rewrite Hl; done.
  - intros [= <- <- <-]. rewrite app_nil_r. done.
Qed.

Lemma pc_cell_mono s s' pc : length (cs_cells s) ≤ length (cs_cells s') → pc_cell s pc → pc_cell s' pc.
Proof. destruct pc; cbn; try done; lia. Qed.

Definition world_cells (w : World) : Prop :=
  cells_inv (w_cache w) (w_trace w) ∧ Forall (λ '(_, pc), pc_cell (w_cache w) pc) (w_threads w).

Lemma wstep_cells `{HexCrate, AeadCrate} src w w' : world_cells w → wstep src w w' → world_cells w'.
Proof.
  intros [Hi Ht] Hw. destruct Hw as [w t job pc pc' s' evs Hl Hs|w job|w id key|w gen Hg]; [| | |done].
  - pose proof Ht as Ht'. eapply Forall_lookup_1 in Ht'; [|done]. cbn in Ht'.
    destruct (thread_step_cells _ _ _ _ _ _ _ _ Hi Ht' Hs) as (Hi' & Hpc & Hle).
    split; [done|]. cbn. apply Forall_insert; [|done]. eapply Forall_impl; [done|].
    intros [? ?]. by apply pc_cell_mono.
  - split; [done|]. cbn. apply Forall_app. split; [done|]. by repeat constructor.
  - unfold world_cells. cbn. unfold for_id_fill. destruct (cs_by_id (w_cache w) !! id); [done|]. cbn. split.
    + eapply (alloc_cells key); [exact Hi|done|done|]. by right.
    + eapply Forall_impl; [done|]. intros [? ?]. apply pc_cell_mono. cbn. rewrite length_app. lia.
Qed.

Lemma wstep_budget `{HexCrate, AeadCrate} src w w' :
  wstep src w w' → cs_budget (w_cache w') = cs_budget (w_cache w).
Proof.
  intros []; simpl; try done.
  - destruct pc; simpl in *; simplify_eq; try done.
    all: unfold active_fill, roll_fill, on_cell in *.
    all: repeat (case_match; simplify_eq/=); try done.
  - unfold for_id_fill. by destruct (cs_by_id _ !! id).
Qed.

Lemma reachable_cells `{HexCrate, AeadCrate} src budget w :
  (0 ≤ budget)%Z → rtc (wstep src) (initial budget) w →
  world_cells w ∧ cs_budget (w_cache w) = budget.
Proof.
  intros Hb Hr.
  assert (world_cells (initial budget)) as Hi0.
  { split; [|constructor]. by split. }
  assert (cs_budget (w_cache (initial budget)) = budget) as Hb0 by done.
  revert Hi0 Hb0. induction Hr as [w|w1 w2 w3 Hw Hr IH]; [done|].
  intros Hi H1. apply IH; [by eapply wstep_cells|]. rewrite <- H1. by eapply wstep_budget.
Qed.

(** *** One cipher object a key id, for a source that does not return *)

(** One key the active slot has held: its id, its cipher, and the generation of
    the source it was fetched from. *)
Record Held := { h_id : bytes; h_ptr : nat; h_gen : nat }.

Record slot_inv (src : nat → KeySource) (gen : nat) (s : Ciphers) (tr : list Event)
    (hist : list Held) : Prop := {
  inv_slot : cs_active s = (λ h, (h_id h, h_ptr h)) <$> last hist;
  inv_ids : NoDup (h_id <$> hist);
  inv_gen h : h ∈ hist → h_gen h ≤ gen ∧ offered src (h_gen h) (h_id h);
  inv_last h l : h ∈ hist → last hist = Some l → h_gen h ≤ h_gen l;
  inv_events e : e ∈ tr → ∃ h, h ∈ hist ∧ h_id h = e_id e ∧ h_ptr h = e_cell e;
}.

(** What a thread may rely on between two of its steps. *)
Definition pc_inv (src : nat → KeySource) (gen : nat) (hist : list Held) (pc : Pc) : Prop :=
  match pc with
  | Start | AskActive | Done _ => True
  | FillActive id key => ∃ g, g ≤ gen ∧ offered src g id
  | ChargeFirst id p | ChargeSecond id p => ∃ h, h ∈ hist ∧ h_id h = id ∧ h_ptr h = p
  | AskRoll spent => ∃ h, h ∈ hist ∧ h_id h = spent
  | FillRoll spent id key =>
      id ≠ spent ∧
      ∃ h g, h ∈ hist ∧ h_id h = spent ∧ h_gen h ≤ g ∧ g ≤ gen ∧ offered src g id
  end.

Lemma pc_inv_mono src gen gen' hist hist' pc :
  gen ≤ gen' → hist ⊆ hist' → pc_inv src gen hist pc → pc_inv src gen' hist' pc.
Proof.
  intros Hg Hh. destruct pc; simpl; try done.
  - intros (g & ? & ?). exists g. split; [lia|done].
  - intros (h & ? & ?). exists h. set_solver.
  - intros (h & ? & ?). exists h. set_solver.
  - intros (? & h & g & ? & ? & ? & ? & ?). split; [done|].
    exists h, g. split_and!; [set_solver|done|done|lia|done].
  - intros (h & ? & ?). exists h. set_solver.
Qed.

Section interleaving.
Context (src : nat → KeySource) (Hsrc : no_return src).

(** A key that is fetched enters the slot. *)
Lemma push_inv gen s tr hist id key g :
  slot_inv src gen s tr hist → g ≤ gen → offered src g id → id ∉ h_id <$> hist →
  (∀ l, last hist = Some l → h_gen l ≤ g) →
  let p := (alloc key s).1 in
  slot_inv src gen (set_active (id, p) (alloc key s).2) tr
    (hist ++ [{| h_id := id; h_ptr := p; h_gen := g |}]).
Proof.
  intros [Hslot Hids Hgen Hlast Hev] Hg Hoff Hnew Hle p. split; simpl.
  - by rewrite last_snoc.
  - rewrite fmap_app. apply NoDup_app. split_and!; [done| |apply NoDup_singleton].
    intros i Hi ->%list_elem_of_singleton. done.
  - intros h [Hh| ->%list_elem_of_singleton]%elem_of_app; [by apply Hgen|done].
  - intros h l Hh. rewrite last_snoc. intros [= <-]. simpl.
    apply elem_of_app in Hh as [Hh| ->%list_elem_of_singleton]; [|done].
    destruct (last hist) as [l|] eqn:El.
    + etrans; [by eapply Hlast|by apply Hle].
    + apply last_None in El. subst. by apply elem_of_nil in Hh.
  - intros e (h & Hh & ? & ?)%Hev. exists h. split_and!; [set_solver|done..].
Qed.

(** The key in the slot is one that was held. *)
Lemma slot_held gen s tr hist id p :
  slot_inv src gen s tr hist → cs_active s = Some (id, p) →
  ∃ h, last hist = Some h ∧ h ∈ hist ∧ h_id h = id ∧ h_ptr h = p.
Proof.
  intros Hi Ha. rewrite (inv_slot _ _ _ _ _ Hi) in Ha.
  apply fmap_Some in Ha as (h & Hl & [= -> ->]).
  exists h. split_and!; [done|by apply last_elem|done..].
Qed.

Lemma active_fill_inv gen s tr hist id key id' p' s' :
  slot_inv src gen s tr hist → pc_inv src gen hist (FillActive id key) →
  active_fill id key s = ((id', p'), s') →
  ∃ hist', hist ⊆ hist' ∧ slot_inv src gen s' tr hist' ∧
    pc_inv src gen hist' (ChargeFirst id' p').
Proof.
  intros Hi (g & Hg & Hoff). unfold active_fill.
  destruct (cs_active s) as [[i q]|] eqn:Ha.
  - intros [= <- <- <-]. exists hist. split; [done|]. split; [done|].
    destruct (slot_held _ _ _ _ _ _ Hi Ha) as (h & _ & ?). by exists h.
  - intros [= <- <- <-]. pose proof (inv_slot _ _ _ _ _ Hi) as Hs. rewrite Ha in Hs.
    symmetry in Hs. apply fmap_None, last_None in Hs. subst hist.
    eexists. split; [|split; [apply (push_inv gen s tr [] id key g)|]]; try done.
    + set_solver.
    + apply not_elem_of_nil.
    + eexists. split; [by left|done].
Qed.

Lemma roll_fill_inv gen s tr hist spent id key id' p' s' :
  slot_inv src gen s tr hist → pc_inv src gen hist (FillRoll spent id key) →
  roll_fill spent id key s = ((id', p'), s') →
  ∃ hist', hist ⊆ hist' ∧ slot_inv src gen s' tr hist' ∧
    pc_inv src gen hist' (ChargeSecond id' p').
Proof.
  intros Hi (Hne & hs & g & Hhs & Hspent & Hgs & Hg & Hoff). unfold roll_fill.
  destruct (cs_active s) as [[i q]|] eqn:Ha.
  2: { exfalso. pose proof (inv_slot _ _ _ _ _ Hi) as Hs. rewrite Ha in Hs.
       symmetry in Hs. apply fmap_None, last_None in Hs. subst. by apply elem_of_nil in Hhs. }
  destruct (slot_held _ _ _ _ _ _ Hi Ha) as (h & Hl & Hh & Hid & Hp).
  case_bool_decide as Hsp.
  - intros [= <- <- <-]. exists hist. split; [done|]. split; [done|]. by exists h.
  - intros [= <- <- <-]. rewrite Hsp in Hid. clear Hsp.
    assert (h = hs) as ->.
    { apply (NoDup_fmap_unique h_id hist); [by apply (inv_ids _ _ _ _ _ Hi)|done..|congruence]. }
    eexists. split; [|split; [apply (push_inv gen s tr hist id key g)|]]; try done.
    + set_solver.
    + intros (h' & Eh' & Hh')%list_elem_of_fmap.
      destruct (inv_gen _ _ _ _ _ Hi h' Hh') as [_ [k1 O1]].
      destruct (inv_gen _ _ _ _ _ Hi hs Hhs) as [_ [k2 O2]].
      destruct Hoff as [k3 O3]. rewrite <- Eh' in O1. apply Hne.
      rewrite <- Hspent. symmetry.
      eapply (Hsrc (h_gen h') (h_gen hs) g); [|done..].
      by eapply (inv_last _ _ _ _ _ Hi).
    + intros l Hl'. rewrite Hl in Hl'. by injection Hl' as <-.
    + eexists. split; [apply elem_of_app; right; by left|done].
Qed.

(** Charging the cipher of a held key. *)
Lemma charge_inv `{HexCrate, AeadCrate} gen s tr hist h job r s' drew :
  slot_inv src gen s tr hist → h ∈ hist →
  on_cell (h_ptr h) (cipher_encrypt (j_nonce job) (h_id h) (j_binding job) (j_plaintext job)) s = (r, s') →
  slot_inv src gen s' (tr ++ [event (h_id h) (h_ptr h) drew]) hist.
Proof.
  intros [Hslot Hids Hgen Hlast Hev] Hh Ho.
  assert (cs_active s' = cs_active s) as Ha.
  { unfold on_cell in Ho. destruct (cs_cells s !! h_ptr h) as [c|]; [|by injection Ho as _ <-].
    destruct (cipher_encrypt _ _ _ _ c) as [r' c']. by injection Ho as _ <-. }
  split; try done; [by rewrite Ha|]. intros e [He| ->%list_elem_of_singleton]%elem_of_app; [by apply Hev|].
  by exists h.
Qed.

Context `{HexCrate, AeadCrate}.

Lemma thread_step_inv gen s tr hist job pc pc' s' evs :
  slot_inv src gen s tr hist → pc_inv src gen hist pc →
  thread_step (src gen) job pc s = (pc', s', evs) →
  ∃ hist', hist ⊆ hist' ∧ slot_inv src gen s' (tr ++ evs) hist' ∧ pc_inv src gen hist' pc'.
Proof.
  intros Hi Hpc.
  destruct pc as [| |id key|id p|spent|spent id key|id p|r]; cbn [thread_step].
  - intros [= <- <- <-]. exists hist. rewrite app_nil_r. split_and!; [done..|].
    destruct (cs_active s) as [[id p]|] eqn:Ha; [|done].
    destruct (slot_held _ _ _ _ _ _ Hi Ha) as (h & _ & ?). by exists h.
  - intros [= <- <- <-]. exists hist. rewrite app_nil_r. split_and!; [done..|].
    destruct (ks_active_key (src gen)) as [[id key]|] eqn:Ha; [|done].
    exists gen. split; [done|]. by exists key.
  - destruct (active_fill id key s) as [[id' p'] s2] eqn:Hf. intros [= <- <- <-].
    rewrite app_nil_r. by eapply active_fill_inv.
  - destruct Hpc as (h & Hh & <- & <-).
    destruct (on_cell _ _ s) as [r s2] eqn:Ho.
    pose proof (λ drew, charge_inv _ _ _ _ _ _ _ _ drew Hi Hh Ho) as Hi2.
    intros Hs. exists hist. split; [done|].
    destruct r as [e|[]]; injection Hs as <- <- <-; (split; [done|]); simpl; try done.
    by exists h.
  - intros [= <- <- <-]. exists hist. rewrite app_nil_r. split_and!; [done..|].
    destruct Hpc as (h & Hh & <-).
    destruct (ks_active_key (src gen)) as [[id key]|] eqn:Ha; [|done].
    case_bool_decide; [done|]. split; [done|].
    exists h, gen. split_and!; [done..| |done|by exists key].
    by apply (inv_gen _ _ _ _ _ Hi).
  - destruct (roll_fill spent id key s) as [[id' p'] s2] eqn:Hf. intros [= <- <- <-].
    rewrite app_nil_r. by eapply roll_fill_inv.
  - destruct Hpc as (h & Hh & <- & <-).
    destruct (on_cell _ _ s) as [r s2] eqn:Ho.
    pose proof (λ drew, charge_inv _ _ _ _ _ _ _ _ drew Hi Hh Ho) as Hi2.
    intros Hs. exists hist. split; [done|].
    destruct r as [e|[]]; injection Hs as <- <- <-; done.
  - intros [= <- <- <-]. exists hist. rewrite app_nil_r. done.
Qed.

Definition world_inv (w : World) : Prop :=
  ∃ hist, slot_inv src (w_gen w) (w_cache w) (w_trace w) hist ∧
    Forall (λ '(_, pc), pc_inv src (w_gen w) hist pc) (w_threads w).

Lemma slot_inv_gen gen gen' s tr hist :
  gen ≤ gen' → slot_inv src gen s tr hist → slot_inv src gen' s tr hist.
Proof.
  intros Hg [Hslot Hids Hgen Hlast Hev]. split; try done.
  intros h Hh. destruct (Hgen h Hh). split; [lia|done].
Qed.

Lemma slot_inv_open gen s tr hist id key :
  slot_inv src gen s tr hist → slot_inv src gen (for_id_fill id key s).2 tr hist.
Proof.
  intros Hi. unfold for_id_fill. destruct (cs_by_id s !! id); [done|].
  by destruct Hi as [Hslot Hids Hgen Hlast Hev].
Qed.

Lemma wstep_inv w w' : world_inv w → wstep src w w' → world_inv w'.
Proof.
  intros (hist & Hi & Ht) Hw. destruct Hw as [w t job pc pc' s' evs Hl Hs|w job|w id key|w gen Hg].
  - pose proof Ht as Ht'. eapply Forall_lookup_1 in Ht'; [|done]. simpl in Ht'.
    destruct (thread_step_inv _ _ _ _ _ _ _ _ _ Hi Ht' Hs) as (hist' & Hsub & Hi' & Hpc').
    exists hist'. split; [done|]. simpl. apply Forall_insert; [|done].
    eapply Forall_impl; [done|]. intros [? ?]. by apply pc_inv_mono.
  - exists hist. split; [done|]. simpl. apply Forall_app. split; [done|].
    by repeat constructor.
  - exists hist. split; [by apply slot_inv_open|done].
  - exists hist. split; [by eapply slot_inv_gen|]. simpl.
    eapply Forall_impl; [done|]. intros [? ?]. by apply pc_inv_mono.
Qed.

Lemma reachable_inv budget w : rtc (wstep src) (initial budget) w → world_inv w.
Proof.
  intros Hr. assert (world_inv (initial budget)) as Hi0.
  { exists []. split; [|constructor]. split; try done; try by constructor.
    all: set_unfold; naive_solver. }
  revert Hi0. induction Hr as [w|w1 w2 w3 Hw Hr IH]; [done|]. intros Hi. apply IH. by eapply wstep_inv.
Qed.

(** All the encryptions under a key id are charged to one cipher. *)
Lemma one_cipher budget w e e' :
  rtc (wstep src) (initial budget) w → e ∈ w_trace w → e' ∈ w_trace w → e_id e = e_id e' →
  e_cell e = e_cell e'.
Proof.
  intros (hist & Hi & _)%reachable_inv He He' Hid.
  destruct (inv_events _ _ _ _ _ Hi e He) as (h & Hh & H1 & <-).
  destruct (inv_events _ _ _ _ _ Hi e' He') as (h' & Hh' & H2 & <-).
  f_equal. apply (NoDup_fmap_unique h_id hist); [apply (inv_ids _ _ _ _ _ Hi)|done..|congruence].
Qed.

End interleaving.

Lemma draws_same_cell id p tr :
  (∀ e, e ∈ tr → e_id e = id → e_cell e = p) → draws id tr ≤ draws_at p tr.
Proof.
  unfold draws, draws_at. induction tr as [|e tr IH]; intros Hp; [done|]. rewrite !filter_cons.
  assert (length (filter (λ e, e_id e = id ∧ e_drew e = true) tr)
    ≤ length (filter (λ e, e_cell e = p ∧ e_drew e = true) tr)) as IH'
    by (apply IH; intros e' He'; apply Hp; by right).
  destruct (decide (e_id e = id ∧ _)) as [[Hi Hd]|_].
  - rewrite decide_True by (split; [apply Hp; [by left|done]|done]). cbn. lia.
  - destruct (decide _); cbn; lia.
Qed.

(** C18: under every interleaving of sealing sessions, decryptions and key rotations,
    with fewer than 2^64 encryptions attempted in the life of the process (the width
    of the counter), no cipher draws more nonces than its budget; and when the source
    does not return to a key id it has moved on from, all encryptions under one key
    id are charged to one cipher, so that no more nonces are drawn under a data key
    than its budget. *)
Theorem dek_budget_never_exceeded `{HexCrate, AeadCrate} src budget w :
  (0 ≤ budget)%Z → rtc (wstep src) (initial budget) w →
  (Z.of_nat (length (w_trace w)) < 2 ^ 64)%Z →
  (∀ p, (Z.of_nat (draws_at p (w_trace w)) ≤ budget)%Z) ∧
  (no_return src → ∀ id, (Z.of_nat (draws id (w_trace w)) ≤ budget)%Z).
Proof.
  intros Hb Hr Hlen. destruct (reachable_cells src budget w Hb Hr) as ((Hi & _) & Hbud).
  assert (∀ p, (Z.of_nat (draws_at p (w_trace w)) ≤ budget)%Z) as Hp.
  { intros p. destruct (cs_cells (w_cache w) !! p) as [c|] eqn:Ec.
    - destruct (ci_cell _ _ Hi p c Ec) as [Hc Hn]. destruct (Hn Hlen). lia.
    - pose proof (draws_at_charges p (w_trace w)) as Hd.
      rewrite (ci_new _ _ Hi) in Hd by (by apply lookup_ge_None). lia. }
  split; [done|]. intros Hsrc id.
  assert (∃ p, ∀ e, e ∈ w_trace w → e_id e = id → e_cell e = p) as [p Hcell].
  { destruct (decide (Exists (λ e, e_id e = id) (w_trace w))) as [(e & He & <-)%Exists_exists|Hn].
    - exists (e_cell e). intros e' He' Hid. by apply (one_cipher src Hsrc budget w).
    - exists 0. intros e He Hid. destruct Hn. apply Exists_exists. eauto. }
  etrans; [|apply (Hp p)]. by apply inj_le, draws_same_cell.
Qed.

(** A source that rotates from the first key to the second and stays there, two
    sessions that both seal while the budget is one value per key. *)
Module BudgetExample.
Export EnvelopeExample.

Definition rotating (g : nat) : KeySource := match g with O => source1 | _ => source2 end.

Lemma rotating_no_return : no_return rotating.
Proof.
  intros g1 g2 g3 id id' k1 k2 k3 H1 H2.
  destruct g1, g2, g3; simpl; try lia; intros [= <- <-] [= <- <-]; try done.
Qed.

Definition job (m : bytes) : Job :=
  {| j_nonce := nonce1; j_binding := binding_cell ssn; j_plaintext := m |}.

(** The two sessions, the rotation, and the sequence in which the steps run. *)
Definition run_thread (t : nat) (w : World) : World :=
  match w_threads w !! t with
  | None => w
  | Some (j, pc) =>
      let '(pc', s', evs) := thread_step (rotating (w_gen w)) j pc (w_cache w) in
      {| w_gen := w_gen w; w_cache := s'; w_threads := <[t := (j, pc')]> (w_threads w);
         w_trace := w_trace w ++ evs |}
  end.

Lemma run_thread_steps t w : rtc (wstep rotating) w (run_thread t w).
Proof.
  unfold run_thread. destruct (w_threads w !! t) as [[j pc]|] eqn:E; [|done].
  destruct (thread_step _ j pc _) as [[pc' s'] evs] eqn:Es.
  apply rtc_once. by eapply step_thread.
Qed.

Definition spawned : World :=
  {| w_gen := 0; w_cache := ciphers_with_budget 1;
     w_threads := [(job b#"a", Start); (job b#"b", Start)]; w_trace := [] |}.

Definition rotated (w : World) : World :=
  {| w_gen := 1; w_cache := w_cache w; w_threads := w_threads w; w_trace := w_trace w |}.

Definition final : World :=
  foldl (λ w t, run_thread t w)
    (rotated (foldl (λ w t, run_thread t w) spawned [0; 1; 0; 1; 0; 1; 0; 1]))
    [1; 1; 1].

Lemma run_threads_steps w ts : rtc (wstep rotating) w (foldl (λ w t, run_thread t w) w ts).
Proof.
  revert w. induction ts as [|t ts IH]; intros w; simpl; [done|].
  etrans; [apply run_thread_steps|apply IH].
Qed.

Lemma final_reachable : rtc (wstep rotating) (initial 1) final.
Proof.
  eapply rtc_l; [apply (step_spawn rotating (initial 1) (job b#"a"))|].
  eapply rtc_l; [apply (step_spawn rotating _ (job b#"b"))|]. simpl.
  etrans; [apply (run_threads_steps spawned [0; 1; 0; 1; 0; 1; 0; 1])|].
  eapply rtc_l; [|apply run_threads_steps].
  apply step_rotate. vm_compute. lia.
Qed.

Lemma dek_budget_witness :
  w_trace final = [event id1 0 true; event id1 0 false; event id2 1 true] ∧
  (Z.of_nat (draws_at 0 (w_trace final)) ≤ 1)%Z ∧ (Z.of_nat (draws id1 (w_trace final)) ≤ 1)%Z.
Proof.
  split; [vm_compute; reflexivity|].
  destruct (dek_budget_never_exceeded rotating 1 final) as [Hp Hid];
    [lia|apply final_reachable|vm_compute; reflexivity|].
  split; [apply Hp|apply (Hid rotating_no_return)].
Defined.

(** A source that returns to its first key gives it a new counter: with a budget of
    one value a key, two values are sealed under the first key. *)
Definition returning (g : nat) : KeySource := match g with 1 => source2 | _ => source1 end.

Fixpoint seal_in_turn (gens : list nat) (s : Ciphers) : list (result Core.Error bytes) :=
  match gens with
  | [] => []
  | g :: gens =>
      let r := ciphers_seal (returning g) nonce1 (binding_cell ssn) b#"a" s in r.1 :: seal_in_turn gens r.2
  end.

Lemma returning_key_exceeds_budget :
  (λ r, id ← (e ← r; key_id e); mret id) <$> seal_in_turn [0; 1; 2] (ciphers_with_budget 1)
    = [Ok id1; Ok id2; Ok id1].
Proof. vm_compute. reflexivity. Qed.

End BudgetExample.
