(* ===== verification/RowKeys.v ===== *)
(** * Canonical row keys ([crates/core/src/rowkey.rs])

    The bytes a row's declared key contributes to its envelopes: the same for
    every spelling and wire format of one value. *)

From S2P Require Import Prelude Utf8 IntText Crates Pgwire Errors Envelope.

(** ** Type OIDs and formats *)

Definition INT8 : Z := 20.
Definition INT2 : Z := 21.
Definition INT4 : Z := 23.
Definition TEXT : Z := 25.
Definition VARCHAR : Z := 1043.
Definition UUID : Z := 2950.

Inductive Format := FText | FBinary.

#[global] Instance Format_eq_dec : EqDecision Format.
Proof. solve_decision. Defined.

Definition supported (type_oid : Z) : bool :=
  bool_decide (type_oid ∈ [INT2; INT4; INT8; TEXT; VARCHAR; UUID]).

(** ** Decoders *)

Definition rk_err (why : RowKeyProblem) : Core.Error := Core.RowKeyType why.

Definition utf8 (bs : bytes) : result Core.Error bytes :=
  if is_utf8 bs then Ok bs else Err (rk_err KeyNotUtf8).

(** [integer_text::<iN>]. *)
Definition integer_text (bits : Z) (bs : bytes) : result Core.Error bytes :=
  text ← utf8 bs;
  match parse_int bits (trim text) with
  | Some n => Ok (int_to_string n)
  | None => Err (rk_err (KeyNotInteger text))
  end.

(** [fixed::<N>]. *)
Definition fixed (n : nat) (bs : bytes) : result Core.Error bytes :=
  if bool_decide (length bs = n) then Ok bs else Err (rk_err (KeyWrongWidth (length bs) n)).

Definition slice (i j : nat) (l : bytes) : bytes := take (j - i) (drop i l).

Definition hyphenated (hex : bytes) : bytes :=
  take 8 hex ++ b#"-" ++ slice 8 12 hex ++ b#"-" ++ slice 12 16 hex ++ b#"-"
    ++ slice 16 20 hex ++ b#"-" ++ drop 20 hex.

Definition strip_suffix (p : byte) (l : bytes) : option bytes :=
  match reverse l with
  | b :: r => if bool_decide (b = p) then Some (reverse r) else None
  | [] => None
  end.

(** The loop of [uuid_from_text]: hyphens skipped, digits lowered, anything else
    ([None]) refused. *)
Definition char_hexdigit (c : Z) : bool := (c <=? 127)%Z && is_ascii_hexdigit (z2b c).

Fixpoint collect_hex (cs : list Z) : option bytes :=
  match cs with
  | [] => Some []
  | c :: cs =>
      if (c =? 45)%Z then collect_hex cs
      else if char_hexdigit c then cons (to_ascii_lowercase (z2b c)) <$> collect_hex cs
      else None
  end.

Definition uuid_from_text (bs : bytes) : result Core.Error bytes :=
  text ← utf8 bs;
  let refuse := rk_err (KeyNotUuid text) in
  let inner := trim text in
  let inner :=
    match inner with
    | "{"%byte :: rest => default [] (strip_suffix "}"%byte rest)
    | _ => inner
    end in
  hex ← ok_or refuse (collect_hex (chars inner));
  if bool_decide (length hex ≠ 32) then Err refuse else Ok (hyphenated hex).

Section rowkey.
Context `{HexCrate}.

Definition canonical (type_oid : Z) (format : Format) (value : option bytes)
    : result Core.Error RowKey :=
  bs ← ok_or (rk_err KeyIsNull) value;
  text ←
    (if bool_decide (type_oid = INT2) then
       match format with
       | FText => integer_text 16 bs
       | FBinary => b ← fixed 2 bs; mret (int_to_string (i16_of_be b))
       end
     else if bool_decide (type_oid = INT4) then
       match format with
       | FText => integer_text 32 bs
       | FBinary => b ← fixed 4 bs; mret (int_to_string (i32_of_be b))
       end
     else if bool_decide (type_oid = INT8) then
       match format with
       | FText => integer_text 64 bs
       | FBinary => b ← fixed 8 bs; mret (int_to_string (i64_of_be b))
       end
     else if bool_decide (type_oid = UUID) then
       match format with
       | FText => uuid_from_text bs
       | FBinary => b ← fixed 16 bs; mret (hyphenated (hex_encode b))
       end
     else if bool_decide (type_oid = TEXT ∨ type_oid = VARCHAR) then utf8 bs
     else Err (rk_err (KeyTypeRefused type_oid)));
  mret {| row_key_bytes := text |}.

(** [RowKey::from_i16], [from_i32], [from_i64]. *)
Definition from_int (value : Z) : RowKey := {| row_key_bytes := int_to_string value |}.
Definition from_text (value : bytes) : RowKey := {| row_key_bytes := value |}.
Definition from_uuid (value : bytes) : result Core.Error RowKey :=
  canonical UUID FText (Some value).
Definition from_uuid_bytes (value : bytes) : RowKey :=
  {| row_key_bytes := hyphenated (hex_encode value) |}.

End rowkey.

(** ** Lemmas on UUIDs *)

Lemma lower_hex_spec b :
  lower_hex b = true → (48 ≤ b2z b ≤ 57 ∨ 97 ≤ b2z b ≤ 102)%Z.
Proof.
  unfold lower_hex, is_ascii_digit. rewrite orb_true_iff, !in_range_spec. lia.
Qed.

Lemma lower_hex_char b :
  lower_hex b = true →
  (b2z b ≤ 127)%Z ∧ (b2z b =? 45)%Z = false ∧ char_hexdigit (b2z b) = true ∧
  to_ascii_lowercase b = b ∧ is_whitespace (b2z b) = false ∧ b ≠ "{"%byte.
Proof.
  intros Hb. pose proof (lower_hex_spec _ Hb) as Hr. split_and!.
  - lia.
  - lia.
  - unfold char_hexdigit. rewrite z2b_b2z.
    unfold is_ascii_hexdigit, is_ascii_digit, in_range. lia.
  - unfold to_ascii_lowercase, is_ascii_uppercase, in_range.
    destruct (Z.leb_spec 65 (b2z b)); simpl; [|done]. destruct (Z.leb_spec (b2z b) 90); [lia|done].
  - unfold is_whitespace. repeat (apply orb_false_iff; split); lia.
  - intros ->. vm_compute in Hb. discriminate.
Qed.

(** Digits with hyphens anywhere among them collect to the digits. *)
Lemma collect_hex_app c1 c2 h1 h2 :
  collect_hex c1 = Some h1 → collect_hex c2 = Some h2 → collect_hex (c1 ++ c2) = Some (h1 ++ h2).
Proof.
  revert h1. induction c1 as [|c c1 IH]; intros h1 H1 H2; simpl in *.
  { by simplify_eq. }
  destruct (c =? 45)%Z; [by apply IH|]. destruct (char_hexdigit c); [|done].
  apply fmap_Some in H1 as (h & Hh & ->). by rewrite (IH h).
Qed.

Lemma collect_hex_lower l :
  Forall (λ b, lower_hex b = true) l → collect_hex (b2z <$> l) = Some l.
Proof.
  induction 1 as [|b l Hb _ IH]; [done|].
  change (b2z <$> b :: l) with (b2z b :: (b2z <$> l)). cbn [collect_hex].
  destruct (lower_hex_char _ Hb) as (_ & -> & -> & E & _). by rewrite IH, z2b_b2z, E.
Qed.

Lemma collect_hex_hyphen cs h :
  collect_hex cs = Some h → collect_hex ((b2z <$> b#"-") ++ cs) = Some h.
Proof. done. Qed.

Lemma collect_hex_result cs h :
  collect_hex cs = Some h → Forall (λ b, lower_hex b = true) h.
Proof.
  revert h. induction cs as [|c cs IH]; intros h; simpl; [by intros [= <-]|].
  destruct (c =? 45)%Z; [apply IH|]. destruct (char_hexdigit c) eqn:Hc; [|done].
  intros (h' & Hh & ->)%fmap_Some. constructor; [|by apply IH].
  unfold char_hexdigit in Hc. apply andb_true_iff in Hc as [_ Hc].
  unfold is_ascii_hexdigit, is_ascii_digit, lower_hex, to_ascii_lowercase,
    is_ascii_uppercase, is_ascii_digit, in_range in *.
  destruct (Z.leb_spec 65 (b2z (z2b c))), (Z.leb_spec (b2z (z2b c)) 90); simpl;
    rewrite ?b2z_z2b_small by lia; lia.
Qed.

Lemma hyphenated_split h :
  length h = 32 →
  h = take 8 h ++ slice 8 12 h ++ slice 12 16 h ++ slice 16 20 h ++ drop 20 h.
Proof.
  intros Hl. unfold slice. simpl.
  rewrite <- (take_drop 8 h) at 1. f_equal.
  rewrite <- (take_drop 4 (drop 8 h)) at 1. rewrite drop_drop. simpl. f_equal.
  rewrite <- (take_drop 4 (drop 12 h)) at 1. rewrite drop_drop. simpl. f_equal.
  rewrite <- (take_drop 4 (drop 16 h)) at 1. rewrite drop_drop. done.
Qed.

Lemma hyphenated_inj h1 h2 :
  length h1 = 32 → length h2 = 32 → hyphenated h1 = hyphenated h2 → h1 = h2.
Proof.
  intros L1 L2 E. unfold hyphenated in E.
  rewrite (hyphenated_split h1), (hyphenated_split h2) by done.
  assert (∀ i j h, length h = 32 → i ≤ j → j ≤ 32 → length (slice i j h) = j - i) as Hsl.
  { intros i j h Hh Hij Hj. unfold slice. rewrite length_take, length_drop. lia. }
  apply app_inj_1 in E as [-> E]; [|rewrite !length_take; lia].
  apply app_inj_1 in E as [_ E]; [|done].
  apply app_inj_1 in E as [-> E]; [|rewrite !Hsl; lia].
  apply app_inj_1 in E as [_ E]; [|done].
  apply app_inj_1 in E as [-> E]; [|rewrite !Hsl; lia].
  apply app_inj_1 in E as [_ E]; [|done].
  apply app_inj_1 in E as [-> E]; [|rewrite !Hsl; lia].
  by apply app_inj_1 in E as [_ ->].
Qed.

(** The canonical form of a UUID is read back as itself. *)
Lemma uuid_from_text_canonical h :
  length h = 32 → Forall (λ b, lower_hex b = true) h →
  uuid_from_text (hyphenated h) = Ok (hyphenated h).
Proof.
  intros Hl Hh.
  assert (Forall (λ b, lower_hex b = true ∨ b = "-"%byte) (hyphenated h)) as Hall.
  { assert (Forall (λ b, lower_hex b = true ∨ b = "-"%byte) h) as Hh'
      by (eapply Forall_impl; [exact Hh|by left]).
    unfold hyphenated, slice. rewrite !Forall_app.
    split_and!; try (apply Forall_singleton; by right); eauto using Forall_take, Forall_drop. }
  assert (Forall (λ b, (b2z b ≤ 127)%Z ∧ is_whitespace (b2z b) = false) (hyphenated h)) as Hp.
  { eapply Forall_impl; [exact Hall|]. intros b [Hb| ->]; [|done].
    destruct (lower_hex_char _ Hb) as (? & _ & _ & _ & ? & _). done. }
  assert (Forall (λ b, (b2z b ≤ 127)%Z) (hyphenated h)) as Ha
    by (eapply Forall_impl; [exact Hp|naive_solver]).
  unfold uuid_from_text, utf8. rewrite (proj2 (is_utf8_spec _)).
  2: { unfold chars. by rewrite decode_ascii. }
  cbn [mbind result_bind]. rewrite trim_ascii_id by done.
  assert (match hyphenated h with
          | "{"%byte :: rest => default [] (strip_suffix "}"%byte rest)
          | _ => hyphenated h
          end = hyphenated h) as ->.
  { destruct (hyphenated h) as [|b r] eqn:E; [done|].
    inversion Hall as [|? ? Hb _]; subst.
    assert (b ≠ "{"%byte) by (destruct Hb as [Hb| ->]; [by apply lower_hex_char|done]).
    by destruct b. }
  unfold chars. rewrite decode_ascii by done. simpl.
  assert (collect_hex (b2z <$> hyphenated h) = Some h) as ->.
  { assert (Forall (λ b, lower_hex b = true) (take 8 h) ∧
      Forall (λ b, lower_hex b = true) (slice 8 12 h) ∧
      Forall (λ b, lower_hex b = true) (slice 12 16 h) ∧
      Forall (λ b, lower_hex b = true) (slice 16 20 h) ∧
      Forall (λ b, lower_hex b = true) (drop 20 h)) as (F1 & F2 & F3 & F4 & F5)
      by (unfold slice; split_and!; eauto using Forall_take, Forall_drop).
    rewrite (hyphenated_split h Hl) at 2. unfold hyphenated. rewrite !fmap_app.
    do 4 (apply collect_hex_app; [by apply collect_hex_lower|apply collect_hex_hyphen]).
    by apply collect_hex_lower. }
  simpl. by rewrite bool_decide_eq_false_2 by (rewrite Hl; lia).
Qed.

(** ** The integer types *)

(** An integer type, its width in bits and its reader. *)
Definition int_types : list (Z * Z * nat) := [(INT2, 16%Z, 2); (INT4, 32%Z, 4); (INT8, 64%Z, 8)].

Lemma integer_text_canonical bits z :
  in_bits bits z → integer_text bits (int_to_string z) = Ok (int_to_string z).
Proof.
  intros Hz. pose proof (int_to_string_plain z) as Hp.
  unfold integer_text, utf8. rewrite (proj2 (is_utf8_spec _)).
  2: { unfold chars. rewrite decode_ascii; [done|].
       eapply Forall_impl; [exact Hp|naive_solver]. }
  simpl. rewrite trim_ascii_id by done. by rewrite parse_int_to_string.
Qed.

Lemma integer_text_Ok bits bs t :
  integer_text bits bs = Ok t → ∃ z, in_bits bits z ∧ t = int_to_string z ∧
    parse_int bits (trim bs) = Some z ∧ is_utf8 bs = true.
Proof.
  unfold integer_text, utf8. destruct (is_utf8 bs) eqn:E; [|done]. simpl.
  destruct (parse_int bits (trim bs)) as [z|] eqn:Ep; [|done].
  intros [= <-]. exists z. split_and!; [by eapply parse_int_range|done..].
Qed.

Lemma int_to_string_inj bits z1 z2 :
  in_bits bits z1 → in_bits bits z2 → int_to_string z1 = int_to_string z2 → z1 = z2.
Proof.
  intros H1 H2 E. apply (f_equal (parse_int bits)) in E.
  rewrite !parse_int_to_string in E by done. by injection E.
Qed.

Lemma fixed_Ok n bs b : fixed n bs = Ok b ↔ b = bs ∧ length bs = n.
Proof. unfold fixed. case_bool_decide; naive_solver. Qed.

Section rowkey_theorems.
Context `{HexCrate, !HexLaws}.

Lemma canonical_int ty bits w fmt v :
  (ty, bits, w) ∈ int_types →
  canonical ty fmt (Some v) =
  text ← match fmt with
         | FText => integer_text bits v
         | FBinary => b ← fixed w v; mret (int_to_string (signed bits (be_val b)))
         end;
  mret {| row_key_bytes := text |}.
Proof.
  unfold int_types. intros Hty.
  repeat (apply elem_of_cons in Hty as [[= -> -> ->]|Hty]; [by destruct fmt|]).
  by apply elem_of_nil in Hty.
Qed.

(** Every type is an integer type or is handled by the other arms. *)
Lemma canonical_cases ty :
  (∃ bits w, (ty, bits, w) ∈ int_types) ∨
  (∀ fmt v, canonical ty fmt (Some v) =
     text ← (if bool_decide (ty = UUID) then
               match fmt with
               | FText => uuid_from_text v
               | FBinary => b ← fixed 16 v; mret (hyphenated (hex_encode b))
               end
             else if bool_decide (ty = TEXT ∨ ty = VARCHAR) then utf8 v
             else Err (rk_err (KeyTypeRefused ty)));
     mret {| row_key_bytes := text |}).
Proof.
  destruct (decide (ty ∈ [INT2; INT4; INT8])) as [Hi|Hn].
  - left. unfold int_types. repeat (apply elem_of_cons in Hi as [->|Hi]; [set_solver|]).
    by apply elem_of_nil in Hi.
  - right. intros fmt v. unfold canonical. simpl.
    by rewrite !(bool_decide_eq_false_2 (ty = _)) by set_solver.
Qed.

Lemma int_binary_range bits w v ty :
  (ty, bits, w) ∈ int_types → length v = w → in_bits bits (signed bits (be_val v)).
Proof.
  unfold int_types. intros Hty Hl. pose proof (be_val_range v) as Hr. rewrite Hl in Hr.
  repeat (apply elem_of_cons in Hty as [[= -> -> ->]|Hty]; [by apply signed_range|]).
  by apply elem_of_nil in Hty.
Qed.

(** Canonicalisation is idempotent on every supported type: whatever bytes a
    row key came from, in either wire format, its canonical text is read back as
    the same key, so a reader that only has PostgreSQL's own output names the
    same row as the writer. *)
Theorem canonical_idempotent ty fmt v k :
  canonical ty fmt v = Ok k → canonical ty FText (Some (row_key_bytes k)) = Ok k.
Proof.
  destruct v as [v|]; [|done].
  destruct (canonical_cases ty) as [(bits & w & Hty)|Hni].
  - rewrite !(canonical_int _ _ _ _ _ Hty). intros Hk.
    apply bind_Ok_inv in Hk as (t & Ht & [= <-]). simpl.
    assert (∃ z, in_bits bits z ∧ t = int_to_string z) as (z & Hz & ->).
    { destruct fmt.
      - apply integer_text_Ok in Ht as (z & ? & ? & _). eauto.
      - apply bind_Ok_inv in Ht as (b & [-> Hl]%fixed_Ok & [= <-]).
        eauto using int_binary_range. }
    by rewrite integer_text_canonical.
  - rewrite !Hni. case_bool_decide as Hu.
    { intros Hk. apply bind_Ok_inv in Hk as (t & Ht & [= <-]). simpl.
      assert (∃ h, t = hyphenated h ∧ length h = 32 ∧ Forall (λ b, lower_hex b = true) h)
        as (h & -> & Hl & Hh).
      { destruct fmt.
        - unfold uuid_from_text in Ht. apply bind_Ok_inv in Ht as (s & _ & Ht).
          apply bind_Ok_inv in Ht as (h & Hh%ok_or_Ok & Ht).
          case_bool_decide as Hl; [done|]. injection Ht as <-.
          exists h. split_and!; [done|by destruct (decide (length h = 32))|].
          by eapply collect_hex_result.
        - apply bind_Ok_inv in Ht as (b & [-> Hl]%fixed_Ok & [= <-]).
          eexists. split_and!; [done| |apply hex_encode_lower].
          rewrite hex_encode_length, Hl. done. }
      by rewrite uuid_from_text_canonical. }
    case_bool_decide; [|done]. unfold utf8. destruct (is_utf8 v) eqn:E; [|done].
    simpl. intros [= <-]. simpl. by rewrite E.
Qed.

(** The two wire formats and the typed constructors agree on integers: any
    spelling PostgreSQL accepts for [z] (a sign, leading zeros, surrounding
    blanks), its fixed-width binary body, and [RowKey::from_iN] give one key. *)
Theorem canonical_formats_agree ty bits w s z :
  (ty, bits, w) ∈ int_types → is_utf8 s = true → parse_int bits (trim s) = Some z →
  canonical ty FText (Some s) = Ok (from_int z) ∧
  canonical ty FBinary (Some (be_bytes w z)) = Ok (from_int z).
Proof.
  intros Hty Hs Hz. pose proof (parse_int_range _ _ _ Hz) as Hr.
  rewrite !(canonical_int _ _ _ _ _ Hty). split.
  - unfold integer_text, utf8. rewrite Hs. simpl. by rewrite Hz.
  - rewrite (proj2 (fixed_Ok w _ _) (conj eq_refl (length_be_bytes w z))). simpl.
    unfold from_int. do 3 f_equal. rewrite be_val_bytes.
    unfold int_types in Hty.
    repeat (apply elem_of_cons in Hty as [[= -> -> ->]|Hty]; [by apply signed_mod|]).
    by apply elem_of_nil in Hty.
Qed.

(** Canonicalisation keeps rows apart: two binary values of one type with the
    same canonical key are the same value. With the injectivity of the
    associated data, no two rows of a column share an authentication context. *)
Theorem canonical_injective ty v1 v2 k :
  canonical ty FBinary (Some v1) = Ok k → canonical ty FBinary (Some v2) = Ok k → v1 = v2.
Proof.
  destruct (canonical_cases ty) as [(bits & w & Hty)|Hni].
  - rewrite !(canonical_int _ _ _ _ _ Hty). intros K1 K2.
    apply bind_Ok_inv in K1 as (t1 & T1 & [= <-]).
    apply bind_Ok_inv in K2 as (t2 & T2 & [= ->]).
    apply bind_Ok_inv in T1 as (b1 & [-> L1]%fixed_Ok & [= <-]).
    apply bind_Ok_inv in T2 as (b2 & [-> L2]%fixed_Ok & [= E]).
    apply (int_to_string_inj bits) in E; [|by eapply int_binary_range..].
    rewrite <- (be_bytes_val v1), <- (be_bytes_val v2), L1, L2. f_equal.
    apply (f_equal (λ z, z mod 2 ^ bits)%Z) in E.
    pose proof (be_val_range v1) as R1. pose proof (be_val_range v2) as R2.
    rewrite L1 in R1. rewrite L2 in R2. unfold int_types in Hty.
    repeat (apply elem_of_cons in Hty as [[= -> -> ->]|Hty];
      [rewrite !mod_signed in E by done; done|]).
    by apply elem_of_nil in Hty.
  - rewrite !Hni. case_bool_decide as Hu.
    + intros K1 K2. apply bind_Ok_inv in K1 as (t1 & T1 & [= <-]).
      apply bind_Ok_inv in K2 as (t2 & T2 & [= ->]).
      apply bind_Ok_inv in T1 as (b1 & [-> L1]%fixed_Ok & [= <-]).
      apply bind_Ok_inv in T2 as (b2 & [-> L2]%fixed_Ok & [= E]).
      apply hyphenated_inj in E; [|rewrite hex_encode_length; lia..].
      apply (f_equal hex_decode) in E. rewrite !hex_decode_encode in E. by injection E.
    + case_bool_decide; [|done]. unfold utf8.
      destruct (is_utf8 v1), (is_utf8 v2); try done. simpl. intros [= <-] [= <-]. done.
Qed.

(** Nothing is ever bound to a row without a name: a NULL key and a key of a
    type outside the supported set are refused in both formats, so no value falls
    back to raw wire bytes. *)
Theorem canonical_refuses ty fmt v k :
  canonical ty fmt v = Ok k → supported ty = true ∧ is_Some v ∧
  (v = Some [] → row_key_bytes k = [] ∧ (ty = TEXT ∨ ty = VARCHAR)).
Proof.
  destruct v as [v|]; [|done]. intros Hk.
  destruct (canonical_cases ty) as [(bits & w & Hty)|Hni].
  - split; [|split; [done|]].
    + unfold int_types in Hty. unfold supported. apply bool_decide_eq_true. set_solver.
    + intros [= ->]. rewrite (canonical_int _ _ _ _ _ Hty) in Hk. exfalso.
      unfold int_types in Hty.
      repeat (apply elem_of_cons in Hty as [[= -> -> ->]|Hty];
        [by destruct fmt; vm_compute in Hk|]).
      by apply elem_of_nil in Hty.
  - rewrite Hni in Hk. unfold supported. case_bool_decide as Hu.
    + subst ty. split; [done|]. split; [done|]. intros [= ->].
      by destruct fmt; vm_compute in Hk.
    + case_bool_decide as Ht; [|done]. split; [|split; [done|]].
      * apply bool_decide_eq_true. set_solver.
      * intros [= ->]. simpl in Hk. by injection Hk as <-.
Qed.

End rowkey_theorems.

(** ** Witnesses *)

Module RowKeyExample.
Export Toy.

Lemma canonical_idempotent_witness :
  canonical UUID FText (Some b#"{A0EEBC99-9C0B4EF8BB6D6BB9BD380A11}")
    = Ok {| row_key_bytes := b#"a0eebc99-9c0b-4ef8-bb6d-6bb9bd380a11" |} ∧
  canonical UUID FText (Some b#"a0eebc99-9c0b-4ef8-bb6d-6bb9bd380a11")
    = Ok {| row_key_bytes := b#"a0eebc99-9c0b-4ef8-bb6d-6bb9bd380a11" |}.
Proof.
  split; [vm_compute; reflexivity|].
  apply (canonical_idempotent UUID FText (Some b#"{A0EEBC99-9C0B4EF8BB6D6BB9BD380A11}")
    {| row_key_bytes := b#"a0eebc99-9c0b-4ef8-bb6d-6bb9bd380a11" |}).
  vm_compute. reflexivity.
Defined.

Lemma canonical_formats_agree_witness :
  canonical INT4 FText (Some b#" +0042 ") = Ok (from_int 42) ∧
  canonical INT4 FBinary (Some (be_bytes 4 42)) = Ok (from_int 42).
Proof.
  apply (canonical_formats_agree INT4 32 4 b#" +0042 " 42);
    [unfold int_types; set_solver|vm_compute; reflexivity|vm_compute; reflexivity].
Defined.

Lemma canonical_injective_witness :
  canonical INT2 FBinary (Some [xff; xfe]) = Ok (from_int (-2)) ∧ [xff; xfe] = [xff; xfe].
Proof.
  split; [vm_compute; reflexivity|].
  apply (canonical_injective INT2 _ _ (from_int (-2))); vm_compute; reflexivity.
Defined.

Lemma canonical_refuses_witness :
  supported VARCHAR = true ∧ canonical 1042 FText (Some b#"abc") = Err (rk_err (KeyTypeRefused 1042)).
Proof.
  split; [|vm_compute; reflexivity].
  apply (canonical_refuses VARCHAR FText (Some b#"ab") {| row_key_bytes := b#"ab" |}).
  vm_compute. reflexivity.
Defined.

(** Hyphens are skipped wherever they stand, not only in the standard places. *)
Lemma uuid_hyphens_anywhere :
  canonical UUID FText (Some b#"a-0-e-ebc999c0b4ef8bb6d6bb9bd380a11----")
    = Ok {| row_key_bytes := b#"a0eebc99-9c0b-4ef8-bb6d-6bb9bd380a11" |}.
Proof. vm_compute. reflexivity. Qed.

End RowKeyExample.
