(* ===== verification/KeySpec.v ===== *)
(** * Row keys as the server has them

    What PostgreSQL documents of the types a row key may have: how it reads the text
    of a literal or of a parameter, how it reads the binary form, and how it prints a
    stored value. Two keys are equal to it when they are one value, however each was
    spelt; the lemmas show that the canonical key of any spelling is the text the
    stored value is printed as, which is what a reader seals and opens under. *)

From S2P Require Import Prelude Utf8 IntText Crates Pgwire Errors Envelope RowKeys.

Inductive KeyValue := KInt (z : Z) | KUuid (digits : bytes) | KText (text : bytes).

#[global] Instance KeyValue_eq_dec : EqDecision KeyValue.
Proof. solve_decision. Defined.

(** ** What the server reads *)

(** [isspace] of the C locale. *)
Definition blank (b : byte) : bool := bool_decide (b2z b = 32)%Z || in_range 9 13 b.

Definition blank_trim (l : bytes) : bytes :=
  reverse (drop_while blank (reverse (drop_while blank l))).

(** Groups of four hexadecimal digits, a hyphen allowed between two of them. *)
Fixpoint quads (k : nat) (l : bytes) : option bytes :=
  match k with
  | O => if bool_decide (l = []) then Some [] else None
  | S k =>
      match l with
      | a :: b :: c :: d :: rest =>
          if forallb is_ascii_hexdigit [a; b; c; d] then
            let rest := match k, rest with
                        | S _, x :: rest' => if bool_decide (x = "-"%byte) then rest' else rest
                        | _, _ => rest
                        end in
            app (to_ascii_lowercase <$> [a; b; c; d]) <$> quads k rest
          else None
      | _ => None
      end
  end.

(** Upper or lower case, in braces or not. *)
Definition uuid_in (l : bytes) : option bytes :=
  match l with
  | "{"%byte :: rest => inner ← strip_suffix "}"%byte rest; quads 8 inner
  | _ => quads 8 l
  end.

(** The input function of a type. The radix prefixes and the underscores newer
    servers allow in an integer are left out: no key is made of them. *)
Definition server_reads (ty : Z) (text : bytes) : option KeyValue :=
  if bool_decide (ty = INT2) then KInt <$> parse_int 16 (blank_trim text)
  else if bool_decide (ty = INT4) then KInt <$> parse_int 32 (blank_trim text)
  else if bool_decide (ty = INT8) then KInt <$> parse_int 64 (blank_trim text)
  else if bool_decide (ty = UUID) then KUuid <$> uuid_in text
  else if bool_decide (ty = TEXT ∨ ty = VARCHAR) then
    if is_utf8 text then Some (KText text) else None
  else None.

(** Two lower-case digits a byte. *)
Definition hex_digits (raw : bytes) : bytes :=
  concat ((λ b, [hex_digit (b2z b / 16); hex_digit (b2z b mod 16)]) <$> raw).

(** The receive function of a type. *)
Definition server_receives (ty : Z) (raw : bytes) : option KeyValue :=
  let sized n v := if bool_decide (length raw = n) then Some v else None in
  if bool_decide (ty = INT2) then sized 2 (KInt (signed 16 (be_val raw)))
  else if bool_decide (ty = INT4) then sized 4 (KInt (signed 32 (be_val raw)))
  else if bool_decide (ty = INT8) then sized 8 (KInt (signed 64 (be_val raw)))
  else if bool_decide (ty = UUID) then sized 16 (KUuid (hex_digits raw))
  else if bool_decide (ty = TEXT ∨ ty = VARCHAR) then
    if is_utf8 raw then Some (KText raw) else None
  else None.

(** A value as it arrives in one of the wire formats. *)
Definition received (ty : Z) (format : Format) (raw : bytes) : option KeyValue :=
  match format with FText => server_reads ty raw | FBinary => server_receives ty raw end.

(** ** What the server prints *)

Fixpoint groups (sizes : list nat) (digits : bytes) : bytes :=
  match sizes with
  | [] | [_] => digits
  | n :: sizes => take n digits ++ "-"%byte :: groups sizes (drop n digits)
  end.

(** The output function of a type. *)
Definition server_prints (v : KeyValue) : bytes :=
  match v with
  | KInt z => int_to_string z
  | KUuid digits => groups [8; 4; 4; 4; 12] digits
  | KText text => text
  end.

(** A value of the type. *)
Definition key_of_type (ty : Z) (v : KeyValue) : Prop :=
  match v with
  | KInt z => ∃ bits w, (ty, bits, w) ∈ int_types ∧ in_bits bits z
  | KUuid digits => ty = UUID ∧ length digits = 32 ∧ Forall (λ b, lower_hex b = true) digits
  | KText text => (ty = TEXT ∨ ty = VARCHAR) ∧ is_utf8 text = true
  end.

(** The comparison of the type: one value, however each side is spelt. *)
Definition key_equal (ty : Z) (a b : bytes) : bool :=
  match server_reads ty a, server_reads ty b with
  | Some v, Some v' => bool_decide (v = v')
  | _, _ => false
  end.

(** ** Blanks *)

Lemma drop_while_split {A} (f : A → bool) l :
  ∃ w, l = w ++ drop_while f l ∧ Forall (λ x, f x = true) w.
Proof.
  induction l as [|x l (w & E & Hw)]; [by exists []|]. cbn [drop_while].
  destruct (f x) eqn:Ef; [|by exists []].
  exists (x :: w). split; [cbn; by f_equal|by constructor].
Qed.

Lemma blank_trim_split l :
  ∃ w1 w2, l = w1 ++ blank_trim l ++ w2 ∧
    Forall (λ b, blank b = true) w1 ∧ Forall (λ b, blank b = true) w2.
Proof.
  unfold blank_trim. destruct (drop_while_split blank l) as (w1 & E1 & H1).
  destruct (drop_while_split blank (reverse (drop_while blank l))) as (w2 & E2 & H2).
  exists w1, (reverse w2). split_and!; [|done|by apply Forall_reverse].
  rewrite <- reverse_app, <- E2, reverse_involutive. done.
Qed.

Lemma drop_while_skip {A} (f : A → bool) w l :
  Forall (λ x, f x = true) w → drop_while f (w ++ l) = drop_while f l.
Proof. induction 1 as [|x w Hx _ IH]; [done|]. cbn. by rewrite Hx. Qed.

Lemma trim_chars_around w1 l w2 :
  Forall (λ c, is_whitespace c = true) w1 → Forall (λ c, is_whitespace c = true) w2 →
  Forall (λ c, is_whitespace c = false) l → trim_chars (w1 ++ l ++ w2) = l.
Proof.
  intros H1 H2 Hl. unfold trim_chars. rewrite drop_while_skip by done.
  destruct l as [|x l].
  { cbn [app]. rewrite <- (app_nil_r w2), drop_while_skip by done. done. }
  inversion Hl as [|? ? Hx _]; subst. cbn [app drop_while]. rewrite Hx.
  change (x :: l ++ w2) with ((x :: l) ++ w2).
  rewrite reverse_app, drop_while_skip by (by apply Forall_reverse).
  rewrite drop_while_id; [apply reverse_involutive|].
  intros y Hy%head_Some_elem_of. rewrite elem_of_reverse in Hy. by apply (proj1 (Forall_forall _ _) Hl).
Qed.

Lemma blank_ascii b : blank b = true → (b2z b ≤ 127)%Z ∧ is_whitespace (b2z b) = true.
Proof.
  unfold blank, in_range, is_whitespace. intros H. case_bool_decide as Hb; [by rewrite Hb|].
  cbn in H. split; [lia|]. by rewrite H.
Qed.

Definition plain_char (b : byte) : Prop := (b2z b ≤ 127)%Z ∧ is_whitespace (b2z b) = false.

(** A plain text between blanks is what [trim] leaves. *)
Lemma trim_around w1 l w2 :
  Forall (λ b, blank b = true) w1 → Forall (λ b, blank b = true) w2 → Forall plain_char l →
  is_utf8 (w1 ++ l ++ w2) = true ∧ trim (w1 ++ l ++ w2) = l.
Proof.
  intros H1 H2 Hl.
  assert (Forall (λ b, b2z b ≤ 127)%Z (w1 ++ l ++ w2)) as Ha.
  { rewrite !Forall_app. split_and!; (eapply Forall_impl; [eassumption|]); cbn;
      [apply blank_ascii|by intros ? []|apply blank_ascii]. }
  assert (∀ w, Forall (λ b, blank b = true) w → Forall (λ c, is_whitespace c = true) (b2z <$> w)) as Hw.
  { intros w Hw. apply Forall_fmap. eapply Forall_impl; [exact Hw|]. apply blank_ascii. }
  split.
  - apply is_utf8_spec. unfold chars. by rewrite decode_ascii.
  - unfold trim, chars. rewrite decode_ascii by done. simpl.
    rewrite !fmap_app. rewrite trim_chars_around; [|auto..|].
    + apply encode_ascii. eapply Forall_impl; [exact Hl|]. by intros ? [].
    + apply Forall_fmap. eapply Forall_impl; [exact Hl|]. by intros ? [].
Qed.

(** ** Integers *)

Lemma parse_int_plain bits s z : parse_int bits s = Some z → Forall plain_char s.
Proof.
  assert (∀ ds v, parse_digits ds = Some v → Forall plain_char ds) as Hd.
  { intros ds v. unfold parse_digits. destruct (forallb is_ascii_digit ds) eqn:E; [|by rewrite orb_true_r].
    intros _. apply Forall_forall. intros b Hb%list_elem_of_In. rewrite forallb_forall in E.
    apply E in Hb. unfold is_ascii_digit, in_range in Hb. unfold plain_char, is_whitespace.
    split; [lia|]. repeat (apply orb_false_iff; split); lia. }
  assert (∀ b ds v, b = "+"%byte ∨ b = "-"%byte → parse_digits ds = Some v → Forall plain_char (b :: ds)) as Hs.
  { intros b ds v Hb Hv. constructor; [|by eapply Hd].
    by destruct Hb as [-> | ->]; split; vm_compute. }
  unfold parse_int. intros (v & Hv & _)%bind_Some.
  destruct s as [|b s]; [done|].
  destruct (decide (b = "-"%byte)) as [->|Hm].
  { apply fmap_Some in Hv as (v' & Hv & _). eapply Hs; [by right|done]. }
  destruct (decide (b = "+"%byte)) as [->|Hp]; [eapply Hs; [by left|done]|].
  apply (Hd _ v). by destruct b.
Qed.

Lemma integer_text_read bits text z :
  parse_int bits (blank_trim text) = Some z → integer_text bits text = Ok (int_to_string z).
Proof.
  intros Hz. destruct (blank_trim_split text) as (w1 & w2 & E & H1 & H2).
  destruct (trim_around w1 _ w2 H1 H2 (parse_int_plain _ _ _ Hz)) as [Hu Ht].
  unfold integer_text, utf8. rewrite E, Hu. cbn [mbind result_bind]. by rewrite Ht, Hz.
Qed.

(** ** UUIDs *)

Lemma groups_hyphenated h : length h = 32 → groups [8; 4; 4; 4; 12] h = hyphenated h.
Proof.
  intros Hl. unfold hyphenated, slice. cbn [groups Nat.sub]. rewrite !drop_drop. done.
Qed.

Lemma hexdigit_char b :
  is_ascii_hexdigit b = true →
  plain_char b ∧ (b2z b =? 45)%Z = false ∧ char_hexdigit (b2z b) = true ∧
  lower_hex (to_ascii_lowercase b) = true ∧ b ≠ "{"%byte.
Proof.
  intros Hb. pose proof (collect_hex_result [b2z b] [to_ascii_lowercase b]) as Hl.
  assert ((48 ≤ b2z b ≤ 57 ∨ 65 ≤ b2z b ≤ 70 ∨ 97 ≤ b2z b ≤ 102)%Z) as Hr.
  { unfold is_ascii_hexdigit, is_ascii_digit, in_range in Hb. lia. }
  assert (char_hexdigit (b2z b) = true) as Hc.
  { unfold char_hexdigit. rewrite z2b_b2z, Hb. apply andb_true_iff. split; [lia|done]. }
  split_and!; [|lia|done| |intros ->; vm_compute in Hb; discriminate].
  - split; [lia|]. unfold is_whitespace. repeat (apply orb_false_iff; split); lia.
  - cbn [collect_hex] in Hl. rewrite Hc in Hl. destruct (b2z b =? 45)%Z eqn:E; [lia|].
    cbn in Hl. rewrite z2b_b2z in Hl. specialize (Hl eq_refl). by inversion Hl.
Qed.

(** What the server collects, the proxy collects. *)
Lemma quads_collected k l h :
  quads k l = Some h →
  collect_hex (b2z <$> l) = Some h ∧ length h = 4 * k ∧ Forall plain_char l ∧ head l ≠ Some "{"%byte.
Proof.
  revert l h. induction k as [|k IH]; intros l h; cbn [quads].
  { case_bool_decide as E; [|done]. intros [= <-]. by subst l. }
  destruct l as [|a [|b [|c [|d rest]]]]; try done.
  destruct (forallb is_ascii_hexdigit [a; b; c; d]) eqn:Eh; [|done].
  intros (h' & E & ->)%fmap_Some. cbn [forallb] in Eh. rewrite !andb_true_iff in Eh.
  destruct Eh as (Ha & Hb & Hc & Hd & _).
  apply hexdigit_char in Ha as (Pa & Na & Ca & _ & Ba), Hb as (Pb & Nb & Cb & _),
    Hc as (Pc & Nc & Cc & _), Hd as (Pd & Nd & Cd & _).
  assert (collect_hex (b2z <$> rest) = Some h' ∧ length h' = 4 * k ∧ Forall plain_char rest) as (Hr & Hl & Hp).
  { destruct k as [|k'], rest as [|x rest']; try (apply IH in E as (? & ? & ? & _); done).
    case_bool_decide as Ex; apply IH in E as (E & Hlen & Hpl & _); [subst x|done].
    split_and!; [by cbn; rewrite E|done|constructor; [by split; vm_compute|done]]. }
  split_and!; [|cbn; rewrite Hl; lia|by do 4 (constructor; [done|])|by intros [= ->]].
  cbn [fmap list_fmap collect_hex]. change (list_fmap byte Z b2z rest) with (b2z <$> rest).
  by rewrite Na, Nb, Nc, Nd, Ca, Cb, Cc, Cd, Hr, !z2b_b2z.
Qed.

Lemma collect_uuid k l h :
  quads k l = Some h → is_utf8 l = true ∧ trim l = l ∧ collect_hex (chars l) = Some h ∧ length h = 4 * k.
Proof.
  intros (Hc & Hl & Hp & _)%quads_collected.
  destruct (trim_around [] l [] ltac:(constructor) ltac:(constructor) Hp) as [Hu Ht].
  rewrite app_nil_r in Hu, Ht. split_and!; [done..| |done]. unfold chars. rewrite decode_ascii; [done|].
  eapply Forall_impl; [exact Hp|]. by intros ? [].
Qed.

Lemma strip_suffix_Some p l l' : strip_suffix p l = Some l' → l = l' ++ [p].
Proof.
  unfold strip_suffix. destruct (reverse l) as [|b r] eqn:E; [done|]. case_bool_decide as Hb; [|done].
  intros [= <-]. subst b. apply (f_equal reverse) in E.
  by rewrite reverse_involutive, reverse_cons in E.
Qed.

Lemma uuid_from_text_read text h :
  uuid_in text = Some h → uuid_from_text text = Ok (groups [8; 4; 4; 4; 12] h).
Proof.
  assert (∀ inner, quads 8 inner = Some h →
    (text = inner ∧ head inner ≠ Some "{"%byte ∨ ∃ rest, text = "{"%byte :: rest ∧
      strip_suffix "}"%byte rest = Some inner) →
    uuid_from_text text = Ok (groups [8; 4; 4; 4; 12] h)) as Hin.
  { intros inner Hq Ht. pose proof (collect_uuid _ _ _ Hq) as (Hu & Htr & Hc & Hl).
    apply quads_collected in Hq as (_ & _ & Hp & _). rewrite groups_hyphenated by done.
    unfold uuid_from_text, utf8. destruct Ht as [[-> Hh]|(rest & -> & Hs)].
    - rewrite Hu. cbn [mbind result_bind]. rewrite Htr.
      assert (match inner with
              | "{"%byte :: rest => default [] (strip_suffix "}"%byte rest)
              | _ => inner
              end = inner) as -> by (destruct inner as [|b inner]; [done|by destruct b]).
      rewrite Hc. cbn [ok_or mbind result_bind]. by rewrite bool_decide_eq_false_2 by lia.
    - pose proof (strip_suffix_Some _ _ _ Hs) as ->.
      destruct (trim_around [] ("{"%byte :: inner ++ [ "}"%byte ]) []) as [Hu' Ht']; [constructor..| |].
      { constructor; [by split; vm_compute|]. apply Forall_app. split; [done|].
        repeat constructor; by vm_compute. }
      rewrite app_nil_r in Hu', Ht'. cbn [app] in Hu', Ht'. rewrite Hu'. cbn [mbind result_bind].
      rewrite Ht', Hs. cbn [default from_option id]. rewrite Hc. cbn [ok_or mbind result_bind].
      by rewrite bool_decide_eq_false_2 by lia. }
  unfold uuid_in. destruct text as [|b text]; [done|]. destruct (decide (b = "{"%byte)) as [->|Hb].
  - intros (inner & Hs & Hq)%bind_Some. apply (Hin inner); [done|]. right. eauto.
  - intros Hq. apply (Hin (b :: text)); [by destruct b|]. left. split; [done|]. by intros [= ->].
Qed.

Lemma lower_hex_read b :
  lower_hex b = true →
  is_ascii_hexdigit b = true ∧ to_ascii_lowercase b = b ∧ bool_decide (b = "-"%byte) = false ∧ b ≠ "{"%byte.
Proof.
  intros Hb. destruct (lower_hex_char b Hb) as (_ & Hn & Hc & Hl & _ & Hbr).
  unfold char_hexdigit in Hc. rewrite z2b_b2z in Hc. apply andb_true_iff in Hc as [_ Hc].
  split_and!; [done..| |done]. apply bool_decide_eq_false_2. intros ->. by vm_compute in Hn.
Qed.

Ltac read_digits :=
  repeat match goal with
  | H : lower_hex ?b = true |- context [is_ascii_hexdigit ?b] => rewrite (proj1 (lower_hex_read b H))
  | H : lower_hex ?b = true |- context [to_ascii_lowercase ?b] =>
      rewrite (proj1 (proj2 (lower_hex_read b H)))
  | H : lower_hex ?b = true |- context [bool_decide (?b = _)] =>
      rewrite (proj1 (proj2 (proj2 (lower_hex_read b H))))
  | |- context [bool_decide (?b = ?b)] => rewrite (bool_decide_eq_true_2 (b = b)) by done
  end.

Lemma uuid_in_groups h :
  length h = 32 → Forall (λ b, lower_hex b = true) h → uuid_in (groups [8; 4; 4; 4; 12] h) = Some h.
Proof.
  intros Hl Hh. do 32 (destruct h as [|? h]; [done|]). destruct h; [|done].
  repeat (apply Forall_cons in Hh as [? Hh]). cbn [groups take drop app].
  match goal with
  | |- uuid_in (?b :: ?l) = _ =>
      assert (b ≠ "{"%byte) by (by apply lower_hex_read);
      assert (uuid_in (b :: l) = quads 8 (b :: l)) as -> by (by destruct b)
  end.
  do 8 (cbn [quads forallb]; read_digits; cbn [andb]).
  cbn [fmap list_fmap option_fmap option_map]. read_digits. reflexivity.
Qed.

(** ** The canonical key is the printed value *)

Section printed.
Context `{HexCrate, !HexLaws}.

Lemma server_reads_int ty bits w text :
  (ty, bits, w) ∈ int_types → server_reads ty text = KInt <$> parse_int bits (blank_trim text).
Proof.
  unfold int_types. intros Hty. repeat (apply elem_of_cons in Hty as [[= -> -> ->]|Hty]; [done|]).
  by apply elem_of_nil in Hty.
Qed.

Lemma server_receives_int ty bits w raw :
  (ty, bits, w) ∈ int_types →
  server_receives ty raw = if bool_decide (length raw = w) then Some (KInt (signed bits (be_val raw))) else None.
Proof.
  unfold int_types. intros Hty. repeat (apply elem_of_cons in Hty as [[= -> -> ->]|Hty]; [done|]).
  by apply elem_of_nil in Hty.
Qed.

(** The types other than the integers. *)
Lemma received_cases ty fmt raw v :
  received ty fmt raw = Some v →
  (∃ bits w, (ty, bits, w) ∈ int_types) ∨
  (ty = UUID ∧ (match fmt with
                | FText => uuid_in raw
                | FBinary => if bool_decide (length raw = 16) then Some (hex_digits raw) else None
                end = (match v with KUuid h => Some h | _ => None end)) ∧ ∃ h, v = KUuid h) ∨
  ((ty = TEXT ∨ ty = VARCHAR) ∧ v = KText raw ∧ is_utf8 raw = true).
Proof.
  unfold received, server_reads, server_receives, int_types. intros Hv.
  destruct (decide (ty = INT2)) as [->|H2]; [left; eexists _, _; by left|].
  destruct (decide (ty = INT4)) as [->|H4]; [left; eexists _, _; right; by left|].
  destruct (decide (ty = INT8)) as [->|H8]; [left; eexists _, _; right; right; by left|].
  right. rewrite !(bool_decide_eq_false_2 (ty = INT2)), !(bool_decide_eq_false_2 (ty = INT4)),
    !(bool_decide_eq_false_2 (ty = INT8)) in Hv by done. cbn zeta in Hv.
  destruct (decide (ty = UUID)) as [->|Hu].
  - left. split; [done|]. rewrite bool_decide_eq_true_2 in Hv by done. destruct fmt; cbn in Hv.
    + apply fmap_Some in Hv as (h & Hh & ->). eauto.
    + case_bool_decide; [|done]. injection Hv as <-. eauto.
  - right. rewrite (bool_decide_eq_false_2 (ty = UUID)) in Hv by done.
    destruct fmt; (case_bool_decide as Ht; [|done]; destruct (is_utf8 raw); [|done]; by injection Hv as <-).
Qed.

(** Every spelling the server reads, in either format, has for its canonical key
    the text the server prints the value as. *)
Lemma canonical_is_printed ty fmt raw v :
  received ty fmt raw = Some v → canonical ty fmt (Some raw) = Ok {| row_key_bytes := server_prints v |}.
Proof.
  intros Hv. destruct (received_cases _ _ _ _ Hv) as [(bits & w & Hty)|[(-> & Hr & h & ->)|(Ht & -> & Hu)]].
  - rewrite (canonical_int _ _ _ _ _ Hty). destruct fmt; cbn [received] in Hv.
    + rewrite (server_reads_int _ _ _ _ Hty) in Hv. apply fmap_Some in Hv as (z & Hz & ->).
      by rewrite (integer_text_read _ _ _ Hz).
    + rewrite (server_receives_int _ _ _ _ Hty) in Hv. case_bool_decide as Hl; [|done].
      injection Hv as <-. unfold fixed. by rewrite bool_decide_eq_true_2.
  - unfold canonical. cbn [ok_or mbind result_bind]. destruct fmt.
    + by rewrite (uuid_from_text_read _ _ Hr).
    + case_bool_decide as Hl; [|done]. injection Hr as <-.
      cbn -[fixed groups hyphenated]. rewrite (proj2 (fixed_Ok 16 raw raw)) by done.
      cbn -[groups hyphenated].
      unfold hex_digits. rewrite <- hex_encode_digits, groups_hyphenated; [done|].
      by rewrite hex_encode_length, Hl.
  - unfold canonical. destruct Ht as [-> | ->]; cbn -[utf8]; destruct fmt; unfold utf8; by rewrite Hu.
Qed.

(** A printed value is read back. *)
Lemma server_reads_printed ty v : key_of_type ty v → server_reads ty (server_prints v) = Some v.
Proof.
  destruct v as [z|h|t]; cbn [key_of_type server_prints].
  - intros (bits & w & Hty & Hz). rewrite (server_reads_int _ _ _ _ Hty).
    assert (blank_trim (int_to_string z) = int_to_string z) as ->; [|by rewrite parse_int_to_string].
    assert (Forall (λ b, blank b = false) (int_to_string z)) as Hb.
    { eapply Forall_impl; [apply int_to_string_plain|]. intros b [_ Hw]. cbn in Hw.
      destruct (blank b) eqn:E; [|done]. apply blank_ascii in E as [_ E]. congruence. }
    unfold blank_trim. rewrite (drop_while_id _ (int_to_string z)), drop_while_id, reverse_involutive; [done|..];
      intros x Hx%head_Some_elem_of; rewrite ?elem_of_reverse in Hx; by apply (proj1 (Forall_forall _ _) Hb).
  - intros (-> & Hl & Hh). unfold server_reads. cbn -[uuid_in groups]. by rewrite uuid_in_groups.
  - intros [[-> | ->] Hu]; unfold server_reads; cbn -[is_utf8]; by rewrite Hu.
Qed.

(** A stored key a spelling equals is printed as the spelling's canonical key. *)
Lemma key_equal_canonical ty v fmt raw :
  key_of_type ty v → received ty fmt raw = server_reads ty (server_prints v) →
  canonical ty fmt (Some raw) = Ok {| row_key_bytes := server_prints v |}.
Proof.
  intros Hv E. rewrite server_reads_printed in E by done. by apply canonical_is_printed.
Qed.

Lemma key_equal_true ty a b :
  key_equal ty a b = true → server_reads ty a = server_reads ty b ∧ is_Some (server_reads ty b).
Proof.
  unfold key_equal. destruct (server_reads ty a), (server_reads ty b); try done. intros H'. case_bool.
  subst. eauto.
Qed.

End printed.
