(* ===== verification/Fields.v ===== *)
(** * Masks, identifiers and blind indexes

    [crates/core/src/mask.rs], [ident.rs] and [blind_index.rs]: what a client
    sees of a masked column, the name a column goes by, and the search token
    stored ahead of a searchable column's envelope. *)

From S2P Require Import Prelude Utf8 Crates Pgwire Errors Envelope.

(** ** Masking *)

Module Mask.

Local Open Scope Z_scope.

Record MaskSpec := {
  (** [usize] counts of characters left visible at each end. *)
  keep_first : Z;
  keep_last : Z;
  (** The replacement [char]. *)
  mask_with : Z;
}.

(** [usize] arithmetic of a release build. *)
Definition usize (z : Z) : Z := z mod 2 ^ 64.

Definition mask_char (self : MaskSpec) (count : Z) (i : nat) (c : Z) : Z :=
  if (Z.of_nat i <? keep_first self) || (usize (count - keep_last self) <=? Z.of_nat i)
  then c else mask_with self.

Definition apply (self : MaskSpec) (value : bytes) : bytes :=
  match decode_utf8 value with
  | Some cs =>
      let count := Z.of_nat (length cs) in
      if count <=? usize (keep_first self + keep_last self)
      then encode_utf8 (replicate (length cs) (mask_with self))
      else encode_utf8 (imap (mask_char self count) cs)
  | None => encode_utf8 (replicate (length value) (mask_with self))
  end.

(** A spec the type admits whose two counts do not overflow when added. *)
Record spec_ok (self : MaskSpec) : Prop := {
  first_nonneg : 0 ≤ keep_first self;
  last_nonneg : 0 ≤ keep_last self;
  sum_fits : keep_first self + keep_last self < 2 ^ 64;
  mask_scalar : valid_scalar (mask_with self);
}.

(** Masking hides the middle. The masked text of a UTF-8 value has as many
    characters; each is the mask or the original one, and an original one stands
    only in the first [keep_first] or last [keep_last] places of a value strictly
    longer than both together, so no value is ever shown whole. *)
Theorem mask_hides_middle self value cs :
  spec_ok self → decode_utf8 value = Some cs → Z.of_nat (length cs) < 2 ^ 64 →
  ∃ out, decode_utf8 (apply self value) = Some out ∧ length out = length cs ∧
  ∀ i c, out !! i = Some c →
    c = mask_with self ∨
    (cs !! i = Some c ∧ keep_first self + keep_last self < Z.of_nat (length cs) ∧
     (Z.of_nat i < keep_first self ∨
      Z.of_nat (length cs) - keep_last self ≤ Z.of_nat i)).
Proof.
  intros [H1 H2 H3 H4] Hd Hl. unfold apply. rewrite Hd. unfold usize at 1.
  rewrite Z.mod_small by lia.
  destruct (Z.leb_spec (Z.of_nat (length cs)) (keep_first self + keep_last self)).
  - exists (replicate (length cs) (mask_with self)). split_and!.
    + apply decode_encode_utf8, Forall_replicate. done.
    + apply length_replicate.
    + intros i c [? _]%lookup_replicate. by left.
  - exists (imap (mask_char self (Z.of_nat (length cs))) cs). split_and!.
    + apply decode_encode_utf8, Forall_lookup. intros i c.
      rewrite list_lookup_imap. intros (c' & Hc & ->)%fmap_Some.
      unfold mask_char. destruct (_ || _); [|done].
      eapply Forall_lookup_1; [by apply (encode_decode_utf8 value)|done].
    + apply length_imap.
    + intros i c. rewrite list_lookup_imap. intros (c' & Hc & ->)%fmap_Some.
      unfold mask_char. destruct (_ || _) eqn:E; [|by left]. right.
      split_and!; [done|done|]. unfold usize in E. rewrite Z.mod_small in E by lia. lia.
Qed.

(** A value that is not UTF-8 shows nothing but its length. *)
Lemma mask_binary self value :
  decode_utf8 value = None →
  apply self value = encode_utf8 (replicate (length value) (mask_with self)).
Proof. intros Hd. unfold apply. by rewrite Hd. Qed.

Definition card_mask : MaskSpec := {| keep_first := 0; keep_last := 4; mask_with := 42 |}.

Lemma mask_hides_middle_witness :
  apply card_mask b#"4111111111111111" = b#"************1111" ∧
  ∃ out, decode_utf8 (apply card_mask b#"4111111111111111") = Some out ∧ length out = 16%nat.
Proof.
  split; [vm_compute; reflexivity|].
  edestruct (mask_hides_middle card_mask b#"4111111111111111") as (out & H1 & H2 & _).
  - split; vm_compute; (done || by left).
  - vm_compute. reflexivity.
  - vm_compute. reflexivity.
  - exists out. split; [exact H1|exact H2].
Defined.

(** The sum that overflows: two counts of [2 ^ 63] keep every character. *)
Lemma mask_overflow_reveals :
  apply {| keep_first := 2 ^ 63; keep_last := 2 ^ 63; mask_with := 42 |} b#"4111111111111111"
    = b#"4111111111111111".
Proof. vm_compute. reflexivity. Qed.

End Mask.

(** ** Identifiers *)

Module Ident.

Definition MAX_IDENTIFIER_BYTES : nat := 63.

(** [while !value.is_char_boundary(end) { end -= 1 }]; index 0 is a boundary. *)
Fixpoint clip_end (value : bytes) (e : nat) : nat :=
  match e with
  | O => O
  | S e' => if is_char_boundary value e then e else clip_end value e'
  end.

Definition truncate_identifier (value : bytes) : bytes :=
  if bool_decide (length value ≤ MAX_IDENTIFIER_BYTES) then value
  else take (clip_end value MAX_IDENTIFIER_BYTES) value.

Definition fold_identifier (value : bytes) (quoted : bool) : bytes :=
  let clipped := truncate_identifier value in
  if quoted || negb (existsb is_ascii_uppercase clipped) then clipped
  else to_ascii_lowercase <$> clipped.

Lemma clip_end_le value e : clip_end value e ≤ e.
Proof. induction e as [|e IH]; cbn [clip_end]; [done|].
  destruct (is_char_boundary value (S e)); lia. Qed.

Lemma clip_end_boundary value e : is_char_boundary value (clip_end value e) = true.
Proof.
  induction e as [|e IH]; [done|]. cbn [clip_end].
  destruct (is_char_boundary value (S e)) eqn:E; done.
Qed.

(** No boundary lies between the cut and the limit. *)
Lemma clip_end_max value e i :
  clip_end value e < i ≤ e → is_char_boundary value i = false.
Proof.
  induction e as [|e IH]; cbn [clip_end]; [lia|].
  destruct (is_char_boundary value (S e)) eqn:E; [lia|].
  intros Hi. destruct (decide (i = S e)) as [->|]; [done|]. apply IH. lia.
Qed.

Lemma truncate_length value : length (truncate_identifier value) ≤ MAX_IDENTIFIER_BYTES.
Proof.
  unfold truncate_identifier. case_bool_decide; [done|].
  rewrite length_take. pose proof (clip_end_le value MAX_IDENTIFIER_BYTES). lia.
Qed.

Lemma truncate_short value :
  length value ≤ MAX_IDENTIFIER_BYTES → truncate_identifier value = value.
Proof. intros. unfold truncate_identifier. by rewrite bool_decide_eq_true_2. Qed.

Lemma truncate_utf8 value : is_utf8 value = true → is_utf8 (truncate_identifier value) = true.
Proof.
  intros Hu. unfold truncate_identifier. case_bool_decide; [done|].
  apply is_utf8_spec in Hu.
  destruct (take_boundary_utf8 _ _ (clip_end value MAX_IDENTIFIER_BYTES) Hu) as (cs & Hd & _).
  - apply clip_end_boundary.
  - pose proof (clip_end_le value MAX_IDENTIFIER_BYTES). lia.
  - unfold is_utf8. apply bool_decide_eq_true. by rewrite Hd.
Qed.

Lemma fold_as_map value quoted :
  fold_identifier value quoted =
  if quoted then truncate_identifier value
  else to_ascii_lowercase <$> truncate_identifier value.
Proof.
  unfold fold_identifier. destruct quoted; [done|]. simpl.
  destruct (existsb _ _) eqn:E; [done|]. simpl. symmetry.
  rewrite <- (list_fmap_id (truncate_identifier value)) at 2. apply list_fmap_ext.
  intros i b Hb. unfold to_ascii_lowercase.
  destruct (is_ascii_uppercase b) eqn:Eb; [|done]. exfalso.
  apply not_true_iff_false in E. apply E, existsb_exists. exists b. split; [|done].
  apply list_elem_of_In. by eapply list_elem_of_lookup_2.
Qed.

Lemma length_fold value quoted : length (fold_identifier value quoted) ≤ MAX_IDENTIFIER_BYTES.
Proof.
  rewrite fold_as_map. destruct quoted; rewrite ?length_fmap; apply truncate_length.
Qed.

(** A name written in a policy and the same name written in a query compare
    equal after one fold each: folding yields valid UTF-8 of at most 63 bytes,
    folding a folded name changes nothing, quoting matters only to case, and the
    cut is a character boundary with none between it and the limit. *)
Theorem fold_identifier_canonical value quoted :
  is_utf8 value = true →
  let folded := fold_identifier value quoted in
  is_utf8 folded = true ∧ length folded ≤ MAX_IDENTIFIER_BYTES ∧
  fold_identifier folded quoted = folded ∧ fold_identifier folded true = folded ∧
  ∃ n, fold_identifier value true = take n value ∧ is_char_boundary value n = true ∧
    ∀ i, n < i ≤ MAX_IDENTIFIER_BYTES → i ≤ length value → is_char_boundary value i = false.
Proof.
  intros Hu folded. pose proof (length_fold value quoted) as Hl. split_and!.
  - unfold folded. rewrite fold_as_map. pose proof (truncate_utf8 _ Hu).
    destruct quoted; [done|by apply lowercase_utf8].
  - done.
  - unfold folded at 1. rewrite (fold_as_map (fold_identifier _ _)).
    rewrite truncate_short by done. destruct quoted; [done|].
    unfold folded. rewrite fold_as_map, <- list_fmap_compose. apply list_fmap_ext.
    intros i b _. apply to_ascii_lowercase_idemp.
  - rewrite fold_as_map. by apply truncate_short.
  - rewrite fold_as_map. unfold truncate_identifier. case_bool_decide as Hs.
    + exists (length value). rewrite take_ge by done. split_and!; [done| |lia].
      unfold is_char_boundary. destruct (length value) eqn:E; [done|].
      rewrite lookup_ge_None_2 by lia. by apply bool_decide_eq_true.
    + exists (clip_end value MAX_IDENTIFIER_BYTES).
      split_and!; [done|apply clip_end_boundary|].
      intros i Hi _. by eapply clip_end_max.
Qed.

Lemma fold_identifier_witness :
  fold_identifier b#"CardNumber" false = b#"cardnumber" ∧
  fold_identifier b#"cardnumber" false = b#"cardnumber".
Proof.
  split; [vm_compute; reflexivity|].
  apply (fold_identifier_canonical b#"CardNumber" false). vm_compute. reflexivity.
Defined.

End Ident.

(** ** Blind indexes *)

Module BlindIndex.

Definition BLIND_INDEX_LEN : nat := 32.

Definition compute `{HmacCrate} (index_key plaintext : bytes) : bytes :=
  hmac_sha256 index_key plaintext.

Definition prepend (index enveloped : bytes) : bytes := index ++ enveloped.

Definition split (stored : bytes) : option (bytes * bytes) :=
  '(index, rest) ← split_at_checked BLIND_INDEX_LEN stored;
  if is_enveloped rest then Some (index, rest) else None.

Lemma split_prepend index e :
  length index = BLIND_INDEX_LEN → is_enveloped e = true → split (prepend index e) = Some (index, e).
Proof.
  intros Hl He. unfold split, prepend. rewrite <- Hl, split_at_checked_app. simpl.
  by rewrite He.
Qed.

Lemma split_Some stored index e :
  split stored = Some (index, e) →
  stored = prepend index e ∧ length index = BLIND_INDEX_LEN ∧ is_enveloped e = true.
Proof.
  unfold split. intros ([i r] & [-> Hl]%split_at_checked_Some & H)%bind_Some.
  destruct (is_enveloped r) eqn:E; [|done]. by injection H as <- <-.
Qed.

End BlindIndex.
