(* ===== verification/Transform.v ===== *)
(** * Field transforms ([crates/core/src/transform.rs])

    One column's protection: envelope encryption (with an optional blind index),
    FF1 format-preserving encryption, HMAC tokenization. The trait is a class;
    its state is the process-wide cipher cache and the transform's own [OnceLock],
    which holds the deterministic key the transform resolves on first use. *)

From S2P Require Import Prelude Utf8 Crates Pgwire Errors Envelope Fields.
Import BlindIndex.

Inductive WireForm := Bytea | WText.

#[global] Instance WireForm_eq_dec : EqDecision WireForm.
Proof. solve_decision. Defined.

Record TState := {
  ts_ciphers : Ciphers;
  ts_key : option bytes;
}.

(** A computation on the shared cache alone. *)
Definition on_ciphers {A} (m : M Ciphers Core.Error A) : M TState Core.Error A :=
  λ s, let '(r, c) := m (ts_ciphers s) in (r, {| ts_ciphers := c; ts_key := ts_key s |}).

(** [trait FieldTransform]. The nonce is the one an encryption draws. *)
Class FieldTransform (T : Type) := {
  seal : T → KeySource → bytes → bytes → option RowKey → M TState Core.Error bytes;
  open : T → KeySource → bytes → option RowKey → M TState Core.Error (option bytes);
  wire : T → WireForm;
  binds_row : T → bool;
  search_index : T → KeySource → bytes → M TState Core.Error (option bytes);
  supports_search : T → bool;
}.

(** The resolved key: cached once a lookup succeeds, failures are not cached. *)
Definition once_key (ks : KeySource) (name : bytes) : M TState Core.Error bytes :=
  cached ← gets ts_key;
  match cached with
  | Some key => mret key
  | None =>
      key ← lift (ks_index_key ks name);
      runs (λ s,
        let key := default key (ts_key s) in
        (key, {| ts_ciphers := ts_ciphers s; ts_key := Some key |}))
  end.

(** ** Envelope encryption *)

Record EncryptTransform := {
  et_context : CellContext;
  et_index_key_name : option bytes;
  et_strict : bool;
}.

Definition encrypt_new (context : CellContext) (index_key : option bytes) : EncryptTransform :=
  {| et_context := context; et_index_key_name := index_key; et_strict := false |}.

Definition strict_row_binding (self : EncryptTransform) (strict : bool) : EncryptTransform :=
  {| et_context := et_context self; et_index_key_name := et_index_key_name self;
     et_strict := strict |}.

Definition searchable (self : EncryptTransform) : bool :=
  bool_decide (is_Some (et_index_key_name self)).

Section encrypt.
Context `{HexCrate, AeadCrate, HmacCrate}.

Definition index_key (self : EncryptTransform) (ks : KeySource)
    : M TState Core.Error (option bytes) :=
  match et_index_key_name self with
  | None => mret None
  | Some name => key ← once_key ks name; mret (Some key)
  end.

Definition blind_index (self : EncryptTransform) (ks : KeySource) (plaintext : bytes)
    : M TState Core.Error (option bytes) :=
  key ← index_key self ks;
  mret ((λ key, compute key plaintext) <$> key).

Definition encrypt_seal (self : EncryptTransform) (ks : KeySource) (nonce plaintext : bytes)
    (row : option RowKey) : M TState Core.Error bytes :=
  let binding := {| b_context := et_context self; b_row := row; b_strict := false |} in
  sealed ← on_ciphers (ciphers_seal ks nonce binding plaintext);
  index ← blind_index self ks plaintext;
  mret match index with Some index => prepend index sealed | None => sealed end.

(** Which of the stored forms a value carries, if any. *)
Definition stored_envelope (stored : bytes) : option bytes :=
  match split stored with
  | Some (_, enveloped) => Some enveloped
  | None => if is_enveloped stored then Some stored else None
  end.

Definition encrypt_open (self : EncryptTransform) (ks : KeySource) (stored : bytes)
    (row : option RowKey) : M TState Core.Error (option bytes) :=
  match stored_envelope stored with
  | None => mret None
  | Some enveloped =>
      let binding := {| b_context := et_context self; b_row := row; b_strict := et_strict self |} in
      value ← on_ciphers (ciphers_open ks binding enveloped);
      mret (Some value)
  end.

#[export] Instance encrypt_transform : FieldTransform EncryptTransform := {|
  seal := encrypt_seal;
  open := encrypt_open;
  wire _ := Bytea;
  binds_row _ := true;
  search_index self ks plaintext := blind_index self ks plaintext;
  supports_search self := bool_decide (is_Some (et_index_key_name self));
|}.

End encrypt.

(** ** Format-preserving encryption *)

Definition MIN_FPE_DIGITS : nat := 6.

Record FpeTransform := { fpe_key_name : bytes; fpe_detokenize : bool }.

(** The indices of the ASCII digits of [data], counted from [i]. *)
Fixpoint digit_positions (i : nat) (data : bytes) : list nat :=
  match data with
  | [] => []
  | b :: data =>
      if is_ascii_digit b then i :: digit_positions (S i) data
      else digit_positions (S i) data
  end.

Definition digits_at (data : bytes) (positions : list nat) : list Z :=
  omap (λ i, (λ b, (b2z b - 48)%Z) <$> data !! i) positions.

(** [result[position] = b'0' + digit as u8] over the zipped positions. *)
Definition write_digits (data : bytes) (positions : list nat) (out : list Z) : bytes :=
  foldl (λ result '(position, digit), <[position := z2b (48 + digit)]> result) data
    (zip positions out).

Section fpe.
Context `{Ff1Crate}.

Definition transform_digits (self : FpeTransform) (ks : KeySource) (data : bytes)
    (decrypt : bool) : M TState Core.Error (option bytes) :=
  let positions := digit_positions 0 data in
  if bool_decide (length positions < MIN_FPE_DIGITS) then mret None
  else
    let digits := digits_at data positions in
    key ← once_key ks (fpe_key_name self);
    out ← lift (ok_or Core.Fpe
      (if decrypt then ff1_decrypt key digits else ff1_encrypt key digits));
    mret (Some (write_digits data positions out)).

Definition fpe_seal (self : FpeTransform) (ks : KeySource) (nonce plaintext : bytes)
    (row : option RowKey) : M TState Core.Error bytes :=
  r ← transform_digits self ks plaintext false;
  lift (ok_or Core.FpeDomain r).

Definition fpe_open (self : FpeTransform) (ks : KeySource) (stored : bytes)
    (row : option RowKey) : M TState Core.Error (option bytes) :=
  if fpe_detokenize self then transform_digits self ks stored true else mret None.

#[export] Instance fpe_transform : FieldTransform FpeTransform := {|
  seal := fpe_seal;
  open := fpe_open;
  wire _ := WText;
  binds_row _ := false;
  search_index _ _ _ := mret None;
  supports_search _ := false;
|}.

End fpe.

(** ** Tokenization *)

Record TokenTransform := { token_key_name : bytes }.

Section token.
Context `{HexCrate, HmacCrate}.

Definition token_seal (self : TokenTransform) (ks : KeySource) (nonce plaintext : bytes)
    (row : option RowKey) : M TState Core.Error bytes :=
  key ← once_key ks (token_key_name self);
  mret (hex_encode (compute key plaintext)).

#[export] Instance token_transform : FieldTransform TokenTransform := {|
  seal := token_seal;
  open _ _ _ _ := mret None;
  wire _ := WText;
  binds_row _ := false;
  search_index _ _ _ := mret None;
  supports_search _ := false;
|}.

End token.

(** ** [Arc<dyn FieldTransform>] *)

Inductive DynTransform :=
  | DynEncrypt (t : EncryptTransform)
  | DynFpe (t : FpeTransform)
  | DynToken (t : TokenTransform).

#[export] Instance dyn_transform `{HexCrate, AeadCrate, HmacCrate, Ff1Crate} :
    FieldTransform DynTransform := {|
  seal self := match self with DynEncrypt t => seal t | DynFpe t => seal t | DynToken t => seal t end;
  open self := match self with DynEncrypt t => open t | DynFpe t => open t | DynToken t => open t end;
  wire self := match self with DynEncrypt t => wire t | DynFpe t => wire t | DynToken t => wire t end;
  binds_row self :=
    match self with
    | DynEncrypt t => binds_row t | DynFpe t => binds_row t | DynToken t => binds_row t
    end;
  search_index self :=
    match self with
    | DynEncrypt t => search_index t | DynFpe t => search_index t | DynToken t => search_index t
    end;
  supports_search self :=
    match self with
    | DynEncrypt t => supports_search t | DynFpe t => supports_search t
    | DynToken t => supports_search t
    end;
|}.

(** ** Resolved keys *)

(** [I] gives the deterministic key of every name; a source may fail to answer but
    does not answer differently. *)
Definition index_ok (I : bytes → option bytes) (ks : KeySource) : Prop :=
  ∀ name k, ks_index_key ks name = Ok k → I name = Some k.

(** The invariant of a transform whose deterministic key is called [name]. *)
Definition once_ok (I : bytes → option bytes) (name : bytes) (s : TState) : Prop :=
  ∀ k, ts_key s = Some k → I name = Some k.

Section once.
Context (I : bytes → option bytes).

Lemma once_key_spec ks name s :
  index_ok I ks → once_ok I name s →
  once_ok I name (once_key ks name s).2 ∧
  ts_ciphers (once_key ks name s).2 = ts_ciphers s ∧
  ∀ k, (once_key ks name s).1 = Ok k → I name = Some k.
Proof.
  intros Hks Hs. unfold once_key, mbind, M_bind, gets, lift, runs.
  destruct (ts_key s) as [k|] eqn:E.
  - simpl. split_and!; [done..|]. intros ? [= <-]. by apply Hs.
  - destruct (ks_index_key ks name) as [k|] eqn:Ek; simpl; [|done].
    rewrite E. simpl. apply Hks in Ek.
    split_and!; [by intros ? [= <-]|done|by intros ? [= <-]].
Qed.

Lemma once_key_Ok ks name s k s' :
  index_ok I ks → once_ok I name s → once_key ks name s = (Ok k, s') →
  I name = Some k ∧ once_ok I name s' ∧ ts_ciphers s' = ts_ciphers s.
Proof.
  intros Hks Hs E. destruct (once_key_spec ks name s Hks Hs) as (H1 & H2 & H3).
  rewrite E in *. auto.
Qed.

End once.

(** ** Envelope encryption round trip *)

Section encrypt_theorems.
Context `{HexCrate, AeadCrate, HmacCrate, !AeadLaws, !HmacLaws}.
Context (K I : bytes → option bytes).

(** The state of an encrypted column. *)
Record encrypt_ok (self : EncryptTransform) (s : TState) : Prop := {
  encrypt_ciphers : ciphers_ok K (ts_ciphers s);
  encrypt_key name : et_index_key_name self = Some name → once_ok I name s;
}.

Lemma on_ciphers_Ok {A} (m : M Ciphers Core.Error A) s a s' :
  on_ciphers m s = (Ok a, s') ↔
  ∃ c, m (ts_ciphers s) = (Ok a, c) ∧ s' = {| ts_ciphers := c; ts_key := ts_key s |}.
Proof. unfold on_ciphers. destruct (m (ts_ciphers s)). naive_solver. Qed.

Lemma blind_index_Ok self ks p s r s' :
  index_ok I ks → (∀ name, et_index_key_name self = Some name → once_ok I name s) →
  blind_index self ks p s = (Ok r, s') →
  match et_index_key_name self with
  | None => r = None
  | Some name => ∃ k, I name = Some k ∧ r = Some (compute k p)
  end.
Proof.
  intros Hks Hs. unfold blind_index, index_key. destruct (et_index_key_name self) as [name|].
  - intros E. apply M_bind_Ok in E as (o & s1 & E & [= <- <-]).
    apply M_bind_Ok in E as (k & s2 & E & [= <- <-]).
    apply (once_key_Ok I) in E as (HI & _); [|done|by apply Hs]. by exists k.
  - by intros [= <- <-].
Qed.

(** What a successful write stores: the blind index of the plaintext when the
    column is searchable, and then the envelope. *)
Lemma encrypt_seal_Ok self ks nonce p row s stored s' :
  index_ok I ks → encrypt_ok self s →
  encrypt_seal self ks nonce p row s = (Ok stored, s') →
  ∃ e c, ciphers_seal ks nonce
      {| b_context := et_context self; b_row := row; b_strict := false |} p (ts_ciphers s)
      = (Ok e, c) ∧
    match et_index_key_name self with
    | None => stored = e
    | Some name => ∃ k, I name = Some k ∧ stored = prepend (compute k p) e
    end.
Proof.
  intros Hks [Hc Hk] E. unfold encrypt_seal in E.
  apply M_bind_Ok in E as (e & s1 & (c & Hseal & ->)%on_ciphers_Ok & E).
  apply M_bind_Ok in E as (r & s2 & Hb & [= <- <-]).
  exists e, c. split; [done|].
  apply blind_index_Ok in Hb; [|done|exact Hk].
  destruct (et_index_key_name self) as [name|]; [|by subst r].
  destruct Hb as (k & HI & ->). by exists k.
Qed.

Lemma encrypt_roundtrip self ks ks' nonce p row s stored s' s2 :
  source_ok K ks → source_ok K ks' → index_ok I ks → encrypt_ok self s → encrypt_ok self s2 →
  length nonce = NONCE_LEN →
  seal self ks nonce p row s = (Ok stored, s') →
  is_ok (e ← ok_or Core.Malformed (stored_envelope stored); id ← key_id e; ks_key ks' id) = true →
  searchable self = true ∨ split stored = None →
  (open self ks' stored row s2).1 = Ok (Some p).
Proof.
  intros Hks Hks' Hi Hs Hs2 Hn Hseal Hknown Hsplit.
  destruct (encrypt_seal_Ok self ks nonce p row s stored s' Hi Hs Hseal)
    as (e & c & He & Hst).
  assert (is_enveloped e = true) as Hen.
  { destruct (ciphers_seal_Ok K _ _ _ _ _ _ _ Hks (encrypt_ciphers _ _ Hs) He)
      as (id & cc & Hl & _ & Hb). by eapply sealed_bytes_enveloped. }
  assert (stored_envelope stored = Some e) as Hse.
  { unfold stored_envelope. unfold searchable in Hsplit.
    destruct (et_index_key_name self) as [name|].
    - destruct Hst as (k & _ & ->). by rewrite split_prepend by (done || apply hmac_length).
    - destruct Hsplit as [?|Hsp]; [done|]. by rewrite Hsp, Hst, Hen. }
  rewrite Hse in Hknown. simpl in Hknown. simpl. unfold encrypt_open. rewrite Hse.
  destruct (ciphers_seal_open K ks ks' nonce _
    {| b_context := et_context self; b_row := row; b_strict := et_strict self |} p _ c e
    (ts_ciphers s2) Hks Hks' (encrypt_ciphers _ _ Hs) (encrypt_ciphers _ _ Hs2) Hn
    eq_refl eq_refl He Hknown) as [Ho _].
  unfold mbind, M_bind, on_ciphers.
  destruct (ciphers_open ks' _ e (ts_ciphers s2)) as [r c2]. simpl in Ho. by subst r.
Qed.

(** A protected column gives back what was written: the stored form of an
    encrypted value, indexed or not, opens to the plaintext under the same row,
    from any later state of the caches, and whether or not the column is strict.
    For a column that is not searchable the 32 bytes of header must not be
    followed by an envelope magic (see [misread_as_indexed]). *)
Theorem encrypt_transform_roundtrip self ks ks' nonce p row s stored s' s2 :
  source_ok K ks → source_ok K ks' → index_ok I ks → encrypt_ok self s → encrypt_ok self s2 →
  length nonce = NONCE_LEN →
  seal self ks nonce p row s = (Ok stored, s') →
  is_ok (e ← ok_or Core.Malformed (stored_envelope stored); id ← key_id e; ks_key ks' id) = true →
  searchable self = true ∨ split stored = None →
  (open self ks' stored row s2).1 = Ok (Some p).
Proof. apply encrypt_roundtrip. Qed.

(** Equality search finds what was written: the token [search_index] computes
    for a plaintext, at any later time, is the 32-byte prefix under which every
    value sealed from that plaintext is stored, whatever its row. *)
Theorem search_matches_stored self ks ks' nonce p row s stored s' s2 token s2' :
  index_ok I ks → index_ok I ks' → encrypt_ok self s → encrypt_ok self s2 →
  seal self ks nonce p row s = (Ok stored, s') →
  search_index self ks' p s2 = (Ok (Some token), s2') →
  take BLIND_INDEX_LEN stored = token ∧ supports_search self = true.
Proof.
  intros Hi Hi' Hs Hs2 Hseal Hsearch.
  destruct (encrypt_seal_Ok self ks nonce p row s stored s' Hi Hs Hseal) as (e & c & _ & Hst).
  pose proof (blind_index_Ok self ks' p s2 _ s2' Hi' (encrypt_key _ _ Hs2) Hsearch) as Hb.
  destruct (et_index_key_name self) as [name|] eqn:En; [|done].
  destruct Hst as (k & HI & ->), Hb as (k' & HI' & [= ->]).
  assert (k' = k) as -> by congruence. split.
  - unfold prepend. apply take_app_length'. symmetry. apply hmac_length.
  - simpl. by rewrite En.
Qed.

(** Bytes as long as a header are split exactly when what follows its header is
    itself an envelope. *)
Lemma split_envelope e : HEADER_LEN ≤ length e →
  split e = if is_enveloped (drop HEADER_LEN e) then Some (take HEADER_LEN e, drop HEADER_LEN e) else None.
Proof.
  intros Hl. change HEADER_LEN with BLIND_INDEX_LEN in *. unfold split.
  rewrite <- (take_drop BLIND_INDEX_LEN e) at 1.
  rewrite <- (length_take_le e BLIND_INDEX_LEN) at 1 by done. by rewrite split_at_checked_app.
Qed.

(** C40: a value of a column that is not searchable is misread exactly when it is
    longer than 16 bytes and its ciphertext happens to begin with an envelope magic:
    the 32-byte header of its envelope is then taken for a blind index and the key id
    is read out of the ciphertext, so that the read asks the caches and the key source
    for a key that never was, and fails with the source's error when neither knows
    it; although the value was stored as every other and its own key is there. *)
Theorem misread_as_indexed self ks nonce p row s e s' :
  source_ok K ks → encrypt_ok self s → length nonce = NONCE_LEN →
  et_index_key_name self = None → index_ok I ks →
  seal self ks nonce p row s = (Ok e, s') →
  (is_Some (split e) ↔ 16 < length p ∧
     ∃ magic, magic ∈ [MAGIC; MAGIC_V1; MAGIC_V3] ∧ starts_with (drop HEADER_LEN e) magic = true) ∧
  (is_Some (split e) → ∀ ks' s2 err,
     let id := header_id (drop HEADER_LEN e) in
     cs_by_id (ts_ciphers s2) !! id = None → ks_key ks' id = Err err →
     (open self ks' e row s2).1 = Err err).
Proof.
  intros Hks Hs Hn Hname Hi Hseal.
  destruct (encrypt_seal_Ok self ks nonce p row s e s' Hi Hs Hseal) as (en & c & He & Hst).
  rewrite Hname in Hst. subst en.
  destruct (ciphers_seal_Ok K _ _ _ _ _ _ _ Hks (encrypt_ciphers _ _ Hs) He) as (id & cc & Hl & _ & Hb).
  destruct (sealed_bytes_enveloped _ _ _ _ _ _ Hl Hn Hb) as (_ & _ & Hlen).
  rewrite split_envelope by (rewrite Hlen; change HEADER_LEN with 32; lia). split.
  - assert (is_Some (if is_enveloped (drop HEADER_LEN e) then Some (take HEADER_LEN e, drop HEADER_LEN e) else None)
      ↔ is_enveloped (drop HEADER_LEN e) = true) as ->.
    { destruct (is_enveloped _); split; eauto; try done; by intros [? [=]]. }
    unfold is_enveloped. rewrite andb_true_iff, !orb_true_iff, bool_decide_eq_true, length_drop, Hlen.
    change HEADER_LEN with 32 at 1 2. split.
    + intros [Hp Hm]. split; [lia|]. destruct Hm as [[Hm|Hm]|Hm]; eexists; (split; [|exact Hm]); set_solver.
    + intros (Hp & magic & Hin & Hm). split; [lia|].
      repeat (apply elem_of_cons in Hin as [->|Hin]; [by auto|]). by apply elem_of_nil in Hin.
  - destruct (is_enveloped (drop HEADER_LEN e)) eqn:Hmis; [|by intros [? [=]]].
    intros _ ks' s2 err id' Hnone Herr. cbn. unfold encrypt_open, stored_envelope.
    rewrite split_envelope, Hmis by (rewrite Hlen; change HEADER_LEN with 32; lia).
    unfold ciphers_open, key_id. rewrite Hmis.
    unfold mbind, M_bind, on_ciphers, lift, for_id, mbind, M_bind, gets, lift.
    subst id'. by rewrite Hnone, Herr.
Qed.

End encrypt_theorems.

(** ** Format-preserving encryption *)

(** Overwriting the digits in place, as a walk over the value. *)
Fixpoint put_digits (data : bytes) (out : list Z) : bytes :=
  match data with
  | [] => []
  | b :: data =>
      if is_ascii_digit b then
        match out with
        | [] => b :: put_digits data []
        | d :: out => z2b (48 + d) :: put_digits data out
        end
      else b :: put_digits data out
  end.

Definition digits_of (data : bytes) : list Z :=
  (λ b, (b2z b - 48)%Z) <$> filter (λ b, is_ascii_digit b = true) data.

Lemma put_digits_nil data : put_digits data [] = data.
Proof. induction data as [|b data IH]; simpl; [done|]. destruct (is_ascii_digit b); by rewrite IH. Qed.

Lemma write_digits_put pre data out :
  write_digits (pre ++ data) (digit_positions (length pre) data) out = pre ++ put_digits data out.
Proof.
  unfold write_digits. revert pre out. induction data as [|b data IH]; intros pre out; simpl.
  { done. }
  assert (∀ c out, foldl (λ result '(position, digit), <[position := z2b (48 + digit)]> result)
      (pre ++ c :: data) (zip (digit_positions (S (length pre)) data) out)
      = pre ++ c :: put_digits data out) as Hstep.
  { intros c out'. specialize (IH (pre ++ [c]) out').
    rewrite length_app, Nat.add_1_r, <- app_assoc in IH. simpl in IH.
    rewrite IH, <- app_assoc. done. }
  destruct (is_ascii_digit b); [|apply Hstep].
  destruct out as [|d out]; simpl.
  - by rewrite put_digits_nil.
  - rewrite insert_app_r_alt, Nat.sub_diag by done. apply Hstep.
Qed.

Lemma digits_at_of pre data :
  digits_at (pre ++ data) (digit_positions (length pre) data) = digits_of data.
Proof.
  unfold digits_at, digits_of. revert pre. induction data as [|b data IH]; intros pre; [done|].
  specialize (IH (pre ++ [b])). rewrite length_app, Nat.add_1_r, <- app_assoc in IH.
  simpl in IH. cbn [digit_positions]. rewrite filter_cons.
  destruct (is_ascii_digit b) eqn:E.
  - rewrite decide_True by done. cbn [omap list_omap].
    rewrite list_lookup_middle by done. simpl. by rewrite IH.
  - by rewrite decide_False.
Qed.

Lemma length_positions i data :
  length (digit_positions i data) = length (digits_of data).
Proof.
  unfold digits_of. rewrite length_fmap.
  revert i. induction data as [|b data IH]; intros i; [done|]. cbn [digit_positions].
  rewrite filter_cons. destruct (is_ascii_digit b) eqn:E.
  - rewrite decide_True by done. simpl. by rewrite IH.
  - by rewrite decide_False.
Qed.

Lemma digits_of_numerals data : numerals (digits_of data).
Proof.
  unfold numerals, digits_of. apply Forall_fmap, Forall_forall.
  intros b [Hb _]%list_elem_of_filter. unfold is_ascii_digit in Hb.
  apply in_range_spec in Hb. simpl. lia.
Qed.

Lemma numeral_digit d : (0 ≤ d < 10)%Z → is_ascii_digit (z2b (48 + d)) = true ∧ b2z (z2b (48 + d)) = (48 + d)%Z.
Proof.
  intros Hd. assert (b2z (z2b (48 + d)) = 48 + d)%Z as E by (apply b2z_z2b_small; lia).
  split; [|done]. apply in_range_spec. lia.
Qed.

(** The shape of a value: its non-digits, with every digit blanked. *)
Definition shape (data : bytes) : list (option byte) :=
  (λ b, if is_ascii_digit b then None else Some b) <$> data.

Lemma shape_cons b data :
  shape (b :: data) = (if is_ascii_digit b then None else Some b) :: shape data.
Proof. done. Qed.

Lemma digits_of_cons b data :
  digits_of (b :: data) =
  if is_ascii_digit b then (b2z b - 48)%Z :: digits_of data else digits_of data.
Proof.
  unfold digits_of. rewrite filter_cons. destruct (is_ascii_digit b) eqn:E.
  - by rewrite decide_True.
  - by rewrite decide_False.
Qed.

Lemma put_digits_spec data out :
  length out = length (digits_of data) → numerals out →
  shape (put_digits data out) = shape data ∧ digits_of (put_digits data out) = out.
Proof.
  revert out. induction data as [|b data IH]; intros out Hl Hn.
  { by destruct out. }
  rewrite digits_of_cons in Hl. cbn [put_digits]. rewrite (shape_cons b data).
  destruct (is_ascii_digit b) eqn:E.
  - destruct out as [|d out]; [done|]. injection Hl as Hl.
    inversion Hn as [|? ? Hd Hn']; subst. destruct (numeral_digit d Hd) as [Hdig Hval].
    destruct (IH out) as [IH1 IH2]; [done..|].
    rewrite shape_cons, digits_of_cons, Hdig, IH1, IH2, Hval.
    split; [done|]. f_equal. lia.
  - destruct (IH out) as [IH1 IH2]; [done..|].
    by rewrite shape_cons, digits_of_cons, E, IH1, IH2.
Qed.

Lemma put_digits_back data out :
  length out = length (digits_of data) → numerals out →
  put_digits (put_digits data out) (digits_of data) = data.
Proof.
  revert out. induction data as [|b data IH]; intros out Hl Hn; [done|].
  rewrite digits_of_cons in *. cbn [put_digits]. destruct (is_ascii_digit b) eqn:E.
  - destruct out as [|d out]; [done|]. injection Hl as Hl.
    inversion Hn as [|? ? Hd Hn']; subst. destruct (numeral_digit d Hd) as [Hdig _].
    cbn [put_digits]. rewrite Hdig. f_equal; [|by apply IH].
    rewrite <- (z2b_b2z b) at 2. f_equal. lia.
  - cbn [put_digits]. rewrite E. f_equal. by apply IH.
Qed.

Section fpe_theorems.
Context `{Ff1Crate, !Ff1Laws}.
Context (I : bytes → option bytes).

Lemma transform_digits_eq self ks data decrypt s :
  transform_digits self ks data decrypt s =
  (if bool_decide (length (digits_of data) < MIN_FPE_DIGITS) then mret None
   else
     key ← once_key ks (fpe_key_name self);
     out ← lift (ok_or Core.Fpe
       (if decrypt then ff1_decrypt key (digits_of data) else ff1_encrypt key (digits_of data)));
     mret (Some (put_digits data out))) s.
Proof.
  unfold transform_digits. rewrite length_positions.
  pose proof (digits_at_of [] data) as Hd. simpl in Hd. rewrite Hd.
  case_bool_decide; [done|]. unfold mbind, M_bind.
  destruct (once_key ks (fpe_key_name self) s) as [[k|] s1]; [|done].
  unfold lift, ok_or.
  destruct (if decrypt then _ else _) as [out|]; [|done].
  pose proof (write_digits_put [] data out) as Hw. simpl in Hw. by rewrite Hw.
Qed.

Lemma fpe_seal_Ok self ks nonce p row s stored s' :
  index_ok I ks → once_ok I (fpe_key_name self) s →
  fpe_seal self ks nonce p row s = (Ok stored, s') →
  ∃ k out, I (fpe_key_name self) = Some k ∧ MIN_FPE_DIGITS ≤ length (digits_of p) ∧
    ff1_encrypt k (digits_of p) = Some out ∧ stored = put_digits p out.
Proof.
  intros Hi Hs E. apply M_bind_Ok in E as (r & s1 & E & Hr).
  injection Hr as Hr ->. apply ok_or_Ok in Hr as ->.
  rewrite transform_digits_eq in E. case_bool_decide as Hlen; [done|].
  apply M_bind_Ok in E as (k & s2 & Hk & E).
  apply M_bind_Ok in E as (out & s3 & Ho & [= <- <-]).
  injection Ho as Ho <-. apply ok_or_Ok in Ho.
  apply (once_key_Ok I) in Hk as (HI & _); [|done..].
  exists k, out. split_and!; [done|lia|done..].
Qed.

(** Format-preserving encryption keeps the format: the stored value has the
    same length, the same non-digit bytes in the same places, and decimal digits
    exactly where the plaintext had them; and it is the same in every row. *)
Theorem fpe_preserves_format self ks nonce p row s stored s' :
  index_ok I ks → once_ok I (fpe_key_name self) s →
  seal self ks nonce p row s = (Ok stored, s') →
  length stored = length p ∧ shape stored = shape p ∧
  ∀ nonce' row', seal self ks nonce' p row' s = (Ok stored, s').
Proof.
  intros Hi Hs E. destruct (fpe_seal_Ok self ks nonce p row s stored s' Hi Hs E) as (k & out & _ & _ & Ho & ->).
  destruct (ff1_shape _ _ _ Ho) as [Hl Hn].
  destruct (put_digits_spec p out Hl Hn) as [Hsh _]. split_and!; [|done|done].
  apply (f_equal length) in Hsh. unfold shape in Hsh. by rewrite !length_fmap in Hsh.
Qed.

Lemma fpe_opens self ks ks' nonce p row row' s stored s' s2 :
  index_ok I ks → index_ok I ks' → once_ok I (fpe_key_name self) s →
  once_ok I (fpe_key_name self) s2 → fpe_detokenize self = true →
  is_ok (once_key ks' (fpe_key_name self) s2).1 = true →
  seal self ks nonce p row s = (Ok stored, s') →
  (open self ks' stored row' s2).1 = Ok (Some p).
Proof.
  intros Hi Hi' Hs Hs2 Hdet Hkey E.
  destruct (fpe_seal_Ok self ks nonce p row s stored s' Hi Hs E) as (k & out & HI & Hlen & Ho & ->).
  destruct (ff1_shape _ _ _ Ho) as [Hl Hn].
  destruct (put_digits_spec p out Hl Hn) as [_ Hd].
  simpl. unfold fpe_open. rewrite Hdet, transform_digits_eq, Hd.
  rewrite bool_decide_eq_false_2 by lia.
  destruct (once_key ks' _ s2) as [[k'|] s3] eqn:Ek; [|done].
  apply (once_key_Ok I) in Ek as Ek2; [|done..]. destruct Ek2 as (HI' & _).
  assert (k' = k) as -> by congruence.
  unfold mbind, M_bind. rewrite Ek. unfold lift.
  rewrite (ff1_decrypt_encrypt _ _ _ (digits_of_numerals p) Ho). simpl.
  by rewrite put_digits_back.
Qed.

(** A detokenizing column reverses format-preserving encryption: what was
    stored opens to the plaintext, from any later state of the key cache. *)
Theorem fpe_roundtrip self ks ks' nonce p row row' s stored s' s2 :
  index_ok I ks → index_ok I ks' → once_ok I (fpe_key_name self) s →
  once_ok I (fpe_key_name self) s2 → fpe_detokenize self = true →
  is_ok (once_key ks' (fpe_key_name self) s2).1 = true →
  seal self ks nonce p row s = (Ok stored, s') →
  (open self ks' stored row' s2).1 = Ok (Some p).
Proof. apply fpe_opens. Qed.

(** A value with fewer than six digits is refused by the write path before the
    key is even looked up, and left alone by the read path; otherwise sealing
    fails only when the key source does. *)
Theorem fpe_domain self ks nonce p row s :
  if bool_decide (length (filter (λ b, is_ascii_digit b = true) p) < MIN_FPE_DIGITS) then
    seal self ks nonce p row s = (Err Core.FpeDomain, s) ∧
    open self ks p row s = (Ok None, s)
  else
    (Z.of_nat (length p) < 2 ^ 32)%Z →
    is_ok (seal self ks nonce p row s).1 = is_ok (once_key ks (fpe_key_name self) s).1.
Proof.
  assert (length (filter (λ b, is_ascii_digit b = true) p) = length (digits_of p)) as ->.
  { unfold digits_of. by rewrite length_fmap. }
  simpl. unfold fpe_seal, fpe_open.
  case_bool_decide as Hlen.
  - split.
    + unfold mbind, M_bind. rewrite transform_digits_eq, bool_decide_eq_true_2 by done. done.
    + destruct (fpe_detokenize self); [|done].
      by rewrite transform_digits_eq, bool_decide_eq_true_2.
  - intros Hp. unfold mbind at 1, M_bind at 1.
    rewrite transform_digits_eq, bool_decide_eq_false_2 by done.
    unfold mbind, M_bind. destruct (once_key ks _ s) as [[k|] s1]; [|done].
    destruct (ff1_total k (digits_of p)) as [out Ho]; [apply digits_of_numerals| | |].
    + unfold MIN_FPE_DIGITS in Hlen. lia.
    + unfold digits_of. rewrite length_fmap. pose proof (length_filter (λ b, is_ascii_digit b = true) p). lia.
    + unfold lift. by rewrite Ho.
Qed.

End fpe_theorems.

(** A token is 64 lowercase hexadecimal digits, the same for equal plaintexts
    in every row, and reading it never gives the plaintext back. *)
Theorem token_shape `{HexCrate, HmacCrate, !HexLaws, !HmacLaws} self ks nonce p row s stored s' :
  seal self ks nonce p row s = (Ok stored, s') →
  length stored = 64 ∧ Forall (λ b, lower_hex b = true) stored ∧
  (∀ nonce' row', (seal self ks nonce' p row' s').1 = Ok stored) ∧
  open self ks stored row s' = (Ok None, s').
Proof.
  simpl. unfold token_seal. intros E. apply M_bind_Ok in E as (k & s1 & Hk & [= <- <-]).
  split_and!; [|apply hex_encode_lower| |done].
  - rewrite hex_encode_length. unfold compute. by rewrite hmac_length.
  - intros _ _.
    assert (ts_key s1 = Some k) as Hc.
    { unfold once_key, mbind, M_bind, gets, lift, runs in Hk.
      destruct (ts_key s) eqn:E; [by injection Hk as -> <-|].
      destruct (ks_index_key ks _); [|done]. rewrite E in Hk. by injection Hk as -> <-. }
    unfold once_key, mbind, M_bind, gets. by rewrite Hc.
Qed.

(** ** Witnesses *)

Module TransformExample.
Export EnvelopeExample.

Definition index_ring (name : bytes) : option bytes := Some (replicate 32 x0b).

Lemma source1_index : index_ok index_ring source1.
Proof. by intros name k [= <-]. Qed.

Definition start : TState := {| ts_ciphers := fresh; ts_key := None |}.

Definition ssn_indexed : EncryptTransform := encrypt_new ssn (Some b#"ssn-index").
Definition ssn_plain : EncryptTransform := encrypt_new ssn None.

Lemma start_ok self : encrypt_ok ring index_ring self start.
Proof. split; [apply fresh_ok|done]. Qed.

Definition stored_ssn : bytes :=
  value [] (seal ssn_indexed source1 nonce1 b#"078-05-1120" (Some row42) start).1.

Lemma encrypt_transform_roundtrip_witness :
  (open (strict_row_binding ssn_indexed true) source1 stored_ssn (Some row42) start).1
    = Ok (Some b#"078-05-1120").
Proof.
  eapply (encrypt_transform_roundtrip ring index_ring (strict_row_binding ssn_indexed true)
    source1 source1 nonce1 _ (Some row42) start stored_ssn _ start
    source1_ok source1_ok source1_index (start_ok _) (start_ok _) eq_refl).
  - vm_compute. reflexivity.
  - vm_compute. reflexivity.
  - left. reflexivity.
Defined.

Lemma search_matches_stored_witness :
  take 32 stored_ssn = compute (replicate 32 x0b) b#"078-05-1120" ∧
  supports_search ssn_indexed = true.
Proof.
  eapply (search_matches_stored ring index_ring ssn_indexed source1 source1 nonce1
    b#"078-05-1120" (Some row42) start stored_ssn _ start _ _
    source1_index source1_index (start_ok _) (start_ok _)).
  - vm_compute. reflexivity.
  - vm_compute. reflexivity.
Defined.

(** The toy cipher leaves the plaintext readable, so a plaintext that begins with
    the magic stands for a ciphertext that happens to. *)
Definition unlucky : bytes := b#"DBS2 and the rest of a value of forty-four bytes".

Definition unlucky_stored : bytes := value [] (seal ssn_plain source1 nonce1 unlucky None start).1.

Lemma misread_as_indexed_witness :
  is_Some (split unlucky_stored) ∧
  (open ssn_plain source1 unlucky_stored None start).1
    = Err (Core.UnknownKey (hex_encode b#" and the rest of")).
Proof.
  destruct (misread_as_indexed ring index_ring ssn_plain source1 nonce1 unlucky None start
    unlucky_stored (seal ssn_plain source1 nonce1 unlucky None start).2
    source1_ok (start_ok _) eq_refl eq_refl source1_index) as [Hiff Hmis].
  - vm_compute. reflexivity.
  - assert (is_Some (split unlucky_stored)) as Hs.
    { apply Hiff. split; [vm_compute; lia|]. exists MAGIC. split; [by left|vm_compute; reflexivity]. }
    split; [exact Hs|]. apply (Hmis Hs); vm_compute; reflexivity.
Defined.

Definition pan : FpeTransform := {| fpe_key_name := b#"pan"; fpe_detokenize := true |}.

Definition stored_pan : bytes := value [] (seal pan source1 [] b#"4111-1111" None start).1.

Lemma fpe_preserves_format_witness :
  length stored_pan = 9 ∧ shape stored_pan = shape b#"4111-1111".
Proof.
  edestruct (fpe_preserves_format index_ring pan source1 [] b#"4111-1111" None start
    stored_pan (seal pan source1 [] b#"4111-1111" None start).2) as (H1 & H2 & _).
  - exact source1_index.
  - intros k [=].
  - vm_compute. reflexivity.
  - split; [exact H1|exact H2].
Defined.

Lemma fpe_roundtrip_witness : (open pan source1 stored_pan None start).1 = Ok (Some b#"4111-1111").
Proof.
  eapply (fpe_roundtrip index_ring pan source1 source1 [] b#"4111-1111" None None start
    stored_pan _ start source1_index source1_index); try (intros k [=]); vm_compute; reflexivity.
Defined.

Definition email : TokenTransform := {| token_key_name := b#"email" |}.

Lemma token_shape_witness :
  length (value [] (seal email source1 [] b#"a@b" None start).1) = 64.
Proof.
  eapply (token_shape email source1 [] b#"a@b" None start).
  vm_compute. reflexivity.
Defined.

End TransformExample.
