(* ===== verification/Policy.v ===== *)
(** * The column policy and the library's front door

    [crates/core/src/policy.rs]: which columns are protected and how, what is
    refused at startup, and the transform wired for each column.
    [crates/core/src/protector.rs]: seal, open, search and mask by column name. *)

From S2P Require Import Prelude Utf8 Crates Pgwire Errors Envelope Fields Transform.
Import Mask Ident.

(** ** Policies *)

Definition DEFAULT_SCHEMA : bytes := b#"public".

Definition dot : byte := "."%byte.

(** [str::split_once('.')]: at the first dot. *)
Fixpoint split_once (name : bytes) : option (bytes * bytes) :=
  match name with
  | [] => None
  | b :: rest =>
      if bool_decide (b = dot) then Some ([], rest)
      else '(l, r) ← split_once rest; Some (b :: l, r)
  end.

Definition split_table (name : bytes) : bytes * bytes :=
  match split_once name with
  | Some (schema, table) => (schema, table)
  | None => (DEFAULT_SCHEMA, name)
  end.

Inductive TransformKind := KEncrypt | KFpe | KToken | KNone.

#[global] Instance TransformKind_eq_dec : EqDecision TransformKind.
Proof. solve_decision. Defined.

Record ColumnPolicy := {
  cp_table : bytes;
  cp_column : bytes;
  cp_transform : TransformKind;
  cp_searchable : bool;
  cp_detokenize : bool;
  cp_mask : option MaskSpec;
}.

Definition column_new (table column : bytes) : ColumnPolicy := {|
  cp_table := table; cp_column := column; cp_transform := KEncrypt;
  cp_searchable := false; cp_detokenize := true; cp_mask := None;
|}.

(** [format!("{schema}.{table}.{column}")]. *)
Definition dotted (schema table column : bytes) : bytes :=
  schema ++ [dot] ++ table ++ [dot] ++ column.

Definition column_table (c : ColumnPolicy) : bytes * bytes := split_table (cp_table c).

Definition qualified_name (c : ColumnPolicy) : bytes :=
  let '(schema, table) := column_table c in dotted schema table (cp_column c).

Record TablePolicy := {
  tp_table : bytes;
  tp_row_key : bytes;
  tp_strict : bool;
}.

Definition table_table (t : TablePolicy) : bytes * bytes := split_table (tp_table t).

Record Policy := {
  p_columns : list ColumnPolicy;
  p_tables : list TablePolicy;
}.

Definition problem (why : PolicyProblem) : Core.Error := Core.Policy why.

Definition refuse_if (b : bool) (why : PolicyProblem) : result Core.Error () :=
  if b then Err (problem why) else Ok tt.

(** The warning about a name that folds differently is only logged. *)
Definition check_identifiers (name schema table column : bytes) : result Core.Error () :=
  let too_long kind ident :=
    refuse_if (bool_decide (MAX_IDENTIFIER_BYTES < length ident))
      (IdentifierTooLong name kind (length ident)) in
  _ ← too_long b#"schema" schema;
  _ ← too_long b#"table" table;
  too_long b#"column" column.

Fixpoint validate_columns (seen : gset bytes) (columns : list ColumnPolicy)
    : result Core.Error () :=
  match columns with
  | [] => Ok tt
  | column :: columns =>
      let '(schema, table) := column_table column in
      let name := qualified_name column in
      _ ← refuse_if (bool_decide (name ∈ seen)) (DuplicateColumn name);
      _ ← refuse_if (cp_searchable column && bool_decide (cp_transform column ≠ KEncrypt))
            (SearchableNotEncrypt name);
      _ ← refuse_if (negb (cp_detokenize column) && bool_decide (cp_transform column ≠ KFpe))
            (DetokenizeNotFpe name);
      _ ← refuse_if (bool_decide (cp_transform column = KNone) && bool_decide (cp_mask column = None))
            (NoneWithoutMask name);
      _ ← check_identifiers name schema table (cp_column column);
      validate_columns ({[name]} ∪ seen) columns
  end.

Definition table_name (t : TablePolicy) : bytes :=
  let '(schema, table) := table_table t in schema ++ [dot] ++ table.

Definition columns_of (columns : list ColumnPolicy) (t : TablePolicy) : list ColumnPolicy :=
  filter (λ c, column_table c = table_table t) columns.

Fixpoint validate_row_keys (columns : list ColumnPolicy) (seen : gset bytes)
    (tables : list TablePolicy) : result Core.Error () :=
  match tables with
  | [] => Ok tt
  | entry :: tables =>
      let '(schema, table) := table_table entry in
      let qualified := table_name entry in
      _ ← refuse_if (bool_decide (qualified ∈ seen)) (DuplicateTable qualified);
      _ ← check_identifiers qualified schema table (tp_row_key entry);
      let bound := columns_of columns entry in
      _ ← refuse_if (bool_decide (bound = [])) (NothingToBind qualified (tp_row_key entry));
      _ ← refuse_if (negb (existsb (λ c, bool_decide (cp_transform c = KEncrypt)) bound))
            (NothingEncrypted qualified (tp_row_key entry));
      _ ← refuse_if
            (existsb (λ c, bool_decide (cp_column c = tp_row_key entry)
                           && bool_decide (cp_transform c ≠ KNone)) bound)
            (RowKeyTransformed qualified (tp_row_key entry));
      validate_row_keys columns ({[qualified]} ∪ seen) tables
  end.

Definition validate (self : Policy) : result Core.Error () :=
  _ ← validate_columns ∅ (p_columns self);
  validate_row_keys (p_columns self) ∅ (p_tables self).

Record RowKeyDecl := { rd_schema : bytes; rd_table : bytes; rd_column : bytes }.

Definition row_keys (self : Policy) : list RowKeyDecl :=
  (λ entry, let '(schema, table) := table_table entry in
    {| rd_schema := schema; rd_table := table; rd_column := tp_row_key entry |})
  <$> p_tables self.

(** [Policy::strict_row_binding]: the first entry of the table decides. *)
Definition table_strict (self : Policy) (schema table : bytes) : bool :=
  match list_find (λ entry, table_table entry = (schema, table)) (p_tables self) with
  | Some (_, entry) => tp_strict entry
  | None => false
  end.

Record ProtectedColumn := {
  pc_schema : bytes;
  pc_table : bytes;
  pc_column : bytes;
  pc_transform : option DynTransform;
  pc_searchable : bool;
  pc_readable : bool;
  pc_mask : option MaskSpec;
}.

Definition pc_name (c : ProtectedColumn) : bytes := dotted (pc_schema c) (pc_table c) (pc_column c).

Definition build_column (self : Policy) (column : ColumnPolicy) : ProtectedColumn :=
  let '(schema, table) := column_table column in
  let key_name := qualified_name column in
  let '(transform, readable) :=
    match cp_transform column with
    | KEncrypt =>
        let index_key := if cp_searchable column then Some key_name else None in
        let t := encrypt_new {| cell_name := key_name |} index_key in
        (Some (DynEncrypt (strict_row_binding t (table_strict self schema table))), true)
    | KFpe =>
        (Some (DynFpe {| fpe_key_name := key_name; fpe_detokenize := cp_detokenize column |}),
         cp_detokenize column)
    | KToken => (Some (DynToken {| token_key_name := key_name |}), false)
    | KNone => (None, false)
    end in
  {| pc_schema := schema; pc_table := table; pc_column := cp_column column;
     pc_transform := transform; pc_searchable := cp_searchable column;
     pc_readable := readable; pc_mask := cp_mask column |}.

Definition build (self : Policy) : list ProtectedColumn := build_column self <$> p_columns self.

(** ** The protector *)

Record Column := { col_spec : ProtectedColumn; col_row_bound : bool }.

(** [Protector::columns]: a [HashMap] filled in policy order. *)
Definition Protector : Type := gmap bytes Column.

(** What the transforms keep between calls: the shared cipher cache, and the
    [OnceLock] of each column. *)
Record PState := {
  ps_ciphers : Ciphers;
  ps_keys : gmap bytes bytes;
}.

Definition protector_new (policy : Policy) : result Core.Error (Protector * PState) :=
  _ ← validate policy;
  let row_bound := table_table <$> p_tables policy in
  let entry spec :=
    (pc_name spec,
     {| col_spec := spec;
        col_row_bound := bool_decide ((pc_schema spec, pc_table spec) ∈ row_bound) |}) in
  mret (foldl (λ m '(name, c), <[name := c]> m) ∅ (entry <$> build policy),
        {| ps_ciphers := ciphers_new; ps_keys := ∅ |}).

Inductive Opened := Value (bs : bytes) | Unprotected (bs : bytes).

Definition into_bytes (o : Opened) : bytes := match o with Value bs | Unprotected bs => bs end.

Definition into_value (o : Opened) (column : bytes) : result Core.Error bytes :=
  match o with
  | Value bs => Ok bs
  | Unprotected _ => Err (Core.Unprotected column)
  end.

Definition dots (name : bytes) : nat := length (filter (λ b, b = dot) name).

Definition lookup_name (name : bytes) : bytes :=
  if bool_decide (dots name = 1) then
    match split_once name with
    | Some (table, column) => let '(schema, table) := split_table table in dotted schema table column
    | None => name
    end
  else name.

Definition find_column (self : Protector) (name : bytes) : result Core.Error Column :=
  ok_or (Core.UnknownColumn name) (self !! lookup_name name).

Definition check_row (self : Column) (name : bytes) (row : option RowKey) : result Core.Error () :=
  match col_row_bound self, row with
  | true, None => Err (Core.RowKeyRequired name)
  | false, Some _ => Err (Core.RowKeyNotDeclared name)
  | _, _ => Ok tt
  end.

(** A call on one column's transform. *)
Definition on_transform {A} (name : bytes) (m : M TState Core.Error A) : M PState Core.Error A :=
  λ s,
    let '(r, t) := m {| ts_ciphers := ps_ciphers s; ts_key := ps_keys s !! name |} in
    (r, {| ps_ciphers := ts_ciphers t;
           ps_keys := match ts_key t with
                      | Some k => <[name := k]> (ps_keys s)
                      | None => ps_keys s
                      end |}).

Section protector.
Context `{HexCrate, AeadCrate, HmacCrate, Ff1Crate}.

Definition protector_seal (self : Protector) (ks : KeySource) (nonce column plaintext : bytes)
    (row : option RowKey) : M PState Core.Error bytes :=
  entry ← lift (find_column self column);
  _ ← lift (check_row entry column row);
  match pc_transform (col_spec entry) with
  | Some t => on_transform (pc_name (col_spec entry)) (seal t ks nonce plaintext row)
  | None => mret plaintext
  end.

Definition protector_open (self : Protector) (ks : KeySource) (column stored : bytes)
    (row : option RowKey) : M PState Core.Error Opened :=
  entry ← lift (find_column self column);
  _ ← lift (check_row entry column row);
  match pc_transform (col_spec entry) with
  | None => mret (Unprotected stored)
  | Some t =>
      if negb (pc_readable (col_spec entry)) then lift (Err (Core.NotReadable column))
      else
        r ← on_transform (pc_name (col_spec entry)) (open t ks stored row);
        mret (match r with Some value => Value value | None => Unprotected stored end)
  end.

Definition search_term (self : Protector) (ks : KeySource) (column plaintext : bytes)
    : M PState Core.Error (option bytes) :=
  entry ← lift (find_column self column);
  match pc_transform (col_spec entry) with
  | Some t => on_transform (pc_name (col_spec entry)) (search_index t ks plaintext)
  | None => mret None
  end.

End protector.

(** [Protector::mask], [wire] and [binds_row]. *)
Definition protector_mask (self : Protector) (column value : bytes) : result Core.Error bytes :=
  entry ← find_column self column;
  mret (match pc_mask (col_spec entry) with Some mask => apply mask value | None => value end).

Definition protector_wire `{HexCrate, AeadCrate, HmacCrate, Ff1Crate} (self : Protector)
    (name : bytes) : result Core.Error (option WireForm) :=
  entry ← find_column self name;
  mret (wire <$> pc_transform (col_spec entry)).

Definition protector_binds_row (self : Protector) (name : bytes) : result Core.Error bool :=
  entry ← find_column self name;
  mret (col_row_bound entry).

(** ** What validation guarantees *)

Lemma refuse_if_Ok b why : refuse_if b why = Ok tt ↔ b = false.
Proof. by destruct b. Qed.

Lemma bind_unit_Ok {E A} (r : result E ()) (k : result E A) a :
  (_ ← r; k) = Ok a ↔ r = Ok tt ∧ k = Ok a.
Proof. destruct r as [[]|]; simpl; naive_solver. Qed.

Definition identifiers_fit (schema table column : bytes) : Prop :=
  length schema ≤ MAX_IDENTIFIER_BYTES ∧ length table ≤ MAX_IDENTIFIER_BYTES ∧
  length column ≤ MAX_IDENTIFIER_BYTES.

Lemma check_identifiers_Ok name schema table column :
  check_identifiers name schema table column = Ok tt ↔ identifiers_fit schema table column.
Proof.
  unfold check_identifiers, identifiers_fit.
  rewrite !bind_unit_Ok, !refuse_if_Ok, !bool_decide_eq_false. lia.
Qed.

(** A column entry that does what it says. *)
Record column_ok (c : ColumnPolicy) : Prop := {
  ok_searchable : cp_searchable c = true → cp_transform c = KEncrypt;
  ok_detokenize : cp_detokenize c = false → cp_transform c = KFpe;
  ok_none : cp_transform c = KNone → is_Some (cp_mask c);
  ok_idents : identifiers_fit (column_table c).1 (column_table c).2 (cp_column c);
}.

(** A row key that binds something and can be read back. *)
Record table_ok (columns : list ColumnPolicy) (t : TablePolicy) : Prop := {
  ok_table_idents : identifiers_fit (table_table t).1 (table_table t).2 (tp_row_key t);
  ok_binds : ∃ c, c ∈ columns ∧ column_table c = table_table t ∧ cp_transform c = KEncrypt;
  ok_readable c : c ∈ columns → column_table c = table_table t →
    cp_column c = tp_row_key t → cp_transform c = KNone;
}.

Lemma validate_columns_Ok seen columns :
  validate_columns seen columns = Ok tt ↔
  NoDup (qualified_name <$> columns) ∧
  Forall (λ c, qualified_name c ∉ seen) columns ∧ Forall column_ok columns.
Proof.
  revert seen. induction columns as [|c columns IH]; intros seen.
  { split; [|done]. intros _. split_and!; constructor. }
  cbn [validate_columns]. destruct (column_table c) as [schema table] eqn:Et.
  rewrite !bind_unit_Ok, IH, !refuse_if_Ok, !andb_false_iff, !bool_decide_eq_false,
    negb_false_iff, check_identifiers_Ok, fmap_cons, NoDup_cons, !Forall_cons.
  assert (column_ok c ↔
    (cp_searchable c = false ∨ ¬ cp_transform c ≠ KEncrypt) ∧
    (cp_detokenize c = true ∨ ¬ cp_transform c ≠ KFpe) ∧
    (cp_transform c ≠ KNone ∨ cp_mask c ≠ None) ∧
    identifiers_fit schema table (cp_column c)) as ->.
  { split.
    - intros [H1 H2 H3 H4]. rewrite Et in H4. split_and!; [| | |done].
      + destruct (cp_searchable c); [right; intros []; auto|by left].
      + destruct (cp_detokenize c); [by left|right; intros []; auto].
      + destruct (decide (cp_transform c = KNone)) as [E|]; [right|by left].
        destruct (H3 E) as [m ->]. done.
    - intros (H1 & H2 & H3 & H4). split; rewrite ?Et; [| | |done].
      + intros E. destruct H1 as [|H1]; [congruence|]. by apply dec_stable in H1.
      + intros E. destruct H2 as [|H2]; [congruence|]. by apply dec_stable in H2.
      + intros E. destruct H3 as [|H3]; [done|]. by destruct (cp_mask c). }
  split.
  - intros (Hn & H1 & H2 & H3 & H4 & Hd & Hf & Hall). split_and!; try done.
    + intros (c' & E & Hc')%list_elem_of_fmap.
      eapply Forall_forall in Hf; [|done]. simpl in Hf. rewrite <- E in Hf. set_solver.
    + eapply Forall_impl; [exact Hf|]. set_solver.
  - intros ((Hn & Hd) & (Hs & Hf) & (H1 & H2 & H3 & H4) & Hall). split_and!; try done.
    apply Forall_forall. intros c' Hc'. eapply Forall_forall in Hf; [|done].
    intros [E|?]%elem_of_union; [|done]. apply Hn.
    apply elem_of_singleton in E. rewrite <- E. by apply list_elem_of_fmap_2.
Qed.

Lemma existsb_spec {A} (f : A → bool) l : existsb f l = true ↔ ∃ x, x ∈ l ∧ f x = true.
Proof. rewrite existsb_exists. by setoid_rewrite list_elem_of_In. Qed.

Lemma validate_row_keys_Ok columns seen tables :
  validate_row_keys columns seen tables = Ok tt ↔
  NoDup (table_name <$> tables) ∧
  Forall (λ t, table_name t ∉ seen) tables ∧ Forall (table_ok columns) tables.
Proof.
  revert seen. induction tables as [|t tables IH]; intros seen.
  { split; [|done]. intros _. split_and!; constructor. }
  cbn [validate_row_keys]. destruct (table_table t) as [schema table] eqn:Et.
  rewrite !bind_unit_Ok, IH, !refuse_if_Ok, !bool_decide_eq_false, negb_false_iff,
    check_identifiers_Ok, fmap_cons, NoDup_cons, !Forall_cons.
  assert (table_ok columns t ↔
    identifiers_fit schema table (tp_row_key t) ∧ columns_of columns t ≠ [] ∧
    existsb (λ c, bool_decide (cp_transform c = KEncrypt)) (columns_of columns t) = true ∧
    existsb (λ c, bool_decide (cp_column c = tp_row_key t) && bool_decide (cp_transform c ≠ KNone))
      (columns_of columns t) = false) as ->.
  { rewrite <- not_true_iff_false, !existsb_spec. unfold columns_of. split.
    - intros [H1 (c & Hc & Hct & Hce) H3]. rewrite Et in H1. split_and!; [done| | |].
      + intros E. apply (not_elem_of_nil c). rewrite <- E. by apply list_elem_of_filter.
      + exists c. rewrite list_elem_of_filter. split; [done|]. by apply bool_decide_eq_true.
      + intros (c' & [Hct' Hc']%list_elem_of_filter & Hb).
        apply andb_true_iff in Hb as [Hb1 Hb2]. apply bool_decide_eq_true in Hb1, Hb2.
        by apply Hb2, H3.
    - intros (H1 & _ & (c & [Hct Hc]%list_elem_of_filter & He) & H3).
      apply bool_decide_eq_true in He. split; [by rewrite Et|by exists c|].
      intros c' Hc' Hct' Hk. apply dec_stable. intros Hne. apply H3. exists c'.
      rewrite list_elem_of_filter. split; [done|]. apply andb_true_iff.
      by rewrite !bool_decide_eq_true. }
  split.
  - intros (Hn & H1 & H2 & H3 & H4 & Hd & Hf & Hall). split_and!; try done.
    + intros (t' & E & Ht')%list_elem_of_fmap.
      eapply Forall_forall in Hf; [|done]. simpl in Hf. rewrite <- E in Hf. set_solver.
    + eapply Forall_impl; [exact Hf|]. set_solver.
  - intros ((Hn & Hd) & (Hs & Hf) & (H1 & H2 & H3 & H4) & Hall). split_and!; try done.
    apply Forall_forall. intros t' Ht'. eapply Forall_forall in Hf; [|done].
    intros [E|?]%elem_of_union; [|done]. apply Hn.
    apply elem_of_singleton in E. rewrite <- E. by apply list_elem_of_fmap_2.
Qed.

Lemma validate_Ok p :
  validate p = Ok tt ↔
  NoDup (qualified_name <$> p_columns p) ∧ Forall column_ok (p_columns p) ∧
  NoDup (table_name <$> p_tables p) ∧ Forall (table_ok (p_columns p)) (p_tables p).
Proof.
  unfold validate. rewrite bind_unit_Ok, validate_columns_Ok, validate_row_keys_Ok.
  assert (∀ A (f : A → bytes) l, Forall (λ x, f x ∉ (∅ : gset bytes)) l) as He
    by (intros; apply Forall_true; set_solver).
  naive_solver.
Qed.

(** [Policy::validate] accepts exactly the policies that protect what they
    declare: qualified names distinct, no [searchable] or [detokenize] where it
    means nothing, no unmasked [none] column, identifiers PostgreSQL can carry,
    one entry per table, and every declared row key binds an encrypted column
    and is itself readable. *)
Theorem validate_spec p :
  validate p = Ok tt ↔
  NoDup (qualified_name <$> p_columns p) ∧ Forall column_ok (p_columns p) ∧
  NoDup (table_name <$> p_tables p) ∧ Forall (table_ok (p_columns p)) (p_tables p).
Proof. apply validate_Ok. Qed.

(** ** Wiring *)

Lemma pc_name_build p c : pc_name (build_column p c) = qualified_name c.
Proof.
  unfold pc_name, build_column, qualified_name. destruct (column_table c) as [schema table].
  by destruct (cp_transform c).
Qed.

Lemma pc_table_build p c :
  (pc_schema (build_column p c), pc_table (build_column p c)) = column_table c.
Proof.
  unfold build_column. destruct (column_table c) as [schema table].
  by destruct (cp_transform c).
Qed.

Lemma foldl_insert_lookup {A} (l : list (bytes * A)) (m : gmap bytes A) k :
  NoDup (l.*1) →
  foldl (λ m '(k, v), <[k := v]> m) m l !! k =
  match list_find (λ kv, kv.1 = k) l with Some (_, (_, v)) => Some v | None => m !! k end.
Proof.
  revert m. induction l as [|[k' v] l IH]; intros m Hn; [done|].
  rewrite fmap_cons in Hn. apply NoDup_cons in Hn as [Hk Hn].
  cbn [foldl list_find]. rewrite IH by done. cbn [fst] in *.
  destruct (decide (k' = k)) as [->|Hne].
  - assert (list_find (λ kv : bytes * A, kv.1 = k) l = None) as ->.
    { apply list_find_None, Forall_forall. intros kv Hin E. apply Hk.
      rewrite <- E. by apply list_elem_of_fmap_2. }
    by rewrite lookup_insert_eq.
  - destruct (list_find _ l) as [[i [k'' v']]|]; [done|]. simpl. by rewrite lookup_insert_ne.
Qed.

Definition entry_of (p : Policy) (c : ColumnPolicy) : Column := {|
  col_spec := build_column p c;
  col_row_bound := bool_decide (column_table c ∈ table_table <$> p_tables p);
|}.

Lemma protector_lookup p pr s0 name :
  protector_new p = Ok (pr, s0) →
  pr !! name =
  match list_find (λ c, qualified_name c = name) (p_columns p) with
  | Some (_, c) => Some (entry_of p c)
  | None => None
  end.
Proof.
  unfold protector_new. rewrite bind_unit_Ok, validate_Ok.
  intros ((Hn & _) & [= <- _]).
  etrans; [apply (foldl_insert_lookup (A := Column))|].
  { unfold build. rewrite <- !list_fmap_compose.
       erewrite list_fmap_ext; [exact Hn|]. intros i c _. apply pc_name_build. }
  unfold build. induction (p_columns p) as [|c l IH]; [done|].
  apply NoDup_cons in Hn as [_ Hn]. specialize (IH Hn).
  rewrite !fmap_cons. cbn [list_find]. cbn [fst].
  rewrite pc_name_build. destruct (decide (qualified_name c = name)) as [E|E].
  - unfold entry_of. by rewrite pc_table_build.
  - destruct (list_find (λ kv, kv.1 = name) _) as [[i [k v]]|]; simpl in *.
    + by destruct (list_find _ l) as [[j c']|].
    + by destruct (list_find _ l) as [[j c']|].
Qed.

(** A qualified name has two dots at least, so it is looked up as it stands. *)
Lemma dots_app l r : dots (l ++ r) = dots l + dots r.
Proof. unfold dots. by rewrite filter_app, length_app. Qed.

Lemma lookup_name_dotted schema table column :
  lookup_name (dotted schema table column) = dotted schema table column.
Proof.
  unfold lookup_name, dotted. rewrite bool_decide_eq_false_2; [done|].
  rewrite !dots_app. change (dots [dot]) with 1. lia.
Qed.

Lemma lookup_name_qualified c : lookup_name (qualified_name c) = qualified_name c.
Proof. unfold qualified_name. destruct (column_table c). apply lookup_name_dotted. Qed.

Lemma find_column_Ok p pr s0 name e :
  protector_new p = Ok (pr, s0) → find_column pr name = Ok e →
  ∃ c, c ∈ p_columns p ∧ qualified_name c = lookup_name name ∧ e = entry_of p c.
Proof.
  intros Hp Hf. unfold find_column in Hf. apply ok_or_Ok in Hf.
  rewrite (protector_lookup _ _ _ _ Hp) in Hf.
  destruct (list_find _ _) as [[i c]|] eqn:E; [|done]. injection Hf as <-.
  apply list_find_Some in E as (Hi & Hq & _). exists c. split; [|done].
  by eapply list_elem_of_lookup_2.
Qed.

(** A protector covers exactly its policy: every configured column is found
    under its qualified name, wired with that name as both its cell context and
    its deterministic key name, with row binding exactly when its table declares
    a row key; and every other name is refused, so a misspelt column is never a
    passthrough. *)
Theorem protector_covers_policy p pr s0 :
  protector_new p = Ok (pr, s0) →
  (∀ c, c ∈ p_columns p → find_column pr (qualified_name c) = Ok (entry_of p c)) ∧
  (∀ name, (∀ c, c ∈ p_columns p → qualified_name c ≠ lookup_name name) →
    find_column pr name = Err (Core.UnknownColumn name)).
Proof.
  intros Hp. unfold find_column. split.
  - intros c Hc. rewrite lookup_name_qualified, (protector_lookup _ _ _ _ Hp).
    assert (NoDup (qualified_name <$> p_columns p)) as Hn.
    { unfold protector_new in Hp. by apply bind_unit_Ok in Hp as [(? & _)%validate_Ok _]. }
    destruct (list_find (λ c', qualified_name c' = qualified_name c) (p_columns p))
      as [[i c']|] eqn:E.
    + apply list_find_Some in E as (Hi & Hq & _). simpl in Hq.
      assert (c' = c) as ->; [|done].
      apply (NoDup_fmap_unique qualified_name (p_columns p)); [done| |done..].
      by eapply list_elem_of_lookup_2.
    + apply list_find_None in E. eapply Forall_forall in E; [|done]. done.
  - intros name Hno. rewrite (protector_lookup _ _ _ _ Hp).
    destruct (list_find _ _) as [[i c]|] eqn:E; [|done].
    apply list_find_Some in E as (Hi & Hq & _). exfalso.
    apply (Hno c); [by eapply list_elem_of_lookup_2|done].
Qed.

(** ** The state of a protector *)

Lemma check_row_Ok e name row :
  check_row e name row = Ok tt ↔ (is_Some row ↔ col_row_bound e = true).
Proof.
  unfold check_row, is_Some.
  destruct (col_row_bound e), row as [r|]; split; intros Hx; try done; try (by split; eauto);
    naive_solver.
Qed.

Section protector_theorems.
Context `{HexCrate, AeadCrate, HmacCrate, Ff1Crate, !AeadLaws, !HmacLaws, !Ff1Laws}.
Context (K I : bytes → option bytes).

(** The invariant between calls: the cipher cache is sound, and every resolved
    deterministic key is the one its column's name stands for. *)
Record pstate_ok (s : PState) : Prop := {
  pstate_ciphers : ciphers_ok K (ps_ciphers s);
  pstate_keys name k : ps_keys s !! name = Some k → I name = Some k;
}.

Definition tstate_ok (name : bytes) (s : TState) : Prop :=
  ciphers_ok K (ts_ciphers s) ∧ once_ok I name s.

(** The names a column's transform goes by. *)
Definition wired_to (name : bytes) (t : DynTransform) : Prop :=
  match t with
  | DynEncrypt e =>
      et_context e = {| cell_name := name |} ∧
      (et_index_key_name e = None ∨ et_index_key_name e = Some name)
  | DynFpe f => fpe_key_name f = name
  | DynToken k => token_key_name k = name
  end.

Lemma build_wired p c t :
  pc_transform (build_column p c) = Some t → wired_to (qualified_name c) t.
Proof.
  unfold build_column. destruct (column_table c) as [schema table].
  destruct (cp_transform c); simpl; intros [= <-]; try done.
  simpl. destruct (cp_searchable c); auto.
Qed.

Lemma once_key_tstate ks name s :
  index_ok I ks → tstate_ok name s → tstate_ok name (once_key ks name s).2.
Proof.
  intros Hks [Hc Ho]. destruct (once_key_spec I ks name s Hks Ho) as (Hx1 & Hx2 & _).
  split; [by rewrite Hx2|done].
Qed.

Lemma on_ciphers_tstate {A} (m : M Ciphers Core.Error A) name s :
  tstate_ok name s → ciphers_ok K (m (ts_ciphers s)).2 → tstate_ok name (on_ciphers m s).2.
Proof.
  intros [Hc Ho] Hm. unfold on_ciphers. destruct (m (ts_ciphers s)) as [r c].
  split; [done|exact Ho].
Qed.

Lemma blind_index_tstate e ks pt name s :
  index_ok I ks → et_index_key_name e = None ∨ et_index_key_name e = Some name →
  tstate_ok name s → tstate_ok name (blind_index e ks pt s).2.
Proof.
  intros Hi Hn Hs. unfold blind_index, index_key.
  destruct Hn as [-> | ->]; [done|]. unfold mbind, M_bind.
  pose proof (once_key_tstate ks name s Hi Hs) as Ho.
  destruct (once_key ks name s) as [[k|] s1]; done.
Qed.

Lemma transform_digits_tstate f ks data d s :
  index_ok I ks → tstate_ok (fpe_key_name f) s →
  tstate_ok (fpe_key_name f) (transform_digits f ks data d s).2.
Proof.
  intros Hi Hs. rewrite transform_digits_eq. case_bool_decide; [done|].
  unfold mbind, M_bind. pose proof (once_key_tstate ks (fpe_key_name f) s Hi Hs) as Ho.
  destruct (once_key ks (fpe_key_name f) s) as [[k|] s1]; [|done].
  unfold lift. by destruct (ok_or _ _).
Qed.

(** Every call of a wired transform preserves its state. *)
Lemma dyn_tstate name t ks nonce bs row s :
  source_ok K ks → index_ok I ks → wired_to name t → tstate_ok name s →
  tstate_ok name (seal t ks nonce bs row s).2 ∧ tstate_ok name (open t ks bs row s).2 ∧
  tstate_ok name (search_index t ks bs s).2.
Proof.
  intros Hks Hi Hw Hs. destruct t as [e|f|k]; simpl in *.
  - destruct Hw as [_ Hn]. split_and!; [| |by apply blind_index_tstate].
    + unfold encrypt_seal, mbind, M_bind.
      pose proof (on_ciphers_tstate (ciphers_seal ks nonce
        {| b_context := et_context e; b_row := row; b_strict := false |} bs) name s Hs
        (proj1 (ciphers_seal_kept K ks nonce _ bs _ Hks _ (conj (proj1 Hs) eq_refl)))) as Hx1.
      destruct (on_ciphers _ s) as [[v|] s1]; [|done].
      pose proof (blind_index_tstate e ks bs name s1 Hi Hn Hx1) as Hx2.
      by destruct (blind_index e ks bs s1) as [[i|] s2].
    + unfold encrypt_open. destruct (stored_envelope bs) as [v|]; [|done].
      unfold mbind, M_bind.
      pose proof (on_ciphers_tstate (ciphers_open ks
        {| b_context := et_context e; b_row := row; b_strict := et_strict e |} v) name s Hs
        (proj1 (ciphers_open_kept K ks _ v _ Hks _ (conj (proj1 Hs) eq_refl)))) as Hx1.
      by destruct (on_ciphers _ s) as [[r|] s1].
  - subst name. split_and!; [| |done].
    + unfold fpe_seal, mbind, M_bind.
      pose proof (transform_digits_tstate f ks bs false s Hi Hs) as Hx1.
      by destruct (transform_digits f ks bs false s) as [[r|] s1].
    + unfold fpe_open. destruct (fpe_detokenize f); [|done].
      by apply transform_digits_tstate.
  - subst name. split_and!; [|done..]. unfold token_seal, mbind, M_bind.
    pose proof (once_key_tstate ks (token_key_name k) s Hi Hs) as Hx1.
    by destruct (once_key ks (token_key_name k) s) as [[r|] s1].
Qed.

Lemma on_transform_ok {A} name (m : M TState Core.Error A) s :
  pstate_ok s → (∀ t, tstate_ok name t → tstate_ok name (m t).2) →
  pstate_ok (on_transform name m s).2.
Proof.
  intros [Hc Hk] Hm. unfold on_transform.
  set (t0 := {| ts_ciphers := ps_ciphers s; ts_key := ps_keys s !! name |}).
  assert (tstate_ok name (m t0).2) as [Hc' Ho'].
  { apply Hm. split; [done|]. intros k. apply Hk. }
  destruct (m t0) as [r t]. simpl in *. split; simpl; [done|].
  intros n k. destruct (ts_key t) as [k'|] eqn:E; [|apply Hk].
  intros [[<- <-]|[_ ?]]%lookup_insert_Some; [by apply Ho'|by apply Hk].
Qed.

(** Sealing, opening and searching through a protector, successful or refused,
    keep every cache it owns sound: the process-wide ciphers hold the keys their
    ids name, and each column's resolved key is the one its qualified name
    stands for. *)
Theorem protector_invariant p pr s0 ks nonce column bs row s :
  protector_new p = Ok (pr, s0) → source_ok K ks → index_ok I ks → pstate_ok s →
  pstate_ok s0 ∧
  pstate_ok (protector_seal pr ks nonce column bs row s).2 ∧
  pstate_ok (protector_open pr ks column bs row s).2 ∧
  pstate_ok (search_term pr ks column bs s).2.
Proof.
  intros Hp Hks Hi Hs. split.
  { unfold protector_new in Hp. apply bind_unit_Ok in Hp as [_ [= _ <-]].
    split; simpl; [apply ciphers_new_ok|]. intros name k. by rewrite lookup_empty. }
  unfold protector_seal, protector_open, search_term, mbind, M_bind, lift.
  destruct (find_column pr column) as [e|] eqn:Hf; [|done].
  destruct (find_column_Ok _ _ _ _ _ Hp Hf) as (c & _ & _ & ->). cbn [col_spec entry_of].
  rewrite pc_name_build.
  pose proof (build_wired p c) as Hw.
  destruct (pc_transform (build_column p c)) as [t|].
  2: { split_and!; [by destruct (check_row _ _ _)..|done]. }
  specialize (Hw t eq_refl).
  assert (∀ nonce t', tstate_ok (qualified_name c) t' →
    tstate_ok (qualified_name c) (seal t ks nonce bs row t').2 ∧
    tstate_ok (qualified_name c) (open t ks bs row t').2 ∧
    tstate_ok (qualified_name c) (search_index t ks bs t').2) as Ht
    by (intros; by apply dyn_tstate).
  split_and!.
  - destruct (check_row _ _ _); [|done]. apply on_transform_ok; [done|].
    intros t' Ht'. by apply Ht.
  - destruct (check_row _ _ _); [|done]. destruct (negb _); [done|].
    assert (pstate_ok (on_transform (qualified_name c) (open t ks bs row) s).2) as Ho
      by (apply on_transform_ok; [done|]; intros t' Ht'; by apply Ht).
    by destruct (on_transform _ _ s) as [[r|] s1].
  - apply on_transform_ok; [done|]. intros t' Ht'. by apply Ht.
Qed.

Lemma on_transform_Ok {A} name (m : M TState Core.Error A) s a s' :
  on_transform name m s = (Ok a, s') →
  ∃ t, m {| ts_ciphers := ps_ciphers s; ts_key := ps_keys s !! name |} = (Ok a, t).
Proof. unfold on_transform. destruct (m _) as [r t]. intros [= -> _]. eauto. Qed.

Lemma pstate_tstate name s :
  pstate_ok s → tstate_ok name {| ts_ciphers := ps_ciphers s; ts_key := ps_keys s !! name |}.
Proof. intros [Hc Hk]. split; [done|]. intros k. apply Hk. Qed.

Lemma tstate_encrypt_ok name e s :
  wired_to name (DynEncrypt e) → tstate_ok name s → encrypt_ok K I e s.
Proof.
  intros [_ Hn] [Hc Ho]. split; [done|]. intros n En.
  destruct Hn as [E|E]; rewrite E in En; [done|]. by injection En as <-.
Qed.

(** A successful seal, taken apart. *)
Lemma protector_seal_Ok p pr s0 ks nonce column pt row s stored s' :
  protector_new p = Ok (pr, s0) →
  protector_seal pr ks nonce column pt row s = (Ok stored, s') →
  ∃ c, c ∈ p_columns p ∧ qualified_name c = lookup_name column ∧
    (is_Some row ↔ column_table c ∈ table_table <$> p_tables p) ∧
    match pc_transform (build_column p c) with
    | None => stored = pt
    | Some t => ∃ t', seal t ks nonce pt row
        {| ts_ciphers := ps_ciphers s; ts_key := ps_keys s !! qualified_name c |} = (Ok stored, t')
    end.
Proof.
  intros Hp E. unfold protector_seal in E.
  apply M_bind_Ok in E as (e & s1 & [= Hf <-] & E).
  apply M_bind_Ok in E as (u & s2 & [= Hr <-] & E). destruct u.
  destruct (find_column_Ok _ _ _ _ _ Hp Hf) as (c & Hc & Hq & ->).
  exists c. split_and!; [done..| |].
  - apply check_row_Ok in Hr. rewrite Hr. cbn [col_row_bound entry_of].
    by rewrite bool_decide_eq_true.
  - cbn [col_spec entry_of] in E. destruct (pc_transform (build_column p c)) as [t|].
    + apply on_transform_Ok in E as [t' E]. rewrite pc_name_build in E. eauto.
    + by injection E as -> _.
Qed.

(** The bytes a column of the policy stores for a value: nothing but what its kind of
    transform makes of it under the column's own name. *)
Definition stored_under (nonce : bytes) (row : option RowKey) (c : ColumnPolicy) (value stored : bytes)
    : Prop :=
  let name := qualified_name c in
  match cp_transform c with
  | KNone => stored = value
  | KEncrypt => ∃ index id k magic a ct, stored = index ++ envelope magic id nonce ct ∧
      (if cp_searchable c then ∃ ik, I name = Some ik ∧ index = BlindIndex.compute ik value else index = []) ∧
      is_enveloped (envelope magic id nonce ct) = true ∧ K id = Some k ∧
      written {| b_context := {| cell_name := name |}; b_row := row; b_strict := false |} id magic a ∧
      gcm_encrypt k nonce value a = Some ct
  | KFpe => ∃ k, I name = Some k ∧ MIN_FPE_DIGITS ≤ length (digits_of value) ∧
      shape stored = shape value ∧ ff1_encrypt k (digits_of value) = Some (digits_of stored)
  | KToken => ∃ k, I name = Some k ∧ stored = hex_encode (BlindIndex.compute k value)
  end.

Lemma protector_stores p pr s0 ks nonce column pt row s stored s' :
  protector_new p = Ok (pr, s0) → source_ok K ks → index_ok I ks → pstate_ok s →
  length nonce = NONCE_LEN →
  protector_seal pr ks nonce column pt row s = (Ok stored, s') →
  ∃ c, c ∈ p_columns p ∧ qualified_name c = lookup_name column ∧
    (is_Some row ↔ column_table c ∈ table_table <$> p_tables p) ∧ stored_under nonce row c pt stored.
Proof.
  intros Hp Hks Hi Hs Hn E.
  destruct (protector_seal_Ok _ _ _ _ _ _ _ _ _ _ _ Hp E) as (c & Hc & Hq & Hrow & Hst).
  exists c. split_and!; [done..|]. pose proof (build_wired p c) as Hw.
  unfold stored_under. unfold build_column in Hst, Hw. destruct (column_table c) as [schema table].
  destruct (cp_transform c); cbn [pc_transform] in Hst, Hw; [| | |done];
    destruct Hst as [t' Hst]; specialize (Hw _ eq_refl);
    pose proof (pstate_tstate (qualified_name c) s Hs) as Ht.
  - pose proof (tstate_encrypt_ok _ _ _ Hw Ht) as Het.
    destruct (encrypt_seal_Ok K I _ _ _ _ _ _ _ _ Hi Het Hst) as (e & c' & He & Hsto).
    destruct (ciphers_seal_Ok K _ _ _ _ _ _ _ Hks (encrypt_ciphers _ _ _ _ Het) He)
      as (id & cc & Hl & HK & Hb).
    pose proof (sealed_bytes_enveloped _ _ _ _ _ _ Hl Hn Hb) as (Hen & _).
    apply sealed_bytes_Ok in Hb as (magic & a & ct & Hwr & Hct & ->).
    cbn [et_index_key_name strict_row_binding encrypt_new] in Hsto. destruct (cp_searchable c).
    + destruct Hsto as (k & HI & ->). eexists _, id, _, magic, a, ct. split; [done|]. eauto 10.
    + subst stored. exists [], id, (c_key cc), magic, a, ct. done.
  - destruct (fpe_seal_Ok I {| fpe_key_name := qualified_name c; fpe_detokenize := cp_detokenize c |}
      ks nonce pt row _ stored t' Hi (proj2 Ht) Hst) as (k & out & HI & Hlen & Ho & ->).
    destruct (ff1_shape _ _ _ Ho) as [Hl Hnum]. destruct (put_digits_spec pt out Hl Hnum) as [Hsh Hd].
    exists k. rewrite Hd. done.
  - cbn in Hst. unfold token_seal in Hst. apply M_bind_Ok in Hst as (k & s1 & Hk & [= <- _]).
    apply (once_key_Ok I) in Hk as (HI & _); [|done|apply Ht]. by exists k.
Qed.

(** The front door fails closed. A value is stored only for a column of the
    policy, with a row key exactly when its table declares one; it is stored in
    the clear only when the policy asks for masking alone; and an encrypted
    column of a row-bound table only ever gets a row-bound ([DBS3]) envelope. *)
Theorem protector_fails_closed p pr s0 ks nonce column pt row s stored s' :
  protector_new p = Ok (pr, s0) → source_ok K ks → index_ok I ks → pstate_ok s →
  length nonce = NONCE_LEN →
  protector_seal pr ks nonce column pt row s = (Ok stored, s') →
  ∃ c, c ∈ p_columns p ∧ qualified_name c = lookup_name column ∧
    (is_Some row ↔ column_table c ∈ table_table <$> p_tables p) ∧
    (cp_transform c = KNone → stored = pt ∧ is_Some (cp_mask c)) ∧
    (cp_transform c = KEncrypt → ∃ index e, stored = index ++ e ∧ is_enveloped e = true ∧
       (cp_searchable c = false → index = []) ∧
       starts_with e (if row is Some _ then MAGIC_V3 else MAGIC) = true).
Proof.
  intros Hp Hks Hi Hs Hn E.
  destruct (protector_seal_Ok _ _ _ _ _ _ _ _ _ _ _ Hp E) as (c & Hc & Hq & Hrow & Hst).
  exists c. split_and!; [done..| |].
  - intros Hk. unfold build_column in Hst. destruct (column_table c). rewrite Hk in Hst.
    split; [done|]. unfold protector_new in Hp.
    apply bind_unit_Ok in Hp as [(_ & Hall & _)%validate_Ok _].
    eapply Forall_forall in Hall; [|done]. by apply ok_none.
  - intros Hk. pose proof (build_wired p c) as Hw. unfold build_column in Hst, Hw.
    destruct (column_table c) as [schema table]. rewrite Hk in Hst, Hw. simpl in Hst.
    destruct Hst as [t' Hst]. cbn [pc_transform] in Hw. specialize (Hw _ eq_refl).
    pose proof (tstate_encrypt_ok _ _ _ Hw (pstate_tstate (qualified_name c) s Hs)) as Het.
    destruct (encrypt_seal_Ok K I _ _ _ _ _ _ _ _ Hi Het Hst) as (e & c' & He & Hsto).
    destruct (ciphers_seal_Ok K _ _ _ _ _ _ _ Hks (encrypt_ciphers _ _ _ _ Het) He)
      as (id & cc & Hl & _ & Hb).
    pose proof (sealed_bytes_enveloped _ _ _ _ _ _ Hl Hn Hb) as (Hen & _).
    apply sealed_bytes_Ok in Hb as (magic & a & ct & Hwr & _ & ->).
    assert (starts_with (envelope magic id nonce ct) (if row is Some _ then MAGIC_V3 else MAGIC) = true)
      as Hmag.
    { unfold written in Hwr. simpl in Hwr.
      destruct row; destruct Hwr as [-> _]; apply starts_with_app. }
    cbn [et_index_key_name strict_row_binding encrypt_new] in Hsto.
    destruct (cp_searchable c); simpl in Hsto.
    + destruct Hsto as (k & _ & ->). eexists _, _. split; [done|]. done.
    + subst stored. exists [], (envelope magic id nonce ct). done.
Qed.

(** Case analysis on the kind of transform [build_column] wired into a column. *)
Ltac build_cases c :=
  unfold build_column in *; destruct (column_table c); destruct (cp_transform c);
  simpl in *; simplify_eq.

(** A policy that builds has one column per qualified name. *)
Lemma protector_column_unique p pr s0 c c' :
  protector_new p = Ok (pr, s0) → c ∈ p_columns p → c' ∈ p_columns p →
  qualified_name c = qualified_name c' → c = c'.
Proof.
  unfold protector_new. intros [(Hnd & _)%validate_Ok _]%bind_unit_Ok ???.
  by apply (NoDup_fmap_unique qualified_name (p_columns p)).
Qed.

(** What the transform of a readable column opens is what the protector answers. *)
Lemma protector_open_value p pr ks column c stored row s pt t :
  find_column pr column = Ok (entry_of p c) →
  check_row (entry_of p c) column row = Ok tt →
  pc_readable (build_column p c) = true → pc_transform (build_column p c) = Some t →
  (open t ks stored row {| ts_ciphers := ps_ciphers s;
                           ts_key := ps_keys s !! qualified_name c |}).1 = Ok (Some pt) →
  (protector_open pr ks column stored row s).1 = Ok (Value pt).
Proof.
  intros Hf Hr Hread Ht Ho. unfold protector_open, mbind, M_bind, lift. rewrite Hf, Hr.
  cbn [col_spec entry_of]. rewrite Ht, Hread, pc_name_build.
  unfold on_transform. cbn [negb]. destruct (open t ks stored row _) as [r t2].
  cbn [fst] in Ho. by subst r.
Qed.

(** What a protector sealed, it opens: for every readable column (encrypted,
    searchable or not, and detokenizing FPE), opening the stored bytes under the
    same row gives [Value] of the plaintext, from any later state of the caches
    and the key source. *)
Theorem protector_roundtrip p pr s0 ks ks' nonce column pt row s stored s' s2 entry :
  protector_new p = Ok (pr, s0) → source_ok K ks → source_ok K ks' →
  index_ok I ks → index_ok I ks' → pstate_ok s → pstate_ok s2 → length nonce = NONCE_LEN →
  protector_seal pr ks nonce column pt row s = (Ok stored, s') →
  find_column pr column = Ok entry →
  pc_readable (col_spec entry) = true →
  pc_searchable (col_spec entry) = true ∨ BlindIndex.split stored = None →
  is_ok (ks_index_key ks' (lookup_name column)) = true →
  is_ok (e ← ok_or Core.Malformed (stored_envelope stored); id ← key_id e; ks_key ks' id) = true
    ∨ protector_wire pr column = Ok (Some WText) →
  (protector_open pr ks' column stored row s2).1 = Ok (Value pt).
Proof.
  intros Hp Hks Hks' Hi Hi' Hs Hs2 Hn E Hf Hread Hsplit Hidx Hkey.
  destruct (protector_seal_Ok _ _ _ _ _ _ _ _ _ _ _ Hp E) as (c & Hc & Hq & Hrow & Hst).
  destruct (find_column_Ok _ _ _ _ _ Hp Hf) as (c2 & Hc2 & Hq2 & ->).
  assert (c2 = c) as -> by (eapply protector_column_unique; [done..|congruence]).
  unfold protector_wire in Hkey. rewrite Hf in Hkey.
  cbn [mbind result_bind mret result_ret col_spec entry_of] in *.
  assert (check_row (entry_of p c) column row = Ok tt) as Hr.
  { apply check_row_Ok. rewrite Hrow. cbn [col_row_bound entry_of].
    by rewrite bool_decide_eq_true. }
  pose proof (build_wired p c) as Hw. rewrite <- Hq in Hidx.
  destruct (pc_transform (build_column p c)) as [t|] eqn:Et; [|exfalso; build_cases c].
  specialize (Hw t eq_refl). destruct Hst as [t' Hst].
  apply (protector_open_value p pr ks' column c stored row s2 pt t); [done..|].
  destruct t as [e|f|k]; [| |exfalso; build_cases c].
  - destruct Hkey as [Hkey|[=]].
    apply (encrypt_roundtrip K I e ks ks' nonce pt row _ stored t' _ Hks Hks' Hi
      (tstate_encrypt_ok _ _ _ Hw (pstate_tstate (qualified_name c) s Hs))
      (tstate_encrypt_ok _ _ _ Hw (pstate_tstate (qualified_name c) s2 Hs2)) Hn Hst Hkey).
    destruct Hsplit as [Hse|]; [left|by right].
    clear -Et Hse. build_cases c. unfold searchable. simpl. by rewrite Hse.
  - simpl in Hw. rewrite <- Hw in Hst, Hidx |- *.
    pose proof (pstate_tstate (fpe_key_name f) s Hs) as [_ Ho].
    pose proof (pstate_tstate (fpe_key_name f) s2 Hs2) as [_ Ho2].
    apply (fpe_opens I f ks ks' nonce pt row row _ stored t' _ Hi Hi' Ho Ho2); [| |done].
    + clear -Et Hread. by build_cases c.
    + unfold once_key, mbind, M_bind, gets, lift, runs. simpl.
      destruct (ps_keys s2 !! fpe_key_name f); [done|].
      by destruct (ks_index_key ks' (fpe_key_name f)).
Qed.

End protector_theorems.

(** ** Witnesses *)

Module PolicyExample.
Export TransformExample.

Definition c_ssn : ColumnPolicy := {|
  cp_table := b#"users"; cp_column := b#"ssn"; cp_transform := KEncrypt;
  cp_searchable := true; cp_detokenize := true; cp_mask := None |}.
Definition c_phone : ColumnPolicy := {|
  cp_table := b#"app.people"; cp_column := b#"phone"; cp_transform := KFpe;
  cp_searchable := false; cp_detokenize := true; cp_mask := Some card_mask |}.
Definition c_note : ColumnPolicy := {|
  cp_table := b#"app.people"; cp_column := b#"note"; cp_transform := KNone;
  cp_searchable := false; cp_detokenize := true; cp_mask := Some card_mask |}.

Definition example : Policy := {|
  p_columns := [c_ssn; c_phone; c_note];
  p_tables := [{| tp_table := b#"public.users"; tp_row_key := b#"id"; tp_strict := true |}] |}.

Definition no_protector : Protector * PState :=
  (∅, {| ps_ciphers := fresh; ps_keys := ∅ |}).

Definition built : Protector * PState := value no_protector (protector_new example).
Definition front : Protector := built.1.
Definition front0 : PState := built.2.

Lemma front_new : protector_new example = Ok (front, front0).
Proof.
  assert (is_ok (protector_new example) = true) as Hok by (vm_compute; reflexivity).
  unfold front, front0, built. by destruct (protector_new example) as [[]|].
Qed.

Lemma front0_ok : pstate_ok ring index_ring front0.
Proof.
  generalize front0, front_new. intros s0 Hp. unfold protector_new in Hp.
  apply bind_unit_Ok in Hp as [_ [= <-]].
  split; [apply ciphers_new_ok|]. intros name k. cbn [ps_keys]. by rewrite lookup_empty.
Qed.

Lemma with_state {A B} (x : A * B) a : x.1 = a → x = (a, x.2).
Proof. by intros <-; destruct x. Qed.

Lemma protector_covers_policy_witness :
  find_column front b#"public.users.ssn" = Ok (entry_of example c_ssn) ∧
  find_column front b#"users.sssn" = Err (Core.UnknownColumn b#"users.sssn").
Proof.
  destruct (protector_covers_policy example front front0 front_new) as [Hin Hout].
  split.
  - apply (Hin c_ssn). left.
  - apply Hout. intros c Hc. repeat (apply elem_of_cons in Hc as [->|Hc]; [by vm_compute|]).
    by apply elem_of_nil in Hc.
Defined.

Lemma protector_invariant_witness :
  pstate_ok ring index_ring
    (protector_seal front source1 nonce1 b#"users.ssn" b#"078-05-1120" (Some row42) front0).2.
Proof.
  apply (protector_invariant ring index_ring example front front0 source1 nonce1 b#"users.ssn"
    b#"078-05-1120" (Some row42) front0 front_new source1_ok source1_index front0_ok).
Defined.

Definition sealed_ssn : bytes :=
  value [] (protector_seal front source1 nonce1 b#"users.ssn" b#"078-05-1120" (Some row42) front0).1.

Lemma protector_fails_closed_witness :
  (∃ c, c ∈ p_columns example ∧ qualified_name c = b#"public.users.ssn" ∧
    (cp_transform c = KEncrypt → ∃ index e, sealed_ssn = index ++ e ∧
       starts_with e MAGIC_V3 = true)) ∧
  (protector_seal front source1 nonce1 b#"users.ssn" b#"078-05-1120" None front0).1
    = Err (Core.RowKeyRequired b#"users.ssn").
Proof.
  split; [|vm_compute; reflexivity].
  edestruct (protector_fails_closed ring index_ring example front front0 source1 nonce1
    b#"users.ssn" b#"078-05-1120" (Some row42) front0 sealed_ssn
    (protector_seal front source1 nonce1 b#"users.ssn" b#"078-05-1120" (Some row42) front0).2
    front_new source1_ok source1_index front0_ok eq_refl) as (c & Hc & Hq & _ & _ & He).
  { apply with_state. vm_compute. reflexivity. }
  exists c. split; [exact Hc|]. split; [exact Hq|].
  intros Hk. destruct (He Hk) as (index & e & Hs & _ & _ & Hm). exists index, e.
  split; [exact Hs|exact Hm].
Defined.

Lemma protector_roundtrip_witness :
  (protector_open front source1 b#"users.ssn" sealed_ssn (Some row42) front0).1
    = Ok (Value b#"078-05-1120").
Proof.
  apply (protector_roundtrip ring index_ring example front front0 source1 source1 nonce1
    b#"users.ssn" b#"078-05-1120" (Some row42) front0 sealed_ssn
    (protector_seal front source1 nonce1 b#"users.ssn" b#"078-05-1120" (Some row42) front0).2
    front0 (entry_of example c_ssn)
    front_new source1_ok source1_ok source1_index source1_index front0_ok front0_ok eq_refl).
  - apply with_state. vm_compute. reflexivity.
  - vm_compute. reflexivity.
  - vm_compute. reflexivity.
  - left. vm_compute. reflexivity.
  - vm_compute. reflexivity.
  - left. vm_compute. reflexivity.
Defined.

End PolicyExample.
