(* ===== verification/Records.v ===== *)
(** * Records ([crates/core/src/record.rs], [crates/derive/src/lib.rs])

    [#[derive(Protect)]] turns a struct with attributes into the policy the attributes
    declare and into functions that seal, open, search and mask the whole record.
    [expand] reads the attributes; the functions it generates are the definitions below
    it, over what [expand] read. The [syn] crate is a parameter where it parses: the
    tokens of an attribute are opaque, and what they parse to is given. *)

From S2P Require Import Prelude Utf8 Crates Pgwire Errors Envelope RowKeys Fields Transform Policy.
Import Mask.

(** ** Row keys of records *)

Inductive i16 := I16 (value : Z).
Inductive i32 := I32 (value : Z).
Inductive i64 := I64 (value : Z).
Inductive str := Str (value : bytes).
Inductive uuid_bytes := Uuid (value : bytes).

Class ToRowKey (T : Type) := to_row_key : T → result Core.Error RowKey.

#[export] Instance i16_row_key : ToRowKey i16 := λ '(I16 value), Ok (from_int value).
#[export] Instance i32_row_key : ToRowKey i32 := λ '(I32 value), Ok (from_int value).
#[export] Instance i64_row_key : ToRowKey i64 := λ '(I64 value), Ok (from_int value).
#[export] Instance str_row_key : ToRowKey str := λ '(Str value), Ok (from_text value).
#[export] Instance uuid_row_key `{HexCrate} : ToRowKey uuid_bytes := λ '(Uuid value), Ok (from_uuid_bytes value).
#[export] Instance row_key_row_key : ToRowKey RowKey := λ key, Ok key.

(** ** Building a policy in code ([crates/core/src/policy.rs]) *)

Definition with_transform (transform : TransformKind) (self : ColumnPolicy) : ColumnPolicy := {|
  cp_table := cp_table self; cp_column := cp_column self; cp_transform := transform;
  cp_searchable := cp_searchable self; cp_detokenize := cp_detokenize self; cp_mask := cp_mask self |}.
Definition with_searchable (searchable : bool) (self : ColumnPolicy) : ColumnPolicy := {|
  cp_table := cp_table self; cp_column := cp_column self; cp_transform := cp_transform self;
  cp_searchable := searchable; cp_detokenize := cp_detokenize self; cp_mask := cp_mask self |}.
Definition with_detokenize (detokenize : bool) (self : ColumnPolicy) : ColumnPolicy := {|
  cp_table := cp_table self; cp_column := cp_column self; cp_transform := cp_transform self;
  cp_searchable := cp_searchable self; cp_detokenize := detokenize; cp_mask := cp_mask self |}.
Definition with_mask (mask : MaskSpec) (self : ColumnPolicy) : ColumnPolicy := {|
  cp_table := cp_table self; cp_column := cp_column self; cp_transform := cp_transform self;
  cp_searchable := cp_searchable self; cp_detokenize := cp_detokenize self; cp_mask := Some mask |}.

Definition table_new (table row_key : bytes) : TablePolicy :=
  {| tp_table := table; tp_row_key := row_key; tp_strict := false |}.
Definition policy_new (columns : list ColumnPolicy) (tables : list TablePolicy) : Policy :=
  {| p_columns := columns; p_tables := tables |}.

(** ** What the macro is given *)

Module Syn.

(** Literals; an integer is what it parses to as a [usize], if it fits. *)
Inductive Lit := LitStr (s : bytes) | LitBool (b : bool) | LitInt (value : option Z) | LitChar (c : Z) | LitOther.
Inductive Expr := ExprLit (lit : Lit) | ExprOther.

(** [path], [path = value] and [path(tokens)]. A path is its text. *)
Inductive Meta :=
  | MetaPath (path : bytes)
  | MetaNameValue (path : bytes) (value : Expr)
  | MetaList (path tokens : bytes).

Inductive Ty := TypePath (segments : list Segment) | TypeOther
with Segment := MkSegment (ident : bytes) (arguments : PathArguments)
with PathArguments := NoArguments | AngleBracketed (args : list GenericArgument) | Parenthesized
with GenericArgument := GenericType (ty : Ty) | GenericOther.

(** An attribute is its meta. *)
Record Field := { fd_ident : bytes; fd_ty : Ty; fd_attrs : list Meta }.
Inductive Data := Struct (named : option (list Field)) | NotStruct.
Record DeriveInput := { di_attrs : list Meta; di_data : Data }.

Definition meta_path (m : Meta) : bytes :=
  match m with MetaPath path | MetaNameValue path _ | MetaList path _ => path end.

End Syn.

(** Why an expansion is refused. *)
Inductive DeriveError :=
  | OnlyStructs
  | NamedFields
  | NothingProtected
  | RowKeyNotPlain (row_key : bytes)
  | StructMetaExpected
  | FieldMetaExpected
  | MaskMetaExpected
  | TableMissing
  | ShapeRefused
  | LiteralExpected (what : bytes)
  | NumberTooLarge
  | NotAnIdent (name : bytes)
  | SynRefused.

Inductive Kind := FieldEncrypt | FieldFpe | FieldToken | FieldNone.
#[global] Instance Kind_eq_dec : EqDecision Kind.
Proof. solve_decision. Defined.

Inductive Repr := Text | Bytes.
Record Shape := { sh_optional : bool; sh_repr : Repr }.

Record ProtectedField := {
  pf_ident : bytes;
  pf_column : bytes;
  pf_kind : Kind;
  pf_searchable : bool;
  pf_detokenize : bool;
  pf_mask : option MaskSpec;
  pf_shape : Shape;
}.

Record StructAttrs := { sa_table : bytes; sa_row_key : option bytes; sa_sealed_derives : list bytes }.

(** What [expand] read: the struct's attributes, its protected fields and its others. *)
Record Derived := {
  dv_attrs : StructAttrs;
  dv_protected : list ProtectedField;
  dv_plain : list bytes;
}.

(** A loop that may return early. *)
Fixpoint try_fold {S A E} (f : S → A → result E S) (s : S) (l : list A) : result E S :=
  match l with
  | [] => Ok s
  | a :: l => s ← f s a; try_fold f s l
  end.

(** ** Reading the attributes *)

Section expand.
Import Syn.

(** What [syn] makes of tokens: metas, or paths, between commas; [None] where it refuses
    them. And which strings [Ident::new] takes. *)
Context (parse_metas : bytes → option (list Meta)) (parse_paths : bytes → option (list bytes)).
Context (is_ident : bytes → bool).

Definition string_lit (expr : Expr) (what : bytes) : result DeriveError bytes :=
  match expr with ExprLit (LitStr s) => Ok s | _ => Err (LiteralExpected what) end.
Definition bool_lit (expr : Expr) (what : bytes) : result DeriveError bool :=
  match expr with ExprLit (LitBool b) => Ok b | _ => Err (LiteralExpected what) end.
Definition int_lit (expr : Expr) (what : bytes) : result DeriveError Z :=
  match expr with
  | ExprLit (LitInt value) => ok_or NumberTooLarge value
  | _ => Err (LiteralExpected what)
  end.
Definition char_lit (expr : Expr) (what : bytes) : result DeriveError Z :=
  match expr with ExprLit (LitChar c) => Ok c | _ => Err (LiteralExpected what) end.

Fixpoint shape_of (ty : Ty) : result DeriveError Shape :=
  match ty with
  | TypeOther => Err ShapeRefused
  | TypePath segments =>
      (fix last_segment l :=
        match l with
        | [] => Err ShapeRefused
        | [MkSegment ident arguments] =>
            if bool_decide (ident = b#"String") then Ok {| sh_optional := false; sh_repr := Text |}
            else if bool_decide (ident = b#"Vec") then Ok {| sh_optional := false; sh_repr := Bytes |}
            else if bool_decide (ident = b#"Option") then
              match arguments with
              | AngleBracketed (GenericType inner :: _) =>
                  inner ← shape_of inner;
                  if sh_optional inner then Err ShapeRefused
                  else Ok {| sh_optional := true; sh_repr := sh_repr inner |}
              | _ => Err ShapeRefused
              end
            else Err ShapeRefused
        | _ :: l => last_segment l
        end) segments
  end.

(** [attr.parse_args_with(...)]: only the list form has arguments. *)
Definition parse_args (attr : Meta) : result DeriveError (list Meta) :=
  match attr with
  | MetaList _ tokens => ok_or SynRefused (parse_metas tokens)
  | _ => Err SynRefused
  end.

Definition default_mask : MaskSpec := {| keep_first := 0; keep_last := 0; mask_with := 42 |}.

Definition mask_meta (mask : MaskSpec) (meta : Meta) : result DeriveError MaskSpec :=
  match meta with
  | MetaNameValue path value =>
      if bool_decide (path = b#"keep_first") then
        n ← int_lit value b#"keep_first";
        Ok {| keep_first := n; keep_last := keep_last mask; mask_with := mask_with mask |}
      else if bool_decide (path = b#"keep_last") then
        n ← int_lit value b#"keep_last";
        Ok {| keep_first := keep_first mask; keep_last := n; mask_with := mask_with mask |}
      else if bool_decide (path = b#"mask_with") then
        c ← char_lit value b#"mask_with";
        Ok {| keep_first := keep_first mask; keep_last := keep_last mask; mask_with := c |}
      else Err MaskMetaExpected
  | _ => Err MaskMetaExpected
  end.

Definition mask_args (tokens : bytes) : result DeriveError MaskSpec :=
  metas ← ok_or SynRefused (parse_metas tokens);
  try_fold mask_meta default_mask metas.

Definition set_kind (kind : Kind) (f : ProtectedField) : ProtectedField := {|
  pf_ident := pf_ident f; pf_column := pf_column f; pf_kind := kind; pf_searchable := pf_searchable f;
  pf_detokenize := pf_detokenize f; pf_mask := pf_mask f; pf_shape := pf_shape f |}.
Definition set_searchable (searchable : bool) (f : ProtectedField) : ProtectedField := {|
  pf_ident := pf_ident f; pf_column := pf_column f; pf_kind := pf_kind f; pf_searchable := searchable;
  pf_detokenize := pf_detokenize f; pf_mask := pf_mask f; pf_shape := pf_shape f |}.
Definition set_detokenize (detokenize : bool) (f : ProtectedField) : ProtectedField := {|
  pf_ident := pf_ident f; pf_column := pf_column f; pf_kind := pf_kind f; pf_searchable := pf_searchable f;
  pf_detokenize := detokenize; pf_mask := pf_mask f; pf_shape := pf_shape f |}.
Definition set_column (column : bytes) (f : ProtectedField) : ProtectedField := {|
  pf_ident := pf_ident f; pf_column := column; pf_kind := pf_kind f; pf_searchable := pf_searchable f;
  pf_detokenize := pf_detokenize f; pf_mask := pf_mask f; pf_shape := pf_shape f |}.
Definition set_mask (mask : MaskSpec) (f : ProtectedField) : ProtectedField := {|
  pf_ident := pf_ident f; pf_column := pf_column f; pf_kind := pf_kind f; pf_searchable := pf_searchable f;
  pf_detokenize := pf_detokenize f; pf_mask := Some mask; pf_shape := pf_shape f |}.

Definition field_meta (spec : ProtectedField) (meta : Meta) : result DeriveError ProtectedField :=
  match meta with
  | MetaPath p =>
      if bool_decide (p = b#"encrypt") then Ok (set_kind FieldEncrypt spec)
      else if bool_decide (p = b#"fpe") then Ok (set_kind FieldFpe spec)
      else if bool_decide (p = b#"token") then Ok (set_kind FieldToken spec)
      else if bool_decide (p = b#"none") then Ok (set_kind FieldNone spec)
      else if bool_decide (p = b#"searchable") then Ok (set_searchable true spec)
      else if bool_decide (p = b#"mask") then Ok (set_mask default_mask spec)
      else Err FieldMetaExpected
  | MetaNameValue p value =>
      if bool_decide (p = b#"searchable") then b ← bool_lit value p; Ok (set_searchable b spec)
      else if bool_decide (p = b#"detokenize") then b ← bool_lit value p; Ok (set_detokenize b spec)
      else if bool_decide (p = b#"column") then s ← string_lit value p; Ok (set_column s spec)
      else Err FieldMetaExpected
  | MetaList p tokens =>
      if bool_decide (p = b#"mask") then m ← mask_args tokens; Ok (set_mask m spec)
      else Err FieldMetaExpected
  end.

Definition field_attr (spec : ProtectedField) (attr : Meta) : result DeriveError ProtectedField :=
  match attr with
  | MetaPath _ => Ok spec
  | _ => metas ← parse_args attr; try_fold field_meta spec metas
  end.

Definition dbsec_attrs (attrs : list Meta) : list Meta := filter (λ a, meta_path a = b#"dbsec") attrs.

Definition field_attrs (field : Field) : result DeriveError (option ProtectedField) :=
  match dbsec_attrs (fd_attrs field) with
  | [] => Ok None
  | attrs =>
      shape ← shape_of (fd_ty field);
      spec ← try_fold field_attr
        {| pf_ident := fd_ident field; pf_column := fd_ident field; pf_kind := FieldEncrypt;
           pf_searchable := false; pf_detokenize := true; pf_mask := None; pf_shape := shape |} attrs;
      Ok (Some spec)
  end.

Definition struct_meta (st : option bytes * option bytes * list bytes) (meta : Meta)
    : result DeriveError (option bytes * option bytes * list bytes) :=
  let '(table, row_key, derives) := st in
  match meta with
  | MetaNameValue p value =>
      if bool_decide (p = b#"table") then s ← string_lit value p; Ok (Some s, row_key, derives)
      else if bool_decide (p = b#"row_key") then
        name ← string_lit value p;
        if is_ident name then Ok (table, Some name, derives) else Err (NotAnIdent name)
      else Err StructMetaExpected
  | MetaList p tokens =>
      if bool_decide (p = b#"sealed_derive") then
        paths ← ok_or SynRefused (parse_paths tokens); Ok (table, row_key, derives ++ paths)
      else Err StructMetaExpected
  | MetaPath _ => Err StructMetaExpected
  end.

Definition struct_attr (st : option bytes * option bytes * list bytes) (attr : Meta)
    : result DeriveError (option bytes * option bytes * list bytes) :=
  metas ← parse_args attr; try_fold struct_meta st metas.

Definition struct_attrs (attrs : list Meta) : result DeriveError StructAttrs :=
  '(table, row_key, derives) ← try_fold struct_attr (None, None, []) (dbsec_attrs attrs);
  table ← ok_or TableMissing table;
  let table := match split_once table with Some _ => table | None => b#"public." ++ table end in
  Ok {| sa_table := table; sa_row_key := row_key; sa_sealed_derives := derives |}.

(** One turn of the loop over the fields. *)
Definition sort_field (st : list ProtectedField * list bytes) (field : Field)
    : result DeriveError (list ProtectedField * list bytes) :=
  let '(protected, plain) := st in
  spec ← field_attrs field;
  Ok (match spec with
      | Some spec => (protected ++ [spec], plain)
      | None => (protected, plain ++ [fd_ident field])
      end).

Definition expand (input : DeriveInput) : result DeriveError Derived :=
  match di_data input with
  | NotStruct => Err OnlyStructs
  | Struct None => Err NamedFields
  | Struct (Some fields) =>
      attrs ← struct_attrs (di_attrs input);
      '(protected, plain) ← try_fold sort_field ([], []) fields;
      if bool_decide (protected = []) then Err NothingProtected
      else
        let derived := {| dv_attrs := attrs; dv_protected := protected; dv_plain := plain |} in
        match sa_row_key attrs with
        | Some row_key =>
            if negb (bool_decide (row_key ∈ plain)) then Err (RowKeyNotPlain row_key) else Ok derived
        | None => Ok derived
        end
  end.

End expand.

(** ** What is generated *)

(** A record, or its sealed form: the values of the unprotected fields, then those of
    the protected ones, each group in its order. A protected value is its bytes, [None]
    only where the field is an [Option]. *)
Record Rec (V : Type) := { rec_plain : list V; rec_fields : list (option bytes) }.
Arguments rec_plain {V}.
Arguments rec_fields {V}.

Definition qualified (table : bytes) (f : ProtectedField) : bytes := table ++ b#"." ++ pf_column f.

Definition stored_repr (f : ProtectedField) : Repr :=
  match pf_kind f with
  | FieldEncrypt => Bytes
  | FieldFpe | FieldToken => Text
  | FieldNone => sh_repr (pf_shape f)
  end.

(** [String::from_utf8] where the type is [String]. *)
Definition typed (repr : Repr) (bs : bytes) : result Core.Error bytes :=
  match repr with
  | Text => if is_utf8 bs then Ok bs else Err Core.Malformed
  | Bytes => Ok bs
  end.

Definition policy_kind (kind : Kind) : TransformKind :=
  match kind with FieldEncrypt => KEncrypt | FieldFpe => KFpe | FieldToken => KToken | FieldNone => KNone end.

Definition policy_expr (table : bytes) (f : ProtectedField) : ColumnPolicy :=
  let column :=
    with_detokenize (pf_detokenize f)
      (with_searchable (pf_searchable f)
        (with_transform (policy_kind (pf_kind f)) (column_new table (pf_column f)))) in
  match pf_mask f with Some mask => with_mask mask column | None => column end.

Definition record_policy (d : Derived) : Policy :=
  let table := sa_table (dv_attrs d) in
  policy_new (policy_expr table <$> dv_protected d)
    (match sa_row_key (dv_attrs d) with Some key => [table_new table key] | None => [] end).

Section generated.
Context `{HexCrate, AeadCrate, HmacCrate, Ff1Crate}.
Context {V : Type} `{!ToRowKey V} (d : Derived) (protector : Protector) (ks : KeySource) (nonce : nat → bytes).

#[local] Abbreviation table := (sa_table (dv_attrs d)).

(** The row key expression; a struct has the field it names. *)
Definition row_expr (record : Rec V) : result Core.Error (option RowKey) :=
  match sa_row_key (dv_attrs d) with
  | None => Ok None
  | Some key =>
      match '(i, _) ← list_find (λ ident, ident = key) (dv_plain d); rec_plain record !! i with
      | Some value => key ← to_row_key value; Ok (Some key)
      | None => Err Core.Malformed
      end
  end.

Definition expected_wire (f : ProtectedField) : option WireForm :=
  match pf_kind f with
  | FieldEncrypt => Some Bytea
  | FieldFpe | FieldToken => Some WText
  | FieldNone => None
  end.

(** [seal_expr], for the [i]-th protected field. *)
Definition seal_field (row : option RowKey) (i : nat) (f : ProtectedField) (value : option bytes)
    : M PState Core.Error (option bytes) :=
  match value with
  | None => mret None
  | Some value =>
      let column := qualified table f in
      form ← lift (protector_wire protector column);
      if negb (bool_decide (form = expected_wire f)) then
        lift (Err (Core.Policy (StoredFormDiffers column)))
      else
        sealed ← protector_seal protector ks (nonce i) column value row;
        stored ← lift (typed (stored_repr f) sealed);
        mret (Some stored)
  end.

(** [open_expr]. *)
Definition open_field (lenient : bool) (row : option RowKey) (f : ProtectedField) (value : option bytes)
    : M PState Core.Error (option bytes) :=
  if bool_decide (pf_kind f = FieldNone) then mret value
  else
    match value with
    | None => mret None
    | Some value =>
        let column := qualified table f in
        opened ← protector_open protector ks column value row;
        opened ← lift (if lenient then Ok (into_bytes opened) else into_value opened column);
        plain ← lift (typed (sh_repr (pf_shape f)) opened);
        mret (Some plain)
    end.

(** The fields of a struct expression, left to right. *)
Fixpoint each_field (g : nat → ProtectedField → option bytes → M PState Core.Error (option bytes))
    (i : nat) (fs : list ProtectedField) (values : list (option bytes))
    : M PState Core.Error (list (option bytes)) :=
  match fs, values with
  | f :: fs, value :: values =>
      v ← g i f value; vs ← each_field g (S i) fs values; mret (v :: vs)
  | _, _ => mret []
  end.

Definition record_seal (record : Rec V) : M PState Core.Error (Rec V) :=
  row ← lift (row_expr record);
  fields ← each_field (seal_field row) 0 (dv_protected d) (rec_fields record);
  mret {| rec_plain := rec_plain record; rec_fields := fields |}.

Definition open_with (lenient : bool) (sealed : Rec V) : M PState Core.Error (Rec V) :=
  row ← lift (row_expr sealed);
  fields ← each_field (λ _, open_field lenient row) 0 (dv_protected d) (rec_fields sealed);
  mret {| rec_plain := rec_plain sealed; rec_fields := fields |}.

Definition record_open : Rec V → M PState Core.Error (Rec V) := open_with false.
Definition open_lenient : Rec V → M PState Core.Error (Rec V) := open_with true.

(** The function generated for a searchable field. *)
Definition field_term (f : ProtectedField) (plaintext : bytes) : M PState Core.Error bytes :=
  let column := qualified table f in
  term ← search_term protector ks column plaintext;
  lift (ok_or (Core.Policy (NotDeclaredSearchable column)) term).

(** [mask_expr], and the function generated where a field has a mask. *)
Definition mask_field (f : ProtectedField) (value : option bytes) : result Core.Error (option bytes) :=
  match pf_mask f, value with
  | Some _, Some value =>
      masked ← protector_mask protector (qualified table f) value;
      masked ← typed (sh_repr (pf_shape f)) masked;
      Ok (Some masked)
  | _, _ => Ok value
  end.

Fixpoint mask_fields (fs : list ProtectedField) (values : list (option bytes))
    : result Core.Error (list (option bytes)) :=
  match fs, values with
  | f :: fs, value :: values => v ← mask_field f value; vs ← mask_fields fs values; Ok (v :: vs)
  | _, _ => Ok []
  end.

Definition masked (record : Rec V) : result Core.Error (Rec V) :=
  fields ← mask_fields (dv_protected d) (rec_fields record);
  Ok {| rec_plain := rec_plain record; rec_fields := fields |}.

End generated.

(** [Protect] and [Sealed]: a record type, and what sealing and opening it come to. *)
Class Protect (V : Type) := {
  TABLE : bytes;
  policy : Policy;
  protect_seal : Protector → KeySource → (nat → bytes) → Rec V → M PState Core.Error (Rec V);
  sealed_open : Protector → KeySource → Rec V → M PState Core.Error (Rec V);
}.

(** The instances the macro generates. *)
Definition derived_protect `{HexCrate, AeadCrate, HmacCrate, Ff1Crate} {V} `{!ToRowKey V} (d : Derived)
    : Protect V := {|
  TABLE := sa_table (dv_attrs d);
  policy := record_policy d;
  protect_seal protector ks nonce := record_seal d protector ks nonce;
  sealed_open protector ks := record_open d protector ks |}.
