(* ===== verification/Keys.v ===== *)
(** * The keyfile source ([crates/core/src/keys.rs])

    [FileKeySource]: the keys of a TOML file. [load] starts from the parsed
    [KeyFile], whose tables are hash maps and so arrive in no particular order; the
    reading and parsing in front of it is [Running.load_key_file]. *)

From S2P Require Import Prelude Utf8 Crates Pgwire Errors Envelope Transform.

(** [toml::from_str::<KeyFile>]'s result. *)
Record KeyFile := {
  kf_active : bytes;
  kf_keys : list (bytes * bytes);
  kf_index_keys : list (bytes * bytes);
}.

Record FileKeySource := {
  fs_active : bytes;
  fs_keys : gmap bytes bytes;
  fs_index_keys : gmap bytes bytes;
}.

(** [mode & 0o077 != 0]; [None] is a file that cannot be stat'ed. *)
Definition check_secret_file_mode (path : bytes) (mode : option Z) : result Core.Error () :=
  match mode with
  | None => Ok tt
  | Some mode =>
      if bool_decide (Z.land mode 63 ≠ 0%Z)
      then Err (Core.SecretFileMode path (Z.land mode 4095))
      else Ok tt
  end.

(** [push_hex]: two lowercase digits per byte, appended. *)
Fixpoint push_hex (out : bytes) (bs : bytes) : bytes :=
  match bs with
  | [] => out
  | b :: bs =>
      push_hex (out ++ [hex_digit (Z.shiftr (b2z b) 4)] ++ [hex_digit (Z.land (b2z b) 15)]) bs
  end.

(** The bytes [generate] writes for a fresh id and key. *)
Definition generated (id key : bytes) : bytes :=
  let contents := b#"active = " ++ [x22] in
  let contents := push_hex contents id in
  let contents := contents ++ [x22; x0a; x0a] ++ b#"[keys]" ++ [x0a] in
  let contents := push_hex contents id in
  let contents := contents ++ b#" = " ++ [x22] in
  let contents := push_hex contents key in
  contents ++ [x22; x0a].

(** The files of a directory, as far as [generate] sees them. *)
Record FileEntry := { fe_mode : Z; fe_text : bytes }.

(** What the operating system does in one call: the entropy it gives for the id and for
    the key, if any; the mask on new files; whether a file may be created, and how much
    of a write succeeds before it fails, if it fails. *)
Record GenerateEnv := {
  ge_id : option bytes;
  ge_key : option bytes;
  ge_umask : Z;
  ge_creates : bool;
  ge_write_fails : option nat;
}.

(** [create_new] with mode 0600, then [write_all]. *)
Definition write_new (env : GenerateEnv) (path text : bytes) : M (gmap bytes FileEntry) Core.Error () := λ files,
  let entry text := {| fe_mode := Z.land 384 (Z.lnot (ge_umask env)); fe_text := text |} in
  match files !! path with
  | Some _ => (Err Core.KeyFileWrite, files)
  | None =>
      if negb (ge_creates env) then (Err Core.KeyFileWrite, files)
      else match ge_write_fails env with
           | Some n => (Err Core.KeyFileWrite, <[path := entry (take n text)]> files)
           | None => (Ok tt, <[path := entry text]> files)
           end
  end.

Definition generate (env : GenerateEnv) (path : bytes) : M (gmap bytes FileEntry) Core.Error () :=
  id ← lift (ok_or Core.Entropy (ge_id env));
  key ← lift (ok_or Core.Entropy (ge_key env));
  write_new env path (generated id key).

Section keys.
Context `{HexCrate}.

Definition decode (n : nat) (hex_str what : bytes) : result Core.Error bytes :=
  raw ← ok_or (Core.KeySource (KeyNotHex what)) (hex_decode hex_str);
  if bool_decide (length raw = n) then Ok raw
  else Err (Core.KeySource (KeyBadLength what n)).

Definition decode_key (hex_str : bytes) : result Core.Error bytes := decode 32 hex_str b#"key".

(** The two loops of [load], in the order the hash map yields its entries. *)
Fixpoint load_keys (entries : list (bytes * bytes)) (keys : gmap bytes bytes)
    : result Core.Error (gmap bytes bytes) :=
  match entries with
  | [] => Ok keys
  | (id_hex, key_hex) :: entries =>
      id ← decode KEY_ID_LEN id_hex b#"key id";
      key ← decode_key key_hex;
      load_keys entries (<[id := key]> keys)
  end.

Fixpoint load_index_keys (entries : list (bytes * bytes)) (keys : gmap bytes bytes)
    : result Core.Error (gmap bytes bytes) :=
  match entries with
  | [] => Ok keys
  | (name, key_hex) :: entries =>
      key ← decode_key key_hex;
      load_index_keys entries (<[name := key]> keys)
  end.

Definition load (parsed : KeyFile) : result Core.Error FileKeySource :=
  keys ← load_keys (kf_keys parsed) ∅;
  index_keys ← load_index_keys (kf_index_keys parsed) ∅;
  active ← decode KEY_ID_LEN (kf_active parsed) b#"active key id";
  if bool_decide (is_Some (keys !! active))
  then Ok {| fs_active := active; fs_keys := keys; fs_index_keys := index_keys |}
  else Err (Core.KeySource (ActiveKeyAbsent (kf_active parsed))).

(** The [KeySource] implementation. [self.keys[&self.active]] panics on a missing
    entry; [load] never builds such a source ([file_source_sound]). *)
Definition file_source (self : FileKeySource) : KeySource := {|
  ks_active_key := key ← ok_or Core.Malformed (fs_keys self !! fs_active self);
                   mret (fs_active self, key);
  ks_key id := ok_or (Core.UnknownKey (hex_encode id)) (fs_keys self !! id);
  ks_index_key name := ok_or (Core.UnknownKey name) (fs_index_keys self !! name);
|}.

End keys.

(** ** Theorems *)

Section keys_theorems.
Context `{HexCrate, !HexLaws}.

Lemma decode_Ok n s what raw :
  decode n s what = Ok raw ↔ hex_decode s = Some raw ∧ length raw = n.
Proof.
  unfold decode. destruct (hex_decode s) as [r|]; simpl; [|naive_solver].
  case_bool_decide; naive_solver.
Qed.

(** Every key of the result has its width, and comes from an entry. *)
Lemma load_keys_Ok entries m0 m :
  load_keys entries m0 = Ok m →
  map_Forall (λ id k, length id = KEY_ID_LEN ∧ length k = 32) m0 →
  map_Forall (λ id k, length id = KEY_ID_LEN ∧ length k = 32) m.
Proof.
  revert m0. induction entries as [|[id_hex key_hex] entries IH]; intros m0; simpl.
  { by intros [= <-]. }
  intros E Hm0. apply bind_Ok_inv in E as (id & [_ Hid]%decode_Ok & E).
  apply bind_Ok_inv in E as (key & [_ Hkey]%decode_Ok & E).
  apply (IH _ E). by apply map_Forall_insert_2.
Qed.

(** A keyfile that loads is a key source the ciphers can rely on: the active
    key always resolves, to the same 32 bytes whether asked for as the active
    key or by its 16-byte id, so [active_key] cannot panic; no id and no index
    name ever answers with two keys; and every other id is [UnknownKey]. *)
Theorem file_source_sound parsed self :
  load parsed = Ok self →
  source_ok (λ id, fs_keys self !! id) (file_source self) ∧
  index_ok (λ name, fs_index_keys self !! name) (file_source self) ∧
  (∃ key, ks_active_key (file_source self) = Ok (fs_active self, key) ∧
    ks_key (file_source self) (fs_active self) = Ok key ∧
    length key = 32 ∧ length (fs_active self) = KEY_ID_LEN) ∧
  ∀ id, ks_key (file_source self) id =
    match fs_keys self !! id with Some k => Ok k | None => Err (Core.UnknownKey (hex_encode id)) end.
Proof.
  intros E. unfold load in E. apply bind_Ok_inv in E as (keys & Hk & E).
  apply bind_Ok_inv in E as (index_keys & _ & E).
  apply bind_Ok_inv in E as (active & [_ Ha]%decode_Ok & E).
  case_bool_decide as Hin; [|done]. injection E as <-. destruct Hin as [key Hkey].
  assert (length key = 32) as Hlen.
  { pose proof (load_keys_Ok _ _ _ Hk (map_Forall_empty _)) as Hall. by apply (Hall active). }
  split_and!.
  - split; simpl.
    + intros id k. rewrite Hkey. by intros [= <- <-].
    + intros id k. apply ok_or_Ok.
  - intros name k. simpl. apply ok_or_Ok.
  - exists key. simpl. by rewrite Hkey.
  - intros id. simpl. by destruct (keys !! id).
Qed.

(** The entries as the map they denote, when no two decode to one id. *)
Definition decoded_ids (entries : list (bytes * bytes)) : list (option bytes) :=
  (λ e, hex_decode e.1) <$> entries.

Lemma load_keys_lookup entries m0 m id :
  load_keys entries m0 = Ok m → NoDup (decoded_ids entries) →
  ∀ k, m !! id = Some k ↔
    (∃ id_hex key_hex, (id_hex, key_hex) ∈ entries ∧ hex_decode id_hex = Some id ∧
       hex_decode key_hex = Some k) ∨
    (m0 !! id = Some k ∧ Some id ∉ decoded_ids entries).
Proof.
  revert m0. induction entries as [|[ih kh] entries IH]; intros m0; cbn [load_keys].
  { intros [= <-] _ k. split; [right|]; [split; [done|apply not_elem_of_nil]|].
    intros [(? & ? & ?%elem_of_nil & _)|[? _]]; done. }
  intros E Hn k. apply bind_Ok_inv in E as (id' & [Hid _]%decode_Ok & E).
  apply bind_Ok_inv in E as (key & [Hkey _]%decode_Ok & E).
  unfold decoded_ids in *. rewrite !fmap_cons in *. cbn [fst] in *.
  apply NoDup_cons in Hn as [Hnew Hn].
  rewrite (IH _ E Hn k). rewrite not_elem_of_cons, Hid. rewrite Hid in Hnew.
  assert (∀ a b, (a, b) ∈ entries → hex_decode a = Some id → Some id ∈ (λ e, hex_decode e.1) <$> entries)
    as Hmem.
  { intros a b Hab Ha. rewrite <- Ha. by apply (list_elem_of_fmap_2 (λ e, hex_decode e.1)) in Hab. }
  destruct (decide (id' = id)) as [->|Hne].
  - rewrite lookup_insert_eq. split.
    + intros [(a & b & Hab & Ha & Hb)|[[= <-] _]].
      * left. exists a, b. split_and!; [by right|done..].
      * left. exists ih, kh. split_and!; [by left|done..].
    + intros [(a & b & [[= -> ->]|Hab]%elem_of_cons & Ha & Hb)|[_ [? _]]]; [| |done].
      * right. split; [congruence|done].
      * exfalso. apply Hnew. by eapply Hmem.
  - rewrite lookup_insert_ne by done. split.
    + intros [(a & b & Hab & Ha & Hb)|[Hm0 Hno]].
      * left. exists a, b. split_and!; [by right|done..].
      * right. split_and!; [done|congruence|done].
    + intros [(a & b & [[= -> ->]|Hab]%elem_of_cons & Ha & Hb)|[Hm0 [_ Hno]]].
      * congruence.
      * left. by exists a, b.
      * by right.
Qed.

Lemma load_keys_perm entries entries' m0 m :
  entries ≡ₚ entries' → NoDup (decoded_ids entries) →
  load_keys entries m0 = Ok m → load_keys entries' m0 = Ok m.
Proof.
  intros HP Hn HL.
  assert (∀ e m1 m2, load_keys e m1 = Ok m2 →
    Forall (λ '(i, k), ∃ id key, decode KEY_ID_LEN i b#"key id" = Ok id ∧ decode_key k = Ok key) e)
    as Hall.
  { clear. intros e. induction e as [|[i k] e IH]; intros m1 m2; simpl; [constructor|].
    intros E. apply bind_Ok_inv in E as (id & Hid & E).
    apply bind_Ok_inv in E as (key & Hkey & E). constructor; eauto. }
  assert (∀ e m1, Forall (λ '(i, k), ∃ id key, decode KEY_ID_LEN i b#"key id" = Ok id ∧
    decode_key k = Ok key) e → ∃ m2, load_keys e m1 = Ok m2) as Hex.
  { clear. intros e. induction e as [|[i k] e IH]; intros m1 He; simpl; [eauto|].
    apply Forall_cons in He as [(id & key & -> & ->) He]. simpl. by apply IH. }
  destruct (Hex entries' m0) as [m' HL'].
  { rewrite <- HP. by eapply Hall. }
  rewrite HL'. f_equal. apply map_eq. intros id. apply option_eq. intros k.
  assert (NoDup (decoded_ids entries')) as Hn' by (unfold decoded_ids in *; by rewrite <- HP).
  rewrite (load_keys_lookup _ _ _ id HL' Hn'), (load_keys_lookup _ _ _ id HL Hn).
  unfold decoded_ids. by setoid_rewrite HP.
Qed.

(** The order in which the keyfile's tables are visited does not matter to a
    file that loads, as long as no two entries of [[keys]] spell one key id (the
    hex digits of an id may differ in case): every order gives the same keys. *)
Theorem load_order_irrelevant active keys keys' index self :
  keys ≡ₚ keys' → NoDup (decoded_ids keys) →
  load {| kf_active := active; kf_keys := keys; kf_index_keys := index |} = Ok self →
  load {| kf_active := active; kf_keys := keys'; kf_index_keys := index |} = Ok self.
Proof.
  intros HP Hn E. unfold load in *. simpl in *.
  apply bind_Ok_inv in E as (m & HL & E).
  by rewrite (load_keys_perm _ _ _ _ HP Hn HL).
Qed.

(** ** Generated files *)

Lemma push_hex_encode out bs : push_hex out bs = out ++ hex_encode bs.
Proof.
  rewrite hex_encode_digits. revert out.
  induction bs as [|b bs IH]; intros out; simpl; [by rewrite app_nil_r|].
  rewrite IH, <- !app_assoc. simpl. repeat f_equal.
  - rewrite Z.shiftr_div_pow2 by lia. done.
  - change 15%Z with (Z.ones 4). by rewrite Z.land_ones by lia.
Qed.

(** The parser of the [toml] crate reads two key/value lines. *)
Definition toml_reads (toml : bytes → option KeyFile) : Prop :=
  ∀ a i k, Forall (λ b, lower_hex b = true) a → Forall (λ b, lower_hex b = true) i →
    Forall (λ b, lower_hex b = true) k →
    toml (b#"active = " ++ [x22] ++ a ++ [x22; x0a; x0a] ++ b#"[keys]" ++ [x0a]
          ++ i ++ b#" = " ++ [x22] ++ k ++ [x22; x0a])
    = Some {| kf_active := a; kf_keys := [(i, k)]; kf_index_keys := [] |}.

(** A file [FileKeySource::generate] writes loads back, with the generated id
    active and bound to the generated key. *)
Theorem generate_loads toml id key :
  toml_reads toml → length id = KEY_ID_LEN → length key = 32 →
  ∃ parsed self, toml (generated id key) = Some parsed ∧ load parsed = Ok self ∧
    ks_active_key (file_source self) = Ok (id, key).
Proof.
  intros Ht Hi Hk.
  assert (generated id key =
    b#"active = " ++ [x22] ++ hex_encode id ++ [x22; x0a; x0a] ++ b#"[keys]" ++ [x0a]
    ++ hex_encode id ++ b#" = " ++ [x22] ++ hex_encode key ++ [x22; x0a]) as ->.
  { unfold generated. rewrite !push_hex_encode. by rewrite <- !app_assoc. }
  rewrite Ht by apply hex_encode_lower.
  eexists _, {| fs_active := id; fs_keys := {[id := key]}; fs_index_keys := ∅ |}.
  split; [done|].
  split.
  - unfold load, load_keys, decode_key, decode. cbn [kf_keys kf_active kf_index_keys].
    rewrite !hex_decode_encode. simpl.
    rewrite !bool_decide_eq_true_2 by done. simpl.
    rewrite bool_decide_eq_true_2; [done|]. by rewrite lookup_insert_eq.
  - simpl. by rewrite lookup_singleton_eq.
Qed.

(** Generating a keyfile never touches a file that is there: whatever happens, every other
    file, and one already at the path, is as it was. When it succeeds, the path was free,
    the file there is readable by its owner alone whatever the mask, and it loads, with the
    id drawn active and bound to the key drawn. *)
Theorem generate_is_safe toml env path files r files' :
  toml_reads toml → (∀ id, ge_id env = Some id → length id = KEY_ID_LEN) →
  (∀ key, ge_key env = Some key → length key = 32) →
  generate env path files = (r, files') →
  files ⊆ files' ∧
  (r = Ok tt → files !! path = None ∧ ∃ entry id key parsed self,
    files' !! path = Some entry ∧ check_secret_file_mode path (Some (fe_mode entry)) = Ok tt ∧
    ge_id env = Some id ∧ ge_key env = Some key ∧ toml (fe_text entry) = Some parsed ∧
    load parsed = Ok self ∧ ks_active_key (file_source self) = Ok (id, key)).
Proof.
  intros Ht Hi Hk. unfold generate, write_new, mbind, M_bind, lift.
  destruct (ge_id env) as [id|] eqn:Ei; cbn [ok_or]; [|by intros [= <- <-]].
  destruct (ge_key env) as [key|] eqn:Ek; cbn [ok_or]; [|by intros [= <- <-]].
  destruct (files !! path) as [e|] eqn:Ef; [by intros [= <- <-]|].
  destruct (ge_creates env); cbn [negb]; [|by intros [= <- <-]].
  destruct (ge_write_fails env) as [n|]; intros [= <- <-]; (split; [by apply insert_subseteq|]); [done|].
  intros _. split; [done|]. destruct (generate_loads toml id key Ht (Hi _ eq_refl) (Hk _ eq_refl)) as (parsed & self & ? & ? & ?).
  eexists _, id, key, parsed, self. rewrite lookup_insert_eq. split_and!; [done| |done..].
  unfold check_secret_file_mode. cbn [fe_mode]. rewrite bool_decide_false; [done|].
  intros Hn. apply Hn. rewrite (Z.land_comm 384), <- Z.land_assoc. by rewrite Z.land_0_r.
Qed.

End keys_theorems.

(** An accepted mode has none of the group and other bits. *)
Lemma secret_mode_bits path mode i :
  check_secret_file_mode path (Some mode) = Ok tt → (0 ≤ i < 6)%Z → Z.testbit mode i = false.
Proof.
  unfold check_secret_file_mode. case_bool_decide as Hm; [done|]. intros _ Hi.
  apply (f_equal (λ z, Z.testbit z i)) in Hm.
  change 63%Z with (Z.ones 6) in Hm.
  rewrite Z.land_spec, Z.ones_spec_low, andb_true_r, Z.bits_0 in Hm by lia. done.
Qed.

(** ** Witnesses *)

Module KeysExample.
Export EnvelopeExample.

Definition hexid1 : bytes := hex_encode id1.
Definition hexkey1 : bytes := hex_encode key1.

Definition file1 : KeyFile := {|
  kf_active := hexid1; kf_keys := [(hexid1, hexkey1); (hex_encode id2, hex_encode key2)];
  kf_index_keys := [(b#"public.users.ssn", hexkey1)] |}.

Definition no_source : FileKeySource := {| fs_active := []; fs_keys := ∅; fs_index_keys := ∅ |}.
Definition loaded : FileKeySource := value no_source (load file1).

Lemma loaded_ok : load file1 = Ok loaded.
Proof.
  assert (is_ok (load file1) = true) as Hok by (vm_compute; reflexivity).
  unfold loaded. by destruct (load file1).
Qed.

Lemma file_source_sound_witness :
  ∃ key, ks_active_key (file_source loaded) = Ok (fs_active loaded, key) ∧ length key = 32.
Proof.
  destruct (file_source_sound file1 loaded loaded_ok) as (_ & _ & (key & Ha & _ & Hl & _) & _).
  exists key. split; [exact Ha|exact Hl].
Defined.

Lemma load_order_irrelevant_witness :
  load {| kf_active := hexid1;
          kf_keys := [(hex_encode id2, hex_encode key2); (hexid1, hexkey1)];
          kf_index_keys := [(b#"public.users.ssn", hexkey1)] |} = Ok loaded.
Proof.
  apply (load_order_irrelevant hexid1 [(hexid1, hexkey1); (hex_encode id2, hex_encode key2)]).
  - apply perm_swap.
  - apply (bool_decide_unpack _). vm_compute. exact I.
  - apply loaded_ok.
Defined.

(** Two spellings of one id: the order decides which key is loaded. *)
Definition twice : list (bytes * bytes) :=
  [(b#"AA000000000000000000000000000000", hex_encode key1);
   (b#"aa000000000000000000000000000000", hex_encode key2)].

Lemma order_decides :
  let load_active keys :=
    (r ← load {| kf_active := b#"aa000000000000000000000000000000"; kf_keys := keys;
                 kf_index_keys := [] |};
     mret (fs_keys r !! fs_active r)) in
  load_active twice = Ok (Some key2) ∧ load_active (reverse twice) = Ok (Some key1).
Proof. split; vm_compute; reflexivity. Qed.

(** A parser that reads exactly the generated shape. *)
Fixpoint until (q : byte) (l : bytes) : bytes * bytes :=
  match l with
  | [] => ([], [])
  | b :: l => if bool_decide (b = q) then ([], l) else let '(x, r) := until q l in (b :: x, r)
  end.

Definition toy_toml (text : bytes) : option KeyFile :=
  let '(a, r) := until x22 (drop 10 text) in
  let '(i, r) := until x20 (drop 9 r) in
  let '(k, _) := until x22 (drop 3 r) in
  Some {| kf_active := a; kf_keys := [(i, k)]; kf_index_keys := [] |}.

Lemma until_app q l r : q ∉ l → until q (l ++ q :: r) = (l, r).
Proof.
  induction l as [|b l IH]; simpl; intros Hq.
  - by rewrite bool_decide_eq_true_2.
  - rewrite not_elem_of_cons in Hq. rewrite bool_decide_eq_false_2 by naive_solver.
    by rewrite IH by naive_solver.
Qed.

Lemma lower_hex_not q l : lower_hex q = false → Forall (λ b, lower_hex b = true) l → q ∉ l.
Proof. intros Hq Hl Hin. eapply Forall_forall in Hl; [|done]. simpl in Hl. congruence. Qed.

Lemma toy_toml_reads : toml_reads toy_toml.
Proof.
  intros a i k Ha Hi Hk. unfold toy_toml.
  change (drop 10 _) with (a ++ x22 :: [x0a; x0a] ++ b#"[keys]" ++ [x0a]
          ++ i ++ b#" = " ++ [x22] ++ k ++ [x22; x0a]).
  rewrite until_app by (by apply lower_hex_not).
  change (drop 9 _) with (i ++ x20 :: [x3d; x20; x22] ++ k ++ [x22; x0a]).
  rewrite until_app by (by apply lower_hex_not).
  change (drop 3 _) with (k ++ x22 :: [x0a]).
  by rewrite until_app by (by apply lower_hex_not).
Qed.

Lemma generate_loads_witness :
  ∃ parsed self, toy_toml (generated id1 key1) = Some parsed ∧ load parsed = Ok self ∧
    ks_active_key (file_source self) = Ok (id1, key1).
Proof. apply (generate_loads toy_toml id1 key1 toy_toml_reads eq_refl eq_refl). Defined.

Definition generate_env : GenerateEnv :=
  {| ge_id := Some id1; ge_key := Some key1; ge_umask := 18; ge_creates := true; ge_write_fails := None |}.

Lemma generate_is_safe_witness :
  (generate generate_env b#"keys.toml" ∅).1 = Ok tt ∧
  ∃ entry, (generate generate_env b#"keys.toml" ∅).2 !! b#"keys.toml" = Some entry ∧
    check_secret_file_mode b#"keys.toml" (Some (fe_mode entry)) = Ok tt.
Proof.
  assert ((generate generate_env b#"keys.toml" ∅).1 = Ok tt) as Hok by (vm_compute; reflexivity).
  split; [exact Hok|].
  destruct (generate_is_safe toy_toml generate_env b#"keys.toml" ∅ (Ok tt)
    (generate generate_env b#"keys.toml" ∅).2 toy_toml_reads) as (_ & H).
  - intros id [= <-]. reflexivity.
  - intros key [= <-]. reflexivity.
  - rewrite <- Hok. apply surjective_pairing.
  - destruct (H eq_refl) as (_ & entry & _ & _ & _ & _ & He & Hm & _). exists entry. split; [exact He|exact Hm].
Defined.

End KeysExample.
