(* ===== verification/ArrayCodec.v ===== *)
(** * The Bind-time array codec ([crates/proxy/src/encrypt/array.rs])

    What [col = ANY($n)] does to the bound array: decode it in the format it
    arrived in, replace every element by its blind index, re-encode it. The
    cursor [at] of the text parser is the part of the body still to read. *)

From S2P Require Import Prelude Utf8 Crates Pgwire Errors Envelope RowKeys Fields Transform.
Import BlindIndex.

Definition BYTEA_OID : Z := 17.
Definition INDEXABLE_ELEMENT_OIDS : list Z := [BYTEA_OID; 19; 25; 705; 1042; 1043]%Z.
Definition MAX_ARRAY_ELEMENTS : nat := Z.to_nat 65536.

Record BoundArray := {
  ba_elements : list (option bytes);
  (** An [i32]. *)
  ba_lower_bound : Z;
}.

(** ** Binary format *)

Definition take_i32 (buf : bytes) : option (Z * bytes) :=
  '(head, rest) ← split_at_checked 4 buf; Some (i32_of_be head, rest).

Definition take_element (raw : bytes) : option (option bytes * bytes) :=
  '(size, raw) ← take_i32 raw;
  if (size =? -1)%Z then Some (None, raw)
  else if (size <? 0)%Z then None
  else '(element, rest) ← split_at_checked (Z.to_nat size) raw; Some (Some element, rest).

Fixpoint take_elements (count : nat) (raw : bytes) : option (list (option bytes) * bytes) :=
  match count with
  | O => Some ([], raw)
  | S count =>
      '(element, raw) ← take_element raw;
      '(elements, raw) ← take_elements count raw;
      Some (element :: elements, raw)
  end.

Definition decode_binary_array (raw : bytes) : option BoundArray :=
  '(ndim, raw) ← take_i32 raw;
  '(_, raw) ← take_i32 raw;
  '(element_oid, raw) ← take_i32 raw;
  if negb (bool_decide (element_oid ∈ INDEXABLE_ELEMENT_OIDS)) then None
  else if (ndim =? 0)%Z then
    if bool_decide (raw = []) then Some {| ba_elements := []; ba_lower_bound := 1 |} else None
  else if negb (ndim =? 1)%Z then None
  else
    '(count, raw) ← take_i32 raw;
    '(lower_bound, raw) ← take_i32 raw;
    if (count <? 0)%Z || (Z.of_nat MAX_ARRAY_ELEMENTS <? count)%Z then None
    else
      '(elements, raw) ← take_elements (Z.to_nat count) raw;
      if bool_decide (raw = [])
      then Some {| ba_elements := elements; ba_lower_bound := lower_bound |} else None.

(** [i32::try_from(len)]. *)
Definition i32_try_from (n : nat) : option Z :=
  if (Z.of_nat n <=? 2 ^ 31 - 1)%Z then Some (Z.of_nat n) else None.

Fixpoint push_elements (out : bytes) (elements : list (option bytes)) : option bytes :=
  match elements with
  | [] => Some out
  | None :: elements => push_elements (out ++ be_bytes 4 (-1)) elements
  | Some token :: elements =>
      size ← i32_try_from (length token);
      push_elements (out ++ be_bytes 4 size ++ token) elements
  end.

Definition is_null (element : option bytes) : bool :=
  match element with None => true | Some _ => false end.

Definition encode_binary_array (elements : list (option bytes)) (lower_bound : Z)
    : option bytes :=
  count ← i32_try_from (length elements);
  let has_null := existsb is_null elements in
  let out := be_bytes 4 (if bool_decide (elements = []) then 0 else 1)
    ++ be_bytes 4 (if has_null then 1 else 0) ++ be_bytes 4 BYTEA_OID in
  if bool_decide (elements = []) then Some out
  else push_elements (out ++ be_bytes 4 count ++ be_bytes 4 lower_bound) elements.

(** ** Text format *)

Definition backslash : byte := x5c.
Definition dquote : byte := x22.
Definition comma : byte := x2c.
Definition lbrace : byte := x7b.
Definition rbrace : byte := x7d.

Definition skip_whitespace (rest : bytes) : bytes := drop_while is_ascii_whitespace rest.

(** [str::strip_suffix] of one ASCII character. *)
Definition strip_last (c : byte) (text : bytes) : option bytes :=
  match last text with
  | Some b => if bool_decide (b = c) then Some (take (length text - 1) text) else None
  | None => None
  end.

Fixpoint quoted_loop (value rest : bytes) : option (bytes * bytes) :=
  match rest with
  | [] => None
  | b :: rest =>
      if bool_decide (b = backslash) then
        match rest with
        | [] => None
        | c :: rest => quoted_loop (value ++ [c]) rest
        end
      else if bool_decide (b = dquote) then Some (value, rest)
      else quoted_loop (value ++ [b]) rest
  end.

(** [rest] begins with the opening quote. *)
Definition quoted_element (rest : bytes) : option (bytes * bytes) :=
  '(value, rest) ← quoted_loop [] (drop 1 rest);
  if is_utf8 value then Some (value, rest) else None.

Fixpoint unquoted_loop (value : bytes) (escaped : bool) (kept : nat) (rest : bytes)
    : option (bytes * bool * nat * bytes) :=
  match rest with
  | [] => Some (value, escaped, kept, rest)
  | b :: rest' =>
      if bool_decide (b = comma) then Some (value, escaped, kept, rest)
      else if bool_decide (b = backslash) then
        match rest' with
        | [] => None
        | c :: rest' => unquoted_loop (value ++ [c]) true (length value + 1) rest'
        end
      else if bool_decide (b = lbrace) || bool_decide (b = rbrace) then None
      else unquoted_loop (value ++ [b]) escaped kept rest'
  end.

(** The unescaped whitespace at the end of a value. *)
Definition trailing (kept : nat) (value : bytes) : nat :=
  length (drop kept value) - length (drop_while is_ascii_whitespace (reverse (drop kept value))).

Definition unquoted_element (rest : bytes) : option (option bytes * bytes) :=
  '(value, escaped, kept, rest) ← unquoted_loop [] false 0 rest;
  let unquoted := take (length value - trailing kept value) value in
  if negb (is_utf8 unquoted) then None
  else Some
    (if escaped || negb (eq_ignore_ascii_case unquoted b#"null") then Some unquoted else None, rest).

Section text.
Context `{HexCrate}.

(** [encrypt::text_plaintext]. *)
Definition text_plaintext (text : bytes) (wire : WireForm) : bytes :=
  match wire with
  | Bytea =>
      match h ← strip_prefix (b#"\x") text; hex_decode h with
      | Some decoded => decoded
      | None => text
      end
  | WText => text
  end.

Definition text_element (rest : bytes) : option (option bytes * bytes) :=
  match rest with
  | b :: _ =>
      if bool_decide (b = dquote)
      then '(value, rest) ← quoted_element rest; Some (Some value, rest)
      else unquoted_element rest
  | [] => unquoted_element rest
  end.

(** One turn of the loop per element; every turn but the last consumes a comma. *)
Fixpoint text_loop (fuel : nat) (wire : WireForm) (elements : list (option bytes)) (rest : bytes)
    : option (list (option bytes)) :=
  match fuel with
  | O => None
  | S fuel =>
      '(element, rest) ← text_element (skip_whitespace rest);
      let elements := elements ++ [(λ text, text_plaintext text wire) <$> element] in
      if bool_decide (MAX_ARRAY_ELEMENTS < length elements) then None
      else
        match skip_whitespace rest with
        | [] => Some elements
        | b :: rest => if bool_decide (b = comma) then text_loop fuel wire elements rest else None
        end
  end.

Definition decode_text_array (raw : bytes) (wire : WireForm) : option BoundArray :=
  if negb (is_utf8 raw) then None
  else
    body ← strip_prefix [lbrace] (trim raw);
    body ← strip_last rbrace body;
    if bool_decide (trim body = []) then Some {| ba_elements := []; ba_lower_bound := 1 |}
    else
      elements ← text_loop (S (length body)) wire [] body;
      Some {| ba_elements := elements; ba_lower_bound := 1 |}.

Definition text_token (element : option bytes) : bytes :=
  match element with
  | None => b#"NULL"
  | Some token => [dquote; backslash; backslash] ++ b#"x" ++ hex_encode token ++ [dquote]
  end.

(** The elements after the first, each behind a comma. *)
Definition comma_tokens (elements : list (option bytes)) : bytes :=
  concat ((λ e, comma :: text_token e) <$> elements).

Definition encode_text_array (elements : list (option bytes)) : bytes :=
  match elements with
  | [] => [lbrace; rbrace]
  | e :: elements => [lbrace] ++ text_token e ++ comma_tokens elements ++ [rbrace]
  end.

End text.

(** ** Indexing *)

Section index.
Context `{HexCrate} {T : Type} `{FieldTransform T}.

(** The tokens of all elements, or nothing: the transform gave no token for one. *)
Fixpoint index_elements (t : T) (ks : KeySource) (elements : list (option bytes))
    : M TState Core.Error (option (list (option bytes))) :=
  match elements with
  | [] => mret (Some [])
  | None :: elements =>
      rest ← index_elements t ks elements;
      mret (cons None <$> rest)
  | Some plaintext :: elements =>
      token ← search_index t ks plaintext;
      match token with
      | None => mret None
      | Some token =>
          rest ← index_elements t ks elements;
          mret (cons (Some token) <$> rest)
      end
  end.

Definition index_array (value : bytes) (binary : bool) (t : T) (ks : KeySource)
    : M TState Core.Error (option bytes) :=
  match (if binary then decode_binary_array value else decode_text_array value (wire t)) with
  | None => mret None
  | Some array =>
      indexed ← index_elements t ks (ba_elements array);
      match indexed with
      | None => mret None
      | Some indexed =>
          mret (if binary then encode_binary_array indexed (ba_lower_bound array)
                else Some (encode_text_array indexed))
      end
  end.

End index.

(** ** The binary codec *)

Lemma take_i32_app z rest : in_bits 32 z → take_i32 (be_bytes 4 z ++ rest) = Some (z, rest).
Proof.
  intros Hz. unfold take_i32. change 4 with (length (be_bytes 4 z)) at 1.
  rewrite split_at_checked_app. simpl. by rewrite i32_be_bytes.
Qed.

Lemma i32_try_from_Some n z : i32_try_from n = Some z ↔ z = Z.of_nat n ∧ (z ≤ 2 ^ 31 - 1)%Z.
Proof. unfold i32_try_from. destruct (Z.leb_spec (Z.of_nat n) (2 ^ 31 - 1)); naive_solver lia. Qed.

Lemma in_bits_32_nat n : (Z.of_nat n ≤ 2 ^ 31 - 1)%Z → in_bits 32 (Z.of_nat n).
Proof. unfold in_bits. simpl. lia. Qed.

Definition element_bytes (element : option bytes) : bytes :=
  match element with
  | None => be_bytes 4 (-1)
  | Some token => be_bytes 4 (Z.of_nat (length token)) ++ token
  end.

Lemma push_elements_Some out elements r :
  push_elements out elements = Some r ↔
  r = out ++ concat (element_bytes <$> elements) ∧
  Forall (λ e, (Z.of_nat (length (default [] e)) ≤ 2 ^ 31 - 1)%Z) elements.
Proof.
  revert out. induction elements as [|[token|] elements IH]; intros out; simpl.
  - rewrite app_nil_r. naive_solver.
  - rewrite bind_Some. setoid_rewrite i32_try_from_Some. setoid_rewrite IH.
    rewrite Forall_cons. simpl. setoid_rewrite <- (assoc_L (++)). split; [|naive_solver].
    intros (z & [-> Hz] & -> & Hf). by rewrite <- !(assoc_L (++)).
  - rewrite IH, Forall_cons, <- (assoc_L (++)). simpl. naive_solver lia.
Qed.

Lemma take_elements_app elements rest :
  Forall (λ e, (Z.of_nat (length (default [] e)) ≤ 2 ^ 31 - 1)%Z) elements →
  take_elements (length elements) (concat (element_bytes <$> elements) ++ rest)
    = Some (elements, rest).
Proof.
  induction 1 as [|e elements He _ IH]; [done|].
  rewrite fmap_cons. cbn [concat length take_elements]. rewrite <- (assoc_L (++)).
  assert (∀ r, take_element (element_bytes e ++ r) = Some (e, r)) as ->; [|simpl; by rewrite IH].
  intros r. destruct e as [token|]; unfold take_element, element_bytes; cbn [default] in He.
  - rewrite <- (assoc_L (++)), take_i32_app by (by apply in_bits_32_nat). cbn [mbind option_bind].
    destruct (Z.eqb_spec (Z.of_nat (length token)) (-1)); [lia|].
    destruct (Z.ltb_spec (Z.of_nat (length token)) 0); [lia|].
    by rewrite Nat2Z.id, split_at_checked_app.
  - by rewrite take_i32_app by (unfold in_bits; simpl; lia).
Qed.

Lemma binary_array_decodes elements lower_bound out :
  encode_binary_array elements lower_bound = Some out → in_bits 32 lower_bound →
  length elements ≤ MAX_ARRAY_ELEMENTS →
  decode_binary_array out = Some {| ba_elements := elements;
    ba_lower_bound := if bool_decide (elements = []) then 1 else lower_bound |}.
Proof.
  unfold encode_binary_array. intros (count & [-> Hc]%i32_try_from_Some & E)%bind_Some Hlb Hmax.
  assert (∀ z : Z, z = 0%Z ∨ z = 1%Z ∨ z = BYTEA_OID → in_bits 32 z) as Hsmall
    by (unfold in_bits, BYTEA_OID; simpl; lia).
  unfold decode_binary_array. case_bool_decide as He.
  - injection E as <-. subst elements. rewrite take_i32_app by auto. cbn [mbind option_bind].
    rewrite take_i32_app by (destruct (existsb _ _); auto). cbn [mbind option_bind].
    rewrite <- (app_nil_r (be_bytes 4 BYTEA_OID)), take_i32_app by auto. done.
  - apply push_elements_Some in E as [-> Hf]. rewrite <- !(assoc_L (++)).
    rewrite take_i32_app by auto. cbn [mbind option_bind].
    rewrite take_i32_app by (destruct (existsb _ _); auto). cbn [mbind option_bind].
    rewrite take_i32_app by auto. cbn [mbind option_bind].
    rewrite (bool_decide_true (BYTEA_OID ∈ _)) by (left; done). cbn [negb Z.eqb Pos.eqb].
    rewrite take_i32_app by (by apply in_bits_32_nat). cbn [mbind option_bind].
    rewrite take_i32_app by done. cbn [mbind option_bind].
    destruct (Z.ltb_spec (Z.of_nat (length elements)) 0); [lia|]. cbn [orb].
    destruct (Z.ltb_spec (Z.of_nat MAX_ARRAY_ELEMENTS) (Z.of_nat (length elements))); [lia|].
    rewrite Nat2Z.id, <- (app_nil_r (concat _)), take_elements_app by done. done.
Qed.

(** ** The text codec *)

Lemma quoted_loop_shrinks rest : ∀ value value' rest',
  quoted_loop value rest = Some (value', rest') → length rest' ≤ length rest.
Proof.
  induction rest as [|b rest IH1 IH2] using bytes_ind2; intros value value' rest'; [done|].
  cbn [quoted_loop]. case_bool_decide.
  - destruct rest as [|c rest]; [done|]. intros Hq%(IH2 c rest eq_refl). simpl. lia.
  - case_bool_decide; [intros [= <- <-]; simpl; lia|]. intros Hq%IH1. simpl. lia.
Qed.

Lemma unquoted_loop_shrinks rest : ∀ value escaped kept out rest',
  unquoted_loop value escaped kept rest = Some (out, rest') → length rest' ≤ length rest.
Proof.
  induction rest as [|b rest IH1 IH2] using bytes_ind2; intros value escaped kept out rest'.
  { by intros [= <- <-]. }
  cbn [unquoted_loop]. case_bool_decide; [by intros [= <- <-]|]. case_bool_decide.
  - destruct rest as [|c rest]; [done|]. intros Hq%(IH2 c rest eq_refl). simpl. lia.
  - destruct (_ || _); [done|]. intros Hq%IH1. simpl. lia.
Qed.

Lemma drop_while_length {A} (f : A → bool) l : length (drop_while f l) ≤ length l.
Proof. induction l as [|x l IH]; [done|]. simpl. destruct (f x); simpl; lia. Qed.

Lemma unquoted_element_shrinks rest e rest' :
  unquoted_element rest = Some (e, rest') → length rest' ≤ length rest.
Proof.
  unfold unquoted_element. intros ([[[v esc] k] r] & Hq & E)%bind_Some.
  apply unquoted_loop_shrinks in Hq. destruct (negb _); [done|]. by injection E as _ <-.
Qed.

Lemma text_element_shrinks rest e rest' :
  text_element rest = Some (e, rest') → length rest' ≤ length rest.
Proof.
  unfold text_element. destruct rest as [|b rest]; [apply unquoted_element_shrinks|].
  case_bool_decide; [|apply unquoted_element_shrinks].
  intros ([v r] & ([v' r'] & Hq & E)%bind_Some & [= _ <-])%bind_Some.
  apply quoted_loop_shrinks in Hq. destruct (is_utf8 v'); [|done].
  injection E as _ <-. rewrite length_drop in Hq. lia.
Qed.

(** The fuel is enough: the loop has decided before it runs out. *)
Lemma text_loop_fuel `{HexCrate} wire fuel fuel' acc rest :
  length rest < fuel → fuel ≤ fuel' → text_loop fuel' wire acc rest = text_loop fuel wire acc rest.
Proof.
  revert fuel' acc rest. induction fuel as [|fuel IH]; intros fuel' acc rest Hl Hf; [lia|].
  destruct fuel' as [|fuel']; [lia|]. cbn [text_loop].
  destruct (text_element (skip_whitespace rest)) as [[e r]|] eqn:Ee; [|done].
  cbn [mbind option_bind]. case_bool_decide; [done|].
  destruct (skip_whitespace r) as [|b r'] eqn:Er; [done|]. case_bool_decide; [|done].
  apply IH; [|lia]. apply text_element_shrinks in Ee.
  pose proof (drop_while_length is_ascii_whitespace rest) as Hd1.
  pose proof (drop_while_length is_ascii_whitespace r) as Hd2.
  unfold skip_whitespace in *. rewrite Er in Hd2. simpl in Hd2. lia.
Qed.

(** A printable, unspaced ASCII byte. *)
Definition plain (b : byte) : Prop := (b2z b ≤ 127)%Z ∧ is_whitespace (b2z b) = false.

Lemma plain_hex b : lower_hex b = true → plain b ∧ b ≠ backslash ∧ b ≠ dquote.
Proof. destruct b; vm_compute; intros; try done; split_and!; done. Qed.

(** A literal is plain byte by byte. *)
Ltac plain_literal :=
  repeat (apply Forall_cons; split; [split; [vm_compute; discriminate|reflexivity]|]);
  apply Forall_nil; exact I.

Section text_roundtrip.
Context `{HexCrate, !HexLaws}.

Lemma text_token_plain e : Forall plain (text_token e).
Proof.
  destruct e as [token|]; unfold text_token.
  - apply Forall_app. split; [plain_literal|]. apply Forall_app. split; [plain_literal|].
    apply Forall_app. split; [|plain_literal].
    eapply Forall_impl; [apply hex_encode_lower|]. intros b Hb. by apply plain_hex.
  - plain_literal.
Qed.

Lemma quoted_loop_app v h r :
  Forall (λ b, b ≠ backslash ∧ b ≠ dquote) h →
  quoted_loop v (h ++ dquote :: r) = Some (v ++ h, r).
Proof.
  intros Hh. revert v. induction Hh as [|b h [Hb1 Hb2] _ IH]; intros v; simpl.
  - by rewrite app_nil_r.
  - rewrite !bool_decide_false by done. by rewrite IH, <- (assoc_L (++)).
Qed.

(** What follows an element: nothing, or a comma. *)
Definition delimited (r : bytes) : Prop := r = [] ∨ ∃ r', r = comma :: r'.

Lemma text_element_token e r :
  delimited r →
  text_element (text_token e ++ r) = Some ((λ token, b#"\x" ++ hex_encode token) <$> e, r).
Proof.
  intros Hr. destruct e as [token|].
  - unfold text_token, text_element. cbn [app]. rewrite bool_decide_true by done.
    unfold quoted_element. cbn [drop quoted_loop]. rewrite bool_decide_true by done.
    cbn [app]. change (b#"x" ++ hex_encode token ++ [dquote]) with
      ("x"%byte :: (hex_encode token ++ [dquote])).
    cbn [app quoted_loop]. rewrite !bool_decide_false by done.
    rewrite <- (assoc_L (++)). cbn [app]. rewrite quoted_loop_app; cbn [mbind option_bind].
    + assert (is_utf8 ([backslash; "x"%byte] ++ hex_encode token) = true) as ->; [|done].
      apply is_utf8_spec. unfold chars. rewrite decode_ascii; [done|].
      apply Forall_app. split; [repeat constructor; vm_compute; discriminate|].
      eapply Forall_impl; [apply hex_encode_lower|]. intros b Hb. by apply plain_hex.
    + eapply Forall_impl; [apply hex_encode_lower|]. intros b Hb. by apply plain_hex.
  - by destruct Hr as [->|[r' ->]].
Qed.

Lemma token_head e r : skip_whitespace (text_token e ++ r) = text_token e ++ r.
Proof. apply drop_while_id. destruct e; simpl; by intros x [= <-]. Qed.

Lemma delimited_head r : delimited r → skip_whitespace r = r.
Proof. intros [->|[r' ->]]; [done|]. apply drop_while_id. by intros x [= <-]. Qed.

Lemma comma_tokens_delimited es : delimited (comma_tokens es).
Proof. destruct es as [|e es]; [by left|]. right. by eexists. Qed.

Lemma text_plaintext_token token : text_plaintext (b#"\x" ++ hex_encode token) Bytea = token.
Proof. unfold text_plaintext. simpl. by rewrite hex_decode_encode. Qed.

Lemma text_loop_tokens fuel acc e es :
  length es < fuel → length acc + S (length es) ≤ MAX_ARRAY_ELEMENTS →
  text_loop fuel Bytea acc (text_token e ++ comma_tokens es) = Some (acc ++ e :: es).
Proof.
  revert fuel acc e. induction es as [|e' es IH]; intros fuel acc e Hf Hl;
    (destruct fuel as [|fuel]; [lia|]); cbn [text_loop];
    rewrite token_head, text_element_token by apply comma_tokens_delimited;
    cbn [mbind option_bind];
    (assert ((λ text, text_plaintext text Bytea) <$> ((λ token, b#"\x" ++ hex_encode token) <$> e) = e)
      as -> by (destruct e; [apply (f_equal Some), text_plaintext_token|done]));
    rewrite bool_decide_false by (rewrite length_app; simpl in *; lia);
    rewrite delimited_head by apply comma_tokens_delimited.
  - done.
  - unfold comma_tokens. rewrite fmap_cons. cbn [concat app]. rewrite bool_decide_true by done.
    fold (comma_tokens es). rewrite IH; [by rewrite <- (assoc_L (++))|simpl in Hf; lia|].
    rewrite length_app. simpl in *. lia.
Qed.

Lemma text_array_decodes elements :
  length elements ≤ MAX_ARRAY_ELEMENTS →
  decode_text_array (encode_text_array elements) Bytea
    = Some {| ba_elements := elements; ba_lower_bound := 1 |}.
Proof.
  intros Hl. unfold decode_text_array. destruct elements as [|e es]; [done|].
  assert (Forall plain (text_token e ++ comma_tokens es)) as Hp.
  { apply Forall_app. split; [apply text_token_plain|]. apply Forall_concat.
    apply Forall_fmap, Forall_true. intros x. apply Forall_cons. split; [done|].
    apply text_token_plain. }
  cbn [encode_text_array]. rewrite (assoc_L (++) (text_token e)).
  set (body := text_token e ++ comma_tokens es) in *.
  assert (Forall plain ([lbrace] ++ body ++ [rbrace])) as Hall.
  { apply Forall_app. split; [plain_literal|]. apply Forall_app. split; [done|plain_literal]. }
  assert (is_utf8 ([lbrace] ++ body ++ [rbrace]) = true) as ->.
  { apply is_utf8_spec. unfold chars. rewrite decode_ascii; [done|].
    eapply Forall_impl; [exact Hall|]. by intros b [Hb _]. }
  rewrite trim_ascii_id by done. cbn [negb app strip_prefix]. rewrite bool_decide_true by done.
  cbn [mbind option_bind]. unfold strip_last. rewrite last_snoc, bool_decide_true by done.
  cbn [mbind option_bind]. rewrite length_app. cbn [length].
  replace (length body + 1 - 1) with (length body) by lia. rewrite take_app_length.
  rewrite trim_ascii_id by done.
  rewrite bool_decide_false by (unfold body; by destruct e).
  unfold body. rewrite text_loop_tokens; [done| |done].
  rewrite length_app. assert (length es ≤ length (comma_tokens es)); [|lia].
  clear. induction es as [|x es IH]; [done|].
  unfold comma_tokens in *. rewrite fmap_cons. cbn [concat]. rewrite length_app. simpl. lia.
Qed.

End text_roundtrip.

(** ** Nothing partially indexed *)

Lemma take_elements_length count raw elements rest :
  take_elements count raw = Some (elements, rest) → length elements = count.
Proof.
  revert raw elements rest.
  induction count as [|count IH]; intros raw elements rest; [by intros [= <- _]|].
  cbn [take_elements]. intros ([e r] & _ & ([es r'] & He & [= <- _])%bind_Some)%bind_Some.
  cbn [length]. f_equal. exact (IH _ _ _ He).
Qed.

Lemma take_i32_range raw z rest : take_i32 raw = Some (z, rest) → in_bits 32 z.
Proof.
  unfold take_i32. intros ([h r] & Hs & [= <- _])%bind_Some.
  apply i32_of_be_range. by apply split_at_checked_Some in Hs as [_ Hl].
Qed.

Lemma decode_binary_bounds raw array :
  decode_binary_array raw = Some array →
  length (ba_elements array) ≤ MAX_ARRAY_ELEMENTS ∧ in_bits 32 (ba_lower_bound array).
Proof.
  unfold decode_binary_array.
  intros ([z1 r1] & _ & ([z2 r2] & _ & ([z3 r3] & _ & E)%bind_Some)%bind_Some)%bind_Some.
  destruct (negb _); [done|]. destruct (z1 =? 0)%Z.
  { case_bool_decide; [|done]. injection E as <-. simpl. unfold in_bits. simpl. lia. }
  destruct (negb _); [done|].
  apply bind_Some in E as ([count r4] & _ & E). apply bind_Some in E as ([lb r5] & Hlb & E).
  destruct (Z.ltb_spec count 0); [done|]. cbn [orb] in E.
  destruct (Z.ltb_spec (Z.of_nat MAX_ARRAY_ELEMENTS) count); [done|].
  apply bind_Some in E as ([els r6] & Hels & E). case_bool_decide; [|done]. injection E as <-. simpl.
  apply take_elements_length in Hels. apply take_i32_range in Hlb. split; [lia|done].
Qed.

Lemma text_loop_bound `{HexCrate} fuel w acc rest elements :
  text_loop fuel w acc rest = Some elements → length elements ≤ MAX_ARRAY_ELEMENTS.
Proof.
  revert acc rest. induction fuel as [|fuel IH]; intros acc rest; [done|].
  cbn [text_loop]. intros ([e r] & _ & E)%bind_Some. case_bool_decide as Hl; [done|].
  destruct (skip_whitespace r) as [|b r'].
  - injection E as <-. lia.
  - case_bool_decide; [|done]. by eapply IH.
Qed.

Lemma decode_text_bounds `{HexCrate} raw w array :
  decode_text_array raw w = Some array →
  length (ba_elements array) ≤ MAX_ARRAY_ELEMENTS ∧ ba_lower_bound array = 1%Z.
Proof.
  unfold decode_text_array. destruct (negb _); [done|].
  intros (b1 & _ & (b2 & _ & E)%bind_Some)%bind_Some. case_bool_decide.
  - injection E as <-. simpl. lia.
  - apply bind_Some in E as (els & Hels & [= <-]). by apply text_loop_bound in Hels.
Qed.

Section index_theorems.
Context `{HexCrate, AeadCrate, HmacCrate, !HexLaws, !HmacLaws}.
Context (I : bytes → option bytes).

(** The blind index of every element, NULL for NULL. *)
Definition tokens (k : bytes) (elements : list (option bytes)) : list (option bytes) :=
  (λ e : option bytes, compute k <$> e) <$> elements.

Lemma tokens_length k elements : length (tokens k elements) = length elements.
Proof. apply length_fmap. Qed.

Lemma blind_index_eval self ks p s name k :
  et_index_key_name self = Some name → index_ok I ks → once_ok I name s →
  ks_index_key ks name = Ok k →
  ∃ s', blind_index self ks p s = (Ok (Some (compute k p)), s') ∧ once_ok I name s'.
Proof.
  intros Hn Hi Ho Hk. unfold blind_index, index_key. rewrite Hn. unfold mbind, M_bind.
  destruct (once_key_spec I ks name s Hi Ho) as (Ho' & _ & Hkey).
  assert (is_ok (once_key ks name s).1 = true) as Hok.
  { unfold once_key, mbind, M_bind, gets, lift, runs. destruct (ts_key s); [done|]. by rewrite Hk. }
  destruct (once_key ks name s) as [[k'|] s1]; [|done]. exists s1. split; [|done].
  apply Hi in Hk. specialize (Hkey k' eq_refl). by simplify_eq.
Qed.

Lemma index_elements_eval self ks elements s name k :
  et_index_key_name self = Some name → index_ok I ks → once_ok I name s →
  ks_index_key ks name = Ok k →
  ∃ s', index_elements self ks elements s = (Ok (Some (tokens k elements)), s').
Proof.
  intros Hn Hi Ho Hk. revert s Ho. induction elements as [|[p|] elements IH]; intros s Ho.
  - by eexists.
  - destruct (blind_index_eval self ks p s name k Hn Hi Ho Hk) as (s1 & Hb & Ho1).
    destruct (IH s1 Ho1) as (s2 & He). exists s2. cbn [index_elements].
    rewrite (M_bind_eval _ _ _ _ _ Hb). by rewrite (M_bind_eval _ _ _ _ _ He).
  - destruct (IH s Ho) as (s2 & He). exists s2. cbn [index_elements].
    by rewrite (M_bind_eval _ _ _ _ _ He).
Qed.

Lemma tokens_encode k elements lower_bound :
  length elements ≤ MAX_ARRAY_ELEMENTS →
  is_Some (encode_binary_array (tokens k elements) lower_bound).
Proof.
  intros Hl. unfold encode_binary_array.
  assert (i32_try_from (length (tokens k elements)) = Some (Z.of_nat (length elements)))
    as ->.
  { apply i32_try_from_Some. rewrite tokens_length. split; [done|].
    unfold MAX_ARRAY_ELEMENTS in Hl. lia. }
  cbn [mbind option_bind]. case_bool_decide; [done|].
  eexists. apply push_elements_Some. split; [done|]. apply Forall_fmap, Forall_true.
  intros [p|]; cbn; [rewrite hmac_length|]; lia.
Qed.

(** How an array parameter reads, in either format. *)
Definition decode_array (binary : bool) (value : bytes) (w : WireForm) : option BoundArray :=
  if binary then decode_binary_array value else decode_text_array value w.

(** C37: a bound [= ANY($n)] array is indexed whole or not at all. An array the codec
    can read, of up to 65536 elements, comes back in the format it arrived in as a
    [bytea[]] with the blind index of every element in its place, NULLs kept and the
    lower bound preserved; anything else is handed back as "cannot be indexed" with
    nothing changed. *)
Theorem index_array_whole self ks value binary s name k :
  et_index_key_name self = Some name → index_ok I ks → once_ok I name s →
  ks_index_key ks name = Ok k →
  match decode_array binary value Bytea with
  | None => index_array value binary self ks s = (Ok None, s)
  | Some array =>
      ∃ out s', index_array value binary self ks s = (Ok (Some out), s') ∧
        length (ba_elements array) ≤ MAX_ARRAY_ELEMENTS ∧
        decode_array binary out Bytea = Some
          {| ba_elements := tokens k (ba_elements array);
             ba_lower_bound := if bool_decide (ba_elements array = []) then 1
                               else ba_lower_bound array |}
  end.
Proof.
  intros Hn Hi Ho Hk. unfold index_array, decode_array. change (wire self) with Bytea.
  destruct binary.
  - destruct (decode_binary_array value) as [array|] eqn:Ed; [|done].
    apply decode_binary_bounds in Ed as [Hl Hlb].
    destruct (index_elements_eval self ks (ba_elements array) s name k Hn Hi Ho Hk) as (s' & He).
    destruct (tokens_encode k (ba_elements array) (ba_lower_bound array) Hl) as [out Hout].
    exists out, s'. rewrite (M_bind_eval _ _ _ _ _ He), Hout. split; [done|]. split; [done|].
    rewrite (binary_array_decodes _ _ _ Hout Hlb) by (by rewrite tokens_length).
    repeat case_bool_decide as Hb; try done; by destruct (ba_elements array).
  - destruct (decode_text_array value Bytea) as [array|] eqn:Ed; [|done].
    apply decode_text_bounds in Ed as [Hl Hlb].
    destruct (index_elements_eval self ks (ba_elements array) s name k Hn Hi Ho Hk) as (s' & He).
    eexists _, s'. rewrite (M_bind_eval _ _ _ _ _ He). split; [done|]. split; [done|].
    rewrite text_array_decodes by (by rewrite tokens_length). rewrite Hlb. by case_bool_decide.
Qed.

End index_theorems.

(** ** Witnesses *)

Module ArrayExample.
Export TransformExample.

Lemma index_array_whole_witness :
  ∃ out s', index_array b#"{ ann , NULL,b\,c}" false ssn_indexed source1 start = (Ok (Some out), s') ∧
    decode_text_array out Bytea = Some
      {| ba_elements := [Some (compute (replicate 32 x0b) b#"ann"); None;
                         Some (compute (replicate 32 x0b) b#"b,c")];
         ba_lower_bound := 1 |}.
Proof.
  pose proof (index_array_whole index_ring ssn_indexed source1 b#"{ ann , NULL,b\,c}" false start
    b#"ssn-index" (replicate 32 x0b) eq_refl source1_index) as Hw.
  destruct Hw as (out & s' & Hi & _ & Hd).
  - intros k [=].
  - reflexivity.
  - exists out, s'. split; [exact Hi|exact Hd].
Defined.

(** An element that is empty and not quoted, which [array_in] refuses as malformed
    ("Unexpected ',' character"), is read as an empty string. *)
Lemma empty_elements_accepted :
  decode_text_array b#"{a,}" Bytea =
    Some {| ba_elements := [Some b#"a"; Some []]; ba_lower_bound := 1 |} ∧
  decode_text_array b#"{,}" Bytea =
    Some {| ba_elements := [Some []; Some []]; ba_lower_bound := 1 |}.
Proof. vm_compute. done. Qed.

End ArrayExample.
