(* ===== verification/Lexer.v ===== *)
(** * Splitting one SQL text into its statements ([crates/proxy/src/encrypt/lexer.rs])

    A cursor into the text is an index; a scan from a cursor runs over the bytes
    that are left. The parser, the renderer and the tokens are those of the
    [sqlparser] crate. *)

From S2P Require Import Prelude Sql Utf8 Crates Pgwire Errors.
Import AstEq.

Definition quote1 : byte := x27.
Definition quote2 : byte := x22.
Definition dollar : byte := x24.
Definition dash : byte := x2d.
Definition slash : byte := x2f.
Definition star : byte := x2a.
Definition semicolon : byte := x3b.
Definition newline : byte := x0a.
Definition bslash : byte := x5c.
Definition underscore : byte := x5f.

Definition is_ident_byte (b : byte) : bool :=
  is_ascii_alphanumeric b || bool_decide (b = underscore).

(** ** Places a semicolon can hide *)

Fixpoint skip_quoted_loop (quote : byte) (escapes : bool) (at_ : nat) (rest : bytes) : option nat :=
  match rest with
  | [] => None
  | b :: rest =>
      if bool_decide (b = bslash) && escapes then
        match rest with
        | [] => None
        | _ :: rest => skip_quoted_loop quote escapes (at_ + 2) rest
        end
      else if bool_decide (b = quote) then
        match rest with
        | c :: rest' =>
            if bool_decide (c = quote) then skip_quoted_loop quote escapes (at_ + 2) rest'
            else Some (at_ + 1)
        | [] => Some (at_ + 1)
        end
      else skip_quoted_loop quote escapes (at_ + 1) rest
  end.

(** [E'...'], and not the end of an identifier. *)
Definition backslash_escapes (bs : bytes) (start : nat) : bool :=
  bool_decide (bs !! start = Some quote1) && bool_decide (0 < start)
  && bool_decide (bs !! (start - 1) ∈ [Some "e"%byte; Some "E"%byte])
  && (bool_decide (start = 1)
      || match bs !! (start - 2) with Some b => negb (is_ident_byte b) | None => true end).

Definition skip_quoted (bs : bytes) (start : nat) : option nat :=
  match bs !! start with
  | None => None
  | Some quote =>
      skip_quoted_loop quote (backslash_escapes bs start) (start + 1) (drop (start + 1) bs)
  end.

Definition is_dollar_tag (tag : bytes) : bool :=
  match tag with
  | [] => true
  | first :: _ =>
      if is_ascii_digit first then false
      else forallb (λ b, is_ident_byte b || (128 <=? b2z b)%Z) tag
  end.

(** The position just past the first occurrence of [tag]. *)
Fixpoint find_tag (tag : bytes) (at_ : nat) (rest : bytes) : option nat :=
  if starts_with rest tag then Some (at_ + length tag)
  else match rest with
       | [] => None
       | _ :: rest => find_tag tag (at_ + 1) rest
       end.

Definition skip_dollar_quoted (bs : bytes) (start : nat) : option nat :=
  let tag_end :=
    match position (λ b, bool_decide (b = dollar)) (drop (start + 1) bs) with
    | Some n => if is_dollar_tag (take n (drop (start + 1) bs)) then Some (start + 1 + n) else None
    | None => None
    end in
  match tag_end with
  | None => Some (start + 1)
  | Some tag_end =>
      let tag := take (tag_end + 1 - start) (drop start bs) in
      find_tag tag (tag_end + 1) (drop (tag_end + 1) bs)
  end.

(** [depth] is a [usize]. *)
Fixpoint skip_comment_loop (depth : Z) (at_ : nat) (rest : bytes) : option nat :=
  match rest with
  | a :: ((b :: rest') as rest1) =>
      if bool_decide (a = slash) && bool_decide (b = star)
      then skip_comment_loop ((depth + 1) mod 2 ^ 64) (at_ + 2) rest'
      else if bool_decide (a = star) && bool_decide (b = slash) then
        let depth := ((depth - 1) mod 2 ^ 64)%Z in
        if (depth =? 0)%Z then Some (at_ + 2) else skip_comment_loop depth (at_ + 2) rest'
      else skip_comment_loop depth (at_ + 1) rest1
  | _ => None
  end.

Definition skip_block_comment (bs : bytes) (start : nat) : option nat :=
  skip_comment_loop 0 start (drop start bs).

(** ** Statement ranges *)

(** A [Range<usize>]. *)
Record Range := { r_start : nat; r_end : nat }.

#[global] Instance Range_eq_dec : EqDecision Range.
Proof. solve_decision. Defined.

(** [&sql[range]]. *)
Definition slice (sql : bytes) (from to : nat) : bytes := take (to - from) (drop from sql).

Definition push_statement (ranges : list Range) (sql : bytes) (from to : nat) : list Range :=
  let text := slice sql from to in
  let trimmed := trim text in
  if bool_decide (trimmed = []) then ranges
  else
    let start := from + (length text - length (trim_start text)) in
    ranges ++ [{| r_start := start; r_end := start + length trimmed |}].

(** What the byte under the cursor is: the end of a statement, or something to step
    over. *)
Inductive Lexed := Separator | Skip (to : nat).

Definition lex_at (bs : bytes) (at_ : nat) (b : byte) : option Lexed :=
  let next := bs !! (at_ + 1) in
  if bool_decide (b = quote1) || bool_decide (b = quote2) then Skip <$> skip_quoted bs at_
  else if bool_decide (b = dollar) then Skip <$> skip_dollar_quoted bs at_
  else if bool_decide (b = dash) && bool_decide (next = Some dash) then
    Some (Skip match position (λ b, bool_decide (b = newline)) (drop at_ bs) with
               | Some n => at_ + n
               | None => length bs
               end)
  else if bool_decide (b = slash) && bool_decide (next = Some star)
  then Skip <$> skip_block_comment bs at_
  else if bool_decide (b = semicolon) then Some Separator
  else Some (Skip (at_ + 1)).

(** Every turn of the loop moves the cursor forward. *)
Fixpoint ranges_loop (fuel : nat) (sql : bytes) (ranges : list Range) (start at_ : nat)
    : option (list Range) :=
  match fuel with
  | O => None
  | S fuel =>
      match sql !! at_ with
      | None => Some (push_statement ranges sql start (length sql))
      | Some b =>
          lexed ← lex_at sql at_ b;
          match lexed with
          | Skip to => ranges_loop fuel sql ranges start to
          | Separator =>
              ranges_loop fuel sql (push_statement ranges sql start at_) (at_ + 1) (at_ + 1)
          end
      end
  end.

Definition statement_ranges (sql : bytes) : option (list Range) :=
  ranges_loop (S (length sql)) sql [] 0 0.

(** ** Putting the text back together *)

Section reassemble.
Context `{SqlParserCrate}.

Definition parse_tokens (tokens : list TokenWithSpan) (text : bytes)
    : result ParserError (list Ast.Statement) :=
  match sql_parse_statements tokens with
  | Ok statements => Ok statements
  | Err error => map_err (λ _, error) (sql_parse (text ++ b#";"))
  end.

Definition parse_sql (text : bytes) : result ParserError (list Ast.Statement) :=
  tokens ← sql_tokenize text;
  parse_tokens tokens text.

Definition render_validated (statement : Ast.Statement) : result Proxy.Error bytes :=
  let rendered := sql_to_string statement in
  match parse_sql rendered with
  | Ok [reparsed] => if bool_decide (reparsed = statement) then Ok rendered
                     else Err Proxy.RewriteDiverged
  | _ => Err Proxy.RewriteDiverged
  end.

(** [slice.join("; ")]. *)
Fixpoint join (sep : bytes) (parts : list bytes) : bytes :=
  match parts with
  | [] => []
  | [p] => p
  | p :: parts => p ++ sep ++ join sep parts
  end.

Fixpoint splice (sql : bytes) (cursor : nat) (parts : list (Range * Ast.Statement * bool))
    : result Proxy.Error bytes :=
  match parts with
  | [] => Ok (drop cursor sql)
  | (range, statement, changed) :: parts =>
      text ← if changed : bool then render_validated statement
             else Ok (slice sql (r_start range) (r_end range));
      rest ← splice sql (r_end range) parts;
      mret (slice sql cursor (r_start range) ++ text ++ rest)
  end.

Definition reassemble (sql : bytes) (statements : list Ast.Statement) (changed : list bool)
    : result Proxy.Error bytes :=
  match statement_ranges sql with
  | Some ranges =>
      if bool_decide (length ranges = length statements)
      then splice sql 0 (zip (zip ranges statements) changed)
      else join b#"; " <$> try_map render_validated statements
  | None => join b#"; " <$> try_map render_validated statements
  end.

End reassemble.

(** ** The cursor moves forward *)

Lemma skip_quoted_loop_forward quote escapes rest : ∀ at_ n,
  skip_quoted_loop quote escapes at_ rest = Some n → at_ < n.
Proof.
  induction rest as [|b rest IH1 IH2] using bytes_ind2; intros at_ n; [done|].
  cbn [skip_quoted_loop]. destruct (bool_decide _ && escapes).
  { destruct rest as [|c rest]; [done|]. intros ?%(IH2 c rest eq_refl). lia. }
  case_bool_decide; [|intros ?%IH1; lia].
  destruct rest as [|c rest]; [intros [= <-]; lia|].
  case_bool_decide; [|intros [= <-]; lia]. intros ?%(IH2 c rest eq_refl). lia.
Qed.

Lemma find_tag_forward tag rest : ∀ at_ n, find_tag tag at_ rest = Some n → at_ ≤ n.
Proof.
  induction rest as [|b rest IH]; intros at_ n; cbn [find_tag].
  - destruct (starts_with [] tag); [|done]. intros [= <-]. lia.
  - destruct (starts_with (b :: rest) tag); [intros [= <-]; lia|]. intros ?%IH. lia.
Qed.

Lemma skip_comment_loop_forward rest : ∀ depth at_ n,
  skip_comment_loop depth at_ rest = Some n → at_ < n.
Proof.
  induction rest as [|a rest IH1 IH2] using bytes_ind2; intros depth at_ n; [done|].
  destruct rest as [|b rest]; [done|]. cbn [skip_comment_loop].
  destruct (bool_decide _ && _); [intros ?%(IH2 b rest eq_refl); lia|].
  destruct (bool_decide _ && _); [|intros ?%IH1; lia].
  destruct (_ =? 0)%Z; [intros [= <-]; lia|]. intros ?%(IH2 b rest eq_refl). lia.
Qed.

Lemma lex_at_forward bs at_ b to :
  bs !! at_ = Some b → lex_at bs at_ b = Some (Skip to) → at_ < to.
Proof.
  intros Hb. unfold lex_at. destruct (bool_decide _ || _).
  { intros (n & Hs & [= <-])%fmap_Some. unfold skip_quoted in Hs. rewrite Hb in Hs.
    apply skip_quoted_loop_forward in Hs. lia. }
  case_bool_decide.
  { intros (n & Hs & [= <-])%fmap_Some. unfold skip_dollar_quoted in Hs.
    destruct (position _ _) as [m|]; [|injection Hs as <-; lia].
    destruct (is_dollar_tag _); [|injection Hs as <-; lia]. apply find_tag_forward in Hs. lia. }
  destruct (bool_decide (b = dash) && _) eqn:Ed.
  { intros [= <-]. apply andb_true_iff in Ed as [Ed%bool_decide_eq_true _].
    destruct (position _ _) as [[|n]|] eqn:Ep; [|lia|by eapply lookup_lt_Some].
    apply position_Some in Ep as (x & Hx & Hn & _). rewrite lookup_drop, Nat.add_0_r, Hb in Hx.
    injection Hx as <-. apply bool_decide_eq_true in Hn. subst b. discriminate Hn. }
  destruct (bool_decide (b = slash) && _).
  { intros (n & Hs & [= <-])%fmap_Some. by apply skip_comment_loop_forward in Hs. }
  destruct (bool_decide (b = semicolon)); intros [= <-]. lia.
Qed.

(** The fuel is enough: a turn that does not end the loop leaves less to read. *)
Lemma ranges_loop_fuel sql fuel fuel' ranges start at_ :
  length sql < at_ + fuel → 0 < fuel → fuel ≤ fuel' →
  ranges_loop fuel' sql ranges start at_ = ranges_loop fuel sql ranges start at_.
Proof.
  revert fuel' ranges start at_.
  induction fuel as [|fuel IH]; intros fuel' ranges start at_ Hl Hpos Hf; [lia|].
  destruct fuel' as [|fuel']; [lia|]. cbn [ranges_loop].
  destruct (sql !! at_) as [b|] eqn:Eb; [|done]. pose proof (lookup_lt_Some _ _ _ Eb).
  destruct (lex_at sql at_ b) as [[|to]|] eqn:El; cbn [mbind option_bind]; [| |done].
  - apply IH; lia.
  - apply lex_at_forward in El; [|done]. apply IH; lia.
Qed.

(** ** Ranges *)

(** From [cursor] on: in order, disjoint, not empty, and all before [hi]. *)
Fixpoint chain (cursor : nat) (ranges : list Range) (hi : nat) : Prop :=
  match ranges with
  | [] => cursor ≤ hi
  | r :: ranges => cursor ≤ r_start r ∧ r_start r < r_end r ∧ chain (r_end r) ranges hi
  end.

Lemma chain_weaken cursor ranges hi hi' : chain cursor ranges hi → hi ≤ hi' → chain cursor ranges hi'.
Proof.
  revert cursor. induction ranges as [|r ranges IH]; simpl; intros cursor Hc Hle; [lia|].
  destruct Hc as (? & ? & Hc). auto.
Qed.

Lemma chain_snoc cursor ranges lo r hi :
  chain cursor ranges lo → lo ≤ r_start r → r_start r < r_end r → r_end r ≤ hi →
  chain cursor (ranges ++ [r]) hi.
Proof.
  revert cursor. induction ranges as [|r' ranges IH]; simpl; intros cursor Hc ???.
  - split_and!; lia.
  - destruct Hc as (? & ? & Hc). auto.
Qed.

Lemma chain_le cursor ranges hi : chain cursor ranges hi → cursor ≤ hi.
Proof.
  revert cursor. induction ranges as [|r ranges IH]; simpl; [done|].
  intros cursor (Hx1 & Hx2 & Hx3%IH). lia.
Qed.

Lemma slice_length sql from to : to ≤ length sql → length (slice sql from to) = to - from.
Proof. intros Ht. unfold slice. rewrite length_take, length_drop. lia. Qed.

Lemma slice_cut sql from to w1 t w2 :
  to ≤ length sql → from ≤ to → slice sql from to = w1 ++ t ++ w2 →
  sql = (take from sql ++ w1) ++ t ++ (w2 ++ drop to sql) ∧
  length (take from sql ++ w1) = from + length w1 ∧
  length w1 + length t + length w2 = to - from.
Proof.
  intros Ht Hf Hs. pose proof (slice_length sql from to Ht) as Hl. rewrite Hs in Hl.
  rewrite !length_app in Hl. split_and!; [|rewrite length_app, length_take; lia|lia].
  rewrite <- (take_drop from sql) at 1. rewrite <- (assoc_L (++)). f_equal.
  rewrite <- (take_drop (to - from) (drop from sql)). fold (slice sql from to).
  rewrite Hs, drop_drop, <- !(assoc_L (++)). repeat f_equal. lia.
Qed.

(** What is pushed: the text of the slice without its surrounding whitespace. *)
Lemma push_statement_spec ranges sql from to :
  from ≤ to → to ≤ length sql →
  push_statement ranges sql from to = ranges ∨
  ∃ r w1 w2, push_statement ranges sql from to = ranges ++ [r] ∧
    from ≤ r_start r ∧ r_start r < r_end r ∧ r_end r ≤ to ∧
    r_start r = from + length w1 ∧ slice sql from to = w1 ++ slice sql (r_start r) (r_end r) ++ w2 ∧
    is_utf8 w1 = true ∧ is_utf8 (slice sql (r_start r) (r_end r)) = true ∧ is_utf8 w2 = true ∧
    slice sql (r_start r) (r_end r) = trim (slice sql from to).
Proof.
  intros Hf Ht. unfold push_statement. case_bool_decide as Hn; [by left|]. right.
  destruct (is_utf8 (slice sql from to)) eqn:Hu; [|by rewrite trim_not_utf8 in Hn].
  destruct (trim_spec _ Hu) as (w1 & w2 & Hs & Hts & Hu1 & Hu2 & Hu3).
  set (t := trim (slice sql from to)) in *.
  destruct (slice_cut sql from to w1 t w2 Ht Hf Hs) as (Hsql & Hlen & Hsum).
  eexists _, w1, w2. split; [done|]. cbn [r_start r_end].
  replace (length (slice sql from to) - length (trim_start (slice sql from to))) with (length w1).
  2: { rewrite Hts, Hs, !length_app. lia. }
  assert (0 < length t) by (destruct t; [done|simpl; lia]).
  assert (slice sql (from + length w1) (from + length w1 + length t) = t) as ->.
  { unfold slice. rewrite Hsql at 1. rewrite <- Hlen, drop_app_length.
    replace (length (take from sql ++ w1) + length t - length (take from sql ++ w1))
      with (length t) by lia. apply take_app_length. }
  split_and!; try done; lia.
Qed.

(** Slicing the text at both ends of the range does not panic. *)
Definition sliceable (sql : bytes) (r : Range) : Prop :=
  is_char_boundary sql (r_start r) = true ∧ is_char_boundary sql (r_end r) = true.

Lemma push_statement_ok ranges sql from to :
  is_utf8 sql = true → from ≤ to → to ≤ length sql → is_char_boundary sql to = true →
  chain 0 ranges from → Forall (sliceable sql) ranges →
  chain 0 (push_statement ranges sql from to) to ∧
  Forall (sliceable sql) (push_statement ranges sql from to).
Proof.
  intros Hu Hf Ht Hb Hc Hs.
  destruct (push_statement_spec ranges sql from to Hf Ht)
    as [->|(r & w1 & w2 & -> & Hx1 & Hx2 & Hx3 & Hst & Hsl & _ & Hu2 & Hu3 & _)].
  { split; [by eapply chain_weaken|done]. }
  split; [by eapply chain_snoc|]. apply Forall_app. split; [done|]. apply Forall_singleton.
  destruct (slice_cut sql from to _ _ _ Ht Hf Hsl) as (Hsql & Hlen & _).
  pose proof (drop_boundary_utf8 _ _ Hu Hb Ht) as Hd.
  rewrite <- Hst in Hlen.
  set (t := slice sql (r_start r) (r_end r)) in *.
  assert (length t = r_end r - r_start r) as Hlt by (apply slice_length; lia).
  split; rewrite Hsql.
  - rewrite <- Hlen. apply boundary_app, utf8_app; [done|]. by apply utf8_app.
  - replace (r_end r) with (length ((take from sql ++ w1) ++ t)) by (rewrite length_app; lia).
    rewrite (assoc_L (++)). apply boundary_app. by apply utf8_app.
Qed.

Lemma lex_at_separator bs at_ b : lex_at bs at_ b = Some Separator → b = semicolon.
Proof.
  unfold lex_at. destruct (bool_decide _ || _); [by intros (? & _ & [=])%fmap_Some|].
  destruct (bool_decide (b = dollar)); [by intros (? & _ & [=])%fmap_Some|].
  destruct (bool_decide (b = dash) && _); [done|].
  destruct (bool_decide (b = slash) && _); [by intros (? & _ & [=])%fmap_Some|].
  by destruct (bool_decide_reflect (b = semicolon)).
Qed.

Lemma ranges_loop_ok sql fuel ranges start at_ out :
  is_utf8 sql = true → start ≤ at_ → start ≤ length sql →
  chain 0 ranges start → Forall (sliceable sql) ranges →
  ranges_loop fuel sql ranges start at_ = Some out →
  chain 0 out (length sql) ∧ Forall (sliceable sql) out.
Proof.
  intros Hu. revert ranges start at_.
  induction fuel as [|fuel IH]; intros ranges start at_ Hsa Hsl Hc Hs; [done|]. cbn [ranges_loop].
  destruct (sql !! at_) as [b|] eqn:Eb.
  - pose proof (lookup_lt_Some _ _ _ Eb) as Hlt.
    intros ([|to] & El & E)%bind_Some.
    + apply lex_at_separator in El as ->.
      destruct (push_statement_ok ranges sql start at_ Hu Hsa) as [Hc' Hs']; [lia| |done..|].
      { by eapply boundary_at. }
      apply IH in E; [done|lia|lia|eapply chain_weaken; [done|lia]|done].
    + apply lex_at_forward in El; [|done]. apply IH in E; [done|lia|done..].
  - intros [= <-]. apply push_statement_ok; try done.
    unfold is_char_boundary. destruct (length sql) eqn:El; [done|].
    rewrite <- El, lookup_ge_None_2 by lia. by apply bool_decide_eq_true.
Qed.

(** ** What reaches the server *)

Section reassemble_theorems.
Context `{SqlParserCrate}.

(** [out] is [sql], from the offset [at_] on, with the text of the changed statements
    replaced. Both are the same gaps, and between two gaps there is, in [sql], exactly
    the text in the range of one statement, and in [out] that same text, or, for a
    changed statement, a text that parses back to it. *)
Inductive respliced : nat → list (Range * Ast.Statement * bool) → bytes → bytes → Prop :=
  | respliced_end at_ tail : respliced at_ [] tail tail
  | respliced_statement at_ gap text text' sql out r st (changed : bool) rest :
      r_start r = at_ + length gap → r_end r = r_start r + length text →
      (if changed then parse_sql text' = Ok [st] else text' = text) →
      respliced (r_end r) rest sql out →
      respliced at_ ((r, st, changed) :: rest) (gap ++ text ++ sql) (gap ++ text' ++ out).

Lemma render_validated_Ok st text :
  render_validated st = Ok text → text = sql_to_string st ∧ parse_sql text = Ok [st].
Proof.
  unfold render_validated. destruct (parse_sql (sql_to_string st)) as [[|st' [|]]|] eqn:E; try done.
  case_bool_decide; [|done]. intros [= <-]. by subst st'.
Qed.

Lemma slice_split sql cursor r :
  cursor ≤ r_start r → r_start r < r_end r → r_end r ≤ length sql →
  drop cursor sql =
    slice sql cursor (r_start r) ++ slice sql (r_start r) (r_end r) ++ drop (r_end r) sql.
Proof.
  intros Hc Hr He. unfold slice.
  rewrite <- (take_drop (r_start r - cursor) (drop cursor sql)) at 1. f_equal.
  rewrite drop_drop. replace (cursor + (r_start r - cursor)) with (r_start r) by lia.
  rewrite <- (take_drop (r_end r - r_start r) (drop (r_start r) sql)) at 1. f_equal.
  rewrite drop_drop. f_equal. lia.
Qed.

Lemma splice_respliced sql cursor ranges statements changed out :
  chain cursor ranges (length sql) → length ranges = length statements →
  length changed = length statements →
  splice sql cursor (zip (zip ranges statements) changed) = Ok out →
  respliced cursor (zip (zip ranges statements) changed) (drop cursor sql) out.
Proof.
  revert cursor statements changed out.
  induction ranges as [|r ranges IH]; intros cursor [|st statements] [|c changed] out; try done.
  - intros _ _ _ [= <-]. constructor.
  - intros (Hc & Hr & Hch) [= Hl] [= Hl'] E. cbn [zip zip_with splice] in E.
    apply bind_Ok_inv in E as (text & Ht & E). apply bind_Ok_inv in E as (rest & Hrest & [= <-]).
    apply IH in Hrest; [|done..]. pose proof (chain_le _ _ _ Hch) as Hle.
    rewrite (slice_split sql cursor r Hc Hr) by done.
    cbn [zip zip_with]. apply respliced_statement; [rewrite slice_length by lia; lia..| |done].
    destruct c; [by apply render_validated_Ok in Ht as [_ ?]|by injection Ht as <-].
Qed.

Lemma splice_unchanged sql cursor ranges statements :
  chain cursor ranges (length sql) → length ranges = length statements →
  splice sql cursor (zip (zip ranges statements) (replicate (length statements) false))
    = Ok (drop cursor sql).
Proof.
  revert cursor statements. induction ranges as [|r ranges IH]; intros cursor [|st statements]; try done.
  intros (Hc & Hr & Hch) [= Hl]. cbn [zip zip_with splice length replicate mbind result_bind].
  rewrite IH by done. rewrite (slice_split sql cursor r Hc Hr) by (by eapply chain_le). done.
Qed.

Lemma try_map_render statements texts :
  try_map render_validated statements = Ok texts →
  Forall2 (λ st text, parse_sql text = Ok [st]) statements texts.
Proof.
  revert texts. induction statements as [|st statements IH]; intros texts; [by intros [= <-]|].
  cbn [try_map]. intros E. apply bind_Ok_inv in E as (t & Ht & E).
  apply bind_Ok_inv in E as (ts & Hts & [= <-]). apply render_validated_Ok in Ht as [_ Ht].
  constructor; [done|by apply IH].
Qed.

(** C35: the text handed to the server says what the client's text said. When the
    ranges line up with the parsed statements, it is the client's text with the ranges
    of the changed statements, and nothing else, replaced: what stands before, between
    and after the ranges and in the range of an unchanged statement is the client's,
    in its place and order, and in place of the range of a changed one, of which nothing
    is left, there is a text that parses back to exactly the rewritten statement. When
    they do not line up, every statement sent parses back to the one it stands for. A
    text in which nothing changed comes back byte for byte. *)
Theorem reassemble_sound sql statements changed out :
  is_utf8 sql = true → length changed = length statements →
  reassemble sql statements changed = Ok out →
  ((∃ ranges, statement_ranges sql = Some ranges ∧ length ranges = length statements ∧
      respliced 0 (zip (zip ranges statements) changed) sql out ∧
      (changed = replicate (length statements) false → out = sql)) ∨
   ((∀ ranges, statement_ranges sql = Some ranges → length ranges ≠ length statements) ∧
    ∃ texts, out = join b#"; " texts ∧
      Forall2 (λ st text, parse_sql text = Ok [st]) statements texts)).
Proof.
  intros Hu Hl. unfold reassemble. destruct (statement_ranges sql) as [ranges|] eqn:Er.
  1: case_bool_decide as Hlen.
  - intros E. left. exists ranges. split; [done|]. split; [done|].
    destruct (ranges_loop_ok sql (S (length sql)) [] 0 0 ranges Hu) as [Hc _]; [simpl; lia..|done|done|].
    split; [by apply (splice_respliced sql 0 ranges)|].
    intros ->. rewrite splice_unchanged in E by done. by injection E as <-.
  - intros E. right. destruct (try_map _ _) as [texts|] eqn:Et; [|done]. injection E as <-.
    split; [naive_solver|]. exists texts. split; [done|by apply try_map_render].
  - intros E. right. destruct (try_map _ _) as [texts|] eqn:Et; [|done]. injection E as <-.
    split; [naive_solver|]. exists texts. split; [done|by apply try_map_render].
Qed.

End reassemble_theorems.

(** ** Witnesses *)

Module LexerExample.
Import Toy.

Definition script : bytes := b#"SELECT ';' ; /* a; */ UPDATE t SET x = $$;$$ -- ;".

Definition select : Ast.Statement := Ast.StatementOther b#"SELECT ';'".
Definition update : Ast.Statement := Ast.StatementOther b#"UPDATE u".

Definition rewritten : bytes :=
  match @reassemble sqlparser script [select; update] [false; true] with
  | Ok t => t | Err _ => []
  end.

(** The semicolons in the literal, the comments and the body separate nothing. *)
Lemma script_ranges : (λ r, slice script (r_start r) (r_end r)) <$> default [] (statement_ranges script)
  = [b#"SELECT ';'"; b#"/* a; */ UPDATE t SET x = $$;$$ -- ;"].
Proof. vm_compute. reflexivity. Qed.

Lemma reassemble_sound_witness :
  rewritten = b#"SELECT ';' ; UPDATE u" ∧
  ∃ ranges, statement_ranges script = Some ranges ∧
    @respliced sqlparser 0 (zip (zip ranges [select; update]) [false; true]) script rewritten.
Proof.
  split; [vm_compute; reflexivity|].
  destruct (@reassemble_sound sqlparser script [select; update] [false; true] rewritten)
    as [(ranges & Hr & _ & Hp & _)|(Hno & _)].
  - vm_compute. reflexivity.
  - reflexivity.
  - vm_compute. reflexivity.
  - exists ranges. split; [exact Hr|exact Hp].
  - exfalso. destruct (statement_ranges script) as [ranges|] eqn:E.
    + apply (Hno ranges eq_refl).
      assert (length <$> statement_ranges script = Some 2) as Hl by (vm_compute; reflexivity).
      rewrite E in Hl. injection Hl as ->. reflexivity.
    + assert (is_Some (statement_ranges script)) as [? Hs] by (vm_compute; eauto).
      rewrite E in Hs. discriminate Hs.
Defined.

End LexerExample.
