(* ===== verification/LexSpec.v ===== *)
(** * What the statement splitter reads ([crates/proxy/src/encrypt/lexer.rs])

    The lexical forms a semicolon can hide in, as a grammar over the text and not as a
    scan: quoted literals and identifiers, dollar-quoted bodies, line comments and
    nested block comments. The scanner steps over exactly these; it gives up exactly
    where one of them is opened and never closed. *)

From S2P Require Import Prelude Sql Utf8 Crates Pgwire Errors Lexer.

(** ** The lexical forms *)

(** The inside of a quoted literal or identifier: the quote only doubled, and in an
    escape string every byte after a backslash. *)
Inductive quoted (q : byte) (escapes : bool) : bytes → Prop :=
  | quoted_nil : quoted q escapes []
  | quoted_plain b l : b ≠ q → (escapes = true → b ≠ bslash) → quoted q escapes l → quoted q escapes (b :: l)
  | quoted_double l : quoted q escapes l → quoted q escapes (q :: q :: l)
  | quoted_escape b l : escapes = true → quoted q escapes l → quoted q escapes (bslash :: b :: l).

(** The quote at [at_] is preceded by an [E] that does not end an identifier. *)
Definition escape_string (sql : bytes) (at_ : nat) : Prop :=
  sql !! at_ = Some quote1 ∧ ∃ pre e, take at_ sql = pre ++ [e] ∧ (e = "e"%byte ∨ e = "E"%byte) ∧
    ∀ b, last pre = Some b → is_ident_byte b = false.

(** A tag is empty or an identifier. *)
Definition valid_tag (tag : bytes) : Prop :=
  Forall (λ b, is_ident_byte b = true ∨ (128 ≤ b2z b)%Z) tag ∧
  ∀ b, head tag = Some b → is_ascii_digit b = false.

(** The delimiter [$tag$] stands at the head of the text. *)
Definition opens_dollar (l tag rest : bytes) : Prop :=
  l = dollar :: (tag ++ dollar :: rest) ∧ (dollar ∉ tag) ∧ valid_tag tag.

(** [l] is the rest of a block comment of the given depth, up to [rest]. *)
Inductive comment : nat → bytes → bytes → Prop :=
  | comment_open d l rest : comment (S d) l rest → comment d (slash :: star :: l) rest
  | comment_close d l rest : comment (S d) l rest → comment (S (S d)) (star :: slash :: l) rest
  | comment_end rest : comment 1 (star :: slash :: rest) rest
  | comment_char d b l rest :
      ¬ (b = slash ∧ head l = Some star) → ¬ (b = star ∧ head l = Some slash) →
      comment (S d) l rest → comment (S d) (b :: l) rest.

(** What the scan steps over at an offset, and the offset after it. *)
Inductive token (sql : bytes) (at_ : nat) : nat → Prop :=
  | token_quoted q escapes body rest :
      drop at_ sql = q :: body ++ q :: rest → (q = quote1 ∨ q = quote2) →
      (escapes = true ↔ escape_string sql at_) → quoted q escapes body → head rest ≠ Some q →
      token sql at_ (at_ + length body + 2)
  | token_dollar tag body rest :
      opens_dollar (drop at_ sql) tag (body ++ (dollar :: tag ++ [dollar]) ++ rest) →
      (∀ k, k < length body →
        starts_with (drop k (body ++ (dollar :: tag ++ [dollar]) ++ rest)) (dollar :: tag ++ [dollar]) = false) →
      token sql at_ (at_ + (length tag + 2) + length body + (length tag + 2))
  | token_dollar_sign :
      sql !! at_ = Some dollar → (∀ tag rest, ¬ opens_dollar (drop at_ sql) tag rest) →
      token sql at_ (at_ + 1)
  | token_line_comment body rest :
      drop at_ sql = dash :: dash :: body ++ rest → newline ∉ body →
      rest = [] ∨ head rest = Some newline → token sql at_ (at_ + 2 + length body)
  | token_block_comment rest :
      comment 0 (drop at_ sql) rest → token sql at_ (length sql - length rest)
  | token_byte b l :
      drop at_ sql = b :: l → b ∉ [quote1; quote2; dollar; semicolon] →
      ¬ (b = dash ∧ head l = Some dash) → ¬ (b = slash ∧ head l = Some star) →
      token sql at_ (at_ + 1).

(** A literal, an identifier, a dollar-quoted body or a block comment begins here. *)
Definition opens (sql : bytes) (at_ : nat) : Prop :=
  sql !! at_ = Some quote1 ∨ sql !! at_ = Some quote2 ∨
  (∃ tag rest, opens_dollar (drop at_ sql) tag rest) ∨
  starts_with (drop at_ sql) [slash; star] = true.

(** ... and never ends. *)
Definition unclosed (sql : bytes) (at_ : nat) : Prop := opens sql at_ ∧ ∀ to, ¬ token sql at_ to.

(** The text from [at_] on, in a statement that began at [start], cut at the semicolons
    that are in none of the forms. *)
Inductive cut (sql : bytes) : nat → nat → list (nat * nat) → Prop :=
  | cut_end start : cut sql start (length sql) [(start, length sql)]
  | cut_token start at_ to pieces : token sql at_ to → cut sql start to pieces → cut sql start at_ pieces
  | cut_semicolon start at_ pieces :
      sql !! at_ = Some semicolon → cut sql (at_ + 1) (at_ + 1) pieces →
      cut sql start at_ ((start, at_) :: pieces).

(** The offsets the scan comes to. *)
Inductive reached (sql : bytes) : nat → Prop :=
  | reached_start : reached sql 0
  | reached_token at_ to : reached sql at_ → token sql at_ to → reached sql to
  | reached_semicolon at_ : reached sql at_ → sql !! at_ = Some semicolon → reached sql (at_ + 1).

(** ** The scans *)

Lemma quoted_loop_spec q escapes rest : (escapes = true → q ≠ bslash) → ∀ at_ n,
  (skip_quoted_loop q escapes at_ rest = Some n ↔
   ∃ body rest', rest = body ++ q :: rest' ∧ quoted q escapes body ∧ head rest' ≠ Some q ∧
     n = at_ + length body + 1).
Proof.
  intros Hq at_ n. split.
  - revert at_ n. induction rest as [|b rest IH1 IH2] using bytes_ind2; intros at_ n; [done|].
    cbn [skip_quoted_loop]. destruct (bool_decide (b = bslash) && escapes) eqn:Eb.
    { apply andb_true_iff in Eb as [Eb%bool_decide_eq_true He]. subst b.
      destruct rest as [|c rest]; [done|].
      intros (body & rest' & -> & Hb & Hh & ->)%(IH2 c rest eq_refl).
      exists (bslash :: c :: body), rest'. split_and!; [done|by constructor|done|cbn; lia]. }
    destruct (bool_decide_reflect (b = q)) as [Ebq|Ebq].
    + subst b. destruct rest as [|c rest]; [intros [= <-]; exists [], []; cbn; split_and!; [done|constructor|done|lia]|].
      destruct (bool_decide_reflect (c = q)) as [Ec|Ec].
      * subst c. intros (body & rest' & -> & Hb & Hh & ->)%(IH2 q rest eq_refl).
        exists (q :: q :: body), rest'. split_and!; [done|by constructor|done|cbn; lia].
      * intros [= <-]. exists [], (c :: rest). cbn. split_and!; [done|constructor|congruence|lia].
    + intros (body & rest' & -> & Hb & Hh & ->)%IH1. exists (b :: body), rest'.
      split_and!; [done| |done|cbn; lia]. constructor; [done| |done]. intros -> ->. by rewrite andb_true_r, bool_decide_eq_true_2 in Eb.
  - intros (body & rest' & -> & Hb & Hh & ->). revert at_.
    induction Hb as [|b l Hbq Hbs Hb IH|l Hb IH|b l He Hb IH]; intros at_; cbn [app skip_quoted_loop length].
    + assert (bool_decide (q = bslash) && escapes = false) as ->.
      { destruct escapes; [|by rewrite andb_false_r]. rewrite bool_decide_eq_false_2; auto. }
      rewrite bool_decide_eq_true_2 by done. destruct rest' as [|c rest']; [f_equal; lia|].
      rewrite bool_decide_eq_false_2; [f_equal; lia|]. cbn in Hh. congruence.
    + assert (bool_decide (b = bslash) && escapes = false) as ->.
      { destruct escapes; [|by rewrite andb_false_r]. rewrite bool_decide_eq_false_2; auto. }
      rewrite bool_decide_eq_false_2 by done. rewrite IH. f_equal. lia.
    + assert (bool_decide (q = bslash) && escapes = false) as ->.
      { destruct escapes; [|by rewrite andb_false_r]. rewrite bool_decide_eq_false_2; auto. }
      rewrite !bool_decide_eq_true_2 by done. rewrite IH. f_equal. lia.
    + assert (bool_decide (bslash = bslash) && escapes = true) as -> by (by rewrite He).
      rewrite IH. f_equal. lia.
Qed.

Lemma find_tag_spec tag rest : ∀ at_ n,
  (find_tag tag at_ rest = Some n ↔
   ∃ body rest', rest = body ++ tag ++ rest' ∧ n = at_ + length body + length tag ∧
     ∀ k, k < length body → starts_with (drop k rest) tag = false).
Proof.
  induction rest as [|b rest IH]; intros at_ n; cbn [find_tag].
  - destruct (starts_with [] tag) eqn:E.
    + apply starts_with_spec in E as [r E]. symmetry in E. apply app_eq_nil in E as [-> ->].
      split; [intros [= <-]; exists [], []; cbn; split_and!; [done|lia|lia]|].
      intros (body & rest' & E & -> & _). symmetry in E. apply app_eq_nil in E as [-> _]. cbn. f_equal. lia.
    + split; [done|]. intros (body & rest' & E' & _). symmetry in E'. apply app_eq_nil in E' as [-> E'].
      rewrite <- E', starts_with_app in E. done.
  - destruct (starts_with (b :: rest) tag) eqn:E.
    + split.
      * intros [= <-]. apply starts_with_spec in E as [r E]. exists [], r. cbn. split_and!; [done|lia|lia].
      * intros (body & rest' & Hr & -> & Hk). destruct body as [|c body]; [cbn; f_equal; lia|].
        specialize (Hk 0 ltac:(cbn; lia)). cbn in Hk. congruence.
    + rewrite IH. split.
      * intros (body & rest' & -> & -> & Hk). exists (b :: body), rest'. cbn [app length].
        split_and!; [done|lia|]. intros [|k] Hlt; [done|]. apply Hk. lia.
      * intros (body & rest' & Hr & -> & Hk). destruct body as [|c body].
        { cbn in Hr. by rewrite Hr, starts_with_app in E. }
        injection Hr as <- Hr. exists body, rest'. split_and!; [done|cbn; lia|].
        intros k Hlt. apply (Hk (S k)). cbn. lia.
Qed.

Lemma skip_comment_step depth at_ a b rest :
  skip_comment_loop depth at_ (a :: b :: rest) =
  if bool_decide (a = slash) && bool_decide (b = star)
  then skip_comment_loop ((depth + 1) mod 2 ^ 64) (at_ + 2) rest
  else if bool_decide (a = star) && bool_decide (b = slash) then
    if ((depth - 1) mod 2 ^ 64 =? 0)%Z then Some (at_ + 2)
    else skip_comment_loop ((depth - 1) mod 2 ^ 64) (at_ + 2) rest
  else skip_comment_loop depth (at_ + 1) (b :: rest).
Proof. done. Qed.

(** Depths are counted in 64 bits; a comment nests no deeper than it is long. *)
Lemma comment_loop_spec rest : ∀ d at_ n,
  (Z.of_nat (S d) + Z.of_nat (length rest) < 2 ^ 64)%Z →
  (skip_comment_loop (Z.of_nat (S d)) at_ rest = Some n ↔
   ∃ rest', comment (S d) rest rest' ∧ n = at_ + (length rest - length rest')).
Proof.
  assert (∀ d l r, comment d l r → length r < length l) as Hlen.
  { induction 1; cbn in *; lia. }
  induction rest as [|a rest IH1 IH2] using bytes_ind2; intros d at_ n Hd.
  { split; [done|]. intros (r & Hc & _). inversion Hc. }
  destruct rest as [|b rest].
  { split; [done|]. intros (r & Hc & _). inversion Hc as [| | |? ? ? ? _ _ Hc']; subst. inversion Hc'. }
  cbn [length] in Hd. rewrite skip_comment_step.
  destruct (bool_decide (a = slash) && bool_decide (b = star)) eqn:Eo.
  { apply andb_true_iff in Eo as [->%bool_decide_eq_true ->%bool_decide_eq_true].
    replace ((Z.of_nat (S d) + 1) mod 2 ^ 64)%Z with (Z.of_nat (S (S d))) by (rewrite Z.mod_small; lia).
    rewrite (IH2 star rest eq_refl (S d)) by lia. split; intros (r & Hc & ->); exists r.
    - pose proof (Hlen _ _ _ Hc). split; [by constructor|cbn; lia].
    - assert (comment (S (S d)) rest r) as Hc'.
      { inversion Hc as [| | |? ? ? ? Hn]; subst; [done|]. destruct Hn. done. }
      pose proof (Hlen _ _ _ Hc'). split; [done|cbn; lia]. }
  destruct (bool_decide (a = star) && bool_decide (b = slash)) eqn:Ec.
  { apply andb_true_iff in Ec as [->%bool_decide_eq_true ->%bool_decide_eq_true].
    replace ((Z.of_nat (S d) - 1) mod 2 ^ 64)%Z with (Z.of_nat d) by (rewrite Z.mod_small; lia).
    destruct d as [|d].
    - cbn. split.
      + intros [= <-]. exists rest. split; [by constructor|lia].
      + intros (r & Hc & ->). inversion Hc as [| | |? ? ? ? _ Hn]; subst; [f_equal; lia|]. by destruct Hn.
    - destruct (Z.eqb_spec (Z.of_nat (S d)) 0); [lia|].
      rewrite (IH2 slash rest eq_refl d) by lia. split; intros (r & Hc & ->); exists r.
      + pose proof (Hlen _ _ _ Hc). split; [by constructor|cbn; lia].
      + assert (comment (S d) rest r) as Hc'.
        { inversion Hc as [| | |? ? ? ? _ Hn]; subst; [done|]. by destruct Hn. }
        pose proof (Hlen _ _ _ Hc'). split; [done|cbn; lia]. }
  rewrite IH1 by (cbn; lia). split; intros (r & Hc & ->); exists r.
  - pose proof (Hlen _ _ _ Hc). split; [|cbn in *; lia]. apply comment_char; [..|done].
    + intros [-> [= ->]]. by rewrite !bool_decide_eq_true_2 in Eo.
    + intros [-> [= ->]]. by rewrite !bool_decide_eq_true_2 in Ec.
  - assert (comment (S d) (b :: rest) r) as Hc'.
    { inversion Hc; subst; try done; by rewrite !bool_decide_eq_true_2 in Eo || by rewrite !bool_decide_eq_true_2 in Ec. }
    pose proof (Hlen _ _ _ Hc'). split; [done|cbn in *; lia].
Qed.

Lemma escape_string_spec sql at_ :
  backslash_escapes sql at_ = true ↔ escape_string sql at_.
Proof.
  unfold backslash_escapes, escape_string. destruct (decide (sql !! at_ = Some quote1)) as [Hq|Hq].
  2:{ rewrite bool_decide_eq_false_2 by done. cbn. split; [done|by intros [? _]]. }
  rewrite bool_decide_eq_true_2 by done. cbn [andb]. destruct at_ as [|n].
  { cbn. split; [done|]. intros (_ & pre & e & E & _). symmetry in E. apply app_eq_nil in E as [_ ?]. done. }
  rewrite (bool_decide_eq_true_2 (0 < S n)) by lia. cbn [andb]. replace (S n - 1) with n by lia.
  pose proof (lookup_lt_Some _ _ _ Hq) as Hlt.
  destruct (lookup_lt_is_Some_2 sql n ltac:(lia)) as [e He]. rewrite He.
  assert (last (take n sql) = match n with O => None | S m => sql !! m end) as Hlast.
  { destruct n as [|m]; [done|]. rewrite last_lookup, length_take_le by lia. cbn. apply lookup_take_lt. lia. }
  rewrite andb_true_iff, bool_decide_eq_true, orb_true_iff, bool_decide_eq_true. split.
  - intros [Hin Hor]. split; [done|]. exists (take n sql), e. split; [by apply take_S_r|]. split; [set_solver|].
    intros b Hb. rewrite Hlast in Hb. destruct n as [|m]; [done|]. replace (S (S m) - 2) with m in Hor by lia.
    rewrite Hb in Hor. destruct Hor as [?|Hor]; [lia|]. by apply negb_true_iff.
  - intros (_ & pre & e' & Ht & Hee & Hpre). rewrite (take_S_r _ _ _ He) in Ht.
    apply app_inj_2 in Ht as [<- [= <-]]; [|done]. split; [set_solver|].
    destruct n as [|m]; [by left|]. right. replace (S (S m) - 2) with m by lia.
    destruct (sql !! m) as [b|] eqn:Eb; [|done]. apply negb_true_iff, Hpre. by rewrite Hlast.
Qed.

Lemma valid_tag_spec tag : is_dollar_tag tag = true ↔ valid_tag tag.
Proof.
  unfold is_dollar_tag, valid_tag. destruct tag as [|b tag]; [split; [by split|done]|].
  assert (forallb (λ b, is_ident_byte b || (128 <=? b2z b)%Z) (b :: tag) = true ↔
    Forall (λ b, is_ident_byte b = true ∨ (128 ≤ b2z b)%Z) (b :: tag)) as Hf.
  { generalize (b :: tag) as l. induction l as [|x l IH]; [done|]. cbn [forallb].
    by rewrite andb_true_iff, IH, orb_true_iff, Z.leb_le, Forall_cons. }
  destruct (is_ascii_digit b) eqn:Ed.
  - split; [done|]. intros [_ Hh]. specialize (Hh b eq_refl). congruence.
  - rewrite Hf. split; [|by intros [? _]]. intros Ht. split; [done|]. by intros ? [= <-].
Qed.

(** The delimiter a dollar sign opens, as the scan looks for it. *)
Lemma opens_dollar_spec sql at_ tag rest :
  sql !! at_ = Some dollar →
  (opens_dollar (drop at_ sql) tag rest ↔
   position (λ b, bool_decide (b = dollar)) (drop (at_ + 1) sql) = Some (length tag) ∧
   is_dollar_tag tag = true ∧ drop (at_ + 1) sql = tag ++ dollar :: rest).
Proof.
  intros Hd. rewrite (drop_S _ _ _ Hd), Nat.add_1_r. unfold opens_dollar. rewrite valid_tag_spec. split.
  - intros ([= E] & Hn & Hv). split_and!; [|done..]. rewrite E. apply position_app; [|by apply bool_decide_eq_true].
    apply Forall_forall. intros x Hx. apply bool_decide_eq_false. by intros ->.
  - intros (Hp & Hv & E). split_and!; [by rewrite E|intros Hin|done].
    apply position_Some in Hp as (_ & _ & _ & Hf). rewrite E, take_app_length in Hf.
    eapply Forall_forall in Hf; [|exact Hin]. by rewrite bool_decide_eq_true_2 in Hf.
Qed.

Lemma opens_dollar_unique sql at_ tag rest tag' rest' :
  sql !! at_ = Some dollar → opens_dollar (drop at_ sql) tag rest → opens_dollar (drop at_ sql) tag' rest' →
  tag' = tag ∧ rest' = rest.
Proof.
  intros Hd (Hp & _ & E)%opens_dollar_spec (Hp' & _ & E')%opens_dollar_spec; [|done..].
  rewrite Hp in Hp'. injection Hp' as Hl. rewrite E in E'. by apply app_inj_1 in E' as [-> [= ->]].
Qed.

(** What a token that begins with a dollar sign is. *)
Lemma token_dollar_inv sql at_ to :
  sql !! at_ = Some dollar → token sql at_ to →
  (to = at_ + 1 ∧ ∀ tag rest, ¬ opens_dollar (drop at_ sql) tag rest) ∨
  ∃ tag body rest, opens_dollar (drop at_ sql) tag (body ++ (dollar :: tag ++ [dollar]) ++ rest) ∧
    (∀ k, k < length body →
      starts_with (drop k (body ++ (dollar :: tag ++ [dollar]) ++ rest)) (dollar :: tag ++ [dollar]) = false) ∧
    to = at_ + (length tag + 2) + length body + (length tag + 2).
Proof.
  intros Hd Ht. pose proof (drop_S _ _ _ Hd) as E0.
  inversion Ht as [q esc body rest E Hq|tag body rest Ho Hk|Hx Hn|body rest E|rest Hc|b l E Hnin]; subst.
  - rewrite E0 in E. injection E as <- _. by destruct Hq.
  - right. by exists tag, body, rest.
  - by left.
  - rewrite E0 in E. done.
  - rewrite E0 in Hc. inversion Hc.
  - rewrite E0 in E. injection E as <- _. set_solver.
Qed.

Lemma skip_dollar_spec sql at_ to :
  sql !! at_ = Some dollar → (skip_dollar_quoted sql at_ = Some to ↔ token sql at_ to).
Proof.
  intros Hd. pose (tagged := λ n, position (λ b, bool_decide (b = dollar)) (drop (at_ + 1) sql) = Some n ∧
    is_dollar_tag (take n (drop (at_ + 1) sql)) = true).
  assert ((∃ n, tagged n) ∨ ¬ ∃ n, tagged n) as [(n & Hp & Hv)|Hno].
  { unfold tagged. destruct (position _ _) as [n|]; [|right; naive_solver].
    destruct (is_dollar_tag (take n (drop (at_ + 1) sql))) eqn:Ev; [by left; exists n|].
    right. intros (n' & [= <-] & Hv). congruence. }
  - destruct (position_Some _ _ _ Hp) as (x & Hx & Hxd & _). apply bool_decide_eq_true in Hxd as ->.
    set (tag := take n (drop (at_ + 1) sql)) in *. set (rest := drop (at_ + 1 + n + 1) sql).
    assert (length tag = n) as Hl by (unfold tag; apply length_take_le; apply lookup_lt_Some in Hx; lia).
    assert (drop (at_ + 1) sql = tag ++ dollar :: rest) as E.
    { rewrite <- (take_drop n (drop (at_ + 1) sql)) at 1. unfold tag. f_equal.
      rewrite (drop_S _ _ _ Hx), drop_drop. unfold rest. do 2 f_equal. lia. }
    assert (opens_dollar (drop at_ sql) tag rest) as Ho by (apply opens_dollar_spec; [done|]; by rewrite Hl).
    unfold skip_dollar_quoted. rewrite Hp. fold tag. rewrite Hv.
    assert (take (at_ + 1 + n + 1 - at_) (drop at_ sql) = dollar :: tag ++ [dollar]) as ->.
    { replace (at_ + 1 + n + 1 - at_) with (S (n + 1)) by lia. rewrite (drop_S _ _ _ Hd). cbn [take].
      f_equal. rewrite <- (Nat.add_1_r at_), E, <- Hl, cons_middle, (assoc_L (++)).
      replace (length tag + 1) with (length (tag ++ [dollar])) by (by rewrite length_app). apply take_app_length. }
    rewrite find_tag_spec. fold rest. cbn [length]. rewrite length_app. cbn [length]. split.
    + intros (body & rest' & Er & -> & Hk). rewrite Er in Ho, Hk.
      replace (at_ + 1 + n + 1 + length body + S (length tag + 1))
        with (at_ + (length tag + 2) + length body + (length tag + 2)) by lia.
      by eapply token_dollar.
    + intros [[_ Hn]|(tag' & body & rest' & Ho' & Hk & ->)]%token_dollar_inv; [by destruct (Hn tag rest)| |done].
      destruct (opens_dollar_unique _ _ _ _ _ _ Hd Ho Ho') as [-> Er].
      exists body, rest'. rewrite <- Er. split_and!; [done|lia|done].
  - assert (skip_dollar_quoted sql at_ = Some (at_ + 1)) as ->.
    { unfold skip_dollar_quoted. destruct (position _ _) as [n|] eqn:Hp; [|done].
      destruct (is_dollar_tag _) eqn:Hv; [|done]. destruct Hno. by exists n. }
    assert (∀ tag rest, ¬ opens_dollar (drop at_ sql) tag rest) as Hn.
    { intros tag rest (Hp & Hv & E)%opens_dollar_spec; [|done]. apply Hno. exists (length tag).
      split; [done|]. by rewrite E, take_app_length. }
    split; [intros [= <-]; by constructor|].
    intros [[-> _]|(tag & body & rest & Ho & _)]%token_dollar_inv; [done| |done]. by destruct (Hn _ _ Ho).
Qed.

Lemma skip_quoted_spec sql at_ q to :
  sql !! at_ = Some q → (q = quote1 ∨ q = quote2) → (skip_quoted sql at_ = Some to ↔ token sql at_ to).
Proof.
  intros Hq Hqq. unfold skip_quoted. rewrite Hq.
  assert (backslash_escapes sql at_ = true → q ≠ bslash) as Hb by (destruct Hqq as [-> | ->]; done).
  rewrite (quoted_loop_spec _ _ _ Hb). pose proof (drop_S _ _ _ Hq) as Hd. rewrite Nat.add_1_r. split.
  - intros (body & rest & E & Hbody & Hh & ->). replace (S at_ + length body + 1) with (at_ + length body + 2) by lia.
    eapply token_quoted; [by rewrite Hd, E|done|apply escape_string_spec|done|done].
  - intros Ht.
    assert (∃ escapes body rest, drop at_ sql = q :: body ++ q :: rest ∧ (escapes = true ↔ escape_string sql at_) ∧
      quoted q escapes body ∧ head rest ≠ Some q ∧ to = at_ + length body + 2)
      as (escapes & body & rest & E & He & Hbody & Hh & ->).
    { inversion Ht as [q' esc body rest E _ He Hbody Hh|tag body rest [E _]|Hx|body rest E|rest Hc|b l E Hnin];
        rewrite Hd in *; subst.
      - injection E as <- E. exists esc, body, rest. rewrite E. done.
      - injection E as -> _. by destruct Hqq.
      - rewrite Hq in Hx. injection Hx as ->. by destruct Hqq.
      - injection E as -> _. by destruct Hqq.
      - inversion Hc; subst. by destruct Hqq.
      - injection E as <- _. set_solver. }
    assert (escapes = backslash_escapes sql at_) as ->.
    { rewrite <- escape_string_spec in He. destruct escapes, (backslash_escapes sql at_); naive_solver. }
    rewrite Hd in E. injection E as E. exists body, rest. split_and!; [done..|lia].
Qed.

Lemma comment_spec sql at_ to :
  starts_with (drop at_ sql) [slash; star] = true → (Z.of_nat (length sql) < 2 ^ 63)%Z →
  (skip_block_comment sql at_ = Some to ↔ token sql at_ to).
Proof.
  intros [l E]%starts_with_spec Hlen. unfold skip_block_comment. rewrite E. cbn [app].
  assert (length l + 2 = length sql - at_) as Hl.
  { rewrite <- length_drop, E. cbn. lia. }
  rewrite skip_comment_step, !bool_decide_eq_true_2 by done. cbn [andb].
  change ((0 + 1) mod 2 ^ 64)%Z with (Z.of_nat 1). rewrite comment_loop_spec by lia.
  assert (∀ d l r, comment d l r → length r < length l) as Hr.
  { induction 1; cbn in *; lia. }
  split.
  - intros (rest & Hc & ->). pose proof (Hr _ _ _ Hc).
    replace (at_ + 2 + (length l - length rest)) with (length sql - length rest) by lia.
    apply token_block_comment. rewrite E. by constructor.
  - intros Ht. assert (∃ rest, comment 1 l rest ∧ to = length sql - length rest) as (rest & Hc & ->).
    { inversion Ht as [q esc body rest E' Hq|tag body rest [E' _]|Hx|body rest E'|rest Hc|b l' E' _ _ Hn]; subst.
      - rewrite E in E'. injection E' as <- _. by destruct Hq.
      - by rewrite E in E'.
      - apply (drop_S sql) in Hx. by rewrite E in Hx.
      - by rewrite E in E'.
      - rewrite E in Hc. inversion Hc; subst. eauto.
      - rewrite E in E'. injection E' as <- <-. by destruct Hn. }
    exists rest. split; [done|]. pose proof (Hr _ _ _ Hc). lia.
Qed.

(** A token whose first byte is none of the quotes, the dollar sign or the semicolon. *)
Lemma token_plain_inv sql at_ b l to :
  drop at_ sql = b :: l → b ≠ quote1 → b ≠ quote2 → b ≠ dollar → ¬ (b = slash ∧ head l = Some star) → token sql at_ to →
  (∃ body rest, b = dash ∧ l = dash :: body ++ rest ∧ (newline ∉ body) ∧ (rest = [] ∨ head rest = Some newline) ∧
     to = at_ + 2 + length body) ∨
  (b ≠ semicolon ∧ ¬ (b = dash ∧ head l = Some dash) ∧ to = at_ + 1).
Proof.
  intros E Hq1 Hq2 Hdo Hs Ht.
  inversion Ht as [q esc body rest E' Hq|tag body rest [E' _]|Hx|body rest E'|rest Hc|b' l' E' Hn Hd]; subst.
  - rewrite E in E'. injection E' as <- _. by destruct Hq.
  - rewrite E in E'. by injection E'.
  - apply (drop_S sql) in Hx. rewrite E in Hx. by injection Hx.
  - rewrite E in E'. injection E' as -> ->. left. by exists body, rest.
  - rewrite E in Hc. inversion Hc; subst. by destruct Hs.
  - rewrite E in E'. injection E' as <- <-. right. split_and!; [|done..].
    intros ->. apply Hn. do 3 right. by left.
Qed.

Lemma line_comment_spec sql at_ l to :
  drop at_ sql = dash :: dash :: l →
  (to = match position (λ b, bool_decide (b = newline)) (drop at_ sql) with
        | Some n => at_ + n
        | None => length sql
        end ↔ token sql at_ to).
Proof.
  intros E.
  assert (length l + 2 = length sql - at_) as Hl by (rewrite <- length_drop, E; cbn; lia).
  assert (∀ body rest, l = body ++ rest → newline ∉ body → rest = [] ∨ head rest = Some newline →
    match position (λ b, bool_decide (b = newline)) (drop at_ sql) with
    | Some n => at_ + n | None => length sql end = at_ + 2 + length body) as Hpos.
  { intros body rest -> Hn Hr. rewrite E.
    assert (Forall (λ b, bool_decide (b = newline) = false) (dash :: dash :: body)) as Hf.
    { do 2 (constructor; [done|]). apply Forall_forall. intros b Hb. apply bool_decide_eq_false. by intros ->. }
    destruct rest as [|b rest].
    - rewrite app_nil_r in *. apply position_None in Hf as ->. lia.
    - destruct Hr as [?|[= ->]]; [done|]. change (dash :: dash :: body ++ newline :: rest)
        with ((dash :: dash :: body) ++ newline :: rest). rewrite position_app by done. cbn. lia. }
  split.
  - intros ->. destruct (position (λ b, bool_decide (b = newline)) l) as [n|] eqn:Ep.
    + apply position_Some in Ep as (x & Hx & ->%bool_decide_eq_true & Hf).
      pose proof (take_drop n l) as El. rewrite (drop_S _ _ _ Hx) in El.
      assert (newline ∉ take n l) as Hn.
      { intros Hin. eapply Forall_forall in Hf; [|exact Hin]. by rewrite bool_decide_eq_true_2 in Hf. }
      rewrite (Hpos (take n l) (newline :: drop (S n) l) ltac:(done) Hn (or_intror eq_refl)).
      eapply token_line_comment; [by rewrite E, <- El at 1|done|by right].
    + apply position_None in Ep.
      assert (newline ∉ l) as Hn.
      { intros Hin. eapply Forall_forall in Ep; [|exact Hin]. by rewrite bool_decide_eq_true_2 in Ep. }
      rewrite (Hpos l [] ltac:(by rewrite app_nil_r) Hn (or_introl eq_refl)).
      eapply token_line_comment; [by rewrite E, app_nil_r|done|by left].
  - intros [(body & rest & _ & [= ->] & Hn & Hr & ->)|(_ & Hd & _)]%(token_plain_inv _ _ dash (dash :: l)).
    + by rewrite (Hpos body rest).
    + by destruct Hd.
    + done.
    + done.
    + done.
    + done.
    + by intros [].
Qed.

(** The scanner steps over exactly the tokens. *)
Lemma lex_at_token sql at_ b to :
  sql !! at_ = Some b → (Z.of_nat (length sql) < 2 ^ 63)%Z →
  (lex_at sql at_ b = Some (Skip to) ↔ token sql at_ to).
Proof.
  intros Hb Hlen. pose proof (drop_S _ _ _ Hb) as E. unfold lex_at.
  assert (∀ o : option nat, Skip <$> o = Some (Skip to) ↔ o = Some to) as Hskip
    by (intros [n|]; cbn; naive_solver).
  destruct (bool_decide (b = quote1) || bool_decide (b = quote2)) eqn:Eq.
  { rewrite Hskip. apply orb_true_iff in Eq. rewrite !bool_decide_eq_true in Eq. by eapply skip_quoted_spec. }
  apply orb_false_iff in Eq as [Eq1%bool_decide_eq_false Eq2%bool_decide_eq_false].
  destruct (bool_decide_reflect (b = dollar)) as [->|Ed]; [rewrite Hskip; by apply skip_dollar_spec|].
  assert (sql !! (at_ + 1) = head (drop (S at_) sql)) as ->.
  { rewrite Nat.add_1_r, head_lookup, lookup_drop. by rewrite Nat.add_0_r. }
  destruct (bool_decide (b = dash) && _) eqn:El.
  { apply andb_true_iff in El as [->%bool_decide_eq_true El%bool_decide_eq_true].
    destruct (drop (S at_) sql) as [|c l] eqn:E'; [done|]. injection El as ->.
    rewrite <- (line_comment_spec sql at_ l to E). naive_solver. }
  destruct (bool_decide (b = slash) && _) eqn:Es.
  { apply andb_true_iff in Es as [->%bool_decide_eq_true Es%bool_decide_eq_true].
    rewrite Hskip. apply comment_spec; [|done]. rewrite E. apply starts_with_spec.
    destruct (drop (S at_) sql) as [|c l]; [done|]. injection Es as ->. by exists l. }
  assert (¬ (b = dash ∧ head (drop (S at_) sql) = Some dash)) as Hnd.
  { intros [-> Hh]. by rewrite Hh, !bool_decide_eq_true_2 in El. }
  assert (¬ (b = slash ∧ head (drop (S at_) sql) = Some star)) as Hns.
  { intros [-> Hh]. by rewrite Hh, !bool_decide_eq_true_2 in Es. }
  assert (token sql at_ to ↔ b ≠ semicolon ∧ to = at_ + 1) as ->.
  { split.
    - intros [(body & rest & -> & El' & _)|(? & _ & ?)]%(token_plain_inv _ _ b _ _ E); [|done..].
      destruct Hnd. by rewrite El'.
    - intros [Hsc ->]. eapply token_byte; [exact E| |done..].
      rewrite !not_elem_of_cons. split_and!; [done..|apply not_elem_of_nil]. }
  destruct (bool_decide_reflect (b = semicolon)); naive_solver.
Qed.

(** ** The statements *)

Lemma token_bounds sql at_ to : token sql at_ to → at_ < to ∧ to ≤ length sql.
Proof.
  assert (∀ l, drop at_ sql = l → l ≠ [] → at_ + length l = length sql) as Hl.
  { intros l <- Hne. rewrite length_drop. destruct (decide (at_ < length sql)); [lia|].
    by rewrite drop_ge in Hne by lia. }
  assert (∀ d l r, comment d l r → length r < length l) as Hc by (induction 1; cbn in *; lia).
  intros [q esc body rest E _|tag body rest [E _]|Hx|body rest E|rest H|b l E];
    try (specialize (Hl _ E ltac:(done)); cbn [length] in Hl; rewrite ?length_app in Hl; cbn [length] in Hl;
      rewrite ?length_app in Hl; cbn [length] in Hl; rewrite ?length_app in Hl; cbn [length] in Hl; lia).
  - apply lookup_lt_Some in Hx. lia.
  - specialize (Hc _ _ _ H). assert (drop at_ sql ≠ []) as Hne by (intros Hd; rewrite Hd in H; inversion H).
    specialize (Hl _ eq_refl Hne). lia.
Qed.

Section statements.
Context (sql : bytes) (Hlen : (Z.of_nat (length sql) < 2 ^ 63)%Z).

Lemma lex_at_semicolon at_ b : sql !! at_ = Some b → (lex_at sql at_ b = Some Separator ↔ b = semicolon).
Proof. intros Hb. split; [apply lex_at_separator|by intros ->]. Qed.

(** Where the scanner gives up. *)
Lemma lex_at_None at_ b : sql !! at_ = Some b → (lex_at sql at_ b = None ↔ unclosed sql at_).
Proof using Hlen.
  intros Hb. split.
  - intros Hn. split; [|intros to Ht%(lex_at_token _ _ b); [congruence|done..]].
    unfold lex_at in Hn. unfold opens. rewrite Hb.
    destruct (bool_decide_reflect (b = quote1)) as [->|_]; [by left|].
    destruct (bool_decide_reflect (b = quote2)) as [->|_]; [by right; left|]. right; right. cbn [orb] in Hn.
    destruct (bool_decide_reflect (b = dollar)) as [->|_].
    + left. unfold skip_dollar_quoted in Hn. destruct (position _ _) as [n|] eqn:Hp; [|done].
      destruct (is_dollar_tag _) eqn:Hv; [|done].
      destruct (position_Some _ _ _ Hp) as (x & Hx & ->%bool_decide_eq_true & _).
      exists (take n (drop (at_ + 1) sql)), (drop (S n) (drop (at_ + 1) sql)). apply opens_dollar_spec; [done|].
      rewrite length_take_le by (apply lookup_lt_Some in Hx; lia). split_and!; [done..|].
      by rewrite <- (drop_S _ _ _ Hx), take_drop.
    + destruct (bool_decide (b = dash) && _); [done|].
      destruct (bool_decide (b = slash) && _) eqn:Es; [|by destruct (bool_decide (b = semicolon))].
      apply andb_true_iff in Es as [->%bool_decide_eq_true Es%bool_decide_eq_true]. right.
      apply starts_with_spec. rewrite Nat.add_1_r in Es.
      exists (drop (S (S at_)) sql). by rewrite (drop_S _ _ _ Hb), (drop_S _ _ _ Es).
  - intros [Ho Hno]. destruct (lex_at sql at_ b) as [[|to]|] eqn:El; [|by destruct (Hno to); eapply lex_at_token|done].
    apply lex_at_separator in El as ->. exfalso. pose proof (drop_S _ _ _ Hb) as E.
    destruct Ho as [Ho|[Ho|[(tag & rest & Ho & _)|[r Ho]%starts_with_spec]]]; [by rewrite Hb in Ho..| |];
      by rewrite E in Ho.
Qed.

Definition texts (ranges : list Range) : list bytes := (λ r, slice sql (r_start r) (r_end r)) <$> ranges.
Definition piece_texts (pieces : list (nat * nat)) : list bytes :=
  filter (λ t, t ≠ []) ((λ p, trim (slice sql p.1 p.2)) <$> pieces).

(** Every range lies in one of the pieces. *)
Definition within (pieces : list (nat * nat)) (r : Range) : Prop :=
  ∃ p, p ∈ pieces ∧ p.1 ≤ r_start r ∧ r_end r ≤ p.2.

Lemma push_texts ranges from to :
  from ≤ to → to ≤ length sql →
  ∃ new, push_statement ranges sql from to = ranges ++ new ∧ texts new = piece_texts [(from, to)] ∧
    Forall (within [(from, to)]) new.
Proof using Type.
  intros Hf Ht. unfold piece_texts. cbn [fmap list_fmap fst snd].
  destruct (decide (trim (slice sql from to) = [])) as [E|E].
  - exists []. unfold push_statement. rewrite bool_decide_eq_true_2, app_nil_r by done.
    rewrite filter_cons_False by (by intros ?). done.
  - rewrite filter_cons_True by done. rewrite filter_nil.
    destruct (push_statement_spec ranges sql from to Hf Ht)
      as [En|(r & w1 & w2 & Er & H1 & _ & H3 & _ & _ & _ & _ & _ & Htr)].
    + exfalso. unfold push_statement in En. rewrite bool_decide_eq_false_2 in En by done.
      apply (f_equal length) in En. rewrite length_app in En. cbn in En. lia.
    + exists [r]. split; [done|]. cbn [texts fmap list_fmap]. split; [by rewrite <- Htr|].
      apply Forall_singleton. exists (from, to). split_and!; [by left|done..].
Qed.

Lemma piece_texts_cons p pieces : piece_texts (p :: pieces) = piece_texts [p] ++ piece_texts pieces.
Proof using Type. unfold piece_texts. by rewrite <- filter_app. Qed.

Lemma ranges_loop_cut fuel ranges start at_ out :
  start ≤ at_ → at_ ≤ length sql → ranges_loop fuel sql ranges start at_ = Some out →
  ∃ pieces new, cut sql start at_ pieces ∧ out = ranges ++ new ∧ texts new = piece_texts pieces ∧
    Forall (within pieces) new.
Proof using Hlen.
  revert ranges start at_. induction fuel as [|fuel IH]; intros ranges start at_ Hs Ha; [done|].
  cbn [ranges_loop]. destruct (sql !! at_) as [b|] eqn:Eb.
  - pose proof (lookup_lt_Some _ _ _ Eb) as Hlt. intros ([|to] & El & E)%bind_Some.
    + apply lex_at_separator in El as ->.
      destruct (push_texts ranges start at_ Hs Ha) as (new & Hp & Htx & Hw).
      rewrite Hp in E. apply IH in E as (pieces & new' & Hc & -> & Htx' & Hw'); [|lia..].
      exists ((start, at_) :: pieces), (new ++ new'). split_and!; [by constructor|by rewrite (assoc_L (++))| |].
      * unfold texts. rewrite fmap_app. fold (texts new) (texts new'). by rewrite Htx, Htx', <- piece_texts_cons.
      * apply Forall_app. split; (eapply Forall_impl; [eassumption|]); intros r (p & Hp' & ?);
          exists p; (split; [|done]); [apply list_elem_of_singleton in Hp' as ->; by left|by right].
    + apply (lex_at_token _ _ _ _ Eb Hlen) in El. pose proof (token_bounds _ _ _ El).
      apply IH in E as (pieces & new & Hc & ?); [|lia..]. exists pieces, new. split; [by eapply cut_token|done].
  - apply lookup_ge_None in Eb. assert (at_ = length sql) as -> by lia. intros [= <-].
    destruct (push_texts ranges start (length sql) Hs ltac:(lia)) as (new & -> & Htx & Hw).
    exists [(start, length sql)], new. split_and!; [constructor|done..].
Qed.

Lemma ranges_loop_None fuel ranges start at_ :
  length sql < at_ + fuel → 0 < fuel → reached sql at_ →
  ranges_loop fuel sql ranges start at_ = None → ∃ at', reached sql at' ∧ unclosed sql at'.
Proof using Hlen.
  revert ranges start at_. induction fuel as [|fuel IH]; intros ranges start at_ Hl Hpos Hr; [lia|].
  cbn [ranges_loop]. destruct (sql !! at_) as [b|] eqn:Eb; [|done]. pose proof (lookup_lt_Some _ _ _ Eb).
  destruct (lex_at sql at_ b) as [[|to]|] eqn:El; cbn [mbind option_bind].
  - apply lex_at_separator in El as ->. apply IH; [lia..|by constructor].
  - apply (lex_at_token _ _ _ _ Eb Hlen) in El. pose proof (token_bounds _ _ _ El).
    apply IH; [lia..|by eapply reached_token].
  - intros _. exists at_. split; [done|]. by apply (lex_at_None _ b).
Qed.

(** There is one way to read the text. *)
Lemma cut_step start at_ pieces : cut sql start at_ pieces →
  (∀ to, token sql at_ to → cut sql start to pieces) ∧
  (sql !! at_ = Some semicolon → ∃ pieces', cut sql (at_ + 1) (at_ + 1) pieces') ∧ ¬ unclosed sql at_.
Proof using Hlen.
  intros Hc. assert (∀ to, token sql at_ to → ∃ b, sql !! at_ = Some b ∧ lex_at sql at_ b = Some (Skip to)) as Hlex.
  { intros to Ht. pose proof (token_bounds _ _ _ Ht).
    destruct (lookup_lt_is_Some_2 sql at_ ltac:(lia)) as [b Hb]. exists b. split; [done|]. by apply lex_at_token. }
  assert (∀ b, unclosed sql at_ → sql !! at_ = Some b → lex_at sql at_ b = None) as Hun
    by (intros b Hu Hb; by apply lex_at_None).
  inversion Hc as [st|st at' to pcs Ht Hc'|st at' pcs Hsc Hc']; subst.
  - split_and!.
    + intros to Ht%token_bounds. lia.
    + intros Hx%lookup_lt_Some. lia.
    + intros [Ho _]. unfold opens, opens_dollar in Ho. rewrite drop_ge, lookup_ge_None_2 in Ho by lia.
      destruct Ho as [?|[?|[(? & ? & ? & _)|?]]]; done.
  - destruct (Hlex to Ht) as (b & Hb & El). split_and!.
    + intros to' Ht'. destruct (Hlex to' Ht') as (b' & Hb' & El'). rewrite Hb in Hb'. injection Hb' as <-.
      rewrite El in El'. by injection El' as <-.
    + intros Hx. rewrite Hb in Hx. injection Hx as ->. by rewrite (proj2 (lex_at_semicolon _ _ Hb) eq_refl) in El.
    + intros Hu. by rewrite (Hun b Hu Hb) in El.
  - split_and!.
    + intros to Ht. destruct (Hlex to Ht) as (b & Hb & El). rewrite Hsc in Hb. injection Hb as <-.
      by rewrite (proj2 (lex_at_semicolon _ _ Hsc) eq_refl) in El.
    + eauto.
    + intros Hu. pose proof (Hun _ Hu Hsc) as El. by rewrite (proj2 (lex_at_semicolon _ _ Hsc) eq_refl) in El.
Qed.

Lemma reached_cut at_ : reached sql at_ → ∀ pieces, cut sql 0 0 pieces → ∃ start pieces', cut sql start at_ pieces'.
Proof using Hlen.
  induction 1 as [|at_ to _ IH Ht|at_ _ IH Hs]; intros pieces Hc; [eauto| |];
    destruct (IH pieces Hc) as (start & pieces' & (H1 & H2 & _)%cut_step); eauto.
Qed.

End statements.

(** C36: the statements of a text are found where they are. The scan always ends (the
    cursor moves on every turn, so more turns would change nothing). It gives up
    exactly when, reading the text from its start, token by token, one comes to a
    literal, a quoted identifier, a dollar-quoted body or a block comment that is never
    closed. Otherwise it cuts the text at the semicolons that stand in none of these
    and in no comment, and its ranges hold, in order, the pieces that are not blank,
    without the whitespace around them; the ranges are disjoint, not empty and inside
    the text, each inside its piece, and both ends of each are character boundaries,
    so that slicing the text at them cannot panic. *)
Theorem statement_ranges_sound sql :
  is_utf8 sql = true → (Z.of_nat (length sql) < 2 ^ 63)%Z →
  (∀ fuel, length sql < fuel → ranges_loop fuel sql [] 0 0 = statement_ranges sql) ∧
  (statement_ranges sql = None ↔ ∃ at_, reached sql at_ ∧ unclosed sql at_) ∧
  (∀ ranges, statement_ranges sql = Some ranges →
     ∃ pieces, cut sql 0 0 pieces ∧ texts sql ranges = piece_texts sql pieces ∧
       Forall (within pieces) ranges ∧ chain 0 ranges (length sql) ∧ Forall (sliceable sql) ranges).
Proof.
  intros Hu Hlen. split_and!.
  - intros fuel Hf. apply ranges_loop_fuel; lia.
  - split.
    + apply ranges_loop_None; [done|lia..|constructor].
    + intros (at_ & Hr & Hun). destruct (statement_ranges sql) as [ranges|] eqn:E; [|done].
      apply ranges_loop_cut in E as (pieces & _ & Hc & _); [|done|lia..].
      destruct (reached_cut sql Hlen at_ Hr pieces Hc) as (start & pieces' & Hc').
      by destruct (cut_step sql Hlen start at_ pieces' Hc') as (_ & _ & []).
  - intros ranges E. pose proof E as E'.
    apply (ranges_loop_cut sql Hlen) in E' as (pieces & new & Hc & -> & Ht & Hw); [|lia..].
    destruct (ranges_loop_ok sql (S (length sql)) [] 0 0 new Hu) as [Hch Hsl]; [done|lia|cbn; lia|constructor|exact E|].
    by exists pieces.
Qed.

(** ** Witnesses *)

Module LexExample.
Import LexerExample.

Lemma statement_ranges_sound_witness :
  (∃ pieces, cut script 0 0 pieces ∧
     texts script (default [] (statement_ranges script)) = piece_texts script pieces) ∧
  ∃ at_, reached b#"SELECT 'a" at_ ∧ unclosed b#"SELECT 'a" at_.
Proof.
  split.
  - destruct (statement_ranges_sound script) as (_ & _ & Hs); [vm_compute; reflexivity..|].
    destruct (Hs (default [] (statement_ranges script))) as (pieces & Hc & Ht & _).
    { vm_compute. reflexivity. }
    exists pieces. split; [exact Hc|exact Ht].
  - destruct (statement_ranges_sound b#"SELECT 'a") as (_ & Hn & _); [vm_compute; reflexivity..|].
    apply Hn. vm_compute. reflexivity.
Defined.

End LexExample.
