(* ===== verification/Settings.v ===== *)
(** * Session settings a text moves ([crates/proxy/src/encrypt/settings.rs])

    Read from the tokens of a text, grouped by statement. *)

From S2P Require Import Prelude Sql Utf8.

Inductive SettingMoved := SearchPath | EscapeStrings.

#[global] Instance SettingMoved_eq_dec : EqDecision SettingMoved.
Proof. solve_decision. Defined.

(** [str::split(sep)] on a one-byte separator: always at least one part. *)
Fixpoint split_on (sep : byte) (s : bytes) : list bytes :=
  match s with
  | [] => [[]]
  | b :: s =>
      if bool_decide (b = sep) then [] :: split_on sep s
      else match split_on sep s with
           | part :: parts => (b :: part) :: parts
           | [] => [[b]]
           end
  end.

(** [slice.split(|t| p t)]. *)
Fixpoint split_by {A} (p : A → bool) (l : list A) : list (list A) :=
  match l with
  | [] => [[]]
  | x :: l =>
      if p x then [] :: split_by p l
      else match split_by p l with
           | part :: parts => (x :: part) :: parts
           | [] => [[x]]
           end
  end.

(** [str::trim_matches] with a double quote. *)
Fixpoint strip_quotes (s : bytes) : bytes :=
  match s with
  | b :: s' => if bool_decide (b = x22) then strip_quotes s' else s
  | [] => []
  end.
Definition trim_quotes (s : bytes) : bytes := rev (strip_quotes (rev (strip_quotes s))).

(** ** Reading an assignment *)

Definition keyword (token : Token) : option bytes :=
  match token with
  | Word value None => Some value
  | _ => None
  end.

Definition is_keyword (word : bytes) (token : Token) : bool :=
  match keyword token with Some w => eq_ignore_ascii_case w word | None => false end.

Fixpoint setting_values (tokens : list Token) : option (list bytes) :=
  match tokens with
  | [] | SemiColon :: _ | RParen :: _ => Some []
  | TokenComma :: tokens => setting_values tokens
  | Word value (Some _) :: tokens => cons value <$> setting_values tokens
  | Word value None :: tokens => cons (to_ascii_lowercase <$> value) <$> setting_values tokens
  | TokenString text :: tokens =>
      app ((λ part, trim_quotes (trim part)) <$> split_on ","%byte text) <$> setting_values tokens
  | TokenNumber number _ :: tokens => cons number <$> setting_values tokens
  | _ => None
  end.

Definition is_default_search_path (values : option (list bytes)) : bool :=
  match values with
  | None => false
  | Some values =>
      forallb (λ name, bool_decide (name = b#"public") || bool_decide (name = b#"$user")) values
      && existsb (λ name, bool_decide (name = b#"public")) values
  end.

Definition is_on_value (value : bytes) : bool :=
  existsb (λ spelling, eq_ignore_ascii_case value spelling)
    [b#"on"; b#"true"; b#"t"; b#"yes"; b#"y"; b#"1"].

Definition is_on (values : option (list bytes)) : bool :=
  match values with Some [value] => is_on_value value | _ => false end.

Definition moved_by (name : bytes) (values : option (list bytes)) : option SettingMoved :=
  if eq_ignore_ascii_case name b#"search_path" then
    if is_default_search_path values then None else Some SearchPath
  else if eq_ignore_ascii_case name b#"standard_conforming_strings" then
    if is_on values then None else Some EscapeStrings
  else None.

(** ** The two spellings of an assignment *)

(** [rest.get(1..)] after [rest.first()]. *)
Definition set_assignment (rest : list Token) : option SettingMoved :=
  match rest with
  | [] => None
  | t :: rest =>
      name ← keyword t;
      if eq_ignore_ascii_case name b#"schema" then moved_by b#"search_path" (setting_values rest)
      else
        match rest with
        | [] => None
        | t :: rest =>
            if match t with TokenEq => true | _ => is_keyword b#"to" t end
            then moved_by name (setting_values rest)
            else None
        end
  end.

Definition set_statement (tokens : list Token) : option SettingMoved :=
  match tokens with
  | [] => None
  | t :: rest =>
      if is_keyword b#"session" t || is_keyword b#"local" t then set_assignment rest
      else set_assignment tokens
  end.

Definition set_config_call (tokens : list Token) : option SettingMoved :=
  match tokens with
  | LParen :: args =>
      match args with
      | TokenString setting :: args =>
          match args with
          | [] => None
          | TokenComma :: value :: _ => moved_by setting (setting_values [value])
          | TokenComma :: [] => None
          | _ => Some SearchPath
          end
      | _ => Some SearchPath
      end
  | _ => None
  end.

(** ** One statement, one text *)

(** [moved.push(setting)] unless it is there. *)
Definition push_setting (moved : list SettingMoved) (found : option SettingMoved) : list SettingMoved :=
  match found with
  | Some setting => if bool_decide (setting ∈ moved) then moved else moved ++ [setting]
  | None => moved
  end.

Fixpoint settings_loop (first : bool) (moved : list SettingMoved) (tokens : list Token)
    : list SettingMoved :=
  match tokens with
  | [] => moved
  | token :: rest =>
      let found :=
        if first && is_keyword b#"set" token then set_statement rest
        else if is_keyword b#"set_config" token then set_config_call rest
        else None in
      settings_loop false (push_setting moved found) rest
  end.

Definition statement_settings_moved (tokens : list Token) : list SettingMoved :=
  settings_loop true [] tokens.

Definition is_whitespace_token (t : Token) : bool :=
  match t with Whitespace _ => true | _ => false end.
Definition is_semicolon (t : Token) : bool := match t with SemiColon => true | _ => false end.

Definition settings_moved (all : list TokenWithSpan) : list (list SettingMoved) :=
  let tokens := List.filter (λ t, negb (is_whitespace_token t)) (tws_token <$> all) in
  statement_settings_moved <$>
    List.filter (λ s, negb (bool_decide (s = []))) (split_by is_semicolon tokens).

(** ** What the scan sees *)

Lemma split_by_cons {A} (p : A → bool) l : ∃ part parts, split_by p l = part :: parts.
Proof.
  induction l as [|x l (part & parts & E)]; cbn; [eauto|].
  destruct (p x); [eauto|]. rewrite E. eauto.
Qed.

Lemma split_by_app {A} (p : A → bool) l x k :
  p x = true → split_by p (l ++ x :: k) = split_by p l ++ split_by p k.
Proof.
  intros Hx. induction l as [|y l IH]; cbn; [by rewrite Hx|]. rewrite IH.
  destruct (p y); [done|]. by destruct (split_by_cons p l) as (part & parts & ->).
Qed.

(** The scan is per statement: what a semicolon separates is read apart, in order,
    whatever the two texts are; so a setting a later statement moves is never charged
    to an earlier one, and none is lost at the boundary. *)
Theorem settings_are_read_per_statement all1 span all2 :
  settings_moved (all1 ++ {| tws_token := SemiColon; tws_span := span |} :: all2)
  = settings_moved all1 ++ settings_moved all2.
Proof.
  unfold settings_moved. rewrite fmap_app, List.filter_app, fmap_cons. cbn [List.filter tws_token is_whitespace_token negb].
  by rewrite split_by_app, List.filter_app, fmap_app.
Qed.

Lemma push_keeps moved found setting : setting ∈ moved → setting ∈ push_setting moved found.
Proof. destruct found; cbn; [|done]. case_bool_decide; set_solver. Qed.

Lemma settings_loop_keeps first moved tokens setting :
  setting ∈ moved → setting ∈ settings_loop first moved tokens.
Proof.
  revert first moved. induction tokens as [|t tokens IH]; intros first moved Hin; cbn; [done|].
  apply IH. by apply push_keeps.
Qed.

(** The words that may stand between SET and the name. *)
Definition set_scope (scope : list Token) : Prop :=
  scope = [] ∨ ∃ w, scope = [Word w None] ∧
    (eq_ignore_ascii_case w b#"session" = true ∨ eq_ignore_ascii_case w b#"local" = true).

Definition set_operator (op : Token) : Prop :=
  op = TokenEq ∨ ∃ w, op = Word w None ∧ eq_ignore_ascii_case w b#"to" = true.

(** Two words that are not the same in lower case are not both equal to a third. *)
Lemma eq_ignore_ascii_case_trans a b c :
  eq_ignore_ascii_case a b = true → eq_ignore_ascii_case a c = true →
  eq_ignore_ascii_case b c = true.
Proof. unfold eq_ignore_ascii_case. intros ?%bool_decide_eq_true ?%bool_decide_eq_true. apply bool_decide_eq_true. congruence. Qed.

Lemma set_found set_ scope name op rest :
  eq_ignore_ascii_case set_ b#"set" = true → set_scope scope → set_operator op →
  eq_ignore_ascii_case name b#"schema" = false →
  eq_ignore_ascii_case name b#"session" = false → eq_ignore_ascii_case name b#"local" = false →
  ∀ setting, moved_by name (setting_values rest) = Some setting →
  setting ∈ statement_settings_moved (Word set_ None :: scope ++ Word name None :: op :: rest).
Proof.
  intros Hset Hscope Hop Hn1 Hn2 Hn3 setting Hm. unfold statement_settings_moved. cbn [settings_loop].
  apply settings_loop_keeps. unfold is_keyword at 1. cbn [keyword]. rewrite Hset. cbn [andb].
  assert (set_assignment (Word name None :: op :: rest) = Some setting) as Ha.
  { cbn. rewrite Hn1. destruct Hop as [->|(w & -> & Hw)]; [done|]. unfold is_keyword. cbn. by rewrite Hw. }
  assert (set_statement (scope ++ Word name None :: op :: rest) = Some setting) as Hs.
  { destruct Hscope as [->|(w & -> & Hw)]; cbn [app set_statement]; unfold is_keyword; cbn [keyword].
    - by rewrite Hn2, Hn3.
    - destruct Hw as [-> | ->]; cbn [orb]; [done|]. by rewrite orb_true_r. }
  rewrite Hs. cbn. case_bool_decide; set_solver.
Qed.

(** A [SET search_path], in any letter case, with SESSION, LOCAL or neither, and with
    [=] or [TO], leaves the search path trusted only if its value was read and names
    [public], and besides [public] nothing but [$user]; likewise only a value that
    spells [on] leaves [standard_conforming_strings] trusted. *)
Theorem unflagged_set_keeps_assumptions set_ scope name op rest :
  eq_ignore_ascii_case set_ b#"set" = true → set_scope scope → set_operator op →
  (eq_ignore_ascii_case name b#"search_path" = true →
   SearchPath ∉ statement_settings_moved (Word set_ None :: scope ++ Word name None :: op :: rest) →
   ∃ values, setting_values rest = Some values ∧ b#"public" ∈ values ∧
     Forall (λ v, v = b#"public" ∨ v = b#"$user") values) ∧
  (eq_ignore_ascii_case name b#"standard_conforming_strings" = true →
   EscapeStrings ∉ statement_settings_moved (Word set_ None :: scope ++ Word name None :: op :: rest) →
   ∃ value, setting_values rest = Some [value] ∧ is_on_value value = true).
Proof.
  intros Hset Hscope Hop.
  assert (∀ other setting, eq_ignore_ascii_case name other = true →
    eq_ignore_ascii_case other b#"schema" = false → eq_ignore_ascii_case other b#"session" = false →
    eq_ignore_ascii_case other b#"local" = false →
    setting ∉ statement_settings_moved (Word set_ None :: scope ++ Word name None :: op :: rest) →
    moved_by name (setting_values rest) ≠ Some setting) as Hnot.
  { intros other setting Ho H1 H2 H3 Hout Hm. apply Hout.
    assert (∀ w, eq_ignore_ascii_case other w = false → eq_ignore_ascii_case name w = false) as Hw.
    { intros w Hw. destruct (eq_ignore_ascii_case name w) eqn:E; [|done].
      by rewrite (eq_ignore_ascii_case_trans _ _ _ Ho E) in Hw. }
    apply set_found; auto. }
  split; intros Hn Hout; apply (Hnot _ _ Hn) in Hout; try done; unfold moved_by in Hout.
  - rewrite Hn in Hout. destruct (is_default_search_path _) eqn:E; [|done]. unfold is_default_search_path in E.
    destruct (setting_values rest) as [values|]; [|done]. exists values. split; [done|].
    apply andb_true_iff in E as [Ha He]. split.
    + apply existsb_exists in He as (v & Hv & ->%bool_decide_eq_true). by apply list_elem_of_In.
    + apply Forall_forall. intros v Hv%list_elem_of_In. rewrite forallb_forall in Ha.
      apply Ha, orb_true_iff in Hv as [Hv|Hv]; apply bool_decide_eq_true in Hv; auto.
  - assert (eq_ignore_ascii_case name b#"search_path" = false) as Hp.
    { destruct (eq_ignore_ascii_case name b#"search_path") eqn:E; [|done].
      by apply (eq_ignore_ascii_case_trans _ _ _ Hn) in E. }
    rewrite Hp, Hn in Hout. destruct (is_on _) eqn:E; [|done]. unfold is_on in E.
    destruct (setting_values rest) as [[|v [|? ?]]|]; try done. eauto.
Qed.

(** ** Witnesses, and what the scan misses *)

Module SettingsExample.

Definition word (w : bytes) : Token := Word w None.
Definition quoted (w : bytes) : Token := Word w (Some 34%Z).

(** [Set Local Search_Path TO "$user", public]. *)
Lemma unflagged_set_keeps_assumptions_witness :
  ∃ values, setting_values [quoted b#"$user"; TokenComma; word b#"PUBLIC"] = Some values ∧
    b#"public" ∈ values ∧ Forall (λ v, v = b#"public" ∨ v = b#"$user") values.
Proof.
  apply (unflagged_set_keeps_assumptions b#"Set" [word b#"Local"] b#"Search_Path" (word b#"TO")
    [quoted b#"$user"; TokenComma; word b#"PUBLIC"]).
  - vm_compute. reflexivity.
  - right. exists b#"Local". split; [reflexivity|]. right. vm_compute. reflexivity.
  - right. exists b#"TO". split; [reflexivity|]. vm_compute. reflexivity.
  - vm_compute. reflexivity.
  - intros Hin. vm_compute in Hin. by apply elem_of_nil in Hin.
Defined.

(** [SET "search_path" TO tenant7]: the server resolves a quoted setting name, the scan
    does not see one. *)
Lemma quoted_setting_name_not_seen :
  statement_settings_moved [word b#"SET"; quoted b#"search_path"; word b#"TO"; word b#"tenant7"] = [].
Proof. vm_compute. reflexivity. Qed.

(** [SELECT "set_config"('search_path', 'tenant7', false)]: likewise a function name. *)
Lemma quoted_function_name_not_seen :
  statement_settings_moved
    [word b#"SELECT"; quoted b#"set_config"; LParen; TokenString b#"search_path"; TokenComma;
     TokenString b#"tenant7"; TokenComma; word b#"false"; RParen] = [].
Proof. vm_compute. reflexivity. Qed.

(** [SELECT set_config('search_path', 'public' || '_tenant7', false)]: the value is read
    from its first token. *)
Lemma computed_value_not_seen :
  statement_settings_moved
    [word b#"SELECT"; word b#"set_config"; LParen; TokenString b#"search_path"; TokenComma;
     TokenString b#"public"; TokenOther b#"||"; TokenString b#"_tenant7"; TokenComma;
     word b#"false"; RParen] = [].
Proof. vm_compute. reflexivity. Qed.

End SettingsExample.
