(* ===== verification/Unprotected.v ===== *)
(** * What the proxy cannot protect, and how it says so
    ([crates/proxy/src/encrypt/unprotected.rs])

    The sites, the wording of a refusal and the frame that carries it. A site
    carries the names and the shape its message is formatted from, and never a
    value. *)

From S2P Require Import Prelude Sql Utf8 IntText Crates Pgwire ArrayCodec.
Import Ast.

(** ** Sites *)

Inductive Unprotected :=
  | NonUtf8
  | Unparseable (error : ParserError)
  | NoColumnList (table : ObjectName)
  | InsertFromSelect (table : ObjectName)
  | CopySite (table : ObjectName) (to : bool)
  | CopyQuerySite (table : bytes)
  | Unsupported (table : ObjectName) (shape : bytes)
  | AmbiguousLiteral (column : bytes)
  | UnsupportedValue (column shape : bytes)
  | ComputedColumn (column shape : bytes)
  | RowKeyMissing (table column shape : bytes)
  | RowKeyReassigned (table column : bytes)
  | Predicate (column shape : bytes)
  | AmbiguousColumn (column shape : bytes)
  | UnindexedPredicate (column shape : bytes)
  | SearchPathChanged
  | EscapeStringsChanged
  | SearchPathSite (table : ObjectName).

(** The variant, never the parser's own message, which embeds the offending token. *)
Definition parser_error_kind (error : ParserError) : bytes :=
  match error with
  | TokenizerError _ => b#"tokenizer"
  | ParserErrorMessage _ => b#"parser"
  | RecursionLimitExceeded => b#"recursion limit"
  end.

(** U+2014, as its UTF-8 bytes. *)
Definition EM_DASH : bytes := [xe2; x80; x94].

Section message.
Context `{SqlParserCrate}.

#[local] Abbreviation show := sql_name_to_string.

Definition detail (site : Unprotected) : bytes :=
  match site with
  | NonUtf8 => b#"the query is not valid UTF-8, so protected columns cannot be found in it"
  | Unparseable error =>
      b#"the SQL could not be parsed (" ++ parser_error_kind error
      ++ b#"), so protected columns cannot be found in it"
  | NoColumnList table =>
      b#"INSERT into protected table " ++ show table ++ b#" needs an explicit column list"
  | InsertFromSelect table =>
      b#"INSERT ... SELECT into protected table " ++ show table ++ b#" cannot be encrypted"
  | CopySite table to =>
      b#"COPY " ++ (if to then b#"from" else b#"into") ++ b#" protected table " ++ show table
      ++ b#" bypasses the proxy's encryption and masking"
  | CopyQuerySite table =>
      b#"COPY of a query reading protected table " ++ table ++ b#" returns its rows as CopyData, "
      ++ b#"which cannot be decrypted or masked; run the query as an ordinary SELECT instead"
  | Unsupported table shape =>
      shape ++ b#" writing protected table " ++ show table ++ b#" cannot be encrypted"
  | AmbiguousLiteral column =>
      b#"a value for protected column " ++ column ++ b#" contains a backslash and this session "
      ++ b#"turned standard_conforming_strings off, so the proxy cannot read it the way "
      ++ b#"the server will"
  | UnsupportedValue column shape =>
      b#"protected column " ++ column ++ b#" was assigned a " ++ shape
      ++ b#", which cannot be encrypted"
  | ComputedColumn column shape =>
      b#"protected column " ++ column ++ b#" was projected through a " ++ shape
      ++ b#"; the result carries no table identity, so it cannot be decrypted or masked and would "
      ++ b#"be returned in its stored form; select the column directly instead"
  | RowKeyMissing table column shape =>
      table ++ b#" binds its encrypted values to the row key " ++ column ++ b#", but this is a "
      ++ shape ++ b#"; the statement must supply " ++ column ++ b#" as a literal or a parameter"
  | RowKeyReassigned table column =>
      table ++ b#" binds its encrypted values to the row key " ++ column
      ++ b#", and this statement assigns " ++ column
      ++ b#" itself, so the value would be sealed against a row it does not land in; change "
      ++ column ++ b#" in a statement that writes no protected column of " ++ table
  | Predicate column shape =>
      b#"searchable column " ++ column ++ b#" was used in a " ++ shape
      ++ b#", which cannot be matched against its blind index"
  | AmbiguousColumn column shape =>
      b#"column " ++ column ++ b#" in a " ++ shape ++ b#" matches a protected column in more than "
      ++ b#"one relation in scope, so it cannot be resolved to one and the comparison would "
      ++ b#"match no rows; qualify it with its table or alias"
  | UnindexedPredicate column shape =>
      b#"protected column " ++ column ++ b#" was used in a " ++ shape
      ++ b#", but it has no equality index, so the comparison would match no rows; "
      ++ b#"set searchable = true on this column to make equality searchable"
  | SearchPathChanged =>
      b#"changing search_path leaves unqualified names resolving to an unknown schema"
  | EscapeStringsChanged =>
      b#"turning standard_conforming_strings off changes what a backslash in a string literal "
      ++ b#"means, so a value bound to a protected column can no longer be read the way the "
      ++ b#"server would read it"
  | SearchPathSite table =>
      show table ++ b#" is unqualified and this session changed search_path, so it cannot be "
      ++ b#"resolved to a protected table"
  end.

Definition message (site : Unprotected) : bytes :=
  b#"dbsec refused this statement: " ++ detail site ++ b#" (on_unprotected = " ++ [x22]
  ++ b#"reject" ++ [x22] ++ b#")".

(** What a site is logged as: the fields of the event, and its text. *)
Record Warning := { wn_fields : list (bytes * bytes); wn_text : bytes }.

#[local] Abbreviation log fields text := {| wn_fields := fields; wn_text := text |}.

Definition warn (site : Unprotected) : Warning :=
  match site with
  | NonUtf8 => log [] b#"query is not valid UTF-8; passing through unencrypted"
  | Unparseable error =>
      log [(b#"error_kind", parser_error_kind error)] b#"unparseable SQL; passing through unencrypted"
  | NoColumnList table =>
      log [(b#"table", show table)]
        b#"INSERT without a column list on a protected table; passing through unencrypted"
  | InsertFromSelect table =>
      log [(b#"table", show table)] b#"INSERT ... SELECT into a protected table; passing through unencrypted"
  | CopySite table to =>
      log [(b#"table", show table); (b#"direction", if to then b#"to" else b#"from")]
        b#"COPY on a protected table is not encrypted or masked by the proxy"
  | CopyQuerySite table =>
      log [(b#"table", table); (b#"direction", b#"to")]
        (b#"COPY of a query over a protected table streams its rows as CopyData, which the "
         ++ b#"read path cannot decrypt or mask")
  | Unsupported table shape =>
      log [(b#"table", show table); (b#"shape", shape)]
        b#"statement writes a protected table but is not rewritten; passing through unencrypted"
  | AmbiguousLiteral column =>
      log [(b#"column", column)]
        (b#"string literal contains a backslash and this session turned "
         ++ b#"standard_conforming_strings off, so the proxy cannot read it the way the "
         ++ b#"server will; passing through unencrypted")
  | UnsupportedValue column shape =>
      log [(b#"column", column); (b#"shape", shape)]
        b#"unsupported expression for a protected column; passing through unencrypted"
  | ComputedColumn column shape =>
      log [(b#"column", column); (b#"shape", shape)]
        (b#"protected column projected through an expression; the result has no table OID, "
         ++ b#"so the read path cannot decrypt or mask it and will relay the stored value")
  | RowKeyMissing table column shape =>
      log [(b#"table", table); (b#"row_key", column); (b#"shape", shape)]
        (b#"row-bound table written without its row key; the value is sealed against its "
         ++ b#"column only. It still decrypts " ++ EM_DASH ++ b#" what is lost is relocation detection: it can "
         ++ b#"be copied into another row of this column undetected until it is re-encrypted. "
         ++ b#"Set strict_row_binding on this [[table]] to have such a value refused on read "
         ++ b#"instead of opening")
  | RowKeyReassigned table column =>
      log [(b#"table", table); (b#"row_key", column)]
        (b#"assignment list on a row-bound table writes its row key; a value sealed here "
         ++ b#"would be bound to the row the statement moves it out of and will not open")
  | Predicate column shape =>
      log [(b#"column", column); (b#"shape", shape)]
        b#"unsupported predicate for a searchable column; it will match no rows"
  | AmbiguousColumn column shape =>
      log [(b#"column", column); (b#"shape", shape)]
        (b#"unqualified column matches a protected column in more than one relation in "
         ++ b#"scope, so the predicate cannot be rewritten and will match no rows; qualify "
         ++ b#"it with its table or alias")
  | UnindexedPredicate column shape =>
      log [(b#"column", column); (b#"shape", shape)]
        (b#"predicate over a protected column with no equality index; it will match no rows "
         ++ b#"because the stored form is not the plaintext. Set searchable = true on this "
         ++ b#"column to make equality searchable")
  | SearchPathChanged =>
      log [] (b#"session changed search_path; unqualified names no longer resolve to the "
              ++ b#"configured schema")
  | EscapeStringsChanged =>
      log [] (b#"session turned standard_conforming_strings off; a backslash in a string "
              ++ b#"literal no longer means to PostgreSQL what the proxy reads it as")
  | SearchPathSite table =>
      log [(b#"table", show table)]
        (b#"unqualified name may be a protected table under this session's search_path; "
         ++ b#"passing through unencrypted")
  end.

(** The two wordings name one site: whatever the log is told of it, the direction of a
    COPY apart, the client is told too. *)
Lemma warning_is_in_message site field value :
  (field, value) ∈ wn_fields (warn site) → field = b#"direction" ∨ quotes (message site) value.
Proof.
  intros Hin. destruct (decide (field = b#"direction")) as [|Hne]; [by left|right].
  unfold message. apply quotes_app_r, quotes_app_l.
  destruct site; cbn [warn wn_fields] in Hin; rewrite ?elem_of_cons, ?elem_of_nil in Hin;
    destruct_or?; try done; simplify_eq; cbn [detail];
    eauto 8 using quotes_refl, quotes_app_l, quotes_app_r.
Qed.

End message.

(** The two refusals of the frame layer that consult no policy. *)
Definition conflicting_message (placeholder : nat) : bytes :=
  b#"dbsec refused this statement: placeholder $" ++ usize_to_string placeholder
  ++ b#" feeds two protected positions that need different values, and a Bind carries one value "
  ++ b#"per placeholder; give each position its own placeholder".

(** [why] is the text of the [RowKeyType] error. *)
Definition row_key_message (placeholder : nat) (column why : bytes) : bytes :=
  b#"dbsec refused this statement: placeholder $" ++ usize_to_string placeholder
  ++ b#" supplies the row key " ++ column
  ++ b#" that this statement's protected values are sealed against, but " ++ why
  ++ b#"; bind a usable " ++ column ++ b#" for the row being written".

(** ** Frames *)

Definition REFUSED_SQLSTATE : bytes := b#"42501".
Definition MAX_ERROR_MESSAGE : nat := 512.

(** [i32::try_from(len).unwrap_or(i32::MAX)]. *)
Definition frame (msg_type : byte) (body : bytes) : bytes :=
  let length := default (2 ^ 31 - 1)%Z (i32_try_from (FRAME_HEADER_LEN - 1 + length body)) in
  [msg_type] ++ be_bytes 4 length ++ body.

(** [while !message.is_char_boundary(end) { end -= 1 }]. *)
Fixpoint floor_boundary (message : bytes) (end_ : nat) : nat :=
  if is_char_boundary message end_ then end_
  else match end_ with O => O | S end_ => floor_boundary message end_ end.

Definition error_field (field : byte) (value : bytes) : bytes := [field] ++ value ++ [x00].

Definition error_response (message : bytes) : bytes :=
  let end_ := floor_boundary message (min MAX_ERROR_MESSAGE (length message)) in
  let truncated := take end_ message in
  frame "E"%byte
    (error_field "S"%byte b#"ERROR" ++ error_field "V"%byte b#"ERROR"
     ++ error_field "C"%byte REFUSED_SQLSTATE ++ error_field "M"%byte truncated ++ [x00]).
