(* ===== verification/Portal.v ===== *)
(** * Extended-protocol session state ([crates/proxy/src/portal.rs])

    What the two relay directions of a session share: prepared statements,
    portals, and the queue of responses the server still owes. A method takes
    the session's lock for one operation, so a session is a sequence of
    operations of both directions, in any order. [D] is what a RowDescription
    was recorded as ([rows::Described]); an [Arc<dyn FieldTransform>], which the
    code compares by address, is an address. *)

From S2P Require Import Prelude Utf8 Crates Pgwire Errors Envelope RowKeys.

Definition MAX_PREPARED_STATEMENTS : nat := 1024.
Definition MAX_PORTALS : nat := 1024.
Definition MAX_NAME_LEN : nat := 256.
Definition MAX_PENDING_RESPONSES : nat := 4096.
Definition COPY_DATA : byte := "d"%byte.

(** ** Result formats *)

(** The codes of one Bind; [None] is the all-text default of the simple protocol. *)
Definition ResultFormats : Type := option (list Z).

Definition for_column (self : ResultFormats) (index : nat) : Z :=
  match self with
  | Some codes => format_code codes index
  | None => 0
  end.

Definition value_format (code : Z) : result Core.Error Format :=
  if (code =? 0)%Z then Ok FText
  else if (code =? 1)%Z then Ok FBinary
  else Err (Core.RowKeyType (KeyFormatUnknown code)).

(** ** What Bind does to each parameter *)

(** The address of an [Arc<dyn FieldTransform>]. *)
Definition TransformPtr : Type := nat.

Inductive RowKeySource :=
  | SourceNone
  | SourceLiteral (key : RowKey)
  | SourceParam (index : nat) (type_oid : Z) (column : bytes).

#[global] Instance RowKeySource_eq_dec : EqDecision RowKeySource.
Proof. solve_decision. Defined.

Inductive ParamAction :=
  | Seal (transform : TransformPtr) (row : RowKeySource)
  | SearchIndex (transform : TransformPtr)
  | SearchIndexArray (transform : TransformPtr) (column : bytes).

#[global] Instance ParamAction_eq_dec : EqDecision ParamAction.
Proof. solve_decision. Defined.

Definition agrees_with (self other : ParamAction) : bool :=
  match self, other with
  | Seal a ra, Seal b rb => bool_decide (a = b) && bool_decide (ra = rb)
  | SearchIndex a, SearchIndex b => bool_decide (a = b)
  | SearchIndexArray a ca, SearchIndexArray b cb =>
      bool_decide (a = b) && bool_decide (ca = cb)
  | _, _ => false
  end.

Definition ParamTransforms : Type := list (nat * ParamAction).

(** [ParamTransforms::record]; the placeholder is counted from one in the error. *)
Definition record (index : nat) (action : ParamAction) : M ParamTransforms Proxy.Error () :=
  λ entries,
    match list_find (λ e, e.1 = index) entries with
    | Some (_, (_, existing)) =>
        if agrees_with existing action then (Ok tt, entries)
        else (Err (Proxy.ConflictingParameter (index + 1)), entries)
    | None => (Ok tt, entries ++ [(index, action)])
    end.

(** ** Session state *)

Inductive Target := TStatement | TPortal.

(** [Idle], or [Started] by the Execute of this id (none for a simple COPY). *)
Inductive CopyIn := Idle | Started (execute : option Z).

Section portal.
Context {D : Type} (no_positions : D).

Record Statement := {
  st_id : Z;
  st_params : ParamTransforms;
  st_described : option D;
}.

Inductive Pending :=
  | PDescribe (statement : option (bytes * Z))
  | PExecute (id : Z) (statement : option Z) (positions : option D) (formats : ResultFormats)
  | PBatch.

Record Portal := { po_statement : bytes; po_formats : ResultFormats }.

Record Tracked := {
  t_statements : gmap bytes Statement;
  t_portals : gmap bytes Portal;
  t_pending : list Pending;
  (** [u64] counters. *)
  t_next_statement_id : Z;
  t_next_execute_id : Z;
  t_copy_in : CopyIn;
}.

Definition tracked_default : Tracked := {|
  t_statements := ∅; t_portals := ∅; t_pending := [];
  t_next_statement_id := 0; t_next_execute_id := 0; t_copy_in := Idle;
|}.

Definition u64 (z : Z) : Z := (z mod 2 ^ 64)%Z.

Definition set_statements f (t : Tracked) : Tracked := {|
  t_statements := f (t_statements t); t_portals := t_portals t; t_pending := t_pending t;
  t_next_statement_id := t_next_statement_id t; t_next_execute_id := t_next_execute_id t;
  t_copy_in := t_copy_in t |}.
Definition set_portals f (t : Tracked) : Tracked := {|
  t_statements := t_statements t; t_portals := f (t_portals t); t_pending := t_pending t;
  t_next_statement_id := t_next_statement_id t; t_next_execute_id := t_next_execute_id t;
  t_copy_in := t_copy_in t |}.
Definition set_pending f (t : Tracked) : Tracked := {|
  t_statements := t_statements t; t_portals := t_portals t; t_pending := f (t_pending t);
  t_next_statement_id := t_next_statement_id t; t_next_execute_id := t_next_execute_id t;
  t_copy_in := t_copy_in t |}.
Definition set_copy_in c (t : Tracked) : Tracked := {|
  t_statements := t_statements t; t_portals := t_portals t; t_pending := t_pending t;
  t_next_statement_id := t_next_statement_id t; t_next_execute_id := t_next_execute_id t;
  t_copy_in := c |}.
Definition bump_statement_id (t : Tracked) : Tracked := {|
  t_statements := t_statements t; t_portals := t_portals t; t_pending := t_pending t;
  t_next_statement_id := u64 (t_next_statement_id t + 1);
  t_next_execute_id := t_next_execute_id t; t_copy_in := t_copy_in t |}.
Definition bump_execute_id (t : Tracked) : Tracked := {|
  t_statements := t_statements t; t_portals := t_portals t; t_pending := t_pending t;
  t_next_statement_id := t_next_statement_id t;
  t_next_execute_id := u64 (t_next_execute_id t + 1); t_copy_in := t_copy_in t |}.

Definition check_name (what name : bytes) : result Proxy.Error () :=
  if bool_decide (MAX_NAME_LEN < length name)
  then Err (Proxy.NameTooLong what (length name) MAX_NAME_LEN)
  else Ok tt.

Definition push (pending : Pending) : M Tracked Proxy.Error () :=
  λ t,
    if bool_decide (MAX_PENDING_RESPONSES ≤ length (t_pending t))
    then (Err (Proxy.SessionLimit b#"outstanding responses" MAX_PENDING_RESPONSES), t)
    else (Ok tt, set_pending (λ q, q ++ [pending]) t).

(** ** The write path *)

Definition parse (statement : bytes) (params : ParamTransforms) : M Tracked Proxy.Error () :=
  guarded (check_name b#"prepared statement" statement) (λ t,
    if bool_decide (t_statements t !! statement = None)
       && bool_decide (MAX_PREPARED_STATEMENTS ≤ size (t_statements t))
    then (Err (Proxy.SessionLimit b#"prepared statements" MAX_PREPARED_STATEMENTS), t)
    else
      let id := t_next_statement_id t in
      (Ok tt, set_statements
        (insert statement {| st_id := id; st_params := params; st_described := None |})
        (bump_statement_id t))).

Definition bind (portal statement : bytes) (result_formats : ResultFormats)
    : M Tracked Proxy.Error (option ParamTransforms) :=
  guarded (check_name b#"portal" portal) (
  guarded (check_name b#"prepared statement" statement) (λ t,
    if bool_decide (t_portals t !! portal = None)
       && bool_decide (MAX_PORTALS ≤ size (t_portals t))
    then (Err (Proxy.SessionLimit b#"portals" MAX_PORTALS), t)
    else
      (Ok (st_params <$> t_statements t !! statement),
       set_portals (insert portal {| po_statement := statement; po_formats := result_formats |}) t))).

Definition close_statement (statement : bytes) (t : Tracked) : Tracked :=
  set_portals (filter (λ '(_, bound), po_statement bound ≠ statement))
    (set_statements (delete statement) t).

Definition close_portal (portal : bytes) (t : Tracked) : Tracked :=
  set_portals (delete portal) t.

Definition expect_describe (target : Target) (name : bytes) : M Tracked Proxy.Error () :=
  guarded (check_name b#"describe target" name) (λ t,
    let name :=
      match target with
      | TStatement => Some name
      | TPortal => po_statement <$> t_portals t !! name
      end in
    let statement :=
      name ← name; s ← t_statements t !! name; Some (name, st_id s) in
    push (PDescribe statement) t).

Definition expect_execute (portal : bytes) : M Tracked Proxy.Error () :=
  λ t,
    let bound := t_portals t !! portal in
    let result_formats := default None (po_formats <$> bound) in
    let statement := p ← bound; t_statements t !! po_statement p in
    let '(statement, positions) :=
      match statement with
      | Some s => (Some (st_id s), st_described s)
      | None => (None, None)
      end in
    let id := t_next_execute_id t in
    push (PExecute id statement positions result_formats) (bump_execute_id t).

Definition expect_batch : M Tracked Proxy.Error () := push PBatch.

(** [while matches!(pending.get(execute + 1), Some(Batch)) { remove }]. *)
Fixpoint drop_batches (q : list Pending) : list Pending :=
  match q with
  | PBatch :: q => drop_batches q
  | _ => q
  end.

Definition is_execute (id : Z) (p : Pending) : bool :=
  match p with PExecute i _ _ _ => (i =? id)%Z | _ => false end.

Definition copy_data (msg_type : byte) (t : Tracked) : Tracked :=
  match t_copy_in t with
  | Idle => t
  | Started started_by =>
      let t := if bool_decide (msg_type ≠ COPY_DATA) then set_copy_in Idle t else t in
      match started_by with
      | None => t
      | Some id =>
          match position (is_execute id) (t_pending t) with
          | None => t
          | Some execute =>
              set_pending (λ q, take (execute + 1) q ++ drop_batches (drop (execute + 1) q)) t
          end
      end
  end.

(** ** The read path *)

Definition copy_in_started (t : Tracked) : Tracked :=
  set_copy_in (Started match t_pending t with PExecute id _ _ _ :: _ => Some id | _ => None end) t.

(** Fills the positions of the queued Executes of one statement incarnation. *)
Definition backfill (id : Z) (positions : D) (p : Pending) : Pending :=
  match p with
  | PExecute i (Some queued) None formats =>
      if (queued =? id)%Z then PExecute i (Some queued) (Some positions) formats else p
  | _ => p
  end.

Definition described_as (positions : D) (s : Statement) : Statement :=
  {| st_id := st_id s; st_params := st_params s; st_described := Some positions |}.

Definition describe_answered (positions : D) (t : Tracked) : Tracked :=
  match t_pending t with
  | PDescribe statement :: rest =>
      let t := set_pending (λ _, rest) t in
      match statement with
      | None => t
      | Some (name, id) =>
          let t :=
            match t_statements t !! name with
            | Some entry =>
                if (st_id entry =? id)%Z
                then set_statements (insert name (described_as positions entry)) t
                else t
            | None => t
            end in
          set_pending (λ q, backfill id positions <$> q) t
      end
  | _ => t
  end.

Definition no_data : Tracked → Tracked := describe_answered no_positions.

Definition rederived (positions : D) (t : Tracked) : Tracked :=
  match t_pending t with
  | PExecute id statement (Some _) formats :: rest =>
      set_pending (λ _, PExecute id statement (Some positions) formats :: rest) t
  | _ => t
  end.

Inductive RowSource :=
  | FromPortal (positions : D) (formats : ResultFormats)
  | LastDescription
  | Undescribed.

Definition row_source (t : Tracked) : RowSource :=
  match t_pending t with
  | PExecute _ _ positions formats :: _ =>
      match positions with
      | Some positions => FromPortal positions formats
      | None => Undescribed
      end
  | _ => LastDescription
  end.

Definition execute_answered (t : Tracked) : Tracked :=
  match t_pending t with
  | PExecute _ _ _ _ :: rest => set_pending (λ _, rest) t
  | _ => t
  end.

(** Everything up to and including the first batch marker is settled. *)
Fixpoint drop_batch (q : list Pending) : list Pending :=
  match q with
  | [] => []
  | PBatch :: q => q
  | _ :: q => drop_batch q
  end.

Definition batch_answered (t : Tracked) : Tracked :=
  set_pending drop_batch (set_copy_in Idle t).

End portal.

Arguments Tracked : clear implicits.
Arguments Statement : clear implicits.
Arguments Pending : clear implicits.
Arguments RowSource : clear implicits.

(** ** Sessions as sequences of operations *)

Inductive Op (D : Type) :=
  | OParse (statement : bytes) (params : ParamTransforms)
  | OBind (portal statement : bytes) (formats : ResultFormats)
  | OCloseStatement (statement : bytes)
  | OClosePortal (portal : bytes)
  | OExpectDescribe (target : Target) (name : bytes)
  | OExpectExecute (portal : bytes)
  | OExpectBatch
  | OCopyData (msg_type : byte)
  | OCopyInStarted
  | ODescribeAnswered (positions : D)
  | ORederived (positions : D)
  | OExecuteAnswered
  | OBatchAnswered.
Arguments OParse {D}. Arguments OBind {D}. Arguments OCloseStatement {D}.
Arguments OClosePortal {D}. Arguments OExpectDescribe {D}. Arguments OExpectExecute {D}.
Arguments OExpectBatch {D}. Arguments OCopyData {D}. Arguments OCopyInStarted {D}.
Arguments ODescribeAnswered {D}. Arguments ORederived {D}. Arguments OExecuteAnswered {D}.
Arguments OBatchAnswered {D}.

Section session.
Context {D : Type}.

(** The state after one operation, refused or not. *)
Definition run_op (op : Op D) (t : Tracked D) : Tracked D :=
  match op with
  | OParse statement params => (parse statement params t).2
  | OBind portal statement formats => (bind portal statement formats t).2
  | OCloseStatement statement => close_statement statement t
  | OClosePortal portal => close_portal portal t
  | OExpectDescribe target name => (expect_describe target name t).2
  | OExpectExecute portal => (expect_execute portal t).2
  | OExpectBatch => (expect_batch t).2
  | OCopyData msg_type => copy_data msg_type t
  | OCopyInStarted => copy_in_started t
  | ODescribeAnswered positions => describe_answered positions t
  | ORederived positions => rederived positions t
  | OExecuteAnswered => execute_answered t
  | OBatchAnswered => batch_answered t
  end.

(** The descriptions the session has been given, each with the statement
    incarnation it was asked for: a Describe answered, or the description of the
    result set in flight re-derived. *)
Definition answered (op : Op D) (t : Tracked D) : list (Z * D) :=
  match op, t_pending t with
  | ODescribeAnswered positions, PDescribe (Some (_, id)) :: _ => [(id, positions)]
  | ORederived positions, PExecute _ (Some id) (Some _) _ :: _ => [(id, positions)]
  | _, _ => []
  end.

Fixpoint run (ops : list (Op D)) (t : Tracked D) (log : list (Z * D))
    : Tracked D * list (Z * D) :=
  match ops with
  | [] => (t, log)
  | op :: ops => run ops (run_op op t) (log ++ answered op t)
  end.

(** ** The invariant *)

(** What a queue entry may carry: ids below the counters, and positions only of
    the incarnation it executes. *)
Definition entry_ok (next_s next_e : Z) (log : list (Z * D)) (p : Pending D) : Prop :=
  match p with
  | PDescribe (Some (_, id)) => (0 ≤ id < next_s)%Z
  | PDescribe None | PBatch => True
  | PExecute i statement positions _ =>
      (0 ≤ i < next_e)%Z ∧
      match statement with
      | Some id => (0 ≤ id < next_s)%Z ∧ ∀ d, positions = Some d → (id, d) ∈ log
      | None => positions = None
      end
  end.

Definition statement_ok (next_s : Z) (log : list (Z * D)) (s : Statement D) : Prop :=
  (0 ≤ st_id s < next_s)%Z ∧ ∀ d, st_described s = Some d → (st_id s, d) ∈ log.

Definition execute_ids (q : list (Pending D)) : list Z :=
  omap (λ p, match p with PExecute i _ _ _ => Some i | _ => None end) q.

Record tracked_ok (n : Z) (log : list (Z * D)) (t : Tracked D) : Prop := {
  ok_counters : (0 ≤ t_next_statement_id t ≤ n)%Z ∧ (0 ≤ t_next_execute_id t ≤ n)%Z;
  ok_statements : map_Forall
    (λ name s, length name ≤ MAX_NAME_LEN ∧ statement_ok (t_next_statement_id t) log s)
    (t_statements t);
  ok_distinct : ∀ n1 n2 s1 s2, t_statements t !! n1 = Some s1 → t_statements t !! n2 = Some s2 →
    st_id s1 = st_id s2 → n1 = n2;
  ok_portals : map_Forall (λ name p,
    length name ≤ MAX_NAME_LEN ∧ length (po_statement p) ≤ MAX_NAME_LEN) (t_portals t);
  ok_pending :
    Forall (entry_ok (t_next_statement_id t) (t_next_execute_id t) log) (t_pending t);
  ok_executes : NoDup (execute_ids (t_pending t));
  ok_sizes : size (t_statements t) ≤ MAX_PREPARED_STATEMENTS ∧ size (t_portals t) ≤ MAX_PORTALS ∧
    length (t_pending t) ≤ MAX_PENDING_RESPONSES;
  ok_log : Forall (λ e, (0 ≤ e.1 < t_next_statement_id t)%Z) log;
}.

Lemma entry_ok_mono s s' e e' log log' p :
  (s ≤ s')%Z → (e ≤ e')%Z → (∀ x, x ∈ log → x ∈ log') →
  entry_ok s e log p → entry_ok s' e' log' p.
Proof.
  intros Hs He Hl. destruct p as [[[nm id]|]|i st pos f|]; simpl; [lia|done| |done].
  intros [Hi Hst]. split; [lia|]. destruct st as [id|]; [|done].
  destruct Hst as [Hid Hd]. split; [lia|]. intros d Hd'. by apply Hl, Hd.
Qed.

Lemma statement_ok_mono s s' log log' st :
  (s ≤ s')%Z → (∀ x, x ∈ log → x ∈ log') → statement_ok s log st → statement_ok s' log' st.
Proof. intros Hs Hl [Hid Hd]. split; [lia|]. intros d Hd'. by apply Hl, Hd. Qed.

(** A state that differs only in its queue, when the new queue is sound. *)
Lemma set_pending_ok n log f t :
  tracked_ok n log t →
  Forall (entry_ok (t_next_statement_id t) (t_next_execute_id t) log) (f (t_pending t)) →
  NoDup (execute_ids (f (t_pending t))) → length (f (t_pending t)) ≤ MAX_PENDING_RESPONSES →
  tracked_ok n log (set_pending f t).
Proof. intros [] Hq Hn Hl. split; simpl; try done. naive_solver. Qed.

Lemma execute_ids_sublist (q q' : list (Pending D)) :
  q' `sublist_of` q → execute_ids q' `sublist_of` execute_ids q.
Proof.
  induction 1 as [|p l k Hs IH|p l k Hs IH]; [constructor|..]; unfold execute_ids; simpl.
  - destruct p; [done|by constructor|done].
  - destruct p; [done|by constructor|done].
Qed.

(** Dropping entries from a sound queue keeps it sound. *)
Lemma sublist_ok n log q' t :
  tracked_ok n log t → q' `sublist_of` t_pending t → tracked_ok n log (set_pending (λ _, q') t).
Proof.
  intros Ht Hs. apply set_pending_ok; [done|..].
  - apply Forall_forall. intros p Hp. apply (proj1 (Forall_forall _ _) (ok_pending _ _ _ Ht)).
    by eapply elem_of_sublist.
  - apply (sublist_NoDup _ (execute_ids (t_pending t))); [by apply ok_executes in Ht|].
    by apply execute_ids_sublist.
  - apply sublist_length in Hs. destruct (ok_sizes _ _ _ Ht). lia.
Qed.

Lemma drop_batches_sublist (q : list (Pending D)) : drop_batches q `sublist_of` q.
Proof. induction q as [|[]]; simpl; try done. by apply sublist_cons. Qed.

Lemma drop_batch_sublist (q : list (Pending D)) : drop_batch q `sublist_of` q.
Proof. induction q as [|[]]; simpl; try done; by apply sublist_cons. Qed.

Lemma set_copy_in_ok n log c (t : Tracked D) :
  tracked_ok n log t → tracked_ok n log (set_copy_in c t).
Proof. by intros []. Qed.

Lemma push_ok n log p (t : Tracked D) :
  tracked_ok n log t → entry_ok (t_next_statement_id t) (t_next_execute_id t) log p →
  (∀ i st d f, p = PExecute i st d f → i ∉ execute_ids (t_pending t)) →
  tracked_ok n log (push p t).2.
Proof.
  intros Ht Hp Hnew. unfold push. case_bool_decide; [done|]. simpl.
  apply set_pending_ok; [done|..].
  - apply Forall_app. split; [by apply ok_pending in Ht|by constructor].
  - unfold execute_ids. rewrite omap_app. apply NoDup_app.
    split_and!; [by apply ok_executes in Ht| |].
    + intros i Hi. destruct p as [|i' st d f|]; simpl; [set_solver| |set_solver].
      intros ->%list_elem_of_singleton. by eapply Hnew.
    + destruct p; simpl; [constructor|apply NoDup_singleton|constructor].
  - rewrite length_app. simpl. lia.
Qed.

(** The counters have not wrapped while fewer than [2 ^ 64] operations ran. *)
Lemma u64_small z : (0 ≤ z)%Z → (z < 2 ^ 64)%Z → u64 z = z.
Proof. intros. by apply Z.mod_small. Qed.

(** The check in front of every insertion keeps a map under its cap. *)
Lemma capped_insert {A} (m : gmap bytes A) k x cap :
  bool_decide (m !! k = None) && bool_decide (cap ≤ size m) = false → size m ≤ cap →
  size (<[k := x]> m) ≤ cap.
Proof.
  intros Hcap Hm. rewrite map_size_insert. unfold id.
  apply andb_false_iff in Hcap as [Hx|Hx]; apply bool_decide_eq_false in Hx;
    destruct (m !! k); try done; lia.
Qed.

Lemma size_delete_le {A} (m : gmap bytes A) k : size (delete k m) ≤ size m.
Proof. rewrite map_size_delete. unfold id. destruct (m !! k); lia. Qed.

Lemma parse_ok n log statement params (t : Tracked D) :
  tracked_ok n log t → (n + 1 < 2 ^ 64)%Z → tracked_ok (n + 1) log (parse statement params t).2.
Proof.
  intros Ht Hn. assert (tracked_ok (n + 1) log t) as Ht'.
  { destruct Ht. split; try done. lia. }
  unfold parse, guarded, check_name. case_bool_decide as Hlen; [done|].
  destruct (_ && _) eqn:Hcap; [done|]. simpl.
  destruct Ht as [[Hc1 Hc2] Hst Hdis Hpo Hpe Hex Hsz Hlog].
  assert (u64 (t_next_statement_id t + 1) = t_next_statement_id t + 1)%Z as Hu
    by (apply u64_small; lia).
  split; simpl; rewrite ?Hu; try done.
  - lia.
  - apply map_Forall_insert_2.
    + split; [lia|]. split; simpl; [lia|done].
    + eapply map_Forall_impl; [exact Hst|]. simpl. intros ? ? [? ?]. split; [done|].
      eapply statement_ok_mono; [| |done]; [lia|done].
  - intros n1 n2 s1 s2 [[<- <-]|[? H1]]%lookup_insert_Some
      [[<- <-]|[? H2]]%lookup_insert_Some; simpl; try done.
    + intros E. apply (map_Forall_lookup_1 _ _ _ _ Hst) in H2 as [_ [? _]]. lia.
    + intros E. apply (map_Forall_lookup_1 _ _ _ _ Hst) in H1 as [_ [? _]]. lia.
    + by apply Hdis.
  - eapply Forall_impl; [exact Hpe|]. intros p Hp.
    eapply entry_ok_mono; [| | |exact Hp]; [lia|lia|done].
  - destruct Hsz as (Hs1 & Hs2 & Hs3). split; [|done].
    by apply capped_insert.
  - eapply Forall_impl; [exact Hlog|]. simpl. lia.
Qed.

Lemma bind_ok n log portal statement formats (t : Tracked D) :
  tracked_ok n log t → tracked_ok n log (bind portal statement formats t).2.
Proof.
  intros Ht. unfold bind, guarded, check_name.
  case_bool_decide as Hl1; [done|]. case_bool_decide as Hl2; [done|].
  destruct (_ && _) eqn:Hcap; [done|]. simpl.
  destruct Ht as [Hc Hst Hdis Hpo Hpe Hex Hsz Hlog]. split; simpl; try done.
  - apply map_Forall_insert_2; [simpl; lia|done].
  - destruct Hsz as (Hs1 & Hs2 & Hs3). split_and!; [done| |done].
    by apply capped_insert.
Qed.

Lemma close_statement_ok n log statement (t : Tracked D) :
  tracked_ok n log t → tracked_ok n log (close_statement statement t).
Proof.
  intros [Hc Hst Hdis Hpo Hpe Hex (Hs1 & Hs2 & Hs3) Hlog]. split; simpl; try done.
  - by apply map_Forall_delete.
  - intros n1 n2 s1 s2 [_ H1]%lookup_delete_Some [_ H2]%lookup_delete_Some. by apply Hdis.
  - intros i x [Hx _]%map_lookup_filter_Some. by apply (Hpo i).
  - split_and!; [|etrans; [apply map_size_filter|done]|done].
    etrans; [apply size_delete_le|exact Hs1].
Qed.

Lemma close_portal_ok n log portal (t : Tracked D) :
  tracked_ok n log t → tracked_ok n log (close_portal portal t).
Proof.
  intros [Hc Hst Hdis Hpo Hpe Hex (Hs1 & Hs2 & Hs3) Hlog]. split; simpl; try done.
  - by apply map_Forall_delete.
  - split_and!; [done| |done].
    etrans; [apply size_delete_le|exact Hs2].
Qed.

Lemma expect_describe_ok n log target name (t : Tracked D) :
  tracked_ok n log t → tracked_ok n log (expect_describe target name t).2.
Proof.
  intros Ht. unfold expect_describe, guarded, check_name. case_bool_decide; [done|].
  apply push_ok; [done| |done].
  set (target_name := match target with TStatement => _ | TPortal => _ end).
  destruct target_name as [nm|]; simpl; [|done].
  destruct (t_statements t !! nm) as [st|] eqn:E; simpl; [|done].
  by apply (map_Forall_lookup_1 _ _ _ _ (ok_statements _ _ _ Ht)) in E as [_ [? _]].
Qed.

Lemma expect_execute_ok n log portal (t : Tracked D) :
  tracked_ok n log t → (n + 1 < 2 ^ 64)%Z → tracked_ok (n + 1) log (expect_execute portal t).2.
Proof.
  intros Ht Hn. unfold expect_execute.
  set (bound := t_portals t !! portal).
  set (st := p ← bound; t_statements t !! po_statement p).
  assert (u64 (t_next_execute_id t + 1) = t_next_execute_id t + 1)%Z as Hu.
  { destruct (ok_counters _ _ _ Ht). apply u64_small; lia. }
  assert (tracked_ok (n + 1) log (bump_execute_id t)) as Hb.
  { destruct Ht. split; simpl; rewrite ?Hu; try done; [lia|].
    eapply Forall_impl; [done|]. intros p Hp. eapply entry_ok_mono; [| | |exact Hp]; [lia|lia|done]. }
  assert (t_next_execute_id t ∉ execute_ids (t_pending t)) as Hfresh.
  { unfold execute_ids. intros (p & Hp & Hi)%list_elem_of_omap.
    apply (proj1 (Forall_forall _ _) (ok_pending _ _ _ Ht)) in Hp.
    destruct p as [|i s d f|]; simplify_eq. simpl in Hp. lia. }
  destruct (ok_counters _ _ _ Ht) as [Hc1 Hc2].
  destruct st as [s|] eqn:Est; apply push_ok; try done.
  - simpl. rewrite Hu. split; [lia|]. unfold st in Est. apply bind_Some in Est as (p & _ & Es).
    apply (map_Forall_lookup_1 _ _ _ _ (ok_statements _ _ _ Ht)) in Es as [_ [? Hd]]. done.
  - by intros i s' d f [= <- _ _ _].
  - simpl. rewrite Hu. split; [lia|done].
  - by intros i s' d f [= <- _ _ _].
Qed.

Lemma copy_data_ok n log msg (t : Tracked D) :
  tracked_ok n log t → tracked_ok n log (copy_data msg t).
Proof.
  intros Ht. unfold copy_data. destruct (t_copy_in t) as [|started]; [done|].
  set (t' := if bool_decide _ then _ else _).
  assert (tracked_ok n log t') as Ht'.
  { unfold t'. case_bool_decide; [by apply set_copy_in_ok|done]. }
  destruct started as [id|]; [|done].
  destruct (position _ _) as [e|]; [|done].
  apply (sublist_ok _ _ (take (e + 1) (t_pending t') ++ drop_batches (drop (e + 1) (t_pending t'))));
    [done|].
  rewrite <- (take_drop (e + 1) (t_pending t')) at 3.
  apply sublist_app; [done|]. apply drop_batches_sublist.
Qed.

Lemma execute_ids_cons (p : Pending D) q :
  execute_ids (p :: q) =
  match p with PExecute i _ _ _ => i :: execute_ids q | _ => execute_ids q end.
Proof. by destruct p. Qed.

Lemma backfill_ids id (d : D) q : execute_ids (backfill id d <$> q) = execute_ids q.
Proof.
  induction q as [|p q IH]; [done|]. rewrite fmap_cons, !execute_ids_cons, IH.
  destruct p as [|i [s|] [d'|] f|]; simpl; try done. by destruct (s =? id)%Z.
Qed.

Lemma backfill_ok s e log id (d : D) p :
  (id, d) ∈ log → entry_ok s e log p → entry_ok s e log (backfill id d p).
Proof.
  intros Hin. destruct p as [|i [st|] [d'|] f|]; simpl; try done.
  destruct (Z.eqb_spec st id) as [->|]; simpl; [|done].
  intros [Hi [Hid _]]. split; [done|]. split; [done|]. by intros ? [= <-].
Qed.

(** A longer log, with entries of known incarnations. *)
Lemma log_ok n log new (t : Tracked D) :
  tracked_ok n log t → Forall (λ e, (0 ≤ e.1 < t_next_statement_id t)%Z) new →
  tracked_ok n (log ++ new) t.
Proof.
  intros [Hc Hst Hdis Hpo Hpe Hex Hsz Hlog] Hnew.
  assert (∀ x, x ∈ log → x ∈ log ++ new) as Hsub by (intros; apply elem_of_app; by left).
  split; try done.
  - eapply map_Forall_impl; [exact Hst|]. intros ? ? [? ?]. split; [done|].
    by eapply statement_ok_mono; [| |done].
  - eapply Forall_impl; [exact Hpe|]. intros p Hp. by eapply entry_ok_mono; [| | |exact Hp].
  - by apply Forall_app.
Qed.

Lemma describe_answered_ok n log d (t : Tracked D) :
  tracked_ok n log t →
  tracked_ok n (log ++ answered (ODescribeAnswered d) t) (describe_answered d t).
Proof.
  intros Ht. unfold describe_answered, answered.
  destruct (t_pending t) as [|[[[name id]|]| |] rest] eqn:Eq; rewrite ?app_nil_r; try done.
  2: { apply sublist_ok; [done|]. rewrite Eq. by apply sublist_cons. }
  assert (0 ≤ id < t_next_statement_id t)%Z as Hid.
  { pose proof (ok_pending _ _ _ Ht) as Hp. rewrite Eq in Hp. by apply Forall_cons in Hp as [? _]. }
  assert ((id, d) ∈ log ++ [(id, d)]) as Hin by (apply elem_of_app; right; by left).
  assert (tracked_ok n (log ++ [(id, d)]) (set_pending (λ _, rest) t)) as Ht1.
  { apply log_ok; [|by constructor]. apply sublist_ok; [done|]. rewrite Eq. by apply sublist_cons. }
  set (t1 := set_pending (λ _, rest) t) in *.
  set (t2 := match t_statements t1 !! name with Some entry => _ | None => _ end).
  assert (tracked_ok n (log ++ [(id, d)]) t2 ∧ t_pending t2 = rest) as [Ht2 Hp2].
  { unfold t2. destruct (t_statements t1 !! name) as [entry|] eqn:E; [|done].
    destruct (Z.eqb_spec (st_id entry) id) as [<-|]; [|done]. split; [|done].
    destruct Ht1 as [Hc Hst Hdis Hpo Hpe Hex Hsz Hlog].
    pose proof (map_Forall_lookup_1 _ _ _ _ Hst E) as [Hlen [Hidr _]].
    split; simpl; try done.
    - apply map_Forall_insert_2; [|done]. split; [done|]. split; simpl; [done|].
      by intros ? [= <-].
    - intros n1 n2 s1 s2 [[<- <-]|[? H1]]%lookup_insert_Some
        [[<- <-]|[? H2]]%lookup_insert_Some; simpl; try done; [| |by apply Hdis].
      + intros E'. exact (Hdis _ _ _ _ E H2 E').
      + intros E'. exact (Hdis _ _ _ _ H1 E E').
    - destruct Hsz as (? & ? & ?). split; [|done].
      change (t_statements t) with (t_statements t1). rewrite map_size_insert_Some by (by rewrite E).
      done. }
  apply set_pending_ok; [done|..]; rewrite Hp2.
  - apply Forall_fmap. pose proof (ok_pending _ _ _ Ht2) as Hp. rewrite Hp2 in Hp.
    eapply Forall_impl; [exact Hp|]. intros p. by apply backfill_ok.
  - rewrite backfill_ids. rewrite <- Hp2. by apply ok_executes in Ht2.
  - rewrite length_fmap, <- Hp2. by destruct (ok_sizes _ _ _ Ht2) as (_ & _ & ?).
Qed.

Lemma rederived_ok n log d (t : Tracked D) :
  tracked_ok n log t → tracked_ok n (log ++ answered (ORederived d) t) (rederived d t).
Proof.
  intros Ht. unfold rederived, answered.
  destruct (t_pending t) as [|[|i st [d'|] f|] rest] eqn:Eq; rewrite ?app_nil_r; try done.
  2: { by destruct st; rewrite ?app_nil_r. }
  pose proof (ok_pending _ _ _ Ht) as Hp. rewrite Eq in Hp.
  apply Forall_cons in Hp as [[Hi Hst] Hrest]. destruct st as [id|]; [|done].
  destruct Hst as [Hid Hd].
  assert (tracked_ok n (log ++ [(id, d)]) t) as Ht' by (apply log_ok; [done|by constructor]).
  apply set_pending_ok; [done|..].
  - pose proof (ok_pending _ _ _ Ht') as Hp. rewrite Eq in Hp.
    apply Forall_cons in Hp as [_ Hp]. constructor; [|done]. split; [done|]. split; [done|].
    intros ? [= <-]. apply elem_of_app. right. by left.
  - pose proof (ok_executes _ _ _ Ht) as Hn. by rewrite Eq in Hn.
  - destruct (ok_sizes _ _ _ Ht) as (_ & _ & Hl). by rewrite Eq in Hl.
Qed.

Lemma run_op_ok n log op (t : Tracked D) :
  tracked_ok n log t → (n + 1 < 2 ^ 64)%Z →
  tracked_ok (n + 1) (log ++ answered op t) (run_op op t).
Proof.
  intros Ht Hn. assert (∀ log' t', tracked_ok n log' t' → tracked_ok (n + 1) log' t') as Hw.
  { intros log' t' []. split; try done. lia. }
  destruct op; simpl; rewrite ?app_nil_r.
  - by apply parse_ok.
  - by apply Hw, bind_ok.
  - by apply Hw, close_statement_ok.
  - by apply Hw, close_portal_ok.
  - by apply Hw, expect_describe_ok.
  - by apply expect_execute_ok.
  - by apply Hw, push_ok.
  - by apply Hw, copy_data_ok.
  - by apply Hw, set_copy_in_ok.
  - by apply Hw, describe_answered_ok.
  - by apply Hw, rederived_ok.
  - apply Hw. unfold execute_answered. destruct (t_pending t) as [|[] q] eqn:E; try done.
    apply sublist_ok; [done|]. rewrite E. by apply sublist_cons.
  - apply Hw. unfold batch_answered. apply (sublist_ok _ _ (drop_batch (t_pending t))).
    + by apply set_copy_in_ok.
    + apply drop_batch_sublist.
Qed.

Lemma run_ok n log ops (t : Tracked D) :
  tracked_ok n log t → (n + Z.of_nat (length ops) < 2 ^ 64)%Z →
  tracked_ok (n + Z.of_nat (length ops)) (run ops t log).2 (run ops t log).1.
Proof.
  revert n log t. induction ops as [|op ops IH]; intros n log t Ht Hn; simpl.
  { by rewrite Z.add_0_r. }
  simpl in Hn. rewrite Nat2Z.inj_succ in *.
  replace (n + Z.succ (Z.of_nat (length ops)))%Z with (n + 1 + Z.of_nat (length ops))%Z by lia.
  apply IH; [|lia]. apply run_op_ok; [done|lia].
Qed.

Lemma default_ok : tracked_ok 0 [] (tracked_default (D := D)).
Proof.
  split; simpl.
  - lia.
  - apply map_Forall_empty.
  - intros n1 n2 s1 s2. by rewrite lookup_empty.
  - apply map_Forall_empty.
  - constructor.
  - constructor.
  - rewrite !map_size_empty. unfold MAX_PREPARED_STATEMENTS, MAX_PORTALS. lia.
  - constructor.
Qed.

(** The state of a session after any sequence of operations, and the
    descriptions it has been given. *)
Definition session (ops : list (Op D)) : Tracked D * list (Z * D) := run ops tracked_default [].

Lemma session_ok ops :
  (Z.of_nat (length ops) < 2 ^ 64)%Z →
  tracked_ok (Z.of_nat (length ops)) (session ops).2 (session ops).1.
Proof. intros Hn. apply (run_ok 0 [] ops tracked_default default_ok). done. Qed.

(** Rows are never decrypted with another statement's columns. After any
    sequence of operations of the two relay directions (closing and re-parsing
    names in any order, pipelining, copies, errors), the positions a DataRow is
    attributed to are ones the server gave for the very statement incarnation
    that the Execute being answered was bound to. *)
Theorem row_attribution ops d formats :
  (Z.of_nat (length ops) < 2 ^ 64)%Z →
  row_source (session ops).1 = FromPortal d formats →
  ∃ i id rest, t_pending (session ops).1 = PExecute i (Some id) (Some d) formats :: rest ∧
    (id, d) ∈ (session ops).2.
Proof.
  intros Hn. pose proof (ok_pending _ _ _ (session_ok ops Hn)) as Hp.
  unfold row_source. destruct (t_pending _) as [|[|i st [d'|] f|] rest]; try done.
  intros [= -> ->]. apply Forall_cons in Hp as [[_ Hst] _].
  destruct st as [id|]; [|done]. exists i, id, rest. split; [done|]. by apply Hst.
Qed.

(** A re-parsed name inherits nothing. Right after a Parse, an Execute of a
    portal bound to that name queues with no positions, and its rows are
    refused as undescribed rather than opened with the description the previous
    statement of that name carried. *)
Theorem reparse_inherits_nothing ops name params portal formats t :
  (Z.of_nat (length ops) + 1 < 2 ^ 64)%Z →
  parse name params (session ops).1 = (Ok tt, t) →
  t_portals t !! portal = Some {| po_statement := name; po_formats := formats |} →
  t_pending t = [] →
  row_source (expect_execute portal t).2 = Undescribed ∧
  ∀ d, (t_next_statement_id (session ops).1, d) ∉ (session ops).2.
Proof.
  intros Hn Hp Hport Hq.
  assert (t_statements t !! name = Some {| st_id := t_next_statement_id (session ops).1;
    st_params := params; st_described := None |}) as Hst.
  { unfold parse, guarded in Hp. destruct (check_name _ _); [|done].
    destruct (_ && _); [done|]. injection Hp as <-. simpl. by rewrite lookup_insert_eq. }
  split.
  - unfold expect_execute. rewrite Hport. simpl. rewrite Hst. unfold push.
    cbn [t_pending bump_execute_id]. rewrite Hq. rewrite bool_decide_eq_false_2.
    + unfold row_source. cbn. by rewrite Hq.
    + unfold MAX_PENDING_RESPONSES. simpl. lia.
  - intros d Hin. pose proof (ok_log _ _ _ (session_ok ops ltac:(lia))) as Hl.
    eapply Forall_forall in Hl; [|exact Hin]. simpl in Hl. lia.
Qed.

(** What a client can make the proxy remember is bounded: after any sequence
    of operations a session holds at most 1024 statements, 1024 portals and 4096
    outstanding responses, under names of at most 256 bytes. *)
Theorem session_is_bounded ops :
  (Z.of_nat (length ops) < 2 ^ 64)%Z →
  let t := (session ops).1 in
  size (t_statements t) ≤ MAX_PREPARED_STATEMENTS ∧ size (t_portals t) ≤ MAX_PORTALS ∧
  length (t_pending t) ≤ MAX_PENDING_RESPONSES ∧
  map_Forall (λ name _, length name ≤ MAX_NAME_LEN) (t_statements t) ∧
  map_Forall (λ name p, length name ≤ MAX_NAME_LEN ∧ length (po_statement p) ≤ MAX_NAME_LEN)
    (t_portals t).
Proof.
  intros Hn t. pose proof (session_ok ops Hn) as Ht. fold t in Ht.
  destruct (ok_sizes _ _ _ Ht) as (H1 & H2 & H3). split_and!; try done.
  - intros name st Hst. by apply (map_Forall_lookup_1 _ _ _ _ (ok_statements _ _ _ Ht)) in Hst as [? _].
  - by apply ok_portals in Ht.
Qed.

(** ** Resynchronisation *)

Definition is_batch (p : Pending D) : bool := match p with PBatch => true | _ => false end.

(** The expectations of a queue other than its batch markers. *)
Definition expectations (q : list (Pending D)) : list (Pending D) :=
  filter (λ p, is_batch p = false) q.

Lemma drop_batches_spec (q : list (Pending D)) :
  ∃ n, q = replicate n PBatch ++ drop_batches q ∧
    ∀ r, drop_batches q ≠ PBatch :: r.
Proof.
  induction q as [|p q (n & E & Hn)]; [by exists 0|].
  destruct p; [by exists 0|by exists 0|]. exists (S n). simpl. by rewrite <- E.
Qed.

Lemma drop_batches_replicate n (r : list (Pending D)) :
  (∀ r', r ≠ PBatch :: r') → drop_batches (replicate n PBatch ++ r) = r.
Proof.
  intros Hr. induction n as [|n IH]; simpl; [|done].
  destruct r as [|[] r']; try done. by edestruct Hr.
Qed.

Lemma expectations_batches n q : expectations (replicate n PBatch ++ q) = expectations q.
Proof.
  induction n as [|n IH]; [done|]. simpl. unfold expectations in *.
  rewrite filter_cons, decide_False; done.
Qed.

Lemma drop_batch_app l r :
  Forall (λ p, is_batch p = false) l → drop_batch (l ++ PBatch :: r) = r.
Proof. induction 1 as [|p l Hp _ IH]; [done|]. by destruct p. Qed.

(** ReadyForQuery settles exactly its own batch. Whatever an ErrorResponse
    made the server skip, everything queued up to the first batch marker is
    dropped with that marker, and a batch pipelined behind it is untouched. *)
Theorem batch_answered_resyncs t l r :
  t_pending t = l ++ PBatch :: r → Forall (λ p, is_batch p = false) l →
  t_pending (batch_answered t) = r ∧ t_copy_in (batch_answered t) = Idle ∧
  t_statements (batch_answered t) = t_statements t ∧ t_portals (batch_answered t) = t_portals t.
Proof.
  intros Hq Hl. unfold batch_answered. simpl. split; [|done]. rewrite Hq. by apply drop_batch_app.
Qed.

(** A copy frame touches only the copy's own batch. Outside a copy it changes
    nothing at all; inside one, the queue keeps every Describe and Execute it
    holds and loses only the batch markers immediately behind the Execute that
    started the copy, wherever a pipelined client has queued more work since. *)
Theorem copy_data_own_batch msg t :
  match t_copy_in t with
  | Idle => copy_data msg t = t
  | Started None => t_pending (copy_data msg t) = t_pending t
  | Started (Some id) =>
      expectations (t_pending (copy_data msg t)) = expectations (t_pending t) ∧
      ∀ l st d f n r, t_pending t = l ++ PExecute id st d f :: replicate n PBatch ++ r →
        id ∉ execute_ids l → (∀ r', r ≠ PBatch :: r') →
        t_pending (copy_data msg t) = l ++ PExecute id st d f :: r
  end ∧
  t_statements (copy_data msg t) = t_statements t ∧ t_portals (copy_data msg t) = t_portals t.
Proof.
  unfold copy_data. destruct (t_copy_in t) as [|[id|]]; [done| |].
  2: { by case_bool_decide. }
  set (t' := if bool_decide _ then _ else _).
  assert (t_pending t' = t_pending t ∧ t_statements t' = t_statements t ∧
    t_portals t' = t_portals t) as (Eq & Es & Ep) by (unfold t'; by case_bool_decide).
  rewrite Eq. split.
  2: { by destruct (position _ _). }
  split.
  - destruct (position _ _) as [e|]; [|by rewrite Eq]. simpl. rewrite Eq.
    destruct (drop_batches_spec (drop (e + 1) (t_pending t))) as (n & E & _).
    rewrite <- (take_drop (e + 1) (t_pending t)) at 3. rewrite E at 2.
    unfold expectations. rewrite !filter_app.
    f_equal. symmetry. pose proof (expectations_batches n (drop_batches (drop (e + 1) (t_pending t)))) as Hx.
    unfold expectations in Hx. by rewrite filter_app in Hx.
  - intros l st d f n r Hq Hl Hr. rewrite Hq.
    rewrite (position_app (is_execute id)).
    + cbn [t_pending set_pending]. rewrite Eq, Hq.
      change (PExecute id st d f :: replicate n PBatch ++ r)
        with ([PExecute id st d f] ++ replicate n PBatch ++ r).
      rewrite app_assoc.
      assert (length l + 1 = length (l ++ [PExecute id st d f])) as -> by (rewrite length_app; done).
      rewrite take_app_length, drop_app_length, <- app_assoc. simpl. do 2 f_equal.
      by apply drop_batches_replicate.
    + apply Forall_forall. intros p Hp. destruct p as [|i' st' d' f'|]; try done. simpl.
      apply Z.eqb_neq. intros ->. apply Hl. unfold execute_ids. apply list_elem_of_omap.
      eexists. split; [exact Hp|done].
    + simpl. apply Z.eqb_refl.
Qed.

End session.

(** Bind transforms each parameter at most once. However placeholders are
    recorded, the recorded actions have distinct indices, an action is changed
    or dropped by nothing that follows, and a second, different demand on a
    placeholder is refused as a conflict. *)
Theorem record_once index action entries :
  NoDup entries.*1 →
  NoDup (record index action entries).2.*1 ∧
  entries `prefix_of` (record index action entries).2 ∧
  (∀ a, (index, a) ∈ (record index action entries).2 →
    (record index action entries).1 = Ok tt → a = action) ∧
  (∀ a, (index, a) ∈ entries → a ≠ action →
    record index action entries = (Err (Proxy.ConflictingParameter (index + 1)), entries)).
Proof.
  intros Hn. unfold record.
  destruct (list_find (λ e, e.1 = index) entries) as [[k [i existing]]|] eqn:E.
  - apply list_find_Some in E as (Hk & Hi & _). simpl in Hi. subst i.
    assert (∀ a, (index, a) ∈ entries → a = existing) as Huniq.
    { intros a Ha. apply list_elem_of_lookup_2 in Hk.
      pose proof (NoDup_fmap_unique fst entries _ _ Hn Ha Hk eq_refl). by simplify_eq. }
    assert (agrees_with existing action = true ↔ existing = action) as Hagree.
    { destruct existing, action; simpl; rewrite ?andb_true_iff, ?bool_decide_eq_true;
        try naive_solver. }
    destruct (agrees_with existing action) eqn:Ea.
    + assert (existing = action) as -> by (by apply Hagree). simpl. split_and!; [done..| |].
      * intros a Ha _. by apply Huniq.
      * intros a Ha Hne. by destruct Hne; apply Huniq.
    + simpl. split_and!; [done..|]. intros a Ha _. done.
  - apply list_find_None in E. simpl. split_and!.
    + rewrite fmap_app. apply NoDup_app. split_and!; [done| |apply NoDup_singleton].
      intros i ([i' a] & -> & Hia)%list_elem_of_fmap Hi%list_elem_of_singleton.
      eapply Forall_forall in E; [|exact Hia]. by apply E.
    + by apply prefix_app_r.
    + intros a [Ha|Ha]%elem_of_app _.
      * eapply Forall_forall in E; [|exact Ha]. by destruct E.
      * apply list_elem_of_singleton in Ha. by simplify_eq.
    + intros a Ha _. eapply Forall_forall in E; [|exact Ha]. by destruct E.
Qed.

(** ** Witnesses *)

Module PortalExample.

(** A cached statement: parsed and described, closed and re-parsed in the batch
    that executes it, while its rows are still in flight. *)
Definition ops : list (Op nat) := [
  OParse b#"s" []; OBind b#"" b#"s" (Some [1%Z]); OExpectDescribe TStatement b#"s";
  OExpectExecute b#""; OCloseStatement b#"s"; OParse b#"s" []; OExpectBatch;
  ODescribeAnswered 7 ].

Lemma row_attribution_witness :
  row_source (session ops).1 = FromPortal 7 (Some [1%Z]) ∧
  ∃ i id rest, t_pending (session ops).1 = PExecute i (Some id) (Some 7) (Some [1%Z]) :: rest ∧
    (id, 7) ∈ (session ops).2.
Proof.
  split; [vm_compute; reflexivity|].
  apply (row_attribution ops 7 (Some [1%Z])); vm_compute; reflexivity.
Defined.

Definition ops2 : list (Op nat) := [
  OParse b#"s" []; OExpectDescribe TStatement b#"s"; ODescribeAnswered 7;
  OBind b#"" b#"s" None ].

Lemma reparse_inherits_nothing_witness :
  row_source (expect_execute b#"" (parse b#"s" [] (session ops2).1).2).2 = Undescribed.
Proof.
  apply (reparse_inherits_nothing ops2 b#"s" [] b#"" None).
  - vm_compute. reflexivity.
  - assert ((parse b#"s" [] (session ops2).1).1 = Ok tt) as E by (vm_compute; reflexivity).
    destruct (parse b#"s" [] (session ops2).1) as [r t]. simpl in *. by rewrite E.
  - vm_compute. reflexivity.
  - vm_compute. reflexivity.
Defined.

Lemma session_is_bounded_witness : length (t_pending (session ops).1) ≤ MAX_PENDING_RESPONSES.
Proof. apply (session_is_bounded ops). vm_compute. reflexivity. Defined.

Definition queued : Tracked nat :=
  set_pending (λ _, [PExecute 0 None None None; PBatch; PDescribe None; PBatch]) tracked_default.

Lemma batch_answered_resyncs_witness :
  t_pending (batch_answered queued) = [PDescribe None; PBatch].
Proof.
  apply (batch_answered_resyncs queued [PExecute 0 None None None] [PDescribe None; PBatch]);
    [reflexivity|repeat constructor].
Defined.

Lemma record_once_witness :
  record 0 (Seal 1 SourceNone) [(0, SearchIndex 1)]
    = (Err (Proxy.ConflictingParameter 1), [(0, SearchIndex 1)]).
Proof.
  destruct (record_once 0 (Seal 1 SourceNone) [(0, SearchIndex 1)] (NoDup_singleton _))
    as (_ & _ & _ & Hc).
  apply (Hc (SearchIndex 1)); [left|discriminate].
Defined.

End PortalExample.
