(* ===== verification/Rows.v ===== *)
(** * The read path ([crates/proxy/src/rows.rs])

    RowDescription and DataRow interception in the upstream-to-client relay:
    which positions of a result set are protected, the row key each is bound to,
    and the decryption of a row. Log lines are not modelled; the flags that
    silence a repeated one are. An [ErrorResponse] that refuses a result set is
    the error it is formatted from. *)

From stdpp Require Import sorting.
From S2P Require Import Prelude Utf8 Crates Pgwire Errors Envelope RowKeys Fields Transform.
From S2P Require Import Policy Portal.
Import Mask.

Definition DEFAULT_MAX_PROTECTED_VALUE_LEN : nat := Z.to_nat (16 * 1024 * 1024).

Record Bounds := { max_value : nat; max_body : Z }.

(** ** Resolutions *)

Record ReadColumn := {
  rc_name : bytes;
  rc_transform : option DynTransform;
  rc_mask : option MaskSpec;
}.

Record ResolvedRowKey := {
  rk_attnum : Z;
  rk_type_oid : Z;
  rk_name : bytes;
  rk_table : bytes;
}.

Record Resolved := {
  rs_columns : gmap (Z * Z) ReadColumn;
  rs_names : gset bytes;
  rs_positions : gmap bytes (Z * Z);
  rs_row_keys : gmap Z ResolvedRowKey;
  rs_row_key_by_table : gmap (bytes * bytes) ResolvedRowKey;
  rs_generation : Z;
}.

Inductive RowKeyRef :=
  | Absent
  | Slot (index : nat) (type_oid : Z)
  | Ambiguous (table column : bytes)
  | TypeChanged (table column : bytes) (wire resolved : Z).

(** [(table_oid, attnum, type_oid)] of one field. *)
Definition FieldId : Type := Z * Z * Z.

(** The row-key fields of one table in a result set, each with its position. *)
Definition key_matches (table_oid attnum : Z) (fields : list FieldId) : list (nat * Z) :=
  omap (λ '(index, (oid, att, type_oid)),
      if bool_decide (oid = table_oid) && bool_decide (att = attnum)
      then Some (index, type_oid) else None)
    (imap pair fields).

Definition row_key_ref (self : Resolved) (table_oid : Z) (fields : list FieldId) : RowKeyRef :=
  match rs_row_keys self !! table_oid with
  | None => Absent
  | Some declared =>
      match key_matches table_oid (rk_attnum declared) fields with
      | [] => Absent
      | [(index, type_oid)] =>
          if bool_decide (type_oid ≠ rk_type_oid declared)
          then TypeChanged (rk_table declared) (rk_name declared) type_oid (rk_type_oid declared)
          else Slot index type_oid
      | _ => Ambiguous (rk_table declared) (rk_name declared)
      end
  end.

Definition Position : Type := nat * ReadColumn * RowKeyRef.

Definition protected_field (self : Resolved) (fields : list FieldId) (index : nat) (f : FieldId)
    : option Position :=
  let '(table_oid, attnum, _) := f in
  column ← rs_columns self !! (table_oid, attnum);
  Some (index, column, row_key_ref self table_oid fields).

Definition protected (self : Resolved) (fields : list FieldId) : list Position :=
  omap (λ '(index, f), protected_field self fields index f) (imap pair fields).

(** ** Descriptions *)

Record Described := {
  d_generation : Z;
  d_fields : list FieldId;
  d_columns : list Position;
}.

(** [Described::default], what NoData leaves behind. *)
Definition described_default : Described :=
  {| d_generation := 0; d_fields := []; d_columns := [] |}.

Definition described_new (resolved : Resolved) (fields : list FieldId) : Described :=
  {| d_generation := rs_generation resolved; d_fields := fields;
     d_columns := protected resolved fields |}.

Definition position_index (p : Position) : nat := p.1.1.

Definition position_le (p q : Position) : Prop := position_index p ≤ position_index q.

#[global] Instance position_le_dec p q : Decision (position_le p q).
Proof. unfold position_le. apply _. Defined.

Definition rederive (self : Described) (resolved : Resolved) : Described :=
  let columns := protected resolved (d_fields self) in
  let columns :=
    foldl (λ columns p,
        if existsb (λ q, bool_decide (position_index q = position_index p)) columns then columns
        else columns ++ [p])
      columns (d_columns self) in
  {| d_generation := rs_generation resolved; d_fields := d_fields self;
     d_columns := merge_sort position_le columns |}.

(** ** The shared context and the session *)

Inductive OnUnprotected := Warn | Reject.

#[global] Instance OnUnprotected_eq_dec : EqDecision OnUnprotected.
Proof. solve_decision. Defined.

Record RowContext := {
  cx_resolved : Resolved;
  (** [AtomicU64], published after the resolution. *)
  cx_generation : Z;
  cx_on_unprotected : OnUnprotected;
  cx_max_protected_value_len : nat;
  (** A refresh was requested ([Notify] holds one permit). *)
  cx_refresh : bool;
}.

Definition with_generation (g : Z) (r : Resolved) : Resolved := {|
  rs_columns := rs_columns r; rs_names := rs_names r; rs_positions := rs_positions r;
  rs_row_keys := rs_row_keys r; rs_row_key_by_table := rs_row_key_by_table r;
  rs_generation := g |}.

Definition context_new (resolved : Resolved) (on_unprotected : OnUnprotected)
    (max_protected_value_len : nat) : RowContext := {|
  cx_resolved := with_generation 0 resolved; cx_generation := 0;
  cx_on_unprotected := on_unprotected;
  cx_max_protected_value_len := max_protected_value_len; cx_refresh := false |}.

(** [publish] is two steps other threads may come between: the swap under the
    write lock ([slot.generation.saturating_add(1)]), and the store of the
    generation it assigned. *)
Definition publish_swap (resolved : Resolved) (self : RowContext) : Z * RowContext :=
  let generation := Z.min (2 ^ 64 - 1) (rs_generation (cx_resolved self) + 1) in
  (generation,
   {| cx_resolved := with_generation generation resolved;
      cx_generation := cx_generation self; cx_on_unprotected := cx_on_unprotected self;
      cx_max_protected_value_len := cx_max_protected_value_len self;
      cx_refresh := cx_refresh self |}).

Definition publish_store (generation : Z) (self : RowContext) : RowContext := {|
  cx_resolved := cx_resolved self; cx_generation := generation;
  cx_on_unprotected := cx_on_unprotected self;
  cx_max_protected_value_len := cx_max_protected_value_len self;
  cx_refresh := cx_refresh self |}.

Definition publish (resolved : Resolved) (self : RowContext) : RowContext :=
  let '(generation, self) := publish_swap resolved self in publish_store generation self.

Definition request_refresh (self : RowContext) : RowContext := {|
  cx_resolved := cx_resolved self; cx_generation := cx_generation self;
  cx_on_unprotected := cx_on_unprotected self;
  cx_max_protected_value_len := cx_max_protected_value_len self; cx_refresh := true |}.

(** A session's read side, with the state it reaches: the shared context, the
    portals shared with the write side, and the caches behind the transforms. *)
Record RowDecryptor := {
  rd_ctx : RowContext;
  rd_portals : Tracked Described;
  rd_described : option Described;
  rd_warned_stale : bool;
  rd_warned_computed : bool;
  rd_warned_function_call : bool;
  rd_transforms : PState;
}.

Definition upd_ctx f (s : RowDecryptor) : RowDecryptor := {|
  rd_ctx := f (rd_ctx s); rd_portals := rd_portals s; rd_described := rd_described s;
  rd_warned_stale := rd_warned_stale s; rd_warned_computed := rd_warned_computed s;
  rd_warned_function_call := rd_warned_function_call s; rd_transforms := rd_transforms s |}.
Definition upd_portals f (s : RowDecryptor) : RowDecryptor := {|
  rd_ctx := rd_ctx s; rd_portals := f (rd_portals s); rd_described := rd_described s;
  rd_warned_stale := rd_warned_stale s; rd_warned_computed := rd_warned_computed s;
  rd_warned_function_call := rd_warned_function_call s; rd_transforms := rd_transforms s |}.
Definition upd_described d (s : RowDecryptor) : RowDecryptor := {|
  rd_ctx := rd_ctx s; rd_portals := rd_portals s; rd_described := d;
  rd_warned_stale := rd_warned_stale s; rd_warned_computed := rd_warned_computed s;
  rd_warned_function_call := rd_warned_function_call s; rd_transforms := rd_transforms s |}.
Definition warn_stale (s : RowDecryptor) : RowDecryptor := {|
  rd_ctx := rd_ctx s; rd_portals := rd_portals s; rd_described := rd_described s;
  rd_warned_stale := true; rd_warned_computed := rd_warned_computed s;
  rd_warned_function_call := rd_warned_function_call s; rd_transforms := rd_transforms s |}.
Definition warn_computed (s : RowDecryptor) : RowDecryptor := {|
  rd_ctx := rd_ctx s; rd_portals := rd_portals s; rd_described := rd_described s;
  rd_warned_stale := rd_warned_stale s; rd_warned_computed := true;
  rd_warned_function_call := rd_warned_function_call s; rd_transforms := rd_transforms s |}.
Definition warn_function_call (s : RowDecryptor) : RowDecryptor := {|
  rd_ctx := rd_ctx s; rd_portals := rd_portals s; rd_described := rd_described s;
  rd_warned_stale := rd_warned_stale s; rd_warned_computed := rd_warned_computed s;
  rd_warned_function_call := true; rd_transforms := rd_transforms s |}.

Definition decryptor (self : RowContext) (portals : Tracked Described) (transforms : PState)
    : RowDecryptor := {|
  rd_ctx := self; rd_portals := portals; rd_described := None; rd_warned_stale := false;
  rd_warned_computed := false; rd_warned_function_call := false; rd_transforms := transforms |}.

(** [session::FrameAction]; a refusal is the error its message is formatted from. *)
Inductive FrameAction :=
  | Relay
  | Replace (body : bytes)
  | Reply (frames : bytes)
  | RefuseAndClose (why : Proxy.Error).

Definition is_refusal (error : Proxy.Error) : bool :=
  match error with
  | Proxy.UndescribedRow | Proxy.StaleColumnMap _ _ | Proxy.ComputedProtectedColumn _
  | Proxy.FunctionCallResult | Proxy.ProtectedValueTooLarge _ _ _ | Proxy.FrameTooLarge _ _ _
  | Proxy.AmbiguousRowKey _ _ | Proxy.AmbiguousRowInstance _ _
  | Proxy.Wire Core.RowKeyMissing | Proxy.Wire (Core.RowKeyType _)
  | Proxy.Wire Core.RowBindingDowngraded => true
  | _ => false
  end.

(** ** One row *)

(** The row-key slots, deduplicated by position, in order of first appearance. *)
Definition distinct_slots (positions : list Position) : list (nat * Z) :=
  foldl (λ slots '(_, _, key),
      match key with
      | Slot index type_oid =>
          if forallb (λ s, bool_decide (s.1 ≠ index)) slots then slots ++ [(index, type_oid)]
          else slots
      | _ => slots
      end)
    [] positions.

(** The [schema.table] half of a qualified name: up to the last dot. *)
Definition table_of (qualified : bytes) : bytes :=
  match position (λ b, bool_decide (b = dot)) (reverse qualified) with
  | Some n => take (length qualified - n - 1) qualified
  | None => qualified
  end.

Definition attribute_open_failure (error : Core.Error) (column : ReadColumn) (position : nat)
    (row_key : option RowKey) (repeated : bool) : Proxy.Error :=
  match error, row_key with
  | Core.Decrypt, Some key =>
      if repeated then Proxy.AmbiguousRowInstance (table_of (rc_name column)) (rc_name column)
      else Proxy.RowBindingFailed (rc_name column) (row_key_bytes key) position
  | _, _ => Proxy.Wire error
  end.

Section rows.
Context `{HexCrate, AeadCrate, HmacCrate, Ff1Crate, Lowercase}.

Definition decode_wire (transform : DynTransform) (raw : bytes) : bytes * bool :=
  match wire transform with
  | Bytea =>
      match h ← strip_prefix (b#"\x") raw; hex_decode h with
      | Some decoded => (decoded, true)
      | None => (raw, false)
      end
  | WText => (raw, false)
  end.

Definition hex_text_form (value : bytes) : bytes := b#"\x" ++ hex_encode value.

Definition read_row_key (index : nat) (type_oid : Z) (formats : ResultFormats)
    (values : list (option bytes)) : result Proxy.Error RowKey :=
  raw ← ok_or (Proxy.Wire (Core.RowKeyType (KeyOutsideRow index (length values)))) (values !! index);
  format ← map_err Proxy.Wire (value_format (for_column formats index));
  map_err Proxy.Wire (canonical type_oid format raw).

(** [RowKeyOnce]: the key of a slot, or why it could not be read. *)
Definition RowKeyOnce : Type := nat * result Proxy.Error RowKey.

(** The keys of a row, canonicalised once per distinct slot. *)
Definition row_keys_once (positions : list Position) (formats : ResultFormats)
    (values : list (option bytes)) : list RowKeyOnce :=
  (λ '(index, type_oid), (index, read_row_key index type_oid formats values))
  <$> distinct_slots positions.

Definition key_at (row_keys : list RowKeyOnce) (key : RowKeyRef)
    : option (result Proxy.Error RowKey) :=
  match key with
  | Slot index _ => snd ∘ snd <$> list_find (λ once, once.1 = index) row_keys
  | _ => None
  end.

(** Opens one stored value against the row key of its slot. *)
Definition open_value (ks : KeySource) (row_keys : list RowKeyOnce) (repeated : bool)
    (position : nat) (column : ReadColumn) (key : RowKeyRef) (t : DynTransform) (stored : bytes)
    : M PState Proxy.Error (option bytes) :=
  let attribute k e := attribute_open_failure e column position k repeated in
  let call k := on_transform (rc_name column) (open t ks stored k) in
  match key_at row_keys key with
  | Some (Ok k) => with_err (attribute (Some k)) (call (Some k))
  | None => with_err (attribute None) (call None)
  | Some (Err why) =>
      with_err (λ e, match e with Core.RowKeyMissing => why | e => attribute None e end) (call None)
  end.

(** What the client is handed in place of one value, if anything. *)
Definition replace_value (ks : KeySource) (row_keys : list RowKeyOnce) (repeated : bool)
    (position : nat) (column : ReadColumn) (key : RowKeyRef) (value : bytes)
    : M PState Proxy.Error (option bytes) :=
  let '(stored, hex_text) :=
    match rc_transform column with
    | Some t => decode_wire t value
    | None => (value, false)
    end in
  opened ← match rc_transform column with
           | Some t => open_value ks row_keys repeated position column key t stored
           | None => mret None
           end;
  let masked := (λ mask, apply mask (default stored opened)) <$> rc_mask column in
  let replacement := match masked with Some m => Some m | None => opened end in
  mret ((λ r, if hex_text : bool then hex_text_form r else r) <$> replacement).

(** The row under rewriting: its values, its projected size, whether it changed. *)
Record RowEdit := { re_values : list (option bytes); re_projected : Z; re_changed : bool }.

Definition decrypt_step (ks : KeySource) (row_keys : list RowKeyOnce) (twice : list bytes)
    (bounds : Bounds) (p : Position) (e : RowEdit) : M PState Proxy.Error RowEdit :=
  let '(position, column, key) := p in
  match re_values e !! position with
  | Some (Some value) =>
      if bool_decide (max_value bounds < length value)
      then lift (Err (Proxy.ProtectedValueTooLarge position (length value) (max_value bounds)))
      else
        replacement ← replace_value ks row_keys (bool_decide (rc_name column ∈ twice))
                        position column key value;
        match replacement with
        | None => mret e
        | Some r =>
            let projected :=
              (re_projected e - Z.of_nat (length value) + Z.of_nat (length r))%Z in
            if (max_body bounds <? projected)%Z
            then lift (Err (Proxy.FrameTooLarge "D"%byte projected (max_body bounds)))
            else mret {| re_values := <[position := Some r]> (re_values e);
                         re_projected := projected; re_changed := true |}
        end
  | _ => mret e
  end.

Fixpoint decrypt_loop (ks : KeySource) (row_keys : list RowKeyOnce) (twice : list bytes)
    (bounds : Bounds) (positions : list Position) (e : RowEdit) : M PState Proxy.Error RowEdit :=
  match positions with
  | [] => mret e
  | p :: positions =>
      e ← decrypt_step ks row_keys twice bounds p e;
      decrypt_loop ks row_keys twice bounds positions e
  end.

(** The up-front refusals: settled by the description alone. *)
Fixpoint check_keys (positions : list Position) : result Proxy.Error () :=
  match positions with
  | [] => Ok tt
  | (_, _, Ambiguous table column) :: _ => Err (Proxy.AmbiguousRowKey table column)
  | (_, _, TypeChanged table column wire resolved) :: _ =>
      Err (Proxy.Wire (Core.RowKeyType (KeyTypeChanged table column wire resolved)))
  | _ :: positions => check_keys positions
  end.

(** The column names that come back at more than one position. *)
Definition repeated_names (positions : list Position) : list bytes :=
  let names := (λ '(_, column, _), rc_name column) <$> positions in
  filter (λ name, 2 ≤ length (filter (λ n, n = name) names)) names.

Definition decrypt_row (ks : KeySource) (positions : list Position) (formats : ResultFormats)
    (body : bytes) (bounds : Bounds) : M PState Proxy.Error (option bytes) :=
  _ ← lift (check_keys positions);
  values ← lift (map_err Proxy.Pgwire (parse_data_row body));
  e ← decrypt_loop ks (row_keys_once positions formats values) (repeated_names positions) bounds positions
        {| re_values := values; re_projected := Z.of_nat (length body); re_changed := false |};
  if negb (re_changed e) then mret None
  else
    body ← lift (map_err Proxy.Pgwire (encode_data_row (re_values e)));
    mret (Some body).

(** ** One frame *)

Definition named_like_protected (resolved : Resolved) (field : RowField) : bool :=
  is_utf8 (rf_name field) && bool_decide (to_lowercase (rf_name field) ∈ rs_names resolved).

(** The first uncovered field named like a protected column, with or without a
    table behind it. *)
Definition find_uncovered (resolved : Resolved) (positions : Described) (from_table : bool)
    (fields : list RowField) : option RowField :=
  let covered := position_index <$> d_columns positions in
  snd ∘ snd <$>
    list_find (λ '(index, field),
        (bool_decide (rf_table_oid field ≠ 0%Z) = from_table) ∧ (index ∉ covered) ∧
        (named_like_protected resolved field = true))
      (imap pair fields).

Definition check_for_stale_mapping (fields : list RowField) (resolved : Resolved)
    (positions : Described) : M RowDecryptor Proxy.Error () :=
  λ s,
    let reject := bool_decide (cx_on_unprotected (rd_ctx s) = Reject) in
    match find_uncovered resolved positions false fields with
    | Some field =>
        if reject then (Err (Proxy.ComputedProtectedColumn (rf_name field)), s)
        else
          let s := warn_computed s in
          match find_uncovered resolved positions true fields with
          | None => (Ok tt, s)
          | Some _ => (Ok tt, warn_stale (upd_ctx request_refresh s))
          end
    | None =>
        match find_uncovered resolved positions true fields with
        | None => (Ok tt, s)
        | Some field =>
            let s := upd_ctx request_refresh s in
            if reject then (Err (Proxy.StaleColumnMap (rf_name field) (rf_table_oid field)), s)
            else (Ok tt, warn_stale s)
        end
    end.

Definition function_call_result : M RowDecryptor Proxy.Error (option bytes) :=
  λ s,
    if bool_decide (cx_on_unprotected (rd_ctx s) = Reject)
    then (Err Proxy.FunctionCallResult, s)
    else (Ok None, warn_function_call s).

(** The positions of a cached statement, re-derived when the resolution moved:
    the decision, from the generation read first and the resolution read after. *)
Definition current_with (generation : Z) (resolved : Resolved) (positions : Described) : Described :=
  if (d_generation positions =? generation)%Z then positions else rederive positions resolved.

Definition current (positions : Described) (s : RowDecryptor) : Described * RowDecryptor :=
  let refreshed := current_with (cx_generation (rd_ctx s)) (cx_resolved (rd_ctx s)) positions in
  if (d_generation positions =? cx_generation (rd_ctx s))%Z then (refreshed, s)
  else (refreshed, upd_portals (rederived refreshed) s).

(** A computation on the transforms' caches alone. *)
Definition on_transforms {A} (m : M PState Proxy.Error A) : M RowDecryptor Proxy.Error A :=
  λ s,
    let '(r, t) := m (rd_transforms s) in
    (r, {| rd_ctx := rd_ctx s; rd_portals := rd_portals s; rd_described := rd_described s;
           rd_warned_stale := rd_warned_stale s; rd_warned_computed := rd_warned_computed s;
           rd_warned_function_call := rd_warned_function_call s; rd_transforms := t |}).

(** Which positions and formats the arriving DataRow is read with. *)
Definition positions_for_row : M RowDecryptor Proxy.Error (Described * ResultFormats) :=
  λ s,
    match row_source (rd_portals s) with
    | FromPortal positions formats =>
        let '(positions, s) := current positions s in (Ok (positions, formats), s)
    | LastDescription =>
        match rd_described s with
        | Some positions => (Ok (positions, None), s)
        | None => (Err Proxy.UndescribedRow, s)
        end
    | Undescribed => (Err Proxy.UndescribedRow, s)
    end.

Definition inspect (ks : KeySource) (msg_type : byte) (body : bytes)
    : M RowDecryptor Proxy.Error (option bytes) :=
  match msg_type with
  | "T"%byte =>
      fields ← lift (map_err Proxy.Pgwire (parse_row_description body));
      resolved ← gets (λ s, cx_resolved (rd_ctx s));
      let positions := described_new resolved
        ((λ f, (rf_table_oid f, rf_attnum f, rf_type_oid f)) <$> fields) in
      _ ← check_for_stale_mapping fields resolved positions;
      _ ← modify (upd_portals (describe_answered positions));
      _ ← modify (upd_described (Some positions));
      mret None
  | "n"%byte =>
      _ ← modify (upd_portals (no_data described_default));
      _ ← modify (upd_described None);
      mret None
  | "D"%byte =>
      '(positions, formats) ← positions_for_row;
      if bool_decide (d_columns positions = []) then mret None
      else
        max_value ← gets (λ s, cx_max_protected_value_len (rd_ctx s));
        on_transforms (decrypt_row ks (d_columns positions) formats body
          {| max_value := max_value; max_body := MAX_MESSAGE_LEN - 4 |})
  | "C"%byte | "I"%byte | "s"%byte | "E"%byte =>
      _ ← modify (upd_portals execute_answered);
      _ ← modify (upd_described None);
      mret None
  | "Z"%byte =>
      _ ← modify (upd_portals batch_answered);
      _ ← modify (upd_described None);
      mret None
  | "V"%byte => function_call_result
  | _ => mret None
  end.

Definition on_frame (ks : KeySource) (msg_type : byte) (body : bytes)
    : M RowDecryptor Proxy.Error FrameAction :=
  λ s,
    match inspect ks msg_type body s with
    | (Ok None, s) => (Ok Relay, s)
    | (Ok (Some body), s) => (Ok (Replace body), s)
    | (Err error, s) => if is_refusal error then (Ok (RefuseAndClose error), s) else (Err error, s)
    end.

End rows.
