(* ===== verification/RowsSpec.v ===== *)
(** * What the read path guarantees

    The theorems about [rows.rs]: which positions a description protects and how
    a newer resolution moves them, under every interleaving of the refresher
    with the sessions; what [decrypt_row] hands back; and what a frame the
    session relays is known to satisfy. *)

From stdpp Require Import sorting.
From S2P Require Import Prelude Utf8 Crates Pgwire Errors Envelope RowKeys Fields Transform.
From S2P Require Import Policy Portal Rows.
Import Mask.

(** ** Protected positions *)

Lemma enumerate_elem {A} (l : list A) i x : (i, x) ∈ imap pair l ↔ l !! i = Some x.
Proof.
  rewrite list_elem_of_lookup. split.
  - intros [j Hj]. rewrite list_lookup_imap in Hj.
    apply fmap_Some in Hj as (y & Hy & [= <- <-]). done.
  - intros Hx. exists i. by rewrite list_lookup_imap, Hx.
Qed.

Lemma protected_elem r fields p :
  p ∈ protected r fields ↔ ∃ oid att ty column,
    fields !! position_index p = Some (oid, att, ty) ∧
    rs_columns r !! (oid, att) = Some column ∧
    p = (position_index p, column, row_key_ref r oid fields).
Proof.
  unfold protected. rewrite list_elem_of_omap. split.
  - intros ([i [[oid att] ty]] & Hi%enumerate_elem & Hp). unfold protected_field in Hp.
    apply bind_Some in Hp as (column & Hc & [= <-]). exists oid, att, ty, column. done.
  - intros (oid & att & ty & column & Hf & Hc & Hp).
    exists (position_index p, (oid, att, ty)). split; [by apply enumerate_elem|].
    unfold protected_field. by rewrite Hc, Hp.
Qed.

Lemma omap_enumerate_sublist {A} (g : nat → A → option Position) k l :
  (∀ i x p, g i x = Some p → position_index p = i) →
  position_index <$> omap (λ '(i, x), g i x) (imap (λ i x, (k + i, x)) l)
    `sublist_of` seq k (length l).
Proof.
  intros Hg. revert k. induction l as [|x l IH]; intros k; [done|].
  rewrite imap_cons. rewrite Nat.add_0_r. cbn [omap list_omap length seq].
  assert (imap ((λ i y, (k + i, y)) ∘ S) l = imap (λ i y, (S k + i, y)) l) as ->.
  { apply imap_ext. intros i y _. simpl. f_equal. lia. }
  specialize (IH (S k)). destruct (g k x) as [p|] eqn:Ep.
  - rewrite fmap_cons, (Hg _ _ _ Ep). by apply sublist_skip.
  - by apply sublist_cons.
Qed.

Lemma protected_indices r fields :
  position_index <$> protected r fields `sublist_of` seq 0 (length fields).
Proof.
  unfold protected.
  rewrite (imap_ext _ (λ i x, (0 + i, x))) by done.
  apply (omap_enumerate_sublist (λ i f, protected_field r fields i f)).
  intros i [[oid att] ty] p. unfold protected_field.
  intros (column & _ & [= <-])%bind_Some. done.
Qed.

Lemma protected_NoDup r fields : NoDup (position_index <$> protected r fields).
Proof. eapply sublist_NoDup; [apply NoDup_seq|apply protected_indices]. Qed.

Lemma key_matches_elem oid att fields i ty :
  (i, ty) ∈ key_matches oid att fields ↔ fields !! i = Some (oid, att, ty).
Proof.
  unfold key_matches. rewrite list_elem_of_omap. split.
  - intros ([j [[o a] t]] & Hj%enumerate_elem & Hm).
    destruct (bool_decide (o = oid)) eqn:Eo; [|done].
    destruct (bool_decide (a = att)) eqn:Ea; [|done].
    apply bool_decide_eq_true in Eo, Ea. simpl in Hm. by simplify_eq.
  - intros Hf. exists (i, (oid, att, ty)). split; [by apply enumerate_elem|].
    by rewrite !bool_decide_true.
Qed.

(** The field a slot reads is the one projection of the table's declared key,
    with the type the catalog resolved. *)
Lemma row_key_ref_slot r oid fields i ty :
  row_key_ref r oid fields = Slot i ty →
  ∃ key, rs_row_keys r !! oid = Some key ∧ ty = rk_type_oid key ∧
    fields !! i = Some (oid, rk_attnum key, ty) ∧
    ∀ j ty', fields !! j = Some (oid, rk_attnum key, ty') → j = i.
Proof.
  unfold row_key_ref. destruct (rs_row_keys r !! oid) as [key|]; [|done].
  pose proof (key_matches_elem oid (rk_attnum key) fields) as Hm.
  destruct (key_matches oid (rk_attnum key) fields) as [|[i' t'] [|]]; [done| |done].
  case_bool_decide as Ht; [done|]. intros [= <- <-].
  exists key. split; [done|]. split; [done|]. split; [apply Hm; by left|].
  intros j ty' Hj%Hm%list_elem_of_singleton. congruence.
Qed.

(** ** Re-derivation *)

Definition covers (d : Described) (r : Resolved) : Prop :=
  ∀ p, p ∈ protected r (d_fields d) → p ∈ d_columns d.

(** A description's positions: one per field at most, in order. *)
Definition described_wf (d : Described) : Prop :=
  StronglySorted position_le (d_columns d) ∧ NoDup (position_index <$> d_columns d).

(** The positions carried over from the older description. *)
Lemma carried_elem (old new : list Position) p :
  p ∈ foldl (λ columns p,
        if existsb (λ q, bool_decide (position_index q = position_index p)) columns then columns
        else columns ++ [p]) new old →
  p ∈ new ∨ p ∈ old.
Proof.
  revert new. induction old as [|q old IH]; intros new Hp; [by left|]. simpl in Hp.
  apply IH in Hp. destruct (existsb _ new); set_solver.
Qed.

Lemma carried_keeps (old new : list Position) :
  let all := foldl (λ columns p,
        if existsb (λ q, bool_decide (position_index q = position_index p)) columns then columns
        else columns ++ [p]) new old in
  (∀ p, p ∈ new → p ∈ all) ∧
  (∀ p, p ∈ old → position_index p ∈ position_index <$> all) ∧
  (NoDup (position_index <$> new) → NoDup (position_index <$> all)).
Proof.
  revert new. induction old as [|q old IH]; intros new; simpl.
  - split_and!; [done| |done]. intros p Hp. by apply elem_of_nil in Hp.
  - destruct (existsb _ new) eqn:Eq.
    + destruct (IH new) as (Hx1 & Hx2 & Hx3). split_and!; [done| |done].
      intros p [->|Hp]%elem_of_cons; [|by apply Hx2].
      apply existsb_spec in Eq as (x & Hx & Ei%bool_decide_eq_true).
      rewrite <- Ei. apply list_elem_of_fmap_2. by apply Hx1.
    + destruct (IH (new ++ [q])) as (Hx1 & Hx2 & Hx3). split_and!.
      * intros p Hp. apply Hx1. set_solver.
      * intros p [->|Hp]%elem_of_cons; [|by apply Hx2].
        apply list_elem_of_fmap_2. apply Hx1. set_solver.
      * intros Hnd. apply Hx3. rewrite fmap_app. apply NoDup_app. split_and!; [done| |by apply NoDup_singleton].
        intros i (x & -> & Hx)%list_elem_of_fmap Hq%list_elem_of_singleton.
        assert (existsb (λ y, bool_decide (position_index y = position_index q)) new = true); [|congruence].
        apply existsb_spec. exists x. split; [done|]. by apply bool_decide_eq_true.
Qed.

#[local] Instance position_le_total : Total position_le.
Proof. intros p q. unfold position_le. lia. Qed.

#[local] Instance position_le_trans : Transitive position_le.
Proof. intros p q r. unfold position_le. lia. Qed.

Lemma rederive_perm d r :
  d_columns (rederive d r) ≡ₚ foldl (λ columns p,
        if existsb (λ q, bool_decide (position_index q = position_index p)) columns then columns
        else columns ++ [p]) (protected r (d_fields d)) (d_columns d).
Proof. apply merge_sort_Permutation. Qed.

Lemma rederive_covers d r : covers (rederive d r) r.
Proof.
  intros p Hp. rewrite rederive_perm. by apply carried_keeps.
Qed.

Lemma rederive_keeps d r p :
  p ∈ d_columns d → position_index p ∈ position_index <$> d_columns (rederive d r).
Proof. intros Hp. rewrite rederive_perm. by apply carried_keeps. Qed.

Lemma rederive_from d r p :
  p ∈ d_columns (rederive d r) → p ∈ protected r (d_fields d) ∨ p ∈ d_columns d.
Proof. rewrite rederive_perm. apply carried_elem. Qed.

Lemma rederive_wf d r : described_wf (rederive d r).
Proof.
  split; [apply StronglySorted_merge_sort; apply _|].
  rewrite rederive_perm. apply carried_keeps, protected_NoDup.
Qed.

Lemma new_covers r fields : covers (described_new r fields) r.
Proof. intros p Hp. exact Hp. Qed.

(** Re-deriving a cached statement's positions against a newer resolution only
    ever adds: every position the description protected is still protected, every
    field the new resolution protects is handled the way the new resolution says,
    nothing comes from anywhere else, and the positions stay in order, one per
    field. *)
Theorem rederive_only_grows d r :
  covers (rederive d r) r ∧
  (∀ p, p ∈ d_columns d → position_index p ∈ position_index <$> d_columns (rederive d r)) ∧
  (∀ p, p ∈ d_columns (rederive d r) → p ∈ protected r (d_fields d) ∨ p ∈ d_columns d) ∧
  d_generation (rederive d r) = rs_generation r ∧ d_fields (rederive d r) = d_fields d ∧
  described_wf (rederive d r).
Proof.
  split; [apply rederive_covers|]. split; [intros p; apply rederive_keeps|].
  split; [intros p; apply rederive_from|]. split; [done|]. split; [done|]. apply rederive_wf.
Qed.

(** What a RowDescription protects: exactly the fields whose table and
    attribute number the resolution names, each at its own position, in order;
    and a row key is read from a result column only when that column is the one
    projection of the table's declared key and has the type the catalog gave. *)
Theorem described_positions r fields i column key :
  ((i, column, key) ∈ d_columns (described_new r fields) ↔
    ∃ oid att ty, fields !! i = Some (oid, att, ty) ∧ rs_columns r !! (oid, att) = Some column ∧
      key = row_key_ref r oid fields) ∧
  NoDup (position_index <$> d_columns (described_new r fields)) ∧
  (∀ oid slot ty, row_key_ref r oid fields = Slot slot ty → ∃ declared,
     rs_row_keys r !! oid = Some declared ∧ ty = rk_type_oid declared ∧
     fields !! slot = Some (oid, rk_attnum declared, ty) ∧
     ∀ j ty', fields !! j = Some (oid, rk_attnum declared, ty') → j = slot).
Proof.
  split; [|split; [apply protected_NoDup|intros oid slot ty; apply row_key_ref_slot]].
  cbn [d_columns described_new]. rewrite protected_elem. unfold position_index. simpl. split.
  - intros (oid & att & ty & c & Hf & Hc & [= -> ->]). eauto 10.
  - intros (oid & att & ty & Hf & Hc & ->). eauto 10.
Qed.

(** ** Publication, under every interleaving *)

(** The shared context, the stores of publications still in flight, and every
    resolution published so far. *)
Record Publishing := {
  pb_ctx : RowContext;
  pb_stores : list Z;
  pb_history : list Resolved;
}.

Definition publishing_start (resolved : Resolved) (on_unprotected : OnUnprotected) (max : nat)
    : Publishing := {|
  pb_ctx := context_new resolved on_unprotected max; pb_stores := [];
  pb_history := [with_generation 0 resolved] |}.

Inductive publish_step : Publishing → Publishing → Prop :=
  | step_swap r ctx stores history g ctx' :
      publish_swap r ctx = (g, ctx') →
      publish_step {| pb_ctx := ctx; pb_stores := stores; pb_history := history |}
        {| pb_ctx := ctx'; pb_stores := g :: stores;
           pb_history := history ++ [cx_resolved ctx'] |}
  | step_store g ctx before after history :
      publish_step {| pb_ctx := ctx; pb_stores := before ++ g :: after; pb_history := history |}
        {| pb_ctx := publish_store g ctx; pb_stores := before ++ after; pb_history := history |}.

Record publishing_ok (st : Publishing) : Prop := {
  pb_last : last (pb_history st) = Some (cx_resolved (pb_ctx st));
  pb_stamps g r : pb_history st !! g = Some r → rs_generation r = Z.of_nat g;
  pb_published : Forall (λ g, 0 ≤ g ≤ rs_generation (cx_resolved (pb_ctx st)))%Z
    (cx_generation (pb_ctx st) :: pb_stores st);
}.

Lemma publishing_last_generation st :
  publishing_ok st →
  (rs_generation (cx_resolved (pb_ctx st)) = Z.of_nat (length (pb_history st)) - 1)%Z ∧
  pb_history st !! Z.to_nat (rs_generation (cx_resolved (pb_ctx st))) = Some (cx_resolved (pb_ctx st)).
Proof.
  intros [Hlast Hst _]. rewrite last_lookup in Hlast.
  pose proof (lookup_lt_Some _ _ _ Hlast) as Hlt. pose proof (Hst _ _ Hlast) as Hg.
  rewrite Hg, Nat2Z.id. split; [lia|done].
Qed.

Lemma publish_step_ok st st' :
  publish_step st st' → (Z.of_nat (length (pb_history st')) ≤ 2 ^ 64)%Z →
  publishing_ok st → publishing_ok st'.
Proof.
  intros Hstep Hlen Hok. destruct (publishing_last_generation _ Hok) as [Hgen _].
  destruct Hstep as [r ctx stores history g ctx' Hs|g ctx before after history];
    destruct Hok as [Hlast Hst Hpub]; simpl in *.
  - unfold publish_swap in Hs. injection Hs as <- <-. simpl in *.
    rewrite length_app in Hlen. simpl in Hlen.
    assert (Z.min (2 ^ 64 - 1) (rs_generation (cx_resolved ctx) + 1) = Z.of_nat (length history))%Z
      as Hmin by lia.
    rewrite Hmin. split; simpl.
    + by rewrite last_snoc.
    + intros g r'. rewrite lookup_app_Some. intros [?|[Hge Hl]]; [by apply Hst|].
      apply list_lookup_singleton_Some in Hl as [Hz <-]. simpl. lia.
    + apply Forall_cons in Hpub as [Hp Hpub].
      repeat (apply Forall_cons; split; [lia|]).
      eapply Forall_impl; [exact Hpub|]. simpl. lia.
  - split; simpl; [done|done|].
    apply Forall_cons in Hpub as [_ Hpub]. apply Forall_app in Hpub as [Hb [Hg Ha]%Forall_cons].
    apply Forall_cons. split; [done|]. by apply Forall_app.
Qed.

Lemma publish_step_history st st' :
  publish_step st st' → pb_history st `prefix_of` pb_history st'.
Proof. destruct 1; simpl; [by apply prefix_app_r|done]. Qed.

Lemma publish_steps_history st st' :
  rtc publish_step st st' → pb_history st `prefix_of` pb_history st'.
Proof.
  induction 1 as [|? ? ? Hstep%publish_step_history _ IH]; [done|]. by etrans.
Qed.

Lemma publish_steps_ok st st' :
  rtc publish_step st st' → (Z.of_nat (length (pb_history st')) ≤ 2 ^ 64)%Z →
  publishing_ok st → publishing_ok st'.
Proof.
  induction 1 as [|x y z Hstep Hsteps IH]; intros Hlen Hok; [done|]. apply IH; [done|].
  apply (publish_step_ok x); [done| |done].
  apply publish_steps_history, prefix_length in Hsteps. lia.
Qed.

Lemma publishing_start_ok r u m : publishing_ok (publishing_start r u m).
Proof.
  split; simpl; [done| |by repeat constructor].
  intros g r'. by intros [-> <-]%list_lookup_singleton_Some.
Qed.

(** A description is true to the resolution it is stamped with. *)
Definition stamped (history : list Resolved) (d : Described) : Prop :=
  (0 ≤ d_generation d)%Z ∧
  ∃ r, history !! Z.to_nat (d_generation d) = Some r ∧ covers d r.

Lemma stamped_prefix h h' d : h `prefix_of` h' → stamped h d → stamped h' d.
Proof.
  intros [k ->] (Hpos & r & Hr & Hc). split; [done|]. exists r. split; [|done].
  by apply lookup_app_l_Some.
Qed.

(** A description taken or re-derived now is stamped with the current resolution. *)
Lemma stamped_now st d :
  publishing_ok st → d_generation d = rs_generation (cx_resolved (pb_ctx st)) →
  covers d (cx_resolved (pb_ctx st)) → stamped (pb_history st) d.
Proof.
  intros Hok Hg Hc. destruct (publishing_last_generation _ Hok) as [Hn Hl].
  pose proof (pb_published _ Hok) as [Hp _]%Forall_cons.
  split; [lia|]. exists (cx_resolved (pb_ctx st)). by rewrite Hg.
Qed.

(** C21: a row of a cached statement is never decrypted with a mapping older than
    the generation published when it arrived. However publications (a swap of the
    resolution, later a store of its generation, several of them possibly racing)
    interleave with a session that reads the generation first and the resolution
    after, the positions it decrypts with cover every column protected by the
    resolution they are stamped with, that stamp is no older than the generation
    read, and no position the description already protected is lost. *)
Theorem current_never_stale r0 u m st1 st2 d :
  let d' := current_with (cx_generation (pb_ctx st1)) (cx_resolved (pb_ctx st2)) d in
  rtc publish_step (publishing_start r0 u m) st1 → rtc publish_step st1 st2 →
  (Z.of_nat (length (pb_history st2)) ≤ 2 ^ 64)%Z → stamped (pb_history st1) d →
  stamped (pb_history st2) d' ∧ (cx_generation (pb_ctx st1) ≤ d_generation d')%Z ∧
  (∀ p, p ∈ d_columns d → position_index p ∈ position_index <$> d_columns d').
Proof.
  intros d' Hr1 Hr2 Hlen Hd.
  pose proof (publish_steps_history _ _ Hr2) as Hpre.
  assert (publishing_ok st1) as Hok1.
  { apply (publish_steps_ok _ _ Hr1); [|apply publishing_start_ok].
    apply prefix_length in Hpre. lia. }
  pose proof (publish_steps_ok _ _ Hr2 Hlen Hok1) as Hok2.
  unfold d', current_with. destruct (Z.eqb_spec (d_generation d) (cx_generation (pb_ctx st1))) as [E|E].
  - split; [by eapply stamped_prefix|]. split; [lia|]. intros p Hp. by apply list_elem_of_fmap_2.
  - split; [|split; [|intros p; apply rederive_keeps]].
    + apply stamped_now; [done|done|apply rederive_covers].
    + cbn [d_generation rederive].
      destruct (publishing_last_generation _ Hok1) as [Hn1 _].
      destruct (publishing_last_generation _ Hok2) as [Hn2 _].
      apply prefix_length in Hpre.
      pose proof (pb_published _ Hok1) as [Hp _]%Forall_cons. lia.
Qed.

(** ** One row *)

Section row_theorems.
Context `{HexCrate, AeadCrate, HmacCrate, Ff1Crate, Lowercase}.

(** What one step of the loop may do to a row: leave it, or put a value in place
    of the one it opened, within both bounds. *)
Lemma decrypt_step_Ok ks row_keys twice bounds i column key e s e' s' :
  decrypt_step ks row_keys twice bounds (i, column, key) e s = (Ok e', s') →
  e' = e ∨
  ∃ value r, re_values e !! i = Some (Some value) ∧ length value ≤ max_value bounds ∧
    re_values e' = <[i := Some r]> (re_values e) ∧ re_changed e' = true ∧
    re_projected e' = (re_projected e - Z.of_nat (length value) + Z.of_nat (length r))%Z ∧
    (re_projected e' ≤ max_body bounds)%Z.
Proof.
  unfold decrypt_step. destruct (re_values e !! i) as [[value|]|] eqn:Ev.
  2, 3: intros [= <- <-]; by left.
  case_bool_decide as Hmax; [done|]. intros E.
  apply M_bind_Ok in E as (r & s1 & _ & E). destruct r as [r|]; [|injection E as <- <-; by left].
  destruct (Z.ltb_spec (max_body bounds)
    (re_projected e - Z.of_nat (length value) + Z.of_nat (length r))) as [|Hle]; [done|].
  injection E as <- <-. right. exists value, r. simpl. split_and!; try done. lia.
Qed.

(** The invariant of the loop, from the values [vs] of a row of [n] bytes. *)
Record edit_ok (n : Z) (vs : list (option bytes)) (bounds : Bounds) (done : list nat)
    (e : RowEdit) : Prop := {
  edit_length : length (re_values e) = length vs;
  edit_others i : i ∉ done → re_values e !! i = vs !! i;
  edit_nulls i : vs !! i = Some None → re_values e !! i = Some None;
  edit_size : (re_projected e - Z.of_nat (row_size (re_values e)) = n - Z.of_nat (row_size vs))%Z;
  edit_bound : re_changed e = true → (re_projected e ≤ max_body bounds)%Z;
  edit_same : re_changed e = false → re_values e = vs;
  edit_ceiling i value : vs !! i = Some (Some value) → re_values e !! i ≠ vs !! i →
    length value ≤ max_value bounds;
}.

Lemma row_size_insert vs i value r :
  vs !! i = Some (Some value) →
  (Z.of_nat (row_size (<[i := Some r]> vs)) =
   Z.of_nat (row_size vs) - Z.of_nat (length value) + Z.of_nat (length r))%Z.
Proof.
  intros Hi. unfold row_size.
  rewrite <- (take_drop_middle vs i (Some value) Hi) at 2.
  rewrite insert_take_drop by (by eapply lookup_lt_Some).
  rewrite !fmap_app, !fmap_cons, !sum_list_with_app. simpl. lia.
Qed.

Lemma decrypt_step_edit ks row_keys twice bounds n vs done p e s e' s' :
  decrypt_step ks row_keys twice bounds p e s = (Ok e', s') →
  edit_ok n vs bounds done e →
  edit_ok n vs bounds (done ++ [position_index p]) e'.
Proof.
  destruct p as [[i column] key].
  intros [->|(value & r & Hv & Hmax & Hvs & Hch & Hpr & Hle)]%decrypt_step_Ok Hok.
  - destruct Hok. split; try done. intros j Hj. apply edit_others0. set_solver.
  - destruct Hok as [Hlen Hoth Hnul Hsz Hbd Hsame Hceil]. cbn [position_index fst]. split.
    + by rewrite Hvs, length_insert.
    + intros j Hj. rewrite Hvs, list_lookup_insert_ne by set_solver. apply Hoth. set_solver.
    + intros j Hj. rewrite Hvs, list_lookup_insert_ne; [by apply Hnul|].
      intros <-. rewrite (Hnul i Hj) in Hv. done.
    + rewrite Hvs, (row_size_insert _ _ _ r Hv), Hpr. lia.
    + done.
    + congruence.
    + intros j old Hj Hne. destruct (decide (re_values e !! j = vs !! j)) as [E|E].
      * rewrite Hvs in Hne. destruct (decide (j = i)) as [->|]; [congruence|].
        by rewrite list_lookup_insert_ne in Hne by done.
      * by apply (Hceil j).
Qed.

Lemma decrypt_loop_edit ks row_keys twice bounds n vs done positions e s e' s' :
  decrypt_loop ks row_keys twice bounds positions e s = (Ok e', s') →
  edit_ok n vs bounds done e →
  edit_ok n vs bounds (done ++ (position_index <$> positions)) e'.
Proof.
  revert done e s. induction positions as [|p positions IH]; intros done e s.
  - intros [= <- <-]. by rewrite fmap_nil, app_nil_r.
  - intros (e1 & s1 & E1 & E)%M_bind_Ok Hok.
    rewrite fmap_cons, cons_middle, (assoc_L (++)). eapply IH; [exact E|].
    by eapply decrypt_step_edit.
Qed.

(** A successful rewrite, taken apart. *)
Lemma decrypt_row_Ok ks positions formats body bounds s out s' :
  decrypt_row ks positions formats body bounds s = (Ok out, s') →
  check_keys positions = Ok tt ∧ ∃ vs e,
    parse_data_row body = Ok vs ∧
    decrypt_loop ks (row_keys_once positions formats vs) (repeated_names positions) bounds
      positions {| re_values := vs; re_projected := Z.of_nat (length body); re_changed := false |} s
      = (Ok e, s') ∧
    edit_ok (Z.of_nat (length body)) vs bounds (position_index <$> positions) e ∧
    match out with
    | None => re_changed e = false
    | Some body' => re_changed e = true ∧ encode_data_row (re_values e) = Ok body'
    end.
Proof.
  unfold decrypt_row. intros E. apply M_bind_Ok in E as ([] & s1 & [= Hk ->] & E).
  split; [done|]. apply M_bind_Ok in E as (vs & s2 & [= Hp ->] & E).
  apply map_err_Ok in Hp. apply M_bind_Ok in E as (e & s3 & El & E).
  exists vs, e. split; [done|].
  assert (edit_ok (Z.of_nat (length body)) vs bounds (position_index <$> positions) e).
  { apply (decrypt_loop_edit _ _ _ _ _ _ [] _ _ _ _ _ El). by split. }
  destruct (re_changed e) eqn:Ec; simpl in E.
  - apply M_bind_Ok in E as (b & s4 & [= Hb ->] & [= <- ->]). apply map_err_Ok in Hb. done.
  - injection E as <- ->. done.
Qed.

(** Rewriting a DataRow touches nothing but the protected positions, and stays
    within its bounds: the new body parses to as many values, every value at a
    position that is not protected is byte for byte the one received, a NULL is
    still NULL, the body is the largest a frame can carry at most, and no value
    over the configured ceiling was opened. *)
Theorem row_rewrite_confined ks positions formats body bounds s body' s' :
  decrypt_row ks positions formats body bounds s = (Ok (Some body'), s') →
  ∃ vs vs', parse_data_row body = Ok vs ∧ parse_data_row body' = Ok vs' ∧
    length vs' = length vs ∧
    (∀ i, i ∉ position_index <$> positions → vs' !! i = vs !! i) ∧
    (∀ i, vs !! i = Some None → vs' !! i = Some None) ∧
    (∀ i value, vs !! i = Some (Some value) → vs' !! i ≠ vs !! i →
       length value ≤ max_value bounds) ∧
    (Z.of_nat (length body') ≤ max_body bounds)%Z.
Proof.
  intros (_ & vs & e & Hp & _ & He & Hch & Hb)%decrypt_row_Ok.
  exists vs, (re_values e). split; [done|].
  split; [by apply data_row_iff|]. do 3 (split; [apply He|]). split; [apply (edit_ceiling _ _ _ _ _ He)|].
  rewrite (encode_data_row_length _ _ Hb).
  pose proof (edit_bound _ _ _ _ _ He Hch). pose proof (edit_size _ _ _ _ _ He).
  apply parsed_row_size in Hp. lia.
Qed.

End row_theorems.

(** ** Reading back what was written *)

Section row_roundtrip.
Context `{HexCrate, AeadCrate, HmacCrate, Ff1Crate, Lowercase}.
Context `{!HexLaws, !AeadLaws, !HmacLaws, !Ff1Laws}.
Context (K I : bytes → option bytes).

(** [v] is what the server returns for a cell of an encrypted column, sealed for
    the row [row], whose key [ks'] still has; the client gets [out] for it, in
    the form it asked the column in. *)
Inductive stored_cell (ks ks' : KeySource) (row : option RowKey) (column : ReadColumn)
    : bytes → bytes → Prop :=
  | sealed_cell e nonce plaintext s stored s' v hex_text :
      rc_transform column = Some (DynEncrypt e) → rc_mask column = None →
      wired_to (rc_name column) (DynEncrypt e) →
      pstate_ok K I s → length nonce = NONCE_LEN →
      on_transform (rc_name column) (seal (DynEncrypt e) ks nonce plaintext row) s = (Ok stored, s') →
      searchable e = true ∨ BlindIndex.split stored = None →
      is_ok (en ← ok_or Core.Malformed (stored_envelope stored); id ← key_id en; ks_key ks' id)
        = true →
      decode_wire (DynEncrypt e) v = (stored, hex_text) →
      stored_cell ks ks' row column v (if hex_text : bool then hex_text_form plaintext else plaintext).

Lemma encrypt_seal_length e ks nonce p row s stored s' :
  source_ok K ks → index_ok I ks → encrypt_ok K I e s →
  seal e ks nonce p row s = (Ok stored, s') → length p ≤ length stored.
Proof.
  intros Hks Hi Hs Hseal.
  destruct (encrypt_seal_Ok K I e ks nonce p row s stored s' Hi Hs Hseal) as (en & c & He & Hst).
  destruct (ciphers_seal_Ok K _ _ _ _ _ _ _ Hks (encrypt_ciphers _ _ _ _ Hs) He)
    as (id & cc & _ & _ & (magic & a & ct & _ & Hct & ->)%sealed_bytes_Ok).
  apply gcm_length in Hct.
  assert (length p ≤ length (envelope magic id nonce ct)) as Hle.
  { unfold envelope. rewrite !length_app. lia. }
  destruct (et_index_key_name e); [|by subst stored].
  destruct Hst as (k & _ & ->). unfold BlindIndex.prepend. rewrite length_app. lia.
Qed.

Lemma decode_wire_length e v stored hex_text :
  decode_wire (DynEncrypt e) v = (stored, hex_text) →
  length v = if hex_text then 2 + 2 * length stored else length stored.
Proof.
  unfold decode_wire. change (wire (DynEncrypt e)) with Bytea. cbv beta iota.
  destruct (strip_prefix (b#"\x") v) as [h|] eqn:Eh; cbn [mbind option_bind]; [|by intros [= <- <-]].
  destruct (hex_decode h) as [d|] eqn:Ed; [|by intros [= <- <-]].
  intros [= <- <-]. apply strip_prefix_Some in Eh as ->. rewrite length_app.
  by rewrite (hex_decode_length _ _ Ed).
Qed.

Lemma hex_text_form_length bs : length (hex_text_form bs) = 2 + 2 * length bs.
Proof. unfold hex_text_form. by rewrite length_app, hex_encode_length. Qed.

Lemma stored_cell_length ks ks' row column v out :
  source_ok K ks → index_ok I ks → stored_cell ks ks' row column v out → length out ≤ length v.
Proof.
  intros Hks Hi [e nonce p s stored s' v' hex_text Ht _ Hw Hs _ Hseal _ _ Hd].
  apply decode_wire_length in Hd. destruct (on_transform_Ok _ _ _ _ _ Hseal) as [t Hst].
  apply (encrypt_seal_length _ _ _ _ _ _ _ _ Hks Hi
    (tstate_encrypt_ok K I _ _ _ Hw (pstate_tstate K I _ _ Hs))) in Hst.
  destruct hex_text; [rewrite hex_text_form_length|]; lia.
Qed.

Lemma replace_value_opens ks ks' row_keys row repeated i column key v out s2 :
  source_ok K ks → source_ok K ks' → index_ok I ks → index_ok I ks' → pstate_ok K I s2 →
  stored_cell ks ks' row column v out → key_at row_keys key = Ok <$> row →
  ∃ s3, replace_value ks' row_keys repeated i column key v s2 = (Ok (Some out), s3) ∧
    pstate_ok K I s3.
Proof.
  intros Hks Hks' Hi Hi' Hs2 [e nonce p s stored s' v' hex_text Ht Hm Hw Hs Hn Hseal Hsp Hk Hd] Hkey.
  unfold replace_value. rewrite Ht, Hd, Hm. unfold mbind, M_bind, open_value.
  rewrite Hkey.
  destruct (on_transform_Ok _ _ _ _ _ Hseal) as [t Hst].
  pose proof (encrypt_roundtrip K I e ks ks' nonce p row _ stored t _ Hks Hks' Hi
    (tstate_encrypt_ok K I _ _ _ Hw (pstate_tstate K I (rc_name column) s Hs))
    (tstate_encrypt_ok K I _ _ _ Hw (pstate_tstate K I (rc_name column) s2 Hs2)) Hn Hst Hk Hsp) as Ho.
  assert (pstate_ok K I (on_transform (rc_name column) (open (DynEncrypt e) ks' stored row) s2).2)
    as Hok.
  { apply (on_transform_ok K I); [done|]. intros t' Ht'.
    apply (dyn_tstate K I _ _ _ nonce stored row t' Hks' Hi' Hw Ht'). }
  assert ((on_transform (rc_name column) (open (DynEncrypt e) ks' stored row) s2).1 = Ok (Some p))
    as Hop.
  { unfold on_transform. cbn [open dyn_transform] in *. by destruct (open e ks' stored row _). }
  destruct (on_transform (rc_name column) (open (DynEncrypt e) ks' stored row) s2) as [r s3] eqn:Er.
  simpl in Hop, Hok. subst r. exists s3. split; [|done].
  destruct row as [k|]; cbn [fmap option_fmap option_map]; unfold with_err; cbv beta zeta; rewrite Er; cbn; by destruct hex_text.
Qed.

(** Every protected position of a row holds a stored cell, bound to the row key the
    row itself carries. *)
Definition row_stored (ks ks' : KeySource) (row_keys : list RowKeyOnce) (ceiling : nat)
    (vs : list (option bytes)) (out : nat → bytes) (positions : list Position) : Prop :=
  Forall (λ '(i, column, key), ∃ v row,
      vs !! i = Some (Some v) ∧ length v ≤ ceiling ∧
      key_at row_keys key = Ok <$> row ∧ stored_cell ks ks' row column v (out i)) positions.

Lemma row_stored_insert ks ks' row_keys ceiling vs out positions i x :
  i ∉ position_index <$> positions →
  row_stored ks ks' row_keys ceiling vs out positions →
  row_stored ks ks' row_keys ceiling (<[i := x]> vs) out positions.
Proof.
  intros Hi Hp. apply Forall_forall. intros [[j column] key] Hj.
  pose proof (proj1 (Forall_forall _ _) Hp _ Hj) as (v & row & Hv & Hr).
  exists v, row. rewrite list_lookup_insert_ne; [done|].
  intros ->. apply Hi. by apply (list_elem_of_fmap_2 position_index _ _ Hj).
Qed.

(** A value that encodes to no more bytes. *)
Definition no_longer (v' v : option bytes) : Prop :=
  length (default [] v') ≤ length (default [] v).

#[local] Instance no_longer_preorder : PreOrder no_longer.
Proof. split; [intros v|intros x y z]; unfold no_longer; lia. Qed.

Lemma decrypt_loop_opens ks ks' row_keys twice bounds out positions e s :
  source_ok K ks → source_ok K ks' → index_ok I ks → index_ok I ks' → pstate_ok K I s →
  NoDup (position_index <$> positions) →
  row_stored ks ks' row_keys (max_value bounds) (re_values e) out positions →
  (re_projected e ≤ max_body bounds)%Z →
  ∃ e' s', decrypt_loop ks' row_keys twice bounds positions e s = (Ok e', s') ∧
    pstate_ok K I s' ∧
    re_changed e' = re_changed e || bool_decide (positions ≠ []) ∧
    (∀ i, re_values e' !! i = if decide (i ∈ position_index <$> positions)
       then Some (Some (out i)) else re_values e !! i) ∧
    Forall2 no_longer (re_values e') (re_values e).
Proof.
  intros Hks Hks' Hi Hi'. revert e s.
  induction positions as [|[[i column] key] positions IH]; intros e s Hs Hnd Hst Hpr.
  - exists e, s. split; [done|]. split; [done|]. split; [by rewrite orb_false_r|].
    done.
  - apply NoDup_cons in Hnd as [Hni Hnd]. apply Forall_cons in Hst as [(v & row & Hv & Hl & Hk & Hc) Hst].
    destruct (replace_value_opens ks ks' row_keys row (bool_decide (rc_name column ∈ twice)) i column
      key v (out i) s Hks Hks' Hi Hi' Hs Hc Hk) as (s1 & Hr & Hs1).
    pose proof (stored_cell_length _ _ _ _ _ _ Hks Hi Hc) as Hle.
    set (e1 := {| re_values := <[i := Some (out i)]> (re_values e);
      re_projected := re_projected e - Z.of_nat (length v) + Z.of_nat (length (out i));
      re_changed := true |}).
    assert (decrypt_step ks' row_keys twice bounds (i, column, key) e s = (Ok e1, s1)) as Hstep.
    { unfold decrypt_step. rewrite Hv, bool_decide_false by lia.
      unfold mbind, M_bind. rewrite Hr.
      by destruct (Z.ltb_spec (max_body bounds)
        (re_projected e - Z.of_nat (length v) + Z.of_nat (length (out i)))) as [|]; [lia|]. }
    destruct (IH e1 s1 Hs1 Hnd) as (e' & s' & Hloop & Hs' & Hch & Hvs & Hsz).
    { by apply row_stored_insert. }
    { simpl. lia. }
    exists e', s'. split; [by cbn [decrypt_loop]; rewrite (M_bind_eval _ _ _ _ _ Hstep)|].
    split; [done|]. split; [by rewrite Hch, orb_true_r|]. split.
    + intros j. rewrite Hvs. rewrite fmap_cons. simpl. destruct (decide (j ∈ _)) as [Hj|Hj].
      { rewrite decide_True; [done|]. by right. }
      destruct (decide (j = i)) as [->|Hne].
      * rewrite decide_True by left. apply list_lookup_insert_eq. by eapply lookup_lt_Some.
      * rewrite decide_False by set_solver. by rewrite list_lookup_insert_ne.
    + etrans; [exact Hsz|].
      simpl. rewrite <- (list_insert_id (re_values e) i (Some v)) at 2 by done.
      by apply Forall2_insert.
Qed.

Lemma encode_no_longer vs vs' body :
  encode_data_row vs = Ok body → Forall2 no_longer vs' vs → is_ok (encode_data_row vs') = true.
Proof.
  intros Hb Hle. assert (is_ok (encode_data_row vs) = true) as Hok by (by rewrite Hb).
  apply encode_data_row_fits in Hok as [Hn Hvs]. apply encode_data_row_fits.
  rewrite (Forall2_length _ _ _ Hle). split; [done|].
  eapply Forall2_Forall_l; [exact Hle|]. eapply Forall_impl; [exact Hvs|].
  intros v Hv v' Hv'. unfold no_longer in Hv'. simpl in *. lia.
Qed.

(** C8: end to end, a row comes back in the clear: when every protected position of
    a DataRow holds a value sealed for its column and for the row key the row
    itself projects (in text or binary format, searchable or not, strict or not),
    the rewrite succeeds, every protected position holds its plaintext in the
    form the client asked for, every other position is untouched, and the caches
    stay sound. The rewrite cannot outgrow the frame the row came in. *)
Theorem row_roundtrip ks ks' positions formats body bounds vs out s :
  source_ok K ks → source_ok K ks' → index_ok I ks → index_ok I ks' → pstate_ok K I s →
  positions ≠ [] → NoDup (position_index <$> positions) → check_keys positions = Ok tt →
  encode_data_row vs = Ok body → (Z.of_nat (length body) ≤ max_body bounds)%Z →
  row_stored ks ks' (row_keys_once positions formats vs) (max_value bounds) vs out positions →
  ∃ body' vs' s', decrypt_row ks' positions formats body bounds s = (Ok (Some body'), s') ∧
    parse_data_row body' = Ok vs' ∧
    (∀ i, vs' !! i = if decide (i ∈ position_index <$> positions)
                     then Some (Some (out i)) else vs !! i) ∧
    pstate_ok K I s'.
Proof.
  intros Hks Hks' Hi Hi' Hs Hne Hnd Hck Hb Hsz Hst.
  pose proof (proj1 (data_row_iff _ _) Hb) as [Hp _].
  destruct (decrypt_loop_opens ks ks' (row_keys_once positions formats vs) (repeated_names positions)
    bounds out positions
    {| re_values := vs; re_projected := Z.of_nat (length body); re_changed := false |} s
    Hks Hks' Hi Hi' Hs Hnd Hst Hsz) as (e & s1 & Hl & Hs1 & Hch & Hvs & Hle).
  pose proof (encode_no_longer _ _ _ Hb Hle) as Hok.
  destruct (encode_data_row (re_values e)) as [body'|] eqn:Eb; [|done].
  exists body', (re_values e), s1. split.
  - unfold decrypt_row, mbind, M_bind, lift. rewrite Hck, Hp. cbn [map_err]. rewrite Hl, Hch.
    rewrite bool_decide_true by done. cbn [negb orb re_changed]. by rewrite Eb.
  - split; [by apply data_row_iff|]. split; [exact Hvs|exact Hs1].
Qed.

End row_roundtrip.

(** ** Nothing stored leaks *)

Section row_fail_closed.
Context `{HexCrate, AeadCrate, HmacCrate, Ff1Crate, Lowercase}.

(** What a successful pass does at one protected position. *)
Lemma decrypt_loop_at ks row_keys twice bounds positions e s e' s' i column key v :
  decrypt_loop ks row_keys twice bounds positions e s = (Ok e', s') →
  NoDup (position_index <$> positions) → (i, column, key) ∈ positions →
  re_values e !! i = Some (Some v) →
  ∃ s1 s2 replaced,
    replace_value ks row_keys (bool_decide (rc_name column ∈ twice)) i column key v s1
      = (Ok replaced, s2) ∧
    re_values e' !! i = Some (Some (default v replaced)) ∧
    (is_Some replaced → re_changed e' = true).
Proof.
  assert (∀ positions e s e' s', decrypt_loop ks row_keys twice bounds positions e s = (Ok e', s') →
    (i ∉ position_index <$> positions → re_values e' !! i = re_values e !! i) ∧
    (re_changed e = true → re_changed e' = true)) as Hrest.
  { clear. induction positions as [|[[j c] k] positions IH]; intros e s e' s'.
    - by intros [= <- <-].
    - intros (e1 & s1 & E1 & E2)%M_bind_Ok. apply IH in E2 as [Hv Hc].
      apply decrypt_step_Ok in E1 as [->|(v & r & _ & _ & Hvs & Hch & _ & _)]; [set_solver|].
      split; [|auto]. rewrite fmap_cons. intros [Hne Hni]%not_elem_of_cons.
      rewrite (Hv Hni), Hvs. by rewrite list_lookup_insert_ne by done. }
  revert e s. induction positions as [|p positions IH]; intros e s.
  { intros _ _ Hin. by apply elem_of_nil in Hin. }
  intros (e1 & s1 & E1 & E2)%M_bind_Ok [Hni Hnd]%NoDup_cons Hin Hv.
  apply elem_of_cons in Hin as [<-|Hin].
  - apply Hrest in E2 as [Hkeep Hch]. specialize (Hkeep Hni). unfold decrypt_step in E1.
    rewrite Hv in E1. case_bool_decide; [done|].
    apply M_bind_Ok in E1 as (r & s2 & Hr & E1). exists s, s2, r. split; [done|].
    destruct r as [r|]; simpl.
    + destruct (_ <? _)%Z; [done|]. injection E1 as <- <-. rewrite Hkeep. simpl.
      split; [|auto]. apply list_lookup_insert_eq. by eapply lookup_lt_Some.
    + injection E1 as <- <-. rewrite Hkeep. split; [done|]. by intros [? [=]].
  - destruct p as [[j c] k]. eapply (IH e1 s1 E2 Hnd Hin).
    apply decrypt_step_Ok in E1 as [->|(v' & r & _ & _ & Hvs & _)]; [done|].
    rewrite Hvs, list_lookup_insert_ne; [done|]. intros ->.
    apply Hni. by apply (list_elem_of_fmap_2 position_index _ _ Hin).
Qed.

(** An envelope either opens or fails the row: it is never passed over. *)
Lemma open_value_envelope ks row_keys repeated i column key e stored env s r s' :
  stored_envelope stored = Some env →
  open_value ks row_keys repeated i column key (DynEncrypt e) stored s = (Ok r, s') →
  ∃ p row s0 s1, r = Some p ∧ on_transform (rc_name column) (open (DynEncrypt e) ks stored row) s0
    = (Ok (Some p), s1).
Proof.
  intros Henv Ho.
  assert (∃ row, on_transform (rc_name column) (open (DynEncrypt e) ks stored row) s = (Ok r, s'))
    as [row Hr].
  { unfold open_value in Ho. destruct (key_at row_keys key) as [[k|why]|];
      apply with_err_Ok in Ho; by eexists. }
  assert (is_Some r) as [p ->]; [|eauto 10].
  destruct (on_transform_Ok _ _ _ _ _ Hr) as [t Ht].
  cbn [open dyn_transform encrypt_transform] in Ht. unfold encrypt_open in Ht.
  rewrite Henv in Ht. by apply M_bind_Ok in Ht as (p & t1 & _ & [= <- _]).
Qed.

(** The bytes the client is handed for an opened value. *)
Definition shown (column : ReadColumn) (hex_text : bool) (p : bytes) : bytes :=
  let m := match rc_mask column with Some mask => apply mask p | None => p end in
  if hex_text then hex_text_form m else m.

(** Ciphertext is never handed to the client. If a row is relayed or rewritten
    at all, then at every protected position of an encrypted column that holds an
    envelope (with or without its blind index, in hex text or raw) the envelope
    was opened and authenticated, and what the client gets there is the plaintext,
    masked when the column has a mask; a row relayed unchanged holds no such value. *)
Theorem ciphertext_never_relayed ks positions formats body bounds s out s' vs i column key e v
    stored hex_text env :
  decrypt_row ks positions formats body bounds s = (Ok out, s') →
  NoDup (position_index <$> positions) → (i, column, key) ∈ positions →
  rc_transform column = Some (DynEncrypt e) →
  parse_data_row body = Ok vs → vs !! i = Some (Some v) →
  decode_wire (DynEncrypt e) v = (stored, hex_text) → stored_envelope stored = Some env →
  ∃ body' vs' p row s0 s1, out = Some body' ∧ parse_data_row body' = Ok vs' ∧
    on_transform (rc_name column) (open (DynEncrypt e) ks stored row) s0 = (Ok (Some p), s1) ∧
    vs' !! i = Some (Some (shown column hex_text p)).
Proof.
  intros (_ & vs0 & ed & Hp & Hl & _ & Hout)%decrypt_row_Ok Hnd Hin Ht Hp' Hv Hd Henv.
  assert (vs0 = vs) as -> by congruence.
  destruct (decrypt_loop_at _ _ _ _ _ _ _ _ _ _ _ _ _ Hl Hnd Hin Hv) as (s1 & s2 & r & Hr & Hi & Hc).
  unfold replace_value in Hr. rewrite Ht, Hd in Hr.
  apply M_bind_Ok in Hr as (opened & s3 & Ho & [= <- <-]).
  destruct (open_value_envelope _ _ _ _ _ _ _ _ _ _ _ _ Henv Ho) as (p & row & s0 & s4 & -> & Hop).
  assert (re_values ed !! i = Some (Some (shown column hex_text p))) as Hshow.
  { rewrite Hi. unfold shown. by destruct (rc_mask column). }
  assert (re_changed ed = true) as Hch by (apply Hc; by destruct (rc_mask column)).
  destruct out as [body'|]; [|congruence]. destruct Hout as [_ Hb].
  apply data_row_iff in Hb as [Hb _]. exists body', (re_values ed), p, row, s0, s4. done.
Qed.

(** ** Frames *)

(** A DataRow no description accounts for is refused, never relayed: when the
    queue says the portal being executed was not described, or no RowDescription
    stands in front of a simple-protocol row, the client gets the error and the
    session closes; its state does not change. *)
Theorem undescribed_row_refused ks body s :
  row_source (rd_portals s) = Undescribed ∨
    (row_source (rd_portals s) = LastDescription ∧ rd_described s = None) →
  on_frame ks "D"%byte body s = (Ok (RefuseAndClose Proxy.UndescribedRow), s).
Proof.
  intros Hs. unfold on_frame, inspect, mbind, M_bind, positions_for_row.
  by destruct Hs as [-> | [-> ->]].
Qed.

Lemma find_uncovered_None resolved d from_table fields i f :
  find_uncovered resolved d from_table fields = None → fields !! i = Some f →
  bool_decide (rf_table_oid f ≠ 0%Z) = from_table → named_like_protected resolved f = true →
  i ∈ position_index <$> d_columns d.
Proof.
  unfold find_uncovered. intros Hn%fmap_None Hf Ht Hname.
  apply list_find_None in Hn. rewrite Forall_forall in Hn.
  specialize (Hn (i, f) (proj2 (enumerate_elem _ _ _) Hf)). simpl in Hn.
  apply dec_stable. intros Hni. by apply Hn.
Qed.

(** Under [on_unprotected = reject] a RowDescription is relayed only if nothing
    in it can leak: every field named like a configured column, with or without a
    table behind it, is at a position the recorded description protects. *)
Theorem reject_covers_names ks body s s' :
  cx_on_unprotected (rd_ctx s) = Reject →
  on_frame ks "T"%byte body s = (Ok Relay, s') →
  ∃ fields d, parse_row_description body = Ok fields ∧ rd_described s' = Some d ∧
    d = described_new (cx_resolved (rd_ctx s))
          ((λ f, (rf_table_oid f, rf_attnum f, rf_type_oid f)) <$> fields) ∧
    rd_portals s' = describe_answered d (rd_portals s) ∧
    ∀ i f, fields !! i = Some f → named_like_protected (cx_resolved (rd_ctx s)) f = true →
      i ∈ position_index <$> d_columns d.
Proof.
  intros Hrej. unfold on_frame, inspect, mbind, M_bind, lift, gets, modify.
  destruct (parse_row_description body) as [fields|] eqn:Ep; simpl; [|done].
  set (r := cx_resolved (rd_ctx s)).
  set (d := described_new r _). unfold check_for_stale_mapping. rewrite Hrej.
  cbn [bool_decide]. rewrite bool_decide_true by done.
  destruct (find_uncovered r d false fields) as [f|] eqn:Ef; [done|].
  destruct (find_uncovered r d true fields) as [f|] eqn:Et; [done|].
  intros [= <-]. exists fields, d. repeat (split; [done|]).
  intros i f Hf Hname. destruct (bool_decide (rf_table_oid f ≠ 0%Z)) eqn:E.
  - by eapply (find_uncovered_None r d true).
  - by eapply (find_uncovered_None r d false).
Qed.

End row_fail_closed.

(** ** Witnesses *)

Module RowsExample.
Export PolicyExample.

Definition name_ssn : bytes := b#"public.users.ssn".
Definition e_ssn : EncryptTransform :=
  strict_row_binding (encrypt_new ssn (Some name_ssn)) true.
Definition col_ssn : ReadColumn := {|
  rc_name := name_ssn; rc_transform := Some (DynEncrypt e_ssn); rc_mask := None |}.
Definition users_key : ResolvedRowKey := {|
  rk_attnum := 1; rk_type_oid := 23; rk_name := b#"id"; rk_table := b#"public.users" |}.

(** [users] has OID 16384, its row key [id int4] is attribute 1, [ssn] attribute 2. *)
Definition users : Resolved := {|
  rs_columns := {[(16384, 2)%Z := col_ssn]}; rs_names := {[b#"ssn"]};
  rs_positions := {[name_ssn := (16384, 2)%Z]}; rs_row_keys := {[16384%Z := users_key]};
  rs_row_key_by_table := {[(b#"public", b#"users") := users_key]}; rs_generation := 0 |}.
Definition nothing : Resolved := {|
  rs_columns := ∅; rs_names := ∅; rs_positions := ∅; rs_row_keys := ∅;
  rs_row_key_by_table := ∅; rs_generation := 0 |}.

Definition id_ssn : list FieldId := [(16384, 1, 23); (16384, 2, 17)]%Z.
Definition at_ssn : list Position := [(1, col_ssn, Slot 0 23)].

Lemma described_users : d_columns (described_new users id_ssn) = at_ssn.
Proof. vm_compute. reflexivity. Qed.

Definition cold : PState := {| ps_ciphers := fresh; ps_keys := ∅ |}.

Lemma cold_ok : pstate_ok ring index_ring cold.
Proof. split; [apply fresh_ok|]. intros name k. cbn [ps_keys cold]. by rewrite lookup_empty. Qed.

Definition plain : bytes := b#"078-05-1120".
Definition write_ssn : result Core.Error bytes * PState :=
  on_transform name_ssn (seal (DynEncrypt e_ssn) source1 nonce1 plain (Some row42)) cold.
Definition cell : bytes := value [] write_ssn.1.
Definition row : list (option bytes) := [Some b#"42"; Some (hex_text_form cell)].
Definition row_body : bytes :=
  match encode_data_row row with Ok b => b | Err _ => [] end.
Definition wide : Bounds := {| max_value := 400; max_body := 1000 |}.
Definition read_row : result Proxy.Error (option bytes) * PState :=
  decrypt_row source1 at_ssn None row_body wide cold.

Lemma cell_stored :
  stored_cell ring index_ring source1 source1 (Some row42) col_ssn (hex_text_form cell)
    (hex_text_form plain).
Proof.
  apply (sealed_cell ring index_ring source1 source1 (Some row42) col_ssn e_ssn nonce1 plain cold
    cell write_ssn.2 (hex_text_form cell) true).
  - reflexivity.
  - reflexivity.
  - split; [reflexivity|by right].
  - apply cold_ok.
  - reflexivity.
  - apply with_state. vm_compute. reflexivity.
  - by left.
  - vm_compute. reflexivity.
  - vm_compute. reflexivity.
Qed.

Lemma row_roundtrip_witness :
  ∃ body' vs' s', read_row = (Ok (Some body'), s') ∧ parse_data_row body' = Ok vs' ∧
    vs' !! 0 = Some (Some b#"42") ∧ vs' !! 1 = Some (Some (hex_text_form plain)).
Proof.
  destruct (row_roundtrip ring index_ring source1 source1 at_ssn None row_body wide row
    (λ _, hex_text_form plain) cold source1_ok source1_ok source1_index source1_index cold_ok)
    as (body' & vs' & s' & Hd & Hp & Hvs & _).
  - done.
  - by apply NoDup_singleton.
  - reflexivity.
  - vm_compute. reflexivity.
  - vm_compute. discriminate.
  - apply Forall_singleton. exists (hex_text_form cell), (Some row42).
    split; [reflexivity|]. split; [apply Nat.leb_le; vm_compute; reflexivity|].
    split; [vm_compute; reflexivity|]. apply cell_stored.
  - exists body', vs', s'. split; [exact Hd|]. split; [exact Hp|]. rewrite !Hvs. split; reflexivity.
Defined.

Definition row_body' : bytes :=
  match read_row.1 with Ok (Some b) => b | _ => [] end.

Lemma read_row_Ok : read_row = (Ok (Some row_body'), read_row.2).
Proof. apply with_state. vm_compute. reflexivity. Qed.

Lemma row_rewrite_confined_witness :
  ∃ vs vs', parse_data_row row_body = Ok vs ∧ parse_data_row row_body' = Ok vs' ∧
    vs' !! 0 = vs !! 0 ∧ (Z.of_nat (length row_body') ≤ 1000)%Z.
Proof.
  destruct (row_rewrite_confined source1 at_ssn None row_body wide cold row_body' read_row.2
    read_row_Ok) as (vs & vs' & Hp & Hp' & _ & Hoth & _ & _ & Hsz).
  exists vs, vs'. split; [exact Hp|]. split; [exact Hp'|]. split; [|exact Hsz].
  apply Hoth. change (0 ∉ [1]). intros Hin%list_elem_of_singleton. discriminate Hin.
Defined.

Lemma ciphertext_never_relayed_witness :
  ∃ body' vs' p, Some row_body' = Some body' ∧ parse_data_row body' = Ok vs' ∧
    vs' !! 1 = Some (Some (hex_text_form p)).
Proof.
  destruct (ciphertext_never_relayed source1 at_ssn None row_body wide cold (Some row_body')
    read_row.2 row 1 col_ssn (Slot 0 23) e_ssn (hex_text_form cell) cell true
    (drop 32 cell) read_row_Ok)
    as (body' & vs' & p & _ & _ & _ & Hb & Hp & _ & Hi).
  - by apply NoDup_singleton.
  - by left.
  - reflexivity.
  - vm_compute. reflexivity.
  - reflexivity.
  - vm_compute. reflexivity.
  - vm_compute. reflexivity.
  - exists body', vs', p. split; [exact Hb|]. split; [exact Hp|exact Hi].
Defined.

Definition session : RowDecryptor :=
  decryptor (context_new users Reject 400) tracked_default cold.

Lemma undescribed_row_refused_witness :
  on_frame source1 "D"%byte row_body session = (Ok (RefuseAndClose Proxy.UndescribedRow), session).
Proof. apply undescribed_row_refused. right. split; reflexivity. Defined.

Definition field_body (name : bytes) (oid attnum type_oid : Z) : bytes :=
  name ++ [x00] ++ be_bytes 4 oid ++ be_bytes 2 attnum ++ be_bytes 4 type_oid ++
  be_bytes 2 (-1) ++ be_bytes 4 (-1) ++ be_bytes 2 0.
Definition description_body : bytes :=
  be_bytes 2 2 ++ field_body b#"id" 16384 1 23 ++ field_body b#"SSN" 16384 2 17.

Lemma reject_covers_names_witness :
  ∃ fields d, parse_row_description description_body = Ok fields ∧
    (length fields = 2) ∧ (1 ∈ position_index <$> d_columns d).
Proof.
  destruct (reject_covers_names source1 description_body session
    (on_frame source1 "T"%byte description_body session).2 eq_refl) as (fields & d & Hp & _ & _ & _ & Hc).
  { apply with_state. vm_compute. reflexivity. }
  assert (match parse_row_description description_body with
          | Ok [_; f] => named_like_protected (cx_resolved (rd_ctx session)) f
          | _ => false end = true) as Hn by (vm_compute; reflexivity).
  rewrite Hp in Hn. exists fields, d. split; [exact Hp|].
  destruct fields as [|f0 [|f1 [|]]]; try discriminate Hn. split; [reflexivity|].
  apply (Hc 1 f1 eq_refl Hn).
Defined.

Definition before : Publishing := publishing_start nothing Reject 400.
Definition after_swap : Publishing := {|
  pb_ctx := (publish_swap users (pb_ctx before)).2; pb_stores := [1%Z];
  pb_history := pb_history before ++ [cx_resolved (publish_swap users (pb_ctx before)).2] |}.
Definition after_store : Publishing := {|
  pb_ctx := publish_store 1 (pb_ctx after_swap); pb_stores := [];
  pb_history := pb_history after_swap |}.
Definition cached : Described := described_new (cx_resolved (pb_ctx before)) id_ssn.

Lemma current_never_stale_witness :
  let d := current_with 1 (cx_resolved (pb_ctx after_store)) cached in
  stamped (pb_history after_store) d ∧ (1 ≤ d_generation d)%Z.
Proof.
  assert (rtc publish_step before after_store) as Hsteps.
  { apply (rtc_l _ before after_swap).
    - apply (step_swap users (pb_ctx before) [] (pb_history before) 1
        (publish_swap users (pb_ctx before)).2). reflexivity.
    - apply rtc_once.
      apply (step_store 1 (pb_ctx after_swap) [] [] (pb_history after_swap)). }
  destruct (current_never_stale nothing Reject 400 after_store after_store cached Hsteps
    (rtc_refl _ _)) as (Hs & Hg & _).
  - vm_compute. discriminate.
  - split; [vm_compute; discriminate|]. exists (cx_resolved (pb_ctx before)).
    split; [reflexivity|]. apply new_covers.
  - split; [exact Hs|exact Hg].
Defined.

End RowsExample.
