(* ===== verification/Catalog.v ===== *)
(** * Which columns are protected, and what a name resolves to
    ([crates/proxy/src/encrypt/catalog.rs], [encrypt/scope.rs])

    The catalog is keyed by the names a statement carries. A transform is the
    address of an [Arc<dyn FieldTransform>], as in [Portal]: the column at position
    [i] of the configured list owns the one at address [i]. *)

From S2P Require Import Prelude Sql Utf8 Crates Pgwire Errors Envelope Fields Transform Policy.
From S2P Require Import Portal Rows.
Import Ast.

(** ** The catalog *)

Definition Columns : Type := gmap bytes TransformPtr.
Definition ReadColumns : Type := gset bytes.

Record WriteCatalog := {
  wc_tables : gmap (bytes * bytes) Columns;
  wc_bare_names : gset bytes;
  wc_read_columns : gmap (bytes * bytes) ReadColumns;
  wc_read_bare_names : gset bytes;
  wc_on_unprotected : OnUnprotected;
}.

Definition no_columns : Columns := ∅.
Definition no_read_columns : ReadColumns := ∅.

(** One turn of the loop of [WriteCatalog::new]. *)
Definition add_column (self : WriteCatalog) (address : nat) (column : ProtectedColumn)
    : WriteCatalog :=
  let key := (pc_schema column, pc_table column) in
  let read := default ∅ (wc_read_columns self !! key) in
  let self := {|
    wc_tables := wc_tables self; wc_bare_names := wc_bare_names self;
    wc_read_columns := <[key := {[pc_column column]} ∪ read]> (wc_read_columns self);
    wc_read_bare_names := {[pc_table column]} ∪ wc_read_bare_names self;
    wc_on_unprotected := wc_on_unprotected self |} in
  match pc_transform column with
  | None => self
  | Some _ => {|
      wc_tables :=
        <[key := <[pc_column column := address]> (default ∅ (wc_tables self !! key))]>
          (wc_tables self);
      wc_bare_names := {[pc_table column]} ∪ wc_bare_names self;
      wc_read_columns := wc_read_columns self; wc_read_bare_names := wc_read_bare_names self;
      wc_on_unprotected := wc_on_unprotected self |}
  end.

Fixpoint add_columns (self : WriteCatalog) (address : nat) (columns : list ProtectedColumn)
    : WriteCatalog :=
  match columns with
  | [] => self
  | column :: columns => add_columns (add_column self address column) (S address) columns
  end.

Definition catalog_new (columns : list ProtectedColumn) (on_unprotected : OnUnprotected)
    : WriteCatalog :=
  add_columns {| wc_tables := ∅; wc_bare_names := ∅; wc_read_columns := ∅;
                 wc_read_bare_names := ∅; wc_on_unprotected := on_unprotected |} 0 columns.

Definition normalize (ident : Ident) : bytes :=
  Ident.fold_identifier (id_value ident) (bool_decide (is_Some (id_quote_style ident))).

(** The last identifier is the table, the one before it the schema. *)
Definition resolved_name (name : ObjectName) : option (bytes * bytes) :=
  match rev name with
  | [] => None
  | [table] => Some (b#"public", normalize table)
  | table :: schema :: _ => Some (normalize schema, normalize table)
  end.

Definition catalog_table (self : WriteCatalog) (name : ObjectName) : option Columns :=
  key ← resolved_name name; wc_tables self !! key.

Definition may_be_protected (self : WriteCatalog) (name : ObjectName) : bool :=
  match last name with
  | Some ident => bool_decide (normalize ident ∈ wc_bare_names self)
  | None => false
  end.

Definition protects_reads (self : WriteCatalog) (name : ObjectName) : bool :=
  match resolved_name name with
  | Some key => bool_decide (is_Some (wc_read_columns self !! key))
  | None => false
  end.

Definition read_columns_of (self : WriteCatalog) (name : ObjectName) : ReadColumns :=
  default no_read_columns (key ← resolved_name name; wc_read_columns self !! key).

Definition scoped (self : WriteCatalog) (name : ObjectName) : option (Columns * ReadColumns) :=
  key ← resolved_name name;
  read ← wc_read_columns self !! key;
  Some (default no_columns (wc_tables self !! key), read).

Definition may_protect_reads (self : WriteCatalog) (name : ObjectName) : bool :=
  match last name with
  | Some ident => bool_decide (normalize ident ∈ wc_read_bare_names self)
  | None => false
  end.

(** ** Scopes *)

Record ScopedTable := {
  sc_alias : option bytes;
  sc_name : list bytes;
  sc_columns : Columns;
  sc_read_columns : ReadColumns;
}.

Definition TableScope : Type := list ScopedTable.

Inductive ColumnResolution :=
  | One (transform : TransformPtr)
  | AmbiguousName
  | Unknown.

Definition scope_matches (self : ScopedTable) (qualifiers : list Ident) : bool :=
  match qualifiers with
  | [] => true
  | [qualifier] =>
      let qualifier := normalize qualifier in
      bool_decide (sc_alias self = Some qualifier) || bool_decide (last (sc_name self) = Some qualifier)
  | _ =>
      let want := normalize <$> qualifiers in
      bool_decide (length want ≤ length (sc_name self))
      && bool_decide (drop (length (sc_name self) - length want) (sc_name self) = want)
  end.

(** [idents.split_last()]. *)
Definition split_last {A} (l : list A) : option (A * list A) :=
  match rev l with
  | [] => None
  | x :: l => Some (x, rev l)
  end.

Definition resolve (self : TableScope) (idents : list Ident) : ColumnResolution :=
  match split_last idents with
  | None => Unknown
  | Some (column, qualifiers) =>
      let column := normalize column in
      match omap (λ table, sc_columns table !! column)
              (List.filter (λ table, scope_matches table qualifiers) self) with
      | [] => Unknown
      | [transform] => One transform
      | _ => AmbiguousName
      end
  end.

Definition transform_of (self : TableScope) (idents : list Ident) : option TransformPtr :=
  match resolve self idents with
  | One transform => Some transform
  | AmbiguousName | Unknown => None
  end.

Definition resolves_read (self : TableScope) (idents : list Ident) : bool :=
  match split_last idents with
  | None => false
  | Some (column, qualifiers) =>
      let column := normalize column in
      existsb (λ table, bool_decide (column ∈ sc_read_columns table))
        (List.filter (λ table, scope_matches table qualifiers) self)
  end.

Definition resolve_column (scope : TableScope) (expr : Expr) : ColumnResolution :=
  match expr with
  | Identifier ident => resolve scope [ident]
  | CompoundIdentifier idents => resolve scope idents
  | _ => Unknown
  end.

Definition column_ref (scope : TableScope) (expr : Expr) : option TransformPtr :=
  match resolve_column scope expr with
  | One transform => Some transform
  | AmbiguousName | Unknown => None
  end.

Definition column_idents (expr : Expr) : option (list Ident) :=
  match expr with
  | Identifier ident => Some [ident]
  | CompoundIdentifier idents => Some idents
  | _ => None
  end.

Definition column_name (expr : Expr) : option bytes :=
  match expr with
  | Identifier ident => Some (normalize ident)
  | CompoundIdentifier idents => normalize <$> last idents
  | _ => None
  end.

(** ** Operands *)

(** The expression of a function argument, if it is one. *)
Definition arg_expr {E} (argument : FunctionArg E) : option E :=
  match argument with
  | ArgNamed arg _ | ArgExprNamed arg _ | ArgUnnamed arg =>
      match arg with ArgExpr inner => Some inner | ArgWildcard _ => None end
  end.

Definition opt_list {A} (o : option A) : list A := match o with Some a => [a] | None => [] end.

(** The direct sub-expressions of [expr]; a query boundary has none. *)
Definition expr_operands (expr : Expr) : list Expr :=
  match expr with
  | BinaryOp l _ r | AnyOp l _ r _ | AllOp l _ r | IsDistinctFrom l r | IsNotDistinctFrom l r =>
      [l; r]
  | UnaryOp _ inner | Nested inner | Cast inner _ | IsNull inner | IsNotNull inner
  | IsTrue inner | IsNotTrue inner | IsFalse inner | IsNotFalse inner | Collate inner _ => [inner]
  | InList operand list_ _ => operand :: list_
  | Between operand _ low high => [operand; low; high]
  | Like operand pattern _ | ILike operand pattern _ | SimilarTo operand pattern _ =>
      [operand; pattern]
  | Tuple items => items
  | Case operand conditions results else_result =>
      opt_list operand ++ opt_list else_result ++ conditions ++ results
  | Function (ArgumentList args _) _ => omap arg_expr args
  | _ => []
  end.

Definition predicate_operands (expr : Expr) : option (Expr * Expr) :=
  match expr with
  | BinaryOp l _ r | AnyOp l _ r _ | AllOp l _ r => Some (l, r)
  | InList e _ _ | InSubquery e _ _ | Between e _ _ _ | Like e _ _ | ILike e _ _ | SimilarTo e _ _
  | IsDistinctFrom e _ | IsNotDistinctFrom e _ => Some (e, e)
  | _ => None
  end.

(** [iter().find_map(f)]. *)
Fixpoint find_map {A B} (f : A → option B) (l : list A) : option B :=
  match l with
  | [] => None
  | x :: l => match f x with Some b => Some b | None => find_map f l end
  end.

Fixpoint ambiguous_column (scope : TableScope) (operand : Expr) : option bytes :=
  match operand with
  | Tuple items => find_map (ambiguous_column scope) items
  | _ =>
      match resolve_column scope operand with
      | AmbiguousName => column_name operand
      | One _ | Unknown => None
      end
  end.

Definition ambiguous_operand (scope : TableScope) (expr : Expr) : option bytes :=
  '(l, r) ← predicate_operands expr; find_map (ambiguous_column scope) [l; r].

Section protected.
(** [supports_search] of what an address points to. *)
Context (supports_search_at : TransformPtr → bool).

Fixpoint protected_column (scope : TableScope) (operand : Expr) : option (bytes * bool) :=
  match operand with
  | Tuple items => find_map (protected_column scope) items
  | _ =>
      transform ← column_ref scope operand;
      name ← column_name operand;
      Some (name, supports_search_at transform)
  end.

Definition protected_operand (scope : TableScope) (expr : Expr) : option (bytes * bool) :=
  '(l, r) ← predicate_operands expr; find_map (protected_column scope) [l; r].

End protected.

Definition expr_shape (expr : Expr) : bytes :=
  match expr with
  | Identifier _ | CompoundIdentifier _ => b#"column reference"
  | EValue _ => b#"literal"
  | Function _ _ => b#"function call"
  | Cast _ _ => b#"cast"
  | BinaryOp _ _ _ => b#"binary operator"
  | UnaryOp _ _ => b#"unary operator"
  | Case _ _ _ _ => b#"CASE"
  | Subquery _ => b#"subquery"
  | InSubquery _ _ _ => b#"IN subquery"
  | InList _ _ _ => b#"IN list"
  | AnyOp _ _ _ _ => b#"= ANY"
  | AllOp _ _ _ => b#"= ALL"
  | Like _ _ _ | ILike _ _ _ | SimilarTo _ _ _ => b#"pattern match"
  | Between _ _ _ _ => b#"BETWEEN"
  | IsNull _ | IsNotNull _ => b#"IS NULL"
  | IsDistinctFrom _ _ | IsNotDistinctFrom _ _ => b#"IS DISTINCT FROM"
  | EArray _ _ => b#"array"
  | TypedString _ => b#"typed literal"
  | Nested _ => b#"parenthesized expression"
  | _ => b#"unsupported expression"
  end.

(** ** Projections *)

Definition read_column_ref (scope : TableScope) (expr : Expr) : bool :=
  match expr with
  | Identifier ident => resolves_read scope [ident]
  | CompoundIdentifier idents => resolves_read scope idents
  | _ => false
  end.

(** [a.or_else(|| b)]. *)
Definition or_else {A} (a b : option A) : option A := match a with Some x => Some x | None => b end.

(** [read_protected_reference]: the first read-protected column among an expression
    and its operands ([expr_operands]), depth first. *)
Fixpoint read_protected_reference (scope : TableScope) (expr : Expr) : option bytes :=
  let go := read_protected_reference scope in
  if read_column_ref scope expr then column_name expr
  else
    match expr with
    | BinaryOp l _ r | AnyOp l _ r _ | AllOp l _ r | IsDistinctFrom l r | IsNotDistinctFrom l r =>
        or_else (go l) (go r)
    | UnaryOp _ inner | Nested inner | Cast inner _ | IsNull inner | IsNotNull inner
    | IsTrue inner | IsNotTrue inner | IsFalse inner | IsNotFalse inner | Collate inner _ =>
        go inner
    | InList operand list_ _ => or_else (go operand) (find_map go list_)
    | Between operand _ low high => or_else (go operand) (or_else (go low) (go high))
    | Like operand pattern _ | ILike operand pattern _ | SimilarTo operand pattern _ =>
        or_else (go operand) (go pattern)
    | Tuple items => find_map go items
    | Case operand conditions results else_result =>
        or_else (match operand with Some e => go e | None => None end)
          (or_else (match else_result with Some e => go e | None => None end)
             (or_else (find_map go conditions) (find_map go results)))
    | Function (ArgumentList args _) _ =>
        find_map (λ argument, match argument with
                              | ArgNamed (ArgExpr e) _ | ArgExprNamed (ArgExpr e) _
                              | ArgUnnamed (ArgExpr e) => go e
                              | _ => None
                              end) args
    | _ => None
    end.

(** A projection item that computes over a read-protected column. *)
Definition computed_protected_column (scope : TableScope) (item : SelectItem Expr)
    : option (bytes * Expr) :=
  match item with
  | UnnamedExpr e | ExprWithAlias e _ =>
      if read_column_ref scope e then None
      else (λ column, (column, e)) <$> read_protected_reference scope e
  | QualifiedWildcard _ _ | Wildcard _ => None
  end.
