(* ===== verification/Rewrite.v ===== *)
(** * Rewriting one statement
    ([crates/proxy/src/encrypt/seal.rs], [predicate.rs], [query.rs],
    [statement.rs], with the helpers of [mod.rs])

    A method of [QueryRewriter] that rewrites takes a node by [&mut] and answers
    whether it changed it; here it returns the node as it leaves it, and whether it
    changed. What it reads of [self] (the catalog, the resolution, the session's two
    flags) are parameters. The walk over queries is fuelled by the depth of query
    nesting; [WalkSpec] shows the fuel chosen is always enough. *)

From S2P Require Import Prelude Sql Utf8 IntText Crates Pgwire Errors Envelope RowKeys Fields.
From S2P Require Import Transform Policy ArrayCodec Portal Rows Unprotected Catalog.
Import Ast.

(** ** State and outcomes *)

Inductive Rejection := Fatal (error : Proxy.Error) | Refused (message : bytes).

(** The parameters recorded so far, the caches behind the transforms, how many
    values were sealed, and the sites that were warned about. *)
Record RState := {
  rw_params : ParamTransforms;
  rw_caches : PState;
  rw_drawn : nat;
  rw_log : list Unprotected;
}.

Abbreviation W := (M RState Rejection).

Definition with_params (p : ParamTransforms) (s : RState) : RState := {|
  rw_params := p; rw_caches := rw_caches s; rw_drawn := rw_drawn s; rw_log := rw_log s |}.
Definition with_caches (c : PState) (s : RState) : RState := {|
  rw_params := rw_params s; rw_caches := c; rw_drawn := rw_drawn s; rw_log := rw_log s |}.
Definition bump_drawn (s : RState) : RState := {|
  rw_params := rw_params s; rw_caches := rw_caches s; rw_drawn := S (rw_drawn s);
  rw_log := rw_log s |}.
Definition warn (site : Unprotected) (s : RState) : RState := {|
  rw_params := rw_params s; rw_caches := rw_caches s; rw_drawn := rw_drawn s;
  rw_log := rw_log s ++ [site] |}.

Record SealedValues := { sv_changed : bool; sv_columns : gset bytes }.
Definition sealed_none : SealedValues := {| sv_changed := false; sv_columns := ∅ |}.

Inductive AssignmentRow :=
  | Known (source : RowKeySource)
  | Missing (table column shape : bytes)
  | Reassigned (table column : bytes).

Record AssignmentScope := {
  asc_row : AssignmentRow;
  asc_columns : Columns;
  asc_sealed : SealedValues;
}.

Definition assignment_scope_of (columns : Columns) (row : AssignmentRow) : AssignmentScope :=
  {| asc_row := row; asc_columns := columns; asc_sealed := sealed_none |}.

(** ** Literals *)

(** [strip_prefix('$')], [parse::<usize>()], [checked_sub(1)]. *)
Definition placeholder_index (placeholder : bytes) : option nat :=
  n ← strip_prefix b#"$" placeholder;
  n ← parse_usize n;
  match n with O => None | S n => Some n end.

Fixpoint unwrap_casts (expr : Expr) : Expr :=
  match expr with
  | Cast e _ | Nested e => unwrap_casts e
  | other => other
  end.

(** [Expr::Value(Value::Placeholder(_))] under the casts. *)
Definition as_placeholder (expr : Expr) : option bytes :=
  match unwrap_casts expr with
  | EValue (Placeholder p) => Some p
  | _ => None
  end.

Section literals.
Context `{HexCrate}.

Definition text_plaintext (text : bytes) (wire : WireForm) : bytes :=
  match wire with
  | Bytea => default text (h ← strip_prefix b#"\x" text; hex_decode h)
  | WText => text
  end.

Definition literal_plaintext (expr : Expr) (wire : WireForm) : option bytes :=
  match unwrap_casts expr with
  | EValue (SingleQuotedString s) | EValue (EscapedStringLiteral s)
  | EValue (UnicodeStringLiteral s) | EValue (NationalStringLiteral s)
  | EValue (DollarQuotedString s _) => Some (text_plaintext s wire)
  | EValue (Number n _) => Some n
  | UnaryOp UnMinus e =>
      match unwrap_casts e with EValue (Number n _) => Some ("-"%byte :: n) | _ => None end
  | UnaryOp UnPlus e =>
      match unwrap_casts e with EValue (Number n _) => Some n | _ => None end
  | _ => None
  end.

(** [E'\\x…']. *)
Definition bytea_literal (value : bytes) : Expr :=
  EValue (EscapedStringLiteral (b#"\x" ++ hex_encode value)).

(** [substring(col from 1 for 32)]. *)
Definition index_prefix (column : Expr) : Expr :=
  Substring column (Some (EValue (Number b#"1" false)))
    (Some (EValue (Number (usize_to_string BlindIndex.BLIND_INDEX_LEN) false))) false.

End literals.

(** ** Rebuilding *)

(** Visits every element in order; whether any changed. *)
Definition each {A} (f : A → W (A * bool)) : list A → W (list A * bool) :=
  fix go l :=
    match l with
    | [] => mret ([], false)
    | x :: l =>
        '(x, c) ← f x;
        '(l, d) ← go l;
        mret (x :: l, c || d)
    end.

Definition each_opt {A} (f : A → W (A * bool)) (o : option A) : W (option A * bool) :=
  match o with
  | None => mret (None, false)
  | Some x => '(x, c) ← f x; mret (Some x, c)
  end.

Definition walk1 {A B} (f : A → W (A * bool)) (x : A) (k : A → B) : W (B * bool) :=
  '(x, c) ← f x; mret (k x, c).
Definition walk2 {A B} (f : A → W (A * bool)) (x y : A) (k : A → A → B) : W (B * bool) :=
  '(x, c) ← f x; '(y, d) ← f y; mret (k x y, c || d).

(** A check of every element. *)
Definition for_each {A} (f : A → W ()) : list A → W () :=
  fix go l := match l with [] => mret tt | x :: l => _ ← f x; go l end.

(** ** How deep queries nest

    The fuel of the walk: one more than the deepest query below. *)

Definition opt_max {A} (f : A → nat) (o : option A) : nat :=
  match o with Some a => f a | None => 0 end.

Definition arg_depth {E} (f : E → nat) (argument : FunctionArg E) : nat :=
  match argument with
  | ArgNamed (ArgExpr e) _ | ArgExprNamed (ArgExpr e) _ | ArgUnnamed (ArgExpr e) => f e
  | _ => 0
  end.

Definition args_depth {E} (f : E → nat) (args : FunctionArguments E) : nat :=
  match args with
  | ArgumentList args _ => max_list_with (arg_depth f) args
  | ArgumentOther _ => 0
  end.

Definition item_depth {E} (f : E → nat) (item : SelectItem E) : nat :=
  match item with UnnamedExpr e | ExprWithAlias e _ => f e | _ => 0 end.

Definition group_depth {E} (f : E → nat) (g : GroupByExpr E) : nat :=
  match g with GroupByExpressions es _ => max_list_with f es | GroupByAll _ => 0 end.

Definition operator_depth {E} (f : E → nat) (op : JoinOperator E) : nat :=
  match op with Constrained _ (On e) => f e | _ => 0 end.

Definition on_depth {E} (f : E → nat) (on : OnInsert E) : nat :=
  match on with
  | DuplicateKeyUpdate assignments => max_list_with (λ a, f (as_value a)) assignments
  | OnConflictDoUpdate _ assignments selection =>
      max_list_with (λ a, f (as_value a)) assignments `max` opt_max f selection
  | _ => 0
  end.

Fixpoint expr_depth (e : Expr) : nat :=
  match e with
  | Identifier _ | CompoundIdentifier _ | EValue _ | TypedString _ | ExprOther _ => 0
  | Cast e _ | Nested e | Collate e _ | UnaryOp _ e | IsNull e | IsNotNull e | IsTrue e
  | IsNotTrue e | IsFalse e | IsNotFalse e => expr_depth e
  | BinaryOp l _ r | AnyOp l _ r _ | AllOp l _ r | IsDistinctFrom l r | IsNotDistinctFrom l r
  | Like l r _ | ILike l r _ | SimilarTo l r _ => expr_depth l `max` expr_depth r
  | Between e _ low high => expr_depth e `max` (expr_depth low `max` expr_depth high)
  | InList e l _ => expr_depth e `max` max_list_with expr_depth l
  | Tuple l | EArray l _ => max_list_with expr_depth l
  | Case operand conditions results else_result =>
      opt_max expr_depth operand `max` (opt_max expr_depth else_result
        `max` (max_list_with expr_depth conditions `max` max_list_with expr_depth results))
  | Function args _ => args_depth expr_depth args
  | Substring e from for_ _ =>
      expr_depth e `max` (opt_max expr_depth from `max` opt_max expr_depth for_)
  | Subquery q | Exists q _ => query_depth q
  | InSubquery e q _ => expr_depth e `max` query_depth q
  end
with query_depth (q : Query) : nat :=
  match q with
  | MkQuery with_ body order_by _ =>
      S (opt_max (λ w, match w with (ctes, _) => max_list_with (λ c, query_depth (cte_query c)) ctes end)
           with_
         `max` (body_depth body
         `max` opt_max (λ o, match o with
                             | (keys, _) => max_list_with (λ k, expr_depth (ob_expr k)) keys
                             end) order_by))
  end
with body_depth (b : SetExpr) : nat :=
  match b with
  | BodySelect s => select_depth s
  | BodyQuery q => query_depth q
  | SetOperation l r _ => body_depth l `max` body_depth r
  | BodyInsert s | BodyUpdate s => statement_depth s
  | BodyValues rows _ => max_list_with (max_list_with expr_depth) rows
  | BodyTable _ _ => 0
  end
with select_depth (s : Select) : nat :=
  match s with
  | MkSelect projection from selection having group_by _ =>
      max_list_with (item_depth expr_depth) projection
      `max` (max_list_with twj_depth from
      `max` (opt_max expr_depth selection
      `max` (opt_max expr_depth having `max` group_depth expr_depth group_by)))
  end
with twj_depth (t : TableWithJoins) : nat :=
  match t with
  | MkTable relation joins =>
      factor_depth relation
      `max` max_list_with (λ j, factor_depth (jo_relation j)
                                `max` operator_depth expr_depth (jo_operator j)) joins
  end
with factor_depth (f : TableFactor) : nat :=
  match f with
  | Derived q _ _ => query_depth q
  | NestedJoin t _ => twj_depth t
  | Pivot f _ | Unpivot f _ | MatchRecognize f _ => factor_depth f
  | Table _ _ _ | FactorOther _ => 0
  end
with statement_depth (s : Statement) : nat :=
  match s with
  | Insert i => opt_max query_depth (in_source i) `max` opt_max (on_depth expr_depth) (in_on i)
  | Update u =>
      twj_depth (up_table u)
      `max` (max_list_with (λ a, expr_depth (as_value a)) (up_assignments u)
      `max` (opt_max twj_depth (up_from u) `max` opt_max expr_depth (up_selection u)))
  | QueryStatement q => query_depth q
  | Delete d =>
      match de_from d with WithFromKeyword l | WithoutKeyword l => max_list_with twj_depth l end
      `max` (opt_max (max_list_with twj_depth) (de_using d) `max` opt_max expr_depth (de_selection d))
  | Copy (CopyQuery q) _ _ => query_depth q
  | Copy (CopyTable _ _) _ _ => 0
  | Merge f _ => factor_depth f
  | Prepare s _ => statement_depth s
  | StatementOther _ => 0
  end.

Section rewrite.
Context `{HexCrate, AeadCrate, HmacCrate, Ff1Crate, Lowercase, SqlParserCrate}.

(** [self.catalog], [self.rows], [self.search_path_trusted], [self.escape_strings]. *)
Context (catalog : WriteCatalog) (rows : option RowContext) (trusted escapes : bool).

(** What an address points to, the key source, and the nonce of the n-th sealing. *)
Context (deref : TransformPtr → bytes * DynTransform) (ks : KeySource) (nonce : nat → bytes).

Definition at_ (ptr : TransformPtr) : DynTransform := (deref ptr).2.

(** ** The decision point *)

Definition unprotected (site : Unprotected) : W () :=
  match wc_on_unprotected catalog with
  | Warn => modify (warn site)
  | Reject => lift (Err (Refused (message site)))
  end.

Definition literal_agrees_with_server (expr : Expr) : bool :=
  if negb escapes then true
  else match unwrap_casts expr with
       | EValue (SingleQuotedString text) => negb (bool_decide (x5c ∈ text))
       | _ => true
       end.

(** [self.search_path_trusted || name.0.len() > 1]. *)
Definition resolvable (name : ObjectName) : bool := trusted || bool_decide (1 < length name).

Definition table (name : ObjectName) : W (option Columns) :=
  if resolvable name then mret (catalog_table catalog name)
  else
    _ ← (if may_be_protected catalog name then unprotected (SearchPathSite name) else mret tt);
    mret None.

Definition reads_protected (name : ObjectName) : W bool :=
  if resolvable name then mret (protects_reads catalog name)
  else
    _ ← (if may_protect_reads catalog name then unprotected (SearchPathSite name) else mret tt);
    mret false.

Definition scoped_table (name : ObjectName) : W (option (Columns * ReadColumns)) :=
  if resolvable name then mret (scoped catalog name)
  else
    _ ← (if may_protect_reads catalog name then unprotected (SearchPathSite name) else mret tt);
    mret None.

Definition record_param (index : nat) (action : ParamAction) : W () :=
  λ s,
    match record index action (rw_params s) with
    | (Ok _, params) => (Ok tt, with_params params s)
    | (Err (Proxy.ConflictingParameter placeholder), params) =>
        (Err (Refused (conflicting_message placeholder)), with_params params s)
    | (Err other, params) => (Err (Fatal other), with_params params s)
    end.

Definition on_rw_caches {A} (m : M PState Core.Error A) : W A :=
  λ s, let '(r, c) := m (rw_caches s) in
       (map_err (λ e, Fatal (Proxy.Wire e)) r, with_caches c s).

(** [transform.seal(plaintext, row)] and [transform.search_index(plaintext)]. *)
Definition seal_with (ptr : TransformPtr) (plaintext : bytes) (row : option RowKey) : W bytes :=
  λ s, let '(name, t) := deref ptr in
       on_rw_caches (on_transform name (seal t ks (nonce (rw_drawn s)) plaintext row)) (bump_drawn s).

Definition search_index_with (ptr : TransformPtr) (plaintext : bytes) : W (option bytes) :=
  let '(name, t) := deref ptr in on_rw_caches (on_transform name (search_index t ks plaintext)).

(** ** Row keys ([seal.rs]) *)

Definition named (wanted : bytes) (name : ObjectName) : bool :=
  match last name with Some ident => bool_decide (normalize ident = wanted) | None => false end.

Definition assigns_column (assignments : list (Assignment Expr)) (wanted : bytes) : bool :=
  existsb (λ a, match as_target a with
                | ColumnName name => named wanted name
                | TupleTarget names => existsb (named wanted) names
                end) assignments.

Definition names_row_key (expr : Expr) (wanted : bytes) (target : ScopedTable) (joined : bool)
    : bool :=
  match expr with
  | Identifier ident => negb joined && bool_decide (normalize ident = wanted)
  | CompoundIdentifier idents =>
      match split_last idents with
      | Some (column, qualifiers) =>
          bool_decide (normalize column = wanted) && scope_matches target qualifiers
      | None => false
      end
  | _ => false
  end.

Definition row_key_spec (schema table : bytes) : option ResolvedRowKey :=
  rows ← rows;
  rs_row_key_by_table (cx_resolved rows) !! (to_lowercase schema, to_lowercase table).

Definition row_key_source (expr : Expr) (spec : ResolvedRowKey) : option RowKeySource :=
  match as_placeholder expr with
  | Some placeholder =>
      (λ index, SourceParam index (rk_type_oid spec) (rk_name spec)) <$> placeholder_index placeholder
  | None =>
      text ← literal_plaintext (unwrap_casts expr) WText;
      match canonical (rk_type_oid spec) FText (Some text) with
      | Ok key => Some (SourceLiteral key)
      | Err _ => None
      end
  end.

Fixpoint row_key_in_predicate (spec : ResolvedRowKey) (target : ScopedTable) (joined : bool)
    (expr : Expr) : option RowKeySource :=
  match expr with
  | BinaryOp l BinAnd r =>
      or_else (row_key_in_predicate spec target joined l) (row_key_in_predicate spec target joined r)
  | Nested inner => row_key_in_predicate spec target joined inner
  | BinaryOp l BinEq r =>
      if names_row_key l (rk_name spec) target joined then row_key_source r spec
      else if names_row_key r (rk_name spec) target joined then row_key_source l spec
      else None
  | _ => None
  end.

(** [format!("{schema}.{table}")]. *)
Definition qualified (schema table : bytes) : bytes := schema ++ b#"." ++ table.

Definition update_row (update : UpdateOf TableWithJoins Expr) (columns : Columns) : AssignmentRow :=
  let '(MkTable relation joins) := up_table update in
  match relation with
  | Table name alias _ =>
      match resolved_name name with
      | None => Known SourceNone
      | Some (schema, table_name) =>
          match row_key_spec schema table_name with
          | None => Known SourceNone
          | Some spec =>
              if assigns_column (up_assignments update) (rk_name spec)
              then Reassigned (qualified schema table_name) (rk_name spec)
              else
                let scoped := {|
                  sc_alias := (λ alias, normalize (ta_name alias)) <$> alias;
                  sc_name := normalize <$> name;
                  sc_columns := columns;
                  sc_read_columns := read_columns_of catalog name |} in
                let joined := bool_decide (is_Some (up_from update)) || negb (bool_decide (joins = [])) in
                match where_ ← up_selection update; row_key_in_predicate spec scoped joined where_ with
                | Some source => Known source
                | None => Missing (qualified schema table_name) (rk_name spec)
                            b#"UPDATE whose WHERE does not pin one row by its row key"
                end
          end
      end
  | _ => Known SourceNone
  end.

Definition names_column (wanted : bytes) (ident : Ident) : bool := bool_decide (normalize ident = wanted).

Definition conflict_row (insert : InsertOf Query Expr) (conflict_target : option ConflictTarget)
    (assignments : list (Assignment Expr)) : AssignmentRow :=
  match resolved_name (in_table_name insert) with
  | None => Known SourceNone
  | Some (schema, table_name) =>
      match row_key_spec schema table_name with
      | None => Known SourceNone
      | Some spec =>
          let wanted := rk_name spec in
          let missing := Missing (qualified schema table_name) wanted in
          if assigns_column assignments wanted
          then Reassigned (qualified schema table_name) wanted
          else if negb match conflict_target with
                       | Some (ConflictColumns columns) => existsb (names_column wanted) columns
                       | _ => false
                       end
          then missing b#"conflict action whose ON CONFLICT target is not the row key"
          else
            match position (names_column wanted) (in_columns insert) with
            | None => missing b#"conflict action of an INSERT without the row key in its column list"
            | Some pos =>
                match in_source insert with
                | None => missing b#"conflict action of an INSERT with no VALUES list"
                | Some (MkQuery _ (BodyValues [row] _) _ _) =>
                    match e ← row !! pos; row_key_source e spec with
                    | Some source => Known source
                    | None => missing b#"conflict action whose row key is not a literal or a parameter"
                    end
                | Some (MkQuery _ (BodyValues _ _) _ _) =>
                    missing b#"conflict action of a multi-row INSERT"
                | Some _ => missing b#"conflict action of an INSERT ... SELECT"
                end
            end
      end
  end.

Definition row_key_missing (table column shape : bytes) : W () :=
  unprotected (RowKeyMissing table column shape).

Definition row_of (row : AssignmentRow) : W RowKeySource :=
  match row with
  | Known source => mret source
  | Missing table column shape => _ ← row_key_missing table column shape; mret SourceNone
  | Reassigned table column => _ ← unprotected (RowKeyReassigned table column); mret SourceNone
  end.

(** ** Sealing ([seal.rs]) *)

(** Seals one literal in place, or records the placeholder. *)
Definition seal_expr (ptr : TransformPtr) (column : bytes) (row : RowKeySource) (expr : Expr)
    : W (Expr * bool) :=
  match unwrap_casts expr with
  | EValue (Placeholder placeholder) =>
      _ ← match placeholder_index placeholder with
          | Some index => record_param index (Seal ptr row)
          | None => mret tt
          end;
      mret (expr, false)
  | EValue Null => mret (expr, false)
  | _ =>
      if negb (literal_agrees_with_server expr) then
        _ ← unprotected (AmbiguousLiteral column); mret (expr, false)
      else
        match literal_plaintext expr (wire (at_ ptr)) with
        | None => _ ← unprotected (UnsupportedValue column (expr_shape expr)); mret (expr, false)
        | Some plaintext =>
            match row with
            | SourceParam _ _ _ =>
                _ ← unprotected (UnsupportedValue column
                      b#"literal in a row whose key is a bound parameter");
                mret (expr, false)
            | SourceLiteral _ | SourceNone =>
                let key := match row with SourceLiteral key => Some key | _ => None end in
                sealed ← seal_with ptr plaintext key;
                mret (match wire (at_ ptr) with
                      | Bytea => bytea_literal sealed
                      | WText => EValue (SingleQuotedString (from_utf8_lossy sealed))
                      end, true)
            end
        end
  end.

(** The protected columns of a column list, with their positions. *)
Definition protected_columns (columns : Columns) (idents : list Ident)
    : list (nat * Ident * TransformPtr) :=
  omap (λ '(pos, ident), (λ ptr, (pos, ident, ptr)) <$> columns !! normalize ident)
    (imap pair idents).

Fixpoint seal_row (row_source : RowKeySource) (protected : list (nat * Ident * TransformPtr))
    (row : list Expr) : W (list Expr * bool) :=
  match protected with
  | [] => mret (row, false)
  | (pos, ident, ptr) :: protected =>
      match row !! pos with
      | Some expr =>
          '(expr, c) ← seal_expr ptr (id_value ident) row_source expr;
          '(row, d) ← seal_row row_source protected (<[pos := expr]> row);
          mret (row, c || d)
      | None => seal_row row_source protected row
      end
  end.

(** Which row each VALUES row is, reported once per statement when it cannot be
    said, and sealing its protected values. *)
Fixpoint seal_rows (qualified : bytes) (key : option (ResolvedRowKey * nat)) (reported : bool)
    (protected : list (nat * Ident * TransformPtr)) (rows : list (list Expr))
    : W (list (list Expr) * bool) :=
  match rows with
  | [] => mret ([], false)
  | row :: rows =>
      '(row_source, reported) ←
        match key with
        | Some (spec, pos) =>
            match e ← row !! pos; row_key_source e spec with
            | Some source => mret (source, reported)
            | None =>
                _ ← (if reported then mret tt
                     else row_key_missing qualified (rk_name spec)
                            b#"INSERT whose row key is not a literal or a parameter");
                mret (SourceNone, true)
            end
        | None => mret (SourceNone, reported)
        end;
      '(row, c) ← seal_row row_source protected row;
      '(rows, d) ← seal_rows qualified key reported protected rows;
      mret (row :: rows, c || d)
  end.

Definition set_source (q : Query) (insert : InsertOf Query Expr) : InsertOf Query Expr := {|
  in_table_name := in_table_name insert; in_table_alias := in_table_alias insert;
  in_columns := in_columns insert; in_source := Some q; in_on := in_on insert;
  in_rest := in_rest insert |}.

Definition rewrite_insert_values (insert : InsertOf Query Expr) (columns : Columns)
    : W (InsertOf Query Expr * SealedValues) :=
  let protected := protected_columns columns (in_columns insert) in
  if bool_decide (protected = []) then mret (insert, sealed_none)
  else
    match in_source insert with
    | None => mret (insert, sealed_none)
    | Some (MkQuery with_ (BodyValues rows rest) order_by qrest) =>
        match resolved_name (in_table_name insert) with
        | None => mret (insert, sealed_none)
        | Some (schema, table_name) =>
            let spec := row_key_spec schema table_name in
            let key :=
              spec ← spec;
              pos ← position (names_column (rk_name spec)) (in_columns insert);
              Some (spec, pos) in
            _ ← match spec, key with
                | Some spec, None =>
                    row_key_missing (qualified schema table_name) (rk_name spec)
                      b#"INSERT without the row key in its column list"
                | _, _ => mret tt
                end;
            '(rows, changed) ← seal_rows (qualified schema table_name) key false protected rows;
            mret (set_source (MkQuery with_ (BodyValues rows rest) order_by qrest) insert,
                  {| sv_changed := changed;
                     sv_columns := list_to_set ((λ '(_, ident, _), normalize ident) <$> protected) |})
        end
    | Some _ =>
        _ ← unprotected (InsertFromSelect (in_table_name insert));
        mret (insert, sealed_none)
    end.

(** [EXCLUDED.<column>] of a column the VALUES list sealed. *)
Definition re_stores_a_sealed_value (self : AssignmentScope) (value : Expr) (column : bytes) : bool :=
  match value with
  | CompoundIdentifier [qualifier; referenced] =>
      bool_decide (normalize qualifier = b#"excluded")
      && bool_decide (normalize referenced = column)
      && bool_decide (column ∈ sv_columns (asc_sealed self))
  | _ => false
  end.

(** One report per protected column of the target. *)
Definition signal (site : bytes → Unprotected) (protected : list (nat * Ident * TransformPtr))
    : W () :=
  for_each (λ '(_, ident, _), unprotected (site (id_value ident))) protected.

Fixpoint seal_elements (target : AssignmentScope) (protected : list (nat * Ident * TransformPtr))
    (elements : list Expr) : W (list Expr * bool) :=
  match protected with
  | [] => mret (elements, false)
  | (pos, ident, ptr) :: protected =>
      row ← row_of (asc_row target);
      match elements !! pos with
      | Some value =>
          if re_stores_a_sealed_value target value (normalize ident)
          then seal_elements target protected elements
          else
            '(value, c) ← seal_expr ptr (id_value ident) row value;
            '(elements, d) ← seal_elements target protected (<[pos := value]> elements);
            mret (elements, c || d)
      | None => seal_elements target protected elements
      end
  end.

(** The protected names of a row-wise target: the last identifier of each. *)
Definition protected_names (columns : Columns) (names : list ObjectName)
    : list (nat * Ident * TransformPtr) :=
  omap (λ '(pos, name),
    ident ← last name; ptr ← columns !! normalize ident; Some (pos, ident, ptr))
    (imap pair names).

Definition seal_tuple_assignment (names : list ObjectName) (target : AssignmentScope) (value : Expr)
    : W (Expr * bool) :=
  let protected := protected_names (asc_columns target) names in
  if bool_decide (protected = []) then mret (value, false)
  else
    match value with
    | Tuple exprs =>
        if bool_decide (length exprs = length names) then
          '(exprs, c) ← seal_elements target protected exprs; mret (Tuple exprs, c)
        else
          _ ← signal (λ column, UnsupportedValue column
                b#"row-wise assignment whose value list does not match the column list") protected;
          mret (value, false)
    | Nested inner =>
        if bool_decide (1 = length names) then
          '(exprs, c) ← seal_elements target protected [inner];
          mret (Nested (default inner (exprs !! 0)), c)
        else
          _ ← signal (λ column, UnsupportedValue column
                b#"row-wise assignment whose value list does not match the column list") protected;
          mret (value, false)
    | other =>
        _ ← signal (λ column, UnsupportedValue column (expr_shape other)) protected;
        mret (value, false)
    end.

Definition seal_assignment (target : AssignmentScope) (assignment : Assignment Expr)
    : W (Assignment Expr * bool) :=
  let unchanged := mret (assignment, false) in
  match as_target assignment with
  | ColumnName column =>
      match last column with
      | None => unchanged
      | Some ident =>
          match asc_columns target !! normalize ident with
          | None => unchanged
          | Some ptr =>
              row ← row_of (asc_row target);
              if re_stores_a_sealed_value target (as_value assignment) (normalize ident)
              then unchanged
              else
                '(value, c) ← seal_expr ptr (id_value ident) row (as_value assignment);
                mret ({| as_target := as_target assignment; as_value := value |}, c)
          end
      end
  | TupleTarget names =>
      '(value, c) ← seal_tuple_assignment names target (as_value assignment);
      mret ({| as_target := as_target assignment; as_value := value |}, c)
  end.

Definition seal_assignments (target : AssignmentScope)
    : list (Assignment Expr) → W (list (Assignment Expr) * bool) :=
  each (seal_assignment target).

(** ** Predicates ([predicate.rs]) *)

Definition searchable_at (ptr : TransformPtr) : bool := supports_search (at_ ptr).

Definition column_name_or_empty (column : Expr) : bytes := default [] (column_name column).

Definition malformed {A} : W A := lift (Err (Fatal (Proxy.Wire Core.Malformed))).

(** Replaces one compared value with its blind index, or records the placeholder. *)
Definition index_value (ptr : TransformPtr) (value : Expr) : W Expr :=
  match as_placeholder value with
  | Some placeholder =>
      match placeholder_index placeholder with
      | None => malformed
      | Some index => _ ← record_param index (SearchIndex ptr); mret value
      end
  | None =>
      match literal_plaintext value (wire (at_ ptr)) with
      | None => malformed
      | Some plaintext =>
          token ← search_index_with ptr plaintext;
          match token with
          | None => malformed
          | Some token => mret (bytea_literal token)
          end
      end
  end.

Definition indexable (ptr : TransformPtr) (value : Expr) : bool :=
  match as_placeholder value with
  | Some placeholder => bool_decide (is_Some (placeholder_index placeholder))
  | None => bool_decide (is_Some (literal_plaintext (unwrap_casts value) (wire (at_ ptr))))
  end.

Definition predicate_site (searchable : bool) (column shape : bytes) : Unprotected :=
  if searchable then Predicate column shape else UnindexedPredicate column shape.

(** [col = <value>]: the column and the value as they are left, and whether they
    changed. *)
Definition rewrite_equality (ptr : TransformPtr) (column value : Expr) : W (Expr * Expr * bool) :=
  let name := column_name_or_empty column in
  if negb (searchable_at ptr) then
    _ ← unprotected (UnindexedPredicate name (expr_shape value)); mret (column, value, false)
  else if negb (literal_agrees_with_server value) then
    _ ← unprotected (AmbiguousLiteral name); mret (column, value, false)
  else if negb (indexable ptr value) then
    _ ← unprotected (Predicate name (expr_shape value)); mret (column, value, false)
  else
    value ← index_value ptr value;
    mret (index_prefix column, value, true).

Definition index_values (ptr : TransformPtr) : list Expr → W (list Expr) :=
  fix go l :=
    match l with
    | [] => mret []
    | value :: l => value ← index_value ptr value; l ← go l; mret (value :: l)
    end.

Definition rewrite_in_list (scope : TableScope) (column : Expr) (list_ : list Expr)
    : W (Expr * list Expr * bool) :=
  let unchanged := mret (column, list_, false) in
  match column_ref scope column with
  | None =>
      match ambiguous_column scope column with
      | Some name => _ ← unprotected (AmbiguousColumn name b#"IN list"); unchanged
      | None =>
          match protected_column searchable_at scope column with
          | Some (name, searchable) =>
              _ ← unprotected (predicate_site searchable name b#"row-wise IN list"); unchanged
          | None => unchanged
          end
      end
  | Some ptr =>
      let name := column_name_or_empty column in
      if negb (searchable_at ptr) then
        _ ← unprotected (UnindexedPredicate name b#"IN list"); unchanged
      else if negb (forallb literal_agrees_with_server list_) then
        _ ← unprotected (AmbiguousLiteral name); unchanged
      else if bool_decide (list_ = []) || negb (forallb (indexable ptr) list_) then
        _ ← unprotected (Predicate name b#"IN list"); unchanged
      else
        list_ ← index_values ptr list_;
        mret (index_prefix column, list_, true)
  end.

Definition unsupported_predicate (scope : TableScope) (expr : Expr) : W () :=
  let shape := expr_shape expr in
  match ambiguous_operand scope expr with
  | Some column => unprotected (AmbiguousColumn column shape)
  | None =>
      match protected_operand searchable_at scope expr with
      | None => mret tt
      | Some (column, searchable) => unprotected (predicate_site searchable column shape)
      end
  end.

(** [array::array_parameter]. *)
Definition array_parameter (scope : TableScope) (column array : Expr) : option (nat * TransformPtr) :=
  ptr ← column_ref scope column;
  if searchable_at ptr then
    placeholder ← as_placeholder array;
    index ← placeholder_index placeholder;
    Some (index, ptr)
  else None.

Fixpoint rewrite_selection (scope : TableScope) (expr : Expr) : W (Expr * bool) :=
  let unsupported := (_ ← unsupported_predicate scope expr; mret (expr, false)) in
  match expr with
  | BinaryOp l BinEq r =>
      match column_ref scope l with
      | Some ptr =>
          '(l, r, c) ← rewrite_equality ptr l r; mret (BinaryOp l BinEq r, c)
      | None =>
          match column_ref scope r with
          | Some ptr => '(r, l, c) ← rewrite_equality ptr r l; mret (BinaryOp l BinEq r, c)
          | None => unsupported
          end
      end
  | BinaryOp l BinAnd r => walk2 (rewrite_selection scope) l r (λ l r, BinaryOp l BinAnd r)
  | BinaryOp l BinOr r => walk2 (rewrite_selection scope) l r (λ l r, BinaryOp l BinOr r)
  | Nested inner => walk1 (rewrite_selection scope) inner Nested
  | UnaryOp UnNot inner => walk1 (rewrite_selection scope) inner (UnaryOp UnNot)
  | InList column list_ negated =>
      '(column, list_, c) ← rewrite_in_list scope column list_;
      mret (InList column list_ negated, c)
  | AnyOp l BinEq r rest =>
      match r with
      | EArray elem named =>
          '(l, elem, c) ← rewrite_in_list scope l elem;
          mret (AnyOp l BinEq (EArray elem named) rest, c)
      | _ =>
          match array_parameter scope l r with
          | Some (index, ptr) =>
              _ ← record_param index (SearchIndexArray ptr (column_name_or_empty l));
              mret (AnyOp (index_prefix l) BinEq r rest, true)
          | None => unsupported
          end
      end
  | _ => unsupported
  end.

(** Rewrites every query nested inside an expression, and nothing else. [rq] is
    [rewrite_query]. *)
Fixpoint rewrite_nested_queries (rq : Query → W (Query * bool)) (expr : Expr) : W (Expr * bool) :=
  let go := rewrite_nested_queries rq in
  match expr with
  | Subquery query => walk1 rq query Subquery
  | Exists subquery negated => walk1 rq subquery (λ q, Exists q negated)
  | InSubquery operand subquery negated =>
      '(subquery, c) ← rq subquery;
      '(operand, d) ← go operand;
      mret (InSubquery operand subquery negated, c || d)
  | BinaryOp l op r => walk2 go l r (λ l r, BinaryOp l op r)
  | AnyOp l op r rest => walk2 go l r (λ l r, AnyOp l op r rest)
  | AllOp l op r => walk2 go l r (λ l r, AllOp l op r)
  | IsDistinctFrom l r => walk2 go l r IsDistinctFrom
  | IsNotDistinctFrom l r => walk2 go l r IsNotDistinctFrom
  | UnaryOp op inner => walk1 go inner (UnaryOp op)
  | Nested inner => walk1 go inner Nested
  | Cast inner rest => walk1 go inner (λ e, Cast e rest)
  | IsNull inner => walk1 go inner IsNull
  | IsNotNull inner => walk1 go inner IsNotNull
  | IsTrue inner => walk1 go inner IsTrue
  | IsNotTrue inner => walk1 go inner IsNotTrue
  | IsFalse inner => walk1 go inner IsFalse
  | IsNotFalse inner => walk1 go inner IsNotFalse
  | Collate inner rest => walk1 go inner (λ e, Collate e rest)
  | InList operand list_ negated =>
      '(operand, c) ← go operand;
      '(list_, d) ← each go list_;
      mret (InList operand list_ negated, c || d)
  | Between operand negated low high =>
      '(operand, c) ← go operand;
      '(low, d) ← go low;
      '(high, e) ← go high;
      mret (Between operand negated low high, c || d || e)
  | Like operand pattern rest => walk2 go operand pattern (λ a b, Like a b rest)
  | ILike operand pattern rest => walk2 go operand pattern (λ a b, ILike a b rest)
  | SimilarTo operand pattern rest => walk2 go operand pattern (λ a b, SimilarTo a b rest)
  | Tuple items => walk1 (each go) items Tuple
  | Case operand conditions results else_result =>
      '(operand, c) ← each_opt go operand;
      '(else_result, d) ← each_opt go else_result;
      '(conditions, e) ← each go conditions;
      '(results, f) ← each go results;
      mret (Case operand conditions results else_result, c || d || e || f)
  | Function (ArgumentList args lrest) rest =>
      '(args, c) ← each (λ argument,
        match argument with
        | ArgNamed (ArgExpr e) r => walk1 go e (λ e, ArgNamed (ArgExpr e) r)
        | ArgExprNamed (ArgExpr e) r => walk1 go e (λ e, ArgExprNamed (ArgExpr e) r)
        | ArgUnnamed (ArgExpr e) => walk1 go e (λ e, ArgUnnamed (ArgExpr e))
        | _ => mret (argument, false)
        end) args;
      mret (Function (ArgumentList args lrest) rest, c)
  | _ => mret (expr, false)
  end.

Definition rewrite_predicate (rq : Query → W (Query * bool)) (scope : TableScope) (expr : Expr)
    : W (Expr * bool) :=
  '(expr, c) ← rewrite_selection scope expr;
  '(expr, d) ← rewrite_nested_queries rq expr;
  mret (expr, c || d).

(** ** Scopes of queries ([query.rs]) *)

(** [carry] of one projected name. *)
Definition carry (inner : TableScope) (name : bytes) (idents : list Ident)
    (acc : Columns * ReadColumns) : Columns * ReadColumns :=
  let '(columns, read) := acc in
  (match transform_of inner idents with Some ptr => <[name := ptr]> columns | None => columns end,
   if resolves_read inner idents then {[name]} ∪ read else read).

(** A wildcard carries every name of the tables it covers, later ones winning. *)
Definition carry_all (covers : ScopedTable → bool) (inner : TableScope)
    (acc : Columns * ReadColumns) : Columns * ReadColumns :=
  foldl (λ '(columns, read) table,
    if covers table then (sc_columns table ∪ columns, sc_read_columns table ∪ read)
    else (columns, read)) acc inner.

Definition carry_item (inner : TableScope) (acc : Columns * ReadColumns) (item : SelectItem Expr)
    : Columns * ReadColumns :=
  match item with
  | UnnamedExpr e =>
      match column_idents e with
      | Some idents =>
          match last idents with
          | Some ident => carry inner (normalize ident) idents acc
          | None => acc
          end
      | None => acc
      end
  | ExprWithAlias e alias =>
      match column_idents e with
      | Some idents => carry inner (normalize alias) idents acc
      | None => acc
      end
  | Wildcard _ => carry_all (λ _, true) inner acc
  | QualifiedWildcard name _ => carry_all (λ table, scope_matches table name) inner acc
  end.

(** The columns a projection exposes, as the relation [alias] names. *)
Definition derived_table (inner : TableScope) (projection : list (SelectItem Expr))
    (alias : option TableAlias) : option ScopedTable :=
  let '(columns, read) := foldl (carry_item inner) (∅, ∅) projection in
  if bool_decide (columns = ∅) && bool_decide (read = ∅) then None
  else
    let alias := (λ alias, normalize (ta_name alias)) <$> alias in
    Some {| sc_alias := alias; sc_name := opt_list alias; sc_columns := columns;
            sc_read_columns := read |}.

(** Concatenates what every element contributes. *)
Definition gather {A B} (f : A → W (list B)) : list A → W (list B) :=
  fix go l :=
    match l with
    | [] => mret []
    | x :: l => xs ← f x; ys ← go l; mret (xs ++ ys)
    end.

Fixpoint scope_of (table_with_joins : TableWithJoins) : W TableScope :=
  match table_with_joins with
  | MkTable relation joins =>
      first ← scope_factor relation;
      others ← gather (λ join, match join with Build_JoinOf _ _ factor _ _ => scope_factor factor end)
                 joins;
      mret (first ++ others)
  end
with scope_factor (factor : TableFactor) : W TableScope :=
  match factor with
  | Table name alias _ =>
      found ← scoped_table name;
      mret match found with
           | None => []
           | Some (columns, read) =>
               [{| sc_alias := (λ alias, normalize (ta_name alias)) <$> alias;
                   sc_name := normalize <$> name; sc_columns := columns; sc_read_columns := read |}]
           end
  | NestedJoin table_with_joins _ => scope_of table_with_joins
  | Derived (MkQuery _ (BodySelect (MkSelect projection from _ _ _ _)) _ _) alias _ =>
      inner ← gather scope_of from;
      mret (opt_list (derived_table inner projection alias))
  | _ => mret []
  end.

(** [self.scope(from)]. *)
Definition scope (from : list TableWithJoins) : W TableScope := gather scope_of from.

(** ** Walking a query ([query.rs]) *)

Definition join_condition (f : Expr → W (Expr * bool)) (op : JoinOperator Expr)
    : W (JoinOperator Expr * bool) :=
  match op with
  | Constrained kind (On e) => walk1 f e (λ e, Constrained kind (On e))
  | _ => mret (op, false)
  end.

Fixpoint join_conditions_of (sc : TableScope) (table : TableWithJoins) : W (TableWithJoins * bool) :=
  match table with
  | MkTable relation joins =>
      '(relation, c) ← rewrite_nested_join sc relation;
      '(joins, d) ← each (λ join,
        match join with
        | Build_JoinOf _ _ factor op rest =>
            '(factor, c) ← rewrite_nested_join sc factor;
            '(op, d) ← join_condition (rewrite_selection sc) op;
            mret ({| jo_relation := factor; jo_operator := op; jo_rest := rest |}, c || d)
        end) joins;
      mret (MkTable relation joins, c || d)
  end
with rewrite_nested_join (sc : TableScope) (factor : TableFactor) : W (TableFactor * bool) :=
  match factor with
  | NestedJoin table rest => walk1 (join_conditions_of sc) table (λ t, NestedJoin t rest)
  | _ => mret (factor, false)
  end.

Definition rewrite_join_conditions (sc : TableScope)
    : list TableWithJoins → W (list TableWithJoins * bool) := each (join_conditions_of sc).

Fixpoint derived_tables_of (rq : Query → W (Query * bool)) (table : TableWithJoins)
    : W (TableWithJoins * bool) :=
  match table with
  | MkTable relation joins =>
      '(relation, c) ← derived_tables_in rq relation;
      '(joins, d) ← each (λ join,
        match join with
        | Build_JoinOf _ _ factor op rest =>
            walk1 (derived_tables_in rq) factor
              (λ f, {| jo_relation := f; jo_operator := op; jo_rest := rest |})
        end) joins;
      mret (MkTable relation joins, c || d)
  end
with derived_tables_in (rq : Query → W (Query * bool)) (factor : TableFactor)
    : W (TableFactor * bool) :=
  match factor with
  | Derived subquery alias rest => walk1 rq subquery (λ q, Derived q alias rest)
  | NestedJoin table rest => walk1 (derived_tables_of rq) table (λ t, NestedJoin t rest)
  | _ => mret (factor, false)
  end.

Definition rewrite_derived_tables (rq : Query → W (Query * bool))
    : list TableWithJoins → W (list TableWithJoins * bool) := each (derived_tables_of rq).

(** The projection and the group-by part of [select_expressions]. *)
Definition item_expression (f : Expr → W (Expr * bool)) (item : SelectItem Expr)
    : W (SelectItem Expr * bool) :=
  match item with
  | UnnamedExpr e => walk1 f e UnnamedExpr
  | ExprWithAlias e alias => walk1 f e (λ e, ExprWithAlias e alias)
  | QualifiedWildcard _ _ | Wildcard _ => mret (item, false)
  end.

Definition group_by_expressions (f : Expr → W (Expr * bool)) (group_by : GroupByExpr Expr)
    : W (GroupByExpr Expr * bool) :=
  match group_by with
  | GroupByExpressions exprs rest => walk1 (each f) exprs (λ es, GroupByExpressions es rest)
  | GroupByAll _ => mret (group_by, false)
  end.

(** The join constraints of [select_expressions]: those of the relation list
    itself. *)
Definition join_expressions (f : Expr → W (Expr * bool)) (table : TableWithJoins)
    : W (TableWithJoins * bool) :=
  match table with
  | MkTable relation joins =>
      walk1 (each (λ join,
        walk1 (join_condition f) (jo_operator join)
          (λ op, {| jo_relation := jo_relation join; jo_operator := op; jo_rest := jo_rest join |})))
        joins (MkTable relation)
  end.

Definition check_projection (sc : TableScope) (item : SelectItem Expr) : W () :=
  match computed_protected_column sc item with
  | Some (column, e) => unprotected (ComputedColumn column (expr_shape e))
  | None => mret tt
  end.

Definition rewrite_select (rq : Query → W (Query * bool)) (select : Select) : W (Select * bool) :=
  match select with
  | MkSelect projection from selection having group_by rest =>
      let nested := rewrite_nested_queries rq in
      sc ← scope from;
      '(from, c1) ← rewrite_join_conditions sc from;
      '(from, c2) ← rewrite_derived_tables rq from;
      '(selection, c3) ← each_opt (rewrite_predicate rq sc) selection;
      '(having, c4) ← each_opt (rewrite_predicate rq sc) having;
      _ ← for_each (check_projection sc) projection;
      '(projection, c5) ← each (item_expression nested) projection;
      '(group_by, c6) ← group_by_expressions nested group_by;
      '(from, c7) ← each (join_expressions nested) from;
      mret (MkSelect projection from selection having group_by rest,
            c1 || c2 || c3 || c4 || c5 || c6 || c7)
  end.

(** ** Statements ([statement.rs]) *)

(** The tables a [COPY (query)] would read. *)
Definition record_copied_table (name : ObjectName) (found : list bytes) : W (list bytes) :=
  protected ← reads_protected name;
  let name := sql_name_to_string name in
  mret (if protected : bool then if bool_decide (name ∈ found) then found else found ++ [name] else found).

(** Threads the names found so far through every element. *)
Definition collect {A} (f : A → list bytes → W (list bytes)) : list A → list bytes → W (list bytes) :=
  fix go l found :=
    match l with
    | [] => mret found
    | x :: l => found ← f x found; go l found
    end.

Fixpoint collect_copied_tables (query : Query) (found : list bytes) : W (list bytes) :=
  match query with
  | MkQuery with_ body _ _ =>
      found ← match with_ with
              | Some (ctes, _) =>
                  collect (λ cte, match cte with Build_CteOf _ q _ => collect_copied_tables q end)
                    ctes found
              | None => mret found
              end;
      collect_copied_tables_in body found
  end
with collect_copied_tables_in (body : SetExpr) (found : list bytes) : W (list bytes) :=
  match body with
  | BodySelect (MkSelect _ from _ _ _ _) => collect collect_copied_tables_twj from found
  | BodyQuery query => collect_copied_tables query found
  | SetOperation l r _ =>
      found ← collect_copied_tables_in l found; collect_copied_tables_in r found
  | BodyTable schema_name (Some name) =>
      record_copied_table (ident_new <$> (opt_list schema_name ++ [name])) found
  | BodyTable _ None => mret found
  | BodyInsert _ | BodyUpdate _ | BodyValues _ _ => mret found
  end
with collect_copied_tables_twj (table : TableWithJoins) (found : list bytes) : W (list bytes) :=
  match table with
  | MkTable relation joins =>
      found ← collect_copied_tables_from relation found;
      collect (λ join, match join with
                       | Build_JoinOf _ _ factor _ _ => collect_copied_tables_from factor
                       end) joins found
  end
with collect_copied_tables_from (factor : TableFactor) (found : list bytes) : W (list bytes) :=
  match factor with
  | Table name _ _ => record_copied_table name found
  | Derived subquery _ _ => collect_copied_tables subquery found
  | NestedJoin table _ => collect_copied_tables_twj table found
  | Pivot table _ | Unpivot table _ | MatchRecognize table _ =>
      collect_copied_tables_from table found
  | FactorOther _ => mret found
  end.

Definition copied_protected_tables (query : Query) : W (list bytes) :=
  collect_copied_tables query [].

Definition rewrite_copy (rq : Query → W (Query * bool)) (source : CopySource Query) (to : bool)
    : W (CopySource Query * bool) :=
  match source with
  | CopyTable table_name _ =>
      protected ← (if to then reads_protected table_name
                   else columns ← table table_name; mret (bool_decide (is_Some columns)));
      _ ← (if protected : bool then unprotected (CopySite table_name to) else mret tt);
      mret (source, false)
  | CopyQuery query =>
      found ← copied_protected_tables query;
      _ ← for_each (λ name, unprotected (CopyQuerySite name)) found;
      if to then walk1 rq query CopyQuery else mret (source, false)
  end.

(** [if self.table(name)?.is_some() { self.unprotected(..)? }]. *)
Definition refuse_write (name : ObjectName) (shape : bytes) : W () :=
  columns ← table name;
  if bool_decide (is_Some columns) then unprotected (Unsupported name shape) else mret tt.

Definition refuse_merge (factor : TableFactor) : W () :=
  match factor with
  | Table name _ _ => refuse_write name b#"MERGE"
  | _ => mret tt
  end.

Definition relation (t : TableWithJoins) : TableFactor := match t with MkTable r _ => r end.

Definition write_target (statement : Statement) : option ObjectName :=
  match statement with
  | Insert insert => Some (in_table_name insert)
  | Update update => match relation (up_table update) with Table name _ _ => Some name | _ => None end
  | Merge (Table name _ _) _ => Some name
  | _ => None
  end.

Definition refuse_prepare (statement : Statement) : W () :=
  match write_target statement with
  | Some name => refuse_write name b#"PREPARE"
  | None => mret tt
  end.

Definition update_columns (t : TableWithJoins) : W (option Columns) :=
  match relation t with
  | Table name _ _ => table name
  | _ => mret None
  end.

Definition assignment_queries (rq : Query → W (Query * bool)) (assignment : Assignment Expr)
    : W (Assignment Expr * bool) :=
  walk1 (rewrite_nested_queries rq) (as_value assignment)
    (λ value, {| as_target := as_target assignment; as_value := value |}).

(** Everything but the sealing: the predicates, and the queries below. *)
Definition update_walk (rq : Query → W (Query * bool)) (update : UpdateOf TableWithJoins Expr)
    (assignments : list (Assignment Expr)) : W (UpdateOf TableWithJoins Expr * bool) :=
  sc ← scope (up_table update :: opt_list (up_from update));
  '(target, c2) ← join_conditions_of sc (up_table update);
  '(from, c3) ← each_opt (join_conditions_of sc) (up_from update);
  '(selection, c4) ← each_opt (rewrite_predicate rq sc) (up_selection update);
  '(assignments, c5) ← each (assignment_queries rq) assignments;
  '(target, c6) ← derived_tables_of rq target;
  '(from, c7) ← each_opt (derived_tables_of rq) from;
  mret ({| up_table := target; up_assignments := assignments; up_from := from;
           up_selection := selection; up_rest := up_rest update |},
        c2 || c3 || c4 || c5 || c6 || c7).

Definition rewrite_update (rq : Query → W (Query * bool)) (update : UpdateOf TableWithJoins Expr)
    : W (UpdateOf TableWithJoins Expr * bool) :=
  columns ← update_columns (up_table update);
  '(assignments, c1) ←
    match columns with
    | Some columns =>
        seal_assignments (assignment_scope_of columns (update_row update columns))
          (up_assignments update)
    | None => mret (up_assignments update, false)
    end;
  '(update, c2) ← update_walk rq update assignments;
  mret (update, c1 || c2).

Definition delete_tables {T} (from : FromTable T) : list T :=
  match from with WithFromKeyword tables | WithoutKeyword tables => tables end.

Definition set_tables {T} (tables : list T) (from : FromTable T) : FromTable T :=
  match from with
  | WithFromKeyword _ => WithFromKeyword tables
  | WithoutKeyword _ => WithoutKeyword tables
  end.

Definition rewrite_delete (rq : Query → W (Query * bool)) (delete : DeleteOf TableWithJoins Expr)
    : W (DeleteOf TableWithJoins Expr * bool) :=
  let from := delete_tables (de_from delete) in
  sc ← scope (from ++ default [] (de_using delete));
  '(selection, c1) ← each_opt (rewrite_predicate rq sc) (de_selection delete);
  '(from, c2) ← rewrite_join_conditions sc from;
  '(using_, c3) ← each_opt (rewrite_join_conditions sc) (de_using delete);
  '(from, c4) ← rewrite_derived_tables rq from;
  '(using_, c5) ← each_opt (rewrite_derived_tables rq) using_;
  mret ({| de_from := set_tables from (de_from delete); de_using := using_;
           de_selection := selection; de_rest := de_rest delete |}, c1 || c2 || c3 || c4 || c5).

Definition set_on (on : option (OnInsert Expr)) (insert : InsertOf Query Expr)
    : InsertOf Query Expr := {|
  in_table_name := in_table_name insert; in_table_alias := in_table_alias insert;
  in_columns := in_columns insert; in_source := in_source insert; in_on := on;
  in_rest := in_rest insert |}.

Definition rewrite_insert (rq : Query → W (Query * bool)) (insert : InsertOf Query Expr)
    : W (InsertOf Query Expr * bool) :=
  columns ← table (in_table_name insert);
  match columns with
  | None => mret (insert, false)
  | Some columns =>
      '(insert, sealed) ←
        (if bool_decide (in_columns insert = []) then
           _ ← unprotected (NoColumnList (in_table_name insert)); mret (insert, sealed_none)
         else rewrite_insert_values insert columns);
      let changed := sv_changed sealed in
      let sc := [{|
        sc_alias := normalize <$> in_table_alias insert;
        sc_name := normalize <$> in_table_name insert;
        sc_columns := columns;
        sc_read_columns := read_columns_of catalog (in_table_name insert) |}] in
      let target row := {| asc_row := row; asc_columns := columns; asc_sealed := sealed |} in
      match in_on insert with
      | Some (OnConflictDoUpdate conflict_target assignments selection) =>
          let row := conflict_row insert conflict_target assignments in
          '(assignments, c) ← seal_assignments (target row) assignments;
          '(selection, d) ← each_opt (rewrite_predicate rq sc) selection;
          mret (set_on (Some (OnConflictDoUpdate conflict_target assignments selection)) insert,
                changed || c || d)
      | Some (DuplicateKeyUpdate assignments) =>
          let row := conflict_row insert None assignments in
          '(assignments, c) ← seal_assignments (target row) assignments;
          mret (set_on (Some (DuplicateKeyUpdate assignments)) insert, changed || c)
      | _ => mret (insert, changed)
      end
  end.

Definition rewrite_statement_with (rq : Query → W (Query * bool)) (statement : Statement)
    : W (Statement * bool) :=
  match statement with
  | Insert insert => walk1 (rewrite_insert rq) insert Insert
  | Update update => walk1 (rewrite_update rq) update Update
  | QueryStatement query => walk1 rq query QueryStatement
  | Delete delete => walk1 (rewrite_delete rq) delete Delete
  | Copy source to rest => walk1 (λ source, rewrite_copy rq source to) source (λ s, Copy s to rest)
  | Merge factor _ => _ ← refuse_merge factor; mret (statement, false)
  | Prepare inner _ => _ ← refuse_prepare inner; mret (statement, false)
  | StatementOther _ => mret (statement, false)
  end.

Fixpoint rewrite_set_expr (rq : Query → W (Query * bool)) (body : SetExpr) : W (SetExpr * bool) :=
  match body with
  | BodySelect select => walk1 (rewrite_select rq) select BodySelect
  | BodyQuery query => walk1 rq query BodyQuery
  | SetOperation l r rest => walk2 (rewrite_set_expr rq) l r (λ l r, SetOperation l r rest)
  | BodyInsert statement => walk1 (rewrite_statement_with rq) statement BodyInsert
  | BodyUpdate statement => walk1 (rewrite_statement_with rq) statement BodyUpdate
  | BodyValues _ _ | BodyTable _ _ => mret (body, false)
  end.

(** One unfolding of [rewrite_query]. *)
Definition query_step (rq : Query → W (Query * bool)) (query : Query) : W (Query * bool) :=
  match query with
  | MkQuery with_ body order_by rest =>
      '(with_, c) ← each_opt (λ w, walk1 (each (λ cte,
          walk1 rq (cte_query cte) (λ q, {| cte_query := q; cte_rest := cte_rest cte |})))
        w.1 (λ ctes, (ctes, w.2))) with_;
      '(body, d) ← rewrite_set_expr rq body;
      '(order_by, e) ← each_opt (λ o, walk1 (each (λ key,
          walk1 (rewrite_nested_queries rq) (ob_expr key)
            (λ e, {| ob_expr := e; ob_rest := ob_rest key |})))
        o.1 (λ keys, (keys, o.2))) order_by;
      mret (MkQuery with_ body order_by rest, c || d || e)
  end.

(** Every call moves one query deeper. *)
Fixpoint rewrite_query_fuel (fuel : nat) (query : Query) : W (Query * bool) :=
  match fuel with
  | O => mret (query, false)
  | S fuel => query_step (rewrite_query_fuel fuel) query
  end.

Definition rewrite_query (query : Query) : W (Query * bool) :=
  rewrite_query_fuel (query_depth query) query.

Definition rewrite_statement (statement : Statement) : W (Statement * bool) :=
  rewrite_statement_with rewrite_query statement.

End rewrite.
