(* ===== verification/WalkSpec.v ===== *)
(** * The walk over a statement terminates

    The fuel [rewrite_query] is given, the depth of query nesting, is always
    enough: the fuelled function satisfies the equation of the source, where
    [rewrite_query] calls itself on every query below it. This file also holds what
    the other proofs about the walk share: induction over expressions, and
    pointwise equality and postconditions of computations. *)

From S2P Require Import Prelude Sql Utf8 Crates Pgwire Errors Envelope RowKeys Fields Transform.
From S2P Require Import Policy Portal Rows Unprotected Catalog Rewrite.
Import Ast.

(** ** Induction over expressions *)

(** The sub-expressions the walk over nested queries visits. *)
Definition children (e : Expr) : list Expr :=
  match e with
  | InSubquery operand _ _ => [operand]
  | _ => expr_operands e
  end.

Lemma expr_children_ind (P : Expr → Prop) :
  (∀ e, Forall P (children e) → P e) → ∀ e, P e.
Proof.
  intros H. fix IH 1. intros e. apply H.
  assert (∀ l, Forall P l) as IHl by (fix IHl 1; intros [|x l]; constructor; [apply IH|apply IHl]).
  assert (∀ o, Forall P (opt_list o)) as IHo by (intros [x|]; constructor; [apply IH|constructor]).
  destruct e as [| | | | | | | | | | | | | | | | | | | | | | | | | |args ?| | | | | |]; cbn;
    repeat first [apply Forall_nil; exact I | apply Forall_app; split | apply Forall_cons; split];
    try apply IH; try apply IHo;
    try (match goal with |- Forall P ?l => is_var l; apply IHl end).
  destruct args as [args ?|?]; [|constructor].
  induction args as [|a args IHa]; cbn; [constructor|].
  destruct (arg_expr a) as [x|] eqn:E; [|exact IHa]. constructor; [|exact IHa].
  destruct a as [[y|] ?|[y|] ?|[y|]]; cbn in E; try discriminate E; injection E as <-; apply IH.
Qed.

(** ** Computations *)

(** What holds of every value a computation can return. *)
Definition returns {S E A} (m : M S E A) (P : A → Prop) : Prop :=
  ∀ s a s', m s = (Ok a, s') → P a.

Lemma returns_mret {S E A} (a : A) (P : A → Prop) : P a → returns (mret a : M S E A) P.
Proof. by intros H s ? ? [= <- _]. Qed.

Lemma returns_bind {S E A B} (m : M S E A) (f : A → M S E B) (P : A → Prop) (Q : B → Prop) :
  returns m P → (∀ a, P a → returns (f a) Q) → returns (m ≫= f) Q.
Proof. intros Hm Hf s b s' (a & s1 & Ha & Hb)%M_bind_Ok. by eapply Hf; [eapply Hm|]. Qed.

Lemma returns_then {S E A B} (m : M S E A) (f : A → M S E B) (Q : B → Prop) :
  (∀ a, returns (f a) Q) → returns (m ≫= f) Q.
Proof. intros Hf. by apply (returns_bind _ _ (λ _, True)). Qed.

Lemma returns_err {S E A} (e : E) (P : A → Prop) : returns (lift (Err e) : M S E A) P.
Proof. by intros s a s' [=]. Qed.

Lemma returns_weaken {S E A} (m : M S E A) (P Q : A → Prop) :
  returns m P → (∀ a, P a → Q a) → returns m Q.
Proof. intros Hm HPQ s a s' Ha. by eapply HPQ, Hm. Qed.

(** Equality in every state. *)
Definition same {S E A} (m1 m2 : M S E A) : Prop := ∀ s, m1 s = m2 s.

Lemma same_refl {S E A} (m : M S E A) : same m m.
Proof. by intros s. Qed.

Lemma same_bind {S E A B} (m1 m2 : M S E A) (f1 f2 : A → M S E B) (P : A → Prop) :
  same m1 m2 → returns m2 P → (∀ a, P a → same (f1 a) (f2 a)) → same (m1 ≫= f1) (m2 ≫= f2).
Proof.
  intros Hm Hr Hf s. unfold mbind, M_bind. rewrite Hm.
  destruct (m2 s) as [[a|e] s'] eqn:Hs; [|done]. by eapply Hf, Hr.
Qed.

Lemma same_bind_l {S E A B} (m : M S E A) (f1 f2 : A → M S E B) :
  (∀ a, same (f1 a) (f2 a)) → same (m ≫= f1) (m ≫= f2).
Proof. intros Hf. apply (same_bind m m _ _ (λ _, True)); [done|done|auto]. Qed.

Lemma same_then {S E A B} (m1 m2 : M S E A) (f1 f2 : A → M S E B) :
  same m1 m2 → (∀ a, same (f1 a) (f2 a)) → same (m1 ≫= f1) (m2 ≫= f2).
Proof. intros Hm Hf. apply (same_bind m1 m2 _ _ (λ _, True)); [done|done|auto]. Qed.

Section combinators.
Context {A B : Type} (f g : A → W (A * bool)).

Lemma each_same l : (∀ x, x ∈ l → same (f x) (g x)) → same (each f l) (each g l).
Proof.
  induction l as [|x l IH]; intros Hl; [apply same_refl|]. cbn [each].
  apply same_then; [apply Hl; left|]. intros [x' c].
  apply same_then; [apply IH; intros y Hy; apply Hl; by right|]. intros [l' d]. apply same_refl.
Qed.

Lemma each_opt_same o : (∀ x, o = Some x → same (f x) (g x)) → same (each_opt f o) (each_opt g o).
Proof.
  destruct o as [x|]; intros Hl; [|apply same_refl]. cbn [each_opt].
  apply same_then; [by apply Hl|]. intros [x' c]. apply same_refl.
Qed.

Lemma walk1_same x (k : A → B) : same (f x) (g x) → same (walk1 f x k) (walk1 g x k).
Proof. intros H. apply same_then; [done|]. intros [x' c]. apply same_refl. Qed.

Lemma walk2_same x y (k : A → A → B) :
  same (f x) (g x) → same (f y) (g y) → same (walk2 f x y k) (walk2 g x y k).
Proof.
  intros Hx Hy. apply same_then; [done|]. intros [x' c]. apply same_then; [done|].
  intros [y' d]. apply same_refl.
Qed.

End combinators.

Section combinators.
Context {A B : Type} (f : A → W (A * bool)).

Lemma each_returns (P : A → A → Prop) l :
  (∀ x, x ∈ l → returns (f x) (λ p, P x p.1)) → returns (each f l) (λ p, Forall2 P l p.1).
Proof.
  induction l as [|x l IH]; intros Hl; [by apply returns_mret|]. cbn [each].
  eapply returns_bind; [apply Hl; left|]. intros [x' c] Hx.
  eapply returns_bind; [apply IH; intros y Hy; apply Hl; by right|]. intros [l' d] Hl'.
  apply returns_mret. by constructor.
Qed.

Lemma each_opt_returns (P : option A → Prop) o :
  (o = None → P None) → (∀ x, o = Some x → returns (f x) (λ p, P (Some p.1))) →
  returns (each_opt f o) (λ p, P p.1).
Proof.
  destruct o as [x|]; intros HN HS; [|by apply returns_mret, HN]. cbn [each_opt].
  eapply returns_bind; [by apply HS|]. intros [x' c] Hx. by apply returns_mret.
Qed.

Lemma walk1_returns x (k : A → B) (P : B → Prop) :
  returns (f x) (λ p, P (k p.1)) → returns (walk1 f x k) (λ p, P p.1).
Proof. intros H. eapply returns_bind; [exact H|]. intros [x' c] Hx. by apply returns_mret. Qed.

Lemma walk2_returns x y (k : A → A → B) (P1 P2 : A → Prop) (P : B → Prop) :
  returns (f x) (λ p, P1 p.1) → returns (f y) (λ p, P2 p.1) →
  (∀ x' y', P1 x' → P2 y' → P (k x' y')) → returns (walk2 f x y k) (λ p, P p.1).
Proof.
  intros Hx Hy HP. eapply returns_bind; [exact Hx|]. intros [x' c] Hx'.
  eapply returns_bind; [exact Hy|]. intros [y' d] Hy'. apply returns_mret. by apply HP.
Qed.

End combinators.

(** ** Depth *)

Lemma max_list_with_le {A} (f : A → nat) l x : x ∈ l → f x ≤ max_list_with f l.
Proof. induction 1; cbn; lia. Qed.

Lemma max_list_with_lub {A} (f : A → nat) l n : (∀ x, x ∈ l → f x ≤ n) → max_list_with f l ≤ n.
Proof.
  induction l as [|x l IH]; intros Hl; cbn; [lia|].
  pose proof (Hl x ltac:(left)). specialize (IH ltac:(intros; apply Hl; by right)). lia.
Qed.

Lemma max_list_with_mono {A} (f : A → nat) l l' :
  Forall2 (λ x x', f x' ≤ f x) l l' → max_list_with f l' ≤ max_list_with f l.
Proof. induction 1; cbn; lia. Qed.

Lemma children_depth e c : c ∈ children e → expr_depth c ≤ expr_depth e.
Proof.
  destruct e as [| | | | | | | | | | | | | | | | | | | | | | |? l ?|l|o cs rs el|[args ?|] ?| | | | | |];
    cbn [children expr_operands expr_depth];
    rewrite ?elem_of_cons, ?elem_of_nil; try (intros; naive_solver lia).
  - intros [->|Hl]; [lia|]. pose proof (max_list_with_le expr_depth _ _ Hl). lia.
  - by apply max_list_with_le.
  - rewrite !elem_of_app. intros [Ho|[He|[Hc|Hr]]].
    + destruct o; [|by apply elem_of_nil in Ho]. apply list_elem_of_singleton in Ho as ->. cbn. lia.
    + destruct el; [|by apply elem_of_nil in He]. apply list_elem_of_singleton in He as ->. cbn. lia.
    + pose proof (max_list_with_le expr_depth _ _ Hc). lia.
    + pose proof (max_list_with_le expr_depth _ _ Hr). lia.
  - cbn [args_depth]. intros (a & Ha & E)%list_elem_of_omap.
    etrans; [|by apply (max_list_with_le (arg_depth expr_depth))].
    destruct a as [[y|] ?|[y|] ?|[y|]]; cbn in E; try discriminate E; by injection E as <-.
Qed.

Lemma max_list_with_insert {A} (f : A → nat) l i x y :
  l !! i = Some x → f y ≤ f x → max_list_with f (<[i := y]> l) ≤ max_list_with f l.
Proof.
  revert i. induction l as [|z l IH]; intros [|i]; cbn; [done..| |].
  - intros [= ->]. lia.
  - intros Hi Hy. by apply Nat.max_le_compat_l, (IH i).
Qed.

(** Induction over relations, through parenthesised joins. *)
Section relations.
Context (P : TableWithJoins → Prop) (Q : TableFactor → Prop).
Context (HP : ∀ r js, Q r → (∀ j, j ∈ js → Q (jo_relation j)) → P (MkTable r js)).
Context (HN : ∀ t rest, P t → Q (NestedJoin t rest)).
Context (HQ : ∀ f, (∀ t rest, f ≠ NestedJoin t rest) → Q f).

Fixpoint relation_ind (t : TableWithJoins) : P t
with factor_ind (f : TableFactor) : Q f.
Proof using HP HN HQ.
  - destruct t as [r js]. apply HP; [apply factor_ind|].
    apply Forall_forall. induction js as [|[f op rest] js IH]; constructor; [exact (factor_ind f)|exact IH].
  - destruct f; try (apply HQ; by intros ? ?). apply HN, relation_ind.
Qed.

End relations.

Section walk.
Context `{HexCrate, AeadCrate, HmacCrate, Ff1Crate, Lowercase, SqlParserCrate}.
Context (catalog : WriteCatalog) (rows : option RowContext) (trusted escapes : bool).
Context (deref : TransformPtr → bytes * DynTransform) (ks : KeySource) (nonce : nat → bytes).

#[local] Abbreviation rewrite_selection := (rewrite_selection catalog escapes deref ks).
#[local] Abbreviation rewrite_in_list := (rewrite_in_list catalog escapes deref ks).
#[local] Abbreviation rewrite_equality := (rewrite_equality catalog escapes deref ks).
#[local] Abbreviation seal_expr := (seal_expr catalog escapes deref ks nonce).
#[local] Abbreviation seal_assignments := (seal_assignments catalog escapes deref ks nonce).
#[local] Abbreviation join_conditions_of := (join_conditions_of catalog escapes deref ks).
#[local] Abbreviation rewrite_nested_join := (rewrite_nested_join catalog escapes deref ks).
#[local] Abbreviation rewrite_predicate := (rewrite_predicate catalog escapes deref ks).
#[local] Abbreviation rewrite_select := (rewrite_select catalog trusted escapes deref ks).
#[local] Abbreviation rewrite_statement_with :=
  (rewrite_statement_with catalog rows trusted escapes deref ks nonce).
#[local] Abbreviation query_step := (query_step catalog rows trusted escapes deref ks nonce).
#[local] Abbreviation rewrite_query_fuel :=
  (rewrite_query_fuel catalog rows trusted escapes deref ks nonce).
#[local] Abbreviation rewrite_query := (rewrite_query catalog rows trusted escapes deref ks nonce).

(** ** No rewrite nests queries deeper *)

(** Splits a computation at its effects; the pure steps stay. *)
Ltac ret :=
  repeat lazymatch goal with
  | |- returns (mret _) _ => apply returns_mret
  | |- returns (lift (Err _)) _ => apply returns_err
  | |- returns (malformed) _ => apply returns_err
  | |- returns ((if ?b then _ else _)) _ => destruct b eqn:?
  | |- returns (match ?x with _ => _ end) _ => destruct x eqn:?
  | |- returns (_ ≫= _) _ => apply returns_then; intros ?
  end.

Ltac rbind H := eapply returns_bind; [apply H|cbv beta].

Lemma index_value_depth ptr v :
  returns (index_value deref ks ptr v) (λ v', expr_depth v' ≤ expr_depth v).
Proof. unfold index_value. ret; cbn; lia. Qed.

Lemma rewrite_equality_depth ptr c v :
  returns (rewrite_equality ptr c v)
    (λ p, expr_depth p.1.1 ≤ expr_depth c ∧ expr_depth p.1.2 ≤ expr_depth v).
Proof.
  unfold Rewrite.rewrite_equality. do 3 (destruct (negb _); [ret; cbn; lia|]).
  rbind index_value_depth. intros v' Hv. ret. cbn. lia.
Qed.

Lemma index_values_depth ptr l :
  returns (index_values deref ks ptr l) (λ l', max_list_with expr_depth l' ≤ max_list_with expr_depth l).
Proof.
  induction l as [|v l IH]; cbn; [ret; done|].
  rbind index_value_depth. intros v' Hv.
  rbind IH. intros l' Hl. ret. cbn. lia.
Qed.

Lemma rewrite_in_list_depth sc c l :
  returns (rewrite_in_list sc c l)
    (λ p, expr_depth p.1.1 ≤ expr_depth c ∧
          max_list_with expr_depth p.1.2 ≤ max_list_with expr_depth l).
Proof.
  unfold Rewrite.rewrite_in_list. destruct (column_ref sc c) as [ptr|]; [|ret; cbn; lia].
  do 3 (match goal with |- context [if ?b then _ else _] => destruct b end; [ret; cbn; lia|]).
  rbind index_values_depth. intros l' Hl. ret. cbn. lia.
Qed.

Lemma rewrite_selection_depth sc e :
  returns (rewrite_selection sc e) (λ p, expr_depth p.1 ≤ expr_depth e).
Proof.
  induction e as [e IH] using expr_children_ind.
  assert (∀ x, returns (_ ← unsupported_predicate catalog deref sc x; mret (x, false))
    (λ p, expr_depth p.1 ≤ expr_depth x)) as Hun by (intros; ret; done).
  destruct e as [| | | | |e| |op e| | | | | | |l op r|l op r rest| | | | | | | |c es neg| | | | | | | | |];
    cbn [Rewrite.rewrite_selection]; try apply Hun.
  - apply (walk1_returns _ _ _ (λ x, expr_depth x ≤ _)).
    cbn [children expr_operands] in IH. by apply Forall_cons in IH as [IH _].
  - destruct op; try apply Hun. cbn [children expr_operands] in IH. apply Forall_cons in IH as [IH _].
    by apply (walk1_returns _ _ _ (λ x, expr_depth x ≤ _)).
  - cbn [children expr_operands] in IH. apply Forall_cons in IH as [IHl IHr].
    apply Forall_cons in IHr as [IHr _]. destruct op; [| | |apply Hun].
    + destruct (column_ref sc l) as [ptr|]; [|destruct (column_ref sc r) as [ptr|]; [|apply Hun]];
        rbind rewrite_equality_depth; intros [[a b] d] [Ha Hb]; ret; cbn in *; lia.
    + apply (walk2_returns _ _ _ _ (λ x, expr_depth x ≤ expr_depth l) (λ x, expr_depth x ≤ expr_depth r)
        (λ x, expr_depth x ≤ _)); [done..|]. cbn. lia.
    + apply (walk2_returns _ _ _ _ (λ x, expr_depth x ≤ expr_depth l) (λ x, expr_depth x ≤ expr_depth r)
        (λ x, expr_depth x ≤ _)); [done..|]. cbn. lia.
  - destruct op; try apply Hun.
    assert (∀ x, returns (match array_parameter deref sc l x with
      | Some (index, ptr) =>
          _ ← record_param index (SearchIndexArray ptr (column_name_or_empty l));
          mret (AnyOp (index_prefix l) BinEq x rest, true)
      | None => _ ← unsupported_predicate catalog deref sc (AnyOp l BinEq x rest);
                mret (AnyOp l BinEq x rest, false) end)
      (λ p, expr_depth p.1 ≤ expr_depth (AnyOp l BinEq x rest))) as Hrest
      by (intros x; ret; cbn; lia).
    destruct r; try apply Hrest.
    rbind rewrite_in_list_depth. intros [[a b] d] [Ha Hb]. ret. cbn in *. lia.
  - rbind rewrite_in_list_depth. intros [[a b] d] [Ha Hb]. ret. cbn in *. lia.
Qed.

Lemma seal_expr_depth ptr col row e :
  returns (seal_expr ptr col row e) (λ p, expr_depth p.1 ≤ expr_depth e).
Proof. unfold Rewrite.seal_expr. ret; cbn; try lia; destruct (at_ deref ptr); cbn; lia. Qed.

Lemma seal_elements_depth target protected es :
  returns (seal_elements catalog escapes deref ks nonce target protected es)
    (λ p, length p.1 = length es ∧ max_list_with expr_depth p.1 ≤ max_list_with expr_depth es).
Proof.
  revert es. induction protected as [|[[pos ident] ptr] protected IH]; intros es; cbn; [ret; done|].
  apply returns_then. intros row. destruct (es !! pos) as [v|] eqn:Hv; [|apply IH].
  destruct (re_stores_a_sealed_value _ _ _); [apply IH|].
  rbind seal_expr_depth. intros [v' c] Hd.
  rbind IH. intros [es' d] [Hl Hm]. ret. cbn in *. rewrite length_insert in Hl.
  pose proof (max_list_with_insert expr_depth es pos v v' Hv Hd). lia.
Qed.

Lemma seal_assignment_depth target a :
  returns (seal_assignment catalog escapes deref ks nonce target a)
    (λ p, expr_depth (as_value p.1) ≤ expr_depth (as_value a)).
Proof.
  unfold seal_assignment. destruct (as_target a) as [name|names].
  - destruct (last name) as [ident|]; [|ret; done].
    destruct (asc_columns target !! _) as [ptr|]; [|ret; done].
    apply returns_then. intros row. destruct (re_stores_a_sealed_value _ _ _); [ret; done|].
    rbind seal_expr_depth. intros [v c] Hd. ret. done.
  - eapply (returns_bind _ _ (λ p, expr_depth p.1 ≤ expr_depth (as_value a)));
      [|intros [v c] Hd; ret; done].
    unfold seal_tuple_assignment. destruct (bool_decide _); [ret; done|].
    destruct (as_value a); try (ret; done); (destruct (bool_decide _); [|ret; done]);
      rbind seal_elements_depth; intros [es c] [Hl Hm]; ret; cbn in *; [|lia].
    destruct es as [|e' [|? ?]]; try done. cbn in *. lia.
Qed.

Lemma each_depth {A} (f : A → W (A * bool)) (d : A → nat) l :
  (∀ x, returns (f x) (λ p, d p.1 ≤ d x)) →
  returns (each f l) (λ p, max_list_with d p.1 ≤ max_list_with d l).
Proof.
  intros Hf. eapply returns_weaken; [apply (each_returns f (λ x x', d x' ≤ d x)); auto|].
  intros [l' c]. apply max_list_with_mono.
Qed.

Lemma each_opt_depth {A} (f : A → W (A * bool)) (d : A → nat) o :
  (∀ x, returns (f x) (λ p, d p.1 ≤ d x)) → returns (each_opt f o) (λ p, opt_max d p.1 ≤ opt_max d o).
Proof.
  intros Hf. apply (each_opt_returns f (λ o', opt_max d o' ≤ opt_max d o)); [by intros ->|].
  intros x ->. apply Hf.
Qed.

Lemma join_condition_depth sc op :
  returns (join_condition (rewrite_selection sc) op)
    (λ p, operator_depth expr_depth p.1 ≤ operator_depth expr_depth op).
Proof.
  unfold join_condition. destruct op as [k [e| | |]|k]; try (ret; done).
  apply (walk1_returns _ _ _ (λ x, operator_depth expr_depth x ≤ _)). apply rewrite_selection_depth.
Qed.

(** The constraints of the relation list itself. *)
Definition ops_depth (t : TableWithJoins) : nat :=
  match t with MkTable _ js => max_list_with (λ j, operator_depth expr_depth (jo_operator j)) js end.

Lemma ops_depth_le t : ops_depth t ≤ twj_depth t.
Proof.
  destruct t as [r js]. cbn. etrans; [|apply Nat.le_max_r]. apply max_list_with_lub.
  intros j Hj. etrans; [|by apply (max_list_with_le _ js)]. cbn. lia.
Qed.

Lemma join_conditions_depth sc t :
  returns (join_conditions_of sc t)
    (λ p, twj_depth p.1 ≤ twj_depth t ∧ ops_depth p.1 ≤ ops_depth t).
Proof.
  apply (relation_ind (λ t, returns (join_conditions_of sc t)
           (λ p, twj_depth p.1 ≤ twj_depth t ∧ ops_depth p.1 ≤ ops_depth t))
    (λ f, returns (rewrite_nested_join sc f) (λ p, factor_depth p.1 ≤ factor_depth f))).
  - intros r js Hr Hjs. cbn [Rewrite.join_conditions_of]. rbind Hr. intros [r' c] Hr'.
    eapply returns_bind; [apply (each_returns _ (λ j j',
      factor_depth (jo_relation j') ≤ factor_depth (jo_relation j) ∧
      operator_depth expr_depth (jo_operator j') ≤ operator_depth expr_depth (jo_operator j)))|].
    + intros [f op rest] Hj. rbind (Hjs _ Hj). intros [f' c'] Hf. rbind join_condition_depth.
      intros [op' d] Hop. ret. done.
    + intros [js' d] Hj. ret. cbn in *. split; [apply Nat.max_le_compat; [done|]|];
        apply max_list_with_mono; (eapply Forall2_impl; [done|]); cbn; lia.
  - intros t' rest Ht. cbn [Rewrite.rewrite_nested_join].
    apply (walk1_returns _ _ _ (λ f, factor_depth f ≤ _)). eapply returns_weaken; [done|]. cbn. lia.
  - intros f Hf. destruct f as [| |t1 rest1| | | |]; try (cbn; ret; done). by destruct (Hf t1 rest1).
Qed.

(** Descending into derived tables leaves the constraints alone. *)
Lemma derived_tables_ops rq t :
  returns (derived_tables_of rq t) (λ p, ops_depth p.1 = ops_depth t).
Proof.
  destruct t as [r js]. cbn [derived_tables_of]. apply returns_then. intros [r' c].
  eapply returns_bind; [apply (each_returns _ (λ j j', jo_operator j' = jo_operator j))|].
  - intros [f op rest] _. apply (walk1_returns _ _ _ (λ j', jo_operator j' = op)).
    by intros ? [? ?] ? ?.
  - intros [js' d] Hj. ret. cbn in *. induction Hj as [|j j' js js' Ho _ IH]; cbn; congruence.
Qed.

(** ** The walk only looks below *)

(** Two ways of rewriting a query that agree up to a depth. *)
Definition agree (n : nat) (rq1 rq2 : Query → W (Query * bool)) : Prop :=
  ∀ q, query_depth q ≤ n → same (rq1 q) (rq2 q).

Lemma agree_le n m rq1 rq2 : agree n rq1 rq2 → m ≤ n → agree m rq1 rq2.
Proof. intros Ha Hm q Hq. apply Ha. lia. Qed.

Section agreement.
Context (rq1 rq2 : Query → W (Query * bool)).

Lemma nested_same e :
  agree (expr_depth e) rq1 rq2 → same (rewrite_nested_queries rq1 e) (rewrite_nested_queries rq2 e).
Proof.
  induction e as [e IH] using expr_children_ind. intros Ha.
  assert (∀ c, c ∈ children e → same (rewrite_nested_queries rq1 c) (rewrite_nested_queries rq2 c)) as Hc.
  { intros c Hc. rewrite Forall_forall in IH. apply IH; [done|].
    apply (agree_le _ _ _ _ Ha). by apply children_depth. }
  destruct e as [| | | | | | | | | | | | | | | | | | | | | | | | | |[args ?|] ?| | |q|q|e q ?|];
    cbn [rewrite_nested_queries children expr_operands] in *;
    try apply same_refl; try (apply walk1_same, Hc; left); try (apply walk1_same, Ha; cbn; lia);
    try (apply walk2_same; apply Hc; [left|right; left]).
  - apply same_then; [apply Hc; left|]. intros [? ?]. apply same_then; [apply Hc; right; left|].
    intros [? ?]. apply same_then; [apply Hc; right; right; left|]. intros [? ?]. apply same_refl.
  - apply same_then; [apply Hc; left|]. intros [? ?].
    apply same_then; [apply each_same; intros x Hx; apply Hc; by right|]. intros [? ?]. apply same_refl.
  - by apply walk1_same, each_same.
  - apply same_then; [apply each_opt_same; intros x ->; apply Hc; left|]. intros [? ?].
    apply same_then; [apply each_opt_same; intros x ->; apply Hc, elem_of_app; right; left|].
    intros [? ?]. apply same_then; [apply each_same; intros x Hx; apply Hc; set_solver|].
    intros [? ?]. apply same_then; [apply each_same; intros x Hx; apply Hc; set_solver|].
    intros [? ?]. apply same_refl.
  - apply same_then; [|intros [? ?]; apply same_refl]. apply each_same. intros a Hin.
    assert (∀ x, arg_expr a = Some x →
      same (rewrite_nested_queries rq1 x) (rewrite_nested_queries rq2 x)) as Hx.
    { intros x Hx. apply Hc, list_elem_of_omap. by exists a. }
    destruct a as [[x|] ?|[x|] ?|[x|]]; try apply same_refl; by apply walk1_same, Hx.
  - apply same_then; [apply Ha; cbn; lia|]. intros [? ?].
    apply same_then; [apply Hc; left|]. intros [? ?]. apply same_refl.
Qed.

Lemma predicate_same sc e :
  agree (expr_depth e) rq1 rq2 → same (rewrite_predicate rq1 sc e) (rewrite_predicate rq2 sc e).
Proof.
  intros Ha. eapply same_bind; [apply same_refl|apply rewrite_selection_depth|].
  intros [e' c] He. apply same_then; [|intros [? ?]; apply same_refl].
  apply nested_same, (agree_le _ _ _ _ Ha He).
Qed.

Lemma each_opt_depth_same {A} (f g : A → W (A * bool)) (d : A → nat) o :
  agree (opt_max d o) rq1 rq2 → (∀ x, agree (d x) rq1 rq2 → same (f x) (g x)) →
  same (each_opt f o) (each_opt g o).
Proof. intros Ha Hf. apply each_opt_same. intros x ->. by apply Hf. Qed.

Lemma each_depth_same {A} (f g : A → W (A * bool)) (d : A → nat) l :
  agree (max_list_with d l) rq1 rq2 → (∀ x, agree (d x) rq1 rq2 → same (f x) (g x)) →
  same (each f l) (each g l).
Proof.
  intros Ha Hf. apply each_same. intros x Hx. apply Hf, (agree_le _ _ _ _ Ha). by apply max_list_with_le.
Qed.

Lemma derived_tables_same t :
  agree (twj_depth t) rq1 rq2 → same (derived_tables_of rq1 t) (derived_tables_of rq2 t).
Proof.
  apply (relation_ind (λ t, agree (twj_depth t) rq1 rq2 →
             same (derived_tables_of rq1 t) (derived_tables_of rq2 t))
    (λ f, agree (factor_depth f) rq1 rq2 → same (derived_tables_in rq1 f) (derived_tables_in rq2 f))).
  - intros r js Hr Hjs Ha. cbn [derived_tables_of].
    apply same_then; [apply Hr, (agree_le _ _ _ _ Ha); cbn; lia|]. intros [? ?].
    apply same_then; [|intros [? ?]; apply same_refl]. apply each_same. intros [f op rest] Hj.
    apply walk1_same, (Hjs _ Hj), (agree_le _ _ _ _ Ha). cbn.
    pose proof (max_list_with_le (λ j, factor_depth (jo_relation j)
      `max` operator_depth expr_depth (jo_operator j)) js _ Hj) as Hm. cbn in Hm. lia.
  - intros t' rest Ht Ha. by apply walk1_same, Ht.
  - intros f Hf Ha. destruct f as [|q alias rest|t1 rest1| | | |]; cbn; try apply same_refl.
    + by apply walk1_same, Ha.
    + by destruct (Hf t1 rest1).
Qed.

Lemma join_expressions_same t :
  agree (ops_depth t) rq1 rq2 →
  same (join_expressions (rewrite_nested_queries rq1) t) (join_expressions (rewrite_nested_queries rq2) t).
Proof.
  destruct t as [r js]. intros Ha. cbn [join_expressions]. apply walk1_same.
  apply (each_depth_same _ _ _ _ Ha). intros j Hj. apply walk1_same.
  unfold join_condition. destruct (jo_operator j) as [k [e| | |]|k]; try apply same_refl.
  by apply walk1_same, nested_same.
Qed.

Lemma select_same s :
  agree (select_depth s) rq1 rq2 → same (rewrite_select rq1 s) (rewrite_select rq2 s).
Proof.
  destruct s as [projection from selection having group_by rest]. intros Ha. cbn [Rewrite.rewrite_select].
  assert (∀ n, n ≤ select_depth (MkSelect projection from selection having group_by rest) →
    agree n rq1 rq2) as Hle by (intros n; by apply agree_le).
  cbn [select_depth] in Hle. clear Ha. apply same_bind_l. intros sc.
  eapply same_bind; [apply same_refl|apply (each_returns _ (λ t t',
    twj_depth t' ≤ twj_depth t ∧ ops_depth t' ≤ ops_depth t)); intros; apply join_conditions_depth|].
  intros [from1 c1] HJ.
  assert (max_list_with twj_depth from1 ≤ max_list_with twj_depth from) as Hf1.
  { apply max_list_with_mono. eapply Forall2_impl; [exact HJ|]. cbn. lia. }
  assert (max_list_with ops_depth from1 ≤ max_list_with twj_depth from) as Ho1.
  { etrans; [apply (max_list_with_mono ops_depth from); eapply Forall2_impl; [exact HJ|]; cbn; lia|].
    apply max_list_with_lub. intros t Ht. etrans; [apply ops_depth_le|by apply max_list_with_le]. }
  eapply same_bind; [apply (each_depth_same _ _ twj_depth); [apply Hle; lia|apply derived_tables_same]
    |apply (each_returns _ (λ t t', ops_depth t' = ops_depth t)); intros; apply derived_tables_ops|].
  intros [from2 c2] HD.
  assert (max_list_with ops_depth from2 ≤ max_list_with twj_depth from) as Ho2.
  { etrans; [|exact Ho1]. apply max_list_with_mono. eapply Forall2_impl; [exact HD|]. cbn. lia. }
  apply same_then; [apply (each_opt_depth_same _ _ expr_depth); [apply Hle; lia|apply predicate_same]|].
  intros [sel c3].
  apply same_then; [apply (each_opt_depth_same _ _ expr_depth); [apply Hle; lia|apply predicate_same]|].
  intros [hav c4]. apply same_bind_l. intros _.
  apply same_then; [apply (each_depth_same _ _ (item_depth expr_depth)); [apply Hle; lia|]|].
  { intros [e|e alias|name r|r] Hi; try apply same_refl; by apply walk1_same, nested_same. }
  intros [pr c5].
  apply same_then; [destruct group_by as [r|es r]; [apply same_refl|]; cbn in Hle;
    apply walk1_same, (each_depth_same _ _ expr_depth); [apply Hle; lia|apply nested_same]|].
  intros [gr c6].
  apply same_then; [apply (each_depth_same _ _ ops_depth); [apply Hle; lia|apply join_expressions_same]|].
  intros [fr c7]. apply same_refl.
Qed.

Lemma insert_values_on insert columns :
  returns (rewrite_insert_values catalog rows escapes deref ks nonce insert columns)
    (λ p, in_on p.1 = in_on insert).
Proof. unfold rewrite_insert_values. ret; done. Qed.

Lemma insert_same i :
  agree (opt_max (on_depth expr_depth) (in_on i)) rq1 rq2 →
  same (rewrite_insert catalog rows trusted escapes deref ks nonce rq1 i)
       (rewrite_insert catalog rows trusted escapes deref ks nonce rq2 i).
Proof.
  intros Ha. unfold rewrite_insert. apply same_bind_l. intros [columns|]; [|apply same_refl].
  apply (same_bind _ _ _ _ (λ p, in_on p.1 = in_on i)); [apply same_refl| |].
  { destruct (bool_decide _); [ret; done|apply insert_values_on]. }
  intros [i' sealed] Hon. cbn [fst] in Hon. rewrite Hon.
  destruct (in_on i) as [[assignments|target|target assignments selection|rest]|];
    try apply same_refl.
  apply same_bind_l. intros [as' c]. apply same_then; [|intros [? ?]; apply same_refl].
  apply (each_opt_depth_same _ _ expr_depth); [|apply predicate_same].
  apply (agree_le _ _ _ _ Ha). cbn. lia.
Qed.

Lemma update_same u :
  agree (statement_depth (Update u)) rq1 rq2 →
  same (rewrite_update catalog rows trusted escapes deref ks nonce rq1 u)
       (rewrite_update catalog rows trusted escapes deref ks nonce rq2 u).
Proof.
  intros Ha. assert (∀ n, n ≤ statement_depth (Update u) → agree n rq1 rq2) as Hle
    by (intros n; by apply agree_le).
  cbn [statement_depth] in Hle. clear Ha. unfold rewrite_update. apply same_bind_l. intros columns.
  apply (same_bind _ _ _ _ (λ p, max_list_with (λ a, expr_depth (as_value a)) p.1 ≤
    max_list_with (λ a, expr_depth (as_value a)) (up_assignments u))); [apply same_refl| |].
  { destruct columns; [|ret; done]. apply (each_depth _ (λ a, expr_depth (as_value a))).
    intros a. apply seal_assignment_depth. }
  intros [assignments c1] Has. cbn [fst] in Has. apply same_then; [|intros [? ?]; apply same_refl].
  unfold update_walk. apply same_bind_l. intros sc.
  eapply same_bind; [apply same_refl|apply join_conditions_depth|].
  intros [target c2] [Ht _]. cbn [fst] in Ht.
  apply (same_bind _ _ _ _ (λ p, opt_max twj_depth p.1 ≤ opt_max twj_depth (up_from u)));
    [apply same_refl| |].
  { apply each_opt_depth. intros t. eapply returns_weaken; [apply join_conditions_depth|]. by intros ? [? _]. }
  intros [from c3] Hfrom. cbn [fst] in Hfrom.
  apply same_then; [apply (each_opt_depth_same _ _ expr_depth); [apply Hle; lia|apply predicate_same]|].
  intros [sel c4].
  apply same_then; [apply (each_depth_same _ _ (λ a, expr_depth (as_value a))); [apply Hle; lia|]|].
  { intros a Hx. by apply walk1_same, nested_same. }
  intros [as' c5]. apply same_then; [apply derived_tables_same, Hle; lia|]. intros [t' c6].
  apply same_then; [apply (each_opt_depth_same _ _ twj_depth); [apply Hle; lia|apply derived_tables_same]|].
  intros [? ?]. apply same_refl.
Qed.

Lemma delete_same d :
  agree (statement_depth (Delete d)) rq1 rq2 →
  same (rewrite_delete catalog trusted escapes deref ks rq1 d)
       (rewrite_delete catalog trusted escapes deref ks rq2 d).
Proof.
  intros Ha. assert (∀ n, n ≤ statement_depth (Delete d) → agree n rq1 rq2) as Hle
    by (intros n; by apply agree_le).
  cbn [statement_depth] in Hle. clear Ha. unfold rewrite_delete. apply same_bind_l. intros sc.
  apply same_then; [apply (each_opt_depth_same _ _ expr_depth); [apply Hle; lia|apply predicate_same]|].
  intros [sel c1].
  assert (∀ l, returns (rewrite_join_conditions catalog escapes deref ks sc l)
    (λ p, max_list_with twj_depth p.1 ≤ max_list_with twj_depth l)) as Hj.
  { intros l. apply each_depth. intros t. eapply returns_weaken; [apply join_conditions_depth|].
    by intros ? [? _]. }
  eapply same_bind; [apply same_refl|apply Hj|]. intros [from c2] Hf. cbn [fst] in Hf.
  eapply same_bind; [apply same_refl|apply each_opt_depth, Hj|]. intros [us c3] Hu. cbn [fst] in Hu.
  apply same_then; [apply (each_depth_same _ _ twj_depth); [|apply derived_tables_same]|].
  { apply Hle. destruct (de_from d); cbn in *; lia. }
  intros [fr c4].
  apply same_then; [apply (each_opt_depth_same _ _ (max_list_with twj_depth)); [apply Hle; lia|]|].
  { intros l Hl. apply (each_depth_same _ _ twj_depth); [done|apply derived_tables_same]. }
  intros [? ?]. apply same_refl.
Qed.

Lemma statement_same s :
  agree (statement_depth s) rq1 rq2 → same (rewrite_statement_with rq1 s) (rewrite_statement_with rq2 s).
Proof.
  intros Ha. destruct s as [i|u|q|d|src to rest|f rest|s rest|rest];
    cbn [Rewrite.rewrite_statement_with]; try apply same_refl.
  - apply walk1_same, insert_same, (agree_le _ _ _ _ Ha). cbn. lia.
  - by apply walk1_same, update_same.
  - by apply walk1_same, Ha.
  - by apply walk1_same, delete_same.
  - apply walk1_same. unfold rewrite_copy. destruct src as [name r|q]; [apply same_refl|].
    apply same_bind_l. intros found. apply same_bind_l. intros _.
    destruct to; [|apply same_refl]. by apply walk1_same, Ha.
Qed.

Fixpoint set_expr_same b {struct b} :
  agree (body_depth b) rq1 rq2 →
  same (rewrite_set_expr catalog rows trusted escapes deref ks nonce rq1 b)
       (rewrite_set_expr catalog rows trusted escapes deref ks nonce rq2 b).
Proof.
  destruct b as [s|q|l r rest|s|s|vs rest|sch name]; intros Ha; cbn [rewrite_set_expr];
    try apply same_refl.
  - by apply walk1_same, select_same.
  - by apply walk1_same, Ha.
  - apply walk2_same; apply set_expr_same, (agree_le _ _ _ _ Ha); cbn; lia.
  - by apply walk1_same, statement_same.
  - by apply walk1_same, statement_same.
Qed.

Lemma query_step_same q :
  (∀ r, query_depth r < query_depth q → same (rq1 r) (rq2 r)) →
  same (query_step rq1 q) (query_step rq2 q).
Proof.
  destruct q as [with_ body order_by rest]. intros Hr.
  assert (∀ n, S n ≤ query_depth (MkQuery with_ body order_by rest) → agree n rq1 rq2) as Hle.
  { intros n Hn r Hq. apply Hr. lia. }
  cbn [query_depth] in Hle. unfold Rewrite.query_step.
  apply same_then; [apply each_opt_same; intros [ctes r] ->; cbn in Hle; apply walk1_same|].
  { apply (each_depth_same _ _ (λ c, query_depth (cte_query c))); [apply Hle; cbn [fst]; lia|].
    intros c Hc. by apply walk1_same, Hc. }
  intros [w c]. apply same_then; [apply set_expr_same, Hle; lia|]. intros [b d].
  apply same_then; [apply each_opt_same; intros [keys r] ->; cbn in Hle; apply walk1_same|].
  { apply (each_depth_same _ _ (λ k, expr_depth (ob_expr k))); [apply Hle; cbn [fst]; lia|].
    intros k Hk. by apply walk1_same, nested_same. }
  intros [? ?]. apply same_refl.
Qed.

End agreement.

(** ** The fuel is enough *)

Lemma query_depth_pos q : 0 < query_depth q.
Proof. destruct q. cbn. lia. Qed.

Lemma rewrite_query_fuel_enough n m q :
  query_depth q ≤ n → query_depth q ≤ m → same (rewrite_query_fuel n q) (rewrite_query_fuel m q).
Proof.
  revert m q. induction n as [|n IH]; intros m q Hn Hm; pose proof (query_depth_pos q); [lia|].
  destruct m as [|m]; [lia|]. cbn [Rewrite.rewrite_query_fuel].
  apply query_step_same. intros r Hr. apply IH; lia.
Qed.

(** The walk over queries is the recursive function of the source: it satisfies the
    source's equation, in which [rewrite_query] calls itself on every query below, so
    the walk ends for every query and no bound on nesting is imposed. *)
Theorem rewrite_query_unfold q s :
  rewrite_query q s = query_step rewrite_query q s.
Proof.
  revert s. change (same (rewrite_query q) (query_step rewrite_query q)).
  unfold Rewrite.rewrite_query at 1. pose proof (query_depth_pos q).
  destruct (query_depth q) as [|n] eqn:En; [lia|]. cbn [Rewrite.rewrite_query_fuel].
  apply query_step_same. intros r Hr. apply rewrite_query_fuel_enough; lia.
Qed.

End walk.
