(* ===== verification/Walked.v ===== *)
(** * What every rewrite preserves

    A statement is rewritten by a handful of effects: a decision about a site, a
    recorded parameter, a sealing, an index. A relation between two runs that is kept
    by returning, by sequencing and by these effects is kept by the whole rewrite;
    [Rewriting] says what keeping means, and [rel_statement] is the theorem about the
    walk. The instances are the comparison of the two policies ([Decision]) and the
    invariants of one run ([Invariants]). *)

From S2P Require Import Prelude Sql Utf8 Crates Pgwire Errors Envelope RowKeys Fields Transform.
From S2P Require Import Policy Portal Rows Unprotected Catalog Rewrite WalkSpec.
Import Ast.

Definition under (policy : OnUnprotected) (c : WriteCatalog) : WriteCatalog := {|
  wc_tables := wc_tables c; wc_bare_names := wc_bare_names c;
  wc_read_columns := wc_read_columns c; wc_read_bare_names := wc_read_bare_names c;
  wc_on_unprotected := policy |}.

Lemma under_own c : under (wc_on_unprotected c) c = c.
Proof. by destruct c. Qed.

(** A relation between a run under one policy and a run under another that every
    step of a rewrite keeps. *)
Class Rewriting `{HexCrate, AeadCrate, HmacCrate, Ff1Crate, SqlParserCrate}
    (rel : ∀ A, W A → W A → Prop) (c : WriteCatalog) (p1 p2 : OnUnprotected)
    (deref : TransformPtr → bytes * DynTransform) (ks : KeySource) (nonce : nat → bytes) : Prop := {
  rel_mret A (a : A) : rel A (mret a) (mret a);
  rel_err A (e : Rejection) : rel A (lift (Err e)) (lift (Err e));
  rel_bind A B (m1 m2 : W A) (f1 f2 : A → W B) :
    rel A m1 m2 → (∀ a, rel B (f1 a) (f2 a)) → rel B (m1 ≫= f1) (m2 ≫= f2);
  rel_unprotected site : rel unit (unprotected (under p1 c) site) (unprotected (under p2 c) site);
  rel_record index action : rel unit (record_param index action) (record_param index action);
  rel_seal ptr p row :
    rel bytes (seal_with deref ks nonce ptr p row) (seal_with deref ks nonce ptr p row);
  rel_index ptr p :
    rel (option bytes) (search_index_with deref ks ptr p) (search_index_with deref ks ptr p);
}.

#[local] Set Default Proof Using "All".

Section rewriting.
Context `{HexCrate, AeadCrate, HmacCrate, Ff1Crate, Lowercase, SqlParserCrate}.
Context (c : WriteCatalog) (p1 p2 : OnUnprotected) (rows : option RowContext) (trusted escapes : bool).
Context (deref : TransformPtr → bytes * DynTransform) (ks : KeySource) (nonce : nat → bytes).
Context (rel : ∀ A, W A → W A → Prop) `{HR : !Rewriting rel c p1 p2 deref ks nonce}.

#[local] Abbreviation cw := (under p1 c).
#[local] Abbreviation cr := (under p2 c).
#[local] Abbreviation sim := (rel _).

Create HintDb sim.

Lemma sim_walk1 {A B} (f1 f2 : A → W (A * bool)) x (k : A → B) :
  sim (f1 x) (f2 x) → sim (walk1 f1 x k) (walk1 f2 x k).
Proof. intros Hf. apply rel_bind; [done|]. intros [? ?]. apply rel_mret. Qed.

Lemma sim_walk2 {A B} (f1 f2 : A → W (A * bool)) x y (k : A → A → B) :
  sim (f1 x) (f2 x) → sim (f1 y) (f2 y) → sim (walk2 f1 x y k) (walk2 f2 x y k).
Proof.
  intros Hx Hy. apply rel_bind; [done|]. intros [? ?]. apply rel_bind; [done|]. intros [? ?].
  apply rel_mret.
Qed.

Lemma sim_each {A} (f1 f2 : A → W (A * bool)) l :
  (∀ x, x ∈ l → sim (f1 x) (f2 x)) → sim (each f1 l) (each f2 l).
Proof.
  induction l as [|x l IH]; intros Hf; [apply rel_mret|]. cbn [each].
  apply rel_bind; [apply Hf; left|]. intros [? ?].
  apply rel_bind; [apply IH; intros y Hy; apply Hf; by right|]. intros [? ?]. apply rel_mret.
Qed.

Lemma sim_each_opt {A} (f1 f2 : A → W (A * bool)) o :
  (∀ x, o = Some x → sim (f1 x) (f2 x)) → sim (each_opt f1 o) (each_opt f2 o).
Proof.
  destruct o as [x|]; intros Hf; [|apply rel_mret]. apply rel_bind; [by apply Hf|].
  intros [? ?]. apply rel_mret.
Qed.

Lemma sim_for_each {A} (f1 f2 : A → W ()) l :
  (∀ x, sim (f1 x) (f2 x)) → sim (for_each f1 l) (for_each f2 l).
Proof.
  intros Hf. induction l as [|x l IH]; [apply rel_mret|]. cbn [for_each]. by apply rel_bind.
Qed.

Lemma sim_gather {A B} (f1 f2 : A → W (list B)) l :
  (∀ x, x ∈ l → sim (f1 x) (f2 x)) → sim (gather f1 l) (gather f2 l).
Proof.
  induction l as [|x l IH]; intros Hf; [apply rel_mret|]. cbn [gather].
  apply rel_bind; [apply Hf; left|]. intros xs.
  apply rel_bind; [apply IH; intros y Hy; apply Hf; by right|]. intros ys. apply rel_mret.
Qed.

Lemma sim_collect {A} (f1 f2 : A → list bytes → W (list bytes)) l found :
  (∀ x, x ∈ l → ∀ found, sim (f1 x found) (f2 x found)) → sim (collect f1 l found) (collect f2 l found).
Proof.
  revert found. induction l as [|x l IH]; intros found Hf; [apply rel_mret|]. cbn [collect].
  apply rel_bind; [apply Hf; left|]. intros found'. apply IH. intros y Hy. apply Hf. by right.
Qed.

(** Follows two runs of one function: the same branches, the same steps. *)
Ltac sim_step :=
  lazymatch goal with
  | |- sim (mret _) (mret _) => apply rel_mret
  | |- sim (_ ≫= _) (_ ≫= _) => apply rel_bind; [|intros ?]
  | |- sim (walk1 _ _ _) (walk1 _ _ _) => apply sim_walk1
  | |- sim (walk2 _ _ _ _) (walk2 _ _ _ _) => apply sim_walk2
  | |- sim (each _ _) (each _ _) => apply sim_each; intros ??
  | |- sim (each_opt _ _) (each_opt _ _) => apply sim_each_opt; intros ??
  | |- sim (for_each _ _) (for_each _ _) => apply sim_for_each; intros ?
  | |- sim (match ?x with _ => _ end) _ => destruct x
  | |- sim _ _ => solve [eauto with sim]
  end.
Ltac sims := repeat sim_step.

Lemma sim_err {A} (e : Rejection) : sim (lift (Err e) : W A) (lift (Err e)).
Proof. apply rel_err. Qed.
Lemma sim_unprotected site : sim (unprotected cw site) (unprotected cr site).
Proof. apply rel_unprotected. Qed.
Lemma sim_record index action : sim (record_param index action) (record_param index action).
Proof. apply rel_record. Qed.
Lemma sim_seal ptr p row :
  sim (seal_with deref ks nonce ptr p row) (seal_with deref ks nonce ptr p row).
Proof. apply rel_seal. Qed.
Lemma sim_index ptr p : sim (search_index_with deref ks ptr p) (search_index_with deref ks ptr p).
Proof. apply rel_index. Qed.
#[local] Hint Resolve sim_err sim_unprotected sim_record sim_seal sim_index : sim.

(** ** Lookups and scopes *)

(** The lookups do not see the policy. *)
Ltac blind :=
  repeat match goal with
  | |- context [?f (under ?p ?d)] =>
      lazymatch f with
      | @unprotected _ => fail
      | _ => progress change (f (under p d)) with (f d)
      end
  end.

Lemma sim_table name : sim (table cw trusted name) (table cr trusted name).
Proof. unfold table. blind. sims. Qed.
Lemma sim_reads name : sim (reads_protected cw trusted name) (reads_protected cr trusted name).
Proof. unfold reads_protected. blind. sims. Qed.
Lemma sim_scoped name : sim (scoped_table cw trusted name) (scoped_table cr trusted name).
Proof. unfold scoped_table. blind. sims. Qed.
#[local] Hint Resolve sim_table sim_reads sim_scoped : sim.

(** Induction over relations, into the relations of derived tables. *)
Section scopes.
Context (P : TableWithJoins → Prop) (Q : TableFactor → Prop).
Context (HP : ∀ r js, Q r → Forall (λ j, Q (jo_relation j)) js → P (MkTable r js)).
Context (HN : ∀ t rest, P t → Q (NestedJoin t rest)).
Context (HD : ∀ w pr from sel hav g r1 o r2 alias r3, Forall P from →
  Q (Derived (MkQuery w (BodySelect (MkSelect pr from sel hav g r1)) o r2) alias r3)).
Context (HQ : ∀ f, match f with
                   | NestedJoin _ _ | Derived (MkQuery _ (BodySelect _) _ _) _ _ => False
                   | _ => True
                   end → Q f).

Fixpoint scope_ind (t : TableWithJoins) : P t
with scope_factor_ind (f : TableFactor) : Q f.
Proof using HP HN HD HQ.
  - destruct t as [r js]. apply HP; [apply scope_factor_ind|].
    induction js as [|[f op rest] js IH]; constructor; [exact (scope_factor_ind f)|exact IH].
  - destruct f as [|q alias rest|t rest| | | |]; try (apply HQ; exact I).
    + destruct q as [w b o r]. destruct b as [[pr from sel hav g r1]| | | | | |]; try (apply HQ; exact I).
      apply HD. induction from as [|t from IH]; constructor; [exact (scope_ind t)|exact IH].
    + apply HN, scope_ind.
Qed.

End scopes.

Lemma sim_scope_of t : sim (scope_of cw trusted t) (scope_of cr trusted t).
Proof.
  apply (scope_ind (λ t, sim (scope_of cw trusted t) (scope_of cr trusted t))
    (λ f, sim (scope_factor cw trusted f) (scope_factor cr trusted f))).
  - intros r js Hr Hjs. cbn [scope_of]. rewrite Forall_forall in Hjs.
    sim_step; [done|]. sim_step; [|sims]. apply sim_gather. intros [f op rest] Hj. by apply (Hjs _ Hj).
  - done.
  - intros w pr from sel hav g r1 o r2 alias r3 Hf. cbn [scope_factor]. rewrite Forall_forall in Hf.
    sim_step; [|sims]. by apply sim_gather.
  - intros f. destruct f as [|[w [] o r] alias rest|t' rest| | | |]; cbn [scope_factor]; intros Hf;
      sims; done.
Qed.

Lemma sim_scope from : sim (scope cw trusted from) (scope cr trusted from).
Proof. apply sim_gather. intros t _. apply sim_scope_of. Qed.
#[local] Hint Resolve sim_scope : sim.

(** ** Sealing *)

Lemma sim_row_of row : sim (row_of cw row) (row_of cr row).
Proof. unfold row_of, row_key_missing. sims. Qed.
#[local] Hint Resolve sim_row_of : sim.

Lemma sim_seal_expr ptr col row e :
  sim (seal_expr cw escapes deref ks nonce ptr col row e) (seal_expr cr escapes deref ks nonce ptr col row e).
Proof. unfold seal_expr. sims. Qed.
#[local] Hint Resolve sim_seal_expr : sim.

Lemma sim_seal_row src ps row :
  sim (seal_row cw escapes deref ks nonce src ps row) (seal_row cr escapes deref ks nonce src ps row).
Proof. revert row. induction ps as [|[[pos ident] ptr] ps IH]; intros row; cbn [seal_row]; sims. Qed.
#[local] Hint Resolve sim_seal_row : sim.

Lemma sim_seal_rows q key reported ps vs :
  sim (seal_rows cw escapes deref ks nonce q key reported ps vs)
      (seal_rows cr escapes deref ks nonce q key reported ps vs).
Proof.
  revert reported. induction vs as [|row vs IH]; intros reported; cbn [seal_rows];
    unfold row_key_missing; sims.
Qed.
#[local] Hint Resolve sim_seal_rows : sim.

Lemma sim_insert_values i columns :
  sim (rewrite_insert_values cw rows escapes deref ks nonce i columns)
      (rewrite_insert_values cr rows escapes deref ks nonce i columns).
Proof. unfold rewrite_insert_values, row_key_missing. sims. Qed.
#[local] Hint Resolve sim_insert_values : sim.

Lemma sim_seal_elements target ps es :
  sim (seal_elements cw escapes deref ks nonce target ps es)
      (seal_elements cr escapes deref ks nonce target ps es).
Proof. revert es. induction ps as [|[[pos ident] ptr] ps IH]; intros es; cbn [seal_elements]; sims. Qed.
#[local] Hint Resolve sim_seal_elements : sim.

Lemma sim_assignment target a :
  sim (seal_assignment cw escapes deref ks nonce target a) (seal_assignment cr escapes deref ks nonce target a).
Proof. unfold seal_assignment, seal_tuple_assignment, signal. sims. Qed.

Lemma sim_assignments target l :
  sim (seal_assignments cw escapes deref ks nonce target l)
      (seal_assignments cr escapes deref ks nonce target l).
Proof. apply sim_each. intros a _. apply sim_assignment. Qed.
#[local] Hint Resolve sim_assignments : sim.

(** ** Predicates *)

Lemma sim_index_value ptr v : sim (index_value deref ks ptr v) (index_value deref ks ptr v).
Proof. unfold index_value, malformed. sims. Qed.
#[local] Hint Resolve sim_index_value : sim.

Lemma sim_index_values ptr l : sim (index_values deref ks ptr l) (index_values deref ks ptr l).
Proof. induction l as [|v l IH]; cbn [index_values]; sims. Qed.
#[local] Hint Resolve sim_index_values : sim.

Lemma sim_equality ptr a b :
  sim (rewrite_equality cw escapes deref ks ptr a b) (rewrite_equality cr escapes deref ks ptr a b).
Proof. unfold rewrite_equality. sims. Qed.

Lemma sim_in_list sc a l :
  sim (rewrite_in_list cw escapes deref ks sc a l) (rewrite_in_list cr escapes deref ks sc a l).
Proof. unfold rewrite_in_list. sims. Qed.

Lemma sim_unsupported sc e :
  sim (unsupported_predicate cw deref sc e) (unsupported_predicate cr deref sc e).
Proof. unfold unsupported_predicate. sims. Qed.
#[local] Hint Resolve sim_equality sim_in_list sim_unsupported : sim.

Lemma sim_selection sc e :
  sim (rewrite_selection cw escapes deref ks sc e) (rewrite_selection cr escapes deref ks sc e).
Proof.
  induction e as [e IH] using expr_children_ind.
  destruct e; cbn [rewrite_selection children expr_operands] in *; rewrite ?Forall_cons in IH;
    destruct_and?; sims.
Qed.
#[local] Hint Resolve sim_selection : sim.

Lemma sim_join_conditions sc t :
  sim (join_conditions_of cw escapes deref ks sc t) (join_conditions_of cr escapes deref ks sc t).
Proof.
  apply (relation_ind
    (λ t, sim (join_conditions_of cw escapes deref ks sc t) (join_conditions_of cr escapes deref ks sc t))
    (λ f, sim (rewrite_nested_join cw escapes deref ks sc f) (rewrite_nested_join cr escapes deref ks sc f))).
  - intros r js Hr Hjs. cbn [join_conditions_of]. sim_step; [done|]. destruct a as [r' d].
    sim_step; [|sims]. apply sim_each. intros [f op rest] Hj. sim_step; [apply (Hjs _ Hj)|].
    unfold join_condition. sims.
  - intros t' rest Ht. by apply sim_walk1.
  - intros f Hf. destruct f as [| |t1 rest1| | | |]; cbn; sims. by destruct (Hf t1 rest1).
Qed.
#[local] Hint Resolve sim_join_conditions : sim.

(** ** The walk *)

Section queries.
Context (rqw rqr : Query → W (Query * bool)) (Hrq : ∀ q, sim (rqw q) (rqr q)).
#[local] Hint Resolve Hrq : sim.

Lemma sim_nested e : sim (rewrite_nested_queries rqw e) (rewrite_nested_queries rqr e).
Proof.
  induction e as [e IH] using expr_children_ind.
  assert (∀ x, x ∈ children e → sim (rewrite_nested_queries rqw x) (rewrite_nested_queries rqr x)) as Hc
    by (by apply Forall_forall).
  destruct e as [| | | | | | | | | | | | | | | | | | | | | | |e0 l0 ?|l0|o cs rs el|[args ?|] ?| | |q|q|e q ?|];
    cbn [rewrite_nested_queries children expr_operands] in *;
    try solve [rewrite ?Forall_cons in IH; destruct_and?; sims].
  - apply rel_bind; [apply Hc; left|]. intros [? ?]. apply rel_bind; [|intros [? ?]; sims].
    apply sim_each. intros x Hx. apply Hc. by right.
  - apply rel_bind; [apply sim_each_opt; intros x ->; apply Hc; left|]. intros [? ?].
    apply rel_bind; [apply sim_each_opt; intros x ->; apply Hc, elem_of_app; right; left|].
    intros [? ?]. apply rel_bind; [apply sim_each; intros x Hx; apply Hc; set_solver|].
    intros [? ?]. apply rel_bind; [apply sim_each; intros x Hx; apply Hc; set_solver|].
    intros [? ?]. sims.
  - apply rel_bind; [|intros [? ?]; sims]. apply sim_each. intros a Ha.
    assert (∀ x, arg_expr a = Some x →
      sim (rewrite_nested_queries rqw x) (rewrite_nested_queries rqr x)) as Hx.
    { intros x Hx. apply Hc, list_elem_of_omap. by exists a. }
    destruct a as [[x|] ?|[x|] ?|[x|]]; sims; by apply Hx.
Qed.
#[local] Hint Resolve sim_nested : sim.

Lemma sim_predicate sc e :
  sim (rewrite_predicate cw escapes deref ks rqw sc e) (rewrite_predicate cr escapes deref ks rqr sc e).
Proof. unfold rewrite_predicate. sims. Qed.
#[local] Hint Resolve sim_predicate : sim.

Lemma sim_derived t : sim (derived_tables_of rqw t) (derived_tables_of rqr t).
Proof.
  apply (relation_ind (λ t, sim (derived_tables_of rqw t) (derived_tables_of rqr t))
    (λ f, sim (derived_tables_in rqw f) (derived_tables_in rqr f))).
  - intros r js Hr Hjs. cbn [derived_tables_of]. sim_step; [done|]. destruct a as [r' d].
    sim_step; [|sims]. apply sim_each. intros [f op rest] Hj. apply sim_walk1, (Hjs _ Hj).
  - intros t' rest Ht. by apply sim_walk1.
  - intros f Hf. destruct f as [| |t1 rest1| | | |]; cbn; sims. by destruct (Hf t1 rest1).
Qed.
#[local] Hint Resolve sim_derived : sim.

Lemma sim_select s :
  sim (rewrite_select cw trusted escapes deref ks rqw s) (rewrite_select cr trusted escapes deref ks rqr s).
Proof.
  unfold rewrite_select, rewrite_join_conditions, rewrite_derived_tables, check_projection,
    item_expression, group_by_expressions, join_expressions, join_condition. sims.
Qed.

(** The tables a COPY reads. *)
Lemma sim_record_copied name found :
  sim (record_copied_table cw trusted name found) (record_copied_table cr trusted name found).
Proof. unfold record_copied_table. sims. Qed.
#[local] Hint Resolve sim_record_copied : sim.

Fixpoint sim_copied q found {struct q} :
  sim (collect_copied_tables cw trusted q found) (collect_copied_tables cr trusted q found)
with sim_copied_in b found {struct b} :
  sim (collect_copied_tables_in cw trusted b found) (collect_copied_tables_in cr trusted b found)
with sim_copied_twj t found {struct t} :
  sim (collect_copied_tables_twj cw trusted t found) (collect_copied_tables_twj cr trusted t found)
with sim_copied_from f found {struct f} :
  sim (collect_copied_tables_from cw trusted f found) (collect_copied_tables_from cr trusted f found).
Proof.
  - destruct q as [[[ctes r]|] b o rest]; cbn [collect_copied_tables];
      (apply rel_bind; [|intros ?; apply sim_copied_in]); [|apply rel_mret].
    revert found. induction ctes as [|[q r'] ctes IH]; intros found; [apply rel_mret|].
    cbn [collect]. apply rel_bind; [apply sim_copied|exact IH].
  - destruct b as [[pr from sel hav g r1]|q|l r rest|s|s|vs rest|sch [name|]];
      cbn [collect_copied_tables_in]; try apply rel_mret; try apply sim_copied; try apply sim_record_copied.
    + revert found. induction from as [|t from IH]; intros found; [apply rel_mret|].
      cbn [collect]. apply rel_bind; [apply sim_copied_twj|exact IH].
    + apply rel_bind; [apply sim_copied_in|intros ?; apply sim_copied_in].
  - destruct t as [r js]. cbn [collect_copied_tables_twj].
    apply rel_bind; [apply sim_copied_from|]. clear found. intros found. revert found.
    induction js as [|[f op rest] js IH]; intros found; [apply rel_mret|].
    cbn [collect]. apply rel_bind; [apply sim_copied_from|exact IH].
  - destruct f; cbn [collect_copied_tables_from]; first
      [apply rel_mret | apply sim_record_copied | apply sim_copied | apply sim_copied_twj
      | apply sim_copied_from].
Qed.
#[local] Hint Resolve sim_copied sim_select : sim.

Lemma sim_update_walk u assignments :
  sim (update_walk cw trusted escapes deref ks rqw u assignments)
      (update_walk cr trusted escapes deref ks rqr u assignments).
Proof. unfold update_walk, assignment_queries. sims. Qed.
#[local] Hint Resolve sim_update_walk : sim.

Lemma sim_statement s :
  sim (rewrite_statement_with cw rows trusted escapes deref ks nonce rqw s)
      (rewrite_statement_with cr rows trusted escapes deref ks nonce rqr s).
Proof.
  destruct s; cbn [rewrite_statement_with]; unfold refuse_merge, refuse_prepare, refuse_write;
    try solve [sims].
  - apply sim_walk1. unfold rewrite_insert. blind. sims.
  - apply sim_walk1. unfold rewrite_update, update_columns. sims.
  - apply sim_walk1. unfold rewrite_delete, rewrite_join_conditions, rewrite_derived_tables. sims.
  - apply sim_walk1. unfold rewrite_copy, copied_protected_tables. sims.
Qed.
#[local] Hint Resolve sim_statement : sim.

Lemma sim_set_expr b :
  sim (rewrite_set_expr cw rows trusted escapes deref ks nonce rqw b)
      (rewrite_set_expr cr rows trusted escapes deref ks nonce rqr b).
Proof. revert b. fix IH 1. intros b. destruct b; cbn [rewrite_set_expr]; sims; apply IH. Qed.
#[local] Hint Resolve sim_set_expr : sim.

Lemma sim_query_step q :
  sim (query_step cw rows trusted escapes deref ks nonce rqw q)
      (query_step cr rows trusted escapes deref ks nonce rqr q).
Proof. unfold query_step. sims. Qed.

End queries.

Lemma sim_query_fuel n q :
  sim (rewrite_query_fuel cw rows trusted escapes deref ks nonce n q)
      (rewrite_query_fuel cr rows trusted escapes deref ks nonce n q).
Proof.
  revert q. induction n as [|n IH]; intros q; [apply rel_mret|]. by apply sim_query_step.
Qed.

Lemma rel_statement statement :
  sim (rewrite_statement cw rows trusted escapes deref ks nonce statement)
      (rewrite_statement cr rows trusted escapes deref ks nonce statement).
Proof. apply sim_statement. intros q. apply sim_query_fuel. Qed.

End rewriting.
