(* ===== verification/Decision.v ===== *)
(** * One decision point

    The two settings of [on_unprotected] differ in nothing but the decision: a
    rewrite that warns about no site under [Warn] does exactly the same under
    [Reject], and one that warns is refused under [Reject] with the message of the
    first site. *)

From S2P Require Import Prelude Sql Utf8 Crates Pgwire Errors Envelope RowKeys Fields Transform.
From S2P Require Import Policy Portal Rows Unprotected Catalog Rewrite WalkSpec Walked.
Import Ast.

Section sim.
Context `{SqlParserCrate}.

(** [warned] logs the sites it meets; [refused] stops at the first. *)
Definition sim {A} (warned refused : W A) : Prop :=
  ∀ s, ∃ sites, rw_log (warned s).2 = rw_log s ++ sites ∧
    match sites with
    | [] => refused s = warned s
    | site :: _ => (refused s).1 = Err (Refused (message site))
    end.

Lemma sim_bind {A B} (m1 m2 : W A) (f1 f2 : A → W B) :
  sim m1 m2 → (∀ a, sim (f1 a) (f2 a)) → sim (m1 ≫= f1) (m2 ≫= f2).
Proof.
  intros Hm Hf s. destruct (Hm s) as (sites & Hl & Hr). unfold mbind, M_bind.
  destruct (m1 s) as [[a|e] s1] eqn:E1; cbn [snd] in *.
  - destruct (Hf a s1) as (more & Hl' & Hr'). exists (sites ++ more).
    split; [by rewrite Hl', Hl, app_assoc|]. destruct sites as [|site sites]; cbn.
    + by rewrite Hr.
    + destruct (m2 s) as [[a2|e2] s2]; cbn in *; congruence.
  - exists sites. split; [done|]. destruct sites as [|site sites]; [by rewrite Hr|].
    destruct (m2 s) as [[a2|e2] s2]; cbn in *; congruence.
Qed.

(** A computation that decides nothing. *)
Definition quiet {A} (m : W A) : Prop := ∀ s, rw_log (m s).2 = rw_log s.

Lemma sim_quiet {A} (m : W A) : quiet m → sim m m.
Proof. intros Hq s. exists []. by rewrite Hq, app_nil_r. Qed.

Lemma sim_mret {A} (a : A) : sim (mret a) (mret a).
Proof. by apply sim_quiet. Qed.

Lemma sim_refused {A} (e : Rejection) : sim (lift (Err e) : W A) (lift (Err e)).
Proof. by apply sim_quiet. Qed.

Lemma sim_site c site :
  sim (unprotected (under Warn c) site) (unprotected (under Reject c) site).
Proof. intros s. by exists [site]. Qed.

End sim.

Section decision.
Context `{HexCrate, AeadCrate, HmacCrate, Ff1Crate, Lowercase, SqlParserCrate}.
Context (c : WriteCatalog) (rows : option RowContext) (trusted escapes : bool).
Context (deref : TransformPtr → bytes * DynTransform) (ks : KeySource) (nonce : nat → bytes).

#[local] Abbreviation cw := (under Warn c).
#[local] Abbreviation cr := (under Reject c).

(** ** What decides nothing *)

Lemma quiet_record index action : sim (record_param index action) (record_param index action).
Proof.
  apply sim_quiet. intros s. unfold record_param.
  destruct (record index action (rw_params s)) as [[?|[]] ?]; done.
Qed.

Lemma quiet_caches {A} (m : M PState Core.Error A) : sim (on_rw_caches m) (on_rw_caches m).
Proof. apply sim_quiet. intros s. unfold on_rw_caches. by destruct (m (rw_caches s)). Qed.

Lemma quiet_seal ptr p row :
  sim (seal_with deref ks nonce ptr p row) (seal_with deref ks nonce ptr p row).
Proof.
  apply sim_quiet. intros s. unfold seal_with. destruct (deref ptr) as [name t].
  unfold on_rw_caches. by destruct (on_transform _ _ _).
Qed.

Lemma quiet_index ptr p : sim (search_index_with deref ks ptr p) (search_index_with deref ks ptr p).
Proof. unfold search_index_with. destruct (deref ptr). apply quiet_caches. Qed.

#[local] Instance sim_rewriting : Rewriting (@sim _) c Warn Reject deref ks nonce.
Proof.
  split; intros; [apply sim_mret|apply sim_refused|by apply sim_bind|apply sim_site
    |apply quiet_record|apply quiet_seal|apply quiet_index].
Qed.

(** C14: the two policies are one rewrite with two endings. A statement rewritten under
    [Warn] either raises no site, and then [Reject] does exactly the same to it
    (the same statement, parameters, caches, error), or it raises some, and then
    [Reject] refuses it with the message of the first. *)
Theorem reject_is_warn_without_sites statement s :
  let warned := rewrite_statement cw rows trusted escapes deref ks nonce statement s in
  let refused := rewrite_statement cr rows trusted escapes deref ks nonce statement s in
  ∃ sites, rw_log warned.2 = rw_log s ++ sites ∧
    match sites with
    | [] => refused = warned
    | site :: _ => refused.1 = Err (Refused (message site))
    end.
Proof.
  cbv zeta. apply (rel_statement c Warn Reject rows trusted escapes deref ks nonce (@sim _)).
Qed.

End decision.
