(* ===== verification/PredicateSpec.v ===== *)
(** * A rewritten predicate selects the rows the client meant

    A protected column is stored as a blind index in front of an envelope, and the
    client compares it as if it held the plaintext. [truth] is SQL's three-valued
    meaning of the boolean skeleton of a predicate over one row; under [Reject], a
    predicate that is accepted means over the stored row, with the parameters Bind
    substitutes, what the client's predicate means over the plaintext row. *)

From S2P Require Import Prelude Sql Utf8 Crates Pgwire Errors Envelope RowKeys Fields Transform.
From S2P Require Import Policy Portal Rows RowsSpec Unprotected Catalog Rewrite WalkSpec.
Import Ast BlindIndex.

(** ** The meaning of a predicate *)

Definition and3 (a b : option bool) : option bool :=
  match a, b with
  | Some false, _ | _, Some false => Some false
  | Some true, Some true => Some true
  | _, _ => None
  end.
Definition not3 (a : option bool) : option bool := negb <$> a.
Definition or3 (a b : option bool) : option bool := not3 (and3 (not3 a) (not3 b)).
Definition bytes_equal (a b : bytes) : bool := bool_decide (a = b).
Definition eq3 (same : bytes → bytes → bool) (a b : option bytes) : option bool :=
  a ← a; b ← b; Some (same a b).
Definition in3 (same : bytes → bytes → bool) (v : option bytes) (l : list (option bytes)) : option bool :=
  foldr (λ x acc, or3 (eq3 same v x) acc) (Some false) l.

(** One row and one Bind: the columns, the scalar and the array parameters; [None]
    is NULL. *)
Record World := {
  w_col : Expr → option bytes;
  w_param : nat → option bytes;
  w_array : nat → option (list (option bytes));
}.

(** [substring(c from 1 for 32)] of a column. *)
Definition prefix_of (e : Expr) : option Expr :=
  match e with
  | Substring c (Some (EValue (Number one false))) (Some (EValue (Number len false))) false =>
      if bool_decide (one = b#"1") && bool_decide (len = b#"32") then Some c else None
  | _ => None
  end.

Definition is_column (e : Expr) : bool := bool_decide (is_Some (column_idents e)).

Lemma literal_plaintext_unwrap `{HexCrate} e f :
  literal_plaintext (unwrap_casts e) f = literal_plaintext e f.
Proof.
  unfold literal_plaintext.
  assert (unwrap_casts (unwrap_casts e) = unwrap_casts e) as -> by (induction e; done). done.
Qed.

(** What the server makes of a predicate's parts: how a literal compared with a
    column is read, the equality of the column's type, a cast of a value, and any
    predicate that is not a comparison of a column with values. *)
Record Meaning := {
  m_form : Expr → WireForm;
  m_same : Expr → bytes → bytes → bool;
  m_cast : opaque → bytes → bytes;
  m_other : World → Expr → option bool;
}.

Section meaning.
Context `{HexCrate}.

Definition is_value (e : Expr) : bool :=
  match as_placeholder e with
  | Some p => bool_decide (is_Some (placeholder_index p))
  | None => bool_decide (is_Some (literal_plaintext e WText))
  end.

Definition is_array_parameter (e : Expr) : bool :=
  bool_decide (is_Some (as_placeholder e ≫= placeholder_index)).

Section values.
Context (cast : opaque → bytes → bytes).

(** The number under a sign. *)
Fixpoint number_in (e : Expr) : option bytes :=
  match e with
  | Cast e to => cast to <$> number_in e
  | Nested e => number_in e
  | EValue (Number n _) => Some n
  | _ => None
  end.

(** The value an operand denotes: a cast is applied, and NULL stays NULL under it. *)
Fixpoint value_in (w : World) (f : WireForm) (e : Expr) : option bytes :=
  match e with
  | Cast e to => cast to <$> value_in w f e
  | Nested e => value_in w f e
  | EValue (Placeholder p) => i ← placeholder_index p; w_param w i
  | UnaryOp UnMinus e => cons "-"%byte <$> number_in e
  | UnaryOp UnPlus e => number_in e
  | _ => literal_plaintext e f
  end.

(** An array parameter: a cast of the array casts its elements. *)
Fixpoint array_in (w : World) (e : Expr) : option (list (option bytes)) :=
  match e with
  | Cast e to => map (option_map (cast to)) <$> array_in w e
  | Nested e => array_in w e
  | EValue (Placeholder p) => i ← placeholder_index p; w_array w i
  | _ => None
  end.

End values.

(** The values as they are without the casts written on them. *)
Definition uncast (_ : opaque) (v : bytes) : bytes := v.

Lemma unwrap_ind (P : Expr → Prop) :
  (∀ e to, P e → P (Cast e to)) → (∀ e, P e → P (Nested e)) →
  (∀ e, match e with Cast _ _ | Nested _ => False | _ => True end → P e) → ∀ e, P e.
Proof using Type. intros Hc Hn Hv e. induction e; auto. Qed.

Lemma number_in_uncast e :
  number_in uncast e = match unwrap_casts e with EValue (Number n _) => Some n | _ => None end.
Proof using Type.
  induction e as [e to IH|e IH|e E] using unwrap_ind; cbn; [rewrite IH|done|].
  - unfold uncast. by destruct (unwrap_casts e) as [| |[]| | | | | | | | | | | | | | | | | | | | | | | | | | | | | |].
  - by destruct e as [| |[]| | | | | | | | | | | | | | | | | | | | | | | | | | | | | |].
Qed.

(** ... which is how the rewrite takes them. *)
Lemma value_in_uncast w f e :
  value_in uncast w f e = match as_placeholder e with
                          | Some p => i ← placeholder_index p; w_param w i
                          | None => literal_plaintext e f
                          end.
Proof using Type.
  induction e as [e to IH|e IH|e E] using unwrap_ind; cbn [value_in].
  - rewrite IH. change (as_placeholder (Cast e to)) with (as_placeholder e).
    change (literal_plaintext (Cast e to) f) with (literal_plaintext e f).
    destruct (match as_placeholder e with Some _ => _ | None => _ end); done.
  - done.
  - destruct e as [| |[]| | | | |[]| | | | | | | | | | | | | | | | | | | | | | | | |];
      try done; cbn [value_in]; rewrite number_in_uncast; unfold literal_plaintext; cbn;
      by destruct (unwrap_casts _) as [| |[]| | | | | | | | | | | | | | | | | | | | | | | | | | | | | |].
Qed.

Lemma array_in_uncast w e :
  array_in uncast w e = p ← as_placeholder e; i ← placeholder_index p; w_array w i.
Proof using Type.
  induction e as [e to IH|e IH|e E] using unwrap_ind; cbn [array_in].
  - rewrite IH. change (as_placeholder (Cast e to)) with (as_placeholder e).
    destruct (p ← as_placeholder e; i ← placeholder_index p; w_array w i) as [l|]; [|done].
    cbn. f_equal. rewrite <- (list_fmap_id l) at 2. apply list_fmap_ext. by intros ? [].
  - done.
  - by destruct e as [| |[]| | | | | | | | | | | | | | | | | | | | | | | | | | | | | |].
Qed.

Context (m : Meaning).
#[local] Abbreviation denotes := (value_in (m_cast m)).
#[local] Abbreviation array_denotes := (array_in (m_cast m)).

(** A column or its index prefix: its value, how its other side is read, and how
    the two are compared. *)
Definition operand (w : World) (e : Expr) : option (option bytes * WireForm * (bytes → bytes → bool)) :=
  match prefix_of e with
  | Some c =>
      if is_column c then Some (take BLIND_INDEX_LEN <$> w_col w c, Bytea, bytes_equal) else None
  | None => if is_column e then Some (w_col w e, m_form m e, m_same m e) else None
  end.

Definition compare_to (w : World) (l r : Expr) : option (option bool) :=
  '(v, f, same) ← operand w l;
  if is_value r then Some (eq3 same v (denotes w f r)) else None.

Definition member_of (w : World) (c : Expr) (l : list Expr) : option (option bool) :=
  '(v, f, same) ← operand w c;
  if forallb is_value l then Some (in3 same v (denotes w f <$> l)) else None.

Definition member_of_array (w : World) (c array : Expr) : option (option bool) :=
  '(v, _, same) ← operand w c;
  if is_array_parameter array then Some (l ← array_denotes w array; in3 same v l) else None.

Fixpoint truth (w : World) (e : Expr) : option bool :=
  match e with
  | BinaryOp l BinAnd r => and3 (truth w l) (truth w r)
  | BinaryOp l BinOr r => or3 (truth w l) (truth w r)
  | Nested inner => truth w inner
  | UnaryOp UnNot inner => not3 (truth w inner)
  | BinaryOp l BinEq r =>
      match compare_to w l r with
      | Some t => t
      | None => match compare_to w r l with Some t => t | None => m_other m w e end
      end
  | InList c l negated =>
      match member_of w c l with
      | Some t => if negated then not3 t else t
      | None => m_other m w e
      end
  | AnyOp c BinEq (EArray l _) _ =>
      match member_of w c l with Some t => t | None => m_other m w e end
  | AnyOp c BinEq array _ =>
      match member_of_array w c array with Some t => t | None => m_other m w e end
  | _ => m_other m w e
  end.

(** The comparisons the skeleton joins. *)
Fixpoint atoms (e : Expr) : list Expr :=
  match e with
  | BinaryOp l BinAnd r | BinaryOp l BinOr r => atoms l ++ atoms r
  | Nested inner | UnaryOp UnNot inner => atoms inner
  | _ => [e]
  end.

(** The operands of an atom that may be columns, its values, and its array. *)
Definition subjects (a : Expr) : list Expr :=
  match a with
  | BinaryOp l BinEq r => [l; r]
  | InList c _ _ | AnyOp c BinEq _ _ => [c]
  | _ => []
  end.
Definition values (a : Expr) : list Expr :=
  match a with
  | BinaryOp l BinEq r => [l; r]
  | InList _ l _ | AnyOp _ BinEq (EArray l _) _ => l
  | _ => []
  end.
Definition arrays (a : Expr) : list Expr :=
  match a with
  | AnyOp _ BinEq (EArray _ _) _ => []
  | AnyOp _ BinEq array _ => [array]
  | _ => []
  end.

(** The values an atom compares a column with. *)
Definition compared (w : World) (a : Expr) : list bytes :=
  omap (denotes w Bytea) (values a) ++ (arrays a ≫= λ e, omap id (default [] (array_denotes w e))).

(** The casts written on an atom's values leave them as they are. *)
Definition casts_kept (w : World) (f : WireForm) (a : Expr) : Prop :=
  (∀ v, v ∈ values a → denotes w f v = value_in uncast w f v) ∧
  (∀ e, e ∈ arrays a → array_denotes w e = array_in uncast w e).

End meaning.

(** ** What the rewrite records *)

Lemma agrees_with_eq a b : agrees_with a b = true → a = b.
Proof. destruct a, b; cbn; try done; intros; case_bool; by subst. Qed.

Lemma record_Ok i a p p' :
  record i a p = (Ok tt, p') → (i, a) ∈ p' ∧ ∀ x, x ∈ p → x ∈ p'.
Proof.
  unfold record. destruct (list_find _ p) as [[j [i' a']]|] eqn:E.
  - apply list_find_Some in E as (Hj & Hi & _). cbn in Hi. subst i'.
    destruct (agrees_with a' a) eqn:Ea; [|done]. intros [= <-]. apply agrees_with_eq in Ea as ->.
    split; [by eapply list_elem_of_lookup_2|done].
  - intros [= <-]. set_solver.
Qed.

Lemma record_param_Ok i a s u s' :
  record_param i a s = (Ok u, s') →
  (i, a) ∈ rw_params s' ∧ (∀ x, x ∈ rw_params s → x ∈ rw_params s') ∧ rw_caches s' = rw_caches s.
Proof.
  unfold record_param. destruct (record i a _) as [[[]|[]] p'] eqn:Er; try done.
  intros [= _ <-]. by apply record_Ok in Er as [Hin Hsub].
Qed.

(** Nothing follows a refused site. *)
Lemma reject_stops `{SqlParserCrate} catalog {A} site (k : () → W A) s a s' :
  wc_on_unprotected catalog = Reject → (unprotected catalog site ≫= k) s ≠ (Ok a, s').
Proof. intros Hr. unfold unprotected. by rewrite Hr. Qed.

Section index.
Context `{HexCrate, AeadCrate, HmacCrate, Ff1Crate, !HexLaws, !AeadLaws, !HmacLaws, !Ff1Laws}.
Context `{SqlParserCrate}.
Context (K I : bytes → option bytes) (deref : TransformPtr → bytes * DynTransform) (ks : KeySource).
Context (Hks : source_ok K ks) (Hi : index_ok I ks).
Context (Hw : ∀ ptr, wired_to (deref ptr).1 (deref ptr).2).

(** Parameters are only added, and the caches stay sound. *)
Record advance (s s' : RState) : Prop := {
  adv_params x : x ∈ rw_params s → x ∈ rw_params s';
  adv_caches : pstate_ok K I (rw_caches s) → pstate_ok K I (rw_caches s');
}.

#[global] Instance advance_preorder : PreOrder advance.
Proof. split; [by split|]. intros a b c [Hp Hc] [Hp' Hc']. split; auto. Qed.

Lemma record_param_advance i a s u s' :
  record_param i a s = (Ok u, s') → advance s s' ∧ (i, a) ∈ rw_params s'.
Proof. intros (Hin & Hsub & Hc)%record_param_Ok. split; [split; [done|]|done]. by rewrite Hc. Qed.

Lemma searchable_is_encrypt ptr :
  searchable_at deref ptr = true →
  ∃ e, (deref ptr).2 = DynEncrypt e ∧ et_index_key_name e = Some (deref ptr).1.
Proof using Hw.
  unfold searchable_at, at_. specialize (Hw ptr). destruct (deref ptr) as [name [e|f|k]]; cbn in *; try done.
  unfold searchable. intros Hs. exists e. split; [done|]. destruct Hw as [_ [Hn|Hn]]; [|done].
  by rewrite Hn in Hs.
Qed.

Lemma searchable_bytea ptr : searchable_at deref ptr = true → wire (at_ deref ptr) = Bytea.
Proof using Hw. intros (e & He & _)%searchable_is_encrypt. unfold at_. by rewrite He. Qed.

(** The token of a searchable column is the blind index under its key. *)
Lemma search_index_token ptr p s o s' :
  searchable_at deref ptr = true → pstate_ok K I (rw_caches s) →
  search_index_with deref ks ptr p s = (Ok o, s') →
  advance s s' ∧ ∃ k, I (deref ptr).1 = Some k ∧ o = Some (compute k p).
Proof using All.
  intros Hs Hc. destruct (searchable_is_encrypt _ Hs) as (e & He & Hn).
  pose proof (Hw ptr) as Hwp. unfold search_index_with. destruct (deref ptr) as [name t].
  cbn in *. subst t. unfold on_rw_caches.
  pose proof (on_transform_ok K I name (search_index (DynEncrypt e) ks p) (rw_caches s) Hc) as Hok.
  destruct (on_transform name _ (rw_caches s)) as [[v|er] c] eqn:E; [|done].
  cbn [map_err]. intros [= <- <-]. cbn [snd] in Hok.
  split; [split; [done|]; intros _; apply Hok; intros t Ht; by eapply (dyn_tstate K I name _ ks [] p None)|].
  unfold on_transform in E. destruct (search_index _ ks p _) as [r t] eqn:Eb. injection E as -> _.
  change (blind_index e ks p {| ts_ciphers := ps_ciphers (rw_caches s);
    ts_key := ps_keys (rw_caches s) !! name |} = (Ok v, t)) in Eb.
  apply (blind_index_Ok I) in Eb; [|done|].
  - rewrite Hn in Eb. done.
  - intros n Hn'. rewrite Hn in Hn'. injection Hn' as <-. intros k. apply (pstate_keys K I _ Hc).
Qed.

Definition form_is (form : Expr → WireForm) (sc : TableScope) : Prop :=
  ∀ c ptr, column_ref sc c = Some ptr → form c = wire (at_ deref ptr).

(** ** The two worlds *)

(** The stored form of a value of an indexed column: its blind index, then the
    envelope. NULL is stored as NULL. *)
Definition stored_as (k : bytes) (plain stored : option bytes) : Prop :=
  match plain with
  | None => stored = None
  | Some p => ∃ envelope, stored = Some (prepend (compute k p) envelope)
  end.

(** The index of a compared value; NULL has none. *)
Definition index_of (k : bytes) (v : option bytes) : option bytes := compute k <$> v.

(** The row as the client thinks of it and as it is stored, and the Bind as the
    client sent it and as the proxy forwards it. *)
Record related (sc : TableScope) (params : ParamTransforms) (plain stored : World) : Prop := {
  rel_col c ptr k : column_ref sc c = Some ptr → I (deref ptr).1 = Some k →
    stored_as k (w_col plain c) (w_col stored c);
  rel_param i ptr k : (i, SearchIndex ptr) ∈ params → I (deref ptr).1 = Some k →
    w_param stored i = index_of k (w_param plain i);
  rel_array i ptr column k : (i, SearchIndexArray ptr column) ∈ params → I (deref ptr).1 = Some k →
    w_array stored i = map (index_of k) <$> w_array plain i;
}.

Lemma related_mono sc params params' plain stored :
  (∀ x, x ∈ params → x ∈ params') → related sc params' plain stored → related sc params plain stored.
Proof. intros Hp [Hc Ha Hr]. split; eauto. Qed.

(** ** One comparison *)

Context (m : Meaning).
#[local] Abbreviation denotes := (value_in (m_cast m)).
#[local] Abbreviation array_denotes := (array_in (m_cast m)).
#[local] Abbreviation taken := (value_in uncast).

(** No compared value shares its index with the column's without being equal. *)
Definition no_collision (sc : TableScope) (plain : World) (a : Expr) : Prop :=
  ∀ c ptr k p v, column_ref sc c = Some ptr → I (deref ptr).1 = Some k →
    w_col plain c = Some p → v ∈ compared m plain a → compute k p = compute k v → p = v.

Lemma eq3_index k plain stored x :
  stored_as k plain stored →
  (∀ p v, plain = Some p → x = Some v → compute k p = compute k v → p = v) →
  eq3 bytes_equal (take BLIND_INDEX_LEN <$> stored) (index_of k x) = eq3 bytes_equal plain x.
Proof.
  destruct plain as [p|]; cbn; [|by intros ->]. intros (env & ->) Hinj. cbn.
  unfold prepend. rewrite take_app_length' by (symmetry; apply hmac_length).
  destruct x as [v|]; [|done]. cbn. f_equal. apply bool_decide_ext. split; [by apply Hinj|by intros ->].
Qed.

Lemma in3_index k plain stored l :
  stored_as k plain stored →
  (∀ p v, plain = Some p → Some v ∈ l → compute k p = compute k v → p = v) →
  in3 bytes_equal (take BLIND_INDEX_LEN <$> stored) (map (index_of k) l) = in3 bytes_equal plain l.
Proof.
  intros Hst. induction l as [|x l IH]; intros Hinj; [done|]. cbn [map in3 foldr].
  rewrite (eq3_index k plain stored x Hst).
  - f_equal. apply IH. intros p v Hp Hv. apply Hinj; [done|by right].
  - intros p v Hp ->. apply Hinj; [done|left].
Qed.

(** The casts written on a value keep it, in both worlds. *)
Definition kept (plain stored : World) (v : Expr) : Prop :=
  denotes plain Bytea v = taken plain Bytea v ∧ denotes stored Bytea v = taken stored Bytea v.

(** A rewritten value denotes the index of the client's. *)
Lemma index_value_ok sc ptr k v s v' s' :
  searchable_at deref ptr = true → I (deref ptr).1 = Some k → pstate_ok K I (rw_caches s) →
  index_value deref ks ptr v s = (Ok v', s') →
  advance s s' ∧ is_value v' = true ∧
  ∀ plain stored, related sc (rw_params s') plain stored → kept plain stored v →
    denotes stored Bytea v' = index_of k (denotes plain Bytea v).
Proof using All.
  intros Hs HI Hc. unfold index_value, kept, is_value. setoid_rewrite value_in_uncast.
  destruct (as_placeholder v) as [ph|] eqn:Ep.
  - destruct (placeholder_index ph) as [i|] eqn:Ei; [|done].
    intros (u & s1 & E & [= <- <-])%M_bind_Ok. apply record_param_advance in E as [Ha Hin].
    rewrite Ep, Ei. split_and!; [done..|]. intros plain stored [_ Hp _] [-> ->]. cbn. by apply (Hp i ptr).
  - rewrite searchable_bytea by done. destruct (literal_plaintext v Bytea) as [p|]; [|done].
    intros (o & s1 & E & Hr)%M_bind_Ok. apply search_index_token in E as (Ha & k' & HI' & ->); [|done..].
    injection Hr as <- <-. assert (k' = k) as -> by congruence. split_and!; [done|done|].
    intros plain stored _ [-> _]. unfold bytea_literal. cbn [value_in].
    unfold literal_plaintext. cbn [unwrap_casts text_plaintext].
    rewrite (proj2 (strip_prefix_Some _ _ _) eq_refl). cbn [mbind option_bind].
    by rewrite hex_decode_encode.
Qed.

Lemma index_values_ok sc ptr k l s l' s' :
  searchable_at deref ptr = true → I (deref ptr).1 = Some k → pstate_ok K I (rw_caches s) →
  index_values deref ks ptr l s = (Ok l', s') →
  advance s s' ∧ forallb is_value l' = true ∧
  ∀ plain stored, related sc (rw_params s') plain stored → Forall (kept plain stored) l →
    map (denotes stored Bytea) l' = map (index_of k) (map (denotes plain Bytea) l).
Proof using All.
  intros Hs HI. revert s l' s'. induction l as [|v l IH]; intros s l' s' Hc; cbn [index_values].
  - by intros [= <- <-].
  - intros (v1 & s1 & Ev & (l1 & s2 & El & [= <- <-])%M_bind_Ok)%M_bind_Ok.
    apply (index_value_ok sc ptr k) in Ev as (Ha & Hv & Hval); [|done..].
    apply IH in El as (Hb & Hl & Hvals); [|by apply Ha].
    split_and!; [by trans s1|cbn; by rewrite Hv|].
    intros plain stored Hr [Hk Hks']%Forall_cons. cbn [map]. rewrite (Hvals plain stored) by done. f_equal.
    apply Hval; [|done]. eapply related_mono; [apply Hb|exact Hr].
Qed.

(** ** One predicate *)

Context (catalog : WriteCatalog) (escapes : bool) (sc : TableScope).
Context (Hreject : wc_on_unprotected catalog = Reject).
Context (Hkey : ∀ ptr, searchable_at deref ptr = true → is_Some (I (deref ptr).1)).
Context (Hform : form_is (m_form m) sc).
Context (Hsame : ∀ c ptr, column_ref sc c = Some ptr → searchable_at deref ptr = true →
  m_same m c = bytes_equal).

#[local] Abbreviation truth := (truth m).
#[local] Abbreviation operand := (operand m).

Lemma operand_column w c ptr :
  column_ref sc c = Some ptr → searchable_at deref ptr = true →
  operand w c = Some (w_col w c, Bytea, bytes_equal).
Proof using All.
  intros Hc Hs. pose proof (Hform c ptr Hc) as Hf. rewrite searchable_bytea in Hf by done.
  unfold PredicateSpec.operand. rewrite <- Hf, <- (Hsame c ptr) by done. destruct c; done.
Qed.

Lemma operand_prefix w c ptr :
  column_ref sc c = Some ptr →
  operand w (index_prefix c) = Some (take BLIND_INDEX_LEN <$> w_col w c, Bytea, bytes_equal).
Proof using Type. by destruct c. Qed.

Lemma operand_value w v : is_value v = true → operand w v = None.
Proof using Type. by destruct v. Qed.

Lemma indexable_is_value ptr v : indexable deref ptr v = true → is_value v = true.
Proof using Type.
  unfold indexable, is_value. destruct (as_placeholder v) as [p|]; [done|].
  rewrite literal_plaintext_unwrap. unfold literal_plaintext. intros H'. case_bool. apply bool_decide_eq_true. revert H'.
  destruct (unwrap_casts v) as [| |[]| | | | |[]| | | | | | | | | | | | | | | | | | | | | | | | |]; try done.
Qed.

Lemma equality_ok ptr c v s c' v' d s' :
  column_ref sc c = Some ptr → pstate_ok K I (rw_caches s) →
  rewrite_equality catalog escapes deref ks ptr c v s = (Ok (c', v', d), s') →
  advance s s' ∧ is_value v = true ∧ is_value v' = true ∧
  ∀ plain stored, related sc (rw_params s') plain stored → kept plain stored v →
    (∀ p x k, I (deref ptr).1 = Some k → w_col plain c = Some p → denotes plain Bytea v = Some x →
      compute k p = compute k x → p = x) →
    ∃ t, compare_to m stored c' v' = Some t ∧ compare_to m plain c v = Some t.
Proof using All.
  intros Hc Hp. unfold rewrite_equality.
  destruct (searchable_at deref ptr) eqn:Hs; [|by intros ?%(reject_stops catalog)].
  destruct (literal_agrees_with_server escapes v); [|by intros ?%(reject_stops catalog)].
  destruct (indexable deref ptr v) eqn:Hv; [|by intros ?%(reject_stops catalog)]. cbn [negb].
  intros (v1 & s1 & Ev & [= <- <- _ <-])%M_bind_Ok. destruct (Hkey ptr Hs) as [k Hk].
  destruct (index_value_ok sc ptr k v s v1 s1 Hs Hk Hp Ev) as (Ha & Hv1 & Hval).
  apply indexable_is_value in Hv. split_and!; [done..|]. intros plain stored Hr Hkp Hinj.
  unfold compare_to. rewrite (operand_prefix stored c ptr Hc), (operand_column plain c ptr Hc Hs).
  cbn -[value_in]. rewrite Hv, Hv1, (Hval plain stored Hr Hkp). eexists. split; [|done]. f_equal. apply eq3_index.
  - by eapply rel_col.
  - intros p x. by apply Hinj.
Qed.

Lemma in_list_ok c l s c' l' d s' :
  pstate_ok K I (rw_caches s) →
  rewrite_in_list catalog escapes deref ks sc c l s = (Ok (c', l', d), s') →
  advance s s' ∧
  ((c' = c ∧ l' = l ∧ ambiguous_column sc c = None ∧ protected_column (searchable_at deref) sc c = None) ∨
   ∀ plain stored, related sc (rw_params s') plain stored →
     (is_Some (column_ref sc c) → Forall (kept plain stored) l) →
     (∀ ptr p x k, column_ref sc c = Some ptr → I (deref ptr).1 = Some k → w_col plain c = Some p →
       x ∈ omap (denotes plain Bytea) l → compute k p = compute k x → p = x) →
     ∃ t, member_of m stored c' l' = Some t ∧ member_of m plain c l = Some t).
Proof using All.
  intros Hp. unfold rewrite_in_list. destruct (column_ref sc c) as [ptr|] eqn:Hc.
  - destruct (searchable_at deref ptr) eqn:Hs; [|by intros ?%(reject_stops catalog)].
    destruct (forallb (literal_agrees_with_server escapes) l); [|by intros ?%(reject_stops catalog)].
    destruct (bool_decide (l = []) || _) eqn:Hv; [by intros ?%(reject_stops catalog)|]. cbn [negb].
    apply orb_false_iff in Hv as [_ Hv]. apply negb_false_iff in Hv.
    assert (forallb is_value l = true) as Hv'.
    { revert Hv. clear. induction l as [|x l IH]; cbn; [done|].
      intros [Hx Hl]%andb_true_iff. by rewrite (indexable_is_value ptr x Hx), IH. }
    intros (l1 & s1 & Ev & [= <- <- _ <-])%M_bind_Ok. destruct (Hkey ptr Hs) as [k Hk].
    destruct (index_values_ok sc ptr k l s l1 s1 Hs Hk Hp Ev) as (Ha & Hv1 & Hval).
    split; [done|]. right. intros plain stored Hr Hkp Hinj.
    unfold member_of. rewrite (operand_prefix stored c ptr Hc), (operand_column plain c ptr Hc Hs).
    cbn -[value_in]. rewrite Hv', Hv1. eexists. split; [|done]. f_equal.
    change (in3 bytes_equal (take BLIND_INDEX_LEN <$> w_col stored c) (map (denotes stored Bytea) l1)
      = in3 bytes_equal (w_col plain c) (map (denotes plain Bytea) l)).
    rewrite (Hval plain stored Hr) by eauto. apply in3_index; [by eapply rel_col|].
    intros p x Hpl Hx. apply (Hinj ptr p x k); [done..|].
    apply list_elem_of_omap. apply list_elem_of_fmap in Hx as (y & Hy & Hin). eauto.
  - destruct (ambiguous_column sc c) eqn:Ha; [by intros ?%(reject_stops catalog)|].
    destruct (protected_column _ sc c) as [[n b]|] eqn:Hpr; [by intros ?%(reject_stops catalog)|].
    intros [= <- <- _ <-]. split; [done|]. by left.
Qed.

(** What the rewrite leaves alone means the same in both worlds. *)
Definition agree (plain stored : World) (a : Expr) : Prop :=
  ambiguous_operand sc a = None → protected_operand (searchable_at deref) sc a = None →
  truth stored a = truth plain a.

(** The casts written on what a protected column is compared with keep the value. *)
Definition faithful_casts (plain stored : World) (a : Expr) : Prop :=
  (∃ c, c ∈ subjects a ∧ is_Some (column_ref sc c)) →
  casts_kept m plain Bytea a ∧ casts_kept m stored Bytea a.

(** What the predicate's atoms are assumed to be. *)
Record sound_atom (plain stored : World) (a : Expr) : Prop := {
  sa_agree : agree plain stored a;
  sa_casts : faithful_casts plain stored a;
  sa_collision : no_collision sc plain a;
}.

Lemma faithful_kept plain stored a c :
  faithful_casts plain stored a → c ∈ subjects a → is_Some (column_ref sc c) →
  Forall (kept plain stored) (values a).
Proof using Type.
  intros Hf Hc Hr. destruct (Hf (ex_intro _ c (conj Hc Hr))) as [[Hp _] [Hs _]].
  apply Forall_forall. intros v Hv. split; auto.
Qed.

#[local] Abbreviation rewrite_selection := (rewrite_selection catalog escapes deref ks sc).

(** The claim about one predicate, with what the ones after it need. *)
Definition selects (e : Expr) : Prop := ∀ s e' c s',
  pstate_ok K I (rw_caches s) → rewrite_selection e s = (Ok (e', c), s') →
  advance s s' ∧ ∀ plain stored, related sc (rw_params s') plain stored →
    Forall (sound_atom plain stored) (atoms e) → truth stored e' = truth plain e.

Lemma selects_unsupported e :
  atoms e = [e] →
  rewrite_selection e = (_ ← unsupported_predicate catalog deref sc e; mret (e, false)) → selects e.
Proof using All.
  intros Ha He s e' c s' Hp. rewrite He. unfold unsupported_predicate.
  destruct (ambiguous_operand sc e) eqn:Eo; [by intros ?%(reject_stops catalog)|].
  destruct (protected_operand _ sc e) as [[n b]|] eqn:Ep; [by intros ?%(reject_stops catalog)|].
  intros [= <- _ <-]. split; [done|]. intros plain stored _ Hag. rewrite Ha in Hag.
  apply Forall_cons in Hag as [Hag _]. by apply Hag.
Qed.

Lemma selects_walk2 l r op (f : option bool → option bool → option bool) :
  selects l → selects r →
  rewrite_selection (BinaryOp l op r) = walk2 rewrite_selection l r (λ l r, BinaryOp l op r) →
  atoms (BinaryOp l op r) = atoms l ++ atoms r →
  (∀ w l r, truth w (BinaryOp l op r) = f (truth w l) (truth w r)) → selects (BinaryOp l op r).
Proof using All.
  intros Hl Hr He Ha Ht s e' c s' Hp. rewrite He, Ha.
  intros ([l' c1] & s1 & El & ([r' c2] & s2 & Er & [= <- _ <-])%M_bind_Ok)%M_bind_Ok.
  destruct (Hl _ _ _ _ Hp El) as [A1 T1]. destruct (Hr _ _ _ _ (adv_caches _ _ A1 Hp) Er) as [A2 T2].
  split; [by trans s1|]. intros plain stored Hrel [Hal Har]%Forall_app.
  rewrite !Ht. f_equal; [apply T1; [|done..]|by apply T2].
  eapply related_mono; [apply A2|exact Hrel].
Qed.

Lemma selects_walk1 e k (f : option bool → option bool) :
  selects e → rewrite_selection (k e) = walk1 rewrite_selection e k → atoms (k e) = atoms e →
  (∀ w e, truth w (k e) = f (truth w e)) → selects (k e).
Proof using All.
  intros IH He Ha Ht s e' c s' Hp. rewrite He, Ha.
  intros ([e1 c1] & s1 & E & [= <- _ <-])%M_bind_Ok. destruct (IH _ _ _ _ Hp E) as [A T].
  split; [done|]. intros plain stored Hrel Hag. rewrite !Ht. f_equal. by apply T.
Qed.

Lemma column_not_value c ptr : column_ref sc c = Some ptr → is_value c = false.
Proof using Type. by destruct c. Qed.

Lemma selects_eq l r : selects (BinaryOp l BinEq r).
Proof using All.
  destruct (column_ref sc l) as [ptr|] eqn:Hl; [|destruct (column_ref sc r) as [ptr|] eqn:Hr].
  - intros s e' c s' Hp. cbn [Rewrite.rewrite_selection]. rewrite Hl.
    intros ([[l' r'] d] & s1 & E & [= <- _ <-])%M_bind_Ok.
    destruct (equality_ok _ _ _ _ _ _ _ _ Hl Hp E) as (Ha & Hv & Hv' & Hc). split; [done|].
    intros plain stored Hrel [[_ Hca Hcl] _]%Forall_cons. cbn [PredicateSpec.truth].
    pose proof (faithful_kept _ _ _ l Hca ltac:(by left) ltac:(by rewrite Hl)) as Hkp. cbn in Hkp.
    apply Forall_cons in Hkp as [_ [Hkp _]%Forall_cons].
    destruct (Hc plain stored Hrel Hkp) as (t & -> & ->); [|done].
    intros p x k Hk Hpl Hx. apply (Hcl l ptr k); [done..|]. unfold compared.
    apply elem_of_app. left. apply list_elem_of_omap. exists r. split; [right; by left|done].
  - intros s e' c s' Hp. cbn [Rewrite.rewrite_selection]. rewrite Hl, Hr.
    intros ([[r' l'] d] & s1 & E & [= <- _ <-])%M_bind_Ok.
    destruct (equality_ok _ _ _ _ _ _ _ _ Hr Hp E) as (Ha & Hv & Hv' & Hc). split; [done|].
    intros plain stored Hrel [[_ Hca Hcl] _]%Forall_cons. cbn [PredicateSpec.truth].
    pose proof (faithful_kept _ _ _ r Hca ltac:(right; by left) ltac:(by rewrite Hr)) as Hkp. cbn in Hkp.
    apply Forall_cons in Hkp as [Hkp _].
    assert (∀ w x y, is_value x = true → compare_to m w x y = None) as Hno.
    { intros w x y Hx. unfold compare_to. by rewrite (operand_value w x Hx). }
    rewrite (Hno stored l'), (Hno plain l) by done. destruct (Hc plain stored Hrel Hkp) as (t & -> & ->); [|done].
    intros p x k Hk Hpl Hx. apply (Hcl r ptr k); [done..|]. unfold compared.
    apply elem_of_app. left. apply list_elem_of_omap. exists l. split; [by left|done].
  - apply selects_unsupported; [done|]. cbn [Rewrite.rewrite_selection]. by rewrite Hl, Hr.
Qed.

(** A membership whose column is not rewritten is left to the server. *)
Lemma selects_member e c l k :
  atoms e = [e] → values e = l → subjects e = [c] → e = k c l →
  rewrite_selection e = (
    '(c, l, d) ← rewrite_in_list catalog escapes deref ks sc c l; mret (k c l, d)) →
  predicate_operands e = Some (c, c) ∨ (∃ es b, predicate_operands e = Some (c, EArray es b)) →
  (∃ f, ∀ w c l, truth w (k c l) = match member_of m w c l with
                                   | Some t => f t | None => m_other m w (k c l) end) →
  selects e.
Proof using All.
  intros Ha Hva Hsu He Hrw Hops [f Ht] s e' d s' Hp. rewrite Hrw.
  intros ([[c' l'] b] & s1 & E & [= <- _ <-])%M_bind_Ok.
  destruct (in_list_ok _ _ _ _ _ _ _ Hp E) as [Hadv Hcase]. split; [done|].
  intros plain stored Hrel Hat. rewrite Ha in Hat. apply Forall_cons in Hat as [[Hag Hca Hcl] _].
  destruct Hcase as [(-> & -> & Hamb & Hpro)|Hm].
  - rewrite <- He. apply Hag.
    + unfold ambiguous_operand. destruct Hops as [-> | (es & b' & ->)]; cbn; by rewrite Hamb.
    + unfold protected_operand. destruct Hops as [-> | (es & b' & ->)]; cbn; by rewrite Hpro.
  - rewrite He, !Ht. destruct (Hm plain stored Hrel) as (t & -> & ->); [| |done].
    + intros Hc. rewrite <- Hva. apply (faithful_kept _ _ _ c Hca); [|done]. rewrite Hsu. by left.
    + intros ptr p x kk Hc Hk Hpl Hx. apply (Hcl c ptr kk); [done..|]. unfold compared.
      rewrite Hva. apply elem_of_app. by left.
Qed.

Lemma selects_array c array rest :
  (∀ es b, array ≠ EArray es b) → selects (AnyOp c BinEq array rest).
Proof using All.
  intros Hna. destruct (array_parameter deref sc c array) as [[i ptr]|] eqn:Hap.
  2:{ apply selects_unsupported; [done|]. cbn [Rewrite.rewrite_selection].
      destruct array; try (by rewrite Hap). by destruct (Hna elem named). }
  assert (rewrite_selection (AnyOp c BinEq array rest) =
    (_ ← record_param i (SearchIndexArray ptr (column_name_or_empty c));
     mret (AnyOp (index_prefix c) BinEq array rest, true))) as Hrw.
  { cbn [Rewrite.rewrite_selection]. destruct array; try (by rewrite Hap). by destruct (Hna elem named). }
  intros s e' d s' Hp. rewrite Hrw. intros (u & s1 & E & [= <- _ <-])%M_bind_Ok.
  apply record_param_advance in E as [Ha Hin]. split; [done|].
  intros plain stored Hrel [[_ Hca Hcl] _]%Forall_cons. unfold array_parameter in Hap.
  destruct (column_ref sc c) as [ptr'|] eqn:Hc; [|done]. cbn [mbind option_bind] in Hap.
  destruct (searchable_at deref ptr') eqn:Hs; [|done].
  destruct (as_placeholder array) as [ph|] eqn:Eph; [|done]. cbn [mbind option_bind] in Hap.
  destruct (placeholder_index ph) as [i'|] eqn:Ei; [|done]. injection Hap as -> ->.
  destruct (Hkey ptr Hs) as [k Hk].
  assert (∀ w x, truth w (AnyOp x BinEq array rest) =
    match member_of_array m w x array with
    | Some t => t | None => m_other m w (AnyOp x BinEq array rest) end) as Ht.
  { intros w x. destruct array; try done. }
  assert (arrays (AnyOp c BinEq array rest) = [array]) as Har by (by destruct array; try done; destruct (Hna elem named)).
  destruct Hca as [[_ Hkp] [_ Hks']]; [exists c; split; [by left|by rewrite Hc]|].
  rewrite Har in Hkp, Hks'. specialize (Hkp array ltac:(by left)). specialize (Hks' array ltac:(by left)).
  rewrite array_in_uncast, Eph in Hkp, Hks'. cbn [mbind option_bind] in Hkp, Hks'.
  rewrite Ei in Hkp, Hks'. cbn [mbind option_bind] in Hkp, Hks'.
  rewrite !Ht. unfold member_of_array.
  rewrite (operand_prefix stored c ptr Hc), (operand_column plain c ptr Hc Hs). cbn [mbind option_bind].
  rewrite Hkp, Hks'. unfold is_array_parameter. rewrite Eph. cbn [mbind option_bind]. rewrite Ei.
  rewrite (rel_array _ _ _ _ Hrel i ptr _ k Hin Hk).
  destruct (w_array plain i) as [l|] eqn:El; [|done]. cbn. apply in3_index; [by eapply rel_col|].
  intros p v Hpl Hv. apply (Hcl c ptr k); [done..|]. unfold compared. rewrite Har. apply elem_of_app. right.
  cbn. rewrite Hkp, app_nil_r. apply list_elem_of_omap. by exists (Some v).
Qed.

Lemma selects_all e : selects e.
Proof using All.
  induction e as [e IH] using expr_children_ind.
  destruct e as [| | | | |e| |op e| | | | | | |l op r|l op r rest| | | | | | | |c es neg| | | | | | | | |];
    try (by apply selects_unsupported); cbn [children expr_operands] in IH.
  - apply Forall_cons in IH as [IH _]. by apply (selects_walk1 e Nested id).
  - apply Forall_cons in IH as [IH _].
    destruct op; try (by apply selects_unsupported). by apply (selects_walk1 e (UnaryOp UnNot) not3).
  - apply Forall_cons in IH as [IHl IHr]. apply Forall_cons in IHr as [IHr _].
    destruct op; [apply selects_eq| | |by apply selects_unsupported].
    + by apply (selects_walk2 l r BinAnd and3).
    + by apply (selects_walk2 l r BinOr or3).
  - destruct op; try (by apply selects_unsupported).
    assert ((∀ es b, r ≠ EArray es b) ∨ ∃ es b, r = EArray es b) as [Hna|(es & b & ->)].
    { destruct r; eauto; left; by intros ? ?. }
    + by apply selects_array.
    + apply (selects_member _ l es (λ c es, AnyOp c BinEq (EArray es b) rest)); [done..| |by exists id].
      right. by exists es, b.
  - apply (selects_member _ c es (λ c es, InList c es neg)); [done..|by left|].
    by exists (λ t, if neg then not3 t else t).
Qed.

(** C5: a predicate that is accepted under [Reject] selects the rows the client meant.
    Over the stored row, in which an indexed column holds its blind index and the
    envelope, and with the compared parameters replaced by their indexes as Bind
    replaces them, the rewritten predicate has the truth value, true, false or
    unknown, of the client's predicate over the plaintext row, whatever the casts,
    the equality of the other columns and the other predicates mean; provided that
    what mentions no protected operand means the same in both worlds, that the casts
    written on a value compared with a protected column leave it as it is (the rewrite
    peels them), that equality of an indexed column is equality of bytes, and that no
    compared value collides with the column's. *)
Theorem predicate_rewrite_equivalent e s e' c s' plain stored :
  pstate_ok K I (rw_caches s) → rewrite_selection e s = (Ok (e', c), s') →
  related sc (rw_params s') plain stored →
  Forall (agree plain stored) (atoms e) → Forall (faithful_casts plain stored) (atoms e) →
  Forall (no_collision sc plain) (atoms e) →
  truth stored e' = truth plain e.
Proof using All.
  intros Hp E Hrel Hag Hca Hcl. destruct (selects_all e s e' c s' Hp E) as [_ Ht]. apply Ht; [done|].
  apply Forall_forall. intros a Ha. split; by eapply Forall_forall.
Qed.

End index.

(** ** Witnesses *)

Module PredicateExample.
Export RowsExample.
Import Toy.

Definition pointee (ptr : TransformPtr) : bytes * DynTransform := (name_ssn, DynEncrypt e_ssn).
Definition ssn : Expr := Identifier (ident_new b#"ssn").
Definition users_columns : Columns := {[ b#"ssn" := 0 ]}.
Definition users : TableScope := [{|
  sc_alias := None; sc_name := [b#"users"]; sc_columns := users_columns;
  sc_read_columns := {[ b#"ssn" ]} |}].
Definition refusing : WriteCatalog := {|
  wc_tables := {[ (b#"public", b#"users") := users_columns ]};
  wc_bare_names := {[ b#"users" ]};
  wc_read_columns := {[ (b#"public", b#"users") := {[ b#"ssn" ]} ]};
  wc_read_bare_names := {[ b#"users" ]}; wc_on_unprotected := Reject |}.
Definition start : RState := {| rw_params := []; rw_caches := cold; rw_drawn := 0; rw_log := [] |}.

(** [ssn = '000' OR ssn IN ($1)]. *)
Definition wanted : Expr :=
  BinaryOp (BinaryOp ssn BinEq (EValue (SingleQuotedString b#"000"))) BinOr
    (InList ssn [EValue (Placeholder b#"$1")] false).

Definition index_key : bytes := match index_ring name_ssn with Some k => k | None => [] end.
Definition as_sent : World := {|
  w_col _ := Some RowsExample.plain; w_param _ := Some RowsExample.plain; w_array _ := None |}.
Definition as_stored : World := {|
  w_col _ := Some (prepend (compute index_key RowsExample.plain) b#"envelope");
  w_param _ := Some (compute index_key RowsExample.plain); w_array _ := None |}.

Definition rewritten : result Rejection (Expr * bool) * RState :=
  rewrite_selection refusing false pointee source1 users wanted start.
Definition rewritten_expr : Expr := match rewritten.1 with Ok (e, _) => e | Err _ => ssn end.

(** Casts to two characters, as [varchar(2)] is. *)
Definition server : Meaning := {|
  m_form _ := Bytea; m_same _ := bytes_equal; m_cast _ := take 2; m_other _ _ := None |}.

Lemma predicate_rewrite_equivalent_witness :
  truth server as_stored rewritten_expr = truth server as_sent wanted ∧
  truth server as_sent wanted = Some true.
Proof.
  split; [|vm_compute; reflexivity].
  apply (predicate_rewrite_equivalent ring index_ring pointee source1 source1_ok source1_index
    (λ _, conj eq_refl (or_intror eq_refl)) server refusing false users eq_refl) with
    (s := start) (c := true) (s' := rewritten.2).
  - intros ptr _. vm_compute. by eexists.
  - by intros c ptr _.
  - done.
  - apply cold_ok.
  - apply with_state. vm_compute. reflexivity.
  - assert (∀ k, index_ring name_ssn = Some k → k = index_key) as Hk.
    { intros k Hk. unfold index_key. by rewrite Hk. }
    split; [intros c ptr k _ Hk'|intros i ptr k _ Hk'|done]; apply Hk in Hk' as ->;
      [by exists b#"envelope"|done].
  - repeat (apply Forall_cons; split; [|]); try apply Forall_nil; try done;
      intros _ Hp; vm_compute in Hp; discriminate Hp.
  - repeat (apply Forall_cons; split; [|]); try (by apply Forall_nil); intros _; split; split; intros v Hv;
      repeat (apply elem_of_cons in Hv as [->|Hv]; [vm_compute; reflexivity|]); by apply elem_of_nil in Hv.
  - assert (∀ a v, a ∈ atoms wanted → v ∈ compared server as_sent a → v = b#"000" ∨ v = RowsExample.plain) as Hv.
    { intros a v Ha Hv. repeat (apply elem_of_cons in Ha as [->|Ha];
        [repeat (apply elem_of_cons in Hv as [->|Hv]; [by vm_compute; auto|]);
         by apply elem_of_nil in Hv|]). by apply elem_of_nil in Ha. }
    apply Forall_forall. intros a Ha c ptr k p v _ Hk [= <-] Hin.
    destruct (Hv a v Ha Hin) as [-> | ->]; [|done].
    injection Hk as <-. intros Hc. vm_compute in Hc. discriminate Hc.
Defined.

End PredicateExample.
