(* ===== verification/Invariants.v ===== *)
(** * What a rewrite keeps true of the session's state

    Whatever the statement and whatever its outcome, a rewrite only adds parameters,
    assigns each of them once, keeps the caches of keys sound, and counts every nonce
    it draws. *)

From S2P Require Import Prelude Sql Utf8 Crates Pgwire Errors Envelope RowKeys Fields Transform.
From S2P Require Import Policy Portal Rows RowsSpec Unprotected Catalog Rewrite WalkSpec Walked PredicateSpec.
Import Ast.

(** A computation moves along [R], whether it succeeds or not. *)
Definition keeps (R : RState → RState → Prop) {A} (m : W A) : Prop := ∀ s, R s (m s).2.

Section keeps.
Context `{HexCrate, AeadCrate, HmacCrate, Ff1Crate, Lowercase, SqlParserCrate}.
Context (c : WriteCatalog) (rows : option RowContext) (trusted escapes : bool).
Context (deref : TransformPtr → bytes * DynTransform) (ks : KeySource) (nonce : nat → bytes).
Context (R : RState → RState → Prop) `{!PreOrder R}.
Context (Hwarn : ∀ site s, R s (warn site s)).
Context (Hrecord : ∀ i a s, R s (with_params (record i a (rw_params s)).2 s)).
Context (Hseal : ∀ ptr p row, keeps R (seal_with deref ks nonce ptr p row)).
Context (Hindex : ∀ ptr p, keeps R (search_index_with deref ks ptr p)).

Lemma keeps_mret {A} (a : A) : keeps R (mret a).
Proof. intros s. reflexivity. Qed.

Lemma keeps_bind {A B} (m : W A) (f : A → W B) :
  keeps R m → (∀ a, keeps R (f a)) → keeps R (m ≫= f).
Proof using All.
  intros Hm Hf s. unfold mbind, M_bind. specialize (Hm s). destruct (m s) as [[a|e] s1]; [|done].
  etrans; [exact Hm|apply Hf].
Qed.

Lemma keeps_unprotected site : keeps R (unprotected c site).
Proof using All. unfold unprotected. destruct (wc_on_unprotected c); intros s; [apply Hwarn|reflexivity]. Qed.

Lemma keeps_record i a : keeps R (record_param i a).
Proof using All.
  intros s. specialize (Hrecord i a s). unfold record_param.
  destruct (record i a (rw_params s)) as [[?|[]] ?]; done.
Qed.

#[local] Instance keeps_rewriting :
  Rewriting (λ A m _, keeps R m) c (wc_on_unprotected c) (wc_on_unprotected c) deref ks nonce.
Proof using All.
  split; intros; rewrite ?under_own; first [by apply keeps_bind | apply keeps_mret | by (intros s; reflexivity)
    | apply keeps_unprotected | apply keeps_record | apply Hseal | apply Hindex].
Qed.

(** The claim of [Rewriting] about one run. *)
Ltac one_run H := let Hr := fresh in pose proof H as Hr; cbv beta in Hr; by rewrite under_own in Hr.

#[local] Abbreviation rewrite_query := (rewrite_query c rows trusted escapes deref ks nonce).

Lemma keeps_query q : keeps R (rewrite_query q).
Proof using All.
  one_run (sim_query_fuel c _ _ rows trusted escapes deref ks nonce (λ A m _, keeps R m)
    (HR := keeps_rewriting) (query_depth q) q).
Qed.

Lemma keeps_statement statement :
  keeps R (rewrite_statement c rows trusted escapes deref ks nonce statement).
Proof using All.
  one_run (rel_statement c _ _ rows trusted escapes deref ks nonce (λ A m _, keeps R m)
    (HR := keeps_rewriting) statement).
Qed.

Lemma keeps_predicate sc e : keeps R (rewrite_predicate c escapes deref ks rewrite_query sc e).
Proof using All.
  one_run (sim_predicate c _ _ rows trusted escapes deref ks nonce (λ A m _, keeps R m)
    (HR := keeps_rewriting) rewrite_query rewrite_query keeps_query sc e).
Qed.

Lemma keeps_update_walk u assignments :
  keeps R (update_walk c trusted escapes deref ks rewrite_query u assignments).
Proof using All.
  one_run (sim_update_walk c _ _ rows trusted escapes deref ks nonce (λ A m _, keeps R m)
    (HR := keeps_rewriting) rewrite_query rewrite_query keeps_query u assignments).
Qed.

End keeps.

(** ** The invariants *)

Lemma record_grows i a p : ∀ x, x ∈ p → x ∈ (record i a p).2.
Proof.
  intros x Hx. unfold record. destruct (list_find _ p) as [[j [i' a']]|]; [by destruct (agrees_with a' a)|].
  cbn. set_solver.
Qed.

Lemma record_unique i a p : NoDup p.*1 → NoDup (record i a p).2.*1.
Proof.
  intros Hp. unfold record. destruct (list_find _ p) as [[j [i' a']]|] eqn:E.
  - by destruct (agrees_with a' a).
  - cbn. rewrite fmap_app. apply NoDup_app. split_and!; [done| |apply NoDup_singleton].
    intros x (y & -> & Hy)%list_elem_of_fmap Hx. apply list_elem_of_singleton in Hx.
    eapply list_find_None, Forall_forall in E; [|exact Hy]. by destruct y.
Qed.

Section invariants.
Context `{HexCrate, AeadCrate, HmacCrate, Ff1Crate, Lowercase, SqlParserCrate}.
Context `{!AeadLaws, !HmacLaws, !Ff1Laws}.
Context (K I : bytes → option bytes).

Context (deref : TransformPtr → bytes * DynTransform) (ks : KeySource) (nonce : nat → bytes).

(** What a run does to the caches, as the sequence of its calls of the transforms,
    with the nonces its seals are given: [effects used s s'] says that the run makes
    one seal for every element of [used], the seal for [j] under [nonce j]. *)
Inductive effects : list nat → RState → RState → Prop :=
  | effects_none s s' : rw_caches s' = rw_caches s → effects [] s s'
  | effects_seal j ptr p row s s' :
      rw_caches s' = (on_transform (deref ptr).1 (seal (deref ptr).2 ks (nonce j) p row) (rw_caches s)).2 →
      effects [j] s s'
  | effects_index ptr p s s' :
      rw_caches s' = (on_transform (deref ptr).1 (search_index (deref ptr).2 ks p) (rw_caches s)).2 →
      effects [] s s'
  | effects_then used used' s s1 s' :
      effects used s s1 → effects used' s1 s' → effects (used ++ used') s s'.

(** The nonces drawn between two counts. *)
Definition drawn_between (s s' : RState) : list nat := seq (rw_drawn s) (rw_drawn s' - rw_drawn s).

Lemma drawn_between_once s s' : NoDup (drawn_between s s').
Proof using Type. apply NoDup_seq. Qed.

(** One run: parameters are added, each position once; sound caches stay sound; every
    seal takes the next nonce of the counter, so no two take the same; the log is only
    extended. *)
Record evolves (s s' : RState) : Prop := {
  ev_params x : x ∈ rw_params s → x ∈ rw_params s';
  ev_once : NoDup (rw_params s).*1 → NoDup (rw_params s').*1;
  ev_caches : pstate_ok K I (rw_caches s) → pstate_ok K I (rw_caches s');
  ev_drawn : rw_drawn s ≤ rw_drawn s';
  ev_nonces : effects (drawn_between s s') s s';
  ev_log : rw_log s `prefix_of` rw_log s';
}.

Lemma effects_same s s' : rw_drawn s' = rw_drawn s → effects [] s s' → effects (drawn_between s s') s s'.
Proof using Type. unfold drawn_between. intros ->. by rewrite Nat.sub_diag. Qed.

#[global] Instance evolves_preorder : PreOrder evolves.
Proof using Type.
  split.
  - intros s. split; auto. by apply effects_same, effects_none.
  - intros a b c [] []. split; eauto; [lia| |by etrans].
    assert (drawn_between a c = drawn_between a b ++ drawn_between b c) as ->;
      [|by eapply effects_then].
    unfold drawn_between. replace (rw_drawn c - rw_drawn a) with ((rw_drawn b - rw_drawn a) + (rw_drawn c - rw_drawn b)) by lia.
    rewrite seq_app. do 2 f_equal. lia.
Qed.

Context (Hks : source_ok K ks) (Hi : index_ok I ks).
Context (Hw : ∀ ptr, wired_to (deref ptr).1 (deref ptr).2).

Lemma seal_evolves ptr p row : keeps evolves (seal_with deref ks nonce ptr p row).
Proof using All.
  intros s. pose proof (Hw ptr) as Hwp.
  pose proof (on_transform_ok K I (deref ptr).1 (seal (deref ptr).2 ks (nonce (rw_drawn s)) p row)
    (rw_caches s)) as Hok.
  pose proof (effects_seal (rw_drawn s) ptr p row s) as He.
  unfold seal_with, on_rw_caches. destruct (deref ptr) as [name t]. cbn in *.
  destruct (on_transform name _ (rw_caches s)) as [r caches]. cbn in *. split; cbn -[drawn_between]; auto.
  - intros Hc. apply Hok; [done|]. intros ts Hts.
    apply (dyn_tstate K I name t ks (nonce (rw_drawn s)) p row ts Hks Hi Hwp Hts).
  - unfold drawn_between. cbn [rw_drawn bump_drawn with_caches].
    replace (S (rw_drawn s) - rw_drawn s) with 1 by lia. by apply He.
Qed.

Lemma index_evolves ptr p : keeps evolves (search_index_with deref ks ptr p).
Proof using All.
  intros s. pose proof (Hw ptr) as Hwp.
  pose proof (on_transform_ok K I (deref ptr).1 (search_index (deref ptr).2 ks p) (rw_caches s)) as Hok.
  pose proof (effects_index ptr p s) as He.
  unfold search_index_with. destruct (deref ptr) as [name t]. unfold on_rw_caches. cbn in *.
  destruct (on_transform name _ (rw_caches s)) as [r caches]. cbn in *. split; cbn -[drawn_between]; auto.
  - intros Hc. apply Hok; [done|]. intros ts Hts. apply (dyn_tstate K I name t ks [] p None ts Hks Hi Hwp Hts).
  - apply effects_same; [done|]. by apply He.
Qed.

Context (c : WriteCatalog) (rows : option RowContext) (trusted escapes : bool).

Lemma statement_evolves statement s :
  evolves s (rewrite_statement c rows trusted escapes deref ks nonce statement s).2.
Proof using All.
  apply (keeps_statement c rows trusted escapes deref ks nonce evolves).
  - intros site s1. split; cbn -[drawn_between]; auto; [|by apply prefix_app_r]. by apply effects_same, effects_none.
  - intros i a s1. split; cbn -[drawn_between]; auto using record_grows, record_unique. by apply effects_same, effects_none.
  - apply seal_evolves.
  - apply index_evolves.
Qed.

(** C15: rewriting a statement, accepted or refused, under either policy, keeps the
    session's invariants: it forgets no parameter, transforms no parameter position
    twice, leaves every cached key one the key source answers for its name, and every
    seal it makes is given the next nonce that was not drawn yet: the nonces of its
    seals are those between the two states of the counter, each used once. *)
Theorem rewrite_keeps_invariants statement s :
  let s' := (rewrite_statement c rows trusted escapes deref ks nonce statement s).2 in
  evolves s s' ∧ NoDup (drawn_between s s').
Proof using All. split; [apply statement_evolves|apply drawn_between_once]. Qed.

End invariants.

(** ** Witnesses *)

Module InvariantsExample.
Import PredicateExample Toy.

(** A predicate of a DELETE: [DELETE FROM users WHERE ssn = '000' OR ssn IN ($1)]. *)
Definition delete_users : Statement := Delete {|
  de_from := WithFromKeyword [MkTable (Table [ident_new b#"users"] None []) []];
  de_using := None; de_selection := Some wanted; de_rest := [] |}.

Lemma rewrite_keeps_invariants_witness :
  evolves ring index_ring pointee source1 (λ _, nonce1) start
    (rewrite_statement refusing None true false pointee source1 (λ _, nonce1) delete_users start).2.
Proof.
  apply (rewrite_keeps_invariants ring index_ring pointee source1 (λ _, nonce1) source1_ok source1_index
    (λ _, conj eq_refl (or_intror eq_refl))).
Defined.

End InvariantsExample.
