(* ===== verification/SealSpec.v ===== *)
(** * What an accepted INSERT or UPDATE stores

    Under [Reject], every value an accepted statement assigns to a protected column
    is NULL, or a parameter whose sealing at Bind is recorded for the row, or a
    literal that was replaced by its sealed form; an INSERT or an UPDATE of any other
    shape is refused. *)

From S2P Require Import Prelude Sql Utf8 Crates Pgwire Errors Envelope RowKeys KeySpec Fields Transform.
From S2P Require Import Policy Portal Rows RowsSpec Unprotected Catalog Rewrite WalkSpec Walked.
From S2P Require Import PredicateSpec Invariants.
Import Ast.

(** ** Positions *)

Definition position_of (p : nat * Ident * TransformPtr) : nat := p.1.1.

(** The positions are those of the protected names of the list. *)
Definition places (columns : Columns) (idents : list Ident) (ps : list (nat * Ident * TransformPtr))
    : Prop :=
  NoDup (position_of <$> ps) ∧
  ∀ pos ident ptr, (pos, ident, ptr) ∈ ps ↔
    idents !! pos = Some ident ∧ columns !! normalize ident = Some ptr.

Lemma omap_imap_positions {A B} (f : nat * A → option B) (pos : B → nat) (l : list A) (g : nat → nat) :
  (∀ i x b, f (g i, x) = Some b → pos b = g i) → (∀ i j, g i = g j → i = j) →
  NoDup (pos <$> omap f (imap (λ i x, (g i, x)) l)).
Proof.
  revert g. induction l as [|x l IH]; intros g Hf Hg; [constructor|]. cbn.
  assert (NoDup (pos <$> omap f (imap (λ i x, (g (S i), x)) l))) as Hl
    by (apply (IH (λ i, g (S i))); [intros i y b; apply Hf|intros i j E; apply Hg in E; lia]).
  change (imap _ l) with (imap (λ i x, (g (S i), x)) l). destruct (f (g 0, x)) as [b|] eqn:E; [|done].
  cbn. constructor; [|done]. rewrite (Hf _ _ _ E).
  intros (b' & Hb & ([i y] & Hy & Eb)%list_elem_of_omap)%list_elem_of_fmap.
  apply list_elem_of_lookup in Hy as [k Hk]. rewrite list_lookup_imap in Hk.
  destruct (l !! k); [|done]. injection Hk as <- <-. rewrite (Hf _ _ _ Eb) in Hb. apply Hg in Hb. lia.
Qed.

Lemma imap_pair_elem {A} (l : list A) i x : (i, x) ∈ imap pair l ↔ l !! i = Some x.
Proof.
  rewrite list_elem_of_lookup. setoid_rewrite list_lookup_imap. split.
  - intros [k Hk]. destruct (l !! k) eqn:E; [|done]. by injection Hk as -> ->.
  - intros E. exists i. by rewrite E.
Qed.

Lemma protected_columns_places columns idents :
  places columns idents (protected_columns columns idents).
Proof.
  split.
  - apply (omap_imap_positions _ position_of idents id); [|done].
    intros i x [[pos ident] ptr]. cbn. destruct (columns !! _); [|done]. by intros [= <- <- <-].
  - intros pos ident ptr. unfold protected_columns. rewrite list_elem_of_omap. split.
    + intros ([i x] & Hi & E). apply imap_pair_elem in Hi. destruct (columns !! normalize x) eqn:Ec; [|done].
      by injection E as <- <- <-.
    + intros [Hi Hc]. exists (pos, ident). split; [by apply imap_pair_elem|]. by rewrite Hc.
Qed.

(** [es'] is [es] with the value at every listed position changed as [P] says, and
    the others as they were. *)
Definition updated (P : Ident → TransformPtr → Expr → Expr → Prop)
    (ps : list (nat * Ident * TransformPtr)) (es es' : list Expr) : Prop :=
  length es' = length es ∧
  ∀ pos e, es !! pos = Some e → ∃ e', es' !! pos = Some e' ∧
    (∀ ident ptr, (pos, ident, ptr) ∈ ps → P ident ptr e e') ∧
    (pos ∉ position_of <$> ps → e' = e).

Lemma updated_mono P Q ps es es' :
  (∀ ident ptr e e', P ident ptr e e' → Q ident ptr e e') → updated P ps es es' → updated Q ps es es'.
Proof.
  intros HPQ [Hl Hv]. split; [done|]. intros pos e He. destruct (Hv pos e He) as (e' & He' & Hp & Hn).
  exists e'. split_and!; [done| |done]. intros ident ptr Hin. by apply HPQ, Hp.
Qed.

Lemma updated_nil P es : updated P [] es es.
Proof. split; [done|]. intros pos e He. exists e. set_solver. Qed.

Lemma updated_skip P pos ident ptr ps es es' :
  es !! pos = None → updated P ps es es' → updated P ((pos, ident, ptr) :: ps) es es'.
Proof.
  intros E [Hl Hv]. split; [done|]. intros p e He. destruct (Hv p e He) as (e' & He' & Hp & Hn).
  exists e'. split_and!; [done| |set_solver].
  intros ident' ptr' [[= -> -> ->]|Hin]%elem_of_cons; [congruence|by eapply Hp].
Qed.

Lemma updated_cons P pos ident ptr ps es e1 e2 es' :
  es !! pos = Some e1 → P ident ptr e1 e2 → pos ∉ position_of <$> ps →
  updated P ps (<[pos := e2]> es) es' → updated P ((pos, ident, ptr) :: ps) es es'.
Proof.
  intros E1 H1 Hout [Hl Hv]. rewrite length_insert in Hl. split; [done|]. intros p e He.
  destruct (decide (p = pos)) as [->|Hne].
  - rewrite E1 in He. injection He as <-.
    destruct (Hv pos e2) as (e' & He' & _ & Hn); [apply list_lookup_insert_eq; by eapply lookup_lt_Some|].
    rewrite (Hn Hout) in *. exists e2. split_and!; [done| |set_solver].
    intros ident' ptr' [[= -> ->]|Hin]%elem_of_cons; [done|].
    destruct Hout. apply list_elem_of_fmap. by exists (pos, ident', ptr').
  - destruct (Hv p e) as (e' & He' & Hpv & Hn); [by rewrite list_lookup_insert_ne|].
    exists e'. split_and!; [done| |set_solver].
    intros ident' ptr' [[= -> -> ->]|Hin]%elem_of_cons; [done|by eapply Hpv].
Qed.

Section sealing.
Context `{HexCrate, AeadCrate, HmacCrate, Ff1Crate, Lowercase, SqlParserCrate}.
Context (catalog : WriteCatalog) (rows : option RowContext) (trusted escapes : bool).
Context (deref : TransformPtr → bytes * DynTransform) (ks : KeySource) (nonce : nat → bytes).
Context (Hreject : wc_on_unprotected catalog = Reject).

#[local] Abbreviation seal_expr := (seal_expr catalog escapes deref ks nonce).
#[local] Abbreviation seal_row := (seal_row catalog escapes deref ks nonce).
#[local] Abbreviation seal_rows := (seal_rows catalog escapes deref ks nonce).

(** ** One value *)

(** The literal a sealed value is written as. *)
Definition sealed_literal (ptr : TransformPtr) (sealed : bytes) : Expr :=
  match wire (at_ deref ptr) with
  | Bytea => bytea_literal sealed
  | WText => EValue (SingleQuotedString (from_utf8_lossy sealed))
  end.

(** The row a literal is sealed for: a row named by a parameter is known only at Bind. *)
Definition literal_row (row : RowKeySource) : option (option RowKey) :=
  match row with
  | SourceParam _ _ _ => None
  | SourceLiteral key => Some (Some key)
  | SourceNone => Some None
  end.

(** What a statement may assign to a protected column: [protected_value ptr row e e'],
    where the client wrote [e] and the server sees [e']. A placeholder that is no
    [$n] is one no Bind can supply. *)
Inductive protected_value (params : ParamTransforms) (ptr : TransformPtr) (row : RowKeySource)
    (e : Expr) : Expr → Prop :=
  | PNull : unwrap_casts e = EValue Null → protected_value params ptr row e e
  | PParam p i : as_placeholder e = Some p → placeholder_index p = Some i →
      (i, Seal ptr row) ∈ params → protected_value params ptr row e e
  | PUnbound p : as_placeholder e = Some p → placeholder_index p = None →
      protected_value params ptr row e e
  | PSealed plaintext key n s sealed s' :
      literal_plaintext e (wire (at_ deref ptr)) = Some plaintext → literal_row row = Some key →
      on_transform (deref ptr).1 (seal (at_ deref ptr) ks (nonce n) plaintext key) s = (Ok sealed, s') →
      protected_value params ptr row e (sealed_literal ptr sealed).

Lemma protected_value_mono params params' ptr row e e' :
  (∀ x, x ∈ params → x ∈ params') → protected_value params ptr row e e' →
  protected_value params' ptr row e e'.
Proof. intros Hp []; [by constructor|eapply PParam; eauto|by eapply PUnbound|by eapply PSealed]. Qed.

Definition grows (s s' : RState) : Prop := ∀ x, x ∈ rw_params s → x ∈ rw_params s'.

#[global] Instance grows_preorder : PreOrder grows.
Proof. split; [by intros a x|]. intros a b c Hab Hbc x Hx. by apply Hbc, Hab. Qed.

Lemma seal_with_Ok ptr p key s v s' :
  seal_with deref ks nonce ptr p key s = (Ok v, s') →
  rw_params s' = rw_params s ∧
  on_transform (deref ptr).1 (seal (at_ deref ptr) ks (nonce (rw_drawn s)) p key) (rw_caches s)
    = (Ok v, rw_caches s').
Proof.
  unfold seal_with, at_, on_rw_caches. destruct (deref ptr) as [name t]. cbn.
  destruct (on_transform name _ _) as [[v1|er] c1]; [|done]. by intros [= <- <-].
Qed.

(** The three kinds of value the sealing tells apart. *)
Lemma value_view (u : Expr) :
  (∃ p, u = EValue (Placeholder p)) ∨ u = EValue Null ∨
  ∀ T (f : bytes → T) a b,
    match u with EValue (Placeholder p) => f p | EValue Null => a | _ => b end = b.
Proof. destruct u as [| |[]| | | | | | | | | | | | | | | | | | | | | | | | | | | | | |]; eauto. Qed.

Lemma seal_expr_ok ptr col row e s e' d s' :
  seal_expr ptr col row e s = (Ok (e', d), s') →
  grows s s' ∧ protected_value (rw_params s') ptr row e e'.
Proof using All.
  unfold Rewrite.seal_expr. destruct (value_view (unwrap_casts e)) as [[p Eu]|[Eu|Hother]].
  - rewrite Eu. assert (as_placeholder e = Some p) as Hp by (unfold as_placeholder; by rewrite Eu).
    destruct (placeholder_index p) as [i|] eqn:Ei.
    + intros (u & s1 & E & [= <- _ <-])%M_bind_Ok. apply record_param_Ok in E as (Hin & Ha & _).
      split; [done|by eapply PParam].
    + intros [= <- _ <-]. split; [done|by eapply PUnbound].
  - rewrite Eu. intros [= <- _ <-]. split; [done|by constructor].
  - rewrite Hother. destruct (literal_agrees_with_server escapes e); [|by intros ?%(reject_stops catalog)].
    cbn [negb]. destruct (literal_plaintext e _) as [pt|] eqn:El; [|by intros ?%(reject_stops catalog)].
    destruct (literal_row row) as [key|] eqn:Er; [|by destruct row; try done; intros ?%(reject_stops catalog)].
    intros E. assert ((sealed ← seal_with deref ks nonce ptr pt key;
      mret (sealed_literal ptr sealed, true)) s = (Ok (e', d), s')) as E'
      by (by destruct row; try done; injection Er as <-).
    apply M_bind_Ok in E' as (sealed & s1 & Ew & [= <- _ <-]). apply seal_with_Ok in Ew as [Hp Ho].
    split; [intros x; by rewrite Hp|by eapply PSealed].
Qed.

(** ** One row *)

(** What the protected values of one VALUES row become. *)
Definition sealed_row (params : ParamTransforms) (src : RowKeySource)
    : list (nat * Ident * TransformPtr) → list Expr → list Expr → Prop :=
  updated (λ _ ptr e e', protected_value params ptr src e e').

Lemma sealed_row_mono params params' src ps row values :
  (∀ x, x ∈ params → x ∈ params') → sealed_row params src ps row values →
  sealed_row params' src ps row values.
Proof. intros Hp. apply updated_mono. intros _ ptr e e'. by apply protected_value_mono. Qed.

Lemma seal_row_ok src ps row s row' d s' :
  NoDup (position_of <$> ps) → seal_row src ps row s = (Ok (row', d), s') →
  grows s s' ∧ sealed_row (rw_params s') src ps row row'.
Proof using All.
  revert row s d. induction ps as [|[[pos ident] ptr] ps IH]; intros row s d Hnd; cbn [Rewrite.seal_row].
  - intros [= <- _ <-]. split; [done|apply updated_nil].
  - cbn in Hnd. apply NoDup_cons in Hnd as [Hout Hnd]. destruct (row !! pos) as [e0|] eqn:E0.
    + intros ([e1 c1] & s1 & E1 & ([row1 c2] & s2 & E2 & [= <- _ <-])%M_bind_Ok)%M_bind_Ok.
      apply seal_expr_ok in E1 as [G1 P1]. apply IH in E2 as [G2 R2]; [|done].
      split; [by trans s1|]. eapply updated_cons; [done| |done|done]. by eapply protected_value_mono.
    + intros E2. apply IH in E2 as [G2 R2]; [|done]. split; [done|by apply updated_skip].
Qed.

(** ** The VALUES list *)

(** The row a VALUES row is: the value of the row key among its columns, of a table
    that has one. *)
Definition values_row (key : option (ResolvedRowKey * nat)) (row : list Expr) (src : RowKeySource)
    : Prop :=
  match key with
  | None => src = SourceNone
  | Some (spec, pos) => (e ← row !! pos; row_key_source e spec) = Some src
  end.

Definition sealed_rows (params : ParamTransforms) (key : option (ResolvedRowKey * nat))
    (ps : list (nat * Ident * TransformPtr)) (vs vs' : list (list Expr)) : Prop :=
  Forall2 (λ row row', ∃ src, values_row key row src ∧ sealed_row params src ps row row') vs vs'.

Lemma sealed_rows_mono params params' key ps vs vs' :
  (∀ x, x ∈ params → x ∈ params') → sealed_rows params key ps vs vs' →
  sealed_rows params' key ps vs vs'.
Proof.
  intros Hp Hv. eapply Forall2_impl; [exact Hv|]. intros row row' (src & Hs & Hr).
  exists src. split; [done|by eapply sealed_row_mono].
Qed.

Lemma seal_rows_ok q key ps vs s vs' d s' :
  NoDup (position_of <$> ps) → seal_rows q key false ps vs s = (Ok (vs', d), s') →
  grows s s' ∧ sealed_rows (rw_params s') key ps vs vs'.
Proof using All.
  intros Hnd. revert s vs' d. induction vs as [|row vs IH]; intros s vs' d;
    cbn [Rewrite.seal_rows]; [intros [= <- _ <-]; split; [done|constructor]|].
  intros ([src rep] & s1 & E0 & ([row' c1] & s2 & E1 & ([vs1 c2] & s3 & E2 & [= <- _ <-])%M_bind_Ok)%M_bind_Ok)%M_bind_Ok.
  assert (values_row key row src ∧ rep = false ∧ s1 = s) as (Hsrc & -> & ->).
  { destruct key as [[spec pos]|]; [|by injection E0 as <- <- <-]. unfold values_row.
    destruct (row !! pos ≫= _) as [src'|]; [by injection E0 as <- <- <-|].
    by apply (reject_stops catalog) in E0. }
  apply seal_row_ok in E1 as [G1 R1]; [|done]. apply IH in E2 as [G2 R2].
  split; [by trans s2|]. constructor; [|done]. exists src. split; [done|by eapply sealed_row_mono].
Qed.

(** The row key of the target, if it has one, and its place in the column list. *)
Definition insert_key (insert : InsertOf Query Expr) (key : option (ResolvedRowKey * nat)) : Prop :=
  ∃ schema table_name, resolved_name (in_table_name insert) = Some (schema, table_name) ∧
    match row_key_spec rows schema table_name with
    | None => key = None
    | Some spec => ∃ pos, position (names_column (rk_name spec)) (in_columns insert) = Some pos ∧
                     key = Some (spec, pos)
    end.

(** What an accepted INSERT becomes, under the parameters recorded for it. *)
Definition protected_insert (params : ParamTransforms) (columns : Columns)
    (insert insert' : InsertOf Query Expr) : Prop :=
  let ps := protected_columns columns (in_columns insert) in
  (in_source insert' = in_source insert ∧ (ps = [] ∨ in_source insert = None)) ∨
  ∃ key with_ vs vs' rest order_by qrest,
    insert_key insert key ∧
    in_source insert = Some (MkQuery with_ (BodyValues vs rest) order_by qrest) ∧
    in_source insert' = Some (MkQuery with_ (BodyValues vs' rest) order_by qrest) ∧
    sealed_rows params key ps vs vs'.

(** The columns whose sealed values the VALUES list supplies. *)
Definition supplied_columns (columns : Columns) (insert : InsertOf Query Expr) : gset bytes :=
  match in_source insert with
  | Some (MkQuery _ (BodyValues _ _) _ _) =>
      list_to_set ((λ '(_, ident, _), normalize ident) <$> protected_columns columns (in_columns insert))
  | _ => ∅
  end.

Lemma insert_values_ok insert columns s insert' sealed s' :
  is_Some (resolved_name (in_table_name insert)) →
  rewrite_insert_values catalog rows escapes deref ks nonce insert columns s = (Ok (insert', sealed), s') →
  grows s s' ∧ protected_insert (rw_params s') columns insert insert' ∧
  in_table_name insert' = in_table_name insert ∧ in_columns insert' = in_columns insert ∧
  in_on insert' = in_on insert ∧ sv_columns sealed = supplied_columns columns insert.
Proof using All.
  intros [[schema name] Hn]. unfold rewrite_insert_values, protected_insert, supplied_columns.
  destruct (protected_columns_places columns (in_columns insert)) as [Hnd _]. case_bool_decide as Hps.
  { intros [= <- <- <-]. split_and!; try done; [left; by auto|]. rewrite Hps.
    by destruct (in_source insert) as [[? [] ? ?]|]. }
  destruct (in_source insert) as [[w b o r]|] eqn:Es; [|intros [= <- <- <-]; split_and!; auto; done].
  destruct b as [| | | | |vs rest|]; try (by intros ?%(reject_stops catalog)).
  rewrite Hn. cbv zeta. intros (u & s1 & E0 & ([vs' d] & s2 & E1 & [= <- <- <-])%M_bind_Ok)%M_bind_Ok.
  apply seal_rows_ok in E1 as [G1 R1]; [|done]. cbn [in_source set_source].
  assert (s1 = s ∧ insert_key insert (spec ← row_key_spec rows schema name;
    pos ← position (names_column (rk_name spec)) (in_columns insert); Some (spec, pos))) as [-> Hkey].
  { unfold insert_key. rewrite Hn.
    destruct (row_key_spec rows schema name) as [spec|] eqn:Esp;
      [|injection E0 as _ <-; split; [done|]; exists schema, name; by rewrite Esp]. cbn in E0 |- *.
    destruct (position _ _) as [pos|] eqn:Epos; [injection E0 as _ <-; split; [done|]|].
    - exists schema, name. rewrite Esp. split; [done|]. exists pos. by rewrite Epos.
    - unfold row_key_missing, unprotected in E0. by rewrite Hreject in E0. }
  split_and!; [done| |done..]. right. do 7 eexists. split_and!; [exact Hkey|done..|exact R1].
Qed.

(** ** Assignments *)

(** What an assignment assigns: the values, by position, to the protected names. *)
Definition assigned_values (a : Assignment Expr) : option (list Expr) :=
  match as_target a with
  | ColumnName _ => Some [as_value a]
  | TupleTarget names =>
      match as_value a with
      | Tuple exprs => if bool_decide (length exprs = length names) then Some exprs else None
      | Nested inner => if bool_decide (1 = length names) then Some [inner] else None
      | _ => None
      end
  end.

Definition assigned_names (columns : Columns) (a : Assignment Expr) : list (nat * Ident * TransformPtr) :=
  match as_target a with
  | ColumnName name => protected_names columns [name]
  | TupleTarget names => protected_names columns names
  end.

(** A protected value, or the sealed value of the same column that the VALUES list
    of the statement supplies. *)
Definition assigned_value (params : ParamTransforms) (target : AssignmentScope) (src : RowKeySource)
    (ident : Ident) (ptr : TransformPtr) (e e' : Expr) : Prop :=
  protected_value params ptr src e e' ∨
  e' = e ∧ re_stores_a_sealed_value target e (normalize ident) = true.

Definition sealed_assignment (params : ParamTransforms) (target : AssignmentScope)
    (a a' : Assignment Expr) : Prop :=
  as_target a' = as_target a ∧
  let ps := assigned_names (asc_columns target) a in
  (ps = [] ∧ a' = a) ∨
  ∃ src es es', asc_row target = Known src ∧ assigned_values a = Some es ∧
    assigned_values a' = Some es' ∧ updated (assigned_value params target src) ps es es'.

Lemma assigned_value_mono params params' target src ident ptr e e' :
  (∀ x, x ∈ params → x ∈ params') → assigned_value params target src ident ptr e e' →
  assigned_value params' target src ident ptr e e'.
Proof. intros Hp [Hv|Hv]; [left; by eapply protected_value_mono|by right]. Qed.

Lemma sealed_assignment_mono params params' target a a' :
  (∀ x, x ∈ params → x ∈ params') → sealed_assignment params target a a' →
  sealed_assignment params' target a a'.
Proof.
  intros Hp [Ht [?|(src & es & es' & Hr & Hv & Hv' & Hu)]]; (split; [done|]); [by left|right].
  exists src, es, es'. split_and!; [done..|]. eapply updated_mono; [|exact Hu].
  intros ident ptr e e'. by apply assigned_value_mono.
Qed.

Lemma row_of_Ok row s src s' : row_of catalog row s = (Ok src, s') → row = Known src ∧ s' = s.
Proof using All.
  destruct row as [src'|t c sh|t c]; cbn; [by intros [= <- <-]| |];
    by intros ?%(reject_stops catalog).
Qed.

Lemma seal_elements_ok target ps es s es' d s' :
  NoDup (position_of <$> ps) →
  seal_elements catalog escapes deref ks nonce target ps es s = (Ok (es', d), s') →
  grows s s' ∧ (ps ≠ [] → ∃ src, asc_row target = Known src) ∧
  ∀ src, asc_row target = Known src → updated (assigned_value (rw_params s') target src) ps es es'.
Proof using All.
  revert es s d. induction ps as [|[[pos ident] ptr] ps IH]; intros es s d Hnd; cbn [seal_elements].
  - intros [= <- _ <-]. split_and!; [done..|]. intros src _. apply updated_nil.
  - cbn in Hnd. apply NoDup_cons in Hnd as [Hout Hnd].
    intros (src & s0 & [Hrow ->]%row_of_Ok & E)%M_bind_Ok. destruct (es !! pos) as [e0|] eqn:E0.
    + destruct (re_stores_a_sealed_value target e0 (normalize ident)) eqn:Ers.
      * apply IH in E as (G & _ & R); [|done]. split_and!; [done|by eauto|].
        intros src' Hs'. eapply (updated_cons _ pos ident ptr ps es e0 e0); [done|by right|done|].
        rewrite list_insert_id by done. by apply R.
      * apply M_bind_Ok in E as ([e1 c1] & s1 & E1 & ([es1 c2] & s2 & E2 & [= <- _ <-])%M_bind_Ok).
        apply seal_expr_ok in E1 as [G1 P1]. apply IH in E2 as (G2 & _ & R2); [|done].
        split_and!; [by trans s1|by eauto|]. intros src' Hs'. rewrite Hs' in Hrow. injection Hrow as ->.
        eapply updated_cons; [done| |done|by apply R2]. left. by eapply protected_value_mono.
    + apply IH in E as (G & _ & R); [|done]. split_and!; [done|by eauto|].
      intros src' Hs'. apply updated_skip; [done|by apply R].
Qed.

Lemma protected_names_nodup columns names : NoDup (position_of <$> protected_names columns names).
Proof.
  apply (omap_imap_positions _ position_of names id); [|done].
  intros i x [[pos ident] ptr]. cbn. destruct (last x) as [id'|]; cbn; [|done].
  destruct (columns !! _); cbn; [|done]. by intros [= <- <- <-].
Qed.

Lemma signal_stops {A} site ps (k : () → W A) s r s' :
  ps ≠ [] → (signal catalog site ps ≫= k) s ≠ (Ok r, s').
Proof using All.
  destruct ps as [|[[pos ident] ptr] ps]; [done|]. intros _. unfold signal. cbn [for_each].
  unfold unprotected. by rewrite Hreject.
Qed.

Lemma seal_assignment_ok target a s a' d s' :
  seal_assignment catalog escapes deref ks nonce target a s = (Ok (a', d), s') →
  grows s s' ∧ sealed_assignment (rw_params s') target a a'.
Proof using All.
  unfold seal_assignment, sealed_assignment, assigned_values, assigned_names.
  destruct (as_target a) as [name|names] eqn:Et.
  - unfold protected_names. cbn. destruct (last name) as [ident|]; cbn; [|intros [= <- _ <-]; split; [done|]; split; [done|by left]].
    destruct (asc_columns target !! normalize ident) as [ptr|]; cbn; [|intros [= <- _ <-]; split; [done|]; split; [done|by left]].
    intros (src & s0 & [Hrow ->]%row_of_Ok & E)%M_bind_Ok.
    destruct (re_stores_a_sealed_value target (as_value a) (normalize ident)) eqn:Ers.
    + injection E as <- _ <-. split; [done|]. split; [done|]. right. exists src, [as_value a], [as_value a].
      rewrite Et. split_and!; [done..|].
      eapply updated_cons; [done|by right|set_solver|]. apply updated_nil.
    + apply M_bind_Ok in E as ([v c1] & s1 & [G P]%seal_expr_ok & [= <- _ <-]).
      split; [done|]. split; [done|]. right. exists src, [as_value a], [v]. cbn.
      split_and!; [done..|]. eapply updated_cons; [done|by left|set_solver|]. apply updated_nil.
  - pose proof (protected_names_nodup (asc_columns target) names) as Hnd.
    intros ([v c1] & s1 & E & [= <- _ <-])%M_bind_Ok. cbn. unfold seal_tuple_assignment in E.
    case_bool_decide as Hps.
    { injection E as <- _ <-. split; [done|]. split; [done|]. left. split; [done|]. by destruct a; cbn in *; subst. }
    destruct (as_value a) as [| | | | |inner| | | | | | | | | | | | | | | | | | |exprs| | | | | | | |] eqn:Ev;
      try (by apply signal_stops in E).
    + case_bool_decide as Hlen; [|by apply signal_stops in E].
      apply M_bind_Ok in E as ([es c2] & s2 & (G & Hk & U)%seal_elements_ok & [= <- _ <-]); [|done].
      destruct (Hk Hps) as [src Hsrc]. specialize (U src Hsrc). split; [done|]. split; [done|]. right.
      exists src, [inner], es. pose proof (proj1 U) as Hl.
      destruct es as [|x [|y es]]; done.
    + case_bool_decide as Hlen; [|by apply signal_stops in E].
      apply M_bind_Ok in E as ([es c2] & s2 & (G & Hk & U)%seal_elements_ok & [= <- _ <-]); [|done].
      destruct (Hk Hps) as [src Hsrc]. specialize (U src Hsrc). split; [done|]. split; [done|]. right.
      exists src, exprs, es. pose proof (proj1 U) as Hl.
      rewrite bool_decide_true by congruence. done.
Qed.

Lemma seal_assignments_ok target l s l' d s' :
  seal_assignments catalog escapes deref ks nonce target l s = (Ok (l', d), s') →
  grows s s' ∧ Forall2 (sealed_assignment (rw_params s') target) l l'.
Proof using All.
  unfold seal_assignments. revert s l' d. induction l as [|a l IH]; intros s l' d; cbn [each].
  - intros [= <- _ <-]. by split.
  - intros ([a1 c1] & s1 & [G1 S1]%seal_assignment_ok & ([l1 c2] & s2 & E2 & [= <- _ <-])%M_bind_Ok)%M_bind_Ok.
    apply IH in E2 as [G2 S2]. split; [by trans s1|]. constructor; [by eapply sealed_assignment_mono|done].
Qed.

(** ** The rest of the statement *)

#[local] Abbreviation rewrite_query := (rewrite_query catalog rows trusted escapes deref ks nonce).

Lemma seal_with_grows ptr p row : keeps grows (seal_with deref ks nonce ptr p row).
Proof.
  intros s. unfold seal_with. destruct (deref ptr) as [name t]. unfold on_rw_caches.
  destruct (on_transform name _ _). by intros x Hx.
Qed.

Lemma index_grows ptr p : keeps grows (search_index_with deref ks ptr p).
Proof.
  intros s. unfold search_index_with. destruct (deref ptr) as [name t]. unfold on_rw_caches.
  destruct (on_transform name _ _). by intros x Hx.
Qed.

Lemma predicate_grows sc e : keeps grows (rewrite_predicate catalog escapes deref ks rewrite_query sc e).
Proof using All.
  apply keeps_predicate;
    [apply _|by intros ? ? ?|intros i a s x Hx; by apply record_grows|apply seal_with_grows|apply index_grows].
Qed.

Lemma opt_predicate_grows sc o s r s' :
  each_opt (rewrite_predicate catalog escapes deref ks rewrite_query sc) o s = (Ok r, s') → grows s s'.
Proof using All.
  destruct o as [e|]; [|by intros [= _ <-]]. intros ([e' d] & s1 & E & [= _ <-])%M_bind_Ok.
  pose proof (predicate_grows sc e s) as Hg. by rewrite E in Hg.
Qed.

Lemma update_walk_grows u assignments :
  keeps grows (update_walk catalog trusted escapes deref ks rewrite_query u assignments).
Proof using All.
  apply keeps_update_walk;
    [apply _|by intros ? ? ?|intros i a s x Hx; by apply record_grows|apply seal_with_grows|apply index_grows].
Qed.

(** A value that holds no query is left alone by the walk over queries. *)
Definition inert (e : Expr) : Prop := ∃ v, unwrap_casts e = EValue v.

Lemma inert_unchanged rq e s : inert e → rewrite_nested_queries rq e s = (Ok (e, false), s).
Proof.
  intros [v Hv]. induction e; cbn in Hv; try done; cbn [rewrite_nested_queries];
    unfold walk1, mbind, M_bind; by rewrite IHe.
Qed.

Lemma protected_inert params ptr src e e' : protected_value params ptr src e e' → inert e'.
Proof.
  assert (∀ p, as_placeholder e = Some p → inert e) as Hph.
  { unfold as_placeholder, inert. intros p. destruct (unwrap_casts e); naive_solver. }
  intros [Hn|p i Hp _ _|p Hp _|pt key n s1 sealed s2 _ _ _]; [by exists Null|by eapply Hph..|].
  unfold sealed_literal, inert. destruct (wire _); cbn; eauto.
Qed.

Lemma each_lookup {A} (f : A → W (A * bool)) l s l' d s' :
  each f l s = (Ok (l', d), s') → length l' = length l ∧
  ∀ i x, l !! i = Some x → ∃ s1 x' c s2, f x s1 = (Ok (x', c), s2) ∧ l' !! i = Some x'.
Proof.
  revert s l' d. induction l as [|x l IH]; intros s l' d; cbn [each]; [by intros [= <- _ _]|].
  intros ([x1 c1] & s1 & E1 & ([l1 c2] & s2 & E2 & [= <- _ <-])%M_bind_Ok)%M_bind_Ok.
  apply IH in E2 as [Hl Hx]. split; [cbn; by rewrite Hl|]. intros [|i] y; cbn; [|by apply Hx].
  intros [= <-]. by exists s, x1, c1, s1.
Qed.

(** An assignment whose protected values are protected: the others are whatever the
    rewrite of the queries inside them gives. *)
Definition protected_assignment (params : ParamTransforms) (target : AssignmentScope)
    (a a' : Assignment Expr) : Prop :=
  as_target a' = as_target a ∧
  let ps := assigned_names (asc_columns target) a in
  ps = [] ∨
  ∃ src es es', asc_row target = Known src ∧ assigned_values a = Some es ∧
    assigned_values a' = Some es' ∧ length es' = length es ∧
    ∀ pos ident ptr e, (pos, ident, ptr) ∈ ps → es !! pos = Some e →
      ∃ e', es' !! pos = Some e' ∧ assigned_value params target src ident ptr e e'.

Lemma sealed_is_protected params target a a' :
  sealed_assignment params target a a' → protected_assignment params target a a'.
Proof.
  intros [Ht [[Hps _]|(src & es & es' & Hr & Hv & Hv' & [Hl Hu])]]; (split; [done|]); [by left|right].
  exists src, es, es'. split_and!; [done..|]. intros pos ident ptr e Hin He.
  destruct (Hu pos e He) as (e' & He' & Hp & _). eauto.
Qed.

Lemma assigned_unchanged params target src ident ptr e e' rq s :
  assigned_value params target src ident ptr e e' → rewrite_nested_queries rq e' s = (Ok (e', false), s).
Proof.
  intros [Hv|[-> Hr]]; [by eapply inert_unchanged, protected_inert|].
  unfold re_stores_a_sealed_value in Hr. by destruct e.
Qed.

Lemma queries_keep_protected params target rq a a1 s a' d s' :
  sealed_assignment params target a a1 → assignment_queries rq a1 s = (Ok (a', d), s') →
  protected_assignment params target a a'.
Proof.
  intros [Ht [[Hps _]|(src & es & es1 & Hr & Hv & Hv1 & [Hl Hu])]];
    intros ([v c1] & s1 & E & [= <- _ <-])%M_bind_Ok; (split; [done|]); [by left|right].
  assert (∃ es', assigned_values {| as_target := as_target a1; as_value := v |} = Some es' ∧
    length es' = length es1 ∧ ∀ pos e, es1 !! pos = Some e → ∃ s2 e' c s3,
      rewrite_nested_queries rq e s2 = (Ok (e', c), s3) ∧ es' !! pos = Some e') as (es' & Hv' & Hl' & Hq).
  { unfold assigned_values in Hv1 |- *. cbn. destruct (as_target a1) as [name|names].
    - injection Hv1 as <-. exists [v]. split_and!; [done..|]. intros [|pos] e; [|done]. intros [= <-]. eauto 10.
    - destruct (as_value a1); try done; case_bool_decide as Hn; try done; injection Hv1 as <-;
        cbn [rewrite_nested_queries] in E.
      + apply M_bind_Ok in E as ([v1 c2] & s2 & E & [= <- _ <-]). exists [v1].
        split_and!; [done..|].
        intros [|pos] ?; [|done]. intros [= <-]. eauto 10.
      + apply M_bind_Ok in E as ([v1 c2] & s2 & E & [= <- _ <-]). apply each_lookup in E as [Hle Hq].
        exists v1. cbn. rewrite bool_decide_true by congruence. done. }
  exists src, es, es'. split_and!; [done..|congruence|]. intros pos ident ptr e Hin He.
  destruct (Hu pos e He) as (e1 & He1 & Hp & _). destruct (Hq pos e1 He1) as (s2 & e' & c & s3 & E' & He').
  specialize (Hp ident ptr Hin). rewrite (assigned_unchanged _ _ _ _ _ _ _ rq s2 Hp) in E'.
  injection E' as <- _ _. eauto.
Qed.

(** ** Statements *)

Lemma table_Some name columns s :
  resolvable trusted name = true → catalog_table catalog name = Some columns →
  table catalog trusted name s = (Ok (Some columns), s).
Proof. intros Hr Hc. unfold table. by rewrite Hr, Hc. Qed.

Lemma catalog_table_name name columns :
  catalog_table catalog name = Some columns → is_Some (resolved_name name).
Proof. unfold catalog_table. by destruct (resolved_name name). Qed.

(** What the ON clause of an accepted INSERT becomes. *)
Definition protected_on (params : ParamTransforms) (columns : Columns) (sealed : SealedValues)
    (insert insert' : InsertOf Query Expr) : Prop :=
  let target row := {| asc_row := row; asc_columns := columns; asc_sealed := sealed |} in
  match in_on insert with
  | Some (OnConflictDoUpdate conflict assignments selection) =>
      ∃ assignments' selection', in_on insert' = Some (OnConflictDoUpdate conflict assignments' selection') ∧
        Forall2 (sealed_assignment params (target (conflict_row rows insert' conflict assignments)))
          assignments assignments'
  | Some (DuplicateKeyUpdate assignments) =>
      ∃ assignments', in_on insert' = Some (DuplicateKeyUpdate assignments') ∧
        Forall2 (sealed_assignment params (target (conflict_row rows insert' None assignments)))
          assignments assignments'
  | on => in_on insert' = on
  end.

Lemma protected_insert_mono params params' columns insert insert1 insert' :
  (∀ x, x ∈ params → x ∈ params') → in_source insert' = in_source insert1 →
  protected_insert params columns insert insert1 → protected_insert params' columns insert insert'.
Proof.
  intros Hp Hs [[Hs1 Hn]|(key & w & vs & vs' & rest & o & r & Hk & Hs0 & Hs1 & Hv)].
  - left. split; [congruence|done].
  - right. exists key, w, vs, vs', rest, o, r. split_and!; [done|done|congruence|].
    by eapply sealed_rows_mono.
Qed.

(** C2: an INSERT into a protected table that is accepted under [Reject] names its
    columns, and every value its VALUES list gives a protected column is NULL, a
    parameter recorded to be sealed for the row the same VALUES row names, or a
    literal replaced by its sealed form for that row; no other value of the list
    changes. Its ON CONFLICT assignments are protected in the same way, or store
    again what the VALUES list seals for the same column. *)
Theorem insert_protects_values insert columns s statement' c s' :
  resolvable trusted (in_table_name insert) = true →
  catalog_table catalog (in_table_name insert) = Some columns →
  rewrite_statement catalog rows trusted escapes deref ks nonce (Insert insert) s
    = (Ok (statement', c), s') →
  ∃ insert' sealed, statement' = Insert insert' ∧ in_columns insert ≠ [] ∧
    in_table_name insert' = in_table_name insert ∧ in_columns insert' = in_columns insert ∧
    protected_insert (rw_params s') columns insert insert' ∧
    protected_on (rw_params s') columns sealed insert insert' ∧
    sv_columns sealed = supplied_columns columns insert.
Proof using All.
  intros Hr Hc. unfold rewrite_statement. cbn [rewrite_statement_with].
  intros ([insert2 c2] & s2 & E & [= <- _ <-])%M_bind_Ok. unfold rewrite_insert in E.
  apply M_bind_Ok in E as (o & s0 & E0 & E). rewrite (table_Some _ columns) in E0 by done.
  injection E0 as <- <-. apply M_bind_Ok in E as ([insert1 sealed] & s1 & E1 & E).
  case_bool_decide as Hcols; [by apply (reject_stops catalog) in E1|].
  apply insert_values_ok in E1 as (G1 & P1 & Hn1 & Hc1 & Ho1 & Hsup); [|by eapply catalog_table_name].
  assert (in_table_name insert2 = in_table_name insert1 ∧ in_columns insert2 = in_columns insert1 ∧
    in_source insert2 = in_source insert1 ∧ grows s1 s2 ∧
    protected_on (rw_params s2) columns sealed insert insert2) as (Hn2 & Hc2 & Hs2 & G2 & P2).
  { unfold protected_on. rewrite <- Ho1.
    destruct (in_on insert1) as [[assignments| |conflict assignments selection|]|] eqn:Eon;
      try (injection E as <- _ <-; by rewrite Eon).
    - apply M_bind_Ok in E as ([l d] & s3 & E & [= <- _ <-]).
      apply seal_assignments_ok in E as [G S]. split_and!; [done..|]. by exists l.
    - apply M_bind_Ok in E as ([l d] & s3 & E3 & ([sel d2] & s4 & E4 & [= <- _ <-])%M_bind_Ok).
      apply seal_assignments_ok in E3 as [G S]. apply opt_predicate_grows in E4.
      split_and!; [done..|by trans s3|]. exists l, sel. split; [done|].
      eapply Forall2_impl; [exact S|]. intros a a'. by apply sealed_assignment_mono. }
  exists insert2, sealed. split_and!; [done|done|congruence..| |done|done]. by eapply protected_insert_mono.
Qed.

(** C4: an UPDATE of a protected table that is accepted under [Reject] gives a protected
    column, alone or row-wise, only NULL, a parameter recorded to be sealed for the
    row, or a literal replaced by its sealed form; the row being the one the row key
    of the table is pinned to by the WHERE, where the table has a row key. *)
Theorem update_protects_values u name alias rest joins columns s statement' c s' :
  up_table u = MkTable (Table name alias rest) joins →
  resolvable trusted name = true → catalog_table catalog name = Some columns →
  rewrite_statement catalog rows trusted escapes deref ks nonce (Update u) s
    = (Ok (statement', c), s') →
  let target := assignment_scope_of columns (update_row catalog rows u columns) in
  ∃ u', statement' = Update u' ∧
    Forall2 (protected_assignment (rw_params s') target) (up_assignments u) (up_assignments u').
Proof using All.
  intros Ht Hr Hc E target. unfold rewrite_statement in E. cbn [rewrite_statement_with] in E.
  apply M_bind_Ok in E as ([u' c2] & s2 & E & [= <- _ <-]). exists u'. split; [done|].
  unfold rewrite_update in E. apply M_bind_Ok in E as (o & s0 & E0 & E). unfold update_columns in E0.
  rewrite Ht in E0. cbn in E0. rewrite (table_Some _ columns) in E0 by done. injection E0 as <- <-.
  apply M_bind_Ok in E as ([l d] & s1 & E1 & ([u1 d1] & s3 & E2 & [= <- _ <-])%M_bind_Ok).
  apply seal_assignments_ok in E1 as [G1 S1].
  pose proof (update_walk_grows u l s1) as G2. rewrite E2 in G2. cbn in G2.
  assert (∃ s4 s5 d2, each (assignment_queries rewrite_query) l s4 = (Ok (up_assignments u1, d2), s5))
    as (s4 & s5 & d2 & E).
  { unfold update_walk in E2. apply M_bind_Ok in E2 as (sc & ? & ? & E2). do 6 (apply M_bind_Ok in E2 as ([? ?] & ? & ? & E2)).
    injection E2 as <- _ _. eauto. }
  apply each_lookup in E as [Hl Hq]. apply Forall2_same_length_lookup. split.
  - rewrite Hl. by eapply Forall2_length.
  - intros i a a' Ha Ha'. destruct (Forall2_lookup_l _ _ _ _ _ S1 Ha) as (a1 & Ha1 & Hs).
    destruct (Hq i a1 Ha1) as (s6 & a2 & d3 & s7 & Ea & Ha2). rewrite Ha' in Ha2. injection Ha2 as <-.
    eapply queries_keep_protected; [|exact Ea]. eapply sealed_assignment_mono; [exact G2|exact Hs].
Qed.

End sealing.

(** ** The row an UPDATE is for *)

Section pinning.
Context `{HexCrate, !HexLaws}.
Context (m : Meaning) (spec : ResolvedRowKey) (target : ScopedTable) (joined : bool).

#[local] Abbreviation ty := (rk_type_oid spec).
#[local] Abbreviation names_key c := (names_row_key c (rk_name spec) target joined = true).

(** The server reads what the key is compared with as text of the key's type, and
    compares values of that type, not spellings. *)
Context (Hform : ∀ c, names_key c → m_form m c = WText).
Context (Hsame : ∀ c, names_key c → m_same m c = key_equal ty).

(** In a row, the key is a value of its type, printed as the server prints it. *)
Definition keyed_row (w : World) : Prop :=
  ∀ c stored, names_key c → w_col w c = Some stored → ∃ v, key_of_type ty v ∧ stored = server_prints v.

(** The casts written on what the key is compared with keep the value. *)
Definition key_casts (w : World) (a : Expr) : Prop :=
  (∃ c, c ∈ subjects a ∧ names_key c) → casts_kept m w WText a.

(** The key of the value a text denotes, in whichever format the value arrives. *)
Definition key_of_text (text : bytes) (key : RowKey) : Prop :=
  ∀ fmt raw, received ty fmt raw = server_reads ty text → canonical ty fmt (Some raw) = Ok key.

(** The source gives the key of a row whose key column holds [stored]: the key that
    is read off that row. *)
Definition gives_key (w : World) (stored : bytes) (src : RowKeySource) : Prop :=
  ∃ key, row_key_bytes key = stored ∧ key_of_text stored key ∧
    match src with
    | SourceLiteral key' => key' = key
    | SourceParam i oid name =>
        oid = ty ∧ name = rk_name spec ∧ ∃ text, w_param w i = Some text ∧ key_of_text text key
    | SourceNone => False
    end.

Lemma eq3_true same a b :
  eq3 same a b = Some true → ∃ v v', a = Some v ∧ b = Some v' ∧ same v v' = true.
Proof. destruct a, b; cbn; try done. intros [= E]. eauto. Qed.

Lemma and3_true a b : and3 a b = Some true → a = Some true ∧ b = Some true.
Proof. destruct a as [[]|], b as [[]|]; done. Qed.

Lemma equal_key v text :
  key_of_type ty v → key_equal ty (server_prints v) text = true →
  key_of_text (server_prints v) {| row_key_bytes := server_prints v |} ∧
  key_of_text text {| row_key_bytes := server_prints v |}.
Proof using Type*.
  intros Hv [E _]%key_equal_true. split; intros fmt raw Hr; apply key_equal_canonical; congruence.
Qed.

(** What a value the key is compared with is taken for. *)
Lemma key_value w v src stored k :
  row_key_source v spec = Some src → keyed_row w → names_key k → w_col w k = Some stored →
  is_value v = true ∧
  (eq3 (key_equal ty) (Some stored) (value_in uncast w WText v) = Some true → gives_key w stored src).
Proof using Type*.
  intros Hs Hw Hk Hst. destruct (Hw k stored Hk Hst) as (kv & Hkv & ->).
  rewrite value_in_uncast. unfold row_key_source in Hs. unfold is_value.
  destruct (as_placeholder v) as [p|].
  - destruct (placeholder_index p) as [i|]; [|done]. injection Hs as <-. split; [done|].
    intros (x & text & [= <-] & Hp & [H1 H2]%equal_key)%eq3_true; [|done]. cbn in Hp.
    exists {| row_key_bytes := server_prints kv |}. split_and!; [done..|]. eauto.
  - rewrite literal_plaintext_unwrap in Hs. destruct (literal_plaintext v WText) as [text|]; [|done].
    cbn [mbind option_bind] in Hs. destruct (canonical _ _ _) as [key|] eqn:Ec; [|done].
    injection Hs as <-. split; [done|].
    intros (x & text' & [= <-] & [= <-] & [H1 H2]%equal_key)%eq3_true; [|done].
    exists {| row_key_bytes := server_prints kv |}. split_and!; [done..|]. rewrite (H2 FText text) in Ec by done. by injection Ec.
Qed.

Lemma key_comparison w c v src :
  names_key c → row_key_source v spec = Some src → keyed_row w →
  value_in (m_cast m) w WText v = value_in uncast w WText v →
  ∃ t, compare_to m w c v = Some t ∧ compare_to m w v c = None ∧
    (t = Some true → ∃ stored, w_col w c = Some stored ∧ gives_key w stored src).
Proof using All.
  intros Hn Hs Hw Hc.
  assert (operand m w c = Some (w_col w c, WText, key_equal ty)) as Ho.
  { unfold operand. rewrite <- (Hform c Hn), <- (Hsame c Hn). destruct c; done. }
  assert (is_value v = true) as Hv.
  { unfold row_key_source in Hs. unfold is_value. destruct (as_placeholder v) as [p|].
    - by destruct (placeholder_index p).
    - rewrite literal_plaintext_unwrap in Hs. by destruct (literal_plaintext v WText). }
  unfold compare_to. rewrite (operand_value m w v Hv), Ho. cbn -[value_in]. rewrite Hv, Hc.
  eexists. split_and!; [done..|]. intros Ht. destruct (w_col w c) as [stored|] eqn:Es; [|done].
  exists stored. split; [done|]. by eapply key_value.
Qed.

(** C6: the row key an UPDATE is sealed for is the row key of every row its WHERE keeps.
    When the predicate is found to pin the row key, then over any row for which it is
    true to the server, which compares integers and uuids by value however they are
    spelt, the key pinned by the literal, or computed at Bind from the pinning
    parameter in either wire format, is the text the server prints that row's key as,
    and the key computed from it when the row is read, in either format. The casts
    written on the compared value, which are peeled, have to keep it. *)
Theorem row_key_pins_the_row w e src :
  row_key_in_predicate spec target joined e = Some src →
  keyed_row w → Forall (key_casts w) (atoms e) → truth m w e = Some true →
  ∃ c stored, names_key c ∧ w_col w c = Some stored ∧ gives_key w stored src.
Proof using All.
  intros Hs Hw. revert e Hs. induction e as [e IH] using expr_children_ind.
  destruct e as [| | | | |inner| | | | | | | | |l op r| | | | | | | | | | | | | | | | | |]; try done;
    cbn [children expr_operands] in IH; apply Forall_cons in IH as [IHl IH].
  - apply IHl.
  - apply Forall_cons in IH as [IHr _]. destruct op; try done; cbn [row_key_in_predicate PredicateSpec.truth atoms].
    + intros Hs [Hc _]%Forall_cons. destruct (names_row_key l _ _ _) eqn:El.
      * destruct Hc as [Hv _]; [exists l; split; [by left|done]|].
        destruct (key_comparison w l r src El Hs Hw) as (t & -> & _ & Ht); [apply Hv; right; by left|naive_solver].
      * destruct (names_row_key r _ _ _) eqn:Er; [|done].
        destruct Hc as [Hv _]; [exists r; split; [right; by left|done]|].
        destruct (key_comparison w r l src Er Hs Hw) as (t & -> & -> & Ht); [apply Hv; by left|naive_solver].
    + intros Hs [Hcl Hcr]%Forall_app [Hl Hr]%and3_true. unfold or_else in Hs.
      destruct (row_key_in_predicate spec target joined l) eqn:E; [|by apply IHr].
      injection Hs as ->. by apply IHl.
Qed.

End pinning.

(** ** Witnesses *)

Module SealExample.
Import PredicateExample Toy.

Definition resolved : option RowContext := Some (context_new RowsExample.users Reject 400).
Definition users_table : ObjectName := [ident_new b#"users"].
Definition key : Expr := Identifier (ident_new b#"id").
Definition placeholder (p : bytes) : Expr := EValue (Placeholder p).

Definition run (statement : Statement) : result Rejection (Statement * bool) * RState :=
  rewrite_statement refusing resolved true false pointee source1 (λ _, nonce1) statement start.
Definition output (statement : Statement) : Statement :=
  match (run statement).1 with Ok (st, _) => st | Err _ => statement end.

Lemma run_Ok statement : is_ok (run statement).1 = true →
  ∃ c, run statement = (Ok (output statement, c), (run statement).2).
Proof. unfold output. by destruct (run statement) as [[[st c]|e] s]; [exists c|]. Qed.

(** [INSERT INTO users (id, ssn) VALUES (42, '078-05-1120'), ($1, $2)]. *)
Definition insert_users : InsertOf Query Expr := {|
  in_table_name := users_table; in_table_alias := None;
  in_columns := [ident_new b#"id"; ident_new b#"ssn"];
  in_source := Some (MkQuery None (BodyValues
    [[EValue (Number b#"42" false); EValue (SingleQuotedString RowsExample.plain)];
     [placeholder b#"$1"; placeholder b#"$2"]] []) None []);
  in_on := None; in_rest := [] |}.

Lemma insert_protects_values_witness :
  ∃ insert', output (Insert insert_users) = Insert insert' ∧
    protected_insert resolved pointee source1 (λ _, nonce1) (rw_params (run (Insert insert_users)).2)
      users_columns insert_users insert' ∧
    rw_params (run (Insert insert_users)).2 = [(1, Seal 0 (SourceParam 0 23 b#"id"))].
Proof.
  destruct (run_Ok (Insert insert_users)) as [c Hrun]; [vm_compute; reflexivity|].
  destruct (insert_protects_values refusing resolved true false pointee source1 (λ _, nonce1) eq_refl
    insert_users users_columns start _ c _ eq_refl eq_refl Hrun)
    as (insert' & sealed & Ho & _ & _ & _ & Hi & _ & _).
  exists insert'. split; [exact Ho|]. split; [exact Hi|]. vm_compute. reflexivity.
Defined.

(** [UPDATE users SET ssn = $1 WHERE id = 42]. *)
Definition pinned : Expr := BinaryOp key BinEq (EValue (Number b#"42" false)).
Definition update_users : UpdateOf TableWithJoins Expr := {|
  up_table := MkTable (Table users_table None []) [];
  up_assignments := [{| as_target := ColumnName [ident_new b#"ssn"]; as_value := placeholder b#"$1" |}];
  up_from := None; up_selection := Some pinned; up_rest := [] |}.

Lemma update_protects_values_witness :
  ∃ u', output (Update update_users) = Update u' ∧
    Forall2 (protected_assignment pointee source1 (λ _, nonce1) (rw_params (run (Update update_users)).2)
      (assignment_scope_of users_columns (Known (SourceLiteral row42))))
      (up_assignments update_users) (up_assignments u') ∧
    rw_params (run (Update update_users)).2 = [(0, Seal 0 (SourceLiteral row42))].
Proof.
  destruct (run_Ok (Update update_users)) as [c Hrun]; [vm_compute; reflexivity|].
  destruct (update_protects_values refusing resolved true false pointee source1 (λ _, nonce1) eq_refl
    update_users users_table None [] [] users_columns start _ c _ eq_refl eq_refl eq_refl Hrun)
    as (u' & Ho & Hf).
  exists u'. split; [exact Ho|]. split; [exact Hf|]. vm_compute. reflexivity.
Defined.

Definition users_scoped : ScopedTable := {|
  sc_alias := None; sc_name := [b#"users"]; sc_columns := users_columns; sc_read_columns := ∅ |}.
Definition row_42 : World := {|
  w_col _ := Some b#"42"; w_param _ := None; w_array _ := None |}.
Definition by_value : Meaning := {|
  m_form _ := WText; m_same _ := key_equal (rk_type_oid users_key);
  m_cast _ := take 2; m_other _ _ := None |}.

(** [id = 0042] keeps the row the server prints as [42]. *)
Definition pinned_0042 : Expr := BinaryOp key BinEq (EValue (Number b#"0042" false)).

Lemma row_key_pins_the_row_witness :
  ∃ c stored, names_row_key c b#"id" users_scoped false = true ∧ w_col row_42 c = Some stored ∧
    gives_key users_key row_42 stored (SourceLiteral row42).
Proof.
  apply (row_key_pins_the_row by_value users_key users_scoped false (λ _ _, eq_refl) (λ _ _, eq_refl)
    row_42 pinned_0042).
  - vm_compute. reflexivity.
  - intros c stored _ [= <-]. exists (KInt 42). split; [|vm_compute; reflexivity].
    exists 32%Z, 4. split; [unfold int_types; right; by left|by vm_compute].
  - apply Forall_cons. split; [|by apply Forall_nil]. intros _. split; intros v Hv;
      repeat (apply elem_of_cons in Hv as [->|Hv]; [vm_compute; reflexivity|]); by apply elem_of_nil in Hv.
  - vm_compute. reflexivity.
Defined.

End SealExample.
