(* ===== verification/CatalogSpec.v ===== *)
(** * What the catalog knows, and what never leaves unprotected

    The catalog answers for exactly the configured columns; a bare name under an
    untrusted search path is refused rather than guessed; and a [COPY (query)], whose
    rows the read path cannot open or mask, is refused when a relation it reads from
    is protected. *)

From S2P Require Import Prelude Sql Utf8 Crates Pgwire Errors Envelope RowKeys Fields Transform.
From S2P Require Import Policy Portal Rows RowsSpec Unprotected Catalog Rewrite WalkSpec PredicateSpec.
Import Ast.

(** ** The catalog *)

Definition column_key (c : ProtectedColumn) : bytes * bytes := (pc_schema c, pc_table c).

(** The catalog agrees with a list of columns, the first of them at address [n]. *)
Record reflects (columns : list ProtectedColumn) (self : WriteCatalog) : Prop := {
  rf_tables key name i : (m ← wc_tables self !! key; m !! name) = Some i ↔
    ∃ c, columns !! i = Some c ∧ column_key c = key ∧ pc_column c = name ∧ is_Some (pc_transform c);
  rf_nonempty key m : wc_tables self !! key = Some m → m ≠ ∅;
  rf_bare name : name ∈ wc_bare_names self ↔
    ∃ c, c ∈ columns ∧ pc_table c = name ∧ is_Some (pc_transform c);
  rf_read key name : (∃ r, wc_read_columns self !! key = Some r ∧ name ∈ r) ↔
    ∃ c, c ∈ columns ∧ column_key c = key ∧ pc_column c = name;
  rf_read_bare name : name ∈ wc_read_bare_names self ↔ ∃ c, c ∈ columns ∧ pc_table c = name;
}.

(** A column is configured once. *)
Definition distinct (columns : list ProtectedColumn) : Prop :=
  ∀ i j c d, columns !! i = Some c → columns !! j = Some d →
    column_key c = column_key d → pc_column c = pc_column d → i = j.

(** Looking a name up in the table it was added to. *)
Lemma add_lookup (tables : gmap (bytes * bytes) (gmap bytes TransformPtr)) key name n key' name' :
  (m ← <[key := <[name := n]> (default ∅ (tables !! key))]> tables !! key'; m !! name')
  = if decide (key' = key ∧ name' = name) then Some n else m ← tables !! key'; m !! name'.
Proof.
  case_decide as Hk.
  - destruct Hk as [-> ->]. rewrite lookup_insert_eq. cbn [mbind option_bind]. by rewrite lookup_insert_eq.
  - destruct (decide (key' = key)) as [->|Hne]; [|by rewrite lookup_insert_ne].
    rewrite lookup_insert_eq. cbn [mbind option_bind]. rewrite lookup_insert_ne by naive_solver.
    destruct (tables !! key); [done|]. cbn [default mbind option_bind]. by rewrite lookup_empty.
Qed.

Lemma snoc_column (columns : list ProtectedColumn) column (P : ProtectedColumn → Prop) :
  (∃ c, c ∈ columns ++ [column] ∧ P c) ↔ P column ∨ ∃ c, c ∈ columns ∧ P c.
Proof.
  setoid_rewrite elem_of_app. setoid_rewrite list_elem_of_singleton. naive_solver.
Qed.

Lemma add_column_reflects columns column self :
  distinct (columns ++ [column]) → reflects columns self →
  reflects (columns ++ [column]) (add_column self (length columns) column).
Proof.
  intros Hd [Ht Hne Hb Hr Hrb]. unfold add_column. cbv zeta.
  assert (∀ key name, (∃ r, <[column_key column := {[pc_column column]} ∪
      default ∅ (wc_read_columns self !! column_key column)]> (wc_read_columns self) !! key = Some r ∧ name ∈ r) ↔
    ∃ c, c ∈ columns ++ [column] ∧ column_key c = key ∧ pc_column c = name) as Hread.
  { intros key name. rewrite snoc_column, <- Hr. destruct (decide (key = column_key column)) as [->|Hk].
    - rewrite lookup_insert_eq. destruct (wc_read_columns self !! _) as [r|]; cbn [default]; split.
      + intros (r' & [= <-] & [?%elem_of_singleton|Hin]%elem_of_union); [by left|right; eauto].
      + intros [[_ <-]|(r' & [= <-] & Hin)]; eexists; (split; [done|]); [by apply elem_of_union_l, elem_of_singleton|by apply elem_of_union_r].
      + intros (r' & [= <-] & [?%elem_of_singleton|Hin]%elem_of_union); [by left|by apply not_elem_of_empty in Hin].
      + intros [[_ <-]|(r' & [=] & _)]. eexists. split; [done|]. by apply elem_of_union_l, elem_of_singleton.
    - rewrite lookup_insert_ne by done. naive_solver. }
  assert (∀ name, name ∈ {[pc_table column]} ∪ wc_read_bare_names self ↔
    ∃ c, c ∈ columns ++ [column] ∧ pc_table c = name) as Hbare.
  { intros name. rewrite snoc_column, <- Hrb, elem_of_union, elem_of_singleton. naive_solver. }
  destruct (pc_transform column) as [t|] eqn:Et; split; cbn [wc_tables wc_bare_names wc_read_columns wc_read_bare_names];
    try done.
  - intros key name i. rewrite add_lookup. setoid_rewrite lookup_snoc_Some. case_decide as Hk.
    + destruct Hk as [-> ->]. split.
      * intros [= <-]. exists column. rewrite Et. naive_solver.
      * intros (c & Hi & Hk & Hn & _). f_equal. eapply (Hd _ _ column c); [by rewrite lookup_snoc_Some; auto| |done..].
        by apply lookup_snoc_Some.
    + rewrite Ht. split; [naive_solver (eauto using lookup_lt_Some)|].
      intros (c & [[_ Hi]|[-> <-]] & Hkc & Hn & Hs); [by eauto|naive_solver].
  - intros key m. destruct (decide (key = column_key column)) as [->|Hk].
    + rewrite lookup_insert_eq. intros [= <-]. apply insert_non_empty.
    + rewrite lookup_insert_ne by done. apply Hne.
  - intros name. rewrite snoc_column, <- Hb, Et, elem_of_union, elem_of_singleton. naive_solver.
  - intros key name i. rewrite Ht. setoid_rewrite lookup_snoc_Some.
    split; [naive_solver (eauto using lookup_lt_Some)|].
    intros (c & [[_ Hi]|[-> <-]] & Hkc & Hn & Hs); [by eauto|]. rewrite Et in Hs. by destruct Hs.
  - intros name. rewrite snoc_column, <- Hb, Et. split; [by right|]. intros [[_ []]|?]; done.
Qed.

Lemma distinct_prefix l k : distinct (l ++ k) → distinct l.
Proof. intros Hd i j c d Hi Hj. apply Hd; by apply lookup_app_l_Some. Qed.

Lemma add_columns_reflects rest columns self :
  distinct (columns ++ rest) → reflects columns self →
  reflects (columns ++ rest) (add_columns self (length columns) rest).
Proof.
  revert columns self. induction rest as [|c rest IH]; intros columns self Hd Hr; cbn [add_columns].
  - by rewrite app_nil_r.
  - rewrite cons_middle, app_assoc in Hd |- *.
    replace (S (length columns)) with (length (columns ++ [c])) by (rewrite length_app; cbn; lia).
    apply IH; [done|]. apply add_column_reflects; [by eapply distinct_prefix|done].
Qed.

Lemma catalog_new_reflects columns policy : distinct columns → reflects columns (catalog_new columns policy).
Proof.
  intros Hd. apply (add_columns_reflects columns [] _ Hd).
  split; cbn; intros.
  - rewrite lookup_empty. split; [done|]. by intros (c & Hc & _); rewrite lookup_nil in Hc.
  - done.
  - split; [by intros ?%not_elem_of_empty|]. by intros (c & Hc%elem_of_nil & _).
  - setoid_rewrite lookup_empty. split; [by intros (r & [=] & _)|]. by intros (c & Hc%elem_of_nil & _).
  - split; [by intros ?%not_elem_of_empty|]. by intros (c & Hc%elem_of_nil & _).
Qed.

(** The write catalog holds exactly the configured columns: a table maps a column to
    the address of its transform just when the configuration gives that column of
    that table a transform; the read side holds every configured column, masked ones
    included; and the bare names are those of the tables with such a column. *)
Theorem catalog_reflects_configuration columns policy :
  distinct columns → reflects columns (catalog_new columns policy).
Proof. apply catalog_new_reflects. Qed.

(** ** Refusals *)

Section refusals.
Context `{HexCrate, AeadCrate, HmacCrate, Ff1Crate, Lowercase, SqlParserCrate}.
Context (catalog : WriteCatalog) (rows : option RowContext) (trusted escapes : bool).
Context (deref : TransformPtr → bytes * DynTransform) (ks : KeySource) (nonce : nat → bytes).
Context (Hreject : wc_on_unprotected catalog = Reject).

#[local] Abbreviation rewrite_statement :=
  (rewrite_statement catalog rows trusted escapes deref ks nonce).

(** A table the rewrite would treat as unprotected without having had to guess. *)
Definition known_unprotected (name : ObjectName) : Prop :=
  if resolvable trusted name then protects_reads catalog name = false
  else may_protect_reads catalog name = false.

(** The relations a query reads its rows from: the FROM of its SELECTs, of its CTEs
    and of its derived tables. *)
Fixpoint query_tables (q : Query) : list ObjectName :=
  match q with
  | MkQuery with_ body _ _ =>
      match with_ with
      | Some (ctes, _) => concat (map (λ c, match c with Build_CteOf _ q _ => query_tables q end) ctes)
      | None => []
      end ++ body_tables body
  end
with body_tables (b : SetExpr) : list ObjectName :=
  match b with
  | BodySelect (MkSelect _ from _ _ _ _) => concat (map twj_tables from)
  | BodyQuery q => query_tables q
  | SetOperation l r _ => body_tables l ++ body_tables r
  | BodyTable schema_name (Some name) => [ident_new <$> (opt_list schema_name ++ [name])]
  | _ => []
  end
with twj_tables (t : TableWithJoins) : list ObjectName :=
  match t with
  | MkTable relation joins =>
      factor_tables relation
      ++ concat (map (λ j, match j with Build_JoinOf _ _ factor _ _ => factor_tables factor end) joins)
  end
with factor_tables (f : TableFactor) : list ObjectName :=
  match f with
  | Table name _ _ => [name]
  | Derived q _ _ => query_tables q
  | NestedJoin t _ => twj_tables t
  | Pivot f _ | Unpivot f _ | MatchRecognize f _ => factor_tables f
  | FactorOther _ => []
  end.

(** A pass that finds every protected table of [names] and stops at a name it would
    have to guess. *)
Definition finds (names : list ObjectName) (m : list bytes → W (list bytes)) : Prop :=
  ∀ found s found' s', m found s = (Ok found', s') →
    s' = s ∧ found ⊆ found' ∧
    ∀ name, name ∈ names → known_unprotected name ∨ sql_name_to_string name ∈ found'.

Lemma finds_nil : finds [] (λ found, mret found).
Proof. intros found s found' s' [= <- <-]. split_and!; [done..|]. by intros name ?%elem_of_nil. Qed.

Lemma finds_app names names' m m' :
  finds names m → finds names' m' → finds (names ++ names') (λ found, found ← m found; m' found).
Proof.
  intros Hm Hm' found s found' s' (f1 & s1 & E1 & E2)%M_bind_Ok.
  apply Hm in E1 as (-> & Hs & Hn). apply Hm' in E2 as (-> & Hs' & Hn').
  split_and!; [done|by etrans|]. intros name [Hin|Hin]%elem_of_app; [|by apply Hn'].
  destruct (Hn name Hin); [by left|right; by apply Hs'].
Qed.

Lemma finds_table name : finds [name] (record_copied_table catalog trusted name).
Proof using Hreject.
  intros found s found' s'. unfold record_copied_table, reads_protected.
  assert (known_unprotected name ∨ resolvable trusted name = true ∧ protects_reads catalog name = true ∨
    resolvable trusted name = false ∧ may_protect_reads catalog name = true) as [Hk|[[Hr Hp]|[Hr Hp]]].
  { unfold known_unprotected. destruct (resolvable trusted name);
      [destruct (protects_reads catalog name)|destruct (may_protect_reads catalog name)]; auto. }
  - assert ((if resolvable trusted name then mret (protects_reads catalog name) else
      _ ← (if may_protect_reads catalog name then unprotected catalog (SearchPathSite name) else mret tt);
      mret false) s = (Ok false, s)) as Hs.
    { unfold known_unprotected in Hk. destruct (resolvable trusted name); by rewrite Hk. }
    unfold mbind at 1, M_bind at 1. rewrite Hs. intros [= <- <-]. split_and!; [done..|].
    intros n ->%list_elem_of_singleton. by left.
  - rewrite Hr, Hp. intros [= <- <-]. case_bool_decide as Hin; (split_and!; [done|set_solver|]);
      intros n ->%list_elem_of_singleton; right; set_solver.
  - rewrite Hr, Hp. unfold unprotected. by rewrite Hreject.
Qed.

Fixpoint finds_query q {struct q} : finds (query_tables q) (collect_copied_tables catalog trusted q)
with finds_body b {struct b} : finds (body_tables b) (collect_copied_tables_in catalog trusted b)
with finds_twj t {struct t} : finds (twj_tables t) (collect_copied_tables_twj catalog trusted t)
with finds_factor f {struct f} : finds (factor_tables f) (collect_copied_tables_from catalog trusted f).
Proof using Hreject.
  - destruct q as [[[ctes r]|] b o rest]; cbn [query_tables collect_copied_tables].
    + apply finds_app; [|apply finds_body]. induction ctes as [|[q r'] ctes IH]; [apply finds_nil|].
      apply (finds_app (query_tables q)); [apply finds_query|exact IH].
    + apply (finds_app []); [apply finds_nil|apply finds_body].
  - destruct b as [[pr from sel hav g r1]|q|l r rest|s|s|vs rest|sch [name|]];
      cbn [body_tables collect_copied_tables_in];
      try apply finds_nil; try apply finds_query; try apply finds_table.
    + induction from as [|t from IH]; [apply finds_nil|].
      apply (finds_app (twj_tables t)); [apply finds_twj|exact IH].
    + apply finds_app; apply finds_body.
  - destruct t as [r js]. cbn [twj_tables collect_copied_tables_twj].
    apply finds_app; [apply finds_factor|]. induction js as [|[f op rest] js IH]; [apply finds_nil|].
    apply (finds_app (factor_tables f)); [apply finds_factor|exact IH].
  - destruct f; cbn [factor_tables collect_copied_tables_from]; first
      [apply finds_nil | apply finds_table | apply finds_query | apply finds_twj | apply finds_factor].
Qed.

Lemma for_each_refuses {A} (f : A → Unprotected) l s u s' :
  for_each (λ x, unprotected catalog (f x)) l s = (Ok u, s') → l = [] ∧ s' = s.
Proof using Hreject.
  destruct l as [|x l]; [by intros [= _ <-]|]. cbn [for_each]. by intros ?%(reject_stops catalog).
Qed.

(** A [COPY (query)] accepted under [Reject] reads its rows from no table with a
    protected or masked column: not in any FROM of the query, of its common table
    expressions, of its derived tables, parenthesised joins or set operands; and from
    none that could be one under an untrusted search path. *)
Theorem copy_query_reads_nothing_protected q to rest s statement' c s' :
  rewrite_statement (Copy (CopyQuery q) to rest) s = (Ok (statement', c), s') →
  ∀ name, name ∈ query_tables q → known_unprotected name.
Proof using Hreject.
  unfold Rewrite.rewrite_statement. cbn [rewrite_statement_with]. unfold walk1, rewrite_copy.
  intros (r & s1 & E & _)%M_bind_Ok. apply M_bind_Ok in E as (found & s2 & Ef & (u & s3 & Ee & _)%M_bind_Ok).
  apply for_each_refuses in Ee as [-> _]. apply finds_query in Ef as (_ & _ & Hf).
  intros name Hin. by destruct (Hf name Hin) as [|?%elem_of_nil].
Qed.

(** Under [Reject] and a search path that is not trusted, an INSERT or an UPDATE of
    a bare name that some protected table has is refused before anything is sealed or
    recorded; it is never taken for the one in [public]. *)
Theorem untrusted_bare_write_refused statement name s :
  trusted = false → write_target statement = Some name → length name ≤ 1 →
  may_be_protected catalog name = true →
  match statement with Insert _ | Update _ | Merge _ _ => True | _ => False end →
  rewrite_statement statement s = (Err (Refused (message (SearchPathSite name))), s).
Proof using Hreject.
  intros Ht Hw Hl Hm Hst. assert (∀ A (k : option Columns → W A),
    (table catalog trusted name ≫= k) s = (Err (Refused (message (SearchPathSite name))), s)) as Hk.
  { intros A k. unfold table, resolvable. rewrite Ht, bool_decide_false by lia. cbn. rewrite Hm.
    unfold unprotected. by rewrite Hreject. }
  assert (∀ A B (m : W A) (k : A → W B), m s = (Err (Refused (message (SearchPathSite name))), s) →
    (m ≫= k) s = (Err (Refused (message (SearchPathSite name))), s)) as Hb.
  { intros A B m k Hms. unfold mbind, M_bind. by rewrite Hms. }
  unfold Rewrite.rewrite_statement. destruct statement as [i|u| | | |f r| |]; try done;
    cbn [rewrite_statement_with write_target] in *.
  - injection Hw as <-. apply Hb, Hk.
  - apply Hb. unfold rewrite_update, update_columns. destruct (relation (up_table u)); try done.
    injection Hw as <-. apply Hk.
  - destruct f; try done. injection Hw as <-. apply Hb, Hk.
Qed.

End refusals.

(** ** Witnesses *)

Module CatalogExample.
Import PredicateExample Toy.

Definition configured : list ProtectedColumn := (build_column example) <$> [c_ssn; c_phone; c_note].

Lemma catalog_reflects_configuration_witness :
  reflects configured (catalog_new configured Reject) ∧
  (m ← wc_tables (catalog_new configured Reject) !! (b#"app", b#"people"); m !! b#"phone") = Some 1.
Proof.
  split; [|vm_compute; reflexivity]. apply catalog_reflects_configuration.
  intros [|[|[|i]]] [|[|[|j]]] c d; cbn; intros [= <-] [= <-] Hk Hn; try done;
    vm_compute in Hk, Hn; discriminate.
Defined.

(** A query over one relation. *)
Definition select_from (name : bytes) (selection : option Expr) : Query :=
  MkQuery None (BodySelect (MkSelect [Wildcard []]
    [MkTable (Table [ident_new name] None []) []] selection None (GroupByExpressions [] []) [])) None [].

(** [COPY (SELECT * FROM orders) TO STDOUT]. *)
Definition copy_orders : Statement := Copy (CopyQuery (select_from b#"orders" None)) true [].

Definition run (trusted : bool) (statement : Statement) : result Rejection (Statement * bool) * RState :=
  rewrite_statement refusing None trusted false pointee source1 (λ _, nonce1) statement start.

Lemma copy_query_reads_nothing_protected_witness :
  known_unprotected refusing true [ident_new b#"orders"] ∧
  is_ok (run true (Copy (CopyQuery (select_from b#"users" None)) true [])).1 = false.
Proof.
  split; [|vm_compute; reflexivity].
  apply (copy_query_reads_nothing_protected refusing None true false pointee source1 (λ _, nonce1) eq_refl
    (select_from b#"orders" None) true [] start copy_orders false start).
  - vm_compute. reflexivity.
  - left.
Defined.

Definition insert_bare : Statement := Insert {|
  in_table_name := [ident_new b#"users"]; in_table_alias := None; in_columns := [];
  in_source := None; in_on := None; in_rest := [] |}.

Lemma untrusted_bare_write_refused_witness :
  run false insert_bare = (Err (Refused (message (SearchPathSite [ident_new b#"users"]))), start).
Proof.
  apply (untrusted_bare_write_refused refusing None false false pointee source1 (λ _, nonce1) eq_refl
    insert_bare [ident_new b#"users"] start); vm_compute; done.
Defined.

End CatalogExample.
