(* ===== verification/Gaps.v ===== *)
(** * What the rewrite lets through

    Statements over [users], whose column [ssn] is encrypted and indexed, that are
    accepted under [Reject] although they compare or read the stored form: each is a
    run of the rewrite on one statement. They bound what the theorems of
    [PredicateSpec], [SealSpec] and [CatalogSpec] can claim, and are why those have
    the hypotheses they have. *)

From S2P Require Import Prelude Sql Utf8 Crates Pgwire Errors Envelope RowKeys Fields Transform.
From S2P Require Import Policy Portal Rows RowsSpec Unprotected Catalog Rewrite PredicateSpec CatalogSpec.
Import Ast.

Module GapExample.
Import PredicateExample CatalogExample Toy.

Definition literal : Expr := EValue (SingleQuotedString RowsExample.plain).
Definition dollar1 : Expr := EValue (Placeholder b#"$1").

(** [SELECT * FROM users WHERE lower(ssn) = '078-05-1120']: compared with the stored
    form, so it matches nothing, and no site is raised. *)
Definition compares_computed : Statement := QueryStatement (select_from b#"users"
  (Some (BinaryOp (Function (ArgumentList [ArgUnnamed (ArgExpr ssn)] []) b#"lower") BinEq literal))).

Lemma computed_comparison_accepted :
  run true compares_computed = (Ok (compares_computed, false), start).
Proof. vm_compute. reflexivity. Qed.

(** [SELECT * FROM users WHERE ssn = $1 AND id = $1]: Bind replaces the one value by
    the index, and [id] is compared with it. *)
Definition shares_parameter : Statement := QueryStatement (select_from b#"users"
  (Some (BinaryOp (BinaryOp ssn BinEq dollar1) BinAnd
                  (BinaryOp (Identifier (ident_new b#"id")) BinEq dollar1)))).

Lemma shared_parameter_accepted :
  run true shares_parameter
  = (Ok (QueryStatement (select_from b#"users"
           (Some (BinaryOp (BinaryOp (index_prefix ssn) BinEq dollar1) BinAnd
                           (BinaryOp (Identifier (ident_new b#"id")) BinEq dollar1)))), true),
     with_params [(0, SearchIndex 0)] start).
Proof. vm_compute. reflexivity. Qed.

(** [SELECT * FROM (a JOIN b ON EXISTS (SELECT * FROM users WHERE ssn = '...'))]: the
    query inside the constraint of a parenthesised join is not walked. *)
Definition inner_query : Query := select_from b#"users" (Some (BinaryOp ssn BinEq literal)).
Definition joins_in_parentheses : Statement := QueryStatement
  (MkQuery None (BodySelect (MkSelect [Wildcard []]
    [MkTable (NestedJoin (MkTable (Table [ident_new b#"a"] None [])
       [{| jo_relation := Table [ident_new b#"b"] None [];
           jo_operator := Constrained Inner (On (Exists inner_query false)); jo_rest := [] |}]) []) []]
    None None (GroupByExpressions [] []) [])) None []).

Lemma nested_join_query_not_walked :
  run true joins_in_parentheses = (Ok (joins_in_parentheses, false), start).
Proof. vm_compute. reflexivity. Qed.

(** [INSERT INTO archive SELECT * FROM users WHERE ssn = '...']: an INSERT into a table
    that protects nothing is not walked. *)
Definition inserts_selection : Statement := Insert {|
  in_table_name := [ident_new b#"archive"]; in_table_alias := None; in_columns := [];
  in_source := Some inner_query; in_on := None; in_rest := [] |}.

Lemma insert_source_not_walked :
  run true inserts_selection = (Ok (inserts_selection, false), start).
Proof. vm_compute. reflexivity. Qed.

(** [COPY (SELECT (SELECT * FROM users)) TO STDOUT]: the rows of the scalar subquery
    leave as CopyData, which the read path neither opens nor masks. *)
Definition copies_subquery : Statement := Copy (CopyQuery
  (MkQuery None (BodySelect (MkSelect [UnnamedExpr (Subquery (select_from b#"users" None))]
    [] None None (GroupByExpressions [] []) [])) None [])) true [].

Lemma copy_of_a_scalar_subquery_accepted :
  run true copies_subquery = (Ok (copies_subquery, false), start).
Proof. vm_compute. reflexivity. Qed.

End GapExample.
