(* ===== verification/Frame.v ===== *)
(** * The frame layer of the write path

    [crates/proxy/src/encrypt/frame.rs], with what it calls of [encrypt/mod.rs]
    (the session's state) and [encrypt/statement.rs] ([rewrite_sql]). How one parsed
    statement is rewritten is [Rewrite], the settings a text moves are [Settings].
    An [Arc<dyn FieldTransform>] is an address, and [deref] gives what it points to,
    with the column it belongs to. *)

From S2P Require Import Prelude Sql Utf8 Crates Pgwire Errors Envelope RowKeys Fields Transform.
From S2P Require Import Policy ArrayCodec Lexer Settings Unprotected Portal Rows Catalog Rewrite.

(** ** State and outcomes *)

Record RewriteOutcome := { rewritten : option bytes; ro_params : ParamTransforms }.

Inductive SqlOutcome := Rewrite (outcome : RewriteOutcome) | Refuse (message : bytes).

(** The part of [QueryRewriter] a rewrite of SQL reads and writes, with the caches
    behind the transforms. *)
Record SqlSession := {
  ss_search_path_trusted : bool;
  ss_escape_strings : bool;
  ss_startup_moved : list SettingMoved;
  ss_transforms : PState;
}.

Record QueryRewriter := {
  qr_portals : Tracked Described;
  qr_sql : SqlSession;
  (** [AtomicU8], stored by the other direction. *)
  qr_tx_status : byte;
  qr_awaiting_sync : bool;
}.

Definition set_qr_portals f (s : QueryRewriter) : QueryRewriter := {|
  qr_portals := f (qr_portals s); qr_sql := qr_sql s; qr_tx_status := qr_tx_status s;
  qr_awaiting_sync := qr_awaiting_sync s |}.
Definition set_awaiting_sync b (s : QueryRewriter) : QueryRewriter := {|
  qr_portals := qr_portals s; qr_sql := qr_sql s; qr_tx_status := qr_tx_status s;
  qr_awaiting_sync := b |}.

(** A call on one component of the state. *)
Definition on_portals {A} (m : M (Tracked Described) Proxy.Error A)
    : M QueryRewriter Proxy.Error A :=
  λ s, let '(r, p) := m (qr_portals s) in (r, set_qr_portals (λ _, p) s).
Definition on_sql {A} (m : M SqlSession Proxy.Error A) : M QueryRewriter Proxy.Error A :=
  λ s, let '(r, q) := m (qr_sql s) in
       (r, {| qr_portals := qr_portals s; qr_sql := q; qr_tx_status := qr_tx_status s;
              qr_awaiting_sync := qr_awaiting_sync s |}).
Definition on_caches {E A} (m : M PState E A) : M SqlSession E A :=
  λ s, let '(r, t) := m (ss_transforms s) in
       (r, {| ss_search_path_trusted := ss_search_path_trusted s;
              ss_escape_strings := ss_escape_strings s;
              ss_startup_moved := ss_startup_moved s; ss_transforms := t |}).

(** ** Frames without SQL *)

(** [encrypt::frame::ready_for_query]. *)
Definition ready_for_query (tx_status : byte) : bytes :=
  frame "Z"%byte
    [if bool_decide (tx_status ∈ ["T"%byte; "E"%byte]) then "E"%byte else "I"%byte].

Definition discard_until_sync (msg_type : byte) (s : QueryRewriter) : FrameAction * QueryRewriter :=
  match msg_type with
  | "S"%byte => (Reply (ready_for_query (qr_tx_status s)), set_awaiting_sync false s)
  | "X"%byte => (Relay, set_awaiting_sync false s)
  | _ => (Reply [], s)
  end.

Definition describe_target (body : bytes) : result Proxy.Error (Target * bytes) :=
  match body with
  | [] => Err (Proxy.Wire Core.Malformed)
  | kind :: rest =>
      target ← match kind with
               | "S"%byte => Ok TStatement
               | "P"%byte => Ok TPortal
               | _ => Err (Proxy.Wire Core.Malformed)
               end;
      '(name, _) ← map_err Proxy.Pgwire (take_cstr rest);
      mret (target, name)
  end.

(** What the startup packet told the proxy about the session. *)
Record StartupSettings := { su_search_path_trusted : bool; su_escape_strings : bool }.

Definition startup_default : StartupSettings :=
  {| su_search_path_trusted := true; su_escape_strings := false |}.

(** [QueryRewriter::new], over the session's shared state. *)
Definition query_rewriter_new (portals : Tracked Described) (transforms : PState) (tx_status : byte)
    (startup : StartupSettings) : QueryRewriter := {|
  qr_portals := portals;
  qr_sql := {| ss_search_path_trusted := su_search_path_trusted startup;
               ss_escape_strings := su_escape_strings startup;
               ss_startup_moved := if su_escape_strings startup then [EscapeStrings] else [];
               ss_transforms := transforms |};
  qr_tx_status := tx_status; qr_awaiting_sync := false |}.

Section frame.
Context `{HexCrate, AeadCrate, HmacCrate, Ff1Crate, Lowercase, SqlParserCrate}.

(** [self.catalog] and [self.rows]. *)
Context (catalog : WriteCatalog) (rows : option RowContext).

(** The text of a [RowKeyType] error. *)
Context (why_text : RowKeyProblem → bytes).

(** What an address points to, and the nonces values are sealed under. *)
Context (deref : TransformPtr → bytes * DynTransform) (nonce : nat → bytes).

(** ** Rewriting SQL *)

(** [QueryRewriter::unprotected]; the warning is a log line. *)
Definition unprotected (site : Unprotected) : result Rejection () :=
  match wc_on_unprotected catalog with
  | Warn => Ok tt
  | Reject => Err (Refused (message site))
  end.

Definition unprotected_sql (site : Unprotected) : result Proxy.Error SqlOutcome :=
  match unprotected site with
  | Ok _ => Ok (Rewrite {| rewritten := None; ro_params := [] |})
  | Err (Refused m) => Ok (Refuse m)
  | Err (Fatal e) => Err e
  end.

Definition note_setting (setting : SettingMoved) (s : SqlSession) : SqlSession :=
  match setting with
  | SearchPath => {| ss_search_path_trusted := false; ss_escape_strings := ss_escape_strings s;
      ss_startup_moved := ss_startup_moved s; ss_transforms := ss_transforms s |}
  | EscapeStrings => {| ss_search_path_trusted := ss_search_path_trusted s;
      ss_escape_strings := true;
      ss_startup_moved := ss_startup_moved s; ss_transforms := ss_transforms s |}
  end.

Definition setting_site (setting : SettingMoved) : Unprotected :=
  match setting with SearchPath => SearchPathChanged | EscapeStrings => EscapeStringsChanged end.

Fixpoint note_session_state (moved : list SettingMoved) : M SqlSession Rejection () :=
  match moved with
  | [] => mret tt
  | setting :: moved =>
      _ ← modify (note_setting setting);
      _ ← lift (unprotected (setting_site setting));
      note_session_state moved
  end.

Definition set_transforms (t : PState) (s : SqlSession) : SqlSession := {|
  ss_search_path_trusted := ss_search_path_trusted s; ss_escape_strings := ss_escape_strings s;
  ss_startup_moved := ss_startup_moved s; ss_transforms := t |}.

(** [self.rewrite_statement(statement, &mut params)]; [drawn] counts the values this
    text has sealed. *)
Definition call_rewrite (ks : KeySource) (statement : Ast.Statement) (params : ParamTransforms)
    (drawn : nat) : M SqlSession Rejection (Ast.Statement * ParamTransforms * nat * bool) :=
  λ s,
    let '(r, w) :=
      rewrite_statement catalog rows (ss_search_path_trusted s) (ss_escape_strings s) deref ks nonce
        statement {| rw_params := params; rw_caches := ss_transforms s; rw_drawn := drawn;
                     rw_log := [] |} in
    (match r with
     | Ok (statement, changed) => Ok (statement, rw_params w, rw_drawn w, changed)
     | Err e => Err e
     end, set_transforms (rw_caches w) s).

(** The loop over the parsed statements; [moved] is aligned with them, or absent. *)
Fixpoint rewrite_all (ks : KeySource) (moved : option (list (list SettingMoved))) (index : nat)
    (statements : list Ast.Statement) (params : ParamTransforms) (drawn : nat)
    : M SqlSession Rejection (list Ast.Statement * list bool * ParamTransforms) :=
  match statements with
  | [] => mret ([], [], params)
  | statement :: statements =>
      _ ← note_session_state (default [] (m ← moved; m !! index));
      '(statement, params, drawn, changed) ← call_rewrite ks statement params drawn;
      '(statements, all_changed, params) ← rewrite_all ks moved (S index) statements params drawn;
      mret (statement :: statements, changed :: all_changed, params)
  end.

Definition take_startup_moved : M SqlSession Proxy.Error (list SettingMoved) :=
  λ s, (Ok (ss_startup_moved s),
        {| ss_search_path_trusted := ss_search_path_trusted s;
           ss_escape_strings := ss_escape_strings s;
           ss_startup_moved := []; ss_transforms := ss_transforms s |}).

(** A rejected step answers with the refusal or fails the session. *)
Definition or_refuse {A} (m : M SqlSession Rejection A) (k : A → M SqlSession Proxy.Error SqlOutcome)
    : M SqlSession Proxy.Error SqlOutcome :=
  λ s, match m s with
       | (Ok a, s) => k a s
       | (Err (Refused msg), s) => (Ok (Refuse msg), s)
       | (Err (Fatal e), s) => (Err e, s)
       end.

Definition rewrite_sql (ks : KeySource) (query : bytes) : M SqlSession Proxy.Error SqlOutcome :=
  if negb (is_utf8 query) then lift (unprotected_sql NonUtf8)
  else
    let '(moved, parsed) :=
      match sql_tokenize query with
      | Ok tokens => (settings_moved tokens, parse_tokens tokens query)
      | Err error => ([], Err error)
      end in
    let aligned :=
      match parsed with
      | Ok statements => bool_decide (length statements = length moved)
      | Err _ => false
      end in
    startup ← take_startup_moved;
    let upfront := if aligned then startup else startup ++ concat moved in
    or_refuse (note_session_state upfront) (λ _,
      match parsed with
      | Err error => lift (unprotected_sql (Unparseable error))
      | Ok statements =>
          or_refuse (rewrite_all ks (if aligned then Some moved else None) 0 statements [] 0)
            (λ '(statements, changed, params),
              if existsb id changed then
                text ← lift (reassemble query statements changed);
                mret (Rewrite {| rewritten := Some text; ro_params := params |})
              else mret (Rewrite {| rewritten := None; ro_params := params |}))
      end).

(** ** Bind *)

Definition bind_row_key (row : RowKeySource) (bind : BindMessage)
    : result Rejection (option RowKey) :=
  match row with
  | SourceNone => Ok None
  | SourceLiteral key => Ok (Some key)
  | SourceParam index type_oid column =>
      match format ← value_format (param_format bind index);
            canonical type_oid format (default None (bm_params bind !! index)) with
      | Ok key => Ok (Some key)
      | Err (Core.RowKeyType why) =>
          Err (Refused (row_key_message (index + 1) column (why_text why)))
      | Err other => Err (Fatal (Proxy.Wire other))
      end
  end.

Definition encode_param (value : bytes) (wire : WireForm) (binary : bool) : bytes :=
  match wire with
  | WText => value
  | Bytea => if binary then value else b#"\x" ++ hex_encode value
  end.

(** What Bind makes of one parameter. *)
Inductive ParamOutcome :=
  | Replaced (value : bytes)
  | Unindexed (column : bytes)
  | ParamRefused (message : bytes).

Definition transform_param (ks : KeySource) (bind : BindMessage) (index : nat)
    (action : ParamAction) (value : bytes) : M PState Proxy.Error ParamOutcome :=
  let binary := bool_decide (param_format bind index = 1%Z) in
  match action with
  | Seal ptr row =>
      match bind_row_key row bind with
      | Err (Refused msg) => mret (ParamRefused msg)
      | Err (Fatal e) => lift (Err e)
      | Ok key =>
          let '(name, t) := deref ptr in
          stored ← with_err Proxy.Wire (on_transform name (seal t ks (nonce index) value key));
          mret (Replaced (encode_param stored (wire t) binary))
      end
  | SearchIndex ptr =>
      let '(name, t) := deref ptr in
      token ← with_err Proxy.Wire (on_transform name (search_index t ks value));
      match token with
      | None => lift (Err (Proxy.Wire Core.Malformed))
      | Some token => mret (Replaced (encode_param token Bytea binary))
      end
  | SearchIndexArray ptr column =>
      let '(name, t) := deref ptr in
      indexed ← with_err Proxy.Wire (on_transform name (index_array value binary t ks));
      mret match indexed with Some indexed => Replaced indexed | None => Unindexed column end
  end.

(** The loop over the recorded parameters: the values as they stand, the columns
    whose array could not be indexed, or the refusal that ended it. *)
Fixpoint bind_loop (ks : KeySource) (bind : BindMessage) (params : ParamTransforms)
    (values : list (option bytes)) (unindexed : list bytes)
    : M PState Proxy.Error (list (option bytes) * list bytes + bytes) :=
  match params with
  | [] => mret (inl (values, unindexed))
  | (index, action) :: params =>
      match values !! index with
      | Some (Some value) =>
          outcome ← transform_param ks bind index action value;
          match outcome with
          | Replaced v => bind_loop ks bind params (<[index := Some v]> values) unindexed
          | Unindexed column => bind_loop ks bind params values (unindexed ++ [column])
          | ParamRefused msg => mret (inr msg)
          end
      | _ => bind_loop ks bind params values unindexed
      end
  end.

(** Nothing has gone upstream: the proxy owns the batch until Sync. *)
Definition refuse_batch (msg : bytes) : M QueryRewriter Proxy.Error FrameAction :=
  λ s, (Ok (Reply (error_response msg)), set_awaiting_sync true s).

Definition on_bind (ks : KeySource) (body : bytes) : M QueryRewriter Proxy.Error FrameAction :=
  bm ← lift (map_err Proxy.Pgwire (parse_bind body));
  codes ← lift (map_err Proxy.Pgwire (result_format_codes bm));
  params ← on_portals (Portal.bind (bm_portal bm) (bm_statement bm) (Some codes));
  match params with
  | None | Some [] => mret Relay
  | Some params =>
      r ← on_sql (on_caches (bind_loop ks bm params (bm_params bm) []));
      match r with
      | inr msg => refuse_batch msg
      | inl (values, unindexed) =>
          match (if bool_decide (unindexed = []) then Ok tt
                 else unprotected (Predicate (join b#", " unindexed) b#"= ANY bound array")) with
          | Err (Refused msg) => refuse_batch msg
          | Err (Fatal e) => lift (Err e)
          | Ok _ =>
              body ← lift (map_err Proxy.Pgwire
                (encode_bind (bm_portal bm) (bm_statement bm) (bm_param_formats bm) values
                   (bm_result_formats bm)));
              mret (Replace body)
          end
      end
  end.

(** ** One frame *)

Definition on_query (ks : KeySource) (body : bytes) : M QueryRewriter Proxy.Error FrameAction :=
  '(query, _) ← lift (map_err Proxy.Pgwire (take_cstr body));
  outcome ← on_sql (rewrite_sql ks query);
  match outcome with
  | Refuse msg =>
      status ← gets qr_tx_status;
      mret (Reply (error_response msg ++ ready_for_query status))
  | Rewrite outcome =>
      _ ← on_portals expect_batch;
      mret match rewritten outcome with
           | None => Relay
           | Some text => Replace (text ++ [x00])
           end
  end.

Definition on_parse (ks : KeySource) (body : bytes) : M QueryRewriter Proxy.Error FrameAction :=
  pm ← lift (map_err Proxy.Pgwire (parse_parse body));
  outcome ← on_sql (rewrite_sql ks (pm_query pm));
  match outcome with
  | Refuse msg => refuse_batch msg
  | Rewrite outcome =>
      _ ← on_portals (Portal.parse (pm_statement pm) (ro_params outcome));
      mret match rewritten outcome with
           | None => Relay
           | Some text => Replace (encode_parse (pm_statement pm) text (pm_param_types pm))
           end
  end.

Definition on_client_frame (ks : KeySource) (msg_type : byte) (body : bytes)
    : M QueryRewriter Proxy.Error FrameAction :=
  λ s,
    if qr_awaiting_sync s then
      let '(a, s) := discard_until_sync msg_type s in (Ok a, s)
    else
      match msg_type with
      | "Q"%byte => on_query ks body s
      | "P"%byte => on_parse ks body s
      | "B"%byte => on_bind ks body s
      | "D"%byte =>
          ('(target, name) ← lift (describe_target body);
           _ ← on_portals (expect_describe target name);
           mret Relay) s
      | "E"%byte =>
          ('(portal, _) ← lift (map_err Proxy.Pgwire (take_cstr body));
           _ ← on_portals (expect_execute portal);
           mret Relay) s
      | "S"%byte | "F"%byte => (_ ← on_portals expect_batch; mret Relay) s
      | "d"%byte | "c"%byte | "f"%byte => (Ok Relay, set_qr_portals (copy_data msg_type) s)
      | "C"%byte =>
          ('(target, name) ← lift (describe_target body);
           _ ← modify (set_qr_portals
                 match target with
                 | TStatement => close_statement name
                 | TPortal => close_portal name
                 end);
           mret Relay) s
      | _ => (Ok Relay, s)
      end.

End frame.
