(* ===== verification/FrameSpec.v ===== *)
(** * What the write path guarantees at the frame layer

    A protected parameter never goes upstream as the client sent it; what is sealed
    here is what [rows.rs] opens; a refused batch never reaches the server; and the
    queue of expected responses grows exactly with what is relayed. *)

From S2P Require Import Prelude Sql Utf8 Crates Pgwire Errors Envelope RowKeys Fields Transform.
From S2P Require Import Policy ArrayCodec Lexer Settings Unprotected Portal Rows RowsSpec Catalog.
From S2P Require Import Rewrite Frame.

Lemma on_portals_Ok {A} (m : M (Tracked Described) Proxy.Error A) s a s' :
  on_portals m s = (Ok a, s') ↔
  ∃ p, m (qr_portals s) = (Ok a, p) ∧ s' = set_qr_portals (λ _, p) s.
Proof. unfold on_portals. destruct (m (qr_portals s)). naive_solver. Qed.

Lemma on_sql_Ok {A} (m : M SqlSession Proxy.Error A) s a s' :
  on_sql m s = (Ok a, s') →
  ∃ q, m (qr_sql s) = (Ok a, q) ∧ qr_sql s' = q ∧ qr_portals s' = qr_portals s ∧
    qr_tx_status s' = qr_tx_status s ∧ qr_awaiting_sync s' = qr_awaiting_sync s.
Proof. unfold on_sql. destruct (m (qr_sql s)). intros [= -> <-]. eauto 10. Qed.

Lemma on_caches_Ok {E A} (m : M PState E A) s a s' :
  on_caches m s = (Ok a, s') → ∃ t, m (ss_transforms s) = (Ok a, t).
Proof. unfold on_caches. destruct (m (ss_transforms s)). intros [= -> _]. eauto. Qed.

Section bind_theorems.
Context `{HexCrate, AeadCrate, HmacCrate, Ff1Crate, Lowercase, SqlParserCrate}.
Context (catalog : WriteCatalog) (rows : option RowContext) (why_text : RowKeyProblem → bytes).
Context (deref : TransformPtr → bytes * DynTransform) (nonce : nat → bytes).

#[local] Abbreviation transform_param := (transform_param why_text deref nonce).
#[local] Abbreviation bind_loop := (bind_loop why_text deref nonce).
#[local] Abbreviation on_client_frame := (on_client_frame catalog rows why_text deref nonce).

(** What became of one recorded parameter. *)
Definition outcome_at (values' : list (option bytes)) (unindexed : list bytes) (index : nat)
    (value : bytes) (o : ParamOutcome) : Prop :=
  match o with
  | Replaced w => values' !! index = Some (Some w)
  | Unindexed column => values' !! index = Some (Some value) ∧ column ∈ unindexed
  | ParamRefused _ => False
  end.

Lemma bind_loop_others ks bm params values un s values' un' s' :
  bind_loop ks bm params values un s = (Ok (inl (values', un')), s') →
  length values' = length values ∧ (∀ c, c ∈ un → c ∈ un') ∧
  (∀ i, i ∉ params.*1 ∨ values !! i = Some None → values' !! i = values !! i).
Proof.
  revert values un s. induction params as [|[i action] params IH]; intros values un s; cbn [Frame.bind_loop].
  { by intros [= <- <- <-]. }
  destruct (values !! i) as [[v|]|] eqn:Ev.
  2, 3: intros (Hx1 & Hx2 & Hx3)%IH; split_and!; [done..|]; intros j [Hj|Hj]; apply Hx3;
    [left; set_solver|by right].
  intros (o & s1 & _ & E)%M_bind_Ok. destruct o as [w|column|msg]; [| |done].
  - apply IH in E as (Hx1 & Hx2 & Hx3). rewrite length_insert in Hx1. split_and!; [done..|].
    intros j Hj. assert (j ≠ i) as Hne by (destruct Hj as [Hj|Hj]; [set_solver|congruence]).
    rewrite Hx3, list_lookup_insert_ne by
      (first [done | destruct Hj as [Hj|Hj]; [left; set_solver|right; by rewrite list_lookup_insert_ne]]).
    done.
  - apply IH in E as (Hx1 & Hx2 & Hx3). split_and!; [done|intros c Hc; apply Hx2; set_solver|].
    intros j [Hj|Hj]; apply Hx3; [left; set_solver|by right].
Qed.

Lemma bind_loop_at ks bm params values un s values' un' s' i action v :
  bind_loop ks bm params values un s = (Ok (inl (values', un')), s') →
  NoDup params.*1 → (i, action) ∈ params → values !! i = Some (Some v) →
  ∃ s1 s2 o, transform_param ks bm i action v s1 = (Ok o, s2) ∧ outcome_at values' un' i v o.
Proof.
  revert values un s. induction params as [|[j a] params IH]; intros values un s.
  { intros _ _ Hin. by apply elem_of_nil in Hin. }
  cbn [Frame.bind_loop]. intros E [Hni Hnd]%NoDup_cons Hin Hv. apply elem_of_cons in Hin as [[= <- <-]|Hin].
  - rewrite Hv in E. apply M_bind_Ok in E as (o & s1 & Ho & E). exists s, s1, o. split; [done|].
    destruct o as [w|column|msg]; [| |done]; apply bind_loop_others in E as (Hlen & Hun & Hoth).
    + cbn [outcome_at]. rewrite (Hoth i) by (by left). apply list_lookup_insert_eq.
      by eapply lookup_lt_Some.
    + split; [by rewrite (Hoth i) by (by left)|]. apply Hun. set_solver.
  - assert (i ≠ j) as Hne.
    { intros ->. apply Hni. by apply (list_elem_of_fmap_2 fst _ _ Hin). }
    destruct (values !! j) as [[w|]|]; [|by eapply IH..].
    apply M_bind_Ok in E as (o & s1 & _ & E). destruct o as [w'|column|msg]; [| |done].
    + eapply IH; [exact E|done..|]. by rewrite list_lookup_insert_ne.
    + by eapply IH.
Qed.

(** The row key of a [Seal] is settled before anything is sealed. *)
Lemma transform_param_seal ks bm i ptr row v s w s' :
  transform_param ks bm i (Seal ptr row) v s = (Ok (Replaced w), s') →
  ∃ key stored, bind_row_key why_text row bm = Ok key ∧
    on_transform (deref ptr).1 (seal (deref ptr).2 ks (nonce i) v key) s = (Ok stored, s') ∧
    w = encode_param stored (wire (deref ptr).2) (bool_decide (param_format bm i = 1%Z)).
Proof.
  cbn [Frame.transform_param]. destruct (bind_row_key why_text row bm) as [key|[e|msg]] eqn:Ek; [|done..].
  destruct (deref ptr) as [name t]. intros (stored & s1 & Hs & [= <- <-])%M_bind_Ok.
  apply with_err_Ok in Hs. by exists key, stored.
Qed.

Lemma transform_param_seal_kind ks bm i ptr row v s o s' :
  transform_param ks bm i (Seal ptr row) v s = (Ok o, s') → ∀ c, o ≠ Unindexed c.
Proof.
  cbn [Frame.transform_param]. destruct (bind_row_key why_text row bm) as [key|[e|msg]]; [|done|].
  - destruct (deref ptr) as [name t]. by intros (stored & s1 & Hs & [= <- <-])%M_bind_Ok.
  - by intros [= <- <-].
Qed.

(** C1: a value bound to a protected column is never relayed as the client sent it.
    Whatever the proxy does with a Bind of a statement in which parameter [i] is to
    be sealed, it is one of two things: the batch is refused (nothing goes upstream,
    and the proxy owns it until Sync), or the Bind that goes upstream carries at
    [i] the sealed form of the value, under the row key this same Bind names, in
    the format the client used; parameters nothing was recorded for, NULLs, and
    every other field of the message are the client's. *)
Theorem bind_seals_or_refuses ks body s a s' bm st i ptr row v :
  on_client_frame ks "B"%byte body s = (Ok a, s') → qr_awaiting_sync s = false →
  parse_bind body = Ok bm → t_statements (qr_portals s) !! bm_statement bm = Some st →
  NoDup (st_params st).*1 → (i, Seal ptr row) ∈ st_params st →
  bm_params bm !! i = Some (Some v) →
  (∃ msg, a = Reply (error_response msg) ∧ qr_awaiting_sync s' = true) ∨
  (∃ body' values key stored s1 s2, a = Replace body' ∧
     encode_bind (bm_portal bm) (bm_statement bm) (bm_param_formats bm) values
       (bm_result_formats bm) = Ok body' ∧
     bind_row_key why_text row bm = Ok key ∧
     on_transform (deref ptr).1 (seal (deref ptr).2 ks (nonce i) v key) s1 = (Ok stored, s2) ∧
     values !! i = Some (Some (encode_param stored (wire (deref ptr).2)
                                 (bool_decide (param_format bm i = 1%Z)))) ∧
     length values = length (bm_params bm) ∧
     ∀ j, j ∉ (st_params st).*1 ∨ bm_params bm !! j = Some None →
       values !! j = bm_params bm !! j).
Proof.
  intros E Hw Hp Hst Hnd Hin Hv. unfold Frame.on_client_frame in E. rewrite Hw in E.
  unfold on_bind in E. rewrite Hp in E.
  apply M_bind_Ok in E as (bm' & s1 & [= <- <-] & E).
  apply M_bind_Ok in E as (codes & s1 & [= _ <-] & E).
  apply M_bind_Ok in E as (params & s1 & (p & Hb & ->)%on_portals_Ok & E).
  assert (params = Some (st_params st)) as ->.
  { unfold Portal.bind, guarded in Hb. destruct (check_name _ _); [|done].
    destruct (check_name _ _); [|done]. destruct (_ && _); [done|].
    injection Hb as <- _. by rewrite Hst. }
  destruct (st_params st) as [|p0 ps] eqn:Eps; [by apply elem_of_nil in Hin|].
  rewrite <- Eps in *. apply M_bind_Ok in E as (r & s2 & Hl & E).
  apply on_sql_Ok in Hl as (q & (t & Hl)%on_caches_Ok & _).
  destruct r as [[values un]|msg]; [|injection E as <- <-; left; by eexists].
  assert (∃ s1 s2 key stored, bind_row_key why_text row bm = Ok key ∧
     on_transform (deref ptr).1 (seal (deref ptr).2 ks (nonce i) v key) s1 = (Ok stored, s2) ∧
     values !! i = Some (Some (encode_param stored (wire (deref ptr).2)
                                 (bool_decide (param_format bm i = 1%Z))))) as Hsealed.
  { destruct (bind_loop_at _ _ _ _ _ _ _ _ _ _ _ _ Hl Hnd Hin Hv) as (t1 & t2 & o & Ho & Hat).
    destruct o as [w|c|msg]; [|by destruct (transform_param_seal_kind _ _ _ _ _ _ _ _ _ Ho c)|done].
    apply transform_param_seal in Ho as (key & stored & Hk & Hs & ->). by exists t1, t2, key, stored. }
  apply bind_loop_others in Hl as (Hlen & _ & Hoth).
  destruct (if bool_decide (un = []) then Ok tt else _) as [[]|[e|msg]]; [|done|].
  - apply M_bind_Ok in E as (body' & s3 & [= He%map_err_Ok <-] & [= <- <-]). right.
    destruct Hsealed as (t1 & t2 & key & stored & Hk & Hs & Hi).
    exists body', values, key, stored, t1, t2. done.
  - injection E as <- <-. left. by eexists.
Qed.

(** ** Reading back what a Bind wrote *)

(** What the server reads a bytea parameter as, and how it returns a bytea column,
    in the binary format or in text. *)
Definition bytea_in (binary : bool) (w : bytes) : option bytes :=
  if binary then Some w else h ← strip_prefix b#"\x" w; hex_decode h.
Definition bytea_out (binary : bool) (stored : bytes) : bytes :=
  if binary then stored else b#"\x" ++ hex_encode stored.

Lemma bytea_in_param `{!HexLaws} stored binary : bytea_in binary (encode_param stored Bytea binary) = Some stored.
Proof.
  destruct binary; [done|]. cbn [bytea_in encode_param].
  rewrite (proj2 (strip_prefix_Some b#"\x" _ (hex_encode stored)) eq_refl).
  cbn [mbind option_bind]. apply hex_decode_encode.
Qed.

(** An envelope, indexed or not, is never taken for hexadecimal text: its magic is not. *)
Lemma magic_not_hex `{!HexLaws} pre magic rest h :
  magic ∈ [MAGIC; MAGIC_V1; MAGIC_V3] → strip_prefix b#"\x" (pre ++ magic ++ rest) = Some h →
  hex_decode h = None.
Proof.
  intros Hm Hs%strip_prefix_Some. destruct (hex_decode h) as [d|] eqn:Ed; [|done].
  assert (h !! length pre = Some "S"%byte) as HS.
  { assert ((pre ++ magic ++ rest) !! (2 + length pre) = Some "S"%byte) as Hl.
    { rewrite lookup_app_r by lia. replace (2 + length pre - length pre) with 2 by lia.
      repeat (apply elem_of_cons in Hm as [->|Hm]; [done|]). by apply elem_of_nil in Hm. }
    rewrite Hs in Hl. exact Hl. }
  apply hex_decode_digits in Ed. eapply Forall_lookup_1 in Ed; [|exact HS]. done.
Qed.

Lemma sealed_decodes `{!HexLaws, !AeadLaws, !HmacLaws, !Ff1Laws} (K I : bytes → option bytes) ks e n v key s stored s' binary :
  source_ok K ks → index_ok I ks → encrypt_ok K I e s →
  encrypt_seal e ks n v key s = (Ok stored, s') →
  decode_wire (DynEncrypt e) (bytea_out binary stored) = (stored, negb binary).
Proof.
  intros Hks Hi He Hs. unfold decode_wire. change (wire (DynEncrypt e)) with Bytea. cbv beta iota.
  destruct binary; cbn [bytea_out].
  - destruct (encrypt_seal_Ok K I _ _ _ _ _ _ _ _ Hi He Hs) as (en & c & Hen & Hst).
    destruct (ciphers_seal_Ok K _ _ _ _ _ _ _ Hks (encrypt_ciphers _ _ _ _ He) Hen)
      as (id & cc & _ & _ & (magic & a & ct & Hw%written_version & _ & ->)%sealed_bytes_Ok).
    assert (∃ pre, stored = pre ++ magic ++ id ++ n ++ ct) as (pre & ->).
    { destruct (et_index_key_name e); [destruct Hst as (k & _ & ->); by eexists|by exists []]. }
    destruct (strip_prefix b#"\x" _) as [h|] eqn:Eh; [|done]. cbn [mbind option_bind].
    by rewrite (magic_not_hex _ _ _ _ Hw Eh).
  - rewrite (proj2 (strip_prefix_Some b#"\x" _ (hex_encode stored)) eq_refl).
    cbn [mbind option_bind]. by rewrite hex_decode_encode.
Qed.

(** C7: the two directions agree on an encrypted column with no mask. When the write
    path replaced a parameter, in either format, the server stores some bytes for
    what it was sent; and when a later row returns those bytes, in either format, with
    the row key that Bind named (or the column is not row-bound and neither named
    one), the read path hands the client the value it wrote, in the format asked for,
    whatever happened to the caches in between: provided that the key source still
    has the key the envelope names, and that an envelope stored without an index is
    not taken for one stored with an index. *)
Theorem written_is_read `{!HexLaws, !AeadLaws, !HmacLaws, !Ff1Laws}
    (K I : bytes → option bytes) ks ks' bm i ptr row v s w s' column e key row_keys repeated j rk s2 :
  source_ok K ks → source_ok K ks' → index_ok I ks → index_ok I ks' →
  pstate_ok K I s → pstate_ok K I s2 → length (nonce i) = NONCE_LEN →
  deref ptr = (rc_name column, DynEncrypt e) →
  rc_transform column = Some (DynEncrypt e) → rc_mask column = None →
  wired_to (rc_name column) (DynEncrypt e) →
  transform_param ks bm i (Seal ptr row) v s = (Ok (Replaced w), s') →
  bind_row_key why_text row bm = Ok key → key_at row_keys rk = Ok <$> key →
  ∃ stored, bytea_in (bool_decide (param_format bm i = 1%Z)) w = Some stored ∧
    (searchable e = true ∨ BlindIndex.split stored = None →
     is_ok (en ← ok_or Core.Malformed (stored_envelope stored); id ← key_id en; ks_key ks' id) = true →
     ∀ binary, ∃ s3,
       replace_value ks' row_keys repeated j column rk (bytea_out binary stored) s2
         = (Ok (Some (bytea_out binary v)), s3) ∧
       pstate_ok K I s3).
Proof.
  intros Hks Hks' Hi Hi' Hs Hs2 Hn Hd Ht Hm Hw Htp Hk Hrk.
  apply transform_param_seal in Htp as (key' & stored & Hk' & Hst & ->).
  rewrite Hk in Hk'. injection Hk' as <-. rewrite Hd in *. cbn [fst snd] in *.
  change (wire (DynEncrypt e)) with Bytea in *. exists stored. split; [apply bytea_in_param|].
  intros Hsp Hkey binary.
  assert (bytea_out binary v = if negb binary then hex_text_form v else v) as -> by (by destruct binary).
  apply (replace_value_opens K I ks ks' row_keys key repeated j column rk _ _ s2); try done.
  apply (sealed_cell K I ks ks' key column e (nonce i) v s stored s' _ (negb binary)); try done.
  destruct (on_transform_Ok _ _ _ _ _ Hst) as [t Ht'].
  by apply (sealed_decodes K I ks e (nonce i) v key _ stored t binary Hks Hi
    (tstate_encrypt_ok K I _ _ _ Hw (pstate_tstate K I _ _ Hs))).
Qed.

(** ** Refused batches and the response queue *)

(** The client's frames, one after the other. *)
Fixpoint run_frames (ks : KeySource) (frames : list (byte * bytes))
    : M QueryRewriter Proxy.Error (list FrameAction) :=
  match frames with
  | [] => mret []
  | (msg_type, body) :: frames =>
      a ← on_client_frame ks msg_type body;
      rest ← run_frames ks frames;
      mret (a :: rest)
  end.

(** C26: after a refusal the batch is the proxy's until Sync: whatever the client
    pipelines behind it is swallowed, frame by frame, with no state changed and
    nothing recorded as owed, and Sync is answered with the one ReadyForQuery the
    client waits for, in the failed state when a transaction is open. *)
Theorem refused_batch_is_swallowed ks frames body s :
  qr_awaiting_sync s = true →
  Forall (λ f, f.1 ≠ "S"%byte ∧ f.1 ≠ "X"%byte) frames →
  run_frames ks (frames ++ [("S"%byte, body)]) s =
    (Ok (replicate (length frames) (Reply []) ++ [Reply (ready_for_query (qr_tx_status s))]),
     set_awaiting_sync false s).
Proof.
  intros Hw. induction 1 as [|[ty b] frames [HS HX] _ IH].
  - cbn [app run_frames length replicate]. unfold mbind, M_bind, Frame.on_client_frame. by rewrite Hw.
  - cbn [app run_frames length replicate].
    assert (on_client_frame ks ty b s = (Ok (Reply []), s)) as Hf.
    { unfold Frame.on_client_frame. rewrite Hw. cbn [fst] in *.
      unfold discard_until_sync. by destruct ty. }
    rewrite (M_bind_eval _ _ _ _ _ Hf). by rewrite (M_bind_eval _ _ _ _ _ IH).
Qed.

(** The kinds of response the queue waits for. *)
Inductive Owed := OwedDescribe | OwedExecute | OwedBatch.

Definition pending_kind (p : Pending Described) : Owed :=
  match p with
  | PDescribe _ => OwedDescribe
  | PExecute _ _ _ _ => OwedExecute
  | PBatch => OwedBatch
  end.

Definition queue (s : QueryRewriter) : list Owed := pending_kind <$> t_pending (qr_portals s).

(** What the server answers a frame with, as far as the queue counts it. *)
Definition owed (msg_type : byte) : list Owed :=
  match msg_type with
  | "Q"%byte | "S"%byte | "F"%byte => [OwedBatch]
  | "D"%byte => [OwedDescribe]
  | "E"%byte => [OwedExecute]
  | _ => []
  end.

Lemma push_queue p t t' :
  push p t = (Ok tt, t') → pending_kind <$> t_pending t' = (pending_kind <$> t_pending t) ++ [pending_kind p].
Proof.
  unfold push. case_bool_decide; [done|]. intros [= <-]. cbn [t_pending set_pending].
  by rewrite fmap_app.
Qed.

Lemma on_portals_push m s s' p :
  on_portals m s = (Ok tt, s') → (∀ t', m (qr_portals s) = (Ok tt, t') →
    pending_kind <$> t_pending t' = queue s ++ [p]) → queue s' = queue s ++ [p].
Proof. intros (t' & Hm & ->)%on_portals_Ok Hq. by apply Hq. Qed.

Lemma expect_describe_queue target name t t' :
  expect_describe target name t = (Ok tt, t') →
  pending_kind <$> t_pending t' = (pending_kind <$> t_pending t) ++ [OwedDescribe].
Proof.
  unfold expect_describe, guarded. destruct (check_name _ _); [|done]. apply push_queue.
Qed.

Lemma expect_execute_queue portal t t' :
  expect_execute portal t = (Ok tt, t') →
  pending_kind <$> t_pending t' = (pending_kind <$> t_pending t) ++ [OwedExecute].
Proof.
  unfold expect_execute. destruct (p ← t_portals t !! portal; t_statements t !! po_statement p);
    intros ?%push_queue; done.
Qed.

Lemma bind_queue portal statement formats (t : Tracked Described) r t' :
  Portal.bind portal statement formats t = (Ok r, t') → t_pending t' = t_pending t.
Proof.
  unfold Portal.bind, guarded. destruct (check_name _ _); [|done]. destruct (check_name _ _); [|done].
  destruct (_ && _); [done|]. by intros [= _ <-].
Qed.

Lemma parse_queue statement params (t : Tracked Described) t' :
  Portal.parse statement params t = (Ok tt, t') → t_pending t' = t_pending t.
Proof.
  unfold Portal.parse, guarded. destruct (check_name _ _); [|done].
  destruct (_ && _); [done|]. by intros [= <-].
Qed.

Definition relayed (a : FrameAction) : bool :=
  match a with Relay | Replace _ => true | Reply _ | RefuseAndClose _ => false end.

(** An outcome that relays a frame and records what it is owed, or answers it and
    records nothing. *)
Definition accounted (msg_type : byte) (s : QueryRewriter) (a : FrameAction) (s' : QueryRewriter)
    : Prop :=
  queue s' = queue s ++ if relayed a then owed msg_type else [].

Lemma on_sql_queue {A} (m : M SqlSession Proxy.Error A) s a s' :
  on_sql m s = (Ok a, s') → queue s' = queue s.
Proof. intros (q & _ & _ & Hp & _)%on_sql_Ok. unfold queue. by rewrite Hp. Qed.

Lemma on_query_accounted ks body s a s' :
  on_query catalog rows deref nonce ks body s = (Ok a, s') →
  accounted "Q"%byte s a s'.
Proof.
  unfold on_query. intros ([query rest] & s1 & [= _ <-] & E)%M_bind_Ok.
  apply M_bind_Ok in E as (o & s2 & Hq%on_sql_queue & E). unfold accounted. rewrite <- Hq.
  destruct o as [outcome|msg].
  - apply M_bind_Ok in E as ([] & s3 & Hb & [= <- <-]).
    apply (on_portals_push _ _ _ OwedBatch) in Hb; [|intros t'; apply push_queue].
    by destruct (rewritten outcome).
  - apply M_bind_Ok in E as (st & s3 & [_ <-]%gets_Ok & [<- <-]%mret_Ok).
    cbn [relayed]. by rewrite app_nil_r.
Qed.

Lemma on_parse_accounted ks body s a s' :
  on_parse catalog rows deref nonce ks body s = (Ok a, s') →
  accounted "P"%byte s a s'.
Proof.
  unfold on_parse. intros (pm & s1 & [= _ <-] & E)%M_bind_Ok.
  apply M_bind_Ok in E as (o & s2 & Hq%on_sql_queue & E). unfold accounted. rewrite <- Hq.
  assert (queue s' = queue s2) as ->; [|destruct (relayed a); cbn; by rewrite app_nil_r].
  destruct o as [outcome|msg]; [|by injection E as _ <-].
  apply M_bind_Ok in E as ([] & s3 & (t & Hp%parse_queue & ->)%on_portals_Ok & [= _ <-]).
  unfold queue. cbn [qr_portals set_qr_portals]. by rewrite Hp.
Qed.

Lemma on_bind_accounted ks body s a s' :
  on_bind catalog why_text deref nonce ks body s = (Ok a, s') → accounted "B"%byte s a s'.
Proof.
  unfold on_bind. intros (bm & s1 & [= _ <-] & E)%M_bind_Ok.
  apply M_bind_Ok in E as (codes & s1 & [= _ <-] & E).
  apply M_bind_Ok in E as (params & s1 & (t & Hb%bind_queue & ->)%on_portals_Ok & E).
  unfold accounted.
  assert (queue s' = queue s) as ->; [|destruct (relayed a); cbn; by rewrite app_nil_r].
  transitivity (queue (set_qr_portals (λ _, t) s));
    [|unfold queue; cbn [qr_portals set_qr_portals]; by rewrite Hb].
  destruct params as [[|p ps]|]; [by injection E as _ <-| |by injection E as _ <-].
  apply M_bind_Ok in E as (r & s2 & Hl%on_sql_queue & E). rewrite <- Hl.
  destruct r as [[values un]|msg]; [|by injection E as _ <-].
  destruct (if bool_decide (un = []) then Ok tt else _) as [[]|[e|msg]]; [|done|by injection E as _ <-].
  by apply M_bind_Ok in E as (body' & s3 & [= _ <-] & [= _ <-]).
Qed.

(** C22: the response queue stays in step with the wire: a frame that goes upstream
    adds exactly the response the server owes for it (a batch for Query, Sync and
    FunctionCall, a description for Describe, a result for Execute, nothing for
    Parse, Bind and Close), and a frame the proxy answers or swallows adds nothing.
    The copy frames, which settle batches instead, are the exception. *)
Theorem queue_follows_relay ks msg_type body s a s' :
  msg_type ∉ ["d"%byte; "c"%byte; "f"%byte] →
  on_client_frame ks msg_type body s = (Ok a, s') → accounted msg_type s a s'.
Proof.
  intros Hcopy E. unfold Frame.on_client_frame in E. destruct (qr_awaiting_sync s).
  { destruct (discard_until_sync msg_type s) as [a' s1] eqn:Ed. injection E as <- <-.
    unfold accounted. assert (queue s1 = queue s) as ->.
    { unfold discard_until_sync in Ed. by destruct msg_type; injection Ed as _ <-. }
    destruct (decide (msg_type = "X"%byte)) as [->|HX]; [cbn; destruct (relayed a'); by rewrite app_nil_r|].
    assert (relayed a' = false) as ->; [|by rewrite app_nil_r].
    unfold discard_until_sync in Ed. by destruct msg_type; injection Ed as <- _. }
  assert (∀ m p, (_ ← on_portals m; mret Relay) s = (Ok a, s') →
    (∀ t', m (qr_portals s) = (Ok tt, t') → pending_kind <$> t_pending t' = queue s ++ [p]) →
    owed msg_type = [p] → accounted msg_type s a s') as Hpush.
  { intros m p (u & s1 & Hm & [= <- <-])%M_bind_Ok Hq Ho. destruct u. unfold accounted. cbn [relayed].
    rewrite Ho. by apply (on_portals_push m). }
  destruct msg_type; cbv beta iota in E;
    lazymatch type of E with
    | (Ok Relay, s) = _ => injection E as <- <-; unfold accounted; cbn [relayed owed]; by rewrite app_nil_r
    | (Ok Relay, _) = _ => exfalso; apply Hcopy; set_solver
    | _ => idtac
    end.
  - by eapply on_bind_accounted.
  - apply M_bind_Ok in E as ([target name] & s1 & [= _ <-] & E).
    apply M_bind_Ok in E as ([] & s2 & [= <-] & [<- <-]%mret_Ok).
    unfold accounted. cbn [relayed owed]. rewrite app_nil_r. by destruct target.
  - apply M_bind_Ok in E as ([target name] & s1 & [= _ <-] & E).
    apply (Hpush _ OwedDescribe E); [|done]. intros t'. apply expect_describe_queue.
  - apply M_bind_Ok in E as ([portal rest] & s1 & [= _ <-] & E).
    apply (Hpush _ OwedExecute E); [|done]. intros t'. apply expect_execute_queue.
  - apply (Hpush _ OwedBatch E); [|done]. intros t'. apply push_queue.
  - by eapply on_parse_accounted.
  - by eapply on_query_accounted.
  - apply (Hpush _ OwedBatch E); [|done]. intros t'. apply push_queue.
Qed.

End bind_theorems.

(** ** Witnesses *)

Module FrameExample.
Export RowsExample.
Import Toy.

Definition why (p : RowKeyProblem) : bytes := b#"row key is NULL".
Definition empty_catalog : WriteCatalog := catalog_new [] Reject.
Definition heap (ptr : TransformPtr) : bytes * DynTransform := (name_ssn, DynEncrypt e_ssn).
Definition nonces (i : nat) : bytes := nonce1.

(** [INSERT ... VALUES ($1, $2)]: [$1] is the ssn, sealed for the row [$2] names. *)
Definition seal_ssn : ParamAction := Seal 0 (SourceParam 1 23 b#"id").
Definition insert_ssn : Statement Described :=
  {| st_id := 0; st_params := [(0, seal_ssn)]; st_described := None |}.
Definition writer (awaiting : bool) : QueryRewriter := {|
  qr_portals := set_statements (λ _, {[b#"ins" := insert_ssn]}) tracked_default;
  qr_sql := {| ss_search_path_trusted := true; ss_escape_strings := false;
               ss_startup_moved := []; ss_transforms := cold |};
  qr_tx_status := "T"%byte; qr_awaiting_sync := awaiting |}.

Definition bound : BindMessage := {|
  bm_portal := []; bm_statement := b#"ins"; bm_param_formats := [];
  bm_params := [Some RowsExample.plain; Some b#"42"]; bm_result_formats := be_bytes 2 0 |}.
Definition bind_body : bytes :=
  match encode_bind [] b#"ins" [] [Some RowsExample.plain; Some b#"42"] (be_bytes 2 0) with
  | Ok b => b | Err _ => []
  end.

Definition client (ty : byte) (body : bytes) (s : QueryRewriter)
    : result Proxy.Error FrameAction * QueryRewriter :=
  @on_client_frame hex aead hmac ff1 ascii_lowercase sqlparser empty_catalog None why heap nonces
    source1 ty body s.

Definition answer : FrameAction :=
  match (client "B"%byte bind_body (writer false)).1 with Ok a => a | Err _ => Relay end.

Lemma bind_seals_or_refuses_witness :
  ∃ body' values key stored s1 s2, answer = Replace body' ∧
    encode_bind [] b#"ins" [] values (be_bytes 2 0) = Ok body' ∧
    bind_row_key why (SourceParam 1 23 b#"id") bound = Ok key ∧
    on_transform name_ssn (seal (DynEncrypt e_ssn) source1 nonce1 RowsExample.plain key) s1
      = (Ok stored, s2) ∧
    values !! 0 = Some (Some (encode_param stored Bytea false)).
Proof.
  destruct (@bind_seals_or_refuses hex aead hmac ff1 ascii_lowercase sqlparser empty_catalog None why heap
    nonces source1 bind_body (writer false) answer (client "B"%byte bind_body (writer false)).2
    bound insert_ssn 0 0 (SourceParam 1 23 b#"id") RowsExample.plain)
    as [(msg & Ha & _)|(body' & values & key & stored & s1 & s2 & Ha & He & Hk & Hs & Hv & _)].
  - apply with_state. vm_compute. reflexivity.
  - reflexivity.
  - vm_compute. reflexivity.
  - vm_compute. reflexivity.
  - apply NoDup_singleton.
  - left.
  - reflexivity.
  - exfalso. assert (match answer with Reply _ => true | _ => false end = false) as Hn
      by (vm_compute; reflexivity).
    rewrite Ha in Hn. discriminate Hn.
  - exists body', values, key, stored, s1, s2.
    split; [exact Ha|]. split; [exact He|]. split; [exact Hk|]. split; [exact Hs|exact Hv].
Defined.

Definition sealed_param : result Proxy.Error ParamOutcome * PState :=
  @transform_param hex aead hmac ff1 why heap nonces source1 bound 0 seal_ssn
    RowsExample.plain cold.
Definition param : bytes := match sealed_param.1 with Ok (Replaced w) => w | _ => [] end.

(** Sent as text, returned in binary. *)
Lemma written_is_read_witness :
  ∃ stored s3, bytea_in false param = Some stored ∧
    @replace_value hex aead hmac ff1 source1 [(0, Ok row42)] false 1 col_ssn (Slot 0 23)
      (bytea_out true stored) cold
    = (Ok (Some RowsExample.plain), s3).
Proof.
  destruct (@written_is_read hex aead hmac ff1 why heap nonces hex_laws aead_laws
    hmac_laws ff1_laws
    ring index_ring source1 source1 bound 0 0 (SourceParam 1 23 b#"id") RowsExample.plain cold param
    sealed_param.2 col_ssn e_ssn (Some row42) [(0, Ok row42)] false 1 (Slot 0 23) cold
    source1_ok source1_ok source1_index source1_index cold_ok cold_ok) as (stored & Hin & Hr).
  - reflexivity.
  - reflexivity.
  - reflexivity.
  - reflexivity.
  - split; [reflexivity|by right].
  - apply with_state. vm_compute. reflexivity.
  - vm_compute. reflexivity.
  - reflexivity.
  - destruct (Hr (or_introl eq_refl)) with (binary := true) as (s3 & Hs3 & _).
    + vm_compute in Hin. injection Hin as <-. vm_compute. reflexivity.
    + exists stored, s3. split; [exact Hin|exact Hs3].
Defined.

Lemma refused_batch_is_swallowed_witness :
  @run_frames hex aead hmac ff1 ascii_lowercase sqlparser empty_catalog None why heap nonces source1
    [("B"%byte, bind_body); ("E"%byte, [x00]); ("S"%byte, [])] (writer true)
  = (Ok [Reply []; Reply []; Reply (frame "Z"%byte ["E"%byte])], writer false).
Proof.
  apply (@refused_batch_is_swallowed hex aead hmac ff1 ascii_lowercase sqlparser empty_catalog None why heap
    nonces source1 [("B"%byte, bind_body); ("E"%byte, [x00])] [] (writer true) eq_refl).
  repeat (apply Forall_cons; split; [split; discriminate|]). by apply Forall_nil.
Defined.

Lemma queue_follows_relay_witness :
  accounted "S"%byte (writer false) Relay (client "S"%byte [] (writer false)).2.
Proof.
  apply (@queue_follows_relay hex aead hmac ff1 ascii_lowercase sqlparser empty_catalog None why heap
    nonces source1 "S"%byte [] (writer false) Relay).
  - intros Hin. repeat (apply elem_of_cons in Hin as [Hin|Hin]; [discriminate Hin|]).
    by apply elem_of_nil in Hin.
  - apply with_state. vm_compute. reflexivity.
Defined.

End FrameExample.
