(* ===== verification/Session.v ===== *)
(** * One client connection ([crates/proxy/src/session.rs])

    The startup phase, then one relay per direction over the state the two share. A
    stream is the bytes a peer sends before it closes; [read_exact] fails at the end
    of it. Buffers, locks and the sockets themselves are not modelled: what is written is,
    and that reads and writes may fail and deadlines pass at any moment. *)

From S2P Require Import Prelude Sql Utf8 Crates Pgwire Errors Envelope RowKeys Fields Transform.
From S2P Require Import Policy ArrayCodec Lexer Settings Unprotected Portal Rows Catalog Rewrite Frame.

(** [AsyncReadExt::read_exact]; [None] is [UnexpectedEof]. *)
Definition read_exact (n : nat) (stream : bytes) : option (bytes * bytes) := split_at_checked n stream.

(** ** The startup packet *)

(** [windows(n).any(f)]: no window is longer than the slice. *)
Fixpoint any_window (n : nat) (f : bytes → bool) (s : bytes) : bool :=
  match s with
  | [] => bool_decide (n = 0) && f []
  | _ :: s' => bool_decide (n ≤ length s) && f (take n s) || any_window n f s'
  end.

Definition mentions (options setting : bytes) : bool :=
  any_window (length setting) (λ window, eq_ignore_ascii_case window setting) options.

Definition startup_is_on (value : bytes) : bool := is_utf8 value && is_on_value value.

(** One parameter of the packet. *)
Definition startup_parameter (key value : bytes) (settings : StartupSettings) : StartupSettings :=
  if eq_ignore_ascii_case key b#"search_path" then
    {| su_search_path_trusted := su_search_path_trusted settings && bool_decide (value = b#"public");
       su_escape_strings := su_escape_strings settings |}
  else if eq_ignore_ascii_case key b#"standard_conforming_strings" then
    {| su_search_path_trusted := su_search_path_trusted settings;
       su_escape_strings := su_escape_strings settings || negb (startup_is_on value) |}
  else if eq_ignore_ascii_case key b#"options" then
    {| su_search_path_trusted := su_search_path_trusted settings && negb (mentions value b#"search_path");
       su_escape_strings :=
         su_escape_strings settings || mentions value b#"standard_conforming_strings" |}
  else settings.

(** [while let Ok(key) = take_cstr(&mut params)]: every turn takes at least a byte. *)
Fixpoint startup_loop (fuel : nat) (params : bytes) (settings : StartupSettings) : StartupSettings :=
  match fuel with
  | O => settings
  | S fuel =>
      match take_cstr params with
      | Err _ => settings
      | Ok (key, params) =>
          if bool_decide (key = []) then settings
          else match take_cstr params with
               | Err _ => settings
               | Ok (value, params) => startup_loop fuel params (startup_parameter key value settings)
               end
      end
  end.

Definition startup_settings (startup : bytes) : StartupSettings :=
  if bool_decide (STARTUP_HEADER_LEN ≤ length startup)
  then startup_loop (length startup) (drop STARTUP_HEADER_LEN startup) startup_default
  else startup_default.

(** ** The startup phase *)

(** The whole message with its length field; [None] when the client left first. *)
Definition read_startup_message (stream : bytes) : result Proxy.Error (option (bytes * bytes)) :=
  match read_exact 4 stream with
  | None => Ok None
  | Some (len_field, stream) =>
      body_len ← map_err Proxy.Pgwire (startup_body_len len_field);
      match read_exact (Z.to_nat body_len) stream with
      | None => Err Proxy.Io
      | Some (body, stream) => Ok (Some (len_field ++ body, stream))
      end
  end.

(** What the client's side of the startup phase comes to: the message to forward, over
    which transport it came, what is left of the stream, and what was answered. *)
Inductive StartupEnd :=
  | Left
  | Forward (message : bytes) (plain : bool) (stream : bytes)
  | Failed (e : Proxy.Error).

Section startup.
(** [tls.acceptor], with what its handshake makes of the raw stream: the plaintext
    stream behind it, or a failure. *)
Context (acceptor : option (bytes → result Proxy.Error bytes)).

(** The negotiation over one transport. [upgrade] goes on over TLS with the answers
    given so far; every turn consumes a message. *)
Fixpoint negotiate (upgrade : list byte → bytes → list byte * StartupEnd) (plain : bool) (fuel : nat)
    (answers : list byte) (stream : bytes) : list byte * StartupEnd :=
  match fuel with
  | O => (answers, Left)
  | S fuel =>
      match read_startup_message stream with
      | Err e => (answers, Failed e)
      | Ok None => (answers, Left)
      | Ok (Some (msg, stream)) =>
          match startup_kind (i32_of_be (take 4 (drop 4 msg))) with
          | StartupTls =>
              match acceptor with
              | Some _ => if plain then upgrade (answers ++ b#"S") stream
                          else negotiate upgrade plain fuel (answers ++ b#"N") stream
              | None => negotiate upgrade plain fuel (answers ++ b#"N") stream
              end
          | StartupGssEnc => negotiate upgrade plain fuel (answers ++ b#"N") stream
          | StartupCancel | StartupProtocol _ =>
              if bool_decide (is_Some acceptor) && plain
              then (answers, Failed Proxy.PlaintextRejected)
              else (answers, Forward msg plain stream)
          end
      end
  end.

(** Over TLS there is no second upgrade. *)
Definition over_tls (answers : list byte) (stream : bytes) : list byte * StartupEnd :=
  match acceptor with
  | None => (answers, Left)
  | Some accept =>
      match accept stream with
      | Err e => (answers, Failed e)
      | Ok stream => negotiate (λ answers _, (answers, Left)) false (S (length stream)) answers stream
      end
  end.

Definition client_startup (stream : bytes) : list byte * StartupEnd :=
  negotiate over_tls true (S (length stream)) [] stream.

End startup.

(** [request_upstream_tls]: what is sent, and whether the answer allows TLS. *)
Definition ssl_request : bytes := be_bytes 4 8 ++ be_bytes 4 SSL_REQUEST.
Definition upstream_tls_answer (addr : bytes) (answer : bytes) : result Proxy.Error bytes :=
  match answer with
  | [] => Err Proxy.Io
  | b :: rest => if bool_decide (b = "S"%byte) then Ok rest else Err (Proxy.UpstreamTlsRefused addr)
  end.

(** What the proxy sends upstream in the clear and inside TLS, and what it hands the
    relay. [connector] is [tls.connector], as the handshake over the answer. *)
Record Started := {
  st_plain_sent : bytes;
  st_sent : bytes;
  st_client : bytes;
  st_upstream : bytes;
  st_settings : StartupSettings;
}.

Definition start_session (acceptor connector : option (bytes → result Proxy.Error bytes))
    (addr client upstream : bytes) : result Proxy.Error (option Started) :=
  match (client_startup acceptor client).2 with
  | Left => Ok None
  | Failed e => Err e
  | Forward startup _ client =>
      match connector with
      | None => Ok (Some {| st_plain_sent := startup; st_sent := []; st_client := client;
                            st_upstream := upstream; st_settings := startup_settings startup |})
      | Some connect =>
          upstream ← upstream_tls_answer addr upstream;
          upstream ← connect upstream;
          Ok (Some {| st_plain_sent := ssl_request; st_sent := startup; st_client := client;
                      st_upstream := upstream; st_settings := startup_settings startup |})
      end
  end.

(** ** One relay *)

Definition encode_frame_header (msg_type : byte) (body_len : nat) : result Proxy.Error bytes :=
  let len := (Z.of_nat body_len + 4)%Z in
  if (len <=? MAX_MESSAGE_LEN)%Z then Ok ([msg_type] ++ be_bytes 4 len)
  else Err (Proxy.FrameTooLarge msg_type (Z.of_nat body_len) MAX_MESSAGE_LEN).

(** [Direction.limit]; the flag is the session's. *)
Inductive BodyLimit := Full | UntilAuthenticated.

Definition max_body (self : BodyLimit) (authenticated : bool) : Z :=
  match self with
  | Full => MAX_MESSAGE_LEN
  | UntilAuthenticated => if authenticated then MAX_MESSAGE_LEN else MAX_PRE_AUTH_MESSAGE_LEN
  end.

(** What one turn of the loop does: what it writes forward and back, whether it goes
    on, and how it ends. *)
Inductive Turn :=
  | Next (stream forward back : bytes)
  | Stop (forward : bytes) (shut_back : bool) (outcome : result Proxy.Error ()).

Section relay.
Context {S : Type}.
(** [rows::refuse]: the frames a refusal is answered with. *)
Context (refusal : Proxy.Error → bytes).
(** [limit.max_body()], asked for every frame, and the transform. *)
Context (bound : S → Z) (transform : byte → bytes → M S Proxy.Error FrameAction).

Definition relay_turn (stream : bytes) (s : S) : Turn * S :=
  match read_exact FRAME_HEADER_LEN stream with
  | None => (Stop [] false (Ok tt), s)
  | Some (header, stream) =>
      match frame_body_len header with
      | Err e => (Stop [] false (Err (Proxy.Pgwire e)), s)
      | Ok (msg_type, body_len) =>
          if (bound s <? body_len)%Z
          then (Stop [] false (Err (Proxy.PreAuthFrameTooLarge msg_type body_len (bound s))), s)
          else
            match read_exact (Z.to_nat body_len) stream with
            | None => (Stop [] false (Err Proxy.Io), s)
            | Some (body, stream) =>
                match transform msg_type body s with
                | (Err e, s) => (Stop [] false (Err e), s)
                | (Ok (Replace new_body), s) =>
                    match encode_frame_header msg_type (length new_body) with
                    | Err e => (Stop [] false (Err e), s)
                    | Ok new_header => (Next stream (new_header ++ new_body) [], s)
                    end
                | (Ok Relay, s) => (Next stream (header ++ body) [], s)
                | (Ok (Reply frames), s) => (Next stream [] frames, s)
                | (Ok (RefuseAndClose why), s) => (Stop (refusal why) true (Ok tt), s)
                end
            end
      end
  end.

(** The loop alone, to its end; every turn consumes a header. *)
Fixpoint relay (fuel : nat) (stream forward back : bytes) (s : S)
    : option (bytes * bytes * result Proxy.Error () * S) :=
  match fuel with
  | O => None
  | Datatypes.S fuel =>
      match relay_turn stream s with
      | (Next stream f b, s) => relay fuel stream (forward ++ f) (back ++ b) s
      | (Stop f _ outcome, s) => Some (forward ++ f, back, outcome, s)
      end
  end.

End relay.

(** ** The two directions *)

(** What the two relays share. The portals, the caches of the transforms and the
    transaction status are one object in the session, held by both halves; the
    values inside the rewriter and the decryptor are those of the moment one of them
    runs. *)
Record SessionState := {
  se_rewriter : option QueryRewriter;
  se_decryptor : option RowDecryptor;
  se_portals : Tracked Described;
  se_caches : PState;
  se_tx_status : byte;
  se_authenticated : bool;
}.

Definition TX_IDLE : byte := "I"%byte.

Definition note_authentication (msg_type : byte) (body : bytes) (s : SessionState) : SessionState :=
  if bool_decide (msg_type = "R"%byte) && bool_decide (4 ≤ length body)
     && bool_decide (take 4 body = be_bytes 4 0)
  then {| se_rewriter := se_rewriter s; se_decryptor := se_decryptor s; se_portals := se_portals s;
          se_caches := se_caches s; se_tx_status := se_tx_status s; se_authenticated := true |}
  else s.

Definition note_backend_state (msg_type : byte) (body : bytes) (s : SessionState) : SessionState :=
  match msg_type with
  | "Z"%byte =>
      match body with
      | status :: _ =>
          {| se_rewriter := se_rewriter s; se_decryptor := se_decryptor s;
             se_portals := se_portals s; se_caches := se_caches s; se_tx_status := status;
             se_authenticated := se_authenticated s |}
      | [] => s
      end
  | "G"%byte | "W"%byte =>
      {| se_rewriter := se_rewriter s; se_decryptor := se_decryptor s;
         se_portals := copy_in_started (se_portals s); se_caches := se_caches s;
         se_tx_status := se_tx_status s; se_authenticated := se_authenticated s |}
  | _ => s
  end.

(** The rewriter over the shared state, and the shared state it leaves. *)
Definition with_shared (s : SessionState) (q : QueryRewriter) : QueryRewriter := {|
  qr_portals := se_portals s; qr_sql := set_transforms (se_caches s) (qr_sql q);
  qr_tx_status := se_tx_status s; qr_awaiting_sync := qr_awaiting_sync q |}.
Definition after_rewriter (q : QueryRewriter) (s : SessionState) : SessionState := {|
  se_rewriter := Some q; se_decryptor := se_decryptor s; se_portals := qr_portals q;
  se_caches := ss_transforms (qr_sql q); se_tx_status := se_tx_status s;
  se_authenticated := se_authenticated s |}.

Definition read_shared (s : SessionState) (d : RowDecryptor) : RowDecryptor :=
  {| rd_ctx := rd_ctx d; rd_portals := se_portals s; rd_described := rd_described d;
     rd_warned_stale := rd_warned_stale d; rd_warned_computed := rd_warned_computed d;
     rd_warned_function_call := rd_warned_function_call d; rd_transforms := se_caches s |}.
Definition after_decryptor (d : RowDecryptor) (s : SessionState) : SessionState := {|
  se_rewriter := se_rewriter s; se_decryptor := Some d; se_portals := rd_portals d;
  se_caches := rd_transforms d; se_tx_status := se_tx_status s;
  se_authenticated := se_authenticated s |}.

Section session.
Context `{HexCrate, AeadCrate, HmacCrate, Ff1Crate, Lowercase, SqlParserCrate}.
Context (catalog : WriteCatalog) (why_text : RowKeyProblem → bytes).
Context (deref : TransformPtr → bytes * DynTransform) (nonce : nat → bytes) (ks : KeySource).
(** The [Display] of an error. *)
Context (display : Proxy.Error → bytes).

(** [RowDecryptor::refuse]. *)
Definition refuse_frames (why : Proxy.Error) : bytes :=
  error_response (b#"dbsec refused to relay this result: " ++ display why).

(** The closure of the client→upstream relay. *)
Definition client_transform (msg_type : byte) (body : bytes) : M SessionState Proxy.Error FrameAction :=
  λ s,
    match se_rewriter s with
    | None => (Ok Relay, s)
    | Some q =>
        let '(r, q) := on_client_frame catalog (rd_ctx <$> se_decryptor s) why_text deref nonce ks
                         msg_type body (with_shared s q) in
        (r, after_rewriter q s)
    end.

(** The closure of the upstream→client relay. *)
Definition upstream_transform (msg_type : byte) (body : bytes) : M SessionState Proxy.Error FrameAction :=
  λ s,
    let s := note_backend_state msg_type body (note_authentication msg_type body s) in
    match se_decryptor s with
    | None => (Ok Relay, s)
    | Some d =>
        let '(r, d) := on_frame ks msg_type body (read_shared s d) in
        (r, after_decryptor d s)
    end.

Definition client_turn : bytes → SessionState → Turn * SessionState :=
  relay_turn refuse_frames (λ s, max_body UntilAuthenticated (se_authenticated s)) client_transform.
Definition upstream_turn : bytes → SessionState → Turn * SessionState :=
  relay_turn refuse_frames (λ s, max_body Full (se_authenticated s)) upstream_transform.

(** [run], after the startup phase. *)
Definition session_new (rows : option RowContext) (writes : bool) (settings : StartupSettings)
    (caches : PState) : SessionState := {|
  se_rewriter := if writes
                 then Some (query_rewriter_new tracked_default caches TX_IDLE settings) else None;
  se_decryptor := (λ rows, decryptor rows tracked_default caches) <$> rows;
  se_portals := tracked_default; se_caches := caches; se_tx_status := TX_IDLE;
  se_authenticated := false |}.

(** *** Interleaving

    [join_relays] polls the two loops; a turn runs between two waits on its own
    reader, so an execution is a sequence of turns of either side. The first loop to
    end leaves the other a drain period. *)

(** What a peer still has to send, what its connection took, and whether its relay
    runs. [si_open] is what the source does: its writer was not shut down. [si_broken] is
    what the connection does: a write to it was given up on the way. The source shuts
    nothing down then, and the other relay may still lock the writer and try. *)
Record Side := {
  si_stream : bytes;
  si_out : bytes;
  si_open : bool;
  si_broken : bool;
  si_running : bool;
}.

(** Where [join_relays] is: which direction ended first, and how. *)
Inductive Join :=
  | Both
  | Draining (upstream_ended : bool) (ended : result Proxy.Error ())
  | Done (outcome : result Proxy.Error ()).

Record Connection := {
  cn_client : Side;
  cn_upstream : Side;
  cn_state : SessionState;
  (** [ShutdownRx]: shutdown was sent. *)
  cn_shutdown : bool;
  cn_join : Join;
}.

Definition side_new (stream : bytes) : Side :=
  {| si_stream := stream; si_out := []; si_open := true; si_broken := false; si_running := true |}.
Definition started (client upstream : bytes) (s : SessionState) : Connection :=
  {| cn_client := side_new client; cn_upstream := side_new upstream; cn_state := s;
     cn_shutdown := false; cn_join := Both |}.

(** The connection takes bytes. That one of which a write failed takes no more is the
    transport's: an error of a TCP stream, or of TLS over one, is final. A write dropped at
    the drain deadline is the last of its session, and nobody tries again. *)
Definition takes (w : Side) : bool := si_open w && negb (si_broken w).

(** [write_all] under the lock, to its end. *)
Definition write (data : bytes) (w : Side) : option Side :=
  if bool_decide (data = []) then Some w
  else if takes w
  then Some {| si_stream := si_stream w; si_out := si_out w ++ data; si_open := si_open w;
               si_broken := si_broken w; si_running := si_running w |}
  else None.
(** [write_all], given up after [n] bytes: the writer is left as it is. *)
Definition write_part (n : nat) (data : bytes) (w : Side) : Side :=
  if bool_decide (data = []) then w
  else if takes w
  then {| si_stream := si_stream w; si_out := si_out w ++ take n data; si_open := si_open w;
          si_broken := true; si_running := si_running w |}
  else w.
Definition shut (w : Side) : Side :=
  {| si_stream := si_stream w; si_out := si_out w; si_open := false; si_broken := si_broken w;
     si_running := si_running w |}.
Definition ended (w : Side) : Side :=
  {| si_stream := si_stream w; si_out := si_out w; si_open := si_open w; si_broken := si_broken w;
     si_running := false |}.
Definition reading (stream : bytes) (w : Side) : Side :=
  {| si_stream := stream; si_out := si_out w; si_open := si_open w; si_broken := si_broken w;
     si_running := si_running w |}.

(** What a turn of the side [reader] leaves of the reader and of the peer. A write that
    fails ends the relay. *)
Definition after_turn (t : Turn) (reader peer : Side) : Side * Side :=
  match t with
  | Next stream forward back =>
      match write back reader, write forward peer with
      | Some reader, Some peer => (reading stream reader, peer)
      | _, _ => (ended reader, peer)
      end
  | Stop forward shut_back outcome =>
      match write forward peer with
      | None => (ended reader, peer)
      | Some peer =>
          (ended (if shut_back : bool then shut reader else reader),
           if is_ok outcome then shut peer else peer)
      end
  end.

(** How the relay ended, if this turn ended it. *)
Definition turn_outcome (t : Turn) (reader peer : Side) : option (result Proxy.Error ()) :=
  match t with
  | Next stream forward back =>
      match write back reader, write forward peer with
      | Some _, Some _ => None
      | _, _ => Some (Err Proxy.Io)
      end
  | Stop forward shut_back outcome =>
      match write forward peer with None => Some (Err Proxy.Io) | Some _ => Some outcome end
  end.

(** A turn whose writes are given up on the way: by the peer, or by the drain deadline. *)
Definition cut_turn (n : nat) (t : Turn) (reader peer : Side) : Side * Side :=
  match t with
  | Next _ forward back => (ended (write_part n back reader), write_part n forward peer)
  | Stop forward _ _ => (ended reader, write_part n forward peer)
  end.

(** [join_relays], when a direction ends: [ended.and(rest)] if it is the second. *)
Definition relay_ended (upstream_ended : bool) (outcome : result Proxy.Error ()) (j : Join) : Join :=
  match j with
  | Both => Draining upstream_ended outcome
  | Draining _ (Ok _) => Done outcome
  | Draining _ (Err e) => Done (Err e)
  | Done r => Done r
  end.
Definition relay_went (upstream_ended : bool) (outcome : option (result Proxy.Error ())) (j : Join) : Join :=
  match outcome with None => j | Some r => relay_ended upstream_ended r j end.

Definition live (c : Connection) : Prop := match cn_join c with Done _ => False | _ => True end.

Definition with_sides (client upstream : Side) (s : SessionState) (j : Join) (c : Connection) : Connection :=
  {| cn_client := client; cn_upstream := upstream; cn_state := s; cn_shutdown := cn_shutdown c; cn_join := j |}.

Inductive turn (c : Connection) : Connection → Prop :=
  | client_runs t s reader peer :
      live c → si_running (cn_client c) = true →
      client_turn (si_stream (cn_client c)) (cn_state c) = (t, s) →
      after_turn t (cn_client c) (cn_upstream c) = (reader, peer) →
      turn c (with_sides reader peer s
        (relay_went true (turn_outcome t (cn_client c) (cn_upstream c)) (cn_join c)) c)
  | upstream_runs t s reader peer :
      live c → si_running (cn_upstream c) = true →
      upstream_turn (si_stream (cn_upstream c)) (cn_state c) = (t, s) →
      after_turn t (cn_upstream c) (cn_client c) = (reader, peer) →
      turn c (with_sides peer reader s
        (relay_went false (turn_outcome t (cn_upstream c) (cn_client c)) (cn_join c)) c)
  (** Shutdown is sent, and observed between frames. *)
  | shutdown_sent :
      cn_shutdown c = false →
      turn c {| cn_client := cn_client c; cn_upstream := cn_upstream c; cn_state := cn_state c;
                cn_shutdown := true; cn_join := cn_join c |}
  | client_stops :
      live c → si_running (cn_client c) = true → cn_shutdown c = true →
      turn c (with_sides (ended (cn_client c)) (shut (cn_upstream c)) (cn_state c)
        (relay_ended true (Ok tt) (cn_join c)) c)
  | upstream_stops :
      live c → si_running (cn_upstream c) = true → cn_shutdown c = true →
      turn c (with_sides (shut (cn_client c)) (ended (cn_upstream c)) (cn_state c)
        (relay_ended false (Ok tt) (cn_join c)) c)
  (** Reading fails, or writing does after [n] bytes of what the turn writes. *)
  | client_read_fails :
      live c → si_running (cn_client c) = true →
      turn c (with_sides (ended (cn_client c)) (cn_upstream c) (cn_state c)
        (relay_ended true (Err Proxy.Io) (cn_join c)) c)
  | upstream_read_fails :
      live c → si_running (cn_upstream c) = true →
      turn c (with_sides (cn_client c) (ended (cn_upstream c)) (cn_state c)
        (relay_ended false (Err Proxy.Io) (cn_join c)) c)
  | client_write_fails n t s reader peer :
      live c → si_running (cn_client c) = true →
      client_turn (si_stream (cn_client c)) (cn_state c) = (t, s) →
      cut_turn n t (cn_client c) (cn_upstream c) = (reader, peer) →
      turn c (with_sides reader peer s (relay_ended true (Err Proxy.Io) (cn_join c)) c)
  | upstream_write_fails n t s reader peer :
      live c → si_running (cn_upstream c) = true →
      upstream_turn (si_stream (cn_upstream c)) (cn_state c) = (t, s) →
      cut_turn n t (cn_upstream c) (cn_client c) = (reader, peer) →
      turn c (with_sides peer reader s (relay_ended false (Err Proxy.Io) (cn_join c)) c)
  (** The drain deadline, on the relay that is left: between two turns, or in a write. *)
  | drain_expires who r :
      cn_join c = Draining who r →
      turn c (with_sides (ended (cn_client c)) (ended (cn_upstream c)) (cn_state c) (Done r) c)
  | drain_cuts_client n t s reader peer r :
      cn_join c = Draining false r → si_running (cn_client c) = true →
      client_turn (si_stream (cn_client c)) (cn_state c) = (t, s) →
      cut_turn n t (cn_client c) (cn_upstream c) = (reader, peer) →
      turn c (with_sides reader peer s (Done r) c)
  | drain_cuts_upstream n t s reader peer r :
      cn_join c = Draining true r → si_running (cn_upstream c) = true →
      upstream_turn (si_stream (cn_upstream c)) (cn_state c) = (t, s) →
      cut_turn n t (cn_upstream c) (cn_client c) = (reader, peer) →
      turn c (with_sides peer reader s (Done r) c).

End session.
