(* ===== verification/SessionSpec.v ===== *)
(** * What a connection relays

    Both hops are TLS when configured, before any byte of the client's startup
    message moves; whatever the two relays do and however they interleave, each peer
    receives whole frames; and the flags the write path reads are exactly what the
    backend last said. *)

From S2P Require Import Prelude Sql Utf8 Crates Pgwire Errors Envelope RowKeys Fields Transform.
From S2P Require Import Policy ArrayCodec Lexer Settings Unprotected Portal Rows RowsSpec Catalog Rewrite.
From S2P Require Import Frame FrameSpec Session.

(** ** Frames *)

(** One frame on the wire. *)
Definition wire_frame (f : byte * bytes) : bytes :=
  [f.1] ++ be_bytes 4 (Z.of_nat (length f.2) + 4) ++ f.2.

Definition fits (f : byte * bytes) : Prop := (Z.of_nat (length f.2) + 4 ≤ MAX_MESSAGE_LEN)%Z.

Definition wire_frames (fs : list (byte * bytes)) : bytes := concat (wire_frame <$> fs).

(** A sequence of whole frames, each within the protocol's limit. *)
Definition whole (bs : bytes) : Prop := ∃ fs, bs = wire_frames fs ∧ Forall fits fs.

Lemma wire_frames_app fs gs : wire_frames (fs ++ gs) = wire_frames fs ++ wire_frames gs.
Proof. unfold wire_frames. by rewrite fmap_app, concat_app. Qed.

Lemma wire_frames_one f : wire_frames [f] = wire_frame f.
Proof. unfold wire_frames. cbn. by rewrite app_nil_r. Qed.

Lemma whole_nil : whole [].
Proof. by exists []. Qed.

Lemma whole_app a b : whole a → whole b → whole (a ++ b).
Proof.
  intros (fs & -> & Hf) (gs & -> & Hg). exists (fs ++ gs). rewrite wire_frames_app.
  split; [done|by apply Forall_app].
Qed.

Lemma whole_one f : fits f → whole (wire_frame f).
Proof.
  intros Hf. exists [f]. rewrite wire_frames_one. split; [done|by repeat constructor].
Qed.

Lemma encode_header_whole t body h : encode_frame_header t (length body) = Ok h → whole (h ++ body).
Proof.
  unfold encode_frame_header. destruct (Z.leb_spec (Z.of_nat (length body) + 4) MAX_MESSAGE_LEN); [|done].
  intros [= <-]. by apply (whole_one (t, body)).
Qed.

(** A header that is accepted is the header of the frame it announces. *)
Lemma header_frame header t n body :
  length header = FRAME_HEADER_LEN → frame_body_len header = Ok (t, n) → length body = Z.to_nat n →
  header ++ body = wire_frame (t, body) ∧ fits (t, body).
Proof.
  intros Hl (-> & -> & Hn)%frame_body_len_spec Hb.
  destruct header as [|t [|a [|b [|c [|d [|? ?]]]]]]; try done. unfold wire_frame, fits, MAX_MESSAGE_LEN.
  cbn [lookup list_lookup default take drop fst snd] in *. rewrite Hb, Z2Nat.id by lia.
  change (Z.shiftl 1 30) with (2 ^ 30)%Z. split; [|lia]. rewrite Z.sub_add.
  assert (be_bytes 4 (i32_of_be [a; b; c; d]) = [a; b; c; d]) as ->; [|done].
  apply (be_bytes_i32 [a; b; c; d]). done.
Qed.

(** ** One turn *)

Section turn.
Context {S : Type} (refusal : Proxy.Error → bytes).
Context (bound : S → Z) (transform : byte → bytes → M S Proxy.Error FrameAction).
Context (Hrefusal : ∀ e, whole (refusal e)).
Context (Hreply : ∀ t body s fs s', transform t body s = (Ok (Reply fs), s') → whole fs).

#[local] Abbreviation relay_turn := (relay_turn refusal bound transform).

(** What a turn did: nothing at the end of the stream or at a frame it does not take,
    or one frame, taken whole and handed to the transform. *)
Inductive turn_of (stream : bytes) (s : S) : Turn → S → Prop :=
  | TurnEnd outcome : turn_of stream s (Stop [] false outcome) s
  | TurnFrame t body rest r s' turn :
      stream = wire_frame (t, body) ++ rest → fits (t, body) →
      (Z.of_nat (length body) ≤ bound s)%Z → transform t body s = (r, s') →
      match r with
      | Err e => turn = Stop [] false (Err e)
      | Ok Relay => turn = Next rest (wire_frame (t, body)) []
      | Ok (Replace body') =>
          if (Z.of_nat (length body') + 4 <=? MAX_MESSAGE_LEN)%Z
          then turn = Next rest (wire_frame (t, body')) []
          else turn = Stop [] false (Err (Proxy.FrameTooLarge t (Z.of_nat (length body')) MAX_MESSAGE_LEN))
      | Ok (Reply fs) => turn = Next rest [] fs
      | Ok (RefuseAndClose e) => turn = Stop (refusal e) true (Ok tt)
      end → turn_of stream s turn s'.

Lemma relay_turn_spec stream s turn s' : relay_turn stream s = (turn, s') → turn_of stream s turn s'.
Proof using Type.
  unfold Session.relay_turn, read_exact.
  destruct (split_at_checked FRAME_HEADER_LEN stream) as [[header stream1]|] eqn:E1; [|intros [= <- <-]; constructor].
  apply split_at_checked_Some in E1 as [-> Hl].
  destruct (frame_body_len header) as [[t n]|] eqn:Eh; [|intros [= <- <-]; constructor].
  destruct (Z.ltb_spec (bound s) n) as [|Hb]; [intros [= <- <-]; constructor|].
  destruct (split_at_checked (Z.to_nat n) stream1) as [[body rest]|] eqn:E2; [|intros [= <- <-]; constructor].
  apply split_at_checked_Some in E2 as [-> Hn].
  destruct (header_frame header t n body Hl Eh Hn) as [Hw Hf].
  assert (Z.of_nat (length body) ≤ bound s)%Z as Hb'.
  { apply frame_body_len_spec in Eh as (_ & _ & ?). lia. }
  rewrite app_assoc, Hw. intros E. destruct (transform t body s) as [r s1] eqn:Et.
  apply (TurnFrame _ s t body rest r); [done..| |]; destruct r as [[|b|fs|e]|e]; cbn in *;
    try (injection E as <- <-; done); try (by rewrite Hw in E; injection E as <- <-);
    unfold encode_frame_header in E; destruct (_ <=? _)%Z; by injection E as <- <-.
Qed.

(** What a turn writes are whole frames. *)
Lemma turn_whole stream s turn s' :
  relay_turn stream s = (turn, s') →
  match turn with Next _ f b => whole f ∧ whole b | Stop f _ _ => whole f end.
Proof using Hrefusal Hreply.
  intros [o|t body rest r s1 tn Hs Hf Hb Et Hr]%relay_turn_spec; [apply whole_nil|].
  destruct r as [[|b|fs|e]|e]; try (subst tn; eauto using whole_nil, whole_one).
  destruct (Z.leb_spec (Z.of_nat (length b) + 4) MAX_MESSAGE_LEN); subst tn;
    [split; [by apply (whole_one (t, b))|]|]; apply whole_nil.
Qed.

(** A relay ends: run on the bytes a peer sent before it closed, the loop comes to an
    outcome within as many turns as the stream has bytes, whatever the transform does,
    and what it wrote forward and back are whole frames. *)
Theorem relay_ends stream forward back s :
  whole forward → whole back →
  ∃ forward' back' outcome s',
    relay refusal bound transform (Datatypes.S (length stream)) stream forward back s
      = Some (forward', back', outcome, s') ∧ whole forward' ∧ whole back'.
Proof using Hrefusal Hreply.
  assert (∀ n, length stream < n → whole forward → whole back → ∃ forward' back' outcome s',
    relay refusal bound transform n stream forward back s = Some (forward', back', outcome, s') ∧
    whole forward' ∧ whole back') as Hn; [|by apply Hn; lia].
  intros n. revert stream forward back s. induction n as [|n IH]; intros stream forward back s Hl Hf Hb; [lia|].
  cbn [relay]. destruct (Session.relay_turn refusal bound transform stream s) as [t s1] eqn:E.
  pose proof (turn_whole _ _ _ _ E) as Hw. destruct t as [rest f b|f sb o].
  - apply IH; [|apply whole_app; tauto..].
    apply relay_turn_spec in E. inversion E as [|ty body rest' r s2 tn Hst _ _ _ Hr]. subst. clear E.
    unfold wire_frame in Hl. rewrite length_app in Hl. cbn in Hl.
    destruct r as [[|b'|fs|e]|e]; try done; try (injection Hr as -> _ _; lia).
    destruct (_ <=? _)%Z; [injection Hr as -> _ _; lia|done].
  - eexists _, _, _, _. split; [done|]. split; [by apply whole_app|done].
Qed.

End turn.

(** ** Both directions *)

Lemma frame_whole t body : length body ≤ 1000 → whole (frame t body).
Proof.
  intros Hl. unfold frame, i32_try_from, FRAME_HEADER_LEN.
  destruct (Z.leb_spec (Z.of_nat (5 - 1 + length body)) (2 ^ 31 - 1)); [|lia]. cbn [default].
  replace (Z.of_nat (5 - 1 + length body)) with (Z.of_nat (length body) + 4)%Z by lia.
  apply (whole_one (t, body)). unfold fits, MAX_MESSAGE_LEN. cbn [snd].
  change (Z.shiftl 1 30) with (2 ^ 30)%Z. lia.
Qed.

Lemma floor_boundary_le message n : floor_boundary message n ≤ n.
Proof. induction n as [|n IH]; cbn [floor_boundary]; destruct (is_char_boundary message _); lia. Qed.

Lemma error_response_whole message : whole (error_response message).
Proof.
  unfold error_response. apply frame_whole. cbv zeta. unfold error_field.
  pose proof (floor_boundary_le message (min MAX_ERROR_MESSAGE (length message))).
  rewrite !length_app, length_take. unfold MAX_ERROR_MESSAGE, REFUSED_SQLSTATE in *.
  change (length b#"ERROR") with 5. change (length b#"42501") with 5. cbn [length]. lia.
Qed.

Lemma ready_whole status : whole (ready_for_query status).
Proof. apply frame_whole. cbn. lia. Qed.

Section connection.
Context `{HexCrate, AeadCrate, HmacCrate, Ff1Crate, Lowercase, SqlParserCrate}.
Context (catalog : WriteCatalog) (why_text : RowKeyProblem → bytes).
Context (deref : TransformPtr → bytes * DynTransform) (nonce : nat → bytes) (ks : KeySource).
Context (display : Proxy.Error → bytes).

#[local] Abbreviation turn := (turn catalog why_text deref nonce ks display).

(** What the write path answers are whole frames. *)
Definition answers_whole (m : M QueryRewriter Proxy.Error FrameAction) : Prop :=
  ∀ s fs s', m s = (Ok (Reply fs), s') → whole fs.

Lemma answers_bind {A} (m : M QueryRewriter Proxy.Error A) k :
  (∀ a, answers_whole (k a)) → answers_whole (m ≫= k).
Proof. intros Hk s fs s' (a & s1 & _ & E)%M_bind_Ok. by eapply Hk. Qed.

Lemma answers_relay a : (∀ fs, a ≠ Reply fs) → answers_whole (mret a).
Proof. intros Ha s fs s' [= -> _]. by destruct (Ha fs). Qed.

Lemma answers_reply frames : whole frames → answers_whole (mret (Reply frames)).
Proof. by intros Hw s fs s' [= <- _]. Qed.

Lemma answers_refuse msg : answers_whole (refuse_batch msg).
Proof. intros s fs s' [= <- _]. apply error_response_whole. Qed.

Lemma answers_err e : answers_whole (lift (Err e)).
Proof. by intros s fs s' [=]. Qed.

Ltac answers :=
  repeat lazymatch goal with
  | |- answers_whole (refuse_batch _) => apply answers_refuse
  | |- answers_whole (lift (Err _)) => apply answers_err
  | |- answers_whole (match ?x with _ => _ end) => destruct x
  | |- answers_whole (mret (match ?x with _ => _ end)) => destruct x
  | |- answers_whole (mret _) => apply answers_relay; discriminate
  | |- answers_whole (_ ≫= _) => apply answers_bind; intros ?
  end.

Lemma query_answers rows body : answers_whole (on_query catalog rows deref nonce ks body).
Proof.
  unfold on_query. apply answers_bind. intros [query rest]. apply answers_bind. intros [outcome|msg].
  - apply answers_bind. intros _. destruct (rewritten outcome); by apply answers_relay.
  - apply answers_bind. intros status. apply answers_reply, whole_app; [apply error_response_whole|apply ready_whole].
Qed.

Lemma parse_answers rows body : answers_whole (on_parse catalog rows deref nonce ks body).
Proof. unfold on_parse. answers. Qed.

Lemma bind_answers body : answers_whole (on_bind catalog why_text deref nonce ks body).
Proof. unfold on_bind. answers. Qed.

Lemma client_answers rows msg_type body :
  answers_whole (on_client_frame catalog rows why_text deref nonce ks msg_type body).
Proof.
  intros s fs s'. unfold on_client_frame. destruct (qr_awaiting_sync s).
  - unfold discard_until_sync. destruct msg_type; intros [= <- _]; first [apply ready_whole | apply whole_nil].
  - destruct msg_type; try (by intros [=]);
      first [apply query_answers | apply parse_answers | apply bind_answers
            | intros E; revert E; match goal with |- ?m s = _ → _ => enough (answers_whole m) as Hm by apply Hm end; answers].
Qed.

#[local] Abbreviation client_transform := (client_transform catalog why_text deref nonce ks).
#[local] Abbreviation upstream_transform := (upstream_transform ks).
#[local] Abbreviation client_turn := (client_turn catalog why_text deref nonce ks display).
#[local] Abbreviation upstream_turn := (upstream_turn ks display).

Lemma client_turn_whole stream s t s' :
  client_turn stream s = (t, s') →
  match t with Next _ f b => whole f ∧ whole b | Stop f _ _ => whole f end.
Proof.
  apply turn_whole; [intros e; apply error_response_whole|]. intros ty body s1 fs s2. unfold Session.client_transform.
  destruct (se_rewriter s1) as [q|]; [|done].
  destruct (on_client_frame _ _ _ _ _ _ _ _ _) as [r q'] eqn:E. intros [= -> _]. by eapply client_answers.
Qed.

Lemma upstream_turn_whole stream s t s' :
  upstream_turn stream s = (t, s') →
  match t with Next _ f b => whole f ∧ whole b | Stop f _ _ => whole f end.
Proof.
  apply turn_whole; [intros e; apply error_response_whole|]. intros ty body s1 fs s2. unfold Session.upstream_transform.
  destruct (se_decryptor _) as [d|]; [|done]. unfold on_frame.
  destruct (inspect _ _ _ _) as [[[b|]|e] d'];
    [done|done|]. by destruct (is_refusal e).
Qed.

(** *** Whole frames *)

(** A step of one relay: what it leaves of the side it reads, of the other and of the
    state. *)
Inductive side_step (run : bytes → SessionState → Turn * SessionState) (reader peer : Side) (s : SessionState)
    : Side → Side → SessionState → Prop :=
  | side_turn t s' reader' peer' :
      si_running reader = true → run (si_stream reader) s = (t, s') → after_turn t reader peer = (reader', peer') →
      side_step run reader peer s reader' peer' s'
  | side_cut n t s' reader' peer' :
      si_running reader = true → run (si_stream reader) s = (t, s') → cut_turn n t reader peer = (reader', peer') →
      side_step run reader peer s reader' peer' s'
  | side_stops : side_step run reader peer s (ended reader) (shut peer) s
  | side_ends : side_step run reader peer s (ended reader) peer s.

Lemma turn_sides c c' :
  turn c c' →
  side_step client_turn (cn_client c) (cn_upstream c) (cn_state c) (cn_client c') (cn_upstream c') (cn_state c') ∨
  side_step upstream_turn (cn_upstream c) (cn_client c) (cn_state c) (cn_upstream c') (cn_client c') (cn_state c') ∨
  cn_state c' = cn_state c ∧ (cn_client c' = cn_client c ∧ cn_upstream c' = cn_upstream c ∨
    cn_client c' = ended (cn_client c) ∧ cn_upstream c' = ended (cn_upstream c)).
Proof.
  intros Ht. destruct Ht; cbn; first
    [ by left; econstructor | by left; eapply side_cut | by right; left; econstructor
    | by right; left; eapply side_cut | by right; right; split; [|left] | by right; right; split; [|right] ].
Qed.

(** An invariant of the two sides and the state that either relay keeps. *)
Lemma sides_invariant (P : Side → Side → SessionState → Prop) :
  (∀ client upstream s client' upstream' s', P client upstream s →
    side_step client_turn client upstream s client' upstream' s' → P client' upstream' s') →
  (∀ client upstream s client' upstream' s', P client upstream s →
    side_step upstream_turn upstream client s upstream' client' s' → P client' upstream' s') →
  ∀ c c', rtc turn c c' →
    P (cn_client c) (cn_upstream c) (cn_state c) → P (cn_client c') (cn_upstream c') (cn_state c').
Proof.
  intros Hc Hu c c' Hr. induction Hr as [c|c1 c2 c3 Ht _ IH]; [done|]. intros Hp. apply IH.
  destruct (turn_sides _ _ Ht) as [E|[E|[-> [[-> ->]|[-> ->]]]]]; [by eapply Hc|by eapply Hu|done|].
  eapply Hu; [|apply side_ends]. eapply Hc; [exact Hp|apply side_ends].
Qed.

(** What was written is whole frames; only when a write was given up may the last be cut
    short. *)
Definition side_framed (w : Side) : Prop :=
  (si_broken w = false → whole (si_out w)) ∧ ∃ more, whole (si_out w ++ more).

Lemma framed_new stream : side_framed (side_new stream).
Proof. split; [intros _; apply whole_nil|exists []; apply whole_nil]. Qed.

Lemma framed_shut w : side_framed w → side_framed (shut w).
Proof. done. Qed.

Lemma takes_true w : takes w = true → si_broken w = false.
Proof. unfold takes. by destruct (si_open w), (si_broken w). Qed.

Lemma framed_write data w w' : whole data → side_framed w → write data w = Some w' → side_framed w'.
Proof.
  intros Hd [Ho Hm]. unfold write. case_bool_decide; [by intros [= <-]|].
  destruct (takes w) eqn:Et; [|done]. intros [= <-]. apply takes_true in Et.
  assert (whole (si_out w ++ data)) by (apply whole_app; auto). split; [done|]. exists []. by rewrite app_nil_r.
Qed.

Lemma framed_part n data w : whole data → side_framed w → side_framed (write_part n data w).
Proof.
  intros Hd [Ho Hm]. unfold write_part. case_bool_decide; [done|]. destruct (takes w) eqn:Et; [|done].
  apply takes_true in Et. split; [done|]. exists (drop n data). cbn. rewrite <- app_assoc, take_drop.
  apply whole_app; auto.
Qed.

Lemma framed_step run reader peer s reader' peer' s' :
  (∀ stream s t s', run stream s = (t, s') →
    match t with Next _ f b => whole f ∧ whole b | Stop f _ _ => whole f end) →
  side_step run reader peer s reader' peer' s' →
  side_framed reader → side_framed peer → side_framed reader' ∧ side_framed peer'.
Proof.
  intros Hrun Hstep Hr Hp. destruct Hstep as [t s' reader' peer' _ E Ea|n t s' reader' peer' _ E Ea| |];
    [apply Hrun in E..|split; [done|by apply framed_shut]|done].
  - destruct t as [stream f b|f sb o]; cbn in Ea.
    + destruct E as [Hf Hb]. destruct (write b reader) as [r'|] eqn:E1; [|by injection Ea as <- <-].
      destruct (write f peer) as [p'|] eqn:E2; injection Ea as <- <-; [|done].
      split; [exact (framed_write b reader r' Hb Hr E1)|exact (framed_write f peer p' Hf Hp E2)].
    + destruct (write f peer) as [p'|] eqn:E2; injection Ea as <- <-; [|done].
      pose proof (framed_write f peer p' E Hp E2). split; [destruct sb; [exact (framed_shut _ Hr)|exact Hr]|].
      by destruct (is_ok o); [apply framed_shut|].
  - destruct t as [stream f b|f sb o]; cbn in Ea; injection Ea as <- <-.
    + destruct E as [Hf Hb]. split; [exact (framed_part n b reader Hb Hr)|by apply framed_part].
    + split; [exact Hr|by apply framed_part].
Qed.

Lemma steps_framed c c' :
  rtc turn c c' → side_framed (cn_client c) → side_framed (cn_upstream c) →
  side_framed (cn_client c') ∧ side_framed (cn_upstream c').
Proof.
  intros Hr Hc Hu. apply (sides_invariant (λ a b _, side_framed a ∧ side_framed b)) in Hr; [done|..|done].
  - intros a b s1 a' b' s2 [Ha Hb] E. eapply framed_step in E; [exact E|apply client_turn_whole|done..].
  - intros a b s1 a' b' s2 [Ha Hb] E. eapply framed_step in E as [? ?]; [done|apply upstream_turn_whole|done..].
Qed.

(** C23: framing is never lost. Whatever the two peers send, in whatever order the two
    relays run, and whether frames are relayed, rewritten, answered or refused, whether
    shutdown is asked for, reads and writes fail or the drain period runs out: what each
    peer has received is a sequence of whole frames whose length fields are right and
    within the protocol's limit. If a write to it was given up the last of them may be cut
    short, and nothing follows it; that a connection of which a write failed takes no more
    bytes is the transport's part ([takes]). *)
Theorem streams_stay_framed client upstream s c :
  rtc turn (started client upstream s) c → side_framed (cn_client c) ∧ side_framed (cn_upstream c).
Proof.
  intros Hr. eapply steps_framed; [exact Hr|apply framed_new..].
Qed.

(** *** What the backend said *)

(** The effect of one backend frame on the two flags. *)
Definition observe (o : bool * byte) (f : byte * bytes) : bool * byte :=
  let '(authenticated, status) := o in
  match f with
  | ("R"%byte, body) => (authenticated || bool_decide (take 4 body = be_bytes 4 0), status)
  | ("Z"%byte, b :: _) => (authenticated, b)
  | _ => o
  end.

Definition observed (seen : list (byte * bytes)) : bool * byte := foldl observe (false, TX_IDLE) seen.

Definition flags (s : SessionState) : bool * byte := (se_authenticated s, se_tx_status s).

Lemma upstream_flags t body s r s' :
  upstream_transform t body s = (r, s') → flags s' = observe (flags s) (t, body).
Proof.
  assert (flags (note_backend_state t body (note_authentication t body s)) = observe (flags s) (t, body)) as Hn.
  { unfold note_authentication. destruct (decide (t = "R"%byte)) as [->|Hr].
    - cbn [note_backend_state observe flags]. rewrite bool_decide_true by done. cbn [andb].
      destruct (bool_decide (take 4 body = be_bytes 4 0)) eqn:E.
      + apply bool_decide_eq_true in E. rewrite bool_decide_true; [unfold flags; cbn; by rewrite orb_true_r|].
        apply (f_equal length) in E. rewrite length_take, length_be_bytes in E. lia.
      + rewrite andb_false_r, orb_false_r. done.
    - rewrite bool_decide_false by done. cbn [andb]. unfold flags. destruct t; try done; by destruct body. }
  unfold Session.upstream_transform. cbv zeta. rewrite <- Hn.
  destruct (se_decryptor _) as [d|]; [|by intros [= _ <-]].
  destruct (on_frame _ _ _ _) as [r' d']. by intros [= _ <-].
Qed.

Lemma client_flags t body s r s' : client_transform t body s = (r, s') → flags s' = flags s.
Proof.
  unfold Session.client_transform. destruct (se_rewriter s) as [q|]; [|by intros [= _ <-]].
  destruct (on_client_frame _ _ _ _ _ _ _ _ _) as [r' q']. by intros [= _ <-].
Qed.

Lemma write_side data w w' : write data w = Some w' → si_stream w' = si_stream w ∧ si_running w' = si_running w.
Proof. unfold write. case_bool_decide; [by intros [= <-]|]. destruct (takes w); by intros [= <-]. Qed.

Lemma write_part_side n data w :
  si_stream (write_part n data w) = si_stream w ∧ si_running (write_part n data w) = si_running w.
Proof. unfold write_part. case_bool_decide; [done|]. by destruct (takes w). Qed.

(** A step of a relay leaves the other side's reader alone, and a reader that still runs
    has gone on behind the frame it took. *)
Lemma step_reads run reader peer s reader' peer' s' :
  side_step run reader peer s reader' peer' s' →
  (si_stream peer' = si_stream peer ∧ si_running peer' = si_running peer) ∧
  (si_running reader' = true → ∃ stream f b, run (si_stream reader) s = (Next stream f b, s') ∧ si_stream reader' = stream).
Proof.
  intros Hstep. destruct Hstep as [t s' reader' peer' _ E Ea|n t s' reader' peer' _ E Ea| |]; [| |done..].
  - destruct t as [stream f b|f sb o]; cbn in Ea.
    + destruct (write b reader) as [r'|] eqn:E1; [|by injection Ea as <- <-].
      destruct (write f peer) as [p'|] eqn:E2; injection Ea as <- <-; [|done]. apply write_side in E2. split; [done|]. eauto 6.
    + destruct (write f peer) as [p'|] eqn:E2; injection Ea as <- <-; [|done]. apply write_side in E2.
      by destruct (is_ok o).
  - destruct t as [stream f b|f sb o]; cbn in Ea; injection Ea as <- <-; (split; [apply write_part_side|done]).
Qed.

(** A step of a relay runs the transform once, on a frame it took, or not at all. *)
Lemma step_runs {refusal bound transform} reader peer s reader' peer' s' :
  side_step (relay_turn refusal bound transform) reader peer s reader' peer' s' →
  s' = s ∧ (si_running reader' = true → False) ∨
  ∃ ty body rest r, si_running reader = true ∧ si_stream reader = wire_frame (ty, body) ++ rest ∧
    transform ty body s = (r, s') ∧ (si_running reader' = true → si_stream reader' = rest).
Proof.
  intros Hstep. pose proof (step_reads _ _ _ _ _ _ _ Hstep) as [_ Hn].
  assert (∀ t, relay_turn refusal bound transform (si_stream reader) s = (t, s') → si_running reader = true →
    s' = s ∧ (si_running reader' = true → False) ∨
    ∃ ty body rest r, si_running reader = true ∧ si_stream reader = wire_frame (ty, body) ++ rest ∧
      transform ty body s = (r, s') ∧ (si_running reader' = true → si_stream reader' = rest)) as Hgo.
  { intros t E1 Hrun. pose proof (relay_turn_spec _ _ _ _ _ _ _ E1) as Hs. revert E1 Hn. clear Hstep.
    destruct Hs as [o|ty body rest r s1 tn Hst _ _ Et Htn]; intros E1 Hn.
    - left. split; [done|]. intros Hr. destruct (Hn Hr) as (? & ? & ? & E2 & _). by rewrite E1 in E2.
    - right. exists ty, body, rest, r. split_and!; [done..|]. intros Hr. destruct (Hn Hr) as (stream & f & b & E2 & ->).
      rewrite E1 in E2. injection E2 as ->. destruct r as [[|b'|fs|e]|e]; try (by injection Htn as -> _ _); try done.
      destruct (_ <=? _)%Z; [by injection Htn as -> _ _|done]. }
  destruct Hstep; [by eapply Hgo|by eapply Hgo|by left|by left].
Qed.

(** What the session knows of the backend, and where it is in the backend's stream. *)
Definition tracks (upstream : bytes) (_ w : Side) (s : SessionState) : Prop :=
  ∃ seen rest, upstream = wire_frames seen ++ rest ∧ flags s = observed seen ∧
    (si_running w = true → rest = si_stream w).

Lemma client_tracks upstream client w s client' w' s' :
  tracks upstream client w s → side_step client_turn client w s client' w' s' → tracks upstream client' w' s'.
Proof.
  intros (seen & rest & Hu & Hf & Hr) E. exists seen, rest. pose proof (step_reads _ _ _ _ _ _ _ E) as [[-> ->] _].
  split_and!; [done| |done]. rewrite <- Hf. apply step_runs in E as [[-> _]|(ty & body & ? & r & _ & _ & Et & _)]; [done|].
  by eapply client_flags.
Qed.

Lemma upstream_tracks upstream client w s client' w' s' :
  tracks upstream client w s → side_step upstream_turn w client s w' client' s' → tracks upstream client' w' s'.
Proof.
  intros (seen & rest & Hu & Hf & Hr) E.
  apply step_runs in E as [[-> Hn]|(ty & body & rest' & r & Hrun & Hst & Et & Hn)].
  { exists seen, rest. split_and!; [done..|]. intros Hx. by destruct (Hn Hx). }
  exists (seen ++ [(ty, body)]), rest'. rewrite wire_frames_app, <- app_assoc. split_and!.
  - by rewrite Hu, (Hr Hrun), Hst, wire_frames_one.
  - apply upstream_flags in Et. unfold observed. rewrite foldl_app. cbn [foldl]. fold (observed seen). by rewrite Et, Hf.
  - intros Hx. by rewrite (Hn Hx).
Qed.

(** The write path's view of the backend is exact. At any moment of any
    interleaving, the backend's stream splits into the frames its relay has taken and
    a rest, and the session is authenticated just when an AuthenticationOk is among
    the frames taken, and holds the transaction status of the last ReadyForQuery among
    them, idle before the first. *)
Theorem backend_state_is_tracked client upstream rows writes settings caches c :
  rtc turn (started client upstream (session_new rows writes settings caches)) c →
  ∃ seen rest, upstream = wire_frames seen ++ rest ∧
    (se_authenticated (cn_state c), se_tx_status (cn_state c)) = observed seen.
Proof.
  intros Hr. apply (sides_invariant (tracks upstream)) in Hr as (seen & rest & Hu & Hf & _);
    [by exists seen, rest|..].
  - intros. by eapply client_tracks.
  - intros. by eapply upstream_tracks.
  - by exists [], upstream.
Qed.

(** *** Without protection *)

(** What was written to [peer] is what [reader] sent, up to where it has been read. *)
Definition copied (source : bytes) (reader peer : Side) : Prop :=
  ∃ rest, source = si_out peer ++ rest ∧ (si_running reader = true → rest = si_stream reader).

(** A turn that relays. *)
Definition copies (stream : bytes) (t : Turn) : Prop :=
  match t with
  | Next rest forward back => stream = forward ++ rest ∧ back = []
  | Stop forward _ _ => forward = []
  end.

Lemma copied_write source reader peer f rest peer' :
  copied source reader peer → si_running reader = true → si_stream reader = f ++ rest →
  write f peer = Some peer' → source = si_out peer' ++ rest.
Proof.
  intros (rest0 & Hs & Hr) Hrun Hst. rewrite Hs, (Hr Hrun), Hst. unfold write. case_bool_decide; [by intros [= <-]; subst|].
  destruct (takes peer); [|done]. intros [= <-]. cbn. by rewrite app_assoc.
Qed.

Lemma copied_part source reader peer n f rest :
  copied source reader peer → si_running reader = true → si_stream reader = f ++ rest →
  ∃ more, source = si_out (write_part n f peer) ++ more.
Proof.
  intros (rest0 & Hs & Hr) Hrun Hst. unfold write_part.
  case_bool_decide; [by exists rest0|]. destruct (takes peer); [|by exists rest0].
  exists (drop n f ++ rest). cbn. rewrite Hs, (Hr Hrun), Hst, <- app_assoc. by rewrite (app_assoc (take n f)), take_drop.
Qed.

Lemma step_copies run source source' reader peer s reader' peer' s' :
  (∀ t s', run (si_stream reader) s = (t, s') → copies (si_stream reader) t) →
  side_step run reader peer s reader' peer' s' →
  copied source reader peer → copied source' peer reader →
  copied source reader' peer' ∧ copied source' peer' reader'.
Proof.
  intros Hrun Hstep Hc Hc'. pose proof (step_reads _ _ _ _ _ _ _ Hstep) as [[Hps Hpr] _].
  assert (∀ reader', si_out reader' = si_out reader → copied source' peer' reader') as Hback.
  { intros r' E. destruct Hc' as (rest' & Hs' & Hr'). exists rest'. by rewrite E, Hpr, Hps. }
  assert (∀ p', si_out p' = si_out peer → copied source (ended reader) p') as Hfwd.
  { intros p' E. destruct Hc as (rest & Hs & _). exists rest. by rewrite E. }
  destruct Hstep as [t s' reader' peer' Hr E Ea|n t s' reader' peer' Hr E Ea| |];
    [apply Hrun in E..|split; [by apply Hfwd|by apply Hback]|split; [by apply Hfwd|by apply Hback]].
  - destruct t as [stream f b|f sb o]; cbn in E, Ea.
    + destruct E as [Hst ->]. unfold write at 1 in Ea. rewrite bool_decide_true in Ea by done.
      destruct (write f peer) as [p'|] eqn:Ew; injection Ea as <- <-; [|split; [by apply Hfwd|by apply Hback]].
      split; [|by apply Hback]. exists stream. split; [by eapply copied_write|done].
    + subst f. unfold write in Ea. rewrite bool_decide_true in Ea by done. injection Ea as <- <-.
      split; [|apply Hback; by destruct sb]. destruct Hc as (rest & Hs & _). exists rest. by destruct sb, (is_ok o).
  - destruct t as [stream f b|f sb o]; cbn in E, Ea; injection Ea as <- <-.
    + destruct E as [Hst ->]. split; [|by apply Hback].
      destruct (copied_part source reader peer n f stream Hc Hr Hst) as [more Hm]. by exists more.
    + subst f. split; [by apply Hfwd|by apply Hback].
Qed.

(** A session that protects nothing. *)
Definition bare (s : SessionState) : Prop := se_rewriter s = None ∧ se_decryptor s = None.

Lemma note_bare t body s : bare s → bare (note_backend_state t body (note_authentication t body s)).
Proof.
  intros Hb. unfold note_authentication. destruct (_ && _); destruct t; try done; by destruct body.
Qed.

Lemma relayed_turn {S} refusal bound (transform : byte → bytes → M S Proxy.Error FrameAction) stream s t s' :
  (∀ ty body, (transform ty body s).1 = Ok Relay) →
  relay_turn refusal bound transform stream s = (t, s') →
  copies stream t ∧ (s' = s ∨ ∃ ty body, s' = (transform ty body s).2).
Proof.
  intros Hr [o|ty body rest r s1 tn Hst _ _ Et Htn]%relay_turn_spec; [by split; [|left]|].
  pose proof (Hr ty body) as Hok. rewrite Et in Hok. cbn in Hok. subst r tn. split; [done|right].
  exists ty, body. by rewrite Et.
Qed.

(** C24: with no column configured the proxy is transparent: at any moment of any
    interleaving, what each peer has received is a prefix of what the other sent, byte
    for byte. *)
Theorem unprotected_session_is_transparent client upstream settings caches c :
  rtc turn (started client upstream (session_new None false settings caches)) c →
  si_out (cn_upstream c) `prefix_of` client ∧ si_out (cn_client c) `prefix_of` upstream.
Proof.
  intros Hr. apply (sides_invariant (λ a b s, bare s ∧ copied client a b ∧ copied upstream b a)) in Hr
    as (_ & (rest & -> & _) & (rest' & -> & _)); [split; by apply prefix_app_r|..].
  - intros a b s a' b' s' (Hb & Ht1 & Ht2) E.
    assert (∀ ty body, client_transform ty body s = (Ok Relay, s)) as Hrel.
    { intros ty body. unfold Session.client_transform. by rewrite (proj1 Hb). }
    split. { apply step_runs in E as [[-> _]|(ty & body & ? & r & _ & _ & Et & _)]; [done|]. rewrite Hrel in Et. by injection Et as _ <-. }
    eapply step_copies in E; [exact E| |done..]. intros t s2 Et. eapply relayed_turn in Et; [apply Et|].
    intros ty body. by rewrite Hrel.
  - intros a b s a' b' s' (Hb & Ht1 & Ht2) E.
    assert (∀ ty body, (upstream_transform ty body s).1 = Ok Relay ∧ bare (upstream_transform ty body s).2) as Hrel.
    { intros ty body. unfold Session.upstream_transform. cbv zeta. rewrite (proj2 (note_bare ty body _ Hb)).
      split; [done|by apply note_bare]. }
    split. { apply step_runs in E as [[-> _]|(ty & body & ? & r & _ & _ & Et & _)]; [done|].
      destruct (Hrel ty body) as [_ Hx]. by rewrite Et in Hx. }
    eapply step_copies in E as [? ?]; [done| |done..]. intros t s2 Et. eapply relayed_turn in Et; [apply Et|].
    intros ty body. apply Hrel.
  - split_and!; [done|by exists client|by exists upstream].
Qed.

(** *** Before authentication *)

(** A peer the backend has not accepted cannot make the proxy take a frame over the
    pre-authentication bound: the frame is refused from its header, nothing is written
    and no state changes. *)
Theorem preauth_frame_refused stream s t body rest :
  se_authenticated s = false → fits (t, body) →
  stream = wire_frame (t, body) ++ rest → (MAX_PRE_AUTH_MESSAGE_LEN < Z.of_nat (length body))%Z →
  client_turn stream s
  = (Stop [] false (Err (Proxy.PreAuthFrameTooLarge t (Z.of_nat (length body)) MAX_PRE_AUTH_MESSAGE_LEN)), s).
Proof.
  intros Ha Hf -> Hl. unfold Session.client_turn, relay_turn, read_exact.
  set (header := [t] ++ be_bytes 4 (Z.of_nat (length body) + 4)).
  assert (length header = FRAME_HEADER_LEN) as Hh by (unfold header; by rewrite length_app, length_be_bytes).
  change (wire_frame (t, body)) with (header ++ body). rewrite <- app_assoc, <- Hh, split_at_checked_app.
  assert (frame_body_len header = Ok (t, Z.of_nat (length body))) as ->.
  { apply frame_body_len_spec. unfold header, fits, MAX_MESSAGE_LEN in *. change (Z.shiftl 1 30) with (2 ^ 30)%Z in *.
    cbn [snd] in Hf. split; [done|]. rewrite (drop_app_length' [t]) by done. rewrite take_ge by (rewrite length_be_bytes; lia).
    rewrite i32_be_bytes by (unfold in_bits; lia). lia. }
  cbn [max_body]. rewrite Ha. by destruct (Z.ltb_spec MAX_PRE_AUTH_MESSAGE_LEN (Z.of_nat (length body))); [|lia].
Qed.

End connection.

(** ** The startup phase *)

(** A startup message within its bounds. *)
Definition startup_sized (msg : bytes) : Prop :=
  (8 ≤ Z.of_nat (length msg) ≤ MAX_STARTUP_MESSAGE_LEN)%Z.

Section startup.
Context (acceptor : option (bytes → result Proxy.Error bytes)).

Lemma read_startup_Some stream msg rest :
  read_startup_message stream = Ok (Some (msg, rest)) → stream = msg ++ rest ∧ startup_sized msg.
Proof.
  unfold read_startup_message, read_exact.
  destruct (split_at_checked 4 stream) as [[len s1]|] eqn:E1; [|done]. apply split_at_checked_Some in E1 as [-> Hl].
  destruct (startup_body_len len) as [n|] eqn:En; cbn; [|done]. apply startup_body_len_spec in En as [Hr ->].
  destruct (split_at_checked _ s1) as [[body s2]|] eqn:E2; [|done]. apply split_at_checked_Some in E2 as [-> Hb].
  intros [= <- <-]. rewrite <- app_assoc. split; [done|].
  unfold startup_sized, MAX_STARTUP_MESSAGE_LEN. rewrite length_app. lia.
Qed.

(** The fuel is enough: more changes nothing. *)
Lemma negotiate_fuel upgrade plain fuel fuel' answers stream :
  length stream < fuel → length stream < fuel' →
  negotiate acceptor upgrade plain fuel answers stream = negotiate acceptor upgrade plain fuel' answers stream.
Proof.
  revert fuel' answers stream. induction fuel as [|fuel IH]; intros [|fuel'] answers stream Hf Hf'; try lia.
  cbn [negotiate]. destruct (read_startup_message stream) as [[[msg rest]|]|] eqn:E; [|done..].
  apply read_startup_Some in E as [-> Hm]. unfold startup_sized in Hm. rewrite length_app in *.
  assert (∀ a, negotiate acceptor upgrade plain fuel a rest = negotiate acceptor upgrade plain fuel' a rest) as Hn
    by (intros a; apply IH; lia).
  destruct (startup_kind _); [|by apply Hn|done..]. destruct acceptor; [|by apply Hn]. by destruct plain.
Qed.

Lemma negotiate_forward upgrade plain fuel answers stream answers' msg p rest :
  negotiate acceptor upgrade plain fuel answers stream = (answers', Forward msg p rest) →
  (∃ pre, stream = pre ++ msg ++ rest ∧ p = plain ∧ startup_sized msg ∧
     (is_Some acceptor → plain = false)) ∨
  (∃ pre raw answers1, stream = pre ++ raw ∧ plain = true ∧
     upgrade answers1 raw = (answers', Forward msg p rest)).
Proof.
  revert answers stream. induction fuel as [|fuel IH]; intros answers stream; cbn [negotiate]; [done|].
  destruct (read_startup_message stream) as [[[m r]|]|] eqn:E; [|done..].
  apply read_startup_Some in E as [-> Hm].
  assert (∀ a, negotiate acceptor upgrade plain fuel a r = (answers', Forward msg p rest) →
    (∃ pre, m ++ r = pre ++ msg ++ rest ∧ p = plain ∧ startup_sized msg ∧ (is_Some acceptor → plain = false)) ∨
    (∃ pre raw answers1, m ++ r = pre ++ raw ∧ plain = true ∧ upgrade answers1 raw = (answers', Forward msg p rest)))
    as Hgo.
  { intros a [(pre & -> & Hp)|(pre & raw & a1 & -> & Hp)]%IH.
    - left. exists (m ++ pre). by rewrite <- app_assoc.
    - right. exists (m ++ pre), raw, a1. by rewrite <- app_assoc. }
  assert ((if bool_decide (is_Some acceptor) && plain then (answers, Failed Proxy.PlaintextRejected)
    else (answers, Forward m plain r)) = (answers', Forward msg p rest) →
    ∃ pre, m ++ r = pre ++ msg ++ rest ∧ p = plain ∧ startup_sized msg ∧ (is_Some acceptor → plain = false)) as Hst.
  { destruct (bool_decide (is_Some acceptor) && plain) eqn:Ep; [done|]. intros [= <- <- <- <-]. exists [].
    split_and!; [done..|]. intros Ha. rewrite bool_decide_true in Ep by done. done. }
  destruct (startup_kind _); [|by apply Hgo|by left; apply Hst..].
  destruct acceptor as [acc|]; [|by apply Hgo]. destruct plain; [|by apply Hgo].
  intros Hu. right. by exists m, r, (answers ++ b#"S").
Qed.

End startup.

(** A session that starts: the message forwarded, and how each hop carried it. *)
Lemma start_session_Ok acceptor connector addr client upstream st :
  start_session acceptor connector addr client upstream = Ok (Some st) →
  ∃ startup, startup_sized startup ∧ st_settings st = startup_settings startup ∧
    match acceptor with
    | None => ∃ skipped, client = skipped ++ startup ++ st_client st
    | Some accept => ∃ before raw skipped, client = before ++ raw ∧ accept raw = Ok (skipped ++ startup ++ st_client st)
    end ∧
    match connector with
    | None => st_plain_sent st = startup ∧ st_sent st = [] ∧ st_upstream st = upstream
    | Some connect => st_plain_sent st = ssl_request ∧ st_sent st = startup ∧
        ∃ answer, upstream = "S"%byte :: answer ∧ connect answer = Ok (st_upstream st)
    end.
Proof.
  unfold start_session, client_startup. destruct (negotiate _ _ _ _ _ _) as [answers end_] eqn:En. cbn [snd].
  destruct end_ as [|msg p rest|e]; try done. intros Hst. exists msg.
  assert (st_client st = rest ∧ st_settings st = startup_settings msg ∧
    match connector with
    | None => st_plain_sent st = msg ∧ st_sent st = [] ∧ st_upstream st = upstream
    | Some connect => st_plain_sent st = ssl_request ∧ st_sent st = msg ∧
        ∃ answer, upstream = "S"%byte :: answer ∧ connect answer = Ok (st_upstream st)
    end) as (-> & -> & Hup).
  { destruct connector as [connect|]; [|by injection Hst as <-].
    unfold upstream_tls_answer in Hst. destruct upstream as [|b answer]; [done|].
    case_bool_decide as Hb; [|done]. cbn in Hst. subst b.
    destruct (connect answer) as [up|] eqn:Eu; [|done]. injection Hst as <-. cbn. split_and!; eauto. }
  apply negotiate_forward in En as [(pre & -> & _ & Hl & Hp)|(before & raw & a1 & -> & _ & Hu)].
  - destruct acceptor; [by discriminate Hp|]. split_and!; eauto.
  - unfold over_tls in Hu. destruct acceptor as [accept|]; [|done]. destruct (accept raw) as [clear|e] eqn:Ea; [|done].
    apply negotiate_forward in Hu as [(skipped & -> & _ & Hl & _)|(? & ? & ? & _ & [=] & _)]. split_and!; eauto 6.
Qed.

(** Both hops are encrypted when configured. With TLS for clients, nothing is
    forwarded unless the client upgraded: the startup message comes out of the stream
    behind the handshake, within the startup bound, and what follows it is what the
    relay reads. With TLS for the server, the only bytes sent in the clear are the
    request for it, and only a server that answers S gets the message, inside TLS. *)
Theorem startup_crosses_no_plaintext_hop accept connector addr client upstream st :
  start_session (Some accept) connector addr client upstream = Ok (Some st) →
  ∃ before raw clear skipped startup,
    client = before ++ raw ∧ accept raw = Ok clear ∧ clear = skipped ++ startup ++ st_client st ∧
    startup_sized startup ∧ st_settings st = startup_settings startup ∧
    match connector with
    | None => st_plain_sent st = startup ∧ st_upstream st = upstream
    | Some connect => st_plain_sent st = ssl_request ∧ st_sent st = startup ∧
        ∃ answer, upstream = "S"%byte :: answer ∧ connect answer = Ok (st_upstream st)
    end.
Proof.
  intros (startup & Hl & Hs & (before & raw & skipped & Hc & Ha) & Hup)%start_session_Ok.
  exists before, raw, (skipped ++ startup ++ st_client st), skipped, startup. split_and!; [done..|].
  by destruct connector; [|destruct Hup as (? & _ & ?)].
Qed.

(** ** The startup parameters *)

Definition wire_parameter (p : bytes * bytes) : bytes := p.1 ++ x00 :: (p.2 ++ [x00]).

Definition parameter_ok (p : bytes * bytes) : Prop := p.1 ≠ [] ∧ (x00 ∉ p.1) ∧ (x00 ∉ p.2).

(** A parameter that may leave the search path, or the reading of string literals, other
    than the rewrite assumes. *)
Definition moves_path (p : bytes * bytes) : bool :=
  eq_ignore_ascii_case p.1 b#"search_path" && negb (bool_decide (p.2 = b#"public"))
  || eq_ignore_ascii_case p.1 b#"options" && mentions p.2 b#"search_path".
Definition moves_strings (p : bytes * bytes) : bool :=
  eq_ignore_ascii_case p.1 b#"standard_conforming_strings" && negb (startup_is_on p.2)
  || eq_ignore_ascii_case p.1 b#"options" && mentions p.2 b#"standard_conforming_strings".

Lemma startup_parameter_moves p settings :
  startup_parameter p.1 p.2 settings =
  {| su_search_path_trusted := su_search_path_trusted settings && negb (moves_path p);
     su_escape_strings := su_escape_strings settings || moves_strings p |}.
Proof.
  assert (∀ a b, eq_ignore_ascii_case a b = false → eq_ignore_ascii_case p.1 a = true →
    eq_ignore_ascii_case p.1 b = false) as Hne.
  { intros a b Hab Ha. destruct (eq_ignore_ascii_case p.1 b) eqn:E; [|done].
    by rewrite (eq_ignore_ascii_case_trans _ _ _ Ha E) in Hab. }
  unfold startup_parameter, moves_path, moves_strings. destruct settings as [tr es]. cbn [su_search_path_trusted su_escape_strings].
  destruct (eq_ignore_ascii_case p.1 b#"search_path") eqn:E1.
  { rewrite (Hne b#"search_path" b#"options" eq_refl E1), (Hne b#"search_path" b#"standard_conforming_strings" eq_refl E1). cbn.
    by rewrite !orb_false_r, negb_involutive. }
  destruct (eq_ignore_ascii_case p.1 b#"standard_conforming_strings") eqn:E2.
  { rewrite (Hne b#"standard_conforming_strings" b#"options" eq_refl E2). cbn. by rewrite orb_false_r, andb_true_r. }
  cbn. destruct (eq_ignore_ascii_case p.1 b#"options"); cbn; [done|]. by rewrite andb_true_r, orb_false_r.
Qed.

(** The settings read off a startup packet are exactly those its parameters leave:
    the search path is trusted just when every [search_path] parameter is [public] and
    no [options] mentions it, and literals are read without escapes just when every
    [standard_conforming_strings] turns it on and no [options] mentions it; in any
    letter case, in any order and for any number of parameters. *)
Theorem startup_settings_exact header params rest :
  length header = STARTUP_HEADER_LEN → Forall parameter_ok params →
  startup_settings (header ++ concat (wire_parameter <$> params) ++ x00 :: rest) =
  {| su_search_path_trusted := forallb (λ p, negb (moves_path p)) params;
     su_escape_strings := existsb moves_strings params |}.
Proof.
  intros Hh Hp. unfold startup_settings. rewrite bool_decide_true by (rewrite length_app; lia).
  rewrite drop_app_length' by done.
  assert (∀ fuel settings, length params < fuel →
    startup_loop fuel (concat (wire_parameter <$> params) ++ x00 :: rest) settings =
    {| su_search_path_trusted := su_search_path_trusted settings && forallb (λ p, negb (moves_path p)) params;
       su_escape_strings := su_escape_strings settings || existsb moves_strings params |}) as Hloop.
  { induction Hp as [|p params (Hk & Hk0 & Hv0) _ IH]; intros [|fuel] settings Hf; cbn in Hf; try lia.
    - cbn. rewrite andb_true_r, orb_false_r. by destruct settings.
    - cbn [fmap list_fmap concat forallb existsb startup_loop]. unfold wire_parameter at 1.
      rewrite <- !app_assoc. cbn [app]. rewrite take_cstr_app by done. rewrite bool_decide_false by done.
      rewrite <- app_assoc. cbn [app]. rewrite take_cstr_app by done.
      rewrite IH by lia. rewrite startup_parameter_moves. cbn.
      by rewrite <- andb_assoc, <- orb_assoc. }
  rewrite Hloop; [done|]. rewrite !length_app, Hh.
  assert (length params ≤ length (concat (wire_parameter <$> params))); [|cbn; lia].
  clear. induction params as [|p params IH]; cbn; [lia|]. rewrite length_app.
  unfold wire_parameter at 1. rewrite !length_app. cbn. lia.
Qed.

(** ** Witnesses *)

Module SessionExample.
Export FrameExample.
Import Toy.

Definition quiet : Proxy.Error → bytes := λ _, b#"refused".

(** A relay that changes nothing. *)
Definition verbatim (t : byte) (body : bytes) : M () Proxy.Error FrameAction := λ s, (Ok Relay, s).

Lemma relay_ends_witness :
  ∃ forward' back' outcome s',
    relay (λ _, []) (λ _, MAX_MESSAGE_LEN) verbatim (S (length (wire_frame ("S"%byte, [])))) (wire_frame ("S"%byte, []))
      [] [] tt = Some (forward', back', outcome, s') ∧ whole forward' ∧ whole back'.
Proof.
  apply (relay_ends (λ _, []) (λ _, MAX_MESSAGE_LEN) verbatim (λ _, whole_nil)
    (λ t body s fs s' (E : (Ok Relay, s) = (Ok (Reply fs), s')),
       match E with eq_refl => I end) (wire_frame ("S"%byte, [])) [] [] tt whole_nil whole_nil).
Defined.

Definition plain_session : SessionState := session_new None false startup_default cold.
Definition ready : bytes := wire_frame ("Z"%byte, b#"T").
Definition auth_ok : bytes := wire_frame ("R"%byte, [x00; x00; x00; x00]).

Definition step : Connection → Connection → Prop :=
  @turn hex aead hmac ff1 ascii_lowercase sqlparser empty_catalog why heap nonces source1 quiet.

(** The backend accepts the client and is ready; the client's Sync follows. *)
Definition opened : Connection := started (wire_frame ("S"%byte, [])) (auth_ok ++ ready) plain_session.
Definition accepted : Connection := {|
  cn_client := {| si_stream := wire_frame ("S"%byte, []); si_out := auth_ok; si_open := true; si_broken := false;
    si_running := true |};
  cn_upstream := {| si_stream := ready; si_out := []; si_open := true; si_broken := false;
    si_running := true |};
  cn_state := note_authentication "R"%byte [x00; x00; x00; x00] plain_session;
  cn_shutdown := false; cn_join := Both |}.
Definition synced : Connection := {|
  cn_client := {| si_stream := []; si_out := auth_ok; si_open := true; si_broken := false;
    si_running := true |};
  cn_upstream := {| si_stream := ready; si_out := wire_frame ("S"%byte, []); si_open := true; si_broken := false;
    si_running := true |};
  cn_state := cn_state accepted; cn_shutdown := false; cn_join := Both |}.

Lemma opened_synced : rtc step opened synced.
Proof.
  apply (rtc_l _ _ accepted); [|apply rtc_once].
  - apply (upstream_runs _ _ _ _ _ _ opened (Next ready auth_ok []) (cn_state accepted)
      (cn_upstream accepted) (cn_client accepted)); vm_compute; [exact I|reflexivity..].
  - apply (client_runs _ _ _ _ _ _ accepted (Next [] (wire_frame ("S"%byte, [])) []) (cn_state accepted)
      (cn_client synced) (cn_upstream synced)); vm_compute; [exact I|reflexivity..].
Qed.

Lemma streams_stay_framed_witness : side_framed (cn_client synced) ∧ side_framed (cn_upstream synced).
Proof.
  apply (streams_stay_framed empty_catalog why heap nonces source1 quiet _ _ plain_session synced opened_synced).
Defined.

Lemma backend_state_is_tracked_witness :
  ∃ seen rest, auth_ok ++ ready = wire_frames seen ++ rest ∧ (true, "I"%byte) = observed seen.
Proof.
  apply (backend_state_is_tracked empty_catalog why heap nonces source1 quiet
    (wire_frame ("S"%byte, [])) (auth_ok ++ ready) None false startup_default cold synced opened_synced).
Defined.

Lemma unprotected_session_is_transparent_witness :
  wire_frame ("S"%byte, []) `prefix_of` wire_frame ("S"%byte, []) ∧ auth_ok `prefix_of` auth_ok ++ ready.
Proof.
  apply (unprotected_session_is_transparent empty_catalog why heap nonces source1 quiet
    (wire_frame ("S"%byte, [])) (auth_ok ++ ready) startup_default cold synced opened_synced).
Defined.

Definition large : bytes := repeat x00 (Z.to_nat 16385).

Lemma preauth_frame_refused_witness :
  @client_turn hex aead hmac ff1 ascii_lowercase sqlparser empty_catalog why heap nonces source1 quiet
    (wire_frame ("p"%byte, large) ++ []) plain_session
  = (Stop [] false (Err (Proxy.PreAuthFrameTooLarge "p"%byte (Z.of_nat (length large)) MAX_PRE_AUTH_MESSAGE_LEN)),
     plain_session).
Proof.
  apply (preauth_frame_refused empty_catalog why heap nonces source1 quiet
    (wire_frame ("p"%byte, large) ++ []) plain_session "p"%byte large [] eq_refl); [|reflexivity|];
    unfold fits; vm_compute; congruence.
Defined.

Definition hello : bytes :=
  be_bytes 4 22 ++ be_bytes 4 PROTOCOL_V3 ++ wire_parameter (b#"user", b#"test") ++ b#"more".
Definition identity_tls : bytes → result Proxy.Error bytes := Ok.

Definition greeted : Started :=
  match start_session (Some identity_tls) (Some identity_tls) b#"db" (ssl_request ++ hello) b#"Sok" with
  | Ok (Some st) => st
  | _ => {| st_plain_sent := []; st_sent := []; st_client := []; st_upstream := [];
            st_settings := startup_default |}
  end.

Lemma startup_crosses_no_plaintext_hop_witness :
  st_plain_sent greeted = ssl_request ∧
  ∃ answer, b#"Sok" = "S"%byte :: answer ∧ identity_tls answer = Ok (st_upstream greeted).
Proof.
  destruct (startup_crosses_no_plaintext_hop identity_tls (Some identity_tls) b#"db" (ssl_request ++ hello)
    b#"Sok" greeted) as (_ & _ & _ & _ & startup & _ & _ & _ & _ & _ & Hp & _ & Ha).
  - vm_compute. reflexivity.
  - split; [exact Hp|exact Ha].
Defined.

Lemma startup_settings_exact_witness :
  startup_settings (be_bytes 8 0 ++ concat (wire_parameter <$>
    [(b#"Search_Path", b#"tenant7"); (b#"options", b#"-c standard_conforming_strings=off")]) ++ x00 :: [])
  = {| su_search_path_trusted := false; su_escape_strings := true |}.
Proof.
  rewrite (startup_settings_exact (be_bytes 8 0)
    [(b#"Search_Path", b#"tenant7"); (b#"options", b#"-c standard_conforming_strings=off")] []).
  - vm_compute. reflexivity.
  - apply length_be_bytes.
  - repeat apply Forall_cons_2; [| |apply Forall_nil_2]; (split; [discriminate|]);
      split; apply (bool_decide_eq_true_1 _); vm_compute; reflexivity.
Defined.

(** A peer that closes inside a frame header ends the relay as cleanly as one that
    closes between frames. *)
Lemma truncated_header_is_a_clean_end :
  relay quiet (λ _, MAX_MESSAGE_LEN) verbatim 4 b#"Q12" [] [] tt = Some ([], [], Ok tt, tt).
Proof. reflexivity. Qed.

(** [options=-c search-path=tenant7]: the server reads a dash in an option name as an
    underscore; the scan does not. *)
Lemma dashed_option_not_seen :
  startup_settings (be_bytes 8 0 ++ wire_parameter (b#"options", b#"-c search-path=tenant7") ++ [x00])
  = startup_default.
Proof. vm_compute. reflexivity. Qed.

End SessionExample.
