(* ===== verification/SessionEnd.v ===== *)
(** * Sessions end

    However its relays run, a session comes to its result within as many steps as its
    peers sent bytes: a relay that goes on has consumed a frame, one that does not has
    ended, and the first to end leaves the other the drain period and no more. *)

From S2P Require Import Prelude Sql Utf8 Crates Pgwire Errors Envelope RowKeys Fields Transform.
From S2P Require Import Policy ArrayCodec Lexer Settings Unprotected Portal Rows RowsSpec Catalog Rewrite.
From S2P Require Import Frame FrameSpec Session SessionSpec.

(** What a side, and a connection, can still do. *)
Definition side_bound (w : Side) : nat := if si_running w then S (length (si_stream w)) else 0.
Definition bound (c : Connection) : nat :=
  (if cn_shutdown c then 0 else 1) +
  match cn_join c with Done _ => 0 | _ => S (side_bound (cn_client c) + side_bound (cn_upstream c)) end.

(** The joining of the relays is in step with them. *)
Definition joined (c : Connection) : Prop :=
  match cn_join c with
  | Both => si_running (cn_client c) = true ∧ si_running (cn_upstream c) = true
  | Draining true _ => si_running (cn_client c) = false ∧ si_running (cn_upstream c) = true
  | Draining false _ => si_running (cn_client c) = true ∧ si_running (cn_upstream c) = false
  | Done _ => True
  end.

(** A turn ends its relay exactly when it has an outcome. *)
Lemma outcome_ends t reader peer reader' peer' :
  si_running reader = true → after_turn t reader peer = (reader', peer') →
  si_running reader' = match turn_outcome t reader peer with None => true | Some _ => false end.
Proof.
  intros Hr. destruct t as [stream f b|f sb o]; cbn.
  - destruct (write b reader) as [r'|] eqn:E; [|by intros [= <- _]]. apply write_side in E as [_ E].
    destruct (write f peer); intros [= <- _]; [|done]. cbn. congruence.
  - by destruct (write f peer); intros [= <- _].
Qed.

Lemma outcome_leaves_peer t reader peer reader' peer' :
  after_turn t reader peer = (reader', peer') → si_stream peer' = si_stream peer ∧ si_running peer' = si_running peer.
Proof.
  destruct t as [stream f b|f sb o]; cbn.
  - destruct (write b reader) as [r'|]; [|by intros [= _ <-]].
    destruct (write f peer) eqn:E; intros [= _ <-]; [by apply write_side in E|done].
  - destruct (write f peer) eqn:E; intros [= _ <-]; [|done]. apply write_side in E. by destruct (is_ok o).
Qed.

Lemma cut_sides n t reader peer reader' peer' :
  cut_turn n t reader peer = (reader', peer') →
  si_running reader' = false ∧ si_stream peer' = si_stream peer ∧ si_running peer' = si_running peer.
Proof.
  destruct t as [stream f b|f sb o]; cbn; intros [= <- <-]; (split; [done|apply write_part_side]).
Qed.

(** What a relay that goes on has left to read. *)
Lemma turn_consumes {S} refusal bound_ (transform : byte → bytes → M S Proxy.Error FrameAction) reader peer s t s' reader' peer' :
  relay_turn refusal bound_ transform (si_stream reader) s = (t, s') → si_running reader = true →
  after_turn t reader peer = (reader', peer') → side_bound reader' < side_bound reader.
Proof.
  intros E Hr Ea. unfold side_bound. rewrite Hr. destruct (si_running reader') eqn:Er; [|lia].
  pose proof (relay_turn_spec _ _ _ _ _ _ _ E) as Hs. clear E. revert Ea.
  destruct Hs as [o|ty body rest r s1 tn Hst _ _ _ Htn]; intros Ea.
  { cbn in Ea. destruct (write [] peer); by injection Ea as <- _. }
  assert (∀ f b, tn = Next rest f b → Datatypes.S (length (si_stream reader')) < Datatypes.S (length (si_stream reader))) as Hn.
  { intros f b ->. cbn in Ea. destruct (write b reader) as [r'|]; [|by injection Ea as <- _].
    destruct (write f peer); injection Ea as <- _; [|done]. cbn. rewrite Hst. unfold wire_frame.
    rewrite length_app. cbn. lia. }
  assert (∀ f sb o, tn = Stop f sb o → False) as Hno.
  { intros f sb o ->. cbn in Ea. destruct (write f peer); by injection Ea as <- _. }
  destruct r as [[|b'|fs|e]|e]; try (by eapply Hn); try (by exfalso; eapply Hno).
  destruct (_ <=? _)%Z; [by eapply Hn|by exfalso; eapply Hno].
Qed.

Section ending.
Context `{HexCrate, AeadCrate, HmacCrate, Ff1Crate, Lowercase, SqlParserCrate}.
Context (catalog : WriteCatalog) (why_text : RowKeyProblem → bytes).
Context (deref : TransformPtr → bytes * DynTransform) (nonce : nat → bytes) (ks : KeySource).
Context (display : Proxy.Error → bytes).

#[local] Abbreviation turn := (turn catalog why_text deref nonce ks display).

Lemma bound_peer w w' : si_stream w' = si_stream w → si_running w' = si_running w → side_bound w' = side_bound w.
Proof. unfold side_bound. by intros -> ->. Qed.

Lemma relay_went_bound who o c client upstream s :
  live c → side_bound client + side_bound upstream < side_bound (cn_client c) + side_bound (cn_upstream c) →
  bound (with_sides client upstream s (relay_went who o (cn_join c)) c) < bound c.
Proof.
  unfold live, bound. cbn. destruct (cn_join c) as [|w r|r]; [..|done]; intros _ Hb; destruct o as [o|]; cbn; try lia.
  destruct r; cbn; lia.
Qed.

Lemma turn_bound c c' : turn c c' → bound c' < bound c.
Proof.
  intros Ht. destruct Ht as [t s r p Hl Hr E Ea|t s r p Hl Hr E Ea|Hs|Hl Hr _|Hl Hr _|Hl Hr|Hl Hr
    |n t s r p Hl Hr E Ea|n t s r p Hl Hr E Ea|who x Hj|n t s r p x Hj|n t s r p x Hj].
  - apply relay_went_bound; [done|]. pose proof (turn_consumes _ _ _ _ _ _ _ _ _ _ E Hr Ea).
    apply outcome_leaves_peer in Ea as [? ?]. rewrite (bound_peer (cn_upstream c) p) by done. lia.
  - apply relay_went_bound; [done|]. pose proof (turn_consumes _ _ _ _ _ _ _ _ _ _ E Hr Ea).
    apply outcome_leaves_peer in Ea as [? ?]. rewrite (bound_peer (cn_client c) p) by done. lia.
  - unfold bound. cbn. rewrite Hs. destruct (cn_join c); lia.
  - apply (relay_went_bound true (Some (Ok tt))); [done|]. unfold side_bound. cbn. rewrite Hr. lia.
  - apply (relay_went_bound false (Some (Ok tt))); [done|]. unfold side_bound. cbn. rewrite Hr. lia.
  - apply (relay_went_bound true (Some (Err Proxy.Io))); [done|]. unfold side_bound. cbn. rewrite Hr. lia.
  - apply (relay_went_bound false (Some (Err Proxy.Io))); [done|]. unfold side_bound. cbn. rewrite Hr. lia.
  - apply (relay_went_bound true (Some (Err Proxy.Io))); [done|]. apply cut_sides in Ea as (Er & ? & ?).
    rewrite (bound_peer (cn_upstream c) p) by done. unfold side_bound at 1 3. rewrite Er, Hr. lia.
  - apply (relay_went_bound false (Some (Err Proxy.Io))); [done|]. apply cut_sides in Ea as (Er & ? & ?).
    rewrite (bound_peer (cn_client c) p) by done. unfold side_bound at 2 4. rewrite Er, Hr. lia.
  - unfold bound. cbn. rewrite Hj. lia.
  - unfold bound. cbn. rewrite Hj. lia.
  - unfold bound. cbn. rewrite Hj. lia.
Qed.

Lemma joined_ended who o c client upstream s :
  joined c → live c →
  (si_running (if who : bool then cn_client c else cn_upstream c) = true) →
  (if who then si_running client = match o with None => true | Some _ => false end ∧ si_running upstream = si_running (cn_upstream c)
   else si_running upstream = match o with None => true | Some _ => false end ∧ si_running client = si_running (cn_client c)) →
  joined (with_sides client upstream s (relay_went who o (cn_join c)) c).
Proof.
  unfold joined, live. cbn. destruct (cn_join c) as [|[] r|r]; [..|done]; intros [Hc Hu] _ Hr Hs;
    destruct who, o as [o|]; cbn; destruct Hs as [Hs1 Hs2]; rewrite ?Hs1, ?Hs2; try (by rewrite ?Hc, ?Hu);
    try (by destruct r); congruence.
Qed.

Lemma turn_joined c c' : turn c c' → joined c → joined c'.
Proof.
  intros Ht Hj. destruct Ht as [t s r p Hl Hr E Ea|t s r p Hl Hr E Ea|Hs|Hl Hr _|Hl Hr _|Hl Hr|Hl Hr
    |n t s r p Hl Hr E Ea|n t s r p Hl Hr E Ea|who x Hd|n t s r p x Hd|n t s r p x Hd]; try done.
  - apply joined_ended; [done..|]. split; [by eapply outcome_ends|by eapply outcome_leaves_peer].
  - apply joined_ended; [done..|]. split; [by eapply outcome_ends|by eapply outcome_leaves_peer].
  - by apply (joined_ended true (Some (Ok tt))).
  - by apply (joined_ended false (Some (Ok tt))).
  - by apply (joined_ended true (Some (Err Proxy.Io))).
  - by apply (joined_ended false (Some (Err Proxy.Io))).
  - apply cut_sides in Ea as (? & _ & ?). by apply (joined_ended true (Some (Err Proxy.Io))).
  - apply cut_sides in Ea as (? & _ & ?). by apply (joined_ended false (Some (Err Proxy.Io))).
Qed.

Lemma steps_joined n c c' : nsteps turn n c c' → joined c → joined c'.
Proof. induction 1 as [c|n c1 c2 c3 Ht _ IH]; [done|]. intros Hj. by eapply IH, turn_joined. Qed.

Lemma steps_bound n c c' : nsteps turn n c c' → n + bound c' ≤ bound c.
Proof. induction 1 as [c|n c1 c2 c3 Ht _ IH]; [lia|]. apply turn_bound in Ht. lia. Qed.

(** The result is settled by the first relay to end, unless that one ended well. *)
Definition settled (who : bool) (r : result Proxy.Error ()) (j : Join) : Prop :=
  j = Draining who r ∨ ∃ r', j = Done r' ∧ (r' = r ∨ r = Ok tt).

Lemma turn_settled who r c c' : turn c c' → settled who r (cn_join c) → settled who r (cn_join c').
Proof.
  assert (∀ w o, settled who r (cn_join c) → settled who r (relay_went w o (cn_join c))) as Hw.
  { intros w [o|]; [|done]. cbn. intros [->|(r' & -> & Hr)].
    - right. destruct r as [[]|e]; cbn; eauto.
    - right. cbn. eauto. }
  intros Ht Hs. destruct Ht as [| |He|Hl Hr _|Hl Hr _|Hl Hr|Hl Hr
    |n t s x p Hl Hr E Ea|n t s x p Hl Hr E Ea|w x Hd|n t s a p x Hd|n t s a p x Hd]; cbn; auto;
    try (by apply (Hw _ (Some _))).
  all: destruct Hs as [Hs|(r' & Hs & _)]; rewrite Hd in Hs; [|done]; injection Hs as _ ->; right; eauto.
Qed.

(** C38: a session ends. Whatever the peers send, in whatever order its relays run, fail,
    are told to stop or are cut off, an execution has at most as many steps as the peers
    sent bytes, and four; one that cannot go on has come to the session's result; once one
    relay has ended the session may end at once, whatever the other waits for; and if the
    first to end failed, that failure is the session's result. *)
Theorem session_ends n client upstream s c :
  nsteps turn n (started client upstream s) c →
  n ≤ length client + length upstream + 4 ∧
  ((∀ c', ¬ turn c c') → ∃ r, cn_join c = Done r) ∧
  ∀ who r, cn_join c = Draining who r →
    (∃ c', turn c c' ∧ cn_join c' = Done r) ∧
    ∀ c', rtc turn c c' → settled who r (cn_join c').
Proof.
  intros Hn. split_and!.
  - apply steps_bound in Hn. unfold bound at 2, side_bound in Hn. cbn in Hn. lia.
  - intros Hstuck. pose proof (steps_joined _ _ _ Hn (conj eq_refl eq_refl)) as Hj. unfold joined in Hj.
    destruct (cn_join c) as [|who r|r] eqn:Ej; [..|by exists r]; exfalso.
    + eapply Hstuck, client_read_fails; [unfold live; by rewrite Ej|by destruct Hj].
    + by eapply Hstuck, drain_expires.
  - intros who r Hd. split; [eexists; split; [by eapply drain_expires|done]|].
    intros c' Hr. assert (settled who r (cn_join c)) as Hs by by left. revert Hs. clear Hn Hd.
    induction Hr as [c1|c1 c2 c3 Ht _ IH]; [done|]. intros Hs. by eapply IH, turn_settled.
Qed.

End ending.

Module SessionEndExample.
Import Toy SessionExample.

(** The proxy is told to shut down, and the relay from the client stops. *)
Definition told : Connection := {|
  cn_client := cn_client synced; cn_upstream := cn_upstream synced; cn_state := cn_state synced;
  cn_shutdown := true; cn_join := Both |}.
Definition stopping : Connection :=
  with_sides (ended (cn_client told)) (shut (cn_upstream told)) (cn_state told) (Draining true (Ok tt)) told.

Lemma opened_stopping : nsteps step 4 opened stopping.
Proof.
  apply (nsteps_l _ 3 _ accepted); [|apply (nsteps_l _ 2 _ synced); [|apply (nsteps_l _ 1 _ told); [|apply nsteps_once]]].
  - apply (upstream_runs _ _ _ _ _ _ opened (Next ready auth_ok []) (cn_state accepted)
      (cn_upstream accepted) (cn_client accepted)); vm_compute; [exact I|reflexivity..].
  - apply (client_runs _ _ _ _ _ _ accepted (Next [] (wire_frame ("S"%byte, [])) []) (cn_state accepted)
      (cn_client synced) (cn_upstream synced)); vm_compute; [exact I|reflexivity..].
  - by apply shutdown_sent.
  - by apply (client_stops _ _ _ _ _ _ told).
Qed.

Lemma session_ends_witness :
  4 ≤ length (wire_frame ("S"%byte, [])) + length (auth_ok ++ ready) + 4 ∧
  ((∃ c', step stopping c' ∧ cn_join c' = Done (Ok tt)) ∧
   ∀ c', rtc step stopping c' → settled true (Ok tt) (cn_join c')).
Proof.
  pose proof (session_ends empty_catalog why heap nonces source1 quiet 4 _ _ plain_session stopping opened_stopping)
    as (Hn & _ & Hd).
  split; [exact Hn|exact (Hd true (Ok tt) eq_refl)].
Defined.

End SessionEndExample.
