(* ===== verification/Resolve.v ===== *)
(** * Resolving columns to positions ([crates/proxy/src/resolve.rs])

    One control connection maps every configured column to the table oid and attribute
    number a RowDescription names it by. The database is a parameter: what the n-th
    lookup over the connection answers. *)

From S2P Require Import Prelude Utf8 IntText Crates Pgwire Errors Envelope RowKeys Fields Transform.
From S2P Require Import Policy Portal Rows.

(** What a lookup came to: no answer in time, an error, or at most one row of oid,
    attribute number and type oid. *)
Inductive Answer := Late | Failed | Row (row : option (Z * Z * Z)).

(** [tokio_postgres::config::Host]. *)
Inductive Host := Tcp (name : bytes) | Unix (path : bytes).

(** [hosts.join(",")]. *)
Fixpoint join_comma (parts : list bytes) : bytes :=
  match parts with
  | [] => []
  | [part] => part
  | part :: parts => part ++ b#"," ++ join_comma parts
  end.

Section resolve.
Context `{Lowercase}.

(** The hosts and ports of a connection string, as [tokio_postgres] parses it. *)
Context (parse_hosts : bytes → option (list Host * list nat)).

Definition host_text (ports : list nat) (i : nat) (host : Host) : bytes :=
  match host with
  | Tcp name =>
      match match ports !! i with Some port => Some port | None => head ports end with
      | Some port => name ++ b#":" ++ usize_to_string port
      | None => name
      end
  | Unix path => path
  end.

Definition control_host (dsn : bytes) : bytes :=
  match parse_hosts dsn with
  | None => b#"<unparseable control_dsn>"
  | Some (hosts, ports) =>
      match imap (host_text ports) hosts with
      | [] => b#"<no host in control_dsn>"
      | hosts => join_comma hosts
      end
  end.

Definition read_column (column : ProtectedColumn) : option ReadColumn :=
  if negb (pc_readable column) && negb (bool_decide (is_Some (pc_mask column))) then None
  else Some {| rc_name := pc_name column;
               rc_transform := if pc_readable column then pc_transform column else None;
               rc_mask := pc_mask column |}.

(** The n-th lookup over the connection. *)
Context (lookup_column : nat → bytes → bytes → bytes → Answer) (dsn : bytes).

(** One lookup, with its deadline and its errors. *)
Definition look_up (n : nat) (schema table column : bytes) : result Proxy.Error (Z * Z * Z) :=
  match lookup_column n schema table column with
  | Late => Err (Proxy.ControlTimeout (control_host dsn))
  | Failed => Err (Proxy.Control (control_host dsn))
  | Row None => Err (Proxy.ColumnNotFound (schema ++ b#"." ++ table) column)
  | Row (Some row) => Ok row
  end.

Definition resolved_default : Resolved := {|
  rs_columns := ∅; rs_names := ∅; rs_positions := ∅; rs_row_keys := ∅; rs_row_key_by_table := ∅;
  rs_generation := 0 |}.

(** One turn of the loop over the columns. *)
Definition add_position (column : ProtectedColumn) (table_oid attnum : Z) (r : Resolved) : Resolved := {|
  rs_columns := match read_column column with
                | Some read => <[(table_oid, attnum) := read]> (rs_columns r)
                | None => rs_columns r
                end;
  rs_names := match read_column column with
              | Some _ => {[to_lowercase (pc_column column)]} ∪ rs_names r
              | None => rs_names r
              end;
  rs_positions := <[pc_name column := (table_oid, attnum)]> (rs_positions r);
  rs_row_keys := rs_row_keys r; rs_row_key_by_table := rs_row_key_by_table r;
  rs_generation := rs_generation r |}.

Fixpoint resolve_each (n : nat) (columns : list ProtectedColumn) (r : Resolved) : result Proxy.Error Resolved :=
  match columns with
  | [] => Ok r
  | column :: columns =>
      '(table_oid, attnum, _) ← look_up n (pc_schema column) (pc_table column) (pc_column column);
      resolve_each (S n) columns (add_position column table_oid attnum r)
  end.

(** One turn of the loop over the row keys. *)
Definition add_row_key (decl : RowKeyDecl) (table_oid attnum type_oid : Z) (r : Resolved) : Resolved :=
  let spec := {| rk_attnum := attnum; rk_type_oid := type_oid; rk_name := rd_column decl;
                 rk_table := rd_schema decl ++ b#"." ++ rd_table decl |} in {|
  rs_columns := rs_columns r; rs_names := rs_names r; rs_positions := rs_positions r;
  rs_row_keys := <[table_oid := spec]> (rs_row_keys r);
  rs_row_key_by_table :=
    <[(to_lowercase (rd_schema decl), to_lowercase (rd_table decl)) := spec]> (rs_row_key_by_table r);
  rs_generation := rs_generation r |}.

Fixpoint resolve_row_keys (n : nat) (row_keys : list RowKeyDecl) (r : Resolved) : result Proxy.Error Resolved :=
  match row_keys with
  | [] => Ok r
  | decl :: row_keys =>
      '(table_oid, attnum, type_oid) ← look_up n (rd_schema decl) (rd_table decl) (rd_column decl);
      if negb (supported type_oid) then
        Err (Proxy.Wire (Core.RowKeyType
          (KeyColumnRefused (rd_schema decl) (rd_table decl) (rd_column decl) type_oid)))
      else resolve_row_keys (S n) row_keys (add_row_key decl table_oid attnum type_oid r)
  end.

(** [connected] is what connecting came to. *)
Definition resolve_columns (connected : result Proxy.Error ()) (columns : list ProtectedColumn)
    (row_keys : list RowKeyDecl) : result Proxy.Error Resolved :=
  _ ← connected;
  r ← resolve_each 0 columns resolved_default;
  resolve_row_keys (length columns) row_keys r.

(** The columns [report_drift] reports: those resolved before and now, elsewhere. *)
Definition drifted (previous current : Resolved) (column : bytes) : option ((Z * Z) * (Z * Z)) :=
  was ← rs_positions previous !! column;
  now ← rs_positions current !! column;
  if bool_decide (now = was) then None else Some (was, now).

(** One pass of [refresh_loop], after it is woken. *)
Definition refresh (connected : result Proxy.Error ()) (columns : list ProtectedColumn)
    (row_keys : list RowKeyDecl) (ctx : RowContext) : RowContext :=
  match resolve_columns connected columns row_keys with
  | Ok resolved => publish resolved ctx
  | Err _ => ctx
  end.

End resolve.
