(* ===== verification/ResolveSpec.v ===== *)
(** * What resolution promises

    A resolution that succeeds covers every configured column at the place the catalog
    keeps it, and what the read path protects is exactly that. *)

From S2P Require Import Prelude Utf8 IntText Crates Pgwire Errors Envelope RowKeys Fields Transform.
From S2P Require Import Policy Portal Rows RowsSpec Resolve.

Section resolution.
Context `{Lowercase}.
(** The catalog every lookup of the pass reads: a name is at one place, an attribute
    number of a table names one column, and an oid one table. *)
Context (catalog : bytes → bytes → bytes → option (Z * Z * Z)).
Context (Hattribute : ∀ s t c s' t' c' oid att ty ty', catalog s t c = Some (oid, att, ty) →
  catalog s' t' c' = Some (oid, att, ty') → (s, t, c) = (s', t', c')).
Context (Htable : ∀ s t c s' t' c' oid att att' ty ty', catalog s t c = Some (oid, att, ty) →
  catalog s' t' c' = Some (oid, att', ty') → (s, t) = (s', t')).

Definition place (c : ProtectedColumn) : option (Z * Z * Z) := catalog (pc_schema c) (pc_table c) (pc_column c).
Definition key_place (d : RowKeyDecl) : option (Z * Z * Z) := catalog (rd_schema d) (rd_table d) (rd_column d).

Definition spec_of (d : RowKeyDecl) (att ty : Z) : ResolvedRowKey :=
  {| rk_attnum := att; rk_type_oid := ty; rk_name := rd_column d;
     rk_table := rd_schema d ++ b#"." ++ rd_table d |}.

Definition usable (d : RowKeyDecl) : Prop := ∃ oid att ty, key_place d = Some (oid, att, ty) ∧ supported ty = true.

(** The resolution is the configuration, placed. *)
Record resolves (columns : list ProtectedColumn) (row_keys : list RowKeyDecl) (r : Resolved) : Prop := {
  re_columns oid att read :
    rs_columns r !! (oid, att) = Some read ↔
    ∃ c ty, c ∈ columns ∧ place c = Some (oid, att, ty) ∧ read_column c = Some read;
  re_names name :
    name ∈ rs_names r ↔ ∃ c, c ∈ columns ∧ is_Some (read_column c) ∧ name = to_lowercase (pc_column c);
  re_positions c : c ∈ columns → ∃ oid att ty, place c = Some (oid, att, ty) ∧
    rs_positions r !! pc_name c = Some (oid, att);
  re_row_keys oid spec :
    rs_row_keys r !! oid = Some spec ↔
    ∃ d att ty, d ∈ row_keys ∧ key_place d = Some (oid, att, ty) ∧ spec = spec_of d att ty;
  re_usable d : d ∈ row_keys → usable d;
}.

(** Two configured columns at one place are one column. *)
Lemma place_inj c c' oid att ty ty' :
  place c = Some (oid, att, ty) → place c' = Some (oid, att, ty') → pc_name c = pc_name c'.
Proof.
  intros H1 H2. pose proof (Hattribute _ _ _ _ _ _ _ _ _ _ H1 H2) as [= E1 E2 E3].
  unfold pc_name. by rewrite E1, E2, E3.
Qed.

Lemma add_position_resolves done_ c oid att ty r :
  NoDup (pc_name <$> done_ ++ [c]) → place c = Some (oid, att, ty) → resolves done_ [] r →
  resolves (done_ ++ [c]) [] (add_position c oid att r).
Proof.
  intros Hnd Hp [R1 R2 R3 R4 R5].
  assert (∀ d, d ∈ done_ → pc_name d ≠ pc_name c) as Hne.
  { intros d Hd E. rewrite fmap_app in Hnd. apply NoDup_app in Hnd as (_ & Hnd & _).
    apply (Hnd (pc_name d)); [by apply list_elem_of_fmap_2|]. rewrite E. set_solver. }
  split; cbn [add_position rs_columns rs_names rs_positions rs_row_keys]; [| | |done|done].
  - intros o a read. destruct (read_column c) as [mine|] eqn:Hread.
    + destruct (decide ((o, a) = (oid, att))) as [[= -> ->]|Hoa].
      * rewrite lookup_insert_eq. split.
        { intros [= <-]. exists c, ty. set_solver. }
        intros (d & ty' & Hd & Hpd & Hrd). f_equal.
        apply elem_of_app in Hd as [Hd|Hd%list_elem_of_singleton]; [|congruence].
        destruct (Hne d Hd). by eapply place_inj.
      * rewrite lookup_insert_ne by done. rewrite R1. split; intros (d & ty' & Hd & Hpd & Hrd); exists d, ty'.
        { set_solver. }
        apply elem_of_app in Hd as [Hd|Hd%list_elem_of_singleton]; [done|]. subst d. congruence.
    + rewrite R1. split; intros (d & ty' & Hd & Hpd & Hrd); exists d, ty'; [set_solver|].
      apply elem_of_app in Hd as [Hd|Hd%list_elem_of_singleton]; [done|]. subst d. congruence.
  - intros name. destruct (read_column c) as [mine|] eqn:Hread; [rewrite elem_of_union, elem_of_singleton|];
      rewrite R2; setoid_rewrite elem_of_app; setoid_rewrite list_elem_of_singleton; split.
    + intros [->|(d & ? & ? & ?)]; [exists c|exists d]; rewrite ?Hread; eauto.
    + intros (d & [Hd| ->] & ? & ?); [right; eauto|by left].
    + intros (d & ? & ? & ?). exists d. eauto.
    + intros (d & [Hd| ->] & Hs & ?); [eauto|]. rewrite Hread in Hs. by destruct Hs.
  - intros d [Hd|Hd%list_elem_of_singleton]%elem_of_app.
    + destruct (R3 d Hd) as (o & a & t & Hpd & Hrd). exists o, a, t. split; [done|].
      rewrite lookup_insert_ne; [done|]. intros E. by eapply Hne.
    + subst d. exists oid, att, ty. split; [done|]. apply lookup_insert_eq.
Qed.

Definition key_table (d : RowKeyDecl) : bytes * bytes := (rd_schema d, rd_table d).

Lemma add_row_key_resolves columns done_ d oid att ty r :
  NoDup (key_table <$> done_ ++ [d]) → key_place d = Some (oid, att, ty) → supported ty = true →
  resolves columns done_ r → resolves columns (done_ ++ [d]) (add_row_key d oid att ty r).
Proof.
  intros Hnd Hp Hs [R1 R2 R3 R4 R5].
  assert (∀ e, e ∈ done_ → key_table e ≠ key_table d) as Hne.
  { intros e He E. rewrite fmap_app in Hnd. apply NoDup_app in Hnd as (_ & Hnd & _).
    apply (Hnd (key_table e)); [by apply list_elem_of_fmap_2|]. rewrite E. set_solver. }
  split; cbn [add_row_key rs_columns rs_names rs_positions rs_row_keys]; [done|done|done| |].
  - intros o spec. destruct (decide (o = oid)) as [->|Ho].
    + rewrite lookup_insert_eq. split.
      { intros [= <-]. exists d, att, ty. set_solver. }
      intros (e & a & t & He & Hpe & ->). apply elem_of_app in He as [He|He%list_elem_of_singleton].
      * destruct (Hne e He). by eapply Htable.
      * subst e. rewrite Hp in Hpe. by injection Hpe as <- <-.
    + rewrite lookup_insert_ne by done. rewrite R4.
      split; intros (e & a & t & He & Hpe & ->); exists e, a, t; [set_solver|].
      apply elem_of_app in He as [He|He%list_elem_of_singleton]; [done|]. subst e. congruence.
  - intros e [He|He%list_elem_of_singleton]%elem_of_app; [by apply R5|]. subst e. by exists oid, att, ty.
Qed.

Context (parse_hosts : bytes → option (list Host * list nat)) (dsn : bytes).
Context (lookup_column : nat → bytes → bytes → bytes → Answer).
Context (Hcatalog : ∀ n s t c, lookup_column n s t c = Row (catalog s t c)).

Lemma look_up_catalog n s t c :
  look_up parse_hosts lookup_column dsn n s t c
  = match catalog s t c with Some row => Ok row | None => Err (Proxy.ColumnNotFound (s ++ b#"." ++ t) c) end.
Proof. unfold look_up. rewrite Hcatalog. by destruct (catalog s t c). Qed.

Lemma resolve_each_Ok n columns done_ r r' :
  NoDup (pc_name <$> done_ ++ columns) → resolves done_ [] r →
  resolve_each parse_hosts lookup_column dsn n columns r = Ok r' → resolves (done_ ++ columns) [] r'.
Proof.
  revert n done_ r. induction columns as [|c columns IH]; intros n done_ r Hnd Hr; cbn [resolve_each].
  { intros [= <-]. by rewrite app_nil_r. }
  rewrite look_up_catalog. fold (place c). destruct (place c) as [[[oid att] ty]|] eqn:Hp; [|done]. cbn.
  intros E. rewrite (app_assoc done_ [c] columns : done_ ++ c :: columns = _) in *.
  eapply IH; [done| |exact E]. eapply add_position_resolves; [|done..].
  rewrite fmap_app in Hnd. by apply NoDup_app in Hnd as (? & _).
Qed.

Lemma resolve_row_keys_Ok n columns row_keys done_ r r' :
  NoDup (key_table <$> done_ ++ row_keys) → resolves columns done_ r →
  resolve_row_keys parse_hosts lookup_column dsn n row_keys r = Ok r' → resolves columns (done_ ++ row_keys) r'.
Proof.
  revert n done_ r. induction row_keys as [|d row_keys IH]; intros n done_ r Hnd Hr; cbn [resolve_row_keys].
  { intros [= <-]. by rewrite app_nil_r. }
  rewrite look_up_catalog. fold (key_place d). destruct (key_place d) as [[[oid att] ty]|] eqn:Hp; [|done]. cbn.
  destruct (supported ty) eqn:Hs; [|done]. cbn.
  intros E. rewrite (app_assoc done_ [d] row_keys : done_ ++ d :: row_keys = _) in *.
  eapply IH; [done| |exact E]. eapply add_row_key_resolves; [|done..].
  rewrite fmap_app in Hnd. by apply NoDup_app in Hnd as (? & _).
Qed.

Lemma resolve_columns_Ok columns row_keys r :
  NoDup (pc_name <$> columns) → NoDup (key_table <$> row_keys) →
  resolve_columns parse_hosts lookup_column dsn (Ok tt) columns row_keys = Ok r →
  resolves columns row_keys r.
Proof.
  intros Hc Hk E. unfold resolve_columns in E. cbn in E. apply bind_Ok_inv in E as (r1 & E1 & E2).
  apply (resolve_row_keys_Ok _ columns _ [] _ _ Hk) in E2; [done|].
  apply (resolve_each_Ok _ _ [] _ _ Hc) in E1; [done|].
  split; cbn; intros.
  - rewrite lookup_empty. split; [done|]. by intros (? & ? & ?%elem_of_nil & _).
  - split; [by intros ?%not_elem_of_empty|]. by intros (? & ?%elem_of_nil & _).
  - by eapply elem_of_nil in H0.
  - rewrite lookup_empty. split; [done|]. by intros (? & ? & ? & ?%elem_of_nil & _).
  - by eapply elem_of_nil in H0.
Qed.

(** A pass over what is there succeeds. *)
Lemma resolve_each_total n columns r :
  Forall (λ c, is_Some (place c)) columns → is_ok (resolve_each parse_hosts lookup_column dsn n columns r) = true.
Proof.
  intros Hc. revert n r. induction Hc as [|c columns [[[oid att] ty] Hp] _ IH]; intros n r; cbn [resolve_each]; [done|].
  rewrite look_up_catalog. fold (place c). rewrite Hp. apply IH.
Qed.

Lemma resolve_row_keys_total n row_keys r :
  Forall usable row_keys → is_ok (resolve_row_keys parse_hosts lookup_column dsn n row_keys r) = true.
Proof.
  intros Hd. revert n r. induction Hd as [|d row_keys (oid & att & ty & Hp & Hs) _ IH]; intros n r;
    cbn [resolve_row_keys]; [done|].
  rewrite look_up_catalog. fold (key_place d). rewrite Hp. cbn. rewrite Hs. apply IH.
Qed.

(** C30: resolution succeeds exactly when every configured column and row key is there,
    rather than protect nothing where one is not; and what it resolves is the configuration at the catalog's places:
    the read path handles a field exactly when a configured column that is opened or
    masked is there, with that column's own handling; the names it watches are those of
    such columns; and a table has a row key exactly when one is declared, of a type that
    can be one. *)
Theorem resolution_is_the_configuration columns row_keys r :
  NoDup (pc_name <$> columns) → NoDup (key_table <$> row_keys) →
  (is_ok (resolve_columns parse_hosts lookup_column dsn (Ok tt) columns row_keys) = true ↔
   Forall (λ c, is_Some (place c)) columns ∧ Forall usable row_keys) ∧
  (resolve_columns parse_hosts lookup_column dsn (Ok tt) columns row_keys = Ok r →
   resolves columns row_keys r ∧
   ∀ fields i read key,
    (i, read, key) ∈ d_columns (described_new r fields) ↔
    ∃ c oid att ty, fields !! i = Some (oid, att, ty) ∧ c ∈ columns ∧
      (∃ ty', place c = Some (oid, att, ty')) ∧ read_column c = Some read ∧ key = row_key_ref r oid fields).
Proof.
  intros Hc Hk. split; [split|].
  - destruct (resolve_columns _ _ _ _ _ _) as [r'|e] eqn:E; [intros _|done].
    pose proof (resolve_columns_Ok _ _ _ Hc Hk E) as Hr. split; apply Forall_forall.
    + intros c Hin. destruct (re_positions _ _ _ Hr c Hin) as (? & ? & ? & ? & _). by eexists.
    + apply Hr.
  - intros [Hcs Hks]. unfold resolve_columns. cbn. pose proof (resolve_each_total 0 columns resolved_default Hcs) as Ht.
    destruct (resolve_each _ _ _ _ _ _); [|done]. by apply resolve_row_keys_total.
  - intros E. pose proof (resolve_columns_Ok _ _ _ Hc Hk E) as Hr. split; [done|]. intros fields i read key. cbn [d_columns described_new]. rewrite protected_elem. split.
    + intros (oid & att & ty & c & Hf & Hcol & [= -> ->]). apply (re_columns _ _ _ Hr) in Hcol as (d & ty' & Hd & Hpd & Hrd).
      cbn in *. exists d, oid, att, ty. split_and!; eauto.
    + intros (c & oid & att & ty & Hf & Hin & (ty' & Hp) & Hrd & ->).
      exists oid, att, ty, read. split_and!; [done| |done]. apply (re_columns _ _ _ Hr). eauto.
Qed.

End resolution.

(** ** Example *)

Module ResolveExample.
Import PolicyExample.

Definition catalog (schema table column : bytes) : option (Z * Z * Z) :=
  if bool_decide ((schema, table) = (b#"public", b#"users")) then
    if bool_decide (column = b#"id") then Some (16384, 1, 23)%Z
    else if bool_decide (column = b#"ssn") then Some (16384, 2, 17)%Z
    else None
  else None.

Definition columns : list ProtectedColumn := [build_column example c_ssn].
Definition keys : list RowKeyDecl := row_keys example.

Definition resolved : result Proxy.Error Resolved :=
  resolve_columns (λ _, None) (λ _ s t c, Row (catalog s t c)) [] (Ok tt) columns keys.

Lemma catalog_users s t c row : catalog s t c = Some row →
  (s, t) = (b#"public", b#"users") ∧ (c = b#"id" ∧ row = (16384, 1, 23)%Z ∨ c = b#"ssn" ∧ row = (16384, 2, 17)%Z).
Proof. unfold catalog. repeat case_bool_decide; naive_solver. Qed.

(** Field 1 of a projection of both columns is the protected one. *)
Lemma resolution_is_the_configuration_witness :
  is_ok resolved = true ∧
  ∃ r read, resolved = Ok r ∧
    (1, read, Slot 0 23) ∈ d_columns (described_new r [(16384, 1, 23); (16384, 2, 17)]%Z).
Proof.
  assert (is_ok resolved = true) as Hok by (vm_compute; reflexivity). split; [exact Hok|].
  destruct resolved as [r|e] eqn:E; [clear Hok|discriminate Hok].
  destruct (resolution_is_the_configuration catalog) with (parse_hosts := λ _ : bytes, @None (list Host * list nat))
    (dsn := ([] : bytes)) (lookup_column := λ (_ : nat) s t c, Row (catalog s t c)) (columns := columns)
    (row_keys := keys) (r := r) as [_ Hr].
  - intros s t c s' t' c' oid att ty ty' [E1 H1]%catalog_users [E2 H2]%catalog_users. naive_solver.
  - intros s t c s' t' c' oid att att' ty ty' [E1 _]%catalog_users [E2 _]%catalog_users. congruence.
  - done.
  - apply NoDup_singleton.
  - apply NoDup_singleton.
  - destruct (Hr E) as [_ Hd]. exists r. eexists. split; [done|].
    apply Hd. exists (build_column example c_ssn), 16384%Z, 2%Z, 17%Z. split_and!; [done|set_solver|by eexists|done|].
    injection E as <-. vm_compute. reflexivity.
Defined.

End ResolveExample.
