(* ===== verification/Config.v ===== *)
(** * Configuration ([crates/proxy/src/config.rs], [crates/vault/src/lib.rs])

    Redacting connection strings and parse errors, and validation. The TOML parser,
    [tokio_postgres]'s connection-string parser, the [url] parser and the file system
    are parameters. *)

From S2P Require Import Prelude Utf8 IntText Crates Pgwire Errors Envelope RowKeys Fields Transform.
From S2P Require Import Policy Keys Settings Portal Rows.

(** ** Text *)

Definition REDACTED : bytes := b#"<redacted>".

(** [str::find] and [str::rfind] of a byte that satisfies [p]. *)
Definition find_byte (p : byte → bool) (s : bytes) : option nat := position p s.
Definition rfind_byte (p : byte → bool) (s : bytes) : option nat :=
  (λ i, length s - i - 1) <$> position p (rev s).

(** [str::split_once]: at the first occurrence of a text. *)
Fixpoint split_once_at (sep s : bytes) : option (bytes * bytes) :=
  match strip_prefix sep s with
  | Some rest => Some ([], rest)
  | None =>
      match s with
      | [] => None
      | b :: s => (λ '(h, t), (b :: h, t)) <$> split_once_at sep s
      end
  end.

(** [iter().take_while(p)] and the rest. *)
Fixpoint span (p : byte → bool) (s : bytes) : bytes * bytes :=
  match s with
  | b :: s' => if p b then let '(h, t) := span p s' in (b :: h, t) else ([], s)
  | [] => ([], [])
  end.

(** ** Connection strings *)

Definition is_delimiter (b : byte) : bool := bool_decide (b ∈ [" "%byte; x09; "&"%byte; "?"%byte; "/"%byte; "@"%byte]).

(** How much of a single-quoted value follows its opening quote. *)
Fixpoint quoted_len (s : bytes) : nat :=
  match s with
  | [] => 0
  | b :: s' =>
      if bool_decide (b = x5c) then match s' with [] => 1 | _ :: s'' => S (S (quoted_len s'')) end
      else if bool_decide (b = x27) then 1
      else S (quoted_len s')
  end.

(** A parameter's value and what follows it. *)
Definition parameter_value (s : bytes) : bytes * bytes :=
  match s with
  | b :: s' =>
      if bool_decide (b = x27)
      then let n := S (quoted_len s') in (take n s, drop n s)
      else span (λ b, negb (bool_decide (b ∈ [" "%byte; x09; "&"%byte]))) s
  | [] => ([], [])
  end.

(** The loop of [mask_password_parameters], on what is left of the input. *)
Fixpoint mask_loop (fuel : nat) (input out : bytes) : bytes :=
  match fuel with
  | O => out
  | S fuel =>
      match input with
      | [] => out
      | b :: rest =>
          if is_delimiter b then mask_loop fuel rest (out ++ [b])
          else
            let '(key, input) := span (λ b, negb (bool_decide (b = "="%byte)) && negb (is_delimiter b)) input in
            let out := out ++ key in
            match input with
            | b :: input =>
                if bool_decide (b = "="%byte) then
                  let '(value, input) := parameter_value input in
                  mask_loop fuel input
                    (out ++ b#"=" ++ if eq_ignore_ascii_case key b#"password" then REDACTED else value)
                else mask_loop fuel (b :: input) out
            | [] => out
            end
      end
  end.

Definition mask_password_parameters (input out : bytes) : bytes := mask_loop (length input) input out.

Definition redact_dsn (dsn : bytes) : bytes :=
  let '(out, rest) :=
    match split_once_at b#"://" dsn with
    | None => ([], dsn)
    | Some (scheme, rest) =>
        let out := scheme ++ b#"://" in
        let authority := default (length rest) (find_byte (λ b, bool_decide (b ∈ ["/"%byte; "?"%byte])) rest) in
        match rfind_byte (λ b, bool_decide (b = "@"%byte)) (take authority rest) with
        | None => (out, rest)
        | Some at_ =>
            let userinfo := take at_ rest in
            (out ++ match split_once_at b#":" userinfo with
                    | Some (user, _) => user ++ b#":" ++ REDACTED
                    | None => userinfo
                    end, drop at_ rest)
        end
    end in
  mask_password_parameters rest out.

(** [Dsn::redacted] and [carries_password]. [parse_dsn] is [tokio_postgres]'s parser:
    whether a password is set, and the mode. *)
Inductive SslMode := SslDisable | SslPrefer | SslOther.
Record DsnConfig := { dc_password : bool; dc_ssl_mode : SslMode }.

Section dsn.
Context (parse_dsn : bytes → option DsnConfig).

Definition redacted (dsn : bytes) : bytes :=
  match parse_dsn dsn with
  | None => b#"<unparseable control_dsn " ++ REDACTED ++ b#">"
  | Some _ => redact_dsn dsn
  end.

Definition carries_password (dsn : bytes) : bool :=
  match parse_dsn dsn with Some c => dc_password c | None => true end.

Definition check_control_dsn_is_not_downgradeable (dsn : bytes) : result Proxy.Error () :=
  let refused downgradeable :=
    Err (Proxy.InvalidConfig
      (b#"[tls.upstream] is configured but control_dsn has sslmode=" ++ downgradeable
       ++ b#" — that lets the control connection fall back to plaintext when the server, or a MITM "
       ++ b#"stripping the TLS offer, answers N to its SSLRequest, and that connection carries the "
       ++ b#"control user's password and resolves which columns are protected. Add sslmode=require "
       ++ b#"to control_dsn")) in
  match parse_dsn dsn with
  | None => Err (Proxy.InvalidConfig (b#"control_dsn is not a PostgreSQL connection string in either "
      ++ b#"the URL or the keyword/value form"))
  | Some c =>
      match dc_ssl_mode c with
      | SslDisable => refused b#"disable"
      | SslPrefer => refused b#"prefer"
      | SslOther => Ok tt
      end
  end.

End dsn.

(** ** Parse errors *)

Definition SECRET_KEY_MARKERS : list bytes := [b#"token"; b#"password"; b#"secret"; b#"dsn"; b#"key"].

(** [str::contains]. *)
Definition contains (s needle : bytes) : bool := bool_decide (is_Some (split_once_at needle s)).

Definition assigns_a_secret (line : bytes) : bool :=
  match split_once_at b#"=" line with
  | None => false
  | Some (key, _) =>
      let key := to_ascii_lowercase <$> trim_quotes (trim key) in
      existsb (contains key) SECRET_KEY_MARKERS
  end.

(** [str::lines]: no line after a final newline; a carriage return before it goes. *)
Definition strip_cr (line : bytes) : bytes :=
  match last line with Some b => if bool_decide (b = x0d) then take (length line - 1) line else line | None => line end.
Definition lines (s : bytes) : list bytes :=
  match rev (split_on x0a s) with
  | [] :: parts => strip_cr <$> rev parts
  | tail :: parts => (strip_cr <$> rev parts) ++ [tail]
  | [] => []
  end.

Definition newline (b : byte) : bool := bool_decide (b = x0a).

Definition error_position (raw : bytes) (offset : nat) : nat * nat :=
  let head := take (min offset (length raw)) raw in
  let line := length (List.filter newline head) + 1 in
  let column := match rfind_byte newline head with Some i => length head - i - 1 | None => length head end + 1 in
  (line, column).

Definition spans_a_secret_line (raw : bytes) (start end_ : nat) : bool :=
  let from := match rfind_byte newline (take (min start (length raw)) raw) with Some i => i + 1 | None => 0 end in
  let after := min end_ (length raw) in
  let to := match find_byte newline (drop after raw) with Some i => after + i | None => length raw end in
  existsb assigns_a_secret (lines (take (to - from) (drop from raw))).

(** [toml]'s error: its message, and the span it points at. *)
Record TomlError := { te_message : bytes; te_span : option (nat * nat) }.

Definition describe_parse_error (err : TomlError) (raw : bytes) : bytes :=
  match te_span err with
  | None => te_message err
  | Some (start, end_) =>
      let '(line, column) := error_position raw start in
      if spans_a_secret_line raw start end_ then
        b#"invalid TOML at line " ++ usize_to_string line ++ b#", column " ++ usize_to_string column
        ++ b#"; the parser's message is withheld because that line configures a credential"
      else
        te_message err ++ b#" (at line " ++ usize_to_string line ++ b#", column "
        ++ usize_to_string column ++ b#")"
  end.

(** ** Vault ([dbsec_vault::VaultConfig]) *)

Record VaultConfig := {
  vc_addr : bytes;
  vc_allow_insecure_addr : bool;
  vc_token : option bytes;
  vc_token_file : option bytes;
  vc_timeout_secs : nat;
  (** [mount], [path], [transit_mount], [transit_key]. *)
  vc_mount : bytes; vc_path : bytes; vc_transit_mount : bytes; vc_transit_key : bytes;
}.

Definition vault_config_default : VaultConfig := {|
  vc_addr := []; vc_allow_insecure_addr := false; vc_token := None; vc_token_file := None;
  vc_timeout_secs := 5; vc_mount := b#"secret"; vc_path := b#"dbsec"; vc_transit_mount := b#"transit";
  vc_transit_key := b#"dbsec" |}.

Record VaultSetup := { vs_config : VaultConfig; vs_token : bytes }.

Inductive VaultError := VaultConfigError (reason : bytes) | VaultTokenFile (path : bytes) | VaultKey (e : Core.Error).

(** ** The file system, and the errors' texts *)

Record Files := { file_mode : bytes → option Z; file_text : bytes → option bytes }.

Section config.
Context (files : Files) (parse_dsn : bytes → option DsnConfig) (url_scheme : bytes → result bytes bytes).
(** [Url::parse] gives a scheme or an error's text; [debug] quotes a string. *)
Context (debug : bytes → bytes) (display_core : Core.Error → bytes).
(** The text of a refused policy, without the prefix the error's display adds. *)
Context (policy_text : PolicyProblem → bytes).

Definition validate_addr (self : VaultConfig) : result VaultError () :=
  let addr := b#"[vault] addr " ++ debug (vc_addr self) in
  match url_scheme (vc_addr self) with
  | Err e => Err (VaultConfigError (addr ++ b#" is not a URL: " ++ e))
  | Ok scheme =>
      if bool_decide (scheme = b#"https") then Ok tt
      else if bool_decide (scheme = b#"http") then
        if vc_allow_insecure_addr self then Ok tt
        else Err (VaultConfigError
          (addr ++ b#" is plaintext http, which would put the Vault token, every DEK plaintext and "
           ++ b#"every deterministic index key on the wire in the clear. Use https, or set "
           ++ b#"allow_insecure_addr = true to accept that in development"))
      else Err (VaultConfigError (addr ++ b#" has scheme " ++ debug scheme ++ b#"; Vault is reached over https"))
  end.

Definition check_token_file (path : bytes) : result VaultError () :=
  map_err (VaultConfigError ∘ display_core) (check_secret_file_mode path (file_mode files path)).

Definition resolve_token (self : VaultConfig) : result VaultError bytes :=
  match vc_token self, vc_token_file self with
  | Some token, None => Ok token
  | None, Some path =>
      match check_secret_file_mode path (file_mode files path) with
      | Err e => Err (VaultConfigError (display_core e))
      | Ok _ =>
          match file_text files path with
          | None => Err (VaultTokenFile path)
          | Some raw => Ok (trim raw)
          end
      end
  | _, _ => Err (VaultConfigError b#"[vault] needs exactly one of token or token_file")
  end.

Definition vault_resolve (self : VaultConfig) : result VaultError VaultSetup :=
  if bool_decide (vc_timeout_secs self = 0)
  then Err (VaultConfigError b#"[vault] timeout_secs must be greater than 0")
  else
    _ ← validate_addr self;
    token ← resolve_token self;
    mret {| vs_config := self; vs_token := token |}.

(** ** The configuration *)

Record DownstreamTls := { dt_cert : bytes; dt_key : bytes }.
Record UpstreamTls := { ut_ca : bytes; ut_hostname : option bytes }.
Record TlsSection := { tls_downstream : option DownstreamTls; tls_upstream : option UpstreamTls }.

Record Config := {
  cf_listen : bytes;
  cf_upstream : bytes;
  cf_keys_file : option bytes;
  cf_vault : option VaultConfig;
  cf_control_dsn : option bytes;
  cf_startup_timeout_secs : nat;
  cf_max_sessions : nat;
  cf_column_refresh_secs : nat;
  cf_max_protected_value_bytes : Z;
  cf_tls : TlsSection;
  cf_on_unprotected : OnUnprotected;
  cf_columns : list ColumnPolicy;
  cf_tables : list TablePolicy;
}.

Definition config_default : Config := {|
  cf_listen := b#"127.0.0.1:6432"; cf_upstream := b#"127.0.0.1:5432"; cf_keys_file := None;
  cf_vault := None; cf_control_dsn := None; cf_startup_timeout_secs := 30; cf_max_sessions := 256;
  cf_column_refresh_secs := 300; cf_max_protected_value_bytes := 16 * 1024 * 1024;
  cf_tls := {| tls_downstream := None; tls_upstream := None |}; cf_on_unprotected := Warn;
  cf_columns := []; cf_tables := [] |}.

Definition config_policy (self : Config) : Policy :=
  {| p_columns := cf_columns self; p_tables := cf_tables self |}.

Inductive KeySourceConfig := KeyFileSource (path : bytes) | VaultSource (setup : VaultSetup).
Record ProtectedConfig := { pcf_keys : KeySourceConfig; pcf_control_dsn : bytes }.
Record ValidatedConfig := { vcf_config : Config; vcf_protected : option ProtectedConfig }.

Definition config_secret_file_mode (path : bytes) : result Proxy.Error () :=
  map_err (λ e, Proxy.InvalidConfig (display_core e)) (check_secret_file_mode path (file_mode files path)).

Definition inline_secret (self : Config) : option bytes :=
  if match cf_vault self with Some v => bool_decide (is_Some (vc_token v)) | None => false end
  then Some b#"an inline [vault] token"
  else if match cf_control_dsn self with Some dsn => carries_password parse_dsn dsn | None => false end
  then Some b#"a control_dsn password"
  else None.

Definition invalid {A} (reason : bytes) : result Proxy.Error A := Err (Proxy.InvalidConfig reason).

(** [?] on a [dbsec_vault::Error]. *)
Definition from_vault (e : VaultError) : Proxy.Error :=
  match e with
  | VaultConfigError reason => Proxy.InvalidConfig reason
  | VaultTokenFile path => Proxy.VaultToken path
  | VaultKey e => Proxy.Wire e
  end.

(** The parts of [Config::validate] that resolve the vault section and pick the key
    source. *)
Definition vault_section (self : Config) : result Proxy.Error (option VaultSetup) :=
  match cf_vault self with
  | None => Ok None
  | Some vault => Some <$> map_err from_vault (vault_resolve vault)
  end.

Definition protected_section (self : Config) (vault : option VaultSetup)
    : result Proxy.Error (option ProtectedConfig) :=
  if bool_decide (cf_columns self = []) then Ok None
  else
    keys ← match cf_keys_file self, vault with
           | Some keys_file, None =>
               _ ← config_secret_file_mode keys_file; Ok (KeyFileSource keys_file)
           | None, Some setup => Ok (VaultSource setup)
           | None, None => invalid b#"[[column]] entries require keys_file or [vault]"
           | Some _, Some _ => invalid b#"keys_file and [vault] are mutually exclusive"
           end;
    control_dsn ← ok_or (Proxy.InvalidConfig b#"[[column]] entries require control_dsn")
                    (cf_control_dsn self);
    _ ← (if bool_decide (is_Some (tls_upstream (cf_tls self)))
         then check_control_dsn_is_not_downgradeable parse_dsn control_dsn else Ok tt);
    Ok (Some {| pcf_keys := keys; pcf_control_dsn := control_dsn |}).

Definition validate_config (self : Config) : result Proxy.Error (option ProtectedConfig) :=
  _ ← (if bool_decide (cf_startup_timeout_secs self = 0)
       then invalid b#"startup_timeout_secs must be greater than 0" else Ok tt);
  _ ← (if bool_decide (cf_max_sessions self = 0)
       then invalid b#"max_sessions must be greater than 0" else Ok tt);
  _ ← (if bool_decide (cf_max_protected_value_bytes self = 0%Z)
          || (MAX_MESSAGE_LEN <? cf_max_protected_value_bytes self)%Z
       then invalid b#"max_protected_value_bytes must be between 1 and 1073741824 (the frame limit)" else Ok tt);
  _ ← match tls_downstream (cf_tls self) with
      | Some downstream => config_secret_file_mode (dt_key downstream)
      | None => Ok tt
      end;
  vault ← vault_section self;
  protected ← protected_section self vault;
  _ ← map_err (λ e, Proxy.InvalidConfig
                      match e with Core.Policy why => policy_text why | other => display_core other end)
        (validate (config_policy self));
  Ok protected.

Definition validated (self : Config) : result Proxy.Error ValidatedConfig :=
  protected ← validate_config self;
  Ok {| vcf_config := self; vcf_protected := protected |}.

(** [Config::load]; [toml] is [toml::from_str]. *)
Definition config_load (toml : bytes → result TomlError Config) (path : bytes)
    : result Proxy.Error ValidatedConfig :=
  match file_text files path with
  | None => Err (Proxy.ConfigRead path)
  | Some raw =>
      match toml raw with
      | Err source => Err (Proxy.ConfigParse path (describe_parse_error source raw))
      | Ok config =>
          _ ← match inline_secret config with
              | Some _ => config_secret_file_mode path
              | None => Ok tt
              end;
          validated config
      end
  end.

End config.
