(* ===== verification/Vault.v ===== *)
(** * The Vault key source ([crates/vault/src/source.rs])

    The record layout, the store behind its trait, the caches of the source, and the
    protocol by which many proxies come to agree on one deterministic key. The
    [vaultrs] client and the base64 decoder are parameters. *)

From S2P Require Import Prelude Utf8 Crates Pgwire Errors Envelope Config.

(** ** Records *)

(** [Duration]s and [Instant]s are in nanoseconds. *)
Definition from_secs (n : Z) : Z := n * 1000000000.

Definition MISSING_DEK_CACHE_TTL : Z := from_secs 60.
Definition MISSING_DEK_CACHE_MAX : nat := 4096.
Definition TOKEN_CHECK_INTERVAL : Z := from_secs 60.
Definition TOKEN_RENEW_THRESHOLD : Z := from_secs 600.

Record IndexKeyRecord := { ik_current : Z; ik_versions : gmap Z bytes }.

Definition first (hex_key : bytes) : IndexKeyRecord :=
  {| ik_current := 1; ik_versions := {[1%Z := hex_key]} |}.

Record TokenStatus := { ts_ttl : Z; ts_renewable : bool }.
Definition never_expires (self : TokenStatus) : bool := bool_decide (ts_ttl self = 0%Z).

Inductive TokenCheck := Healthy | Renewed | Expiring | Unknown.

(** [vaultrs]'s error, as far as it is looked at. *)
Inductive ClientError := APIError (code : Z) (errors : list bytes) | ClientOther (text : bytes).

Definition is_not_found (e : ClientError) : bool :=
  match e with APIError code _ => bool_decide (code = 404%Z) | _ => false end.

Definition is_cas_conflict (e : ClientError) : bool :=
  match e with
  | APIError code errors =>
      bool_decide (code = 400%Z)
      && existsb (λ msg, contains (to_ascii_lowercase <$> msg) b#"check-and-set") errors
  | _ => false
  end.

Definition backend_error (context : bytes) (source : ClientError) : Core.Error := Core.KeyBackend context.

Section keys.
Context `{HexCrate}.

Definition decode_key_hex (encoded : bytes) : result Core.Error bytes :=
  raw ← ok_or (Core.KeyBackend b#"stored index key is not valid hex") (hex_decode encoded);
  if bool_decide (length raw = 32) then Ok raw else Err (Core.KeySource IndexKeyLength).

Definition current_key (self : IndexKeyRecord) : result Core.Error bytes :=
  hex_key ← ok_or (Core.KeySource (VersionAbsent (ik_current self)))
              (ik_versions self !! ik_current self);
  decode_key_hex hex_key.

(** [base64_decode] is the [base64] crate's standard engine. *)
Definition decode_key_b64 (base64_decode : bytes → option bytes) (encoded : bytes)
    : result Core.Error bytes :=
  raw ← ok_or (Core.KeyBackend b#"data key is not valid base64") (base64_decode encoded);
  if bool_decide (length raw = 32) then Ok raw else Err (Core.KeySource (DataKeyLength (length raw))).

End keys.

(** ** The store ([trait KeyStore]) *)

(** [St] is what the store keeps. *)
Class KeyStore (St : Type) := {
  read_index_key : bytes → M St Core.Error (option IndexKeyRecord);
  create_index_key : bytes → IndexKeyRecord → M St Core.Error bool;
  read_legacy_index_keys : M St Core.Error (option (gmap bytes bytes));
  fetch_dek : bytes → M St Core.Error (option bytes);
  token_status : M St Core.Error TokenStatus;
  renew_token : M St Core.Error TokenStatus;
}.

(** [vaultrs]: KV v2 reads (one per type read into), a create with [cas], Transit, and
    the token endpoints. *)
Class VaultClient (St : Type) := {
  kv_read_record : bytes → bytes → M St ClientError IndexKeyRecord;
  kv_read_map : bytes → bytes → M St ClientError (gmap bytes bytes);
  kv_read_wrapped : bytes → bytes → M St ClientError bytes;
  kv_set_record : bytes → bytes → IndexKeyRecord → Z → M St ClientError ();
  kv_set_wrapped : bytes → bytes → bytes → M St ClientError ();
  transit_decrypt : bytes → bytes → bytes → M St ClientError bytes;
  transit_data_key : bytes → bytes → M St ClientError (option bytes * bytes);
  lookup_self : M St ClientError (Z * bool);
  renew_self : M St ClientError (Z * bool);
}.

Section vault_store.
Context `{HexCrate} {St : Type} `{!VaultClient St} (base64_decode : bytes → option bytes) (config : VaultConfig).

Definition index_key_path (name : bytes) : result Core.Error bytes :=
  if bool_decide (name = []) || bool_decide ("/"%byte ∈ name) || bool_decide (name = b#".")
     || bool_decide (name = b#"..")
  then Err (Core.KeySource (NotAPathSegment name))
  else Ok (vc_path config ++ b#"/index_keys/" ++ name).

Definition legacy_index_keys_path : bytes := vc_path config ++ b#"/index_keys".

(** A read for which 404 means there is no such secret. *)
Definition found {A} (context : bytes) (m : M St ClientError A) : M St Core.Error (option A) :=
  λ st, let '(r, st) := m st in
        (match r with
         | Ok a => Ok (Some a)
         | Err e => if is_not_found e then Ok None else Err (backend_error context e)
         end, st).

(** A create for which a check-and-set conflict means another writer was first. *)
Definition created (context : bytes) (m : M St ClientError ()) : M St Core.Error bool :=
  λ st, let '(r, st) := m st in
        (match r with
         | Ok _ => Ok true
         | Err e => if is_cas_conflict e then Ok false else Err (backend_error context e)
         end, st).

Definition or_backend {A} (context : bytes) : M St ClientError A → M St Core.Error A :=
  with_err (backend_error context).

Definition store_read_index_key (name : bytes) : M St Core.Error (option IndexKeyRecord) :=
  path ← lift (index_key_path name);
  found (b#"reading index key " ++ name) (kv_read_record (vc_mount config) path).

Definition store_create_index_key (name : bytes) (record : IndexKeyRecord) : M St Core.Error bool :=
  path ← lift (index_key_path name);
  created (b#"storing index key " ++ name) (kv_set_record (vc_mount config) path record 0).

Definition store_read_legacy : M St Core.Error (option (gmap bytes bytes)) :=
  found (b#"reading " ++ legacy_index_keys_path) (kv_read_map (vc_mount config) legacy_index_keys_path).

Definition dek_path (id : bytes) : bytes := vc_path config ++ b#"/deks/" ++ hex_encode id.

Definition store_fetch_dek (id : bytes) : M St Core.Error (option bytes) :=
  record ← found (b#"reading wrapped DEK " ++ hex_encode id)
             (kv_read_wrapped (vc_mount config) (dek_path id));
  match record with
  | None => mret None
  | Some wrapped =>
      plaintext ← or_backend (b#"transit unwrap of DEK " ++ hex_encode id)
                    (transit_decrypt (vc_transit_mount config) (vc_transit_key config) wrapped);
      key ← lift (decode_key_b64 base64_decode plaintext);
      mret (Some key)
  end.

Definition store_token_status : M St Core.Error TokenStatus :=
  '(ttl, renewable) ← or_backend b#"looking up the vault token" lookup_self;
  mret {| ts_ttl := from_secs ttl; ts_renewable := renewable |}.

Definition store_renew_token : M St Core.Error TokenStatus :=
  '(ttl, renewable) ← or_backend b#"renewing the vault token" renew_self;
  mret {| ts_ttl := from_secs ttl; ts_renewable := renewable |}.

#[export] Instance vault_store : KeyStore St := {|
  read_index_key := store_read_index_key;
  create_index_key := store_create_index_key;
  read_legacy_index_keys := store_read_legacy;
  fetch_dek := store_fetch_dek;
  token_status := store_token_status;
  renew_token := store_renew_token;
|}.

(** [client_settings]: [url_parse] is the [url] crate's, [build] the builder's. *)
Record ClientSettings := { st_address : bytes; st_token : bytes; st_verify : bool; st_timeout : Z }.

Definition client_settings (url_parse : bytes → result ClientError bytes)
    (build : ClientSettings → result ClientError ClientSettings) (token : bytes) (timeout : Z)
    : result Core.Error ClientSettings :=
  addr ← map_err (backend_error (b#"[vault] addr " ++ vc_addr config ++ b#" is not a URL"))
           (url_parse (vc_addr config));
  map_err (backend_error b#"building the vault client settings")
    (build {| st_address := addr; st_token := token; st_verify := true; st_timeout := timeout |}).

End vault_store.

(** ** The source *)

Record VaultKeySource := {
  vk_active : bytes * bytes;
  vk_deks : gmap bytes bytes;
  vk_missing_deks : gmap bytes Z;
  vk_index_keys : gmap bytes bytes;
}.

Definition source_new (active : bytes * bytes) : VaultKeySource := {|
  vk_active := active; vk_deks := {[active.1 := active.2]}; vk_missing_deks := ∅; vk_index_keys := ∅ |}.

Definition set_deks (m : gmap bytes bytes) (self : VaultKeySource) : VaultKeySource := {|
  vk_active := vk_active self; vk_deks := m; vk_missing_deks := vk_missing_deks self;
  vk_index_keys := vk_index_keys self |}.
Definition set_missing (m : gmap bytes Z) (self : VaultKeySource) : VaultKeySource := {|
  vk_active := vk_active self; vk_deks := vk_deks self; vk_missing_deks := m;
  vk_index_keys := vk_index_keys self |}.
Definition set_index_keys (m : gmap bytes bytes) (self : VaultKeySource) : VaultKeySource := {|
  vk_active := vk_active self; vk_deks := vk_deks self; vk_missing_deks := vk_missing_deks self;
  vk_index_keys := m |}.

(** [VaultKeySource::connect]; [client_new] is the client's constructor, [key_id] what
    the entropy source yields. *)
Definition connect `{HexCrate} {St} `{!VaultClient St} (base64_decode : bytes → option bytes)
    (url_parse : bytes → result ClientError bytes) (build : ClientSettings → result ClientError ClientSettings)
    (client_new : ClientSettings → result ClientError ()) (key_id : result Core.Error bytes) (setup : VaultSetup)
    : M St Core.Error VaultKeySource :=
  let config := vs_config setup in
  settings ← lift (client_settings config url_parse build (vs_token setup)
                     (from_secs (Z.of_nat (vc_timeout_secs config))));
  _ ← lift (map_err (backend_error b#"connecting to vault") (client_new settings));
  '(plaintext, ciphertext) ← or_backend b#"transit data key"
                               (transit_data_key (vc_transit_mount config) (vc_transit_key config));
  plaintext ← lift (ok_or (Core.KeySource NoDataKey) plaintext);
  key ← lift (decode_key_b64 base64_decode plaintext);
  key_id ← lift key_id;
  _ ← or_backend b#"storing wrapped DEK" (kv_set_wrapped (vc_mount config) (dek_path config key_id) ciphertext);
  mret (source_new (key_id, key)).

(** [seen.elapsed() < MISSING_DEK_CACHE_TTL] at [now]; [elapsed] saturates at zero. *)
Definition fresh_miss (now seen : Z) : bool := (Z.max 0 (now - seen) <? MISSING_DEK_CACHE_TTL)%Z.

Definition recently_missing (now : Z) (id : bytes) (self : VaultKeySource) : bool :=
  match vk_missing_deks self !! id with Some seen => fresh_miss now seen | None => false end.

Definition remember_missing (now : Z) (id : bytes) (self : VaultKeySource) : VaultKeySource :=
  let missing := filter (λ '(_, seen), fresh_miss now seen = true) (vk_missing_deks self) in
  let missing := if bool_decide (MISSING_DEK_CACHE_MAX ≤ size missing) then ∅ else missing in
  set_missing (<[id := now]> missing) self.

Section source.
Context `{HexCrate} {St : Type} `{!KeyStore St}.

(** [adopt_legacy_index_key]. *)
Definition adopt_legacy_index_key (name : bytes) : M St Core.Error (option bytes) :=
  legacy ← read_legacy_index_keys;
  match legacy ≫= (λ legacy, legacy !! name) with
  | None => mret None
  | Some hex_key =>
      key ← lift (decode_key_hex hex_key);
      _ ← create_index_key name (first (hex_encode key));
      mret (Some key)
  end.

(** [fresh] is what the entropy source yields, if it yields. *)
Definition resolve_index_key (fresh : result Core.Error bytes) (name : bytes) : M St Core.Error bytes :=
  record ← read_index_key name;
  match record with
  | Some record => lift (current_key record)
  | None =>
      adopted ← adopt_legacy_index_key name;
      match adopted with
      | Some key => mret key
      | None =>
          fresh ← lift fresh;
          minted ← create_index_key name (first (hex_encode fresh));
          if minted : bool then mret fresh
          else
            record ← read_index_key name;
            match record with
            | None => lift (Err (Core.KeySource (IndexKeyDisappeared name)))
            | Some record => lift (current_key record)
            end
      end
  end.

(** How a bridged lookup ended: answered, or out of time with the store as it is then. *)
Inductive Timing := Answered | OutOfTime (st : St).

Definition block_on {A} (multi_thread : bool) (timing : Timing) (what : bytes) (m : M St Core.Error A)
    : M St Core.Error A :=
  if multi_thread then
    match timing with
    | Answered => m
    | OutOfTime st => λ _, (Err (Core.KeySource (NoAnswerInTime what)), st)
    end
  else lift (Err (Core.KeySource (SingleThreadedRuntime what))).

Definition active_key (self : VaultKeySource) : result Core.Error (bytes * bytes) := Ok (vk_active self).

(** A call of a method of the source: the source and the store. *)
Definition on_store {A} (m : M St Core.Error A) : M (VaultKeySource * St) Core.Error A :=
  λ '(self, st), let '(r, st) := m st in (r, (self, st)).
Definition on_source {A} (f : VaultKeySource → A) : M (VaultKeySource * St) Core.Error A :=
  gets (λ w, f w.1).
Definition upd_source (f : VaultKeySource → VaultKeySource) : M (VaultKeySource * St) Core.Error () :=
  modify (λ w, (f w.1, w.2)).

Definition key (multi_thread : bool) (timing : Timing) (now : Z) (id : bytes)
    : M (VaultKeySource * St) Core.Error bytes :=
  cached ← on_source (λ self, vk_deks self !! id);
  match cached with
  | Some key => mret key
  | None =>
      missing ← on_source (recently_missing now id);
      if missing : bool then lift (Err (Core.UnknownKey (hex_encode id)))
      else
        found ← on_store (block_on multi_thread timing b#"fetching DEK" (fetch_dek id));
        match found with
        | None =>
            _ ← upd_source (remember_missing now id);
            lift (Err (Core.UnknownKey (hex_encode id)))
        | Some key =>
            _ ← upd_source (λ self, set_deks (<[id := key]> (vk_deks self)) self);
            mret key
        end
  end.

Definition index_key (multi_thread : bool) (timing : Timing) (fresh : result Core.Error bytes) (name : bytes)
    : M (VaultKeySource * St) Core.Error bytes :=
  cached ← on_source (λ self, vk_index_keys self !! name);
  match cached with
  | Some key => mret key
  | None =>
      key ← on_store (block_on multi_thread timing b#"resolving index key" (resolve_index_key fresh name));
      _ ← upd_source (λ self, set_index_keys (<[name := key]> (vk_index_keys self)) self);
      mret key
  end.

(** One pass of the token watch. *)
Definition check_token (st : St) : TokenCheck * St :=
  match token_status st with
  | (Err _, st) => (Unknown, st)
  | (Ok status, st) =>
      if never_expires status || (TOKEN_RENEW_THRESHOLD <? ts_ttl status)%Z then (Healthy, st)
      else if negb (ts_renewable status) then (Expiring, st)
      else match renew_token st with (Ok _, st) => (Renewed, st) | (Err _, st) => (Expiring, st) end
  end.

(** [token_watch]: what its [select] yields in turn, an interval gone by, with what became
    of the store meanwhile, or shutdown; and what the checks come to. *)
Inductive WatchEvent := Interval (meanwhile : St → St) | Shutdown.

Fixpoint token_watch (events : list WatchEvent) (st : St) : list TokenCheck * St :=
  match events with
  | Interval meanwhile :: events =>
      let '(check, st) := check_token (meanwhile st) in
      let '(checks, st) := token_watch events st in
      (check :: checks, st)
  | _ => ([], st)
  end.

(** ** Between two calls of the store another proxy may run *)

Inductive Pc :=
  | ReadFirst
  | ReadLegacy
  | Migrate (key : bytes)
  | Create
  | Reread
  | Resolved (r : result Core.Error bytes).

(** One call of the store by a proxy that resolves [name]. *)
Definition resolve_step (fresh : result Core.Error bytes) (name : bytes) (pc : Pc) (st : St) : Pc * St :=
  match pc with
  | ReadFirst =>
      let '(r, st) := read_index_key name st in
      (match r with
       | Ok (Some record) => Resolved (current_key record)
       | Ok None => ReadLegacy
       | Err e => Resolved (Err e)
       end, st)
  | ReadLegacy =>
      let '(r, st) := read_legacy_index_keys st in
      (match r with
       | Ok legacy =>
           match legacy ≫= (λ legacy, legacy !! name) with
           | Some hex_key =>
               match decode_key_hex hex_key with Ok key => Migrate key | Err e => Resolved (Err e) end
           | None => match fresh with Ok _ => Create | Err e => Resolved (Err e) end
           end
       | Err e => Resolved (Err e)
       end, st)
  | Migrate key =>
      let '(r, st) := create_index_key name (first (hex_encode key)) st in
      (match r with Ok _ => Resolved (Ok key) | Err e => Resolved (Err e) end, st)
  | Create =>
      match fresh with
      | Err e => (Resolved (Err e), st)
      | Ok fresh =>
          let '(r, st) := create_index_key name (first (hex_encode fresh)) st in
          (match r with
           | Ok true => Resolved (Ok fresh)
           | Ok false => Reread
           | Err e => Resolved (Err e)
           end, st)
      end
  | Reread =>
      let '(r, st) := read_index_key name st in
      (match r with
       | Ok (Some record) => Resolved (current_key record)
       | Ok None => Resolved (Err (Core.KeySource (IndexKeyDisappeared name)))
       | Err e => Resolved (Err e)
       end, st)
  | Resolved r => (pc, st)
  end.

(** Proxies on one store; one that gave up is one that takes no further step, or takes
    it late. *)
Record Fleet := { fl_store : St; fl_proxies : list (bytes * result Core.Error bytes * Pc) }.

Inductive fleet_step : Fleet → Fleet → Prop :=
  | proxy_step fl i name fresh pc pc' st :
      fl_proxies fl !! i = Some (name, fresh, pc) →
      resolve_step fresh name pc (fl_store fl) = (pc', st) →
      fleet_step fl {| fl_store := st; fl_proxies := <[i := (name, fresh, pc')]> (fl_proxies fl) |}
  | proxy_start fl name fresh :
      match fresh with Ok key => length key = 32 | Err _ => True end →
      fleet_step fl {| fl_store := fl_store fl; fl_proxies := fl_proxies fl ++ [(name, fresh, ReadFirst)] |}.

End source.
