(* ===== verification/VaultSpec.v ===== *)
(** * What the Vault key source promises

    Proxies that share a store agree on every deterministic key; a key once handed out
    stays; and the source is one the ciphers can rely on. *)

From S2P Require Import Prelude Utf8 Crates Pgwire Errors Envelope Transform Config Vault.

(** ** What a store promises ([trait KeyStore]) *)

(** The secrets of a store by what they are read as. A read answers with what is there or
    fails; a create succeeds only where nothing is, and one that fails may yet have
    happened. *)
Class KeyStoreLaws (St : Type) `{!KeyStore St} := {
  store_ok : St → Prop;
  records : St → bytes → option IndexKeyRecord;
  legacy : St → bytes → option bytes;
  deks : St → bytes → option bytes;

  same (st st' : St) : Prop :=
    (∀ name, records st' name = records st name) ∧ (∀ name, legacy st' name = legacy st name) ∧
    (∀ id, deks st' id = deks st id);
  adds (name : bytes) (record : IndexKeyRecord) (st st' : St) : Prop :=
    records st name = None ∧
    (∀ n, records st' n = if decide (n = name) then Some record else records st n) ∧
    (∀ n, legacy st' n = legacy st n) ∧ (∀ id, deks st' id = deks st id);

  read_index_key_law name st r st' :
    store_ok st → read_index_key name st = (r, st') →
    store_ok st' ∧ same st st' ∧ (∀ o, r = Ok o → o = records st name);
  read_legacy_law st r st' :
    store_ok st → read_legacy_index_keys st = (r, st') →
    store_ok st' ∧ same st st' ∧ (∀ o name, r = Ok o → (o ≫= λ m, m !! name) = legacy st name);
  create_index_key_law name record st r st' :
    store_ok st → create_index_key name record st = (r, st') →
    store_ok st' ∧
    match r with
    | Ok true => adds name record st st'
    | Ok false => is_Some (records st name) ∧ same st st'
    | Err _ => same st st' ∨ adds name record st st'
    end;
  fetch_dek_law id st r st' :
    store_ok st → fetch_dek id st = (r, st') →
    store_ok st' ∧ same st st' ∧ (∀ o, r = Ok o → o = deks st id);
}.

(** ** Agreement on deterministic keys *)

Section agreement.
Context `{HexCrate, !HexLaws} {St : Type} `{!KeyStore St, !KeyStoreLaws St}.

(** The steps of one proxy, alone, are [resolve_index_key]. *)
Fixpoint steps (n : nat) (fresh : result Core.Error bytes) (name : bytes) (pc : Pc) (st : St) : Pc * St :=
  match n with
  | O => (pc, st)
  | S n => let '(pc, st) := resolve_step fresh name pc st in steps n fresh name pc st
  end.

Lemma steps_resolve fresh name st :
  steps 4 fresh name ReadFirst st
  = (Resolved (resolve_index_key fresh name st).1, (resolve_index_key fresh name st).2).
Proof.
  unfold resolve_index_key, adopt_legacy_index_key, mbind, M_bind, lift, mret, M_ret.
  cbn [steps resolve_step]. destruct (read_index_key name st) as [[[record|]|e] st1]; cbn; [done| |done].
  destruct (read_legacy_index_keys st1) as [[leg|e] st2]; cbn; [|done].
  assert (∀ o : option bytes, leg ≫= (λ legacy, legacy !! name) = o → option_bind _ _ (λ legacy, legacy !! name) leg = o)
    as Ho by done.
  destruct (leg ≫= (λ legacy, legacy !! name)) as [hex|]; rewrite (Ho _ eq_refl); cbn.
  - destruct (decode_key_hex hex) as [key|e]; cbn; [|done].
    by destruct (create_index_key name (first (hex_encode key)) st2) as [[[]|e] st3].
  - destruct fresh as [key|e]; cbn; [|done].
    destruct (create_index_key name (first (hex_encode key)) st2) as [[[]|e] st3]; cbn; [done| |done].
    by destruct (read_index_key name st3) as [[[record|]|e] st4].
Qed.

Context (st0 : St).

Definition agreed (name key : bytes) (st : St) : Prop :=
  ∃ record, records st name = Some record ∧ current_key record = Ok key.

(** What is stored is what was, or a key in the place of none: the shared map's, if it
    has one. *)
Record minted (st : St) : Prop := {
  mi_ok : store_ok st;
  mi_legacy name : legacy st name = legacy st0 name;
  mi_records name : records st name = records st0 name ∨
    records st0 name = None ∧
    ∃ key, length key = 32 ∧ records st name = Some (first (hex_encode key)) ∧
      ∀ hex, legacy st0 name = Some hex → decode_key_hex hex = Ok key;
}.

Definition pc_ok (st : St) (name : bytes) (pc : Pc) : Prop :=
  match pc with
  | ReadFirst | Resolved (Err _) => True
  | ReadLegacy => records st0 name = None
  | Migrate key => records st0 name = None ∧ ∃ hex, legacy st0 name = Some hex ∧ decode_key_hex hex = Ok key
  | Create => records st0 name = None ∧ legacy st0 name = None
  | Reread => is_Some (records st name)
  | Resolved (Ok key) => agreed name key st
  end.

Definition fresh_ok (fresh : result Core.Error bytes) : Prop :=
  match fresh with Ok key => length key = 32 | Err _ => True end.

Definition grown (st st' : St) : Prop := ∀ name record, records st name = Some record → records st' name = Some record.

Lemma pc_ok_grown st st' name pc : grown st st' → pc_ok st name pc → pc_ok st' name pc.
Proof using Type.
  intros Hg. destruct pc as [| | | | |[key|e]]; cbn; try done.
  - intros [record Hr]. by exists record; apply Hg.
  - intros (record & Hr & Hk). exists record. auto.
Qed.

Lemma decode_key_hex_encode key : length key = 32 → decode_key_hex (hex_encode key) = Ok key.
Proof using Type*.
  intros Hl. unfold decode_key_hex. rewrite hex_decode_encode. cbn. by rewrite bool_decide_true.
Qed.

Lemma current_key_first key : length key = 32 → current_key (first (hex_encode key)) = Ok key.
Proof using Type*.
  intros Hl. unfold current_key, first. cbn [ik_versions ik_current].
  rewrite lookup_singleton_eq. cbn. by apply decode_key_hex_encode.
Qed.

Lemma decode_key_hex_length hex key : decode_key_hex hex = Ok key → length key = 32.
Proof using Type.
  unfold decode_key_hex. intros (raw & _ & Hr)%bind_Ok_inv. case_bool_decide; [|done]. by injection Hr as <-.
Qed.

Lemma same_grown st st' : same st st' → grown st st'.
Proof using Type. intros (Hr & _) name record. by rewrite Hr. Qed.

Lemma adds_grown name record st st' : adds name record st st' → grown st st'.
Proof using Type. intros (Hn & Hr & _) n r. rewrite Hr. case_decide; naive_solver. Qed.

Lemma same_minted st st' : store_ok st' → same st st' → minted st → minted st'.
Proof using Type. intros Hok (Hr & Hl & _) [_ Hl0 Hr0]. split; [done|congruence|]. intros name. rewrite Hr. apply Hr0. Qed.

Lemma adds_minted name key st st' :
  store_ok st' → adds name (first (hex_encode key)) st st' → minted st → length key = 32 →
  (∀ hex, legacy st0 name = Some hex → decode_key_hex hex = Ok key) → minted st'.
Proof using Type.
  intros Hok (Hn & Hr & Hl & _) [_ Hl0 Hr0] Hlen Hk. split; [done|congruence|]. intros n. rewrite Hr.
  case_decide as Hd; [|apply Hr0]. subst n. right. split; [|eauto 10].
  destruct (Hr0 name) as [E|(E & _)]; congruence.
Qed.

Lemma not_stored st name : minted st → records st name = None → records st0 name = None.
Proof using Type. intros Hm Hn. destruct (mi_records st Hm name) as [E|[E _]]; congruence. Qed.

(** Where nothing was stored, what is stored now is the key in the place of none. *)
Lemma stored_agrees st name :
  minted st → records st0 name = None → is_Some (records st name) →
  ∃ key, agreed name key st ∧ ∀ hex, legacy st0 name = Some hex → decode_key_hex hex = Ok key.
Proof.
  intros Hm Hn [r Hr]. destruct (mi_records st Hm name) as [E|(_ & key & Hlen & E & Hk)]; [congruence|].
  exists key. split; [|done]. eexists. split; [exact E|]. by apply current_key_first.
Qed.

Lemma read_current st name r st' :
  minted st → read_index_key name st = (r, st') →
  minted st' ∧ grown st st' ∧
  match r with
  | Ok (Some record) => pc_ok st' name (Resolved (current_key record))
  | Ok None => records st name = None
  | Err _ => True
  end.
Proof using Type.
  intros Hm E. apply read_index_key_law in E as (Hok & Hs & Ho); [|apply Hm].
  split_and!; [by eapply same_minted|by apply same_grown|].
  destruct r as [[record|]|e]; [|by rewrite <- (Ho _ eq_refl)|done].
  cbn. destruct (current_key record) as [key|e] eqn:Hk; [|done]. exists record.
  by rewrite (proj1 Hs), <- (Ho _ eq_refl).
Qed.

Lemma create_minted st name key r st' :
  minted st → length key = 32 → (∀ hex, legacy st0 name = Some hex → decode_key_hex hex = Ok key) →
  create_index_key name (first (hex_encode key)) st = (r, st') →
  minted st' ∧ grown st st' ∧
  match r with
  | Ok true => agreed name key st'
  | Ok false => is_Some (records st' name)
  | Err _ => True
  end.
Proof.
  intros Hm Hlen Hk E. apply create_index_key_law in E as (Hok & Hr); [|apply Hm].
  assert (∀ s, adds name (first (hex_encode key)) st s → store_ok s → minted s ∧ grown st s) as Hadds.
  { intros s Ha Hs. split; [by eapply adds_minted|by eapply adds_grown]. }
  assert (∀ s, same st s → store_ok s → minted s ∧ grown st s) as Hsame.
  { intros s Ha Hs. split; [by eapply same_minted|by eapply same_grown]. }
  destruct r as [[]|e].
  - destruct (Hadds st' Hr Hok) as [H1 H2]. split_and!; [done..|]. eexists. split; [|by apply current_key_first].
    destruct Hr as (_ & Hr & _). rewrite Hr. by rewrite decide_True.
  - destruct Hr as [Hi Hs]. destruct (Hsame st' Hs Hok) as [H1 H2]. split_and!; [done..|].
    by rewrite (proj1 Hs).
  - destruct Hr as [Hs|Ha]; [destruct (Hsame st' Hs Hok)|destruct (Hadds st' Ha Hok)]; done.
Qed.

Lemma resolve_step_inv fresh name pc st pc' st' :
  minted st → fresh_ok fresh → pc_ok st name pc → resolve_step fresh name pc st = (pc', st') →
  minted st' ∧ grown st st' ∧ pc_ok st' name pc'.
Proof.
  intros Hm Hf Hpc. destruct pc as [| |key| | |r]; cbn [resolve_step].
  - destruct (read_index_key name st) as [r st1] eqn:E. intros [= <- <-].
    destruct (read_current _ _ _ _ Hm E) as (Hm1 & Hg & Hr). split_and!; [done..|].
    destruct r as [[record|]|e]; [done|eapply not_stored; [exact Hm|exact Hr]|done].
  - destruct (read_legacy_index_keys st) as [r st1] eqn:E. intros [= <- <-].
    apply read_legacy_law in E as (Hok & Hs & Ho); [|apply Hm].
    split_and!; [by eapply same_minted|by apply same_grown|].
    destruct r as [leg|e]; [|done]. rewrite (Ho leg name eq_refl), (mi_legacy st Hm).
    destruct (legacy st0 name) as [hex|] eqn:Hl; [|by destruct fresh].
    destruct (decode_key_hex hex) as [key|e] eqn:Hd; [|done]. cbn. eauto.
  - destruct Hpc as (Hn & hex & Hl & Hd).
    destruct (create_index_key name (first (hex_encode key)) st) as [r st1] eqn:E. intros [= <- <-].
    assert (∀ hex, legacy st0 name = Some hex → decode_key_hex hex = Ok key) as Hk by congruence.
    destruct (create_minted _ _ _ _ _ Hm (decode_key_hex_length _ _ Hd) Hk E) as (Hm1 & Hg & Hr).
    split_and!; [done..|]. destruct r as [[]|e]; [done| |done].
    destruct (stored_agrees _ _ Hm1 Hn Hr) as (key' & Ha & Hk'). cbn. specialize (Hk' _ Hl). congruence.
  - destruct Hpc as (Hn & Hl). destruct fresh as [key|e]; [|intros [= <- <-]; split_and!; [done|by intros ?|done]].
    destruct (create_index_key name (first (hex_encode key)) st) as [r st1] eqn:E. intros [= <- <-].
    assert (∀ hex, legacy st0 name = Some hex → decode_key_hex hex = Ok key) as Hk by congruence.
    destruct (create_minted _ _ _ _ _ Hm Hf Hk E) as (Hm1 & Hg & Hr).
    split_and!; [done..|]. by destruct r as [[]|e].
  - destruct (read_index_key name st) as [r st1] eqn:E. intros [= <- <-].
    destruct (read_current _ _ _ _ Hm E) as (Hm1 & Hg & Hr). split_and!; [done..|].
    by destruct r as [[record|]|e].
  - intros [= <- <-]. split_and!; [done|by intros ?|done].
Qed.

Definition fleet_ok (fl : Fleet) : Prop :=
  minted (fl_store fl) ∧
  Forall (λ '(name, fresh, pc), fresh_ok fresh ∧ pc_ok (fl_store fl) name pc) (fl_proxies fl).

Lemma fleet_step_ok fl fl' : fleet_step fl fl' → fleet_ok fl → fleet_ok fl'.
Proof.
  intros [? i name fresh pc pc' st Hi Hs|? name fresh Hf] [Hm Hp].
  - rewrite Forall_lookup in Hp. destruct (Hp _ _ Hi) as [Hf Hpc].
    destruct (resolve_step_inv _ _ _ _ _ _ Hm Hf Hpc Hs) as (Hm' & Hg & Hpc'). split; [done|]. cbn.
    apply Forall_insert; [|done]. apply Forall_lookup. intros j [[n f] p] Hj.
    destruct (Hp _ _ Hj). eauto using pc_ok_grown.
  - split; [done|]. cbn. apply Forall_app. split; [done|]. by repeat constructor.
Qed.

(** C27: whatever the number of proxies that resolve names against one store, however
    their calls interleave, fail or are given up on, every one that gets a key for a name
    gets the same one: the stored one where there is one, else the shared map's where it
    has one; and the store keeps it. The proxies are the only ones that write to the
    store. *)
Theorem index_keys_agree fl i j name f1 f2 k1 k2 :
  store_ok st0 → rtc fleet_step {| fl_store := st0; fl_proxies := [] |} fl →
  fl_proxies fl !! i = Some (name, f1, Resolved (Ok k1)) →
  fl_proxies fl !! j = Some (name, f2, Resolved (Ok k2)) →
  k1 = k2 ∧ agreed name k1 (fl_store fl) ∧
  (∀ record, records st0 name = Some record → current_key record = Ok k1) ∧
  (records st0 name = None → ∀ hex, legacy st0 name = Some hex → decode_key_hex hex = Ok k1).
Proof.
  intros Hok Hr Hi Hj.
  assert (fleet_ok fl) as [Hm Hp].
  { remember {| fl_store := st0; fl_proxies := [] |} as fl0 eqn:E0.
    assert (fleet_ok fl0) as Hfl0 by (subst; split; [split; [done|done|by left]|constructor]).
    clear E0 Hi Hj. induction Hr; eauto using fleet_step_ok. }
  rewrite Forall_lookup in Hp. destruct (Hp _ _ Hi) as [_ (r1 & Hr1 & Hk1)].
  destruct (Hp _ _ Hj) as [_ (r2 & Hr2 & Hk2)]. split_and!; [congruence|by exists r1| |].
  - intros record E. destruct (mi_records _ Hm name) as [E'|[E' _]]; congruence.
  - intros E hex Hl. destruct (stored_agrees _ _ Hm E) as (key & (r & Hrr & Hkk) & Hk); [by eexists|].
    rewrite (Hk _ Hl). congruence.
Qed.

End agreement.

(** ** Vault keeps those promises *)

(** A secret of the key-value store, by the type it was written from. *)
Inductive Secret := SRecord (record : IndexKeyRecord) | SMap (map : gmap bytes bytes) | SWrapped (wrapped : bytes).

(** KV v2 and Transit: reads answer with what is stored, and 404 where nothing is; a
    write with [cas = 0] succeeds only where nothing is and is otherwise a conflict; an
    error of another kind may be one the write outlived; Transit unwraps what it wrapped. *)
Class VaultClientLaws (St : Type) `{!VaultClient St} := {
  kv : St → bytes * bytes → option Secret;
  unwraps : St → bytes * bytes → bytes → option bytes;

  unchanged (st st' : St) : Prop := (∀ at_, kv st' at_ = kv st at_) ∧ (∀ k c, unwraps st' k c = unwraps st k c);
  writes (at_ : bytes * bytes) (s : Secret) (st st' : St) : Prop :=
    (∀ a, kv st' a = if decide (a = at_) then Some s else kv st a) ∧ (∀ k c, unwraps st' k c = unwraps st k c);
  reads {A} (m : bytes → bytes → M St ClientError A) (what : A → Secret) : Prop :=
    ∀ mount path st r st', m mount path st = (r, st') →
      unchanged st st' ∧
      match r with
      | Ok a => kv st (mount, path) = Some (what a)
      | Err e => is_not_found e = true → kv st (mount, path) = None
      end;

  kv_read_record_law : reads kv_read_record SRecord;
  kv_read_map_law : reads kv_read_map SMap;
  kv_read_wrapped_law : reads kv_read_wrapped SWrapped;
  kv_set_record_law mount path record st r st' :
    kv_set_record mount path record 0 st = (r, st') →
    match r with
    | Ok _ => kv st (mount, path) = None ∧ writes (mount, path) (SRecord record) st st'
    | Err e =>
        if is_cas_conflict e then is_Some (kv st (mount, path)) ∧ unchanged st st'
        else unchanged st st' ∨ kv st (mount, path) = None ∧ writes (mount, path) (SRecord record) st st'
    end;
  kv_set_wrapped_law mount path wrapped st r st' :
    kv_set_wrapped mount path wrapped st = (r, st') → r = Ok tt → writes (mount, path) (SWrapped wrapped) st st';
  transit_decrypt_law mount key wrapped st r st' :
    transit_decrypt mount key wrapped st = (r, st') →
    unchanged st st' ∧ ∀ plaintext, r = Ok plaintext → unwraps st (mount, key) wrapped = Some plaintext;
  transit_data_key_law mount key st plaintext wrapped st' :
    transit_data_key mount key st = (Ok (Some plaintext, wrapped), st') →
    (∀ at_, kv st' at_ = kv st at_) ∧ unwraps st' (mount, key) wrapped = Some plaintext;
}.

Section vault.
Context `{HexCrate} {St : Type} `{!VaultClient St, !VaultClientLaws St}.
Context (base64_decode : bytes → option bytes) (config : VaultConfig).

Definition vault_records (st : St) (name : bytes) : option IndexKeyRecord :=
  match index_key_path config name with
  | Ok path => match kv st (vc_mount config, path) with Some (SRecord r) => Some r | _ => None end
  | Err _ => None
  end.
Definition vault_legacy (st : St) (name : bytes) : option bytes :=
  match kv st (vc_mount config, legacy_index_keys_path config) with Some (SMap m) => m !! name | _ => None end.
Definition vault_deks (st : St) (id : bytes) : option bytes :=
  match kv st (vc_mount config, dek_path config id) with
  | Some (SWrapped wrapped) =>
      plaintext ← unwraps st (vc_transit_mount config, vc_transit_key config) wrapped;
      match decode_key_b64 base64_decode plaintext with Ok key => Some key | Err _ => None end
  | _ => None
  end.

(** Nothing but index keys is kept where index keys are. *)
Definition vault_ok (st : St) : Prop :=
  ∀ name path s, index_key_path config name = Ok path → kv st (vc_mount config, path) = Some s →
    ∃ record, s = SRecord record.

Lemma index_key_path_Ok name path :
  index_key_path config name = Ok path → path = vc_path config ++ b#"/index_keys/" ++ name.
Proof using Type. unfold index_key_path. case_match; [done|]. by intros [= <-]. Qed.

Definition vault_same (st st' : St) : Prop :=
  (∀ name, vault_records st' name = vault_records st name) ∧
  (∀ name, vault_legacy st' name = vault_legacy st name) ∧ (∀ id, vault_deks st' id = vault_deks st id).

Lemma unchanged_same st st' : unchanged st st' → vault_same st st' ∧ (vault_ok st → vault_ok st').
Proof using Type.
  intros [Hk Hu]. split; [split_and!|].
  - intros name. unfold vault_records. case_match; [|done]. by rewrite Hk.
  - intros name. unfold vault_legacy. by rewrite Hk.
  - intros id. unfold vault_deks. rewrite Hk. repeat case_match; try done. by rewrite Hu.
  - intros Hok name path s Hp. rewrite Hk. eauto.
Qed.

Definition vault_adds (name : bytes) (record : IndexKeyRecord) (st st' : St) : Prop :=
  vault_records st name = None ∧
  (∀ n, vault_records st' n = if decide (n = name) then Some record else vault_records st n) ∧
  (∀ n, vault_legacy st' n = vault_legacy st n) ∧ (∀ id, vault_deks st' id = vault_deks st id).

Lemma writes_adds name path record st st' :
  index_key_path config name = Ok path → kv st (vc_mount config, path) = None →
  writes (vc_mount config, path) (SRecord record) st st' →
  vault_adds name record st st' ∧ (vault_ok st → vault_ok st').
Proof using Type.
  intros Hp Hn [Hk Hu]. pose proof (index_key_path_Ok _ _ Hp) as ->. split; [split_and!|].
  - unfold vault_records. by rewrite Hp, Hn.
  - intros n. unfold vault_records. destruct (index_key_path config n) as [p|e] eqn:Hpn.
    + pose proof (index_key_path_Ok _ _ Hpn) as ->. rewrite Hk. case_decide as Hd.
      * apply (f_equal snd) in Hd. cbn [snd] in Hd. do 2 apply app_inv_head in Hd. subst n. by rewrite decide_True.
      * rewrite decide_False; [done|]. by intros ->.
    + rewrite decide_False; [done|]. intros ->. congruence.
  - intros n. unfold vault_legacy. rewrite Hk, decide_False; [done|]. intros E%(f_equal snd). cbn [snd] in E.
    apply app_inv_head in E. by apply (f_equal (drop 11)) in E.
  - intros id. unfold vault_deks. rewrite Hk, decide_False.
    + repeat case_match; try done. by rewrite Hu.
    + intros E%(f_equal snd). cbn [snd] in E. unfold dek_path in E. apply app_inv_head in E. done.
  - intros Hok n p s Hpn. rewrite Hk. case_decide; [intros [= <-]; eauto|]. apply (Hok _ _ _ Hpn).
Qed.

Lemma found_law {A} context (m : bytes → bytes → M St ClientError A) what path st r st' :
  reads m what → found context (m (vc_mount config) path) st = (r, st') →
  unchanged st st' ∧
  match r with
  | Ok (Some a) => kv st (vc_mount config, path) = Some (what a)
  | Ok None => kv st (vc_mount config, path) = None
  | Err _ => True
  end.
Proof using Type.
  intros Hm. unfold found. destruct (m (vc_mount config) path st) as [q st1] eqn:E. intros [= <- <-].
  apply Hm in E as [Hu Hq]. split; [done|].
  destruct q as [a|e]; [done|]. destruct (is_not_found e); auto.
Qed.

Lemma fetch_dek_vault id st r st' :
  store_fetch_dek base64_decode config id st = (r, st') →
  unchanged st st' ∧ (∀ o, r = Ok o → o = vault_deks st id).
Proof using Type.
  unfold store_fetch_dek, mbind, M_bind, or_backend, with_err, lift, mret, M_ret.
  destruct (found _ _ st) as [q st1] eqn:E.
  apply (found_law _ _ _ _ _ _ _ kv_read_wrapped_law) in E as (Hu & Hr). unfold vault_deks.
  destruct q as [[wrapped|]|e]; [|intros [= <- <-]; rewrite Hr; naive_solver|intros [= <- <-]; naive_solver].
  destruct (transit_decrypt _ _ wrapped st1) as [q st2] eqn:E. apply transit_decrypt_law in E as [Hu2 Hq].
  assert (unchanged st st2) as Hu3 by (destruct Hu, Hu2; split; congruence).
  rewrite Hr. destruct q as [plaintext|e]; cbn [map_err]; [|by intros [= <- <-]].
  rewrite <- (proj2 Hu), (Hq _ eq_refl). cbn.
  destruct (decode_key_b64 base64_decode plaintext) as [key|e] eqn:Hd; intros [= <- <-]; naive_solver.
Qed.

#[export] Instance vault_store_laws : KeyStoreLaws St (KeyStore0 := vault_store base64_decode config).
Proof using Type*.
  refine {| store_ok := vault_ok; records := vault_records; legacy := vault_legacy; deks := vault_deks |}.
  - intros name st r st' Hok. cbn. unfold store_read_index_key, mbind, M_bind, lift.
    destruct (index_key_path config name) as [path|e] eqn:Hp; [|by intros [= <- <-]].
    intros E. apply (found_law _ _ _ _ _ _ _ kv_read_record_law) in E as ([Hs Hok']%unchanged_same & Hr).
    split; [auto|]. split; [exact Hs|]. intros o ->. unfold vault_records. rewrite Hp.
    by destruct o; rewrite Hr.
  - intros st r st' Hok. cbn. unfold store_read_legacy.
    intros E. apply (found_law _ _ _ _ _ _ _ kv_read_map_law) in E as ([Hs Hok']%unchanged_same & Hr).
    split; [auto|]. split; [exact Hs|]. intros o name ->. unfold vault_legacy. by destruct o; cbn; rewrite Hr.
  - intros name record st r st' Hok. cbn. unfold store_create_index_key, mbind, M_bind, lift.
    destruct (index_key_path config name) as [path|e] eqn:Hp; [|by intros [= <- <-]; split; [|left]].
    unfold created. destruct (kv_set_record (vc_mount config) path record 0 st) as [q st1] eqn:E. intros [= <- <-].
    apply kv_set_record_law in E. destruct q as [[]|e].
    + destruct E as [Hn Hw]. destruct (writes_adds _ _ _ _ _ Hp Hn Hw). auto.
    + destruct (is_cas_conflict e).
      * destruct E as [[s Hs] [Hsame Hok']%unchanged_same]. split; [auto|]. split; [|exact Hsame].
        destruct (Hok _ _ _ Hp Hs) as (rec & ->). exists rec. unfold vault_records. by rewrite Hp, Hs.
      * destruct E as [[Hsame Hok']%unchanged_same|[Hn Hw]]; [auto|].
        destruct (writes_adds _ _ _ _ _ Hp Hn Hw). auto.
  - intros id st r st' Hok E. apply fetch_dek_vault in E as [[Hs Hok']%unchanged_same Ho]. auto.
Defined.

(** What connecting leaves: a key wrapped in the store, under the id that was drawn. *)
Lemma connect_Ok url_parse build client_new key_id setup st self st' :
  vs_config setup = config →
  connect base64_decode url_parse build client_new key_id setup st = (Ok self, st') →
  ∃ id key, key_id = Ok id ∧ self = source_new (id, key) ∧ vault_deks st' id = Some key ∧ length key = 32 ∧
    (vault_ok st → vault_ok st').
Proof.
  intros Hc E. unfold connect in E. rewrite Hc in E.
  apply M_bind_Ok in E as (settings & s1 & [= _ <-] & E). apply M_bind_Ok in E as ([] & s2 & [= _ <-] & E).
  apply M_bind_Ok in E as ([plaintext wrapped] & s3 & Hd & E). apply with_err_Ok in Hd.
  apply M_bind_Ok in E as (text & s4 & Ht & E). unfold lift in Ht.
  injection Ht as Ht <-. apply ok_or_Ok in Ht as ->. apply transit_data_key_law in Hd as [Hsame Hw].
  apply M_bind_Ok in E as (key & s5 & Hk & E). injection Hk as Hk <-.
  apply M_bind_Ok in E as (id & s6 & Hi & E). injection Hi as Hi <-.
  apply M_bind_Ok in E as ([] & s7 & Hset & E). apply with_err_Ok in Hset.
  apply kv_set_wrapped_law in Hset as [Hkv Hun]; [|done].
  apply mret_Ok in E as [<- <-]. exists id, key. split_and!; [done|done| | |].
  - unfold vault_deks. rewrite Hkv, decide_True by done. rewrite Hun, Hw. cbn. by rewrite Hk.
  - unfold decode_key_b64 in Hk. apply bind_Ok_inv in Hk as (raw & _ & Hk).
    case_bool_decide; [|done]. by injection Hk as <-.
  - intros Hok name path s Hp. rewrite Hkv, decide_False; [rewrite Hsame; by apply Hok with (name := name)|].
    apply index_key_path_Ok in Hp as ->. intros E%(f_equal snd). cbn [snd] in E. unfold dek_path in E.
    by apply app_inv_head in E.
Qed.

(** C29: the data key a run seals under can be had again: once a source is connected,
    the store holds its key, wrapped, under the id stamped into every envelope of the run,
    and a fetch of that id by any process answers with that key or fails. *)
Theorem connected_key_is_recoverable url_parse build client_new key_id setup st self st' id :
  vs_config setup = config →
  connect base64_decode url_parse build client_new key_id setup st = (Ok self, st') →
  (vk_active self).1 = id →
  vault_deks st' id = Some (vk_active self).2 ∧ length (vk_active self).2 = 32 ∧
  ∀ o st'', store_fetch_dek base64_decode config id st' = (Ok o, st'') → o = Some (vk_active self).2.
Proof.
  intros Hc E <-. apply connect_Ok in E as (id & key & _ & -> & Hdek & Hlen & _); [|done]. cbn.
  split_and!; [done..|]. intros o st'' Hf. apply fetch_dek_vault in Hf as [_ Ho]. by rewrite <- Hdek, (Ho _ eq_refl).
Qed.

End vault.

(** ** The token's lease *)

Section lease.
Context {St : Type} `{!KeyStore St} (lease : St → Z) (renewable : bool).
(** A token that cannot be renewed: the lookup tells its lease, and a renewal fails. *)
Context (Hstatus : ∀ st, token_status st = (Ok {| ts_ttl := lease st; ts_renewable := renewable |}, st)).
Context (Hrenew : ∀ st, ∃ e, renew_token st = (Err e, st)).

Definition is_expiring (c : TokenCheck) : bool := match c with Expiring => true | _ => false end.
Definition warnings (checks : list TokenCheck) : Z := Z.of_nat (length (filter (λ c, is_expiring c = true) checks)).

(** An interval, with what the calls take: some of the lease goes by, not all of it. *)
Definition passes (e : WatchEvent) : Prop :=
  match e with
  | Interval meanwhile => ∀ st, (0 < lease (meanwhile st) ∧ lease st - 2 * TOKEN_CHECK_INTERVAL ≤ lease (meanwhile st))%Z
  | Shutdown => False
  end.

Lemma check_lease st :
  (0 < lease st)%Z →
  check_token st = (if (TOKEN_RENEW_THRESHOLD <? lease st)%Z then Healthy else Expiring, st).
Proof using All.
  intros Hl. unfold check_token. rewrite Hstatus. unfold never_expires. cbn. rewrite bool_decide_false by lia. cbn.
  destruct (_ <? _)%Z; [done|]. destruct renewable; cbn; [|done]. destruct (Hrenew st) as [e He]. by rewrite He.
Qed.

Lemma warnings_cover events st checks st' :
  Forall passes events → token_watch events st = (checks, st') →
  (Z.min (lease st) TOKEN_RENEW_THRESHOLD - Z.min (lease st') TOKEN_RENEW_THRESHOLD
    ≤ 2 * TOKEN_CHECK_INTERVAL * warnings checks)%Z.
Proof using All.
  unfold warnings. revert st checks. induction events as [|[f|] events IH]; intros st checks He; cbn [token_watch].
  - intros [= <- <-]. cbn. lia.
  - apply Forall_cons in He as [Hf He]. destruct (Hf st) as [Hp Hd]. rewrite (check_lease _ Hp).
    destruct (token_watch events (f st)) as [cs s1] eqn:E. intros [= <- <-]. specialize (IH _ _ He E).
    change TOKEN_CHECK_INTERVAL with 60000000000%Z in *. change TOKEN_RENEW_THRESHOLD with 600000000000%Z in *.
    destruct (Z.ltb_spec 600000000000 (lease (f st))); [rewrite filter_cons_False by done|
      rewrite filter_cons_True by done; cbn [length]]; lia.
  - by apply Forall_cons in He as [[] _].
Qed.

(** A lease that runs out is warned of several times: even when every other interval is
    lost to slow calls, a token that cannot be renewed has been reported at least four
    times by the time two intervals of its lease are left. *)
Theorem expiring_token_is_reported events st checks st' :
  (TOKEN_RENEW_THRESHOLD < lease st)%Z → Forall passes events → token_watch events st = (checks, st') →
  (lease st' ≤ 2 * TOKEN_CHECK_INTERVAL)%Z → (4 ≤ warnings checks)%Z.
Proof using All.
  intros Hl He E Hend. apply warnings_cover in E; [|done].
  change TOKEN_CHECK_INTERVAL with 60000000000%Z in *. change TOKEN_RENEW_THRESHOLD with 600000000000%Z in *. lia.
Qed.

End lease.

(** ** The caches *)

Section caches.
Context `{HexCrate, !HexLaws} {St : Type} `{!KeyStore St, !KeyStoreLaws St}.

(** What others may do to the store: the proxies that share it, which only add to it.
    An operator who edits the shared map, points a record at another version or removes a
    wrapped key is not among them: the source leaves a rotation to an operator's procedure
    ([crates/vault/src/source.rs], the module's documentation), and what is promised here
    is promised between two of those. *)
Record later (st st' : St) : Prop := {
  la_ok : store_ok st → store_ok st';
  la_records : grown st st';
  la_deks id key : deks st id = Some key → deks st' id = Some key;
}.

Record source_inv (w : VaultKeySource * St) : Prop := {
  si_store : store_ok w.2;
  si_active : length (vk_active w.1).1 = KEY_ID_LEN ∧ deks w.2 (vk_active w.1).1 = Some (vk_active w.1).2;
  si_deks id key : vk_deks w.1 !! id = Some key → deks w.2 id = Some key;
  si_index name key : vk_index_keys w.1 !! name = Some key → agreed name key w.2;
  si_missing : size (vk_missing_deks w.1) ≤ MISSING_DEK_CACHE_MAX;
}.

(** Grow-only caches, in front of a store that is. *)
Definition keeps_keys (w w' : VaultKeySource * St) : Prop :=
  vk_active w'.1 = vk_active w.1 ∧ vk_deks w.1 ⊆ vk_deks w'.1 ∧ vk_index_keys w.1 ⊆ vk_index_keys w'.1 ∧
  later w.2 w'.2.

Definition timing_ok (st : St) (timing : Timing) : Prop :=
  match timing with Answered => True | OutOfTime st' => later st st' end.

#[global] Instance later_preorder : PreOrder later.
Proof using Type.
  split; [intros st; split; unfold grown; auto|].
  intros a b c [] []. split; unfold grown in *; auto.
Qed.

Lemma same_later st st' : store_ok st' → same st st' → later st st'.
Proof using Type.
  intros Hok Hs. split; [done|by apply same_grown|]. intros id key. by rewrite (proj2 (proj2 Hs)).
Qed.

Lemma remember_missing_bound now id self :
  size (vk_missing_deks (remember_missing now id self)) ≤ MISSING_DEK_CACHE_MAX.
Proof using Type.
  unfold remember_missing. set (kept := filter _ _). cbn [vk_missing_deks set_missing].
  case_bool_decide as Hb.
  - rewrite map_size_insert, lookup_empty, map_size_empty. unfold MISSING_DEK_CACHE_MAX. lia.
  - rewrite map_size_insert. destruct (kept !! id); unfold Datatypes.id; lia.
Qed.

Lemma resolve_index_key_agrees fresh name st r st' :
  store_ok st → fresh_ok fresh → resolve_index_key fresh name st = (r, st') →
  store_ok st' ∧ grown st st' ∧ ∀ key, r = Ok key → agreed name key st'.
Proof.
  intros Hok Hf E. pose proof (steps_resolve fresh name st) as Hs. rewrite E in Hs. cbn [fst snd] in Hs.
  assert (∀ n pc s pc' s', minted st s → pc_ok st s name pc → steps n fresh name pc s = (pc', s') →
    minted st s' ∧ grown s s' ∧ pc_ok st s' name pc') as Hsteps.
  { clear Hs E. induction n as [|n IH]; intros pc s pc' s' Hm Hpc; cbn [steps].
    { intros [= <- <-]. split_and!; [done|by intros ?|done]. }
    destruct (resolve_step fresh name pc s) as [pc1 s1] eqn:E. intros E2.
    apply (resolve_step_inv st) in E as (Hm1 & Hg1 & Hpc1); [|done..].
    destruct (IH _ _ _ _ Hm1 Hpc1 E2) as (Hm2 & Hg2 & Hpc2). split_and!; [done| |done].
    intros x y Hx. auto. }
  destruct (Hsteps 4 ReadFirst st _ _ ltac:(by split; [|done|left]) I Hs) as (Hm & Hg & Hpc).
  split_and!; [apply Hm|done|]. by intros key ->.
Qed.

Lemma block_on_later {A} mt timing what (m : M St Core.Error A) st r st' :
  (∀ q s, m st = (q, s) → later st s) → timing_ok st timing →
  block_on mt timing what m st = (r, st') →
  later st st' ∧ (∀ a, r = Ok a → m st = (Ok a, st')).
Proof using Type.
  intros Hm Ht. unfold block_on. destruct mt; [|by intros [= <- <-]].
  destruct timing as [|s]; [|by intros [= <- <-]]. intros E. split; [eauto|]. by intros a ->.
Qed.

Lemma source_inv_later self st st' : later st st' → source_inv (self, st) → source_inv (self, st').
Proof using Type.
  intros [Hok Hr Hd] [Hs [Hl Ha] Hds Hi Hm]. cbn in *. split; cbn; [auto|auto|eauto| |done].
  intros name key Hn. apply Hi in Hn as (record & Hn & Hk). exists record. auto.
Qed.

(** One call of [key]: what it answers, and what it leaves. *)
Lemma key_sound mt timing now id w r w' :
  source_inv w → timing_ok w.2 timing → key mt timing now id w = (r, w') →
  source_inv w' ∧ keeps_keys w w' ∧
  (∀ k, r = Ok k → deks w.2 id = Some k ∧ vk_deks w'.1 !! id = Some k) ∧
  (vk_missing_deks w'.1 = vk_missing_deks w.1 ∨ deks w.2 id = None).
Proof using Type.
  destruct w as [self st]. intros Hinv Ht. cbn in Ht.
  unfold key, on_source, upd_source, modify, gets, mbind, M_bind, mret, M_ret, lift. cbn [fst snd].
  assert (keeps_keys (self, st) (self, st)) as Hrefl by (split_and!; done).
  destruct (vk_deks self !! id) as [k|] eqn:Hc.
  { intros [= <- <-]. split_and!; [done..| |by left]. intros k' [= <-]. split; [|done]. by apply (si_deks _ Hinv). }
  cbn [fst snd]. destruct (recently_missing now id self).
  { intros [= <- <-]. split_and!; [done..|by left]. }
  unfold on_store. destruct (block_on mt timing _ (fetch_dek id) st) as [q st1] eqn:E.
  apply block_on_later in E as [Hl Hq]; [|intros q' s' E'; apply fetch_dek_law in E' as (? & ? & ?);
    [by apply same_later|apply Hinv]|done].
  pose proof (source_inv_later self st st1 Hl Hinv) as Hinv1.
  assert (∀ self', vk_active self' = vk_active self → vk_deks self ⊆ vk_deks self' →
    vk_index_keys self ⊆ vk_index_keys self' → keeps_keys (self, st) (self', st1)) as Hkeep by done.
  destruct q as [[k|]|e].
  - intros [= <- <-]. specialize (Hq _ eq_refl). apply fetch_dek_law in Hq as (_ & Hs & Ho); [|apply Hinv].
    assert (deks st1 id = Some k) as Hd by by rewrite (proj2 (proj2 Hs)), <- (Ho _ eq_refl).
    split_and!; [| |intros k' [= <-]; split; [by rewrite <- (Ho _ eq_refl)|apply lookup_insert_eq]|by left].
    + destruct Hinv1 as [A1 A2 A3 A4 A5]. cbn in *. split; cbn; [done|done| |done|done].
      intros i k'. destruct (decide (i = id)) as [->|]; [rewrite lookup_insert_eq; congruence|].
      rewrite lookup_insert_ne by done. apply A3.
    + apply Hkeep; cbn; [done| |done]. by apply insert_subseteq.
  - intros [= <- <-]. specialize (Hq _ eq_refl). apply fetch_dek_law in Hq as (_ & Hs & Ho); [|apply Hinv].
    split_and!; [|by apply Hkeep|done|right; by rewrite <- (Ho _ eq_refl)].
    destruct Hinv1 as [A1 A2 A3 A4 A5]. split; [done..|]. apply remember_missing_bound.
  - intros [= <- <-]. split_and!; [done|by apply Hkeep|done|by left].
Qed.

Lemma resolve_index_key_deks fresh name st r st' :
  store_ok st → resolve_index_key fresh name st = (r, st') → ∀ id, deks st' id = deks st id.
Proof.
  intros Hok E. pose proof (steps_resolve fresh name st) as Hs. rewrite E in Hs. cbn [fst snd] in Hs.
  assert (∀ n pc s pc' s', store_ok s → steps n fresh name pc s = (pc', s') →
    store_ok s' ∧ ∀ id, deks s' id = deks s id) as Hsteps; [|by eapply Hsteps].
  clear. induction n as [|n IH]; intros pc s pc' s' Hok; cbn [steps]; [by intros [= <- <-]|].
  destruct (resolve_step fresh name pc s) as [pc1 s1] eqn:E. intros E2.
  assert (store_ok s1 ∧ ∀ id, deks s1 id = deks s id) as [Hok1 Hd1].
  { assert (∀ rec r s2, create_index_key name rec s = (r, s2) → store_ok s2 ∧ ∀ id, deks s2 id = deks s id) as Hc.
    { intros rec r s2 [Hok2 Hr]%create_index_key_law; [|done]. split; [done|].
      destruct r as [[]|e]; [apply Hr|apply Hr|destruct Hr as [Hr|Hr]; apply Hr]. }
    destruct pc; cbn in E; repeat case_match; simplify_eq; try done;
      match goal with
      | H : read_index_key _ _ = _ |- _ => apply read_index_key_law in H as (? & (_ & _ & ?) & _); [|done]
      | H : read_legacy_index_keys _ = _ |- _ => apply read_legacy_law in H as (? & (_ & _ & ?) & _); [|done]
      | H : create_index_key _ _ _ = _ |- _ => apply Hc in H as [? ?]
      end; done. }
  destruct (IH _ _ _ _ Hok1 E2) as [Hok2 Hd2]. split; [done|]. intros id. by rewrite Hd2.
Qed.

Lemma index_key_sound mt timing fresh name w r w' :
  source_inv w → timing_ok w.2 timing → fresh_ok fresh → index_key mt timing fresh name w = (r, w') →
  source_inv w' ∧ keeps_keys w w' ∧
  (∀ k, r = Ok k → agreed name k w'.2 ∧ vk_index_keys w'.1 !! name = Some k).
Proof.
  destruct w as [self st]. intros Hinv Ht Hf. cbn in Ht.
  unfold index_key, on_source, upd_source, modify, gets, mbind, M_bind, mret, M_ret. cbn [fst snd].
  destruct (vk_index_keys self !! name) as [k|] eqn:Hc.
  { intros [= <- <-]. split_and!; [done..|]. intros k' [= <-]. split; [|done]. by apply (si_index _ Hinv). }
  unfold on_store. destruct (block_on mt timing _ (resolve_index_key fresh name) st) as [q st1] eqn:E.
  apply block_on_later in E as [Hl Hq]; [|intros q' s' E'|done].
  2:{ pose proof (resolve_index_key_deks _ _ _ _ _ (si_store _ Hinv) E') as Hd.
      apply resolve_index_key_agrees in E' as (? & ? & _); [|apply Hinv|done].
      split; [done..|]. intros i k. by rewrite Hd. }
  pose proof (source_inv_later self st st1 Hl Hinv) as Hinv1.
  destruct q as [k|e]; intros [= <- <-]; [|split_and!; done].
  specialize (Hq _ eq_refl). apply resolve_index_key_agrees in Hq as (_ & _ & Ha); [|apply Hinv|done].
  specialize (Ha _ eq_refl). split_and!; [| |intros k' [= <-]; split; [done|apply lookup_insert_eq]].
  - destruct Hinv1 as [A1 A2 A3 A4 A5]. cbn in *. split; cbn; [done..| |done].
    intros n k'. destruct (decide (n = name)) as [->|]; [rewrite lookup_insert_eq; congruence|].
    rewrite lookup_insert_ne by done. apply A4.
  - split_and!; cbn; [done..| |done]. by apply insert_subseteq.
Qed.

(** A process at work on a store it shares. *)
Inductive source_step : VaultKeySource * St → VaultKeySource * St → Prop :=
  | step_key w mt timing now id r w' :
      timing_ok w.2 timing → key mt timing now id w = (r, w') → source_step w w'
  | step_index w mt timing fresh name r w' :
      timing_ok w.2 timing → fresh_ok fresh → index_key mt timing fresh name w = (r, w') → source_step w w'
  | step_others self st st' : later st st' → source_step (self, st) (self, st').

Lemma keeps_keys_trans w1 w2 w3 : keeps_keys w1 w2 → keeps_keys w2 w3 → keeps_keys w1 w3.
Proof using Type.
  intros (A1 & A2 & A3 & A4) (B1 & B2 & B3 & B4).
  split_and!; [congruence|by etrans|by etrans|by etrans].
Qed.

Lemma source_steps_sound w w' : rtc source_step w w' → source_inv w → source_inv w' ∧ keeps_keys w w'.
Proof.
  induction 1 as [w|w w1 w2 Hs _ IH]; [by split|]. intros Hinv.
  assert (source_inv w1 ∧ keeps_keys w w1) as [Hinv1 Hk1].
  { destruct Hs as [? mt timing now id r w' Ht E|? mt timing fresh name r w' Ht Hf E|self st st' Hl].
    - by apply key_sound in E as (? & ? & _).
    - by apply index_key_sound in E as (? & ? & _).
    - split; [by eapply source_inv_later|done]. }
  destruct (IH Hinv1) as [Hinv2 Hk2]. split; [done|by eapply keeps_keys_trans].
Qed.

(** The source of a process at one moment, as the ciphers see it. *)
Definition vault_source (mt : bool) (timing : Timing) (now : Z) (fresh : result Core.Error bytes)
    (w : VaultKeySource * St) : KeySource := {|
  ks_active_key := active_key w.1;
  ks_key id := (key mt timing now id w).1;
  ks_index_key name := (index_key mt timing fresh name w).1;
|}.

(** C28: at any moment of a process that shares its store with others, the Vault source
    is one the ciphers can rely on: one key per id, the stored one, the active one
    included; every index key it answers with is the one the store then holds; and its
    negative cache is bounded. The others only add to the store ([later]). *)
Theorem vault_source_sound mt timing now fresh w w' :
  source_inv w → rtc source_step w w' → timing_ok w'.2 timing → fresh_ok fresh →
  source_ok (deks w'.2) (vault_source mt timing now fresh w') ∧
  (∀ name key, ks_index_key (vault_source mt timing now fresh w') name = Ok key →
    agreed name key (index_key mt timing fresh name w').2.2) ∧
  size (vk_missing_deks w'.1) ≤ MISSING_DEK_CACHE_MAX.
Proof.
  intros Hinv Hsteps Ht Hf. destruct (source_steps_sound _ _ Hsteps Hinv) as [Hinv' _].
  split_and!; [split| |apply Hinv'].
  - intros id key. cbn. unfold active_key. intros [= Ha]. pose proof (si_active _ Hinv') as Hact.
    rewrite Ha in Hact. exact Hact.
  - intros id k. cbn. destruct (key mt timing now id w') as [r w2] eqn:E. cbn. intros ->.
    apply key_sound in E as (_ & _ & Hk & _); [|done..]. by apply Hk.
  - intros name k. cbn. destruct (index_key mt timing fresh name w') as [r w2] eqn:E. cbn. intros ->.
    apply index_key_sound in E as (_ & _ & Hk); [|done..]. by apply Hk.
Qed.

(** A key once handed out is handed out for the life of the process, whatever
    happens to the store, the clock or the connection in between: no later call of the
    same id or name fails or answers otherwise. *)
Theorem served_keys_are_kept w w1 w2 :
  source_inv w → rtc source_step w1 w2 →
  (∀ mt timing now id k, timing_ok w.2 timing → key mt timing now id w = (Ok k, w1) →
    ∀ mt' timing' now', (key mt' timing' now' id w2).1 = Ok k) ∧
  (∀ mt timing fresh name k, timing_ok w.2 timing → fresh_ok fresh →
    index_key mt timing fresh name w = (Ok k, w1) →
    ∀ mt' timing' fresh', (index_key mt' timing' fresh' name w2).1 = Ok k).
Proof.
  intros Hinv Hsteps. split.
  - intros mt timing now id k Ht E mt' timing' now'. apply key_sound in E as (Hinv1 & _ & Hk & _); [|done..].
    destruct (Hk _ eq_refl) as [_ Hc]. destruct (source_steps_sound _ _ Hsteps Hinv1) as [_ (_ & Hsub & _)].
    destruct w2 as [self2 st2]. unfold key, on_source, gets, mbind, M_bind. cbn [fst snd] in *.
    by rewrite (lookup_weaken _ _ _ _ Hc Hsub).
  - intros mt timing fresh name k Ht Hf E mt' timing' fresh'.
    apply index_key_sound in E as (Hinv1 & _ & Hk); [|done..]. destruct (Hk _ eq_refl) as [_ Hc].
    destruct (source_steps_sound _ _ Hsteps Hinv1) as [_ (_ & _ & Hsub & _)].
    destruct w2 as [self2 st2]. unfold index_key, on_source, gets, mbind, M_bind. cbn [fst snd] in *.
    by rewrite (lookup_weaken _ _ _ _ Hc Hsub).
Qed.

End caches.

(** ** An example store *)

Module VaultExample.
Import EnvelopeExample.

(** What is stored where, the latest first. *)
Definition Store : Type := list (bytes * bytes * Secret).

Fixpoint at_path (st : Store) (at_ : bytes * bytes) : option Secret :=
  match st with
  | [] => None
  | (a, s) :: st => if bool_decide (at_ = a) then Some s else at_path st at_
  end.

Definition read_as {A} (f : Secret → option A) (mount path : bytes) : M Store ClientError A :=
  λ st, (match at_path st (mount, path) with
         | None => Err (APIError 404 [])
         | Some s => match f s with Some a => Ok a | None => Err (ClientOther b#"not of this shape") end
         end, st).

Definition set_if_absent (mount path : bytes) (record : IndexKeyRecord) (cas : Z) : M Store ClientError () :=
  λ st, match at_path st (mount, path) with
        | Some _ => if bool_decide (cas = 0%Z)
                    then (Err (APIError 400 [b#"check-and-set parameter did not match"]), st)
                    else (Ok tt, ((mount, path), SRecord record) :: st)
        | None => (Ok tt, ((mount, path), SRecord record) :: st)
        end.

(** Transit that wraps by doing nothing. *)
#[export] Instance client : VaultClient Store := {|
  kv_read_record := read_as (λ s, match s with SRecord r => Some r | _ => None end);
  kv_read_map := read_as (λ s, match s with SMap m => Some m | _ => None end);
  kv_read_wrapped := read_as (λ s, match s with SWrapped w => Some w | _ => None end);
  kv_set_record := set_if_absent;
  kv_set_wrapped mount path wrapped st := (Ok tt, ((mount, path), SWrapped wrapped) :: st);
  transit_decrypt _ _ wrapped st := (Ok wrapped, st);
  transit_data_key _ _ st := (Ok (Some key1, key1), st);
  lookup_self st := (Ok (0%Z, false), st);
  renew_self st := (Err (ClientOther b#"not renewable"), st);
|}.

Lemma at_path_write (st : Store) at_ s a :
  at_path ((at_, s) :: st) a = if decide (a = at_) then Some s else at_path st a.
Proof. cbn. by case_bool_decide; case_decide. Qed.

Lemma read_as_law {A} (f : Secret → option A) (what : A → Secret) mount path (st : Store) r st' :
  (∀ s a, f s = Some a → s = what a) → read_as f mount path st = (r, st') →
  st' = st ∧
  match r with
  | Ok a => at_path st (mount, path) = Some (what a)
  | Err e => is_not_found e = true → at_path st (mount, path) = None
  end.
Proof.
  intros Hf [= <- <-]. split; [done|]. destruct (at_path st (mount, path)) as [s|]; [|done].
  destruct (f s) as [a|] eqn:E; [|done]. by rewrite (Hf _ _ E).
Qed.

#[export] Instance client_laws : VaultClientLaws Store.
Proof.
  refine {| kv st at_ := at_path st at_; unwraps _ _ c := Some c |}.
  1-3: intros mount path st r st' E; eapply read_as_law in E as [-> Hr];
    [split; [done|exact Hr]|by intros []; naive_solver].
  - intros mount path record st r st'. cbn. unfold set_if_absent.
    destruct (at_path st (mount, path)) as [s|] eqn:Hs; intros [= <- <-]; cbn.
    + split; [by eexists|done].
    + split; [done|]. split; [|done]. intros a. apply at_path_write.
  - intros mount path wrapped st r st' [= <- <-] _. split; [|done]. intros a. apply at_path_write.
  - intros mount key wrapped st r st' [= <- <-]. split; [done|]. by intros ? [= <-].
  - intros mount key st plaintext wrapped st' [= <- <- <-]. done.
Defined.

Definition config : VaultConfig := {|
  vc_addr := b#"https://vault"; vc_allow_insecure_addr := false; vc_token := Some b#"hvs.abc";
  vc_token_file := None; vc_timeout_secs := 5; vc_mount := b#"secret"; vc_path := b#"dbsec";
  vc_transit_mount := b#"transit"; vc_transit_key := b#"dbsec" |}.

#[export] Instance store : KeyStore Store := vault_store Some config.
#[export] Instance store_laws : KeyStoreLaws Store := vault_store_laws Some config.

(** The proxies take turns as a schedule says. *)
Fixpoint run (schedule : list nat) (fl : Fleet (St := Store)) : Fleet :=
  match schedule with
  | [] => fl
  | i :: schedule =>
      run schedule
        match fl_proxies fl !! i with
        | Some (name, fresh, pc) =>
            let '(pc, st) := resolve_step fresh name pc (fl_store fl) in
            {| fl_store := st; fl_proxies := <[i := (name, fresh, pc)]> (fl_proxies fl) |}
        | None => fl
        end
  end.

Lemma run_steps schedule fl : rtc fleet_step fl (run schedule fl).
Proof.
  revert fl. induction schedule as [|i schedule IH]; intros fl; cbn; [done|].
  destruct (fl_proxies fl !! i) as [[[name fresh] pc]|] eqn:Hi; [|apply IH].
  destruct (resolve_step fresh name pc (fl_store fl)) as [pc' st] eqn:E.
  eapply rtc_l; [by eapply proxy_step|apply IH].
Qed.

Definition empty : Fleet (St := Store) := {| fl_store := []; fl_proxies := [] |}.
Definition name : bytes := b#"public.users.ssn".
Definition two : Fleet (St := Store) :=
  {| fl_store := []; fl_proxies := [(name, Ok key1, ReadFirst); (name, Ok key2, ReadFirst)] |}.

Lemma two_start : rtc fleet_step empty two.
Proof.
  eapply rtc_l; [by apply (proxy_start empty name (Ok key1))|].
  eapply rtc_l; [by apply (proxy_start _ name (Ok key2))|]. done.
Qed.

(** Both read, find nothing, and try to create; the second adopts the first's. *)
Definition raced : Fleet (St := Store) := run [0; 1; 0; 1; 0; 1; 1] two.

Lemma index_keys_agree_witness : agreed name key1 (fl_store raced).
Proof.
  apply (index_keys_agree ([] : Store) raced 0 1 name (Ok key1) (Ok key2) key1 key1).
  - by intros n p s _ Hs.
  - etrans; [apply two_start|apply run_steps].
  - vm_compute. reflexivity.
  - vm_compute. reflexivity.
Defined.

(** A run that connects, and another that reads its key. *)
Definition setup : VaultSetup := {| vs_config := config; vs_token := b#"hvs.abc" |}.

Definition connected : result Core.Error VaultKeySource * Store :=
  connect Some (λ s, Ok s) (λ s, Ok s) (λ _, Ok tt) (Ok id1) setup [].
Definition self : VaultKeySource := source_new (id1, key1).

Lemma connected_key_is_recoverable_witness : vault_deks Some config connected.2 id1 = Some key1.
Proof.
  destruct (connected_key_is_recoverable Some config (λ s, Ok s) (λ s, Ok s) (λ _, Ok tt) (Ok id1) setup [] self
    connected.2 id1) as [Hd _]; [reflexivity|vm_compute; reflexivity|reflexivity|exact Hd].
Defined.

Lemma self_inv : source_inv (self, connected.2).
Proof.
  split; cbn [fst snd].
  - intros n p s ->%index_key_path_Ok.
    change (connected.2) with [((b#"secret", dek_path config id1), SWrapped key1)].
    cbn [kv client_laws]. rewrite at_path_write. case_decide as Hd; [|done].
    apply (f_equal snd) in Hd. cbn [snd] in Hd. unfold dek_path in Hd. by apply app_inv_head in Hd.
  - vm_compute. done.
  - intros id k Hk. cbn in Hk. apply lookup_singleton_Some in Hk as [<- <-]. vm_compute. done.
  - intros n k Hk. cbn in Hk. by rewrite lookup_empty in Hk.
  - cbn. rewrite map_size_empty. lia.
Qed.

Definition asked : result Core.Error bytes * (VaultKeySource * Store) :=
  key true Answered 0 id2 (self, connected.2).
Definition named : result Core.Error bytes * (VaultKeySource * Store) :=
  index_key true Answered (Ok key2) name (self, connected.2).

(** An id nobody stored is remembered as missing. *)
Lemma vault_source_sound_witness :
  asked.1 = Err (Core.UnknownKey (hex_encode id2)) ∧
  source_ok (deks asked.2.2) (vault_source true Answered 0 (Ok key2) asked.2).
Proof.
  split; [vm_compute; reflexivity|].
  destruct (vault_source_sound true Answered 0 (Ok key2) (self, connected.2) asked.2) as [Hs _];
    [apply self_inv| |done|vm_compute; reflexivity|exact Hs].
  eapply rtc_once, (step_key _ true Answered 0 id2); [done|]. apply surjective_pairing.
Defined.

(** A minted key is answered with when there is no connection any more. *)
Lemma served_keys_are_kept_witness :
  (index_key false Answered (Err Core.Entropy) name named.2).1 = Ok key2.
Proof.
  destruct (served_keys_are_kept (self, connected.2) named.2 named.2 self_inv) as [_ Hk]; [done|].
  apply (Hk true Answered (Ok key2)); [done|vm_compute; reflexivity|].
  assert (named.1 = Ok key2) as <- by (vm_compute; reflexivity). apply surjective_pairing.
Defined.

(** A migration that loses the race keeps the key it came with, whatever the winner's is. *)
Lemma lost_migration_keeps_its_key :
  let st : Store := [((b#"secret", b#"dbsec/index_keys/" ++ name), SRecord (first (hex_encode key1)))] in
  (resolve_step (Ok key1) name (Migrate key2) st).1 = Resolved (Ok key2) ∧ agreed name key1 st.
Proof. split; [vm_compute; reflexivity|]. eexists. split; vm_compute; reflexivity. Qed.

End VaultExample.
