(* ===== verification/ConfigSpec.v ===== *)
(** * What a configuration may say, and what is said of it

    No password of a well-formed connection string is printed; a parse error on a
    line that sets a credential is reported without the parser's words; and a
    configuration that validates has what the protected path needs. *)

From S2P Require Import Prelude Utf8 IntText Crates Pgwire Errors Envelope RowKeys Fields Transform.
From S2P Require Import Policy Keys Settings Portal Rows RowsSpec Config.

(** ** Connection strings *)

Lemma span_app p l r :
  Forall (λ b, p b = true) l → match r with b :: _ => p b = false | [] => True end →
  span p (l ++ r) = (l, r).
Proof.
  induction 1 as [|b l Hb _ IH]; intros Hr; cbn.
  - destruct r as [|b r]; [done|]. cbn. by rewrite Hr.
  - by rewrite Hb, IH.
Qed.

(** A value as libpq's keyword form writes it. *)
Inductive Written := Bare (v : bytes) | Quoted (v : bytes).

Fixpoint escape (v : bytes) : bytes :=
  match v with
  | [] => []
  | b :: v => if bool_decide (b = x27 ∨ b = x5c) then x5c :: b :: escape v else b :: escape v
  end.

Definition written (w : Written) : bytes :=
  match w with Bare v => v | Quoted v => [x27] ++ escape v ++ [x27] end.

Definition is_sep (b : byte) : Prop := b = " "%byte ∨ b = "&"%byte.

Definition written_ok (w : Written) : Prop :=
  match w with
  | Bare v => Forall (λ b, b ∉ [" "%byte; x09; "&"%byte]) v ∧ head v ≠ Some x27
  | Quoted _ => True
  end.

Definition key_ok (k : bytes) : Prop :=
  k ≠ [] ∧ Forall (λ b, b ≠ "="%byte ∧ is_delimiter b = false) k.

(** [k1=v1 k2=v2 ...], joined with a space or with [&]; and the same with the passwords
    masked. *)
Definition keyword (value : bytes * Written → bytes) (p : bytes * Written) : bytes :=
  p.1 ++ b#"=" ++ value p.
Fixpoint keywords (sep : byte) (value : bytes * Written → bytes) (params : list (bytes * Written)) : bytes :=
  match params with
  | [] => []
  | [p] => keyword value p
  | p :: params => keyword value p ++ sep :: keywords sep value params
  end.
Definition masked (p : bytes * Written) : bytes :=
  if eq_ignore_ascii_case p.1 b#"password" then REDACTED else written p.2.

Lemma quoted_len_escape v r : quoted_len (escape v ++ x27 :: r) = length (escape v) + 1.
Proof.
  induction v as [|b v IH]; cbn [escape app]; [done|]. case_bool_decide as Hb.
  - cbn. by rewrite IH.
  - cbn. rewrite !bool_decide_false by naive_solver. by rewrite IH.
Qed.

Lemma parameter_value_written w r :
  written_ok w → match r with b :: _ => is_sep b | [] => True end →
  parameter_value (written w ++ r) = (written w, r).
Proof.
  intros Hw Hr. destruct w as [v|v]; cbn [written] in *.
  - destruct Hw as [Hv Hh]. assert (span (λ b, negb (bool_decide (b ∈ [" "%byte; x09; "&"%byte]))) (v ++ r) = (v, r)) as Hs.
    { apply span_app; [eapply Forall_impl; [exact Hv|]; intros b Hb; by rewrite bool_decide_false|].
      destruct r as [|b r]; [done|]. by destruct Hr as [->| ->]. }
    unfold parameter_value. destruct v as [|b v]; cbn [app] in *.
    + destruct r as [|b r]; [done|]. by destruct Hr as [->| ->].
    + rewrite bool_decide_false by (intros ->; by apply Hh). exact Hs.
  - cbn [app parameter_value]. rewrite bool_decide_true by done. rewrite <- app_assoc. cbn [app].
    rewrite quoted_len_escape.
    replace (x27 :: escape v ++ x27 :: r) with ((x27 :: escape v ++ [x27]) ++ r) by (cbn; by rewrite <- app_assoc).
    rewrite take_app_length', drop_app_length' by (cbn; rewrite length_app; cbn; lia). done.
Qed.

Definition parameter_ok (p : bytes * Written) : Prop := key_ok p.1 ∧ written_ok p.2.

(** One turn: a parameter is copied or masked. *)
Lemma mask_loop_parameter fuel p r out :
  parameter_ok p → match r with b :: _ => is_sep b | [] => True end →
  mask_loop (S fuel) (keyword (written ∘ snd) p ++ r) out = mask_loop fuel r (out ++ keyword masked p).
Proof.
  destruct p as [k w]. intros [[Hk Hkf] Hw] Hr. cbn [fst snd] in *. unfold keyword. cbn [fst snd compose].
  rewrite <- !app_assoc. change (b#"=" ++ written w ++ r) with ("="%byte :: (written w ++ r)).
  assert (span (λ b, negb (bool_decide (b = "="%byte)) && negb (is_delimiter b)) (k ++ "="%byte :: (written w ++ r))
    = (k, "="%byte :: (written w ++ r))) as Hs.
  { apply span_app; [|done]. eapply Forall_impl; [exact Hkf|]. intros b [Hb Hd].
    by rewrite bool_decide_false, Hd. }
  destruct k as [|b k]; [done|]. apply Forall_cons in Hkf as [[_ Hd] _].
  cbn [mask_loop app] in *. rewrite Hd, Hs. cbn [app]. rewrite bool_decide_true by done.
  rewrite parameter_value_written by done. f_equal. unfold masked. cbn [fst snd]. by rewrite <- !app_assoc.
Qed.

Lemma mask_loop_delimiter fuel b r out :
  is_delimiter b = true → mask_loop (S fuel) (b :: r) out = mask_loop fuel r (out ++ [b]).
Proof. intros Hb. cbn. by rewrite Hb. Qed.

Lemma is_sep_delimiter b : is_sep b → is_delimiter b = true.
Proof. by intros [->| ->]. Qed.

Lemma mask_loop_keywords sep fuel params out :
  is_sep sep → Forall parameter_ok params → length (keywords sep (written ∘ snd) params) ≤ fuel →
  mask_loop fuel (keywords sep (written ∘ snd) params) out = out ++ keywords sep masked params.
Proof.
  intros Hsep Hp. revert fuel out. induction Hp as [|p params Hp Hps IH]; intros fuel out Hl.
  { cbn [keywords]. destruct fuel; by rewrite app_nil_r. }
  assert (length (keyword (written ∘ snd) p) ≠ 0) as Hne.
  { unfold keyword. rewrite !length_app. change (length b#"=") with 1. lia. }
  destruct params as [|q params]; cbn [keywords] in *.
  - destruct fuel as [|fuel]; [lia|]. rewrite <- (app_nil_r (keyword (written ∘ snd) p)).
    rewrite mask_loop_parameter by done. by destruct fuel.
  - rewrite length_app in Hl. cbn [length] in Hl. destruct fuel as [|[|fuel]]; [lia..|].
    rewrite mask_loop_parameter by done. rewrite mask_loop_delimiter by by apply is_sep_delimiter.
    rewrite IH by (cbn [keywords]; lia). by rewrite <- !app_assoc.
Qed.

(** The keyword form of a connection string is printed with every password masked
    and nothing else changed: bare values, quoted values with escapes, any letter case
    of the key, passwords with spaces included. *)
Theorem keyword_dsn_is_masked params :
  Forall parameter_ok params → split_once_at b#"://" (keywords " "%byte (written ∘ snd) params) = None →
  redact_dsn (keywords " "%byte (written ∘ snd) params) = keywords " "%byte masked params.
Proof.
  intros Hp Hu. unfold redact_dsn. rewrite Hu. unfold mask_password_parameters.
  rewrite mask_loop_keywords; [done|by left|done..].
Qed.

(** *** The URL form *)

Record Url := {
  u_scheme : bytes; u_user : bytes; u_password : bytes; u_host : bytes; u_path : bytes;
  u_params : list (bytes * Written);
}.

Definition url_text (password : bytes) (value : bytes * Written → bytes) (u : Url) : bytes :=
  u_scheme u ++ b#"://" ++ u_user u ++ b#":" ++ password ++ b#"@" ++ u_host u ++ u_path u
  ++ match u_params u with [] => [] | ps => b#"?" ++ keywords "&"%byte value ps end.

Definition without (cs : list byte) (s : bytes) : Prop := Forall (λ b, b ∉ cs) s.

Record url_ok (u : Url) : Prop := {
  uo_scheme : without [":"%byte] (u_scheme u);
  uo_user : without [":"%byte; "/"%byte; "?"%byte] (u_user u);
  uo_password : without ["/"%byte; "?"%byte] (u_password u);
  uo_host : without ["/"%byte; "?"%byte; "@"%byte; "="%byte] (u_host u);
  uo_path : without ["="%byte] (u_path u) ∧ match u_path u with b :: _ => b = "/"%byte | [] => True end;
  uo_params : Forall parameter_ok (u_params u);
}.

Lemma split_once_at_app c sep h r :
  without [c] h → split_once_at (c :: sep) (h ++ (c :: sep) ++ r) = Some (h, r).
Proof.
  induction 1 as [|b h Hb _ IH].
  - cbn [app split_once_at]. assert (strip_prefix (c :: sep) (c :: sep ++ r) = Some r) as ->; [|done].
    by apply strip_prefix_Some.
  - cbn [app split_once_at strip_prefix]. rewrite bool_decide_false by set_solver.
    cbn [app] in IH. by rewrite IH.
Qed.

Lemma position_default p l r :
  Forall (λ b, p b = false) l → match r with b :: _ => p b = true | [] => True end →
  default (length (l ++ r)) (find_byte p (l ++ r)) = length l.
Proof.
  intros Hl Hr. unfold find_byte. destruct r as [|b r].
  - rewrite app_nil_r. apply position_None in Hl as ->. done.
  - rewrite position_app by done. done.
Qed.

Lemma rfind_byte_app (p : byte → bool) l b r :
  p b = true → Forall (λ b, p b = false) r → rfind_byte p (l ++ b :: r) = Some (length l).
Proof.
  intros Hb Hr. unfold rfind_byte. rewrite rev_app_distr. cbn [rev]. rewrite <- app_assoc. cbn [app].
  assert (Forall (λ b, p b = false) (rev r)) as Hr'.
  { rewrite List.Forall_forall in *. intros x Hx. apply Hr. by apply in_rev. }
  rewrite position_app by done. cbn. f_equal. rewrite length_rev, length_app. cbn. lia.
Qed.

Lemma span_split p s : ∃ h t, span p s = (h, t) ∧ s = h ++ t ∧ Forall (λ b, p b = true) h
  ∧ match t with b :: _ => p b = false | [] => True end.
Proof.
  induction s as [|b s (h & t & Hs & -> & Hh & Ht)]; cbn; [by exists [], []|].
  destruct (p b) eqn:Hb; [|by exists [], (b :: h ++ t)].
  rewrite Hs. exists (b :: h), t. auto.
Qed.

(** Text that assigns nothing is copied, up to a delimiter or to the end. *)
Lemma mask_loop_plain t :
  without ["="%byte] t → ∃ n, n ≤ length t ∧
    (∀ fuel d r out, is_delimiter d = true →
      mask_loop (n + fuel) (t ++ d :: r) out = mask_loop fuel (d :: r) (out ++ t)) ∧
    (∀ fuel out, mask_loop (n + fuel) t out = out ++ t).
Proof.
  induction t as [t IH] using (induction_ltof1 _ length). unfold ltof in IH. intros Ht.
  destruct t as [|b t].
  { exists 0. split_and!; [done|..]; intros fuel *; [intros _|]; rewrite app_nil_r; by destruct fuel. }
  destruct (is_delimiter b) eqn:Hb.
  { destruct (IH t) as (n & Hn & H1 & H2); [cbn; lia|by eapply Forall_inv_tail|].
    exists (S n). split_and!; [cbn; lia|..]; intros *; cbn [Nat.add app]; [intros Hd|];
      rewrite mask_loop_delimiter, ?H1, ?H2 by done; by rewrite <- app_assoc. }
  set (p := λ b, negb (bool_decide (b = "="%byte)) && negb (is_delimiter b)).
  destruct (span_split p (b :: t)) as (h & t' & Hs & Heq & Hh & Ht').
  assert (p b = true) as Hpb.
  { unfold p. rewrite Hb, bool_decide_false; [done|]. apply Forall_inv in Ht. set_solver. }
  destruct h as [|b' h]; cbn [app] in Heq.
  { rewrite <- Heq in Ht'. congruence. }
  injection Heq as <- Heq. rewrite Heq in Ht.
  assert (Ht2 : without ["="%byte] t') by (eapply (Forall_app _ (b :: h)); exact Ht).
  destruct (IH t') as (n & Hn & H1 & H2); [rewrite Heq; cbn; rewrite length_app; lia|done|].
  exists (S n). rewrite Heq. split_and!; [cbn; rewrite length_app; lia|..].
  - intros fuel d r out Hd. cbn [Nat.add mask_loop app]. rewrite Hb. rewrite <- app_assoc. fold p.
    change (b :: h ++ t' ++ d :: r) with ((b :: h) ++ t' ++ d :: r). rewrite span_app; [|done|].
    2:{ destruct t' as [|x t']; cbn; [|done]. unfold p. rewrite Hd. by destruct (negb _). }
    destruct t' as [|x t']; cbn [app].
    + rewrite bool_decide_false by (intros ->; done). specialize (H1 fuel d r (out ++ b :: h) Hd).
      cbn [app] in H1. rewrite H1. by rewrite <- app_assoc.
    + rewrite bool_decide_false by (apply Forall_inv in Ht2; set_solver).
      rewrite (H1 fuel d r _ Hd : mask_loop _ (x :: t' ++ _) _ = _). by rewrite <- app_assoc.
  - intros fuel out. cbn [Nat.add mask_loop app]. rewrite Hb. fold p.
    change (b :: h ++ t') with ((b :: h) ++ t'). rewrite span_app by done.
    destruct t' as [|x t']; cbn [app]; [by rewrite app_nil_r|].
    rewrite bool_decide_false by (apply Forall_inv in Ht2; set_solver).
    rewrite H2. by rewrite <- app_assoc.
Qed.

Lemma mask_loop_tail u out :
  url_ok u →
  mask_password_parameters (b#"@" ++ u_host u ++ u_path u
    ++ match u_params u with [] => [] | ps => b#"?" ++ keywords "&"%byte (written ∘ snd) ps end) out
  = out ++ b#"@" ++ u_host u ++ u_path u
    ++ match u_params u with [] => [] | ps => b#"?" ++ keywords "&"%byte masked ps end.
Proof.
  intros [_ _ _ Hh [Hp _] Hps]. unfold mask_password_parameters.
  assert (without ["="%byte] (b#"@" ++ u_host u ++ u_path u)) as Ht.
  { apply Forall_app. split; [repeat constructor; set_solver|]. apply Forall_app. split; [|done].
    eapply Forall_impl; [exact Hh|]. set_solver. }
  destruct (mask_loop_plain _ Ht) as (n & Hn & H1 & H2).
  set (t := b#"@" ++ u_host u ++ u_path u) in *. destruct (u_params u) as [|q ps].
  - rewrite !app_nil_r. fold t. by rewrite <- (H2 (length t - n)), Nat.add_comm, Nat.sub_add.
  - set (k := keywords _ _ (q :: ps)).
    replace (b#"@" ++ u_host u ++ u_path u ++ b#"?" ++ k) with (t ++ "?"%byte :: k)
      by (unfold t; by rewrite <- !app_assoc).
    rewrite length_app. cbn [length].
    replace (length t + S (length k)) with (n + S (length t - n + length k)) by lia.
    rewrite H1 by done. rewrite mask_loop_delimiter by done. unfold k.
    rewrite mask_loop_keywords; [|by right|done|lia]. unfold t. by rewrite <- !app_assoc.
Qed.

(** The URL form is printed with the password before the host and every password
    parameter masked, and nothing else changed, whatever the password holds short of the
    two bytes that end the authority. *)
Theorem url_dsn_is_masked u :
  url_ok u → redact_dsn (url_text (u_password u) (written ∘ snd) u) = url_text REDACTED masked u.
Proof.
  intros Hu. unfold redact_dsn, url_text.
  rewrite (split_once_at_app ":"%byte b#"//" _ _ (uo_scheme u Hu) : split_once_at b#"://" (_ ++ b#"://" ++ _) = _).
  set (query := match u_params u with [] => [] | _ => _ end).
  set (login := u_user u ++ b#":" ++ u_password u).
  set (authority := login ++ b#"@" ++ u_host u).
  replace (u_user u ++ b#":" ++ u_password u ++ b#"@" ++ u_host u ++ u_path u ++ query)
    with (authority ++ u_path u ++ query) by (unfold authority, login; by rewrite <- !app_assoc).
  rewrite position_default; cycle 1.
  { unfold authority, login. destruct Hu as [_ Hus Hpw Hho _ _]. rewrite !Forall_app. split_and!;
      first [repeat constructor; done|eapply Forall_impl; [eassumption|]; intros b Hb; cbn in Hb;
             apply bool_decide_eq_false; set_solver]. }
  { destruct Hu as [_ _ _ _ [_ Hpath] _]. destruct (u_path u) as [|b l]; cbn; [|by rewrite Hpath].
    unfold query. by destruct (u_params u). }
  rewrite take_app_length. change authority with (login ++ "@"%byte :: u_host u) at 1.
  rewrite rfind_byte_app; [|done|]; cycle 1.
  { eapply Forall_impl; [apply Hu|]. intros b Hb. apply bool_decide_eq_false. set_solver. }
  unfold authority. rewrite <- !app_assoc, take_app_length, drop_app_length.
  assert (without [":"%byte] (u_user u)) as Hc by (eapply Forall_impl; [apply Hu|]; set_solver).
  unfold login at 1.
  rewrite (split_once_at_app ":"%byte [] _ _ Hc : split_once_at b#":" (_ ++ b#":" ++ _) = _).
  unfold query. rewrite mask_loop_tail by done. by rewrite <- !app_assoc.
Qed.

(** ** Parse errors *)

Lemma rfind_byte_Some p s i : rfind_byte p s = Some i → ∃ b, s !! i = Some b ∧ p b = true.
Proof.
  unfold rfind_byte. intros (j & Hj & ->)%fmap_Some. apply position_Some in Hj as (b & Hb & Hp & _).
  exists b. split; [|done]. change (rev s) with (rev s) in Hb. rewrite rev_alt in Hb.
  change (rev_append s []) with (reverse s) in Hb. apply reverse_lookup_Some in Hb as [Hb Hl].
  by replace (length s - j - 1) with (length s - S j) by lia.
Qed.

(** A line of a text, between its start or a newline and its end or a newline. *)
Definition line_of (before line after : bytes) : Prop :=
  (before = [] ∨ last before = Some x0a) ∧ without [x0a] line ∧
  match after with b :: _ => b = x0a | [] => True end.

Lemma split_on_line line after :
  without [x0a] line → match after with b :: _ => b = x0a | [] => True end →
  ∃ parts, split_on x0a (line ++ after) = line :: parts.
Proof.
  intros Hl Ha. induction Hl as [|b line Hb _ (parts & IH)]; cbn.
  - destruct after as [|b after]; [by exists []|]. subst b. cbn. by eexists.
  - rewrite bool_decide_false by set_solver. rewrite IH. by eexists.
Qed.

Lemma split_on_ne c s : split_on c s ≠ [].
Proof. destruct s as [|b s]; cbn; [done|]. case_bool_decide; [done|]. by destruct (split_on c s). Qed.

Lemma split_on_app c s r : split_on c (s ++ c :: r) = split_on c s ++ split_on c r.
Proof.
  induction s as [|b s IH]; cbn; [by rewrite bool_decide_true|]. rewrite IH.
  case_bool_decide; [done|]. pose proof (split_on_ne c s). by destruct (split_on c s).
Qed.

Lemma split_on_elem before line after :
  line_of before line after → line ∈ split_on x0a (before ++ line ++ after).
Proof.
  intros (Hb & Hl & Ha). destruct (split_on_line line after Hl Ha) as (parts & Hs).
  destruct Hb as [->|(before' & ->)%last_Some].
  - rewrite (Hs : split_on x0a ([] ++ _) = _). set_solver.
  - rewrite <- app_assoc. cbn [app]. rewrite split_on_app, Hs. set_solver.
Qed.

Lemma lines_elem line s :
  line ∈ split_on x0a s → line ≠ [] → line ∈ lines s ∨ strip_cr line ∈ lines s.
Proof.
  intros Hin Hne. unfold lines. rewrite list_elem_of_In, in_rev, <- list_elem_of_In in Hin.
  destruct (rev (split_on x0a s)) as [|[|b tail] parts]; [by apply elem_of_nil in Hin|..].
  - right. apply list_elem_of_fmap_2. rewrite list_elem_of_In, <- in_rev, <- list_elem_of_In. set_solver.
  - apply elem_of_cons in Hin as [->|Hin]; [left; set_solver|]. right. apply elem_of_app. left.
    apply list_elem_of_fmap_2. by rewrite list_elem_of_In, <- in_rev, <- list_elem_of_In.
Qed.

Lemma split_once_at_Some sep s h t : split_once_at sep s = Some (h, t) → s = h ++ sep ++ t.
Proof.
  revert h. induction s as [|b s IH]; intros h; cbn.
  - destruct (strip_prefix sep []) as [r|] eqn:Hp; [|done]. apply strip_prefix_Some in Hp. by intros [= <- <-].
  - destruct (strip_prefix sep (b :: s)) as [r|] eqn:Hp.
    + apply strip_prefix_Some in Hp. by intros [= <- <-].
    + intros ([h' t'] & Hs & [= -> ->])%fmap_Some. cbn. by rewrite (IH _ Hs).
Qed.

(** A carriage return at the end of the line is not in the key. *)
Lemma assigns_a_secret_strip_cr line : assigns_a_secret line = true → assigns_a_secret (strip_cr line) = true.
Proof.
  unfold strip_cr. destruct (last line) as [b|] eqn:Hb; [|done]. case_bool_decide as Hcr; [|done]. subst b.
  apply last_Some in Hb as (l & ->). rewrite length_app. cbn [length].
  rewrite Nat.add_sub, take_app_length. unfold assigns_a_secret.
  assert (∀ key t, split_once_at b#"=" (l ++ [x0d]) = Some (key, t) → ∃ t', split_once_at b#"=" l = Some (key, t')) as Hl.
  { induction l as [|b l IH]; intros key t Hs; cbn in Hs |- *; [done|].
    change (b#"=") with ["="%byte] in *. cbn [strip_prefix] in *. case_bool_decide as Hb; [injection Hs as <- _; by eexists|].
    apply fmap_Some in Hs as ([key' t'] & Hs & [= -> ->]). apply IH in Hs as (t'' & ->). by eexists. }
  destruct (split_once_at b#"=" (l ++ [x0d])) as [[key t]|] eqn:Hs; [|done].
  by destruct (Hl _ _ eq_refl) as (t' & ->).
Qed.

Lemma lines_secret before line after :
  line_of before line after → assigns_a_secret line = true →
  existsb assigns_a_secret (lines (before ++ line ++ after)) = true.
Proof.
  intros Hl Ha. apply existsb_exists. destruct (lines_elem line (before ++ line ++ after)) as [H1|H1].
  - by apply split_on_elem.
  - by intros ->.
  - exists line. by rewrite <- list_elem_of_In.
  - exists (strip_cr line). rewrite <- list_elem_of_In. auto using assigns_a_secret_strip_cr.
Qed.

Lemma line_newline before line after i :
  without [x0a] line → (before ++ line ++ after) !! i = Some x0a → i < length before ∨ length before + length line ≤ i.
Proof.
  intros Hl Hi. destruct (decide (i < length before)); [by left|]. right.
  rewrite lookup_app_r in Hi by lia. destruct (decide (i - length before < length line)); [|lia].
  rewrite lookup_app_l in Hi by lia. unfold without in Hl. rewrite Forall_lookup in Hl. apply Hl in Hi. set_solver.
Qed.

(** The lines a span touches are looked at whole. *)
Lemma touched_line_is_seen before line after start end_ :
  line_of before line after → start ≤ length before + length line → length before ≤ end_ →
  assigns_a_secret line = true → spans_a_secret_line (before ++ line ++ after) start end_ = true.
Proof.
  intros (Hb & Hl & Ha) Hs He Hsec. unfold spans_a_secret_line. set (raw := before ++ line ++ after).
  set (from := match rfind_byte _ _ with Some i => i + 1 | None => 0 end).
  set (to := match find_byte _ _ with Some i => _ | None => _ end).
  assert (from ≤ length before) as Hfrom.
  { unfold from. destruct (rfind_byte newline _) as [i|] eqn:Hi; [|lia].
    apply rfind_byte_Some in Hi as (b & Hi & Hn%bool_decide_eq_true). subst b.
    apply lookup_take_Some in Hi as [Hi Hlt]. apply line_newline in Hi; [lia|done]. }
  assert (length before + length line ≤ to ∧ to ≤ length raw) as [Hto Hlen].
  { unfold to, find_byte. destruct (position newline _) as [i|] eqn:Hi.
    - apply position_Some in Hi as (b & Hi & Hn%bool_decide_eq_true & _). subst b.
      rewrite lookup_drop in Hi. pose proof (lookup_lt_Some _ _ _ Hi). apply line_newline in Hi; [|done].
      unfold raw in *. rewrite !length_app in *. lia.
    - unfold raw. rewrite !length_app. lia. }
  replace (take (to - from) (drop from raw))
    with (drop from before ++ line ++ take (to - (length before + length line)) after).
  2:{ unfold raw. rewrite drop_app_le, take_app_ge, take_app_ge by (rewrite ?length_drop; lia).
      rewrite length_drop. do 3 f_equal. lia. }
  apply lines_secret; [|done]. split_and!; [|done|].
  - destruct (decide (from = length before)) as [->|]; [left; by rewrite drop_all|]. right.
    destruct Hb as [->|(l & ->)%last_Some]; [cbn in *; lia|]. rewrite length_app in *. cbn [length] in *.
    by rewrite drop_app_le, last_snoc by lia.
  - destruct after as [|b after]; [by rewrite take_nil|]. by destruct (to - _).
Qed.

(** An error that touches a line which sets a credential is reported by its place
    alone: two errors of the parser there read the same, whatever they quote. *)
Theorem secret_line_is_not_quoted before line after start end_ m m' :
  line_of before line after → start ≤ length before + length line → length before ≤ end_ →
  assigns_a_secret line = true →
  describe_parse_error {| te_message := m; te_span := Some (start, end_) |} (before ++ line ++ after)
  = describe_parse_error {| te_message := m'; te_span := Some (start, end_) |} (before ++ line ++ after).
Proof.
  intros. unfold describe_parse_error. cbn [te_span te_message]. by rewrite touched_line_is_seen.
Qed.

(** ** Validation *)

Section validation.
Context (files : Files) (display_core : Core.Error → bytes).

(** Readable by its owner alone, or of a mode that cannot be told. *)
Definition private (path : bytes) : Prop :=
  match file_mode files path with Some mode => Z.land mode 63 = 0%Z | None => True end.

Lemma check_secret_file_mode_Ok path : check_secret_file_mode path (file_mode files path) = Ok tt ↔ private path.
Proof.
  unfold check_secret_file_mode, private. destruct (file_mode files path) as [mode|]; [|done].
  case_bool_decide as Hm; [by split|]. split; [intros _|done]. lia.
Qed.

Lemma config_secret_file_mode_Ok path : config_secret_file_mode files display_core path = Ok tt ↔ private path.
Proof. unfold config_secret_file_mode. by rewrite map_err_Ok, check_secret_file_mode_Ok. Qed.

(** The token of a vault section, and where it is from. *)
Definition token_from (v : VaultConfig) (token : bytes) : Prop :=
  (vc_token v = Some token ∧ vc_token_file v = None) ∨
  (vc_token v = None ∧ ∃ path raw, vc_token_file v = Some path ∧ private path ∧
     file_text files path = Some raw ∧ token = trim raw).

Lemma resolve_token_Ok v token : resolve_token files display_core v = Ok token ↔ token_from v token.
Proof.
  unfold resolve_token, token_from. destruct (vc_token v) as [t|], (vc_token_file v) as [path|]; try naive_solver.
  pose proof (check_secret_file_mode_Ok path) as Hm.
  destruct (check_secret_file_mode path (file_mode files path)) as [[]|e].
  - destruct (file_text files path) as [raw|] eqn:Hr; [|naive_solver]. split.
    + intros [= <-]. right. split; [done|]. exists path, raw. naive_solver.
    + intros [[? _]|(_ & p & r & [= <-] & _ & Hr' & ->)]; [done|]. congruence.
  - split; [done|]. intros [[? _]|(_ & p & r & [= <-] & Hp & _)]; [done|]. by apply Hm in Hp.
Qed.

Context (url_scheme : bytes → result bytes bytes) (debug : bytes → bytes).

Definition vault_ok (v : VaultConfig) (setup : VaultSetup) : Prop :=
  vs_config setup = v ∧ vc_timeout_secs v ≠ 0 ∧ token_from v (vs_token setup) ∧
  (url_scheme (vc_addr v) = Ok b#"https"
   ∨ url_scheme (vc_addr v) = Ok b#"http" ∧ vc_allow_insecure_addr v = true).

Lemma validate_addr_Ok v :
  validate_addr url_scheme debug v = Ok tt ↔
  url_scheme (vc_addr v) = Ok b#"https" ∨ url_scheme (vc_addr v) = Ok b#"http" ∧ vc_allow_insecure_addr v = true.
Proof.
  unfold validate_addr. destruct (url_scheme (vc_addr v)) as [scheme|e]; [|naive_solver].
  case_bool_decide as H1; [naive_solver|]. case_bool_decide as H2; [|naive_solver].
  destruct (vc_allow_insecure_addr v); naive_solver.
Qed.

Lemma vault_resolve_Ok v setup :
  vault_resolve files url_scheme debug display_core v = Ok setup ↔ vault_ok v setup.
Proof.
  unfold vault_resolve, vault_ok. pose proof (validate_addr_Ok v) as Ha. pose proof (resolve_token_Ok v) as Ht.
  case_bool_decide; [naive_solver|].
  destruct (validate_addr url_scheme debug v) as [[]|e]; cbn; [|naive_solver].
  destruct (resolve_token files display_core v) as [token|e]; cbn.
  - split; [intros [= <-]; naive_solver|]. destruct setup as [c t]. cbn.
    intros (-> & _ & Hf%Ht & _). injection Hf as ->. done.
  - split; [done|]. intros (_ & _ & Hf%Ht & _). done.
Qed.

Context (parse_dsn : bytes → option DsnConfig) (policy_text : PolicyProblem → bytes).

Lemma not_downgradeable dsn :
  check_control_dsn_is_not_downgradeable parse_dsn dsn = Ok tt ↔
  ∃ c, parse_dsn dsn = Some c ∧ dc_ssl_mode c = SslOther.
Proof.
  unfold check_control_dsn_is_not_downgradeable. destruct (parse_dsn dsn) as [c|].
  - destruct (dc_ssl_mode c) eqn:Hc; (split; [discriminate || by exists c|]);
      intros (c' & [= <-] & Hc'); done || by rewrite Hc in Hc'.
  - split; [discriminate|]. by intros (? & ? & _).
Qed.

(** One key source, and only one. *)
Definition key_source (self : Config) (keys : KeySourceConfig) : Prop :=
  match keys with
  | KeyFileSource path => cf_keys_file self = Some path ∧ cf_vault self = None ∧ private path
  | VaultSource setup => cf_keys_file self = None ∧ ∃ v, cf_vault self = Some v ∧ vault_ok v setup
  end.

Definition protected_ok (self : Config) (p : ProtectedConfig) : Prop :=
  key_source self (pcf_keys p) ∧ cf_control_dsn self = Some (pcf_control_dsn p) ∧
  (is_Some (tls_upstream (cf_tls self)) →
   ∃ c, parse_dsn (pcf_control_dsn p) = Some c ∧ dc_ssl_mode c = SslOther).

Definition config_ok (self : Config) (protected : option ProtectedConfig) : Prop :=
  cf_startup_timeout_secs self ≠ 0 ∧ cf_max_sessions self ≠ 0 ∧
  (cf_max_protected_value_bytes self ≠ 0 ∧ cf_max_protected_value_bytes self ≤ MAX_MESSAGE_LEN)%Z ∧
  match tls_downstream (cf_tls self) with Some d => private (dt_key d) | None => True end ∧
  match cf_vault self with Some v => ∃ setup, vault_ok v setup | None => True end ∧
  validate (config_policy self) = Ok tt ∧
  match protected with
  | None => cf_columns self = []
  | Some p => cf_columns self ≠ [] ∧ protected_ok self p
  end.

Lemma bind_Ok {E A B} (r : result E A) (f : A → result E B) b :
  (r ≫= f) = Ok b ↔ ∃ a, r = Ok a ∧ f a = Ok b.
Proof using Type. split; [apply bind_Ok_inv|]. by intros (a & -> & ?). Qed.

Lemma check_Ok {E B} (r : result E ()) (k : result E B) b : (r ≫= λ _, k) = Ok b ↔ r = Ok tt ∧ k = Ok b.
Proof using Type. rewrite bind_Ok. split; [by intros ([] & ? & ?)|]. intros [? ?]. by exists tt. Qed.

Lemma guard_Ok (c : bool) reason : (if c then invalid reason else Ok tt) = Ok tt ↔ c = false.
Proof using Type. by destruct c. Qed.

(** A configuration that names only an address and a token. *)
Definition vault_at (addr token : bytes) : VaultConfig := {|
  vc_addr := addr; vc_allow_insecure_addr := vc_allow_insecure_addr vault_config_default;
  vc_token := Some token; vc_token_file := vc_token_file vault_config_default;
  vc_timeout_secs := vc_timeout_secs vault_config_default; vc_mount := vc_mount vault_config_default;
  vc_path := vc_path vault_config_default; vc_transit_mount := vc_transit_mount vault_config_default;
  vc_transit_key := vc_transit_key vault_config_default |}.

(** The defaults are usable as documented: with them an address is accepted exactly when it
    is over TLS. A token file passes exactly when no one else can read it. *)
Lemma defaults_resolve addr token path :
  ((∃ setup, vault_resolve files url_scheme debug display_core (vault_at addr token) = Ok setup) ↔
    url_scheme addr = Ok b#"https") ∧
  (check_token_file files display_core path = Ok tt ↔ private path).
Proof using Type.
  split.
  - setoid_rewrite vault_resolve_Ok. unfold vault_ok. cbn. split.
    + by intros (setup & _ & _ & _ & [?|[_ ?]]).
    + intros Ha. exists {| vs_config := vault_at addr token; vs_token := token |}. split_and!; [done..|by left|by left].
  - unfold check_token_file. rewrite map_err_Ok. apply check_secret_file_mode_Ok.
Qed.

Lemma vault_section_Ok self vault :
  vault_section files url_scheme debug display_core self = Ok vault ↔
  match cf_vault self, vault with
  | None, None => True
  | Some v, Some setup => vault_ok v setup
  | _, _ => False
  end.
Proof using Type.
  unfold vault_section. destruct (cf_vault self) as [v|]; [|by destruct vault].
  destruct vault as [setup|]; [rewrite <- vault_resolve_Ok|];
    destruct (vault_resolve files url_scheme debug display_core v); cbn; naive_solver.
Qed.

Lemma vault_ok_unique v s1 s2 : vault_ok v s1 → vault_ok v s2 → s1 = s2.
Proof using debug display_core.
  intros H1 H2. rewrite <- vault_resolve_Ok in H1, H2. rewrite H1 in H2. by injection H2.
Qed.

Lemma protected_section_Ok self vault protected :
  vault_section files url_scheme debug display_core self = Ok vault →
  protected_section files parse_dsn display_core self vault = Ok protected ↔
  match protected with
  | None => cf_columns self = []
  | Some p => cf_columns self ≠ [] ∧ protected_ok self p
  end.
Proof.
  rewrite vault_section_Ok. intros Hv. unfold protected_section.
  case_bool_decide as Hc; [destruct protected; naive_solver|].
  rewrite bind_Ok. setoid_rewrite bind_Ok. setoid_rewrite check_Ok. setoid_rewrite ok_or_Ok.
  assert (∀ keys, match cf_keys_file self, vault with
      | Some keys_file, None => config_secret_file_mode files display_core keys_file ≫= λ _, Ok (KeyFileSource keys_file)
      | None, Some setup => Ok (VaultSource setup)
      | None, None => invalid b#"[[column]] entries require keys_file or [vault]"
      | Some _, Some _ => invalid b#"keys_file and [vault] are mutually exclusive"
      end = Ok keys ↔ key_source self keys) as Hkeys.
  { intros keys. unfold key_source. destruct (cf_keys_file self) as [path|], vault as [setup|], (cf_vault self) as [v|];
      try done; rewrite ?check_Ok, ?config_secret_file_mode_Ok; destruct keys as [path'|setup']; unfold invalid;
      try naive_solver.
    split; [intros [= <-]; naive_solver|]. intros [_ (v' & [= <-] & Hv')].
    by rewrite (vault_ok_unique _ _ _ Hv Hv'). }
  setoid_rewrite Hkeys.
  assert (∀ dsn, (if bool_decide (is_Some (tls_upstream (cf_tls self)))
      then check_control_dsn_is_not_downgradeable parse_dsn dsn else Ok tt) = Ok tt ↔
    (is_Some (tls_upstream (cf_tls self)) → ∃ c, parse_dsn dsn = Some c ∧ dc_ssl_mode c = SslOther)) as Hd.
  { intros dsn. case_bool_decide; rewrite ?not_downgradeable; naive_solver. }
  setoid_rewrite Hd. unfold protected_ok. destruct protected as [[keys dsn]|]; cbn; naive_solver.
Qed.

Lemma validate_config_Ok self protected :
  validate_config files parse_dsn url_scheme debug display_core policy_text self = Ok protected ↔
  config_ok self protected.
Proof.
  unfold validate_config, config_ok.
  rewrite !check_Ok, !guard_Ok, bind_Ok, !bool_decide_eq_false, orb_false_iff, bool_decide_eq_false, Z.ltb_ge.
  assert (match tls_downstream (cf_tls self) with
    | Some d => config_secret_file_mode files display_core (dt_key d) | None => Ok tt end = Ok tt ↔
    match tls_downstream (cf_tls self) with Some d => private (dt_key d) | None => True end) as Hkey.
  { destruct (tls_downstream (cf_tls self)); [apply config_secret_file_mode_Ok|done]. }
  rewrite Hkey. generalize (validate (config_policy self)) as policy. intros policy. setoid_rewrite bind_Ok. setoid_rewrite check_Ok. setoid_rewrite map_err_Ok.
  split.
  - intros (? & ? & ? & ? & vault & Hv & p & Hp & Hval & [= <-]). rewrite (protected_section_Ok _ _ _ Hv) in Hp.
    apply vault_section_Ok in Hv. split_and!; try naive_solver.
    destruct (cf_vault self), vault; naive_solver.
  - intros (? & ? & ? & ? & Hv & Hval & Hp). split_and!; try naive_solver.
    assert (∃ vault, vault_section files url_scheme debug display_core self = Ok vault) as (vault & Hvs).
    { setoid_rewrite vault_section_Ok. destruct (cf_vault self); [|by exists None].
      destruct Hv as (setup & Hv). by exists (Some setup). }
    exists vault. split; [done|]. exists protected. by rewrite (protected_section_Ok _ _ _ Hvs).
Qed.

(** C32: validation accepts a configuration exactly when its timeouts and limits are
    usable, the private key of the client-facing TLS is private, its vault section
    resolves over TLS (or an explicitly insecure http) with one source for its token, and
    its policy is valid; it yields no protected section exactly when no column is declared,
    and else one with exactly one key source, a private key file, and a control connection
    that cannot be downgraded once upstream TLS is asked for. *)
Theorem validate_config_spec self protected :
  validate_config files parse_dsn url_scheme debug display_core policy_text self = Ok protected ↔
  config_ok self protected.
Proof. apply validate_config_Ok. Qed.

Lemma validated_Ok self v :
  validated files parse_dsn url_scheme debug display_core policy_text self = Ok v ↔
  vcf_config v = self ∧ config_ok self (vcf_protected v).
Proof.
  unfold validated. rewrite bind_Ok. setoid_rewrite validate_config_Ok. destruct v as [c p]. cbn. naive_solver.
Qed.

Lemma config_load_Ok toml path v :
  config_load files parse_dsn url_scheme debug display_core policy_text toml path = Ok v →
  (∃ raw, file_text files path = Some raw ∧ toml raw = Ok (vcf_config v)) ∧
  config_ok (vcf_config v) (vcf_protected v) ∧
  (is_Some (inline_secret parse_dsn (vcf_config v)) → private path).
Proof.
  unfold config_load. destruct (file_text files path) as [raw|]; [|done].
  destruct (toml raw) as [config|e] eqn:Ht; [|done]. rewrite check_Ok, validated_Ok. intros (Hm & -> & Hv).
  split_and!; [by exists raw|done|]. intros [what Hi]. rewrite Hi in Hm. by apply config_secret_file_mode_Ok in Hm.
Qed.

(** A configuration is loaded only from a file its credentials are safe in: one with
    an inline vault token, or a control connection string with a password (or that cannot
    be read), must be private to its owner; and what is loaded is what was validated. *)
Theorem load_keeps_credentials_private toml path v :
  config_load files parse_dsn url_scheme debug display_core policy_text toml path = Ok v →
  (∃ raw, file_text files path = Some raw ∧ toml raw = Ok (vcf_config v)) ∧
  config_ok (vcf_config v) (vcf_protected v) ∧
  ((∃ s, cf_vault (vcf_config v) = Some s ∧ is_Some (vc_token s)) ∨
   (∃ dsn, cf_control_dsn (vcf_config v) = Some dsn ∧
      ∀ c, parse_dsn dsn = Some c → dc_password c = true) → private path).
Proof.
  intros (Hr & Hc & Hp)%config_load_Ok. split_and!; [done..|]. intros Hs. apply Hp.
  unfold inline_secret. destruct Hs as [(s & Hs & Ht')|(dsn & Hdsn & Hd)].
  - rewrite Hs, bool_decide_true by done. by eexists.
  - rewrite Hdsn. destruct (match cf_vault (vcf_config v) with Some _ => _ | None => _ end); [by eexists|].
    unfold carries_password. destruct (parse_dsn dsn) as [c|]; [rewrite (Hd c eq_refl)|]; by eexists.
Qed.

End validation.

(** ** Examples *)

Module ConfigExample.

Definition params : list (bytes * Written) :=
  [(b#"host", Bare b#"db"); (b#"PassWord", Quoted b#"it's a secret"); (b#"user", Bare b#"app")].

Lemma params_ok : Forall parameter_ok params.
Proof. repeat constructor; try done; cbn; set_solver. Qed.

Lemma keyword_dsn_is_masked_witness :
  keywords " "%byte (written ∘ snd) params = b#"host=db PassWord='it\'s a secret' user=app" ∧
  redact_dsn (keywords " "%byte (written ∘ snd) params) = b#"host=db PassWord=<redacted> user=app".
Proof.
  split; [vm_compute; reflexivity|]. rewrite (keyword_dsn_is_masked params params_ok); vm_compute; reflexivity.
Defined.

Definition url : Url := {|
  u_scheme := b#"postgres"; u_user := b#"app"; u_password := b#"p@ss:w=rd"; u_host := b#"db:5432";
  u_path := b#"/clinic"; u_params := [(b#"sslmode", Bare b#"require"); (b#"password", Bare b#"other")] |}.

Lemma url_dsn_is_masked_witness :
  url_text (u_password url) (written ∘ snd) url
    = b#"postgres://app:p@ss:w=rd@db:5432/clinic?sslmode=require&password=other" ∧
  redact_dsn (url_text (u_password url) (written ∘ snd) url)
    = b#"postgres://app:<redacted>@db:5432/clinic?sslmode=require&password=<redacted>".
Proof.
  split; [vm_compute; reflexivity|]. rewrite (url_dsn_is_masked url); [vm_compute; reflexivity|].
  split; cbn; repeat constructor; try done; set_solver.
Defined.

(** An unterminated string is quoted by the parser; the line names a token. *)
Definition raw : bytes := b#"listen = 1
" ++ b#"vault_token = hvs.abc".

Lemma secret_line_is_not_quoted_witness :
  describe_parse_error {| te_message := b#"invalid string hvs.abc"; te_span := Some (25, 32) |} raw
  = describe_parse_error {| te_message := []; te_span := Some (25, 32) |} raw.
Proof.
  apply (secret_line_is_not_quoted b#"listen = 1
" b#"vault_token = hvs.abc" [] 25 32); [|vm_compute; lia..|vm_compute; reflexivity].
  split; [by right|]. split; [repeat constructor; set_solver|done].
Defined.

(** A configuration with a vault token in it, in a file of mode [0600]. *)
Definition example_files : Files := {| file_mode := λ _, Some 384%Z; file_text := λ _, Some raw |}.

Definition example_config : Config := {|
  cf_listen := b#"127.0.0.1:6432"; cf_upstream := b#"db:5432"; cf_keys_file := None;
  cf_vault := Some {| vc_addr := b#"https://vault"; vc_allow_insecure_addr := false;
    vc_token := Some b#"hvs.abc"; vc_token_file := None; vc_timeout_secs := 5;
    vc_mount := b#"secret"; vc_path := b#"dbsec"; vc_transit_mount := b#"transit"; vc_transit_key := b#"dbsec" |};
  cf_control_dsn := Some b#"host=db sslmode=require"; cf_startup_timeout_secs := 30; cf_max_sessions := 256;
  cf_column_refresh_secs := 300; cf_max_protected_value_bytes := 1024;
  cf_tls := {| tls_downstream := None; tls_upstream := Some {| ut_ca := b#"ca.pem"; ut_hostname := None |} |};
  cf_on_unprotected := Reject; cf_columns := [column_new b#"users" b#"ssn"]; cf_tables := [] |}.

Definition load : result Proxy.Error ValidatedConfig :=
  config_load example_files (λ _, Some {| dc_password := false; dc_ssl_mode := SslOther |})
    (λ _, Ok b#"https") (λ s, s) (λ _, []) (λ _, []) (λ _, Ok example_config) b#"dbsec.toml".

Lemma load_keeps_credentials_private_witness : is_ok load = true ∧ private example_files b#"dbsec.toml".
Proof.
  split; [vm_compute; reflexivity|].
  destruct load as [v|] eqn:Hv; [|by vm_compute in Hv].
  pose proof (load_keeps_credentials_private _ _ _ _ _ _ _ _ _ Hv) as ((raw' & _ & [= Hc]) & _ & Hp).
  apply Hp. left. rewrite <- Hc. by eexists.
Defined.

(** ** What redaction misses *)

(** Spaces around the equals sign, which the keyword form allows. *)
Lemma spaced_password_is_printed :
  redact_dsn b#"host=db password = hunter2" = b#"host=db password = hunter2".
Proof. vm_compute. reflexivity. Qed.

(** Parameters on lines of their own. *)
Lemma password_on_its_own_line_is_printed :
  redact_dsn b#"host=db
password=hunter2" = b#"host=db
password=hunter2".
Proof. vm_compute. reflexivity. Qed.

(** A password that looks like a URL's scheme. *)
Lemma password_with_a_scheme_is_printed :
  redact_dsn b#"host=db password=a://b" = b#"host=db password=a://b".
Proof. vm_compute. reflexivity. Qed.

End ConfigExample.
