(* ===== verification/Process.v ===== *)
(** * The process around the proxy ([crates/core/src/diag.rs], [crates/core/src/sync.rs],
    [crates/proxy/src/hardening.rs])

    How an error and its causes are printed, what a poisoned lock answers, and the
    hardening applied before any key is read. An error is anything that has a text and
    perhaps a source: the chain may be of any length, and may be a cycle. *)

From S2P Require Import Prelude Utf8 Pgwire Errors Envelope RowKeys Fields Transform Policy Keys.
From S2P Require Import Settings Portal Rows Config ConfigSpec.

(** ** Rendering an error *)

Definition MAX_CAUSES : nat := 8.

(** The character U+2026, as its UTF-8 bytes. *)
Definition ELLIPSIS : bytes := [xe2; x80; xa6].

Section diag.
(** [dyn Error]: its [Display] and its [source]. *)
Context {E : Type} (to_string : E → bytes) (source : E → option E).

(** The loop over the causes, what it writes. *)
Fixpoint causes_fmt (n : nat) (above : bytes) (cause : option E) : bytes :=
  match n with
  | O => match cause with Some _ => b#": " ++ ELLIPSIS | None => [] end
  | S n =>
      match cause with
      | None => []
      | Some error =>
          let rendered := to_string error in
          (if contains above rendered then [] else b#": " ++ rendered)
            ++ causes_fmt n rendered (source error)
      end
  end.

Definition chain_fmt (error : E) : bytes :=
  to_string error ++ causes_fmt MAX_CAUSES (to_string error) (source error).

End diag.

(** ** Locks *)

(** [Result<G, PoisonError<G>>]: the error holds the guard. *)
Definition unpoisoned {G} (self : result G G) : G := match self with Ok guard => guard | Err guard => guard end.

(** ** Core dumps *)

(** [rustix::process], on Linux: what the process was told, and the two calls. *)
Record Rlimit := { rl_current : option Z; rl_maximum : option Z }.

Class Rustix := {
  Kernel : Type;
  core_limit : Kernel → Rlimit;
  dumpable : Kernel → bool;
  setrlimit_core : Rlimit → Kernel → result () () * Kernel;
  set_not_dumpable : Kernel → result () () * Kernel;
}.

(** A call that succeeds has done what it is documented to do, and only that; one that
    fails has done nothing. *)
Class RustixLaws `{Rustix} := {
  setrlimit_ok l k k' : setrlimit_core l k = (Ok tt, k') → core_limit k' = l ∧ dumpable k' = dumpable k;
  setrlimit_err l k e k' : setrlimit_core l k = (Err e, k') → k' = k;
  dumpable_ok k k' : set_not_dumpable k = (Ok tt, k') → dumpable k' = false ∧ core_limit k' = core_limit k;
  dumpable_err k e k' : set_not_dumpable k = (Err e, k') → k' = k;
}.

Section hardening.
Context `{Rustix}.

Definition set_undumpable : M Kernel Proxy.Error () :=
  with_err (λ _, Proxy.Hardening b#"clearing the process' dumpable attribute") set_not_dumpable.

Definition disable_core_dumps : M Kernel Proxy.Error () :=
  _ ← with_err (λ _, Proxy.Hardening b#"setting the core dump limit to 0")
        (setrlimit_core {| rl_current := Some 0%Z; rl_maximum := Some 0%Z |});
  set_undumpable.

End hardening.

(** ** What is printed *)

Section rendered.
Context {E : Type} (to_string : E → bytes) (source : E → option E).

(** The [n]th cause below an error. *)
Fixpoint nth_cause (n : nat) (e : E) : option E :=
  match n with O => Some e | S n => source e ≫= nth_cause n end.

Lemma contains_quotes s needle : contains s needle = true → quotes s needle.
Proof.
  intros [[h t] E1%split_once_at_Some]%bool_decide_eq_true. by exists h, t.
Qed.

(** What was printed before and what is to come quote every cause still to come. *)
Lemma causes_quoted n k shown above cause e :
  quotes shown above → (c ← cause; nth_cause k c) = Some e → k < n →
  quotes (shown ++ causes_fmt to_string source n above cause) (to_string e).
Proof.
  revert k shown above cause. induction n as [|n IH]; intros k shown above cause Hq He Hk; [lia|].
  destruct cause as [c|]; [|done]. cbn in He. cbn [causes_fmt]. rewrite app_assoc.
  set (more := if contains above (to_string c) then [] else b#": " ++ to_string c).
  assert (quotes (shown ++ more) (to_string c)) as Hc.
  { unfold more. destruct (contains above (to_string c)) eqn:Ec.
    - apply quotes_app_l. eapply quotes_trans; [exact Hq|by apply contains_quotes].
    - apply quotes_app_r, quotes_app_r, quotes_refl. }
  destruct k as [|k]; [injection He as <-; by apply quotes_app_l|].
  eapply IH; [exact Hc|exact He|lia].
Qed.

Lemma causes_cut n above cause :
  is_Some (c ← cause; nth_cause n c) → (b#": " ++ ELLIPSIS) `suffix_of` causes_fmt to_string source n above cause.
Proof.
  revert above cause. induction n as [|n IH]; intros above [c|] [x Hx]; try done; cbn [causes_fmt].
  apply suffix_app_r, IH. by exists x.
Qed.

(** An error is reported with everything under it. Whatever the chain of sources (it
    may be a cycle), rendering ends, and the text quotes the error and each of the first
    eight causes, printed or already quoted by the text above; a longer chain ends in an
    ellipsis, and an error with no cause is its own text. *)
Theorem causes_are_reported e :
  (∀ n c, n ≤ MAX_CAUSES → nth_cause n e = Some c → quotes (chain_fmt to_string source e) (to_string c)) ∧
  (is_Some (nth_cause (S MAX_CAUSES) e) → (b#": " ++ ELLIPSIS) `suffix_of` chain_fmt to_string source e) ∧
  (source e = None → chain_fmt to_string source e = to_string e).
Proof.
  split_and!.
  - intros [|n] c Hn Hc; [injection Hc as <-; apply quotes_app_l, quotes_refl|].
    apply (causes_quoted MAX_CAUSES n (to_string e) (to_string e) (source e)); [apply quotes_refl|done|lia].
  - intros Hc. by apply suffix_app_r, causes_cut.
  - intros Hn. unfold chain_fmt, MAX_CAUSES. rewrite Hn. by rewrite app_nil_r.
Qed.

End rendered.

(** ** What the kernel was told *)

Section hardened.
Context `{RustixLaws}.

Lemma disable_core_dumps_Ok k k' :
  disable_core_dumps k = (Ok tt, k') →
  core_limit k' = {| rl_current := Some 0%Z; rl_maximum := Some 0%Z |} ∧ dumpable k' = false.
Proof.
  unfold disable_core_dumps, set_undumpable, with_err, mbind, M_bind.
  destruct (setrlimit_core _ k) as [[[]|e] k1] eqn:E1; cbn; [|done].
  destruct (set_not_dumpable k1) as [[[]|e] k2] eqn:E2; cbn; [|done]. intros [= <-].
  apply setrlimit_ok in E1 as [<- _]. apply dumpable_ok in E2 as [-> ->]. done.
Qed.

End hardened.

(** An error whose source is itself, and one that quotes its cause. *)
Module ProcessExample.

Definition endless : bytes := chain_fmt (λ _ : (), b#"again") (λ _, Some tt) tt.

Lemma endless_is_cut : endless = b#"again: " ++ ELLIPSIS.
Proof. reflexivity. Qed.

(** The errors of a failed control connection, numbered from the outside. *)
Definition text (n : nat) : bytes :=
  match n with
  | 0 => b#"control connection to db:5432: error connecting to server"
  | 1 => b#"error connecting to server"
  | _ => b#"connection refused"
  end.
Definition below (n : nat) : option nat := if bool_decide (n < 2) then Some (S n) else None.

Lemma quoted_cause_is_not_repeated :
  chain_fmt text below 0 = b#"control connection to db:5432: error connecting to server: connection refused".
Proof. reflexivity. Qed.

(** A kernel that does as it is told. *)
#[export] Instance obliging : Rustix := {|
  Kernel := Rlimit * bool; core_limit := fst; dumpable := snd;
  setrlimit_core l k := (Ok tt, (l, k.2)); set_not_dumpable k := (Ok tt, (k.1, false)) |}.

#[export] Instance obliging_laws : RustixLaws.
Proof. split; [by intros l k k' [= <-]|done|by intros k k' [= <-]|done]. Qed.

Definition booted : Rlimit * bool := ({| rl_current := None; rl_maximum := None |}, true).

End ProcessExample.
