(* ===== verification/Serve.v ===== *)
(** * The process ([crates/proxy/src/main.rs])

    The command line, what is loaded and wired from it, and the loop that admits
    sessions. The operating system is a parameter: whether the core-dump limit could be
    set, whether the default file exists, and what the listener, the clock and the
    sessions do. *)

From S2P Require Import Prelude Utf8 IntText Crates Pgwire Errors Envelope RowKeys Fields Transform.
From S2P Require Import Policy Keys Portal Rows Catalog Resolve Config Vault Process.

(** ** The command line *)

Definition DEFAULT_CONFIG : bytes := b#"dbsec.toml".
Definition PLAIN_RELAY_FLAG : bytes := b#"--plain-relay".
Definition ALLOW_CORE_DUMPS_FLAG : bytes := b#"--allow-core-dumps".
Definition HELP_FLAGS : list bytes := [b#"-h"; b#"--help"].

Record Args := { ar_config : option bytes; ar_plain_relay : bool; ar_allow_core_dumps : bool; ar_help : bool }.

Definition args_default : Args :=
  {| ar_config := None; ar_plain_relay := false; ar_allow_core_dumps := false; ar_help := false |}.

(** One turn of the loop. *)
Definition parse_arg (parsed : Args) (arg : bytes) : result Proxy.Error Args :=
  let config := ar_config parsed in
  let plain := ar_plain_relay parsed in
  let dumps := ar_allow_core_dumps parsed in
  let path :=
    match config with
    | None => Ok {| ar_config := Some arg; ar_plain_relay := plain; ar_allow_core_dumps := dumps;
                    ar_help := ar_help parsed |}
    | Some _ => Err (Proxy.Usage b#"more than one config path was given")
    end in
  if negb (is_utf8 arg) then path
  else if bool_decide (arg = PLAIN_RELAY_FLAG) then
    Ok {| ar_config := config; ar_plain_relay := true; ar_allow_core_dumps := dumps; ar_help := ar_help parsed |}
  else if bool_decide (arg = ALLOW_CORE_DUMPS_FLAG) then
    Ok {| ar_config := config; ar_plain_relay := plain; ar_allow_core_dumps := true; ar_help := ar_help parsed |}
  else if bool_decide (arg ∈ HELP_FLAGS) then
    Ok {| ar_config := config; ar_plain_relay := plain; ar_allow_core_dumps := dumps; ar_help := true |}
  else if starts_with arg b#"-" then Err (Proxy.Usage (b#"unknown option " ++ arg))
  else path.

Fixpoint parse_args (parsed : Args) (args : list bytes) : result Proxy.Error Args :=
  match args with
  | [] => Ok parsed
  | arg :: args => parsed ← parse_arg parsed arg; parse_args parsed args
  end.

Definition args_parse (args : list bytes) : result Proxy.Error Args := parse_args args_default args.

(** What a command line comes to: help, or a configuration and whether it was warned that
    it protects nothing. *)
Inductive Startup := Help | Serve (config : ValidatedConfig) (warned : bool).

Section start.
Context `{Rustix}.
Context (files : Files) (parse_dsn : bytes → option DsnConfig) (url_scheme : bytes → result bytes bytes).
Context (debug : bytes → bytes) (display_core : Core.Error → bytes) (policy_text : PolicyProblem → bytes).
Context (toml : bytes → result TomlError Config).
Context (exists_ : bytes → bool).

#[local] Abbreviation load := (config_load files parse_dsn url_scheme debug display_core policy_text toml).
#[local] Abbreviation validated_default :=
  (validated files parse_dsn url_scheme debug display_core policy_text config_default).

Definition load_config (args : Args) (default : bytes) : result Proxy.Error (ValidatedConfig * bool) :=
  loaded ← match ar_config args with
           | Some path => load path
           | None =>
               if exists_ default then load default
               else if ar_plain_relay args then validated_default
               else Err (Proxy.NoConfig default)
           end;
  Ok (loaded, negb (bool_decide (is_Some (vcf_protected loaded)))).

Definition start (args : list bytes) : M Kernel Proxy.Error Startup :=
  args ← lift (args_parse args);
  if ar_help args then mret Help
  else
    _ ← (if ar_allow_core_dumps args then mret tt else disable_core_dumps);
    '(config, warned) ← lift (load_config args DEFAULT_CONFIG);
    mret (Serve config warned).

End start.

(** ** Wiring ([serve], up to the listener) *)

Section wiring.
Context `{Lowercase}.
Context (parse_hosts : bytes → option (list Host * list nat)) (lookup_column : nat → bytes → bytes → bytes → Answer).

(** What a session gets: the read path's context and the write path's catalog. [tls] is
    the outcome of building the TLS context, [key_source] of loading or connecting the key
    source, [connected] of the control connection. *)
Definition wire_session (tls key_source connected : result Proxy.Error ()) (v : ValidatedConfig)
    : result Proxy.Error (option (RowContext * WriteCatalog)) :=
  _ ← tls;
  let config := vcf_config v in
  match vcf_protected v with
  | None => Ok None
  | Some protected =>
      _ ← key_source;
      let policy := config_policy config in
      let columns := build policy in
      resolved ← resolve_columns parse_hosts lookup_column (pcf_control_dsn protected) connected
                   columns (row_keys policy);
      Ok (Some (context_new resolved (cf_on_unprotected config)
                  (Z.to_nat (cf_max_protected_value_bytes config)),
                catalog_new columns (cf_on_unprotected config)))
  end.

End wiring.

(** ** Admission *)

Definition MAX_CONSECUTIVE_ACCEPT_ERRORS : nat := 32.
Definition REFUSAL_LOG_INTERVAL : Z := from_secs 5.

(** [io::ErrorKind], as far as it is looked at. *)
Inductive ErrorKind :=
  | InvalidInput | Unsupported | ConnectionAborted | ConnectionReset | ConnectionRefused | Interrupted | OtherKind.

Definition is_fatal_accept_error (e : ErrorKind) : bool :=
  match e with InvalidInput | Unsupported => true | _ => false end.

Definition is_per_connection_accept_error (e : ErrorKind) : bool :=
  match e with ConnectionAborted | ConnectionReset | ConnectionRefused | Interrupted => true | _ => false end.

Record Refusals := { rf_since_last_log : nat; rf_last_log : option Z }.

(** What [Refusals::record] logs, if it does. *)
Definition record_refusal (now : Z) (self : Refusals) : Refusals * option nat :=
  let since := S (rf_since_last_log self) in
  if match rf_last_log self with
     | None => true
     | Some at_ => (REFUSAL_LOG_INTERVAL <=? Z.max 0 (now - at_))%Z
     end
  then ({| rf_since_last_log := 0; rf_last_log := Some now |}, Some since)
  else ({| rf_since_last_log := since; rf_last_log := rf_last_log self |}, None).

(** The loop's state: the permits left, the sessions that hold one, those that ended and
    are not reaped, and the failures in a row. *)
Record Admission := {
  ad_permits : nat;
  ad_live : nat;
  ad_ended : nat;
  ad_refusals : Refusals;
  ad_errors : nat;
}.

Definition admission_new (max_sessions : nat) : Admission := {|
  ad_permits := max_sessions; ad_live := 0; ad_ended := 0;
  ad_refusals := {| rf_since_last_log := 0; rf_last_log := None |}; ad_errors := 0 |}.

Inductive Event :=
  | Accepted (now : Z)
  | AcceptFailed (e : ErrorKind)
  | Joined.

Inductive Effect := Spawned | Refused_ (logged : option nat) | Retry (backoff : bool) | Reaped | Stopped (e : ErrorKind).

(** One turn of [accept_loop]. *)
Definition on_accept (event : Event) (s : Admission) : Effect * Admission :=
  match event with
  | Joined =>
      (Reaped, {| ad_permits := ad_permits s; ad_live := ad_live s; ad_ended := pred (ad_ended s);
                  ad_refusals := ad_refusals s; ad_errors := ad_errors s |})
  | AcceptFailed e =>
      if is_fatal_accept_error e then (Stopped e, s)
      else
        let errors := S (ad_errors s) in
        let s := {| ad_permits := ad_permits s; ad_live := ad_live s; ad_ended := ad_ended s;
                    ad_refusals := ad_refusals s; ad_errors := errors |} in
        if bool_decide (MAX_CONSECUTIVE_ACCEPT_ERRORS ≤ errors) then (Stopped e, s)
        else (Retry (negb (is_per_connection_accept_error e)), s)
  | Accepted now =>
      match ad_permits s with
      | O =>
          let '(refusals, logged) := record_refusal now (ad_refusals s) in
          (Refused_ logged, {| ad_permits := 0; ad_live := ad_live s; ad_ended := ad_ended s;
                               ad_refusals := refusals; ad_errors := 0 |})
      | S permits =>
          (Spawned, {| ad_permits := permits; ad_live := S (ad_live s); ad_ended := ad_ended s;
                        ad_refusals := ad_refusals s; ad_errors := 0 |})
      end
  end.

(** A session that ends gives its permit back, and is there to be joined. *)
Definition session_ended (s : Admission) : Admission := {|
  ad_permits := S (ad_permits s); ad_live := pred (ad_live s); ad_ended := S (ad_ended s);
  ad_refusals := ad_refusals s; ad_errors := ad_errors s |}.

Inductive admission_step : Admission → option Effect → Admission → Prop :=
  | turn_step s event effect s' :
      (event = Joined → ad_ended s ≠ 0) → on_accept event s = (effect, s') →
      admission_step s (Some effect) s'
  | end_step s : ad_live s ≠ 0 → admission_step s None (session_ended s).

(** [drain_sessions]: of the sessions left, those that end in time and those aborted. *)
Definition drain_sessions (sessions in_time : nat) : nat * nat := (min in_time sessions, sessions - in_time).

Definition is_key_backend_failure (e : Proxy.Error) : bool :=
  match e with Proxy.Wire (Core.KeyBackend _) | Proxy.Wire (Core.KeySource _) => true | _ => false end.

(** [log_session_error]: the level, and the text of the [error] field. *)
Inductive Level := ERROR | WARN.

Definition log_session_error {E} (to_string : E → bytes) (source : E → option E) (of_error : Proxy.Error → E)
    (e : Proxy.Error) : Level * bytes :=
  (if is_key_backend_failure e then ERROR else WARN, chain_fmt to_string source (of_error e)).
