(* ===== verification/ServeSpec.v ===== *)
(** * What the process promises

    It does not start unprotected unless told to, wires the two paths from one
    configuration, and never holds more sessions than it was given permits for. *)

From S2P Require Import Prelude Utf8 IntText Crates Pgwire Errors Envelope RowKeys Fields Transform.
From S2P Require Import Policy Keys Portal Rows RowsSpec Catalog CatalogSpec Resolve ResolveSpec.
From S2P Require Import Config ConfigSpec Vault Process Serve.

(** ** Starting *)

(** What one argument sets. *)
Lemma parse_arg_Ok parsed arg p :
  parse_arg parsed arg = Ok p →
  ar_plain_relay p = ar_plain_relay parsed || bool_decide (arg = PLAIN_RELAY_FLAG) ∧
  ar_allow_core_dumps p = ar_allow_core_dumps parsed || bool_decide (arg = ALLOW_CORE_DUMPS_FLAG) ∧
  ar_help p = ar_help parsed || bool_decide (arg ∈ HELP_FLAGS) ∧
  (is_utf8 arg = true → starts_with arg b#"-" = true → ar_config p = ar_config parsed).
Proof.
  unfold parse_arg. set (path := match ar_config parsed with None => _ | Some _ => _ end).
  assert (path = Ok p → ar_plain_relay p = ar_plain_relay parsed ∧ ar_allow_core_dumps p = ar_allow_core_dumps parsed
    ∧ ar_help p = ar_help parsed) as Hpath.
  { unfold path. destruct (ar_config parsed); [done|]. by intros [= <-]. }
  destruct (is_utf8 arg) eqn:Hu; cbn [negb].
  2:{ intros (-> & -> & ->)%Hpath. rewrite !bool_decide_false, !orb_false_r; [done|..].
      - unfold HELP_FLAGS. rewrite !elem_of_cons, elem_of_nil. intros [->|[->|[]]]; by vm_compute in Hu.
      - intros ->. by vm_compute in Hu.
      - intros ->. by vm_compute in Hu. }
  case_bool_decide as H1.
  { intros [= <-]. subst arg. cbn. by rewrite !orb_true_r, !orb_false_r. }
  case_bool_decide as H2.
  { intros [= <-]. subst arg. cbn. by rewrite !orb_true_r, !orb_false_r. }
  case_bool_decide as H3.
  { intros [= <-]. cbn. by rewrite !orb_true_r, !orb_false_r. }
  destruct (starts_with arg b#"-"); [done|]. intros (-> & -> & ->)%Hpath. by rewrite !orb_false_r.
Qed.

Lemma parse_args_Ok args parsed a :
  parse_args parsed args = Ok a →
  (ar_plain_relay a = true ↔ ar_plain_relay parsed = true ∨ PLAIN_RELAY_FLAG ∈ args) ∧
  (ar_allow_core_dumps a = true ↔ ar_allow_core_dumps parsed = true ∨ ALLOW_CORE_DUMPS_FLAG ∈ args) ∧
  (ar_help a = true ↔ ar_help parsed = true ∨ ∃ h, h ∈ HELP_FLAGS ∧ h ∈ args).
Proof.
  revert parsed. induction args as [|arg args IH]; intros parsed; cbn [parse_args].
  { intros [= <-]. set_solver. }
  intros (p & Hp & E)%bind_Ok_inv. apply IH in E as (-> & -> & ->). apply parse_arg_Ok in Hp as (-> & -> & -> & _).
  rewrite !orb_true_iff, !bool_decide_eq_true, !elem_of_cons. split_and!; [naive_solver..|].
  setoid_rewrite elem_of_cons. split.
  - intros [[?|Hh]|(h & ? & ?)]; [by left|right; exists arg; auto|right; exists h; auto].
  - intros [?|(h & Hh & [->|?])]; [by left; left|by left; right|right; eauto].
Qed.

Section starting.
Context `{RustixLaws}.
Context (files : Files) (parse_dsn : bytes → option DsnConfig) (url_scheme : bytes → result bytes bytes).
Context (debug : bytes → bytes) (display_core : Core.Error → bytes) (policy_text : PolicyProblem → bytes).
Context (toml : bytes → result TomlError Config).
Context (exists_ : bytes → bool).

#[local] Abbreviation start_ :=
  (start files parse_dsn url_scheme debug display_core policy_text toml exists_).

Lemma load_config_Ok a v warned :
  load_config files parse_dsn url_scheme debug display_core policy_text toml exists_ a DEFAULT_CONFIG = Ok (v, warned) →
  config_ok files url_scheme parse_dsn (vcf_config v) (vcf_protected v) ∧
  ((∃ path raw, file_text files path = Some raw ∧ toml raw = Ok (vcf_config v)) ∨
   vcf_config v = config_default ∧ exists_ DEFAULT_CONFIG = false ∧ ar_plain_relay a = true) ∧
  (warned = true ↔ cf_columns (vcf_config v) = []).
Proof using Type.
  unfold load_config. intros (loaded & Hl & [= -> <-])%bind_Ok_inv.
  assert (config_ok files url_scheme parse_dsn (vcf_config v) (vcf_protected v) ∧
    ((∃ path raw, file_text files path = Some raw ∧ toml raw = Ok (vcf_config v)) ∨
     vcf_config v = config_default ∧ exists_ DEFAULT_CONFIG = false ∧ ar_plain_relay a = true)) as [Hok Hfrom].
  { destruct (ar_config a) as [path|]; [apply config_load_Ok in Hl as (? & ? & _); eauto|].
    destruct (exists_ DEFAULT_CONFIG); [apply config_load_Ok in Hl as (? & ? & _); eauto|].
    destruct (ar_plain_relay a); [|done]. apply validated_Ok in Hl as (E & Hok). split; [by rewrite E|auto]. }
  split_and!; [done..|]. destruct Hok as (_ & _ & _ & _ & _ & _ & Hp). destruct (vcf_protected v); cbn; naive_solver.
Qed.

(** C33: a run that serves has kept its memory out of core dumps unless the command line
    says otherwise; serves a configuration that was loaded from a file, or the built-in one
    only where the default file is absent and the plain relay was asked for; and protects nothing exactly when no column is configured, which it then says. *)
Theorem startup_is_never_silently_unprotected args k v warned k' :
  start_ args k = (Ok (Serve v warned), k') →
  (if bool_decide (ALLOW_CORE_DUMPS_FLAG ∈ args) then k' = k
   else core_limit k' = {| rl_current := Some 0%Z; rl_maximum := Some 0%Z |} ∧ dumpable k' = false) ∧
  config_ok files url_scheme parse_dsn (vcf_config v) (vcf_protected v) ∧
  ((∃ path raw, file_text files path = Some raw ∧ toml raw = Ok (vcf_config v)) ∨
   vcf_config v = config_default ∧ exists_ DEFAULT_CONFIG = false ∧ PLAIN_RELAY_FLAG ∈ args) ∧
  (warned = true ↔ cf_columns (vcf_config v) = []).
Proof.
  unfold start. intros (a & k0 & [= Ha <-] & E)%M_bind_Ok. apply parse_args_Ok in Ha as (H1 & H2 & _).
  destruct (ar_help a); [done|]. apply M_bind_Ok in E as ([] & k1 & Hd & E).
  apply M_bind_Ok in E as ([v' w'] & k2 & [= Hl <-] & [= -> -> <-]).
  apply load_config_Ok in Hl as (Hok & Hfrom & Hw). cbn in H1, H2. split_and!; [|done| |done].
  - destruct (ar_allow_core_dumps a).
    + rewrite bool_decide_true by (by destruct H2 as [[?|?] _]). by injection Hd as <-.
    + case_bool_decide as Hf; [by destruct H2 as [_ H2]; discriminate H2; right|by eapply disable_core_dumps_Ok].
  - destruct Hfrom as [?|(? & ? & Hr)]; [by left|right]. split_and!; [done..|]. by destruct H1 as [[?|?] _].
Qed.

End starting.

(** ** Two paths, one configuration *)

Section wired.
Context `{Lowercase}.
Context (parse_hosts : bytes → option (list Host * list nat)) (lookup_column : nat → bytes → bytes → bytes → Answer).
Context (catalog : bytes → bytes → bytes → option (Z * Z * Z)).
Context (Hcatalog : ∀ n s t c, lookup_column n s t c = Row (catalog s t c)).
Context (Hattribute : ∀ s t c s' t' c' oid att ty ty', catalog s t c = Some (oid, att, ty) →
  catalog s' t' c' = Some (oid, att, ty') → (s, t, c) = (s', t', c')).
Context (Htable : ∀ s t c s' t' c' oid att att' ty ty', catalog s t c = Some (oid, att, ty) →
  catalog s' t' c' = Some (oid, att', ty') → (s, t) = (s', t')).

Lemma build_distinct p : NoDup (qualified_name <$> p_columns p) → NoDup (pc_name <$> build p).
Proof.
  intros Hn. unfold build. rewrite <- list_fmap_compose.
  erewrite list_fmap_ext; [exact Hn|]. intros i c _. apply pc_name_build.
Qed.

Lemma distinct_names columns : NoDup (pc_name <$> columns) → distinct columns.
Proof.
  intros Hn i j c d Hc Hd [= E1 E2] E3. eapply (NoDup_lookup _ i j _ Hn); rewrite list_lookup_fmap.
  - by rewrite Hc.
  - rewrite Hd. cbn. unfold pc_name. by rewrite E1, E2, E3.
Qed.

Lemma row_keys_distinct p : NoDup (table_name <$> p_tables p) → NoDup (key_table <$> row_keys p).
Proof.
  unfold row_keys. rewrite <- list_fmap_compose. generalize (p_tables p) as l. induction l as [|t l IH]; [constructor|].
  cbn [fmap list_fmap]. rewrite !NoDup_cons. intros [Ht Hl]. split; [|auto].
  intros (t' & E & Ht')%list_elem_of_fmap. apply Ht. apply list_elem_of_fmap. exists t'. split; [|done].
  unfold table_name. cbn in E. unfold key_table in E.
  destruct (table_table t) as [a b], (table_table t') as [a' b']. cbn in E. by injection E as -> ->.
Qed.

Lemma catalog_new_mode columns mode : wc_on_unprotected (catalog_new columns mode) = mode.
Proof.
  unfold catalog_new. set (start := {| wc_on_unprotected := mode |}).
  change mode with (wc_on_unprotected start). generalize start 0. induction columns as [|c columns IH]; intros s n; [done|].
  cbn [add_columns]. rewrite IH. unfold add_column. by destruct (pc_transform c).
Qed.

(** C31: the two directions of a session are wired from one list of columns, in one
    order: a column with a transform is sealed on the way in under its own name, and one
    that is opened or masked is handled on the way out at the catalog's place for that
    name, opened with the transform it is sealed with; both sides decide alike what to do
    with what they cannot protect. *)
Theorem wired_paths_agree tls key_source connected v ctx cat :
  validate (config_policy (vcf_config v)) = Ok tt →
  wire_session parse_hosts lookup_column tls key_source connected v = Ok (Some (ctx, cat)) →
  wc_on_unprotected cat = cf_on_unprotected (vcf_config v) ∧
  cx_on_unprotected ctx = cf_on_unprotected (vcf_config v) ∧
  ∀ i c, build (config_policy (vcf_config v)) !! i = Some c →
    (is_Some (pc_transform c) →
      (m ← wc_tables cat !! (pc_schema c, pc_table c); m !! pc_column c) = Some i) ∧
    ∃ oid att ty, place catalog c = Some (oid, att, ty) ∧
      ∀ read, read_column c = Some read →
        rs_columns (cx_resolved ctx) !! (oid, att) = Some read ∧
        (pc_readable c = true → rc_transform read = pc_transform c).
Proof.
  intros (Hn & _ & Ht & _)%validate_Ok E. unfold wire_session in E.
  apply bind_Ok_inv in E as ([] & _ & E). destruct (vcf_protected v) as [p|]; [|done].
  apply bind_Ok_inv in E as ([] & _ & E). apply bind_Ok_inv in E as (resolved & Hr & [= <- <-]).
  destruct connected as [[]|]; [|done].
  pose proof (build_distinct _ Hn) as Hd.
  apply (resolve_columns_Ok catalog Hattribute Htable _ _ _ Hcatalog _ _ _ Hd (row_keys_distinct _ Ht)) in Hr.
  set (mode := cf_on_unprotected (vcf_config v)).
  pose proof (catalog_new_reflects _ mode (distinct_names _ Hd)) as Hc.
  split_and!; [apply catalog_new_mode|done|]. intros i c Hi. split.
  - intros Hs. apply (rf_tables _ _ Hc). by exists c.
  - pose proof (list_elem_of_lookup_2 _ _ _ Hi) as Hin.
    destruct (re_positions _ _ _ _ Hr c Hin) as (oid & att & ty & Hp & _). exists oid, att, ty. split; [done|].
    intros read Hread. split; [apply (re_columns _ _ _ _ Hr); by exists c, ty|].
    intros Hrd. unfold read_column in Hread. rewrite Hrd in Hread. by injection Hread as <-.
Qed.

End wired.

(** ** Admission *)

(** The effects of a run so far, the latest first; a stopped loop takes no further turn. *)
Definition running (effects : list (option Effect)) : Prop :=
  match effects with Some (Stopped _) :: _ => False | _ => True end.

Inductive admits (max_sessions : nat) : Admission → list (option Effect) → Prop :=
  | admits_new : admits max_sessions (admission_new max_sessions) []
  | admits_step s effects effect s' :
      admits max_sessions s effects → running effects → admission_step s effect s' →
      admits max_sessions s' (effect :: effects).

(** Failed accepts since the last that succeeded. *)
Fixpoint failures (effects : list (option Effect)) : nat :=
  match effects with
  | Some (Retry _) :: effects => S (failures effects)
  | Some (Stopped e) :: effects => if is_fatal_accept_error e then failures effects else S (failures effects)
  | Some Reaped :: effects | None :: effects => failures effects
  | _ => 0
  end.

(** Refused connections, and those the log has told of. *)
Fixpoint refused (effects : list (option Effect)) : nat :=
  match effects with
  | Some (Refused_ _) :: effects => S (refused effects)
  | _ :: effects => refused effects
  | [] => 0
  end.
Fixpoint told (effects : list (option Effect)) : nat :=
  match effects with
  | Some (Refused_ (Some n)) :: effects => n + told effects
  | _ :: effects => told effects
  | [] => 0
  end.

Record admission_ok (max_sessions : nat) (s : Admission) (effects : list (option Effect)) : Prop := {
  ao_permits : ad_permits s + ad_live s = max_sessions;
  ao_errors : ad_errors s = failures effects;
  ao_refusals : refused effects = told effects + rf_since_last_log (ad_refusals s);
}.

Lemma admission_step_ok max_sessions s effects effect s' :
  admission_ok max_sessions s effects → admission_step s effect s' →
  admission_ok max_sessions s' (effect :: effects) ∧
  (∀ logged, effect = Some (Refused_ logged) → ad_live s = max_sessions) ∧
  (∀ e, effect = Some (Stopped e) →
    is_fatal_accept_error e = true ∨ failures (effect :: effects) = MAX_CONSECUTIVE_ACCEPT_ERRORS ∨
    MAX_CONSECUTIVE_ACCEPT_ERRORS ≤ failures effects).
Proof.
  intros [Hp He Hr] Hs. destruct Hs as [s event effect s' _ E|s Hl].
  2:{ split_and!; [|done..]. split; cbn; [lia|done|done]. }
  destruct event as [now|e|]; cbn [on_accept] in E.
  - destruct (ad_permits s) as [|permits] eqn:Hperm.
    + unfold record_refusal in E. destruct (match rf_last_log (ad_refusals s) with Some _ => _ | None => _ end) in E;
        injection E as <- <-; (split_and!; [split; cbn; lia|by intros; lia|done]).
    + injection E as <- <-. split_and!; [split; cbn; lia|done..].
  - destruct (is_fatal_accept_error e) eqn:Hf.
    + injection E as <- <-. split_and!; [|done|by intros ? [= <-]; left]. split; cbn; [done| |done]. by rewrite Hf.
    + case_bool_decide as Hm; injection E as <- <-;
        (split_and!; [split; cbn; rewrite ?Hf; lia|done|]); [|done].
      intros e' [= <-]. right. cbn. rewrite Hf. unfold MAX_CONSECUTIVE_ACCEPT_ERRORS in *. lia.
  - injection E as <- <-. split_and!; [|done..]. split; cbn; lia.
Qed.

Lemma admits_ok max_sessions s effects : admits max_sessions s effects → admission_ok max_sessions s effects.
Proof.
  induction 1 as [|s effects effect s' _ IH _ Hs]; [split; cbn; lia|]. by destruct (admission_step_ok _ _ _ _ _ IH Hs).
Qed.

(** While the loop runs, it has seen fewer failures in a row than it gives up at. *)
Lemma running_failures max_sessions s effects :
  admits max_sessions s effects → running effects → failures effects < MAX_CONSECUTIVE_ACCEPT_ERRORS.
Proof.
  intros Ha. induction Ha as [|s effects effect s' Ha IH Hrun Hs]; [cbn; unfold MAX_CONSECUTIVE_ACCEPT_ERRORS; lia|].
  intros Hrun'. specialize (IH Hrun). pose proof (ao_errors _ _ _ (admits_ok _ _ _ Ha)) as He.
  destruct Hs as [s event effect s' _ E|s _]; [|done]. destruct event as [now|e|]; cbn [on_accept] in E.
  - assert (failures (Some effect :: effects) = 0) as ->; [|lia].
    destruct (ad_permits s); [destruct (record_refusal _ _) in E|]; by injection E as <- <-.
  - destruct (is_fatal_accept_error e); [by injection E as <- <-|].
    case_bool_decide as Hm; injection E as <- <-; [done|]. cbn. lia.
  - injection E as <- <-. done.
Qed.

(** C34: however connections arrive, fail and end, the loop never holds more sessions
    than the configured maximum and turns a client away only when it holds that many; it
    stops only for an error that makes the listener useless or after 32 failures in a row
    with no connection accepted in between; and no refusal goes uncounted: those logged and
    those yet to be are all there were. *)
Theorem sessions_are_limited max_sessions s effects :
  admits max_sessions s effects →
  ad_live s ≤ max_sessions ∧
  refused effects = told effects + rf_since_last_log (ad_refusals s) ∧
  ∀ effect s', running effects → admission_step s effect s' →
    (∀ logged, effect = Some (Refused_ logged) → ad_live s = max_sessions) ∧
    (∀ e, effect = Some (Stopped e) →
      is_fatal_accept_error e = true ∨ failures (effect :: effects) = MAX_CONSECUTIVE_ACCEPT_ERRORS).
Proof.
  intros Ha. pose proof (admits_ok _ _ _ Ha) as Hok. split_and!; [destruct Hok; lia|apply Hok|].
  intros effect s' Hrun Hs. destruct (admission_step_ok _ _ _ _ _ Hok Hs) as (_ & Hr & Hst). split; [done|].
  intros e He. pose proof (running_failures _ _ _ Ha Hrun). destruct (Hst e He) as [?|[?|?]]; auto. lia.
Qed.

(** ** Examples *)

Module ServeExample.
Import PolicyExample ProcessExample.

Definition run (args : list bytes) : result Proxy.Error Startup * (Rlimit * bool) :=
  Serve.start ConfigExample.example_files (λ _, Some {| dc_password := false; dc_ssl_mode := SslOther |})
    (λ _, Ok b#"https") (λ s, s) (λ _, []) (λ _, []) (λ _, Ok ConfigExample.example_config) (λ _, false) args booted.

(** Without a file the relay has to be asked for, and says what it is. *)
Lemma startup_is_never_silently_unprotected_witness :
  (run []).1 = Err (Proxy.NoConfig DEFAULT_CONFIG) ∧
  (run [b#"--help"]) = (Ok Help, booted) ∧
  ∃ v k, run [PLAIN_RELAY_FLAG] = (Ok (Serve v true), k) ∧ cf_columns (vcf_config v) = [] ∧ k.2 = false.
Proof.
  split; [vm_compute; reflexivity|]. split; [vm_compute; reflexivity|].
  assert (match run [PLAIN_RELAY_FLAG] with (Ok (Serve _ w), _) => w | _ => false end = true) as Hw by (vm_compute; reflexivity).
  destruct (run [PLAIN_RELAY_FLAG]) as [[[|v w]|] k] eqn:E; try discriminate Hw. rewrite Hw in E. exists v, k.
  split; [by rewrite Hw|].
  destruct (@startup_is_never_silently_unprotected obliging _ _ _ _ _ _ _ _ _ _ _ _ _ _ E) as (Hk & _ & _ & H).
  split; [by apply H|]. apply Hk.
Defined.

Definition config : Config := {|
  cf_listen := []; cf_upstream := []; cf_keys_file := Some b#"keys.toml"; cf_vault := None;
  cf_control_dsn := Some b#"host=db"; cf_startup_timeout_secs := 30; cf_max_sessions := 256;
  cf_column_refresh_secs := 300; cf_max_protected_value_bytes := 1024;
  cf_tls := {| tls_downstream := None; tls_upstream := None |};
  cf_on_unprotected := Reject; cf_columns := [c_ssn]; cf_tables := p_tables example |}.

Definition validated_config : ValidatedConfig := {|
  vcf_config := config;
  vcf_protected := Some {| pcf_keys := KeyFileSource b#"keys.toml"; pcf_control_dsn := b#"host=db" |} |}.

Definition wired : result Proxy.Error (option (RowContext * WriteCatalog)) :=
  wire_session (λ _, None) (λ _ s t c, Row (ResolveExample.catalog s t c)) (Ok tt) (Ok tt) (Ok tt) validated_config.

(** The social security number is the column numbered 0 on the way in, and attribute 2 of
    its table on the way out. *)
Lemma wired_paths_agree_witness :
  match wired with Ok (Some _) => true | _ => false end = true ∧
  ∃ ctx cat read, wired = Ok (Some (ctx, cat)) ∧
    (m ← wc_tables cat !! (b#"public", b#"users"); m !! b#"ssn") = Some 0 ∧
    rs_columns (cx_resolved ctx) !! (16384, 2)%Z = Some read.
Proof.
  assert (match wired with Ok (Some _) => true | _ => false end = true) as Hw by (vm_compute; reflexivity).
  split; [exact Hw|]. destruct wired as [[[ctx cat]|]|] eqn:E; try discriminate Hw. clear Hw.
  assert (validate (config_policy (vcf_config validated_config)) = Ok tt) as Hv by (vm_compute; reflexivity).
  destruct (wired_paths_agree (λ _, None) (λ _ s t c, Row (ResolveExample.catalog s t c)) ResolveExample.catalog)
    with (1 := λ (_ : nat) s t c, eq_refl (Row (ResolveExample.catalog s t c))) (4 := Hv) (5 := E) as (_ & _ & Hi).
  - intros s t c s' t' c' oid att ty ty' [E1 H1]%ResolveExample.catalog_users [E2 H2]%ResolveExample.catalog_users.
    naive_solver.
  - intros s t c s' t' c' oid att att' ty ty' [E1 _]%ResolveExample.catalog_users [E2 _]%ResolveExample.catalog_users.
    congruence.
  - destruct (Hi 0 (build_column (config_policy config) c_ssn)) as (H1 & oid & att & ty & Hp & H2); [vm_compute; reflexivity|].
    vm_compute in Hp. injection Hp as <- <- <-.
    exists ctx, cat. eexists. split; [reflexivity|]. split; [apply H1; by eexists|]. apply H2. vm_compute. reflexivity.
Defined.

(** One permit: a session, a refusal that is logged, the session's end, another session. *)
Definition first : Admission := (on_accept (Accepted 0) (admission_new 1)).2.
Definition full : Admission := (on_accept (Accepted 1) first).2.
Definition again : Admission := (on_accept (Accepted 3) (session_ended full)).2.

Lemma again_reached : admits 1 again [Some Spawned; None; Some (Refused_ (Some 1)); Some Spawned].
Proof.
  eapply (admits_step _ (session_ended full)); [|done|by apply (turn_step _ (Accepted 3))].
  eapply (admits_step _ full); [|done|by apply end_step].
  eapply (admits_step _ first); [|done|by apply (turn_step _ (Accepted 1))].
  eapply (admits_step _ (admission_new 1)); [apply admits_new|done|by apply (turn_step _ (Accepted 0))].
Qed.

Lemma sessions_are_limited_witness : ad_live again = 1 ∧ ad_live again ≤ 1.
Proof. split; [reflexivity|]. apply (sessions_are_limited 1 again _ again_reached). Defined.

End ServeExample.
