(* ===== verification/RecordsSpec.v ===== *)
(** * What the derived code promises

    A derived record type agrees with the policy it declares; sealing and opening keep
    records well typed; a sealed record holds no protected value in the clear; and it
    opens to the record it was sealed from. *)

From S2P Require Import Prelude Utf8 IntText Crates Pgwire Errors Envelope RowKeys Fields Transform Policy Records.
Import Mask.

(** ** Reading attributes *)

Lemma try_fold_inv {S A E} (P : S → Prop) (f : S → A → result E S) :
  (∀ s a s', P s → f s a = Ok s' → P s') → ∀ l s s', P s → try_fold f s l = Ok s' → P s'.
Proof.
  intros Hf l. induction l as [|a l IH]; intros s s' Hs; cbn [try_fold]; [by intros [= <-]|].
  intros (s1 & E1 & E2)%bind_Ok_inv. eauto.
Qed.

Lemma split_once_Some name l r : split_once name = Some (l, r) → name = l ++ [dot] ++ r.
Proof.
  revert l. induction name as [|b name IH]; intros l; cbn [split_once]; [done|].
  case_bool_decide as Hb; [intros [= <- <-]; by subst b|].
  destruct (split_once name) as [[l' r']|]; [|done]. intros [= <- <-]. cbn. f_equal. by apply IH.
Qed.

Section expand.
Context (parse_metas : bytes → option (list Syn.Meta)) (parse_paths : bytes → option (list bytes)).
Context (is_ident : bytes → bool).

(** What an accepted expansion has. *)
Record derived_ok (d : Derived) : Prop := {
  do_table : is_Some (split_once (sa_table (dv_attrs d)));
  do_protected : dv_protected d ≠ [];
  do_row_key key : sa_row_key (dv_attrs d) = Some key → key ∈ dv_plain d;
}.

Lemma struct_attrs_table attrs a :
  struct_attrs parse_metas parse_paths is_ident attrs = Ok a → is_Some (split_once (sa_table a)).
Proof.
  unfold struct_attrs. intros ([[table key] derives] & _ & E)%bind_Ok_inv.
  apply bind_Ok_inv in E as (t & _ & [= <-]). cbn [sa_table].
  destruct (split_once t) as [[l r]|] eqn:Et; [by rewrite Et|by eexists].
Qed.

Lemma expand_Ok input d : expand parse_metas parse_paths is_ident input = Ok d → derived_ok d.
Proof.
  unfold expand. destruct (Syn.di_data input) as [[fields|]|]; [|done..].
  intros (attrs & Ha & E)%bind_Ok_inv. apply struct_attrs_table in Ha.
  apply bind_Ok_inv in E as ([protected plain] & _ & E). case_bool_decide as Hp; [done|].
  destruct (sa_row_key attrs) as [key|] eqn:Hk.
  - case_bool_decide as Hin; [|done]. injection E as <-. split; cbn; [done..|]. rewrite Hk. by intros ? [= <-].
  - injection E as <-. split; cbn; [done..|]. by rewrite Hk.
Qed.

End expand.

(** ** The declared policy *)

Lemma policy_expr_fields table f :
  cp_table (policy_expr table f) = table ∧ cp_column (policy_expr table f) = pf_column f ∧
  cp_transform (policy_expr table f) = policy_kind (pf_kind f) ∧
  cp_searchable (policy_expr table f) = pf_searchable f ∧
  cp_detokenize (policy_expr table f) = pf_detokenize f ∧ cp_mask (policy_expr table f) = pf_mask f.
Proof. unfold policy_expr. by destruct (pf_mask f). Qed.

Lemma qualified_policy table f :
  is_Some (split_once table) → qualified_name (policy_expr table f) = qualified table f.
Proof.
  intros [[l r] Hs]. destruct (policy_expr_fields table f) as (Ht & Hc & _).
  unfold qualified_name, column_table, split_table, dotted, qualified. rewrite Ht, Hs, Hc.
  apply split_once_Some in Hs as ->. by rewrite <- !app_assoc.
Qed.

Section policy.
Context `{HexCrate, AeadCrate, HmacCrate, Ff1Crate}.

Lemma find_declared d pr s0 f :
  derived_ok d → protector_new (record_policy d) = Ok (pr, s0) → f ∈ dv_protected d →
  find_column pr (qualified (sa_table (dv_attrs d)) f)
    = Ok (entry_of (record_policy d) (policy_expr (sa_table (dv_attrs d)) f)).
Proof.
  intros [Ht _ _] Hp Hf. rewrite <- qualified_policy by done.
  apply (protector_covers_policy _ _ _ Hp). by apply list_elem_of_fmap_2.
Qed.

(** C13: the struct is a complete declaration: a protector built from the policy of a
    derived record knows every protected field of the struct under the name the generated
    code asks for, stores it in the form the sealed struct has a type for, asks for a row
    key exactly when the struct names one, and searches and masks it as declared; so the
    generated code is never refused for a disagreement between the two. *)
Theorem struct_is_its_policy parse_metas parse_paths is_ident input d pr s0 f :
  expand parse_metas parse_paths is_ident input = Ok d →
  protector_new (record_policy d) = Ok (pr, s0) → f ∈ dv_protected d →
  let column := qualified (sa_table (dv_attrs d)) f in
  protector_wire pr column = Ok (expected_wire f) ∧
  protector_binds_row pr column = Ok (bool_decide (is_Some (sa_row_key (dv_attrs d)))) ∧
  (∀ value, protector_mask pr column value
    = Ok match pf_mask f with Some mask => apply mask value | None => value end) ∧
  (∀ e, find_column pr column = Ok e → pc_searchable (col_spec e) = pf_searchable f ∧
    (pc_readable (col_spec e) = true ↔
      pf_kind f = FieldEncrypt ∨ pf_kind f = FieldFpe ∧ pf_detokenize f = true)).
Proof.
  intros Hd%expand_Ok Hp Hf column. pose proof (find_declared _ _ _ _ Hd Hp Hf) as He. fold column in He.
  destruct (policy_expr_fields (sa_table (dv_attrs d)) f) as (Ht & Hc & Hk & Hs & Hdt & Hm).
  unfold protector_wire, protector_binds_row, protector_mask. rewrite He. cbn [mbind result_bind mret result_ret].
  assert (∀ c p, pc_mask (build_column p c) = cp_mask c ∧ pc_searchable (build_column p c) = cp_searchable c) as Hb.
  { intros c p. unfold build_column. destruct (column_table c). by destruct (cp_transform c). }
  split_and!.
  - f_equal. cbn [col_spec entry_of]. unfold build_column, expected_wire. rewrite Hk.
    destruct (column_table _). by destruct (pf_kind f).
  - f_equal. cbn [col_row_bound entry_of]. apply bool_decide_ext. unfold column_table. rewrite Ht.
    unfold record_policy, policy_new. cbn [p_tables]. destruct (sa_row_key (dv_attrs d)) as [key|].
    + split; [by eexists|]. intros _. by apply list_elem_of_singleton.
    + split; [by intros ?%elem_of_nil|by intros [? [=]]].
  - intros value. cbn [col_spec entry_of]. rewrite (proj1 (Hb _ _)), Hm. by destruct (pf_mask f).
  - intros e [= <-]. cbn [col_spec entry_of]. rewrite (proj2 (Hb _ _)), Hs. split; [done|].
    unfold build_column. rewrite Hk, Hdt. destruct (column_table _). destruct (pf_kind f); naive_solver.
Qed.

End policy.

(** ** Loops over fields *)

Lemma each_field_Ok (P : PState → Prop) (Q : ProtectedField → option bytes → option bytes → Prop) g :
  (∀ i f v s r s', P s → g i f v s = (Ok r, s') → P s' ∧ Q f v r) →
  ∀ fs vs i s out s', P s → length fs = length vs → each_field g i fs vs s = (Ok out, s') →
  P s' ∧ Forall3 Q fs vs out.
Proof.
  intros Hg fs. induction fs as [|f fs IH]; intros [|v vs] i s out s' Hs Hl; try done.
  - intros [= <- <-]. by repeat constructor.
  - cbn [each_field]. intros (r & s1 & E & E')%M_bind_Ok. apply M_bind_Ok in E' as (rs & s2 & E2 & [= <- <-]).
    apply Hg in E as [Hs1 Hq]; [|done]. apply IH in E2 as [Hs2 Hqs]; [|done|by injection Hl].
    split; [done|by constructor].
Qed.

Lemma each_field_total (P : PState → Prop) (Q : ProtectedField → option bytes → option bytes → Prop) g :
  (∀ i f v r s, Q f v r → P s → ∃ s', g i f v s = (Ok r, s') ∧ P s') →
  ∀ fs vs out i s, Forall3 Q fs vs out → P s →
  ∃ s', each_field g i fs vs s = (Ok out, s') ∧ P s'.
Proof.
  intros Hg fs vs out i s Hq. revert i s. induction Hq as [|f v r fs vs out Hq _ IH]; intros i s Hs.
  - by exists s.
  - destruct (Hg i _ _ _ _ Hq Hs) as (s1 & E1 & Hs1). destruct (IH (S i) s1 Hs1) as (s2 & E2 & Hs2).
    exists s2. split; [|done]. cbn [each_field]. by rewrite (M_bind_eval _ _ _ _ _ E1), (M_bind_eval _ _ _ _ _ E2).
Qed.

(** ** Types *)

(** A value of a field's type, where the type holds [repr]. *)
Definition value_typed (repr : ProtectedField → Repr) (f : ProtectedField) (v : option bytes) : Prop :=
  match v with
  | None => sh_optional (pf_shape f) = true
  | Some bs => match repr f with Text => is_utf8 bs = true | Bytes => True end
  end.

Definition rec_typed {V} (repr : ProtectedField → Repr) (d : Derived) (r : Rec V) : Prop :=
  length (rec_plain r) = length (dv_plain d) ∧ Forall2 (value_typed repr) (dv_protected d) (rec_fields r).

(** The struct the user wrote, and the sealed one. *)
#[local] Abbreviation plain_repr := (λ f, sh_repr (pf_shape f)).
Definition record_typed {V} : Derived → Rec V → Prop := rec_typed plain_repr.
Definition sealed_typed {V} : Derived → Rec V → Prop := rec_typed stored_repr.

Lemma typed_Ok repr bs out :
  typed repr bs = Ok out → out = bs ∧ match repr with Text => is_utf8 bs = true | Bytes => True end.
Proof. unfold typed. destruct repr; [destruct (is_utf8 bs)|]; try done; by intros [= <-]. Qed.

Lemma typed_intro repr bs :
  match repr with Text => is_utf8 bs = true | Bytes => True end → typed repr bs = Ok bs.
Proof. unfold typed. destruct repr; [by intros ->|done]. Qed.

Section generated.
Context `{HexCrate, AeadCrate, HmacCrate, Ff1Crate}.
Context {V : Type} `{!ToRowKey V} (d : Derived) (pr : Protector).

#[local] Abbreviation table := (sa_table (dv_attrs d)).

(** A sealed field, taken apart. *)
Lemma seal_field_Ok ks nonce row i f v s r s' :
  seal_field d pr ks nonce row i f v s = (Ok r, s') →
  match v with
  | None => r = None ∧ s' = s
  | Some value => ∃ stored, r = Some stored ∧ protector_wire pr (qualified table f) = Ok (expected_wire f) ∧
      protector_seal pr ks (nonce i) (qualified table f) value row s = (Ok stored, s') ∧
      match stored_repr f with Text => is_utf8 stored = true | Bytes => True end
  end.
Proof.
  unfold seal_field. destruct v as [value|]; [|by intros [= <- <-]].
  intros (form & s1 & [= Hw <-] & E)%M_bind_Ok. case_bool_decide as Hf; [|done]. subst form.
  apply M_bind_Ok in E as (sealed & s2 & Hs & E). apply M_bind_Ok in E as (stored & s3 & [= Ht <-] & [= <- <-]).
  apply typed_Ok in Ht as [-> Ht]. by exists sealed.
Qed.

(** An opened field, taken apart. *)
Lemma open_field_Ok lenient ks row f v s r s' :
  open_field d pr ks lenient row f v s = (Ok r, s') →
  (pf_kind f = FieldNone ∧ r = v) ∨
  pf_kind f ≠ FieldNone ∧ match v with
  | None => r = None
  | Some _ => ∃ plain, r = Some plain ∧ match sh_repr (pf_shape f) with Text => is_utf8 plain = true | Bytes => True end
  end.
Proof.
  unfold open_field. intros E. case_bool_decide as Hk; [injection E as <- <-; by left|right; split; [done|]].
  destruct v as [value|]; [|by injection E as <- _].
  apply M_bind_Ok in E as (o & s1 & _ & E). apply M_bind_Ok in E as (o' & s2 & _ & E).
  apply M_bind_Ok in E as (p & s3 & [= Ht _] & [= <- _]). apply typed_Ok in Ht as [-> Ht]. by exists o'.
Qed.

Lemma record_seal_Ok ks nonce (r sealed : Rec V) s s' :
  record_seal d pr ks nonce r s = (Ok sealed, s') →
  ∃ row, row_expr d r = Ok row ∧ rec_plain sealed = rec_plain r ∧
    each_field (seal_field d pr ks nonce row) 0 (dv_protected d) (rec_fields r) s = (Ok (rec_fields sealed), s').
Proof.
  unfold record_seal. intros (row & s1 & [= Hr <-] & E)%M_bind_Ok.
  apply M_bind_Ok in E as (fields & s2 & E & [= <- <-]). by exists row.
Qed.

(** Sealing and opening keep records well typed: what [seal] puts into a field of the
    sealed struct has the type the macro declared it with, what [open] and [open_lenient]
    put into a field of the record has the type the user declared it with, an absent
    optional value stays absent, and the unprotected fields are carried over. *)
Theorem records_stay_typed ks nonce (r r' : Rec V) s s' :
  (record_typed d r → record_seal d pr ks nonce r s = (Ok r', s') →
    sealed_typed d r' ∧ rec_plain r' = rec_plain r) ∧
  (∀ lenient, sealed_typed d r → open_with d pr ks lenient r s = (Ok r', s') →
    record_typed d r' ∧ rec_plain r' = rec_plain r).
Proof.
  split.
  - intros [Hp Hf] (row & _ & Hpl & E)%record_seal_Ok. split; [|done]. split; [by rewrite Hpl|].
    pose proof (Forall2_length _ _ _ Hf) as Hl.
    eapply (each_field_Ok (λ _, True) (λ f v r, value_typed plain_repr f v → value_typed stored_repr f r)) in E
      as [_ Hq]; [|clear E|done..].
    + clear -Hf Hq. revert Hf. induction Hq; inversion 1; subst; constructor; auto.
    + intros i f v s1 o s2 _ Ho%seal_field_Ok. split; [done|]. destruct v as [value|].
      * destruct Ho as (stored & -> & _ & _ & Ht). by intros _.
      * by destruct Ho as [-> _].
  - intros lenient [Hp Hf] E. unfold open_with in E. apply M_bind_Ok in E as (row & s1 & _ & E).
    apply M_bind_Ok in E as (fields & s2 & E & [= <- _]). split; [|done]. split; [done|]. cbn [rec_fields].
    pose proof (Forall2_length _ _ _ Hf) as Hl.
    eapply (each_field_Ok (λ _, True) (λ f v r, value_typed stored_repr f v → value_typed plain_repr f r)) in E
      as [_ Hq]; [|clear E|done..].
    + clear -Hf Hq. revert Hf. induction Hq; inversion 1; subst; constructor; auto.
    + intros i f v s3 o s4 _ Ho%open_field_Ok. split; [done|]. intros Hv. destruct Ho as [[Hk ->]|[_ Ho]].
      * unfold value_typed, stored_repr in *. by rewrite Hk in Hv.
      * destruct v as [value|]; [by destruct Ho as (plain & -> & ?)|by subst o].
Qed.

End generated.

Section protected.
Context `{HexCrate, AeadCrate, HmacCrate, Ff1Crate, !AeadLaws, !HmacLaws, !Ff1Laws}.
Context (K I : bytes → option bytes).
Context {V : Type} `{!ToRowKey V} (d : Derived) (p : Policy) (pr : Protector) (s0 : PState).
Context (Hp : protector_new p = Ok (pr, s0)).

#[local] Abbreviation table := (sa_table (dv_attrs d)).

(** What a sealed field holds: what the policy's column of that name stores, in the
    wire form the struct declares. *)
Definition stored_field (nonce : nat → bytes) (row : option RowKey) (f : ProtectedField)
    (v r : option bytes) : Prop :=
  match v with
  | None => r = None
  | Some value => ∃ c i stored, r = Some stored ∧
      c ∈ p_columns p ∧ qualified_name c = lookup_name (qualified table f) ∧
      (is_Some row ↔ column_table c ∈ table_table <$> p_tables p) ∧
      match pf_kind f with
      | FieldNone => cp_transform c = KNone
      | FieldEncrypt => cp_transform c = KEncrypt
      | FieldFpe | FieldToken => cp_transform c = KFpe ∨ cp_transform c = KToken
      end ∧
      stored_under K I (nonce i) row c value stored
  end.

Lemma wire_kind column c :
  c ∈ p_columns p → qualified_name c = lookup_name column → ∀ form, protector_wire pr column = Ok form →
  form = match cp_transform c with KEncrypt => Some Bytea | KFpe | KToken => Some WText | KNone => None end.
Proof using Hp.
  intros Hc Hq form. unfold protector_wire. intros (e & He & [= <-])%bind_Ok_inv.
  destruct (find_column_Ok _ _ _ _ _ Hp He) as (c' & Hc' & Hq' & ->).
  assert (c' = c) as -> by (eapply protector_column_unique; [done..|congruence]).
  cbn [col_spec entry_of]. unfold build_column. destruct (column_table c). by destruct (cp_transform c).
Qed.

(** C11: a sealed record holds nothing protected in the clear. Whatever policy the
    protector was built from, sealing either refuses the record or yields one in which
    every present value of an encrypted field is its ciphertext under a key of the
    source, in an envelope bound to the column and, where the struct names a row key, to
    the record's row, behind its blind index where the column is searchable and behind
    nothing where it is not; every value of a tokenized field is the token of the value
    under the column's key, or the value with its digits replaced by their
    format-preserving encryption; and only a field declared to be masked alone is stored
    as it is. Sealing names a row exactly where the table of the column declares a row
    key. *)
Theorem sealed_record_is_protected ks nonce (r sealed : Rec V) s s' :
  source_ok K ks → index_ok I ks → pstate_ok K I s → (∀ i, length (nonce i) = NONCE_LEN) →
  record_typed d r → record_seal d pr ks nonce r s = (Ok sealed, s') →
  ∃ row, row_expr d r = Ok row ∧
    (is_Some row ↔ is_Some (sa_row_key (dv_attrs d))) ∧
    Forall3 (stored_field nonce row) (dv_protected d) (rec_fields r) (rec_fields sealed) ∧
    pstate_ok K I s'.
Proof using Type*.
  intros Hks Hi Hs Hn [_ Hf] (row & Hr & _ & E)%record_seal_Ok. exists row. split; [done|].
  assert (is_Some row ↔ is_Some (sa_row_key (dv_attrs d))) as Hrow.
  { unfold row_expr in Hr. destruct (sa_row_key (dv_attrs d)); [|by injection Hr as <-].
    destruct (_ ≫= _); [|done]. apply bind_Ok_inv in Hr as (k & _ & [= <-]). split; by eexists. }
  pose proof (Forall2_length _ _ _ Hf) as Hl.
  assert (∀ i f v s r s', pstate_ok K I s → seal_field d pr ks nonce row i f v s = (Ok r, s') →
    pstate_ok K I s' ∧ stored_field nonce row f v r) as Hstep.
  { clear E s s' Hs. intros i f v s o s' Hs Ho%seal_field_Ok. destruct v as [value|].
    2:{ by destruct Ho as [-> ->]. }
    destruct Ho as (stored & -> & Hw & Hseal & Ht).
    destruct (protector_stores K I _ _ _ _ _ _ _ _ _ _ _ Hp Hks Hi Hs (Hn i) Hseal)
      as (c & Hc & Hq & Hb & Hst).
    destruct (protector_invariant K I _ _ _ ks (nonce i) (qualified table f) value row s Hp Hks Hi Hs) as (_ & Hs' & _).
    rewrite Hseal in Hs'. split; [done|]. exists c, i, stored. split_and!; [done..| |done].
    pose proof (wire_kind _ _ Hc Hq _ Hw) as Hk. unfold expected_wire in Hk.
    destruct (pf_kind f), (cp_transform c); try done; auto. }
  destruct (each_field_Ok _ _ _ Hstep _ _ _ _ _ _ Hs Hl E) as [Hs' Hq]. done.
Qed.

(** ** Opening again *)

(** What opening a sealed field again needs: that its column can be read back, that its
    bytes are not misread, and that the keys are still there. *)
Definition openable (ks' : KeySource) (f : ProtectedField) (r : option bytes) : Prop :=
  pf_kind f = FieldNone ∨ ∀ stored, r = Some stored →
    ∃ e, find_column pr (qualified table f) = Ok e ∧ pc_readable (col_spec e) = true ∧
      (pc_searchable (col_spec e) = true ∨ BlindIndex.split stored = None) ∧
      is_ok (ks_index_key ks' (lookup_name (qualified table f))) = true ∧
      (is_ok (en ← ok_or Core.Malformed (stored_envelope stored); id ← key_id en; ks_key ks' id) = true
       ∨ protector_wire pr (qualified table f) = Ok (Some WText)).

Lemma seal_open_field ks ks' nonce row i f v s r s1 s2 :
  source_ok K ks → source_ok K ks' → index_ok I ks → index_ok I ks' → pstate_ok K I s → pstate_ok K I s2 →
  length (nonce i) = NONCE_LEN → value_typed plain_repr f v →
  seal_field d pr ks nonce row i f v s = (Ok r, s1) → openable ks' f r →
  ∃ s3, open_field d pr ks' false row f r s2 = (Ok v, s3) ∧ pstate_ok K I s3.
Proof using Type*.
  intros Hks Hks' Hi Hi' Hs Hs2 Hn Ht Ho%seal_field_Ok Hop. unfold open_field.
  destruct v as [value|]; [|destruct Ho as [-> _]; exists s2; split; [by case_bool_decide|done]].
  destruct Ho as (stored & -> & Hw & Hseal & _). case_bool_decide as Hk.
  { exists s2. split; [|done]. do 2 f_equal.
    destruct (protector_seal_Ok _ _ _ _ _ _ _ _ _ _ _ Hp Hseal) as (c & Hc & Hq & _ & Hst).
    pose proof (wire_kind _ _ Hc Hq _ Hw) as Hkc. unfold expected_wire in Hkc. rewrite Hk in Hkc.
    destruct (cp_transform c) eqn:Ec; try done.
    unfold build_column in Hst. destruct (column_table c). rewrite Ec in Hst. cbn in Hst. by subst stored. }
  destruct Hop as [?|Hop]; [done|]. destruct (Hop stored eq_refl) as (e & Hf & Hread & Hsp & Hidx & Hkey).
  pose proof (protector_roundtrip K I p pr s0 ks ks' (nonce i) (qualified table f) value row s stored s1 s2 e
    Hp Hks Hks' Hi Hi' Hs Hs2 Hn Hseal Hf Hread Hsp Hidx Hkey) as Ho.
  destruct (protector_invariant K I _ _ _ ks' (nonce i) (qualified table f) stored row s2 Hp Hks' Hi' Hs2)
    as (_ & _ & Hs3 & _).
  destruct (protector_open pr ks' (qualified table f) stored row s2) as [o s3] eqn:E. cbn in Ho, Hs3. subst o.
  exists s3. split; [|done]. rewrite (M_bind_eval _ _ _ _ _ E).
  cbn [into_value]. unfold mbind, M_bind, lift. by rewrite typed_intro.
Qed.

(** C10: what was sealed opens, where it can be. A record sealed through a protector
    opens, through a protector of the same policy and from any later sound state of its
    caches and of the key source, to the record it was, every protected, absent and
    unprotected field alike; provided that every present field is only masked, or is
    [openable]: its column can be read back (a token, and digits that are not to be
    detokenized, cannot: opening such a record fails), what is stored for a column that is
    not searchable does not read as an indexed value, and the key source still has the
    column's key and the key its envelope names. *)
Theorem record_roundtrip ks ks' nonce (r sealed : Rec V) s s1 s2 :
  source_ok K ks → source_ok K ks' → index_ok I ks → index_ok I ks' → pstate_ok K I s → pstate_ok K I s2 →
  (∀ i, length (nonce i) = NONCE_LEN) → record_typed d r →
  record_seal d pr ks nonce r s = (Ok sealed, s1) →
  Forall2 (openable ks') (dv_protected d) (rec_fields sealed) →
  ∃ s3, record_open d pr ks' sealed s2 = (Ok r, s3) ∧ pstate_ok K I s3.
Proof using Type*.
  intros Hks Hks' Hi Hi' Hs Hs2 Hn [_ Ht] (row & Hr & Hpl & E)%record_seal_Ok Hop.
  pose proof (Forall2_length _ _ _ Ht) as Hl.
  pose (opens := λ f v r, value_typed plain_repr f v → openable ks' f r →
    ∀ s2, pstate_ok K I s2 → ∃ s3, open_field d pr ks' false row f r s2 = (Ok v, s3) ∧ pstate_ok K I s3).
  assert (∀ i f v s r s', pstate_ok K I s → seal_field d pr ks nonce row i f v s = (Ok r, s') →
    pstate_ok K I s' ∧ opens f v r) as Hstep.
  { clear E s s1 Hs s2 Hs2. intros i f v s o s' Hs E. split; [|intros Hv Ho s2 Hs2; by eapply (seal_open_field ks ks' nonce row i f v s o s')].
    apply seal_field_Ok in E. destruct v as [value|]; [|destruct E as [-> ->]; done].
    destruct E as (stored & -> & _ & E & _).
    destruct (protector_invariant K I _ _ _ ks (nonce i) (qualified table f) value row s Hp Hks Hi Hs) as (_ & Hs' & _).
    by rewrite E in Hs'. }
  destruct (each_field_Ok _ opens _ Hstep _ _ _ _ _ _ Hs Hl E) as [_ Hq].
  assert (Forall3 (λ f r v, ∀ s2, pstate_ok K I s2 →
    ∃ s3, open_field d pr ks' false row f r s2 = (Ok v, s3) ∧ pstate_ok K I s3)
    (dv_protected d) (rec_fields sealed) (rec_fields r)) as Hall.
  { clear -Hq Ht Hop. revert Ht Hop. induction Hq; intros Ht Hop; inversion Ht; inversion Hop; subst; constructor; auto. }
  destruct (each_field_total (pstate_ok K I) _ (λ _, open_field d pr ks' false row)
    (λ _ f v o s Ho Hs, Ho s Hs) _ _ _ 0 s2 Hall Hs2) as (s3 & Eo & Hs3).
  exists s3. split; [|done]. unfold record_open, open_with.
  assert (row_expr d sealed = Ok row) as Hrs by (unfold row_expr; by rewrite Hpl).
  unfold mbind at 1, M_bind at 1, lift. rewrite Hrs. rewrite (M_bind_eval _ _ _ _ _ Eo), Hpl. by destruct r.
Qed.

End protected.

(** ** Examples *)

Module RecordsExample.
Export PolicyExample.
Import Syn.

(** A [User] of table [users] with row key [id]: a searchable [email], an optional [ssn],
    and a [phone] that is only masked. *)
Definition parse_metas (tokens : bytes) : option (list Meta) :=
  if bool_decide (tokens = b#"struct") then
    Some [MetaNameValue b#"table" (ExprLit (LitStr b#"users")); MetaNameValue b#"row_key" (ExprLit (LitStr b#"id"))]
  else if bool_decide (tokens = b#"searchable") then Some [MetaPath b#"searchable"]
  else if bool_decide (tokens = b#"masked") then Some [MetaPath b#"none"; MetaList b#"mask" b#"last4"]
  else if bool_decide (tokens = b#"last4") then Some [MetaNameValue b#"keep_last" (ExprLit (LitInt (Some 4%Z)))]
  else None.

Definition string_ty : Ty := TypePath [MkSegment b#"String" NoArguments].
Definition option_ty (ty : Ty) : Ty :=
  TypePath [MkSegment b#"core" NoArguments; MkSegment b#"Option" (AngleBracketed [GenericType ty])].

Definition user : DeriveInput := {|
  di_attrs := [MetaList b#"dbsec" b#"struct"];
  di_data := Struct (Some
    [{| fd_ident := b#"id"; fd_ty := TypePath [MkSegment b#"i64" NoArguments]; fd_attrs := [] |};
     {| fd_ident := b#"email"; fd_ty := string_ty; fd_attrs := [MetaList b#"dbsec" b#"searchable"] |};
     {| fd_ident := b#"ssn"; fd_ty := option_ty string_ty; fd_attrs := [MetaPath b#"dbsec"] |};
     {| fd_ident := b#"phone"; fd_ty := string_ty; fd_attrs := [MetaList b#"dbsec" b#"masked"] |}]) |}.

Definition expanded : result DeriveError Derived := expand parse_metas (λ _, Some []) (λ _, true) user.

Definition no_derived : Derived := {|
  dv_attrs := {| sa_table := []; sa_row_key := None; sa_sealed_derives := [] |}; dv_protected := []; dv_plain := [] |}.
Definition derived : Derived := match expanded with Ok d => d | Err _ => no_derived end.

Lemma expanded_Ok : expanded = Ok derived.
Proof. vm_compute. reflexivity. Qed.

Definition built_user : Protector * PState := value no_protector (protector_new (record_policy derived)).

Lemma user_new : protector_new (record_policy derived) = Ok (built_user.1, built_user.2).
Proof.
  assert (is_ok (protector_new (record_policy derived)) = true) as Hok by (vm_compute; reflexivity).
  unfold built_user. by destruct (protector_new (record_policy derived)) as [[]|].
Qed.

Lemma struct_is_its_policy_witness :
  pf_column <$> dv_protected derived = [b#"email"; b#"ssn"; b#"phone"] ∧
  ∃ f, f ∈ dv_protected derived ∧ qualified (sa_table (dv_attrs derived)) f = b#"public.users.email" ∧
    protector_wire built_user.1 b#"public.users.email" = Ok (Some Bytea).
Proof.
  split; [vm_compute; reflexivity|].
  destruct (dv_protected derived) as [|f fs] eqn:E; [discriminate E|]. exists f.
  assert (f ∈ dv_protected derived) as Hf by (rewrite E; left). split; [left|].
  assert (qualified (sa_table (dv_attrs derived)) f = b#"public.users.email") as Hq
    by (vm_compute in E; injection E as <- _; vm_compute; reflexivity).
  split; [exact Hq|].
  destruct (struct_is_its_policy _ _ _ user derived built_user.1 built_user.2 f expanded_Ok user_new Hf) as (Hw & _).
  cbv zeta in Hw. rewrite Hq in Hw. rewrite Hw. vm_compute in E. by injection E as <- _.
Defined.

(** No social security number; the rest is there. *)
Definition alice : Rec i64 := {|
  rec_plain := [I64 42]; rec_fields := [Some b#"a@example.com"; None; Some b#"5551234"] |}.

Lemma alice_typed : record_typed derived alice.
Proof.
  split; [vm_compute; reflexivity|]. repeat constructor; vm_compute; reflexivity.
Qed.

Definition nonces (i : nat) : bytes := nonce1.

Definition run : result Core.Error (Rec i64) * PState :=
  record_seal derived built_user.1 source1 nonces alice front0.
Definition sealed : Rec i64 := value alice run.1.

Lemma alice_sealed : run = (Ok sealed, run.2).
Proof.
  assert (is_ok run.1 = true) as Hok by (vm_compute; reflexivity).
  unfold sealed. by destruct run as [[]].
Qed.

Lemma records_stay_typed_witness : sealed_typed derived sealed ∧ rec_plain sealed = [I64 42].
Proof.
  apply (proj1 (records_stay_typed derived built_user.1 source1 nonces alice sealed front0 run.2) alice_typed alice_sealed).
Defined.

Lemma sealed_record_is_protected_witness :
  ∃ row, row_expr derived alice = Ok row ∧
    Forall3 (stored_field ring index_ring derived (record_policy derived) nonces row)
      (dv_protected derived) (rec_fields alice) (rec_fields sealed).
Proof.
  destruct (sealed_record_is_protected ring index_ring derived (record_policy derived) built_user.1 built_user.2
    user_new source1 nonces alice sealed front0 run.2 source1_ok source1_index front0_ok (λ _, eq_refl)
    alice_typed alice_sealed) as (row & Hr & _ & Hf & _).
  exists row. split; [exact Hr|exact Hf].
Defined.

Lemma record_roundtrip_witness :
  ∃ s3, record_open derived built_user.1 source1 sealed front0 = (Ok alice, s3).
Proof.
  destruct (record_roundtrip ring index_ring derived (record_policy derived) built_user.1 built_user.2
    user_new source1 source1 nonces alice sealed front0 run.2 front0 source1_ok source1_ok source1_index source1_index
    front0_ok front0_ok (λ _, eq_refl) alice_typed alice_sealed) as (s3 & E & _); [|exists s3; exact E].
  constructor; [|constructor; [|constructor; [by left|constructor]]].
  - right. intros stored Hs. eexists. split; [vm_compute; reflexivity|].
    split; [vm_compute; reflexivity|]. split; [left; vm_compute; reflexivity|]. split; [vm_compute; reflexivity|].
    left. vm_compute in Hs. injection Hs as <-. vm_compute. reflexivity.
  - right. intros stored Hs. vm_compute in Hs. discriminate Hs.
Defined.

End RecordsExample.
