(* ===== verification/Interop.v ===== *)
(** * The library and the proxy agree

    Both wire their transforms through [Policy.build], so what an application seals
    through a [Protector], alone or as a record, the proxy opens on its read path, and
    what the proxy seals for a Bind an application opens. The row key is the meeting
    point: the one a record computes from its field is the one the proxy reads off the
    row. *)

From S2P Require Import Prelude Utf8 IntText Crates Pgwire Errors Envelope RowKeys Fields Transform Policy Records.
From S2P Require Import Portal Rows RowsSpec Catalog Frame FrameSpec Resolve RecordsSpec.

(** ** Row keys *)

(** The text and the binary form the server sends a key in, by its type. *)
Class WireKey (T : Type) `{!ToRowKey T} := {
  wk_type : Z;
  wk_ok : T → Prop;
  wk_text : T → bytes;
  wk_binary : T → bytes;
}.

Definition wire_form {T} `{WireKey T} (format : Format) (key : T) : bytes :=
  match format with FText => wk_text key | FBinary => wk_binary key end.

(** What a key type promises: whichever form it arrives in, it is the record's key. *)
Class WireKeyLaw (T : Type) `{HexCrate} `{WireKey T} : Prop :=
  wire_key_canonical format key : wk_ok key → canonical wk_type format (Some (wire_form format key)) = to_row_key key.

#[export] Instance i16_wire : WireKey i16 := {|
  wk_type := INT2; wk_ok '(I16 z) := in_bits 16 z; wk_text '(I16 z) := int_to_string z;
  wk_binary '(I16 z) := be_bytes 2 z |}.
#[export] Instance i32_wire : WireKey i32 := {|
  wk_type := INT4; wk_ok '(I32 z) := in_bits 32 z; wk_text '(I32 z) := int_to_string z;
  wk_binary '(I32 z) := be_bytes 4 z |}.
#[export] Instance i64_wire : WireKey i64 := {|
  wk_type := INT8; wk_ok '(I64 z) := in_bits 64 z; wk_text '(I64 z) := int_to_string z;
  wk_binary '(I64 z) := be_bytes 8 z |}.
#[export] Instance str_wire : WireKey str := {|
  wk_type := TEXT; wk_ok '(Str s) := is_utf8 s = true; wk_text '(Str s) := s; wk_binary '(Str s) := s |}.
#[export] Instance uuid_wire `{HexCrate} : WireKey uuid_bytes := {|
  wk_type := UUID; wk_ok '(Uuid b) := length b = 16; wk_text '(Uuid b) := hyphenated (hex_encode b);
  wk_binary '(Uuid b) := b |}.

Section keys.
Context `{HexCrate, !HexLaws}.

Lemma int_key_canonical ty bits w format z :
  (ty, bits, w) ∈ int_types → in_bits bits z →
  canonical ty format (Some match format with FText => int_to_string z | FBinary => be_bytes w z end)
    = Ok (from_int z).
Proof.
  intros Hty Hz. destruct (integer_text_Ok _ _ _ (integer_text_canonical bits z Hz)) as (z' & Hz' & E & Hp & Hu).
  apply (int_to_string_inj bits) in E as <-; [|done..].
  by destruct format; apply (canonical_formats_agree ty bits w (int_to_string z) z Hty).
Qed.

#[export] Instance i16_law : WireKeyLaw i16.
Proof.
  intros format [z] Hz. transitivity (Ok (from_int z) : result Core.Error RowKey); [|done].
  rewrite <- (int_key_canonical INT2 16 2 format z); [|left|done]. by destruct format.
Qed.
#[export] Instance i32_law : WireKeyLaw i32.
Proof.
  intros format [z] Hz. transitivity (Ok (from_int z) : result Core.Error RowKey); [|done].
  rewrite <- (int_key_canonical INT4 32 4 format z); [|right; left|done]. by destruct format.
Qed.
#[export] Instance i64_law : WireKeyLaw i64.
Proof.
  intros format [z] Hz. transitivity (Ok (from_int z) : result Core.Error RowKey); [|done].
  rewrite <- (int_key_canonical INT8 64 8 format z); [|right; right; left|done]. by destruct format.
Qed.

#[export] Instance str_law : WireKeyLaw str.
Proof.
  intros format [s] Hs. transitivity (canonical TEXT format (Some s)); [by destruct format|].
  unfold canonical. cbn [mbind result_bind ok_or]. rewrite !bool_decide_false, (bool_decide_true (_ ∨ _)) by (done || by left).
  unfold utf8. cbn in Hs. by rewrite Hs.
Qed.

#[export] Instance uuid_law : WireKeyLaw uuid_bytes.
Proof.
  intros format [b] Hb. cbn in Hb.
  assert (canonical UUID FText (Some (hyphenated (hex_encode b))) = Ok (from_uuid_bytes b)) as Ht.
  { unfold canonical. cbn [mbind result_bind ok_or]. rewrite !(bool_decide_false (UUID = _)), bool_decide_true by done.
    rewrite uuid_from_text_canonical; [done|by rewrite hex_encode_length, Hb|apply hex_encode_lower]. }
  destruct format; [exact Ht|]. unfold canonical. cbn [mbind result_bind ok_or wire_form wk_type wk_binary uuid_wire].
  rewrite !(bool_decide_false (UUID = _)), bool_decide_true by done.
  by rewrite (proj2 (fixed_Ok 16 b b) (conj eq_refl Hb)).
Qed.

End keys.

(** ** Values *)

Section interop.
Context `{HexCrate, AeadCrate, HmacCrate, Ff1Crate, !HexLaws, !AeadLaws, !HmacLaws, !Ff1Laws}.
Context (K I : bytes → option bytes) (p : Policy) (pr : Protector) (s0 : PState).
Context (Hp : protector_new p = Ok (pr, s0)).

(** What opening a stored value again needs of it and of the key source. *)
Definition reopenable (e : EncryptTransform) (ks' : KeySource) (stored : bytes) : Prop :=
  (searchable e = true ∨ BlindIndex.split stored = None) ∧
  is_ok (en ← ok_or Core.Malformed (stored_envelope stored); id ← key_id en; ks_key ks' id) = true.

Lemma encrypt_readable c e :
  pc_transform (build_column p c) = Some (DynEncrypt e) →
  pc_readable (build_column p c) = true ∧ pc_mask (build_column p c) = cp_mask c.
Proof using Type. unfold build_column. destruct (column_table c). by destruct (cp_transform c). Qed.

Lemma read_column_built c e :
  pc_transform (build_column p c) = Some (DynEncrypt e) →
  read_column (build_column p c)
    = Some {| rc_name := qualified_name c; rc_transform := Some (DynEncrypt e); rc_mask := cp_mask c |}.
Proof using Type.
  intros Ht. unfold read_column. rewrite pc_name_build, Ht. by destruct (encrypt_readable c e Ht) as [-> ->].
Qed.

Lemma protector_seal_transform c e ks nonce pt row s stored s' :
  c ∈ p_columns p → pc_transform (build_column p c) = Some (DynEncrypt e) →
  protector_seal pr ks nonce (qualified_name c) pt row s = (Ok stored, s') →
  on_transform (qualified_name c) (seal (DynEncrypt e) ks nonce pt row) s = (Ok stored, s').
Proof using Hp.
  intros Hc Ht. unfold protector_seal. rewrite (proj1 (protector_covers_policy _ _ _ Hp) c Hc).
  intros (en & s1 & [= <- <-] & E)%M_bind_Ok. apply M_bind_Ok in E as (u & s2 & [= _ <-] & E).
  cbn [col_spec entry_of] in E. by rewrite Ht, pc_name_build in E.
Qed.

(** What the library sealed is a stored cell of the proxy. *)
Lemma library_cell c e ks ks' nonce pt row s stored s' v hex_text :
  c ∈ p_columns p → pc_transform (build_column p c) = Some (DynEncrypt e) → cp_mask c = None →
  pstate_ok K I s → length nonce = NONCE_LEN →
  protector_seal pr ks nonce (qualified_name c) pt row s = (Ok stored, s') → reopenable e ks' stored →
  decode_wire (DynEncrypt e) v = (stored, hex_text) →
  stored_cell K I ks ks' row
    {| rc_name := qualified_name c; rc_transform := Some (DynEncrypt e); rc_mask := cp_mask c |} v
    (if hex_text : bool then hex_text_form pt else pt).
Proof using Hp.
  intros Hc Ht Hm Hs Hn E [Hsp Hk] Hd.
  eapply (sealed_cell K I ks ks' row _ e nonce pt s stored s' v hex_text); [done|done|by apply (build_wired p)|done..| |done|done|done].
  by eapply protector_seal_transform.
Qed.

(** C9: the library and the proxy read each other. For an encrypted column of one
    policy: what an application seals through the protector, the proxy's read path hands
    a client as the value that was sealed, in either wire form, when the row carries the
    same row key; and what the proxy's Bind sends upstream for a parameter of that column,
    the protector opens to the parameter's value under the row key the Bind named. *)
Theorem library_and_proxy_agree (why_text : RowKeyProblem → bytes) deref nonces ks ks' c e row s s2 :
  source_ok K ks → source_ok K ks' → index_ok I ks → index_ok I ks' → pstate_ok K I s → pstate_ok K I s2 →
  (∀ i, length (nonces i) = NONCE_LEN) →
  c ∈ p_columns p → pc_transform (build_column p c) = Some (DynEncrypt e) → cp_mask c = None →
  (is_Some row ↔ column_table c ∈ table_table <$> p_tables p) →
  (∀ i pt stored s' v hex_text read row_keys repeated j key,
    protector_seal pr ks (nonces i) (qualified_name c) pt row s = (Ok stored, s') → reopenable e ks' stored →
    read_column (build_column p c) = Some read → decode_wire (DynEncrypt e) v = (stored, hex_text) →
    key_at row_keys key = Ok <$> row →
    ∃ s3, replace_value ks' row_keys repeated j read key v s2
      = (Ok (Some (if hex_text : bool then hex_text_form pt else pt)), s3)) ∧
  (∀ bm i ptr source v w s',
    deref ptr = (qualified_name c, DynEncrypt e) →
    transform_param why_text deref nonces ks bm i (Seal ptr source) v s = (Ok (Replaced w), s') →
    bind_row_key why_text source bm = Ok row →
    ∃ stored, w = encode_param stored Bytea (bool_decide (param_format bm i = 1%Z)) ∧
      (reopenable e ks' stored →
       (protector_open pr ks' (qualified_name c) stored row s2).1 = Ok (Value v))).
Proof using Type*.
  intros Hks Hks' Hi Hi' Hs Hs2 Hn Hc Ht Hm Hrow. split.
  - intros i pt stored s' v hex_text read row_keys repeated j key E Hre Hr Hd Hk.
    rewrite (read_column_built _ _ Ht) in Hr. injection Hr as <-.
    pose proof (library_cell c e ks ks' (nonces i) pt row s stored s' v hex_text Hc Ht Hm Hs (Hn i) E Hre Hd) as Hcell.
    destruct (replace_value_opens K I ks ks' row_keys row repeated j _ key v _ s2 Hks Hks' Hi Hi' Hs2 Hcell Hk)
      as (s3 & E3 & _). by exists s3.
  - intros bm i ptr source v w s' Hd E Hk. apply transform_param_seal in E as (key & stored & Hk' & E & ->).
    rewrite Hk in Hk'. injection Hk' as <-. rewrite Hd in *. cbn [fst snd] in *. exists stored. split; [done|].
    intros [Hsp Hkey]. apply on_transform_Ok in E as [t' E].
    pose proof (build_wired p c _ Ht) as Hw.
    apply (protector_open_value p pr ks' (qualified_name c) c stored row s2 v (DynEncrypt e)).
    + by apply (protector_covers_policy _ _ _ Hp).
    + apply check_row_Ok. rewrite Hrow. cbn [col_row_bound entry_of]. by rewrite bool_decide_eq_true.
    + by apply (encrypt_readable c e).
    + done.
    + apply (encrypt_roundtrip K I e ks ks' (nonces i) v row _ stored t' _ Hks Hks' Hi
        (tstate_encrypt_ok K I _ _ _ Hw (pstate_tstate K I (qualified_name c) s Hs))
        (tstate_encrypt_ok K I _ _ _ Hw (pstate_tstate K I (qualified_name c) s2 Hs2)) (Hn i) E Hkey Hsp).
Qed.

End interop.

(** ** Records *)

Section record_interop.
Context `{HexCrate, AeadCrate, HmacCrate, Ff1Crate, !HexLaws, !AeadLaws, !HmacLaws, !Ff1Laws}.
Context (K I : bytes → option bytes) {V : Type} `{!ToRowKey V} `{!WireKey V} `{!WireKeyLaw V}.
Context (d : Derived) (pr : Protector) (s0 : PState).
Context (Hd : derived_ok d) (Hp : protector_new (record_policy d) = Ok (pr, s0)).

#[local] Abbreviation table := (sa_table (dv_attrs d)).




End record_interop.

(** ** Examples *)

Module InteropExample.
Import RecordsExample FrameExample.

Lemma ssn_row : is_Some (Some row42) ↔ column_table c_ssn ∈ table_table <$> p_tables example.
Proof. split; [intros _; left|by eexists]. Qed.

(** A social security number sealed by the library is read through the proxy, and one
    bound through the proxy is read by the library. *)
Lemma library_and_proxy_agree_witness :
  (∃ s3, replace_value source1 [(0, Ok row42)] false 1 col_ssn (Slot 0 23) (hex_text_form sealed_ssn) front0
    = (Ok (Some (hex_text_form b#"078-05-1120")), s3)) ∧
  ∃ stored, param = encode_param stored Bytea false ∧
    (reopenable e_ssn source1 stored →
     (protector_open front source1 b#"public.users.ssn" stored (Some row42) cold).1 = Ok (Value RowsExample.plain)).
Proof.
  assert (pc_transform (build_column example c_ssn) = Some (DynEncrypt e_ssn)) as Ht by (vm_compute; reflexivity).
  split.
  - destruct (library_and_proxy_agree ring index_ring example front front0 front_new why heap FrameExample.nonces
      source1 source1 c_ssn e_ssn (Some row42) front0 front0 source1_ok source1_ok source1_index source1_index front0_ok
      front0_ok (λ _, eq_refl) ltac:(left) Ht eq_refl ssn_row) as [Hl _].
    apply (Hl 0 b#"078-05-1120" sealed_ssn
      (protector_seal front source1 nonce1 b#"public.users.ssn" b#"078-05-1120" (Some row42) front0).2
      (hex_text_form sealed_ssn) true col_ssn).
    + apply with_state. vm_compute. reflexivity.
    + split; [left; vm_compute; reflexivity|vm_compute; reflexivity].
    + vm_compute. reflexivity.
    + vm_compute. reflexivity.
    + reflexivity.
  - destruct (library_and_proxy_agree ring index_ring example front front0 front_new why heap FrameExample.nonces
      source1 source1 c_ssn e_ssn (Some row42) cold cold source1_ok source1_ok source1_index source1_index cold_ok
      cold_ok (λ _, eq_refl) ltac:(left) Ht eq_refl ssn_row) as [_ Hr].
    apply (Hr bound 0 0 (SourceParam 1 23 b#"id") RowsExample.plain param sealed_param.2).
    + vm_compute. reflexivity.
    + apply with_state. vm_compute. reflexivity.
    + vm_compute. reflexivity.
Defined.



End InteropExample.
