(* ===== verification/SessionInv.v ===== *)
(** * What holds throughout a session

    The turns of the two relays, the refresher and the other sessions, which share the
    transforms' caches, as one step relation. The session's portals move only by the
    operations of [Portal], so what is proved of sequences of operations holds of running
    sessions; the caches and every recorded description stay sound. *)

From S2P Require Import Prelude Sql Utf8 Crates Pgwire Errors Envelope RowKeys Fields Transform Policy.
From S2P Require Import ArrayCodec Lexer Settings Unprotected Portal Rows RowsSpec Catalog Rewrite Walked Invariants.
From S2P Require Import Frame FrameSpec Session SessionSpec.

(** ** Operations on the portals *)

Lemma run_app {D} (ops ops' : list (Op D)) t log :
  run (ops ++ ops') t log = run ops' (run ops t log).1 (run ops t log).2.
Proof. revert t log. induction ops as [|op ops IH]; intros t log; [done|apply IH]. Qed.

Lemma run_state {D} (ops : list (Op D)) t log log' : (run ops t log).1 = (run ops t log').1.
Proof. revert t log log'. induction ops as [|op ops IH]; intros t log log'; [done|apply IH]. Qed.

Section operations.
Context {D : Type} (P : D → Prop).

(** An operation that records a sound description, or sound parameters, if any. *)
Definition op_ok (op : Op D) : Prop :=
  match op with
  | OParse _ params => NoDup params.*1
  | ODescribeAnswered d | ORederived d => P d
  | _ => True
  end.

Definition pending_all (p : Pending D) : Prop :=
  match p with PExecute _ _ (Some d) _ => P d | _ => True end.

(** Every description that is recorded is sound, and so are the parameters. *)
Record tracked_all (t : Tracked D) : Prop := {
  ta_statements : map_Forall (λ _ s, NoDup (st_params s).*1 ∧ ∀ d, st_described s = Some d → P d) (t_statements t);
  ta_pending : Forall pending_all (t_pending t);
}.

Lemma tracked_all_default : tracked_all tracked_default.
Proof. split; [apply map_Forall_empty|constructor]. Qed.

Lemma push_all p t : tracked_all t → pending_all p → tracked_all (push p t).2.
Proof.
  intros [Hs Hq] Hp. unfold push. case_bool_decide; [done|]. split; [done|]. cbn.
  apply Forall_app. split; [done|by constructor].
Qed.

Lemma sublist_all q t : tracked_all t → q `sublist_of` t_pending t → tracked_all (set_pending (λ _, q) t).
Proof.
  intros [Hs Hq] Hsub. split; [done|]. cbn. apply Forall_forall. intros p Hp.
  apply (proj1 (Forall_forall _ _) Hq). by eapply elem_of_sublist.
Qed.

Lemma backfill_all id d q : P d → Forall pending_all q → Forall pending_all (backfill id d <$> q).
Proof.
  intros Hd Hq. apply Forall_fmap. eapply Forall_impl; [exact Hq|]. intros [|i [st|] [d'|] f|]; try done.
  cbn. by destruct (st =? id)%Z.
Qed.

Lemma guarded_all {A} (r : result Proxy.Error ()) (m : M (Tracked D) Proxy.Error A) t :
  tracked_all t → (tracked_all (m t).2) → tracked_all (guarded r m t).2.
Proof. intros Ht Hm. unfold guarded. by destruct r. Qed.

Lemma describe_answered_all d t : P d → tracked_all t → tracked_all (describe_answered d t).
Proof.
  intros Hd Ht. pose proof Ht as [Hs Hq]. unfold describe_answered.
  destruct (t_pending t) as [|[[[name id]|]|i st o f|] rest] eqn:E; try done; apply Forall_cons in Hq as [_ Hq].
  - cbn [t_statements set_pending]. split.
    + destruct (t_statements t !! name) as [entry|] eqn:En; [|done]. destruct (st_id entry =? id)%Z; [|done].
      cbn. apply map_Forall_insert_2; [|done]. split; [|by intros ? [= <-]]. by apply Hs in En as [? _].
    + destruct (t_statements t !! name) as [entry|]; [destruct (st_id entry =? id)%Z|]; by apply backfill_all.
  - apply (sublist_all rest t Ht). rewrite E. by apply sublist_cons.
Qed.

Lemma copy_data_all ty t : tracked_all t → tracked_all (copy_data ty t).
Proof.
  intros Ht. unfold copy_data. destruct (t_copy_in t) as [|started]; [done|].
  set (t1 := if bool_decide _ then set_copy_in Idle t else t).
  assert (tracked_all t1 ∧ t_pending t1 = t_pending t) as [H1 E1].
  { unfold t1. destruct (bool_decide _); [|done]. split; [by destruct Ht|done]. }
  destruct started as [id|]; [|done]. destruct (position (is_execute id) (t_pending t1)) as [n|]; [|done].
  apply (sublist_all (take (n + 1) (t_pending t1) ++ drop_batches (drop (n + 1) (t_pending t1))) t1 H1).
  rewrite <- (take_drop (n + 1) (t_pending t1)) at 3. apply sublist_app; [done|apply drop_batches_sublist].
Qed.

Lemma run_op_all op t : op_ok op → tracked_all t → tracked_all (run_op op t).
Proof.
  intros Hop Ht. pose proof Ht as [Hs Hq]. destruct op as [st params|portal st f|st|portal|target name|portal| |ty| |d|d| |];
    cbn [run_op].
  - apply guarded_all; [done|]. destruct (_ && _); [done|]. split; [|done]. cbn.
    by apply map_Forall_insert_2.
  - apply guarded_all; [done|]. apply guarded_all; [done|]. by destruct (_ && _).
  - split; [|done]. cbn. by apply map_Forall_delete.
  - done.
  - apply guarded_all; [done|]. by apply push_all.
  - unfold expect_execute. destruct (t_portals t !! portal ≫= _) as [s|] eqn:E; [|by apply push_all].
    apply push_all; [done|]. cbn. destruct (st_described s) as [d|] eqn:Ed; [|done].
    apply bind_Some in E as (p & _ & E). by apply Hs in E as [_ E]; apply E.
  - by apply push_all.
  - by apply copy_data_all.
  - done.
  - by apply describe_answered_all.
  - unfold rederived. destruct (t_pending t) as [|[|i st [d'|] f|] rest]; try done.
    apply Forall_cons in Hq as [_ Hq]. split; [done|]. by constructor.
  - unfold execute_answered. destruct (t_pending t) as [|[|i st o f|] rest] eqn:E; try done.
    apply (sublist_all rest t Ht). rewrite E. by apply sublist_cons.
  - unfold batch_answered. split; [done|]. cbn. apply Forall_forall. intros p Hp.
    apply (proj1 (Forall_forall _ _) Hq). eapply elem_of_sublist; [exact Hp|apply drop_batch_sublist].
Qed.

(** At most [n] sound operations lead from [t] to [t']. *)
Definition moved_by (n : nat) (t t' : Tracked D) : Prop :=
  ∃ ops, length ops ≤ n ∧ Forall op_ok ops ∧ (run ops t []).1 = t'.

Lemma moved_refl n t : moved_by n t t.
Proof. exists []. split; [cbn; lia|by split]. Qed.

Lemma moved_op op t : op_ok op → moved_by 1 t (run_op op t).
Proof. intros Hop. exists [op]. split_and!; [done|by constructor|done]. Qed.

Lemma moved_trans n m t t' t'' : moved_by n t t' → moved_by m t' t'' → moved_by (n + m) t t''.
Proof.
  intros (o1 & L1 & F1 & <-) (o2 & L2 & F2 & <-). exists (o1 ++ o2). rewrite length_app, run_app.
  split_and!; [lia|by apply Forall_app|apply run_state].
Qed.

Lemma moved_weaken n m t t' : n ≤ m → moved_by n t t' → moved_by m t t'.
Proof. intros Hn (o & L & F & E). exists o. split_and!; [lia|done..]. Qed.

Lemma moved_all n t t' : moved_by n t t' → tracked_all t → tracked_all t'.
Proof.
  intros (ops & _ & F & <-). revert t. induction ops as [|op ops IH]; intros t Ht; [done|].
  apply Forall_cons in F as [Hop F]. cbn [run]. rewrite (run_state _ _ _ []). apply IH; [done|].
  by apply run_op_all.
Qed.

End operations.

(** ** The client's frames *)

#[local] Create HintDb calls.

Section client.
Context `{HexCrate, AeadCrate, HmacCrate, Ff1Crate, Lowercase, SqlParserCrate}.
Context `{!AeadLaws, !HmacLaws, !Ff1Laws}.
Context (K I : bytes → option bytes) (P : Described → Prop).
Context (deref : TransformPtr → bytes * DynTransform) (ks : KeySource) (nonce : nat → bytes).
Context (Hks : source_ok K ks) (Hi : index_ok I ks).
Context (Hw : ∀ ptr, wired_to (deref ptr).1 (deref ptr).2).
Context (catalog : WriteCatalog) (why_text : RowKeyProblem → bytes).

(** Sound caches stay sound, whether the call succeeds or not. *)
Definition keeps_caches {A} (m : M PState Proxy.Error A) : Prop :=
  ∀ s, pstate_ok K I s → pstate_ok K I (m s).2.

Lemma caches_bind {A B} (m : M PState Proxy.Error A) (f : A → M PState Proxy.Error B) :
  keeps_caches m → (∀ a, keeps_caches (f a)) → keeps_caches (m ≫= f).
Proof using Type.
  intros Hm Hf s Hs. unfold mbind, M_bind. specialize (Hm s Hs). destruct (m s) as [[a|e] s1]; [|done]. by apply Hf.
Qed.

Lemma caches_quiet {A} (r : result Proxy.Error A) : keeps_caches (lift r).
Proof using Type. by intros s Hs. Qed.

Lemma caches_transform {A} (h : Core.Error → Proxy.Error) name (m : M TState Core.Error A) :
  (∀ t, tstate_ok K I name t → tstate_ok K I name (m t).2) → keeps_caches (with_err h (on_transform name m)).
Proof using All.
  intros Hm s Hs. unfold with_err. pose proof (on_transform_ok K I name m s Hs Hm) as Ho.
  by destruct (on_transform name m s).
Qed.

Lemma index_elements_tstate name t elements s :
  wired_to name t → tstate_ok K I name s → tstate_ok K I name (index_elements t ks elements s).2.
Proof using All.
  intros Hwt. revert s. induction elements as [|[e|] elements IH]; intros s Hs; [done|..]; cbn [index_elements].
  - destruct (dyn_tstate K I name t ks [] e None s Hks Hi Hwt Hs) as (_ & _ & Hs1).
    unfold mbind, M_bind. destruct (search_index t ks e s) as [[[token|]|] s1]; cbn in *; [|done..].
    specialize (IH s1 Hs1). by destruct (index_elements t ks elements s1) as [[[l|]|] s2].
  - specialize (IH s Hs). unfold mbind, M_bind. by destruct (index_elements t ks elements s) as [[[l|]|] s2].
Qed.

Lemma param_keeps bm i action v : keeps_caches (transform_param why_text deref nonce ks bm i action v).
Proof using All.
  unfold transform_param. destruct action as [ptr row|ptr|ptr column].
  - destruct (bind_row_key why_text row bm) as [key|[e|msg]]; [|apply caches_quiet..].
    pose proof (Hw ptr) as Hwp. destruct (deref ptr) as [name t]. apply caches_bind; [|intros; apply caches_quiet].
    apply caches_transform. intros ts Hts. by destruct (dyn_tstate K I name t ks (nonce i) v key ts) as (? & ? & ?).
  - pose proof (Hw ptr) as Hwp. destruct (deref ptr) as [name t].
    apply caches_bind; [|by intros [token|]; apply caches_quiet].
    apply caches_transform. intros ts Hts. by destruct (dyn_tstate K I name t ks [] v None ts) as (? & ? & ?).
  - pose proof (Hw ptr) as Hwp. destruct (deref ptr) as [name t]. apply caches_bind; [|intros; apply caches_quiet].
    apply caches_transform. intros ts Hts. unfold index_array. destruct (if bool_decide _ then _ else _) as [array|]; [|done].
    unfold mbind, M_bind. pose proof (index_elements_tstate name t (ba_elements array) ts Hwp Hts) as Hix.
    by destruct (index_elements t ks (ba_elements array) ts) as [[[l|]|] t2].
Qed.

Lemma bind_loop_keeps bm params values un : keeps_caches (bind_loop why_text deref nonce ks bm params values un).
Proof using All.
  revert values un. induction params as [|[i action] params IH]; intros values un; cbn [bind_loop]; [apply caches_quiet|].
  destruct (values !! i) as [[v|]|]; [|apply IH..]. apply caches_bind; [apply param_keeps|].
  intros [w|column|msg]; [apply IH..|apply caches_quiet].
Qed.

(** Rewriting SQL: the caches, and the parameters recorded. *)
Definition sql_ok (s : SqlSession) : Prop := pstate_ok K I (ss_transforms s).

Lemma note_session_ok moved s : sql_ok s → sql_ok (note_session_state catalog moved s).2.
Proof using Type.
  revert s. induction moved as [|setting moved IH]; intros s Hs; cbn [note_session_state]; [done|].
  unfold mbind, M_bind, modify, lift. cbn. assert (sql_ok (note_setting setting s)) as H' by by destruct setting.
  destruct (Frame.unprotected catalog (setting_site setting)); [by apply IH|done].
Qed.

Lemma rewrite_all_ok rows moved index statements params drawn s :
  sql_ok s → NoDup params.*1 →
  let '(r, s') := rewrite_all catalog rows deref nonce ks moved index statements params drawn s in
  sql_ok s' ∧ ∀ statements' changed params', r = Ok (statements', changed, params') → NoDup params'.*1.
Proof using All.
  revert index params drawn s. induction statements as [|statement statements IH]; intros index params drawn s Hs Hp.
  { split; [done|]. by intros ??? [= _ _ <-]. }
  cbn [rewrite_all]. unfold mbind, M_bind.
  pose proof (note_session_ok (default [] (m ← moved; m !! index)) s Hs) as Hs1. unfold mbind, option_bind in Hs1.
  destruct (note_session_state _ _ s) as [[[]|e] s1]; [|done]. unfold call_rewrite.
  pose proof (statement_evolves K I deref ks nonce Hks Hi Hw catalog rows (ss_search_path_trusted s1)
    (ss_escape_strings s1) statement
    {| rw_params := params; rw_caches := ss_transforms s1; rw_drawn := drawn; rw_log := [] |}) as [_ Hon Hca _ _ _].
  destruct (rewrite_statement _ _ _ _ _ _ _ statement _) as [[[st ch]|e] w]; cbn in Hon, Hca; [|by split; [apply Hca|]].
  specialize (IH (S index) (rw_params w) (rw_drawn w) (set_transforms (rw_caches w) s1) (Hca Hs1) (Hon Hp)).
  destruct (rewrite_all _ _ _ _ _ _ _ _ _ _ _) as [[[[sts chs] ps]|e] s2]; [|by destruct IH].
  destruct IH as [Hs2 Hps]. split; [done|]. intros ??? [= _ _ <-]. by eapply Hps.
Qed.

Lemma or_refuse_ok {A} (m : M SqlSession Rejection A) k s (Q : SqlOutcome → Prop) :
  (let '(r, s') := m s in sql_ok s' ∧ ∀ a, r = Ok a →
    sql_ok (k a s').2 ∧ ∀ o, (k a s').1 = Ok o → Q o) → (∀ msg, Q (Refuse msg)) →
  sql_ok (or_refuse m k s).2 ∧ ∀ o, (or_refuse m k s).1 = Ok o → Q o.
Proof using Type.
  intros Hm Hq. unfold or_refuse. destruct (m s) as [[a|[e|msg]] s1]; destruct Hm as [Hs1 Ha].
  - by apply Ha.
  - by split.
  - split; [done|]. by intros o [= <-].
Qed.

Definition outcome_ok (o : SqlOutcome) : Prop := match o with Rewrite ro => NoDup (ro_params ro).*1 | Refuse _ => True end.

Lemma unprotected_sql_ok site o : unprotected_sql catalog site = Ok o → outcome_ok o.
Proof using Type.
  unfold unprotected_sql. destruct (Frame.unprotected catalog site) as [[]|[e|m]]; [|done|]; intros [= <-]; [|done].
  apply NoDup_nil_2.
Qed.

Lemma rewrite_sql_ok rows query s :
  sql_ok s → sql_ok (rewrite_sql catalog rows deref nonce ks query s).2 ∧
  ∀ o, (rewrite_sql catalog rows deref nonce ks query s).1 = Ok o → outcome_ok o.
Proof using All.
  intros Hs. unfold rewrite_sql. destruct (is_utf8 query); cbn [negb].
  2:{ split; [done|]. intros o. apply unprotected_sql_ok. }
  destruct (match sql_tokenize query with Ok _ => _ | Err _ => _ end) as [moved parsed].
  set (aligned := match parsed with Ok _ => _ | Err _ => _ end).
  unfold mbind, M_bind, take_startup_moved.
  set (s1 := {| ss_transforms := ss_transforms s |}). assert (sql_ok s1) as Hs1 by done. clearbody s1.
  apply (or_refuse_ok _ _ _ outcome_ok); [|done].
  pose proof (note_session_ok (if aligned then ss_startup_moved s else ss_startup_moved s ++ concat moved) s1 Hs1) as Hs2.
  destruct (note_session_state _ _ s1) as [r s2]. split; [done|]. intros [] _.
  destruct parsed as [statements|error]; [|split; [done|intros o; apply unprotected_sql_ok]].
  apply (or_refuse_ok _ _ _ outcome_ok); [|done].
  pose proof (rewrite_all_ok rows (if aligned then Some moved else None) 0 statements [] 0 s2 Hs2 NoDup_nil_2) as Ha.
  destruct (rewrite_all _ _ _ _ _ _ _ _ _ _ s2) as [r3 s3]. destruct Ha as [Hs3 Hps]. split; [done|].
  intros [[sts chs] ps] E. specialize (Hps _ _ _ E). destruct (existsb id chs); [|split; [done|by intros o [= <-]]].
  unfold mbind, M_bind, lift. destruct (reassemble query sts chs); [|done]. split; [done|by intros o [= <-]].
Qed.

(** A call of the write path keeps the caches sound and moves the portals by at most [n]
    operations; what it answers satisfies [Q]. *)
Definition client_call {A} (n : nat) (m : M QueryRewriter Proxy.Error A) (Q : A → Prop) : Prop :=
  ∀ s r s', sql_ok (qr_sql s) → m s = (r, s') →
    sql_ok (qr_sql s') ∧ moved_by P n (qr_portals s) (qr_portals s') ∧ ∀ a, r = Ok a → Q a.

Lemma call_bind {A B} n m (f : M QueryRewriter Proxy.Error A) (g : A → M QueryRewriter Proxy.Error B) Q R :
  client_call n f Q → (∀ a, Q a → client_call m (g a) R) → client_call (n + m) (f ≫= g) R.
Proof using Type.
  intros Hf Hg s r s' Hs. unfold mbind, M_bind. destruct (f s) as [r1 s1] eqn:E.
  destruct (Hf s r1 s1 Hs E) as (Hs1 & Hm1 & Hq). destruct r1 as [a|e].
  - intros E2. destruct (Hg a (Hq a eq_refl) s1 r s' Hs1 E2) as (Hs2 & Hm2 & Hr). split; [done|].
    split; [by eapply moved_trans|done].
  - intros [= <- <-]. split; [done|]. split; [|done]. eapply moved_weaken; [|exact Hm1]. lia.
Qed.

Lemma call_quiet {A} n (r : result Proxy.Error A) (Q : A → Prop) : (∀ a, r = Ok a → Q a) → client_call n (lift r) Q.
Proof using Type. intros Hq s r' s' Hs [= <- <-]. split; [done|]. split; [apply moved_refl|done]. Qed.

Lemma call_mret {A} n (a : A) : client_call n (mret a) (λ _, True).
Proof using Type. by apply (call_quiet n (Ok a)). Qed.

Lemma call_portals {A} (m : M (Tracked Described) Proxy.Error A) op :
  op_ok P op → (∀ t, (m t).2 = run_op op t) → client_call 1 (on_portals m) (λ _, True).
Proof using Type.
  intros Hop Hm s r s' Hs. unfold on_portals. pose proof (Hm (qr_portals s)) as E. destruct (m (qr_portals s)) as [r1 p].
  cbn in E. subst p. intros [= _ <-]. split; [done|]. split; [|done]. by apply moved_op.
Qed.

Lemma batch_call : client_call 1 (on_portals expect_batch) (λ _, True).
Proof using Type. apply (call_portals _ OExpectBatch); [done|]. intros t. cbn [run_op]. exact eq_refl. Qed.

Lemma call_sql {A} (m : M SqlSession Proxy.Error A) (Q : A → Prop) :
  (∀ s, sql_ok s → sql_ok (m s).2 ∧ ∀ a, (m s).1 = Ok a → Q a) → client_call 0 (on_sql m) Q.
Proof using Type.
  intros Hm s r s' Hs. unfold on_sql. destruct (Hm (qr_sql s) Hs) as [Hs1 Hq]. destruct (m (qr_sql s)) as [r1 q].
  cbn in Hs1, Hq. intros [= <- <-]. split; [done|]. split; [apply moved_refl|done].
Qed.

Lemma call_refuse n msg : client_call n (refuse_batch msg) (λ _, True).
Proof using Type. intros s r s' Hs [= _ <-]. split; [done|]. split; [apply moved_refl|done]. Qed.

Lemma call_weaken {A} n m (f : M QueryRewriter Proxy.Error A) Q : n ≤ m → client_call n f Q → client_call m f Q.
Proof using Type.
  intros Hn Hf s r s' Hs E. destruct (Hf s r s' Hs E) as (? & ? & ?). split_and!; [done| |done]. by eapply moved_weaken.
Qed.

#[local] Hint Resolve call_mret call_refuse : calls.

Lemma query_call rows body : client_call 1 (on_query catalog rows deref nonce ks body) (λ _, True).
Proof using All.
  unfold on_query. apply (call_bind 0 1 _ _ (λ _, True)); [by apply call_quiet|]. intros [query rest] _.
  apply (call_bind 0 1 _ _ outcome_ok); [apply call_sql; by apply rewrite_sql_ok|]. intros [o|msg] _.
  - apply (call_bind 1 0 _ _ (λ _, True)); [apply batch_call|]. auto with calls.
  - apply (call_bind 0 1 _ _ (λ _, True)); [|auto with calls].
    intros s r s' Hs [= _ <-]. split; [done|]. split; [apply moved_refl|done].
Qed.

Lemma parse_call rows body : client_call 1 (on_parse catalog rows deref nonce ks body) (λ _, True).
Proof using All.
  unfold on_parse. apply (call_bind 0 1 _ _ (λ _, True)); [by apply call_quiet|]. intros pm _.
  apply (call_bind 0 1 _ _ outcome_ok); [apply call_sql; by apply rewrite_sql_ok|]. intros [o|msg] Ho; [|auto with calls].
  apply (call_bind 1 0 _ _ (λ _, True)); [by apply (call_portals _ (OParse (pm_statement pm) (ro_params o)))|]. auto with calls.
Qed.

Lemma bind_call body : client_call 1 (on_bind catalog why_text deref nonce ks body) (λ _, True).
Proof using All.
  unfold on_bind. apply (call_bind 0 1 _ _ (λ _, True)); [by apply call_quiet|]. intros bm _.
  apply (call_bind 0 1 _ _ (λ _, True)); [by apply call_quiet|]. intros codes _.
  apply (call_bind 1 0 _ _ (λ _, True)); [by apply (call_portals _ (OBind (bm_portal bm) (bm_statement bm) (Some codes)))|].
  intros [[|p ps]|] _; [auto with calls| |auto with calls].
  apply (call_bind 0 0 _ _ (λ _, True)).
  { apply call_sql. intros s Hs. split; [|done]. unfold on_caches.
    pose proof (bind_loop_keeps bm (p :: ps) (bm_params bm) [] (ss_transforms s) Hs) as Hk.
    by destruct (bind_loop _ _ _ _ _ _ _ _ _). }
  intros [[values un]|msg] _; [|auto with calls].
  destruct (if bool_decide (un = []) then Ok tt else _) as [[]|[e|msg]]; [|by apply call_quiet|auto with calls].
  apply (call_bind 0 0 _ _ (λ _, True)); [by apply call_quiet|auto with calls].
Qed.

Lemma discard_keeps ty s :
  qr_portals (discard_until_sync ty s).2 = qr_portals s ∧ qr_sql (discard_until_sync ty s).2 = qr_sql s.
Proof using Type. by destruct ty. Qed.

(** The frames the write path looks at. *)
Lemma client_dispatch {A} ty (q p b d e s c k o : A) :
  match ty with
  | "Q"%byte => q | "P"%byte => p | "B"%byte => b | "D"%byte => d | "E"%byte => e
  | "S"%byte | "F"%byte => s | "d"%byte | "c"%byte | "f"%byte => c | "C"%byte => k | _ => o
  end =
  if bool_decide (ty = "Q"%byte) then q else if bool_decide (ty = "P"%byte) then p
  else if bool_decide (ty = "B"%byte) then b else if bool_decide (ty = "D"%byte) then d
  else if bool_decide (ty = "E"%byte) then e else if bool_decide (ty ∈ ["S"%byte; "F"%byte]) then s
  else if bool_decide (ty ∈ ["d"%byte; "c"%byte; "f"%byte]) then c else if bool_decide (ty = "C"%byte) then k else o.
Proof using Type. by destruct ty. Qed.

(** Whatever the client sends, the write path moves the portals by at most one
    operation and keeps the caches sound. *)
Lemma client_frame_call rows msg_type body :
  client_call 1 (on_client_frame catalog rows why_text deref nonce ks msg_type body) (λ _, True).
Proof using All.
  intros s r s' Hs E. unfold on_client_frame in E. destruct (qr_awaiting_sync s).
  { destruct (discard_keeps msg_type s) as [E1 E2]. destruct (discard_until_sync msg_type s) as [a s1].
    injection E as _ <-. cbn in E1, E2. rewrite E1, E2. split; [done|]. split; [apply moved_refl|done]. }
  rewrite client_dispatch in E.
  repeat case_match; [eapply query_call|eapply parse_call|eapply bind_call|..]; try done.
  - revert E. apply (call_bind 0 1 _ _ (λ _, True)); [by apply call_quiet| |exact Hs]. intros [target name] _.
    apply (call_bind 1 0 _ _ (λ _, True)); [by apply (call_portals _ (OExpectDescribe target name))|auto with calls].
  - revert E. apply (call_bind 0 1 _ _ (λ _, True)); [by apply call_quiet| |exact Hs]. intros [portal rest] _.
    apply (call_bind 1 0 _ _ (λ _, True)); [by apply (call_portals _ (OExpectExecute portal))|auto with calls].
  - revert E. apply (call_bind 1 0 _ _ (λ _, True)); [apply batch_call|auto with calls|exact Hs].
  - injection E as _ <-. split; [done|]. split; [|done]. by apply (moved_op P (OCopyData msg_type)).
  - revert E. apply (call_bind 0 1 _ _ (λ _, True)); [by apply call_quiet| |exact Hs]. intros [target name] _.
    apply (call_bind 1 0 _ _ (λ _, True)); [|auto with calls]. intros s1 r1 s2 Hs1 [= _ <-]. split; [done|].
    split; [|done]. destruct target; [by apply (moved_op P (OCloseStatement name))|by apply (moved_op P (OClosePortal name))].
  - injection E as _ <-. split; [done|]. split; [apply moved_refl|done].
Qed.

End client.

(** ** The server's frames *)

(** A column of the read path goes by its own name. *)
Definition column_wired (c : ReadColumn) : Prop := ∀ t, rc_transform c = Some t → wired_to (rc_name c) t.

Definition resolution_wired (r : Resolved) : Prop := ∀ k c, rs_columns r !! k = Some c → column_wired c.

(** Which column a run's resolutions put at which place: a table's oid and an attribute
    number. *)
Definition Places : Type := Z * Z → ReadColumn → Prop.

Record resolution_ok (pl : Places) (r : Resolved) : Prop := {
  ro_wired : resolution_wired r;
  ro_placed k c : rs_columns r !! k = Some c → pl k c;
}.

(** What a position is read as is the column at the place the server gave for it. *)
Definition placed (pl : Places) (fields : list FieldId) (p : Position) : Prop :=
  ∃ oid attnum ty, fields !! position_index p = Some (oid, attnum, ty) ∧ pl (oid, attnum) p.1.2.

(** A description names a position once, and reads it as the column it belongs to, under
    that column's name. *)
Record good (pl : Places) (d : Described) : Prop := {
  good_once : NoDup (position_index <$> d_columns d);
  good_wired : Forall (λ p, column_wired p.1.2) (d_columns d);
  good_placed : Forall (placed pl (d_fields d)) (d_columns d);
}.

Lemma protected_good pl r fields p :
  resolution_ok pl r → p ∈ protected r fields → column_wired p.1.2 ∧ placed pl fields p.
Proof.
  intros [Hw Ha] (oid & att & ty & column & Hf & Hc & Hp)%protected_elem. rewrite Hp. cbn. split; [by eapply Hw|].
  exists oid, att, ty. split; [done|]. by apply Ha.
Qed.

Lemma described_new_good pl r fields : resolution_ok pl r → good pl (described_new r fields).
Proof.
  intros Hr. split; [apply protected_NoDup|..]; apply Forall_forall; intros p Hp;
    by destruct (protected_good pl r fields p Hr Hp).
Qed.

Lemma rederive_good pl d r : resolution_ok pl r → good pl d → good pl (rederive d r).
Proof.
  intros Hr [_ Hd Hl]. split; [by destruct (rederive_wf d r)|..]; apply Forall_forall; intros p Hp;
    (destruct (rederive_from _ _ _ Hp) as [Hin|Hin]; [by destruct (protected_good pl r _ p Hr Hin)|]).
  - by apply (proj1 (Forall_forall _ _) Hd).
  - by apply (proj1 (Forall_forall _ _) Hl).
Qed.

Section server.
Context `{HexCrate, AeadCrate, HmacCrate, Ff1Crate, Lowercase}.
Context `{!AeadLaws, !HmacLaws, !Ff1Laws}.
Context (K I : bytes → option bytes) (pl : Places) (ks : KeySource) (Hks : source_ok K ks) (Hi : index_ok I ks).

#[local] Abbreviation keeps_caches := (keeps_caches K I).
#[local] Abbreviation good := (good pl).

Lemma open_keeps row_keys repeated i column key t stored :
  wired_to (rc_name column) t → keeps_caches (open_value ks row_keys repeated i column key t stored).
Proof using All.
  intros Hw. assert (∀ h row, keeps_caches (with_err h (on_transform (rc_name column) (open t ks stored row)))) as Ho.
  { intros h row s Hs. unfold with_err.
    pose proof (on_transform_ok K I (rc_name column) (open t ks stored row) s Hs) as Hok.
    destruct (on_transform _ _ s) as [r s']. apply Hok. intros ts Hts.
    by destruct (dyn_tstate K I (rc_name column) t ks [] stored row ts) as (? & ? & ?). }
  unfold open_value. destruct (key_at row_keys key) as [[k|why]|]; apply Ho.
Qed.

Lemma replace_keeps row_keys repeated i column key v :
  column_wired column → keeps_caches (replace_value ks row_keys repeated i column key v).
Proof using All.
  intros Hw. unfold replace_value. specialize (Hw : ∀ t, _). destruct (rc_transform column) as [t|].
  - destruct (decode_wire t v) as [stored hex_text]. apply caches_bind; [by apply open_keeps, Hw|].
    intros opened. apply caches_quiet.
  - apply caches_bind; [apply caches_quiet|]. intros opened. apply caches_quiet.
Qed.

Lemma step_keeps row_keys twice bounds p e :
  column_wired p.1.2 → keeps_caches (decrypt_step ks row_keys twice bounds p e).
Proof using All.
  destruct p as [[i column] key]. cbn. intros Hw. destruct (re_values e !! i) as [[v|]|]; [|apply caches_quiet..].
  case_bool_decide; [apply caches_quiet|]. apply caches_bind; [by apply replace_keeps|].
  intros [r|]; [|apply caches_quiet]. destruct (_ <? _)%Z; apply caches_quiet.
Qed.

Lemma row_keeps positions formats body bounds :
  Forall (λ p, column_wired p.1.2) positions → keeps_caches (decrypt_row ks positions formats body bounds).
Proof using All.
  intros Hw. unfold decrypt_row. apply caches_bind; [apply caches_quiet|intros _].
  apply caches_bind; [apply caches_quiet|intros values]. apply caches_bind.
  - generalize (row_keys_once positions formats values), (repeated_names positions).
    intros row_keys twice.
    generalize {| re_values := values; re_projected := Z.of_nat (length body); re_changed := false |}. revert Hw.
    induction positions as [|p positions IH]; intros Hw e; cbn [decrypt_loop]; [apply caches_quiet|].
    apply Forall_cons in Hw as [Hp Hw]. apply caches_bind; [by apply step_keeps|]. intros e'. by apply IH.
  - intros e. destruct (negb (re_changed e)); [apply caches_quiet|].
    apply caches_bind; [apply caches_quiet|intros; apply caches_quiet].
Qed.

(** Everything the read path holds is sound. *)
Record decryptor_ok (d : RowDecryptor) : Prop := {
  dk_caches : pstate_ok K I (rd_transforms d);
  dk_portals : tracked_all good (rd_portals d);
  dk_described x : rd_described d = Some x → good x;
  dk_resolved : resolution_ok pl (cx_resolved (rd_ctx d));
}.

(** A call of the read path keeps it so, and moves the portals by at most [n] operations. *)
Definition server_call {A} (n : nat) (m : M RowDecryptor Proxy.Error A) : Prop :=
  ∀ s r s', decryptor_ok s → m s = (r, s') → decryptor_ok s' ∧ moved_by good n (rd_portals s) (rd_portals s').

Lemma server_bind {A B} n m (f : M RowDecryptor Proxy.Error A) (g : A → M RowDecryptor Proxy.Error B) :
  server_call n f → (∀ a, server_call m (g a)) → server_call (n + m) (f ≫= g).
Proof using Type.
  intros Hf Hg s r s' Hs. unfold mbind, M_bind. destruct (f s) as [[a|e] s1] eqn:E; destruct (Hf _ _ _ Hs E) as [Hs1 Hm1].
  - intros E2. destruct (Hg a _ _ _ Hs1 E2) as [Hs2 Hm2]. split; [done|by eapply moved_trans].
  - intros [= _ <-]. split; [done|]. eapply moved_weaken; [|exact Hm1]. lia.
Qed.

Lemma server_quiet {A} n (f : RowDecryptor → result Proxy.Error A) : server_call n (λ s, (f s, s)).
Proof using Type. intros s r s' Hs [= _ <-]. split; [done|apply moved_refl]. Qed.

Lemma server_portals op : op_ok good op → server_call 1 (modify (upd_portals (run_op op))).
Proof using Type.
  intros Hop s r s' [] [= _ <-]. split; [|by apply moved_op]. split; cbn; try done. by apply run_op_all.
Qed.

Lemma server_described n o : (∀ x, o = Some x → good x) → server_call n (modify (upd_described o)).
Proof using Type. intros Ho s r s' [] [= _ <-]. split; [|apply moved_refl]. by split. Qed.

Lemma stale_call n fields resolved positions : server_call n (check_for_stale_mapping fields resolved positions).
Proof using Type.
  intros s r s' [] E. unfold check_for_stale_mapping in E.
  assert (decryptor_ok s' ∧ rd_portals s' = rd_portals s) as [? ->]; [|split; [done|apply moved_refl]].
  destruct (find_uncovered _ _ false _); [destruct (bool_decide _)|]; [by injection E as _ <-|..];
    (destruct (find_uncovered _ _ true _); [|by injection E as _ <-]); [by injection E as _ <-|].
  destruct (bool_decide _); by injection E as _ <-.
Qed.

(** The positions a row is read with are sound. *)
Lemma positions_call s r s' :
  decryptor_ok s → positions_for_row s = (r, s') →
  decryptor_ok s' ∧ moved_by good 1 (rd_portals s) (rd_portals s') ∧ ∀ d formats, r = Ok (d, formats) → good d.
Proof using Type.
  intros Hs. unfold positions_for_row. destruct (row_source (rd_portals s)) as [d formats| |] eqn:Er.
  - assert (good d) as Hd.
    { pose proof (ta_pending _ _ (dk_portals _ Hs)) as Hq. unfold row_source in Er.
      destruct (t_pending (rd_portals s)) as [|[|i st [x|] f|] rest]; try done.
      injection Er as <- _. by apply Forall_cons in Hq as [Hq _]. }
    unfold current, current_with. destruct (_ =? _)%Z.
    + intros [= <- <-]. split; [done|]. split; [apply moved_refl|]. by intros ?? [= <- _].
    + intros [= <- <-].
      assert (good (rederive d (cx_resolved (rd_ctx s)))) as Hr by (by apply rederive_good; [apply dk_resolved|]).
      destruct (server_portals (ORederived (rederive d (cx_resolved (rd_ctx s)))) Hr s (Ok tt) _ Hs eq_refl) as [Hs' Hm].
      split; [exact Hs'|]. split; [exact Hm|]. by intros ?? [= <- _].
  - destruct (rd_described s) as [d|] eqn:Ed; intros [= <- <-]; (split; [done|]; split; [apply moved_refl|]); [|done].
    intros ?? [= <- _]. by apply (dk_described _ Hs).
  - intros [= <- <-]. split; [done|]. by split; [apply moved_refl|].
Qed.

Lemma transforms_call {A} n (m : M PState Proxy.Error A) : keeps_caches m → server_call n (on_transforms m).
Proof using Type.
  intros Hm s r s' [Hc Hp Hd Hr]. unfold on_transforms. specialize (Hm (rd_transforms s) Hc).
  destruct (m (rd_transforms s)) as [r1 t]. intros [= _ <-]. split; [by split|apply moved_refl].
Qed.

(** The frames the read path looks at. *)
Lemma server_dispatch {A} ty (t n d c z v o : A) :
  match ty with
  | "T"%byte => t | "n"%byte => n | "D"%byte => d | "C"%byte | "I"%byte | "s"%byte | "E"%byte => c
  | "Z"%byte => z | "V"%byte => v | _ => o
  end =
  if bool_decide (ty = "T"%byte) then t else if bool_decide (ty = "n"%byte) then n
  else if bool_decide (ty = "D"%byte) then d
  else if bool_decide (ty ∈ ["C"%byte; "I"%byte; "s"%byte; "E"%byte]) then c
  else if bool_decide (ty = "Z"%byte) then z else if bool_decide (ty = "V"%byte) then v else o.
Proof using Type. by destruct ty. Qed.

Lemma settle_call op : op_ok good op →
  server_call 1 (_ ← modify (upd_portals (run_op op)); _ ← modify (upd_described None); mret (None : option bytes)).
Proof using Type.
  intros Hop. apply (server_bind 1 0); [by apply server_portals|intros _].
  apply (server_bind 0 0); [by apply server_described|intros _]. apply (server_quiet 0 (λ _, Ok None)).
Qed.

Lemma row_call body : server_call 1 (inspect ks "D"%byte body).
Proof using All.
  intros s r s' Hs. cbn [inspect]. unfold mbind at 1, M_bind at 1. destruct (positions_for_row s) as [r1 s1] eqn:E1.
  destruct (positions_call _ _ _ Hs E1) as (Hs1 & Hm1 & Hg). destruct r1 as [[d formats]|e]; [|by intros [= _ <-]].
  specialize (Hg d formats eq_refl). case_bool_decide; [by intros [= _ <-]|]. intros E2.
  destruct (transforms_call 0 (decrypt_row ks (d_columns d) formats body
    {| max_value := cx_max_protected_value_len (rd_ctx s1); Rows.max_body := MAX_MESSAGE_LEN - 4 |})
    (row_keeps _ _ _ _ (good_wired _ _ Hg)) s1 r s' Hs1 E2) as [Hs2 Hm2].
  split; [done|]. exact (moved_trans _ 1 0 _ _ _ Hm1 Hm2).
Qed.

Lemma inspect_call ty body : server_call 1 (inspect ks ty body).
Proof using All.
  destruct (decide (ty = "D"%byte)) as [->|Hd]; [apply row_call|]. unfold inspect. rewrite server_dispatch.
  rewrite (bool_decide_false (ty = "D"%byte)) by done. repeat case_match.
  - apply (server_bind 0 1); [apply (server_quiet 0 (λ _, map_err Proxy.Pgwire (parse_row_description body)))|].
    intros fields s r s' Hs. unfold mbind at 1, M_bind at 1, gets.
    assert (∀ x, good x → server_call 1 (_ ← check_for_stale_mapping fields (cx_resolved (rd_ctx s)) x;
      _ ← modify (upd_portals (describe_answered x)); _ ← modify (upd_described (Some x)); mret (None : option bytes))) as Hc.
    { intros x Hx. apply (server_bind 0 1); [apply stale_call|intros _].
      apply (server_bind 1 0); [by apply (server_portals (ODescribeAnswered x))|intros _].
      apply (server_bind 0 0); [apply server_described; by intros ? [= <-]|intros _]. apply (server_quiet 0 (λ _, Ok None)). }
    apply Hc; [|done]. apply described_new_good, (dk_resolved _ Hs).
  - apply (settle_call (ODescribeAnswered described_default)). split; constructor.
  - by apply (settle_call OExecuteAnswered).
  - by apply (settle_call OBatchAnswered).
  - intros s r s' Hs E. unfold function_call_result in E.
    destruct (bool_decide (cx_on_unprotected (rd_ctx s) = Reject)); injection E as _ <-.
    + split; [done|apply moved_refl].
    + split; [by destruct Hs|apply moved_refl].
  - apply (server_quiet 1 (λ _, Ok None)).
Qed.

Lemma server_frame_call ty body : server_call 1 (on_frame ks ty body).
Proof using All.
  intros s r s' Hs. unfold on_frame. destruct (inspect ks ty body s) as [[[b|]|e] s1] eqn:E;
    apply (inspect_call ty body _ _ _ Hs) in E; [by intros [= _ <-]..|]. destruct (is_refusal e); by intros [= _ <-].
Qed.

End server.

(** ** Running sessions *)

(** What the refresher and the other sessions do to the context all sessions share. *)
Inductive refreshed (pl : Places) (ctx : RowContext) : RowContext → Prop :=
  | refreshed_swap r : resolution_ok pl r → refreshed pl ctx (publish_swap r ctx).2
  | refreshed_store g : refreshed pl ctx (publish_store g ctx)
  | refreshed_request : refreshed pl ctx (request_refresh ctx).

Lemma refreshed_ok pl ctx ctx' :
  refreshed pl ctx ctx' → resolution_ok pl (cx_resolved ctx) → resolution_ok pl (cx_resolved ctx').
Proof. by intros [r [Hr Ha]|g|] Hw. Qed.

(** The context, or the caches, as others left them. *)
Definition set_context (d : RowDecryptor) (ctx : RowContext) (c : Connection) : Connection :=
  {| cn_client := cn_client c; cn_upstream := cn_upstream c; cn_state := {|
       se_rewriter := se_rewriter (cn_state c); se_decryptor := Some (upd_ctx (λ _, ctx) d);
       se_portals := se_portals (cn_state c); se_caches := se_caches (cn_state c);
       se_tx_status := se_tx_status (cn_state c); se_authenticated := se_authenticated (cn_state c) |};
     cn_shutdown := cn_shutdown c; cn_join := cn_join c |}.
Definition set_caches (caches : PState) (c : Connection) : Connection :=
  {| cn_client := cn_client c; cn_upstream := cn_upstream c; cn_state := {|
       se_rewriter := se_rewriter (cn_state c); se_decryptor := se_decryptor (cn_state c);
       se_portals := se_portals (cn_state c); se_caches := caches;
       se_tx_status := se_tx_status (cn_state c); se_authenticated := se_authenticated (cn_state c) |};
     cn_shutdown := cn_shutdown c; cn_join := cn_join c |}.

Section running.
Context `{HexCrate, AeadCrate, HmacCrate, Ff1Crate, Lowercase, SqlParserCrate}.
Context `{!AeadLaws, !HmacLaws, !Ff1Laws}.
Context (K I : bytes → option bytes) (pl : Places).
Context (catalog : WriteCatalog) (why_text : RowKeyProblem → bytes).
Context (deref : TransformPtr → bytes * DynTransform) (nonce : nat → bytes) (ks : KeySource).
Context (display : Proxy.Error → bytes).
Context (Hks : source_ok K ks) (Hi : index_ok I ks).
Context (Hw : ∀ ptr, wired_to (deref ptr).1 (deref ptr).2).

#[local] Abbreviation turn := (turn catalog why_text deref nonce ks display).
#[local] Abbreviation good := (good pl).

(** A step of the process, seen from one of its sessions: a turn of its own, a change of
    the shared context, or whatever sound state another session left the caches in. *)
Inductive step : Connection → Connection → Prop :=
  | step_turn c c' : turn c c' → step c c'
  | step_context c d ctx :
      se_decryptor (cn_state c) = Some d → refreshed pl (rd_ctx d) ctx → step c (set_context d ctx c)
  | step_caches c caches : pstate_ok K I caches → step c (set_caches caches c).

(** The caches hold only the source's keys, and every description names a position once
    and reads it as the column it belongs to, under that column's name. *)
Record state_ok (s : SessionState) : Prop := {
  sk_caches : pstate_ok K I (se_caches s);
  sk_portals : tracked_all good (se_portals s);
  sk_described d x : se_decryptor s = Some d → rd_described d = Some x → good x;
  sk_resolved d : se_decryptor s = Some d → resolution_ok pl (cx_resolved (rd_ctx d));
}.

Definition session_call (n : nat) (s s' : SessionState) : Prop :=
  state_ok s' ∧ moved_by good n (se_portals s) (se_portals s').

Lemma client_transform_call ty body s r s' :
  state_ok s → client_transform catalog why_text deref nonce ks ty body s = (r, s') → session_call 1 s s'.
Proof using All.
  intros Hs. unfold client_transform. destruct (se_rewriter s) as [q|]; [|intros [= _ <-]; split; [done|apply moved_refl]].
  destruct (on_client_frame _ _ _ _ _ _ _ _ _) as [r1 q'] eqn:E. intros [= _ <-].
  apply (client_frame_call K I good deref ks nonce Hks Hi Hw catalog why_text) in E as (Hq & Hm & _);
    [|apply (sk_caches _ Hs)].
  split; [|exact Hm]. destruct Hs as [_ Hp Hd Hr]. split; [exact Hq| |exact Hd|exact Hr].
  by eapply moved_all.
Qed.

Lemma note_call ty body s :
  state_ok s → session_call 1 s (note_backend_state ty body (note_authentication ty body s)).
Proof using Type.
  intros Hs. unfold session_call at 1. assert (state_ok (note_authentication ty body s) ∧
    se_portals (note_authentication ty body s) = se_portals s) as [Ha <-].
  { unfold note_authentication. destruct (_ && _); [|done]. by destruct Hs. }
  generalize (note_authentication ty body s) Ha. clear s Hs Ha. intros s Hs.
  assert (session_call 1 s s) as Hid by (split; [done|apply moved_refl]).
  assert (session_call 1 s (note_backend_state "G"%byte body s)) as Hg.
  { destruct Hs as [Hc Hp Hd Hr]. split; [|by apply (moved_op good OCopyInStarted)].
    split; [exact Hc| |exact Hd|exact Hr]. by apply (run_op_all good OCopyInStarted). }
  assert (session_call 1 s (note_backend_state "Z"%byte body s)) as Hz.
  { destruct body; [done|]. destruct Hs. split; [by split|apply moved_refl]. }
  destruct ty; first [exact Hid|exact Hg|exact Hz].
Qed.

Lemma upstream_transform_call ty body s r s' :
  state_ok s → upstream_transform ks ty body s = (r, s') → session_call 2 s s'.
Proof using All.
  intros Hs. unfold upstream_transform. destruct (note_call ty body s Hs) as [Hn Hm].
  revert Hn Hm. generalize (note_backend_state ty body (note_authentication ty body s)). intros s1 Hn Hm.
  destruct (se_decryptor s1) as [d|] eqn:Ed;
    [|intros [= _ <-]; split; [done|]; eapply moved_weaken; [|exact Hm]; lia].
  destruct (on_frame _ _ _ _) as [r1 d'] eqn:E. intros [= _ <-].
  apply (server_frame_call K I pl ks Hks Hi) in E as [Hd Hm2].
  - split; [|exact (moved_trans good 1 1 _ _ _ Hm Hm2)]. destruct Hd as [Hc Hp Hx Hr].
    split; [exact Hc|exact Hp|by intros ?? [= <-]; apply Hx|by intros ? [= <-]].
  - destruct Hn as [Hc Hp Hx Hr]. split; [exact Hc|exact Hp| |]; cbn; [intros x; by apply Hx|by apply Hr].
Qed.

Lemma step_call c c' : step c c' → state_ok (cn_state c) → session_call 2 (cn_state c) (cn_state c').
Proof using All.
  assert (∀ s, state_ok s → session_call 2 s s) as Hid by (intros; split; [done|apply moved_refl]).
  intros Hstep Hs. destruct Hstep as [c c' Ht|c d ctx Ed Hc|c caches Hc].
  - destruct (turn_sides _ _ _ _ _ _ _ _ Ht) as [E|[E|[-> _]]]; [| |by apply Hid];
      apply step_runs in E as [[-> _]|(ty & body & _ & r & _ & _ & E & _)]; try by apply Hid.
    + apply client_transform_call in E as [? Hm]; [|done]. split; [done|]. eapply moved_weaken; [|exact Hm]. lia.
    + by apply upstream_transform_call in E.
  - split; [|apply moved_refl]. destruct Hs as [Hk Hp Hx Hr]. split; [exact Hk|exact Hp| |]; cbn.
    + intros d' x [= <-]. exact (Hx d x Ed).
    + intros d' [= <-]. cbn. exact (refreshed_ok _ _ _ Hc (Hr d Ed)).
  - split; [|apply moved_refl]. destruct Hs. by split.
Qed.

(** *** A row *)

Lemma wire_frame_inj f g a b : fits f → fits g → wire_frame f ++ a = wire_frame g ++ b → f = g ∧ a = b.
Proof using Type.
  destruct f as [t x], g as [u y]. unfold fits, wire_frame. cbn [fst snd].
  change MAX_MESSAGE_LEN with (2 ^ 30)%Z. intros Hf Hg E. rewrite <- !app_assoc in E.
  apply app_inj_1 in E as [[= ->] E]; [|done].
  apply app_inj_1 in E as [El E]; [|by rewrite !length_be_bytes].
  apply (f_equal i32_of_be) in El. rewrite !i32_be_bytes in El by (unfold in_bits; lia).
  apply app_inj_1 in E as [-> ->]; [done|lia].
Qed.

Lemma wire_frame_body f : drop FRAME_HEADER_LEN (wire_frame f) = f.2.
Proof using Type.
  unfold wire_frame. rewrite app_assoc. apply drop_app_length'. by rewrite length_app, length_be_bytes.
Qed.

(** A DataRow that a turn passes on. *)
Lemma upstream_row body tail s rest forward back s' :
  fits ("D"%byte, body) →
  upstream_turn ks display (wire_frame ("D"%byte, body) ++ tail) s = (Next rest forward back, s') →
  rest = tail ∧ back = [] ∧ ∃ a, upstream_transform ks "D"%byte body s = (Ok a, s') ∧
    match a with
    | Relay => forward = wire_frame ("D"%byte, body)
    | Replace body' => forward = wire_frame ("D"%byte, body')
    | _ => False
    end.
Proof using Type.
  intros Hf E%relay_turn_spec. inversion E as [|ty b rest' r s1 tn Hst Hf' _ Et Hr]. subst.
  apply wire_frame_inj in Hst as [[= <- <-] <-]; [|done..].
  destruct r as [[|b'|fs|e]|e]; try done.
  - injection Hr as -> -> ->. split; [done|]. split; [done|]. by exists Relay.
  - destruct (_ <=? _)%Z; [|done]. injection Hr as -> -> ->. split; [done|]. split; [done|]. by exists (Replace b').
  - exfalso. revert Et. unfold upstream_transform. destruct (se_decryptor _); [|done]. unfold on_frame.
    destruct (inspect _ _ _ _) as [[[?|]|e] ?]; [done|done|]. by destruct (is_refusal e).
Qed.

Lemma row_transform body s d0 a s' :
  state_ok s → se_decryptor s = Some d0 → upstream_transform ks "D"%byte body s = (Ok a, s') →
  (∀ why, a ≠ RefuseAndClose why) →
  ∃ d formats d1, positions_for_row (read_shared s d0) = (Ok (d, formats), d1) ∧ good d ∧
    ∀ i column key e vs v stored hex_text env,
      (i, column, key) ∈ d_columns d → rc_transform column = Some (DynEncrypt e) →
      parse_data_row body = Ok vs → vs !! i = Some (Some v) →
      decode_wire (DynEncrypt e) v = (stored, hex_text) → stored_envelope stored = Some env →
      ∃ body' vs' p row s0 s1, a = Replace body' ∧ parse_data_row body' = Ok vs' ∧
        on_transform (rc_name column) (open (DynEncrypt e) ks stored row) s0 = (Ok (Some p), s1) ∧
        vs' !! i = Some (Some (shown column hex_text p)).
Proof using Type.
  intros Hs Ed E Ha. change (note_backend_state "D"%byte body (note_authentication "D"%byte body s)) with s in E.
  unfold upstream_transform in E. cbn [note_backend_state note_authentication] in E.
  change (note_authentication "D"%byte body s) with s in E. rewrite Ed in E.
  assert (decryptor_ok K I pl (read_shared s d0)) as Hd.
  { destruct Hs as [Hc Hp Hx Hr]. split; [exact Hc|exact Hp| |]; cbn; [intros x; by apply Hx|by apply Hr]. }
  unfold on_frame in E. cbn [inspect] in E. unfold mbind at 1, M_bind at 1 in E.
  destruct (positions_for_row (read_shared s d0)) as [[[d formats]|e] d1] eqn:Ep.
  - destruct (positions_call K I pl _ _ _ Hd Ep) as (_ & _ & Hg). exists d, formats, d1. split; [done|].
    split; [by eapply Hg|]. intros i column key e vs v stored hex_text env Hin Ht Hp Hv Hdw He.
    rewrite bool_decide_false in E by (intros En; rewrite En in Hin; by apply not_elem_of_nil in Hin).
    unfold mbind, M_bind, gets, on_transforms in E.
    destruct (decrypt_row _ _ _ _ _ _) as [[out|er] t] eqn:Er.
    2:{ cbn in E. destruct (is_refusal er); [|done]. injection E as <- _. by destruct (Ha er). }
    destruct (ciphertext_never_relayed _ _ _ _ _ _ _ _ _ _ _ _ _ _ _ _ _ Er (good_once _ _ (Hg _ _ eq_refl)) Hin Ht Hp Hv Hdw He)
      as (body' & vs' & p & row & s0 & s1 & -> & ?). cbn in E. injection E as <- _. by exists body', vs', p, row, s0, s1.
  - cbn in E. destruct (is_refusal e); [|done]. injection E as <- _. by destruct (Ha e).
Qed.

Lemma new_ok rows writes settings caches :
  pstate_ok K I caches → (∀ ctx, rows = Some ctx → resolution_ok pl (cx_resolved ctx)) →
  state_ok (session_new rows writes settings caches).
Proof using Type.
  intros Hc Hr. split; [exact Hc|apply tracked_all_default|..].
  - intros d x [ctx [-> ->]]%fmap_Some. done.
  - intros d [ctx [-> ->]]%fmap_Some. by apply Hr.
Qed.

Context (client upstream : bytes) (rows : option RowContext) (writes : bool).
Context (settings : StartupSettings) (caches : PState).
Context (Hcaches : pstate_ok K I caches) (Hrows : ∀ ctx, rows = Some ctx → resolution_ok pl (cx_resolved ctx)).

#[local] Abbreviation first := (started client upstream (session_new rows writes settings caches)).

Lemma steps_call n c : nsteps step n first c → session_call (2 * n) (cn_state first) (cn_state c).
Proof using All.
  revert c. induction n as [|n IH]; intros c; [intros Hn; inversion Hn; subst; split; [by apply new_ok|apply moved_refl]|].
  intros (c1 & Hc1 & Hs)%nsteps_inv_r. destruct (IH _ Hc1) as [Hs1 Hm1]. destruct (step_call _ _ Hs Hs1) as [Hs2 Hm2].
  split; [done|]. replace (2 * S n) with (2 * n + 2) by lia. by eapply moved_trans.
Qed.

(** C19: a running session is a sequence of portal operations. Whatever the peers send,
    however the two relays, the refresher and the other sessions interleave, after [n]
    steps the portals are what at most [2n] operations make of the empty ones, each
    recording only sound descriptions: so the bounds on what a client can make the
    proxy remember, and the attribution of rows to the statement they answer, hold of
    running sessions. *)
Theorem running_session_refines_portals n c :
  nsteps step n first c → (2 * Z.of_nat n < 2 ^ 64)%Z →
  ∃ ops, length ops ≤ 2 * n ∧ se_portals (cn_state c) = (session ops).1 ∧
    (size (t_statements (session ops).1) ≤ MAX_PREPARED_STATEMENTS ∧
     size (t_portals (session ops).1) ≤ MAX_PORTALS ∧
     length (t_pending (session ops).1) ≤ MAX_PENDING_RESPONSES) ∧
    ∀ d formats, row_source (se_portals (cn_state c)) = FromPortal d formats →
      good d ∧ ∃ i id rest,
        t_pending (session ops).1 = PExecute i (Some id) (Some d) formats :: rest ∧
        (id, d) ∈ (session ops).2.
Proof using All.
  intros Hn Hb. destruct (steps_call n c Hn) as [Hs (ops & Hl & _ & E)]. exists ops. cbn in E. split; [done|].
  assert (se_portals (cn_state c) = (session ops).1) as Ep by (by unfold session; rewrite <- E).
  pose proof (session_ok ops ltac:(lia)) as Hok. split; [done|]. split; [exact (ok_sizes _ _ _ Hok)|].
  intros d formats. rewrite Ep. pose proof (ok_pending _ _ _ Hok) as Hp.
  pose proof (ta_pending _ _ (sk_portals _ Hs)) as Hg. rewrite Ep in Hg. unfold row_source.
  destruct (t_pending (session ops).1) as [|[|i st [d'|] f|] rest]; try done. intros [= -> ->].
  apply Forall_cons in Hp as [[_ Hst] _]. apply Forall_cons in Hg as [Hg _]. split; [done|].
  destruct st as [id|]; [|done]. exists i, id, rest. split; [done|]. by apply Hst.
Qed.

(** Throughout a session every cached key is the one the key source answers for its
    name, and every description in use (recorded for a statement, queued for an Execute,
    or the last one seen) names a position once and reads it as the column some resolution
    put at the table and attribute the server gave for it, under that column's name; whatever was sent, refused or failed on the way. *)
Theorem session_stays_sound c : rtc step first c → state_ok (cn_state c).
Proof using All. intros [n Hn]%rtc_nsteps. by apply (steps_call n). Qed.

(** C3: ciphertext is never handed to the client. When a running session passes a
    DataRow on, whatever happened before, what it writes is one DataRow, and at every
    position of an encrypted column, of the description the row is read with, that holds
    an envelope (with or without its blind index, in hex text or raw) the envelope was
    opened and authenticated by that column's own transform, and the client gets the
    plaintext there, masked when the column has a mask. The column is the one that some
    resolution of the run put at the table and attribute the server described the position
    with. *)
Theorem session_shows_plaintext c d0 body tail rest forward back s' :
  rtc step first c → se_decryptor (cn_state c) = Some d0 → fits ("D"%byte, body) →
  upstream_turn ks display (wire_frame ("D"%byte, body) ++ tail) (cn_state c) = (Next rest forward back, s') →
  rest = tail ∧ back = [] ∧ ∃ body' d formats d1,
    forward = wire_frame ("D"%byte, body') ∧
    positions_for_row (read_shared (cn_state c) d0) = (Ok (d, formats), d1) ∧
    ∀ i column key e vs v stored hex_text env,
      (i, column, key) ∈ d_columns d → rc_transform column = Some (DynEncrypt e) →
      parse_data_row body = Ok vs → vs !! i = Some (Some v) →
      decode_wire (DynEncrypt e) v = (stored, hex_text) → stored_envelope stored = Some env →
      wired_to (rc_name column) (DynEncrypt e) ∧ placed pl (d_fields d) (i, column, key) ∧
      ∃ vs' p row s0 s1, parse_data_row body' = Ok vs' ∧
        on_transform (rc_name column) (open (DynEncrypt e) ks stored row) s0 = (Ok (Some p), s1) ∧
        vs' !! i = Some (Some (shown column hex_text p)).
Proof using All.
  intros [n Hn]%rtc_nsteps Ed Hf E. destruct (steps_call n c Hn) as [Hs _]. apply upstream_row in E as (-> & -> & r & Et & Hr);
    [|done]. split; [done|]. split; [done|].
  destruct (row_transform body (cn_state c) d0 r s' Hs Ed Et ltac:(by intros ? ->)) as (d & formats & d1 & Ep & Hg & Hrow).
  destruct r as [|body'| |]; try done.
  - exists body, d, formats, d1. split_and!; [done..|]. intros. by edestruct Hrow as (? & ? & ? & ? & ? & ? & ? & ? & ?).
  - exists body', d, formats, d1. split_and!; [done..|]. intros i column key e vs v stored hex_text env Hin Ht Hp Hv Hd He.
    split; [by apply (proj1 (Forall_forall _ _) (good_wired _ _ Hg) _ Hin)|].
    split; [exact (proj1 (Forall_forall _ _) (good_placed _ _ Hg) _ Hin)|].
    edestruct Hrow as (b & vs' & p & row & s0 & s1 & [= <-] & ?); [done..|]. by exists vs', p, row, s0, s1.
Qed.

End running.

(** ** A session that reads *)

Module SessionInvExample.
Export SessionExample.
Import Toy.

Definition users_ctx : RowContext := context_new users Reject 400.
(** The one place there is: the third attribute of the table. *)
Definition users_places : Places := λ k c, rs_columns users !! k = Some c.
Definition asked : bytes := wire_frames
  [("P"%byte, b#"s" ++ [x00] ++ b#"SELECT 1" ++ [x00; x00; x00]); ("D"%byte, b#"Ss" ++ [x00]);
   ("B"%byte, [x00] ++ b#"s" ++ [x00; x00; x00; x00; x00; x00; x00]); ("E"%byte, [x00; x00; x00; x00; x00])].
Definition told : bytes := wire_frame ("T"%byte, description_body).
Definition row_frame : bytes := wire_frame ("D"%byte, row_body).

Definition reader : Connection := started asked (told ++ row_frame) (session_new (Some users_ctx) true startup_default cold).

#[local] Abbreviation goes := (@SessionInv.step hex aead hmac ff1 ascii_lowercase sqlparser ring index_ring users_places empty_catalog
  why heap nonces source1 quiet).

(** The next turn of either side. *)
Definition client_goes (c : Connection) : Connection :=
  let '(t, s) := @client_turn hex aead hmac ff1 ascii_lowercase sqlparser empty_catalog why heap nonces source1 quiet
    (si_stream (cn_client c)) (cn_state c) in
  let '(r, p) := after_turn t (cn_client c) (cn_upstream c) in
  with_sides r p s (relay_went true (turn_outcome t (cn_client c) (cn_upstream c)) (cn_join c)) c.
Definition upstream_goes (c : Connection) : Connection :=
  let '(t, s) := @upstream_turn hex aead hmac ff1 ascii_lowercase source1 quiet
    (si_stream (cn_upstream c)) (cn_state c) in
  let '(r, p) := after_turn t (cn_upstream c) (cn_client c) in
  with_sides p r s (relay_went false (turn_outcome t (cn_upstream c) (cn_client c)) (cn_join c)) c.

Lemma client_went c : si_running (cn_client c) = true → live c → goes c (client_goes c).
Proof.
  intros Hr Hl. apply step_turn. unfold client_goes. destruct (client_turn _ _ _ _ _ _ _ _) as [t s] eqn:E.
  destruct (after_turn t _ _) as [r p] eqn:Ea. exact (client_runs _ _ _ _ _ _ c t s r p Hl Hr E Ea).
Qed.
Lemma upstream_went c : si_running (cn_upstream c) = true → live c → goes c (upstream_goes c).
Proof.
  intros Hr Hl. apply step_turn. unfold upstream_goes. destruct (upstream_turn _ _ _ _) as [t s] eqn:E.
  destruct (after_turn t _ _) as [r p] eqn:Ea. exact (upstream_runs _ _ _ _ _ _ c t s r p Hl Hr E Ea).
Qed.

(** The client prepares, describes, binds and executes; the server describes the rows. *)
Definition asked_all : Connection := client_goes (client_goes (client_goes (client_goes reader))).
Definition described : Connection := upstream_goes asked_all.

Lemma described_reached : nsteps goes 5 reader described.
Proof.
  apply (nsteps_l _ _ _ (client_goes reader)); [apply client_went; vm_compute; [reflexivity|exact Logic.I]|].
  apply (nsteps_l _ _ _ (client_goes (client_goes reader))); [apply client_went; vm_compute; [reflexivity|exact Logic.I]|].
  apply (nsteps_l _ _ _ (client_goes (client_goes (client_goes reader)))); [apply client_went; vm_compute; [reflexivity|exact Logic.I]|].
  apply (nsteps_l _ _ _ asked_all); [apply client_went; vm_compute; [reflexivity|exact Logic.I]|].
  apply (nsteps_l _ _ _ described); [apply upstream_went; vm_compute; [reflexivity|exact Logic.I]|]. constructor.
Qed.

Lemma ssn_wired : wired_to name_ssn (DynEncrypt e_ssn).
Proof. split; [reflexivity|by right]. Qed.

Lemma users_wired ctx : Some users_ctx = Some ctx → resolution_ok users_places (cx_resolved ctx).
Proof.
  intros [= <-]. split; [|done]. intros k c. cbn. intros [_ <-]%lookup_singleton_Some t [= <-]. apply ssn_wired.
Qed.

Definition the_positions : Described := described_new users id_ssn.

Lemma running_session_refines_portals_witness :
  row_source (se_portals (cn_state described)) = FromPortal the_positions (Some []) ∧
  ∃ ops, length ops ≤ 10 ∧ se_portals (cn_state described) = (Portal.session ops).1 ∧
    size (t_statements (Portal.session ops).1) ≤ MAX_PREPARED_STATEMENTS ∧
    ∃ i id rest, t_pending (Portal.session ops).1 = PExecute i (Some id) (Some the_positions) (Some []) :: rest ∧
      (id, the_positions) ∈ (Portal.session ops).2.
Proof.
  assert (row_source (se_portals (cn_state described)) = FromPortal the_positions (Some [])) as Hr
    by (vm_compute; reflexivity).
  split; [exact Hr|].
  destruct (running_session_refines_portals ring index_ring users_places empty_catalog why heap nonces source1 quiet
    source1_ok source1_index (λ _, ssn_wired) asked (told ++ row_frame) (Some users_ctx) true startup_default cold
    cold_ok users_wired 5 described described_reached eq_refl) as (ops & Hl & Hp & (Hs & _) & Ha).
  exists ops. split; [exact Hl|]. split; [exact Hp|]. split; [exact Hs|]. apply (Ha _ _ Hr).
Defined.


Lemma session_stays_sound_witness : pstate_ok ring index_ring (se_caches (cn_state described)).
Proof.
  apply (sk_caches ring index_ring users_places (cn_state described)).
  apply (session_stays_sound ring index_ring users_places empty_catalog why heap nonces source1 quiet
    source1_ok source1_index (λ _, ssn_wired) asked (told ++ row_frame) (Some users_ctx) true startup_default cold
    cold_ok users_wired described). apply rtc_nsteps. exists 5. apply described_reached.
Defined.

Definition read_side : RowDecryptor :=
  match se_decryptor (cn_state described) with Some d => d | None => RowsExample.session end.
Definition shown_row : bytes := wire_frame ("D"%byte, row_body').

Lemma session_shows_plaintext_witness :
  placed users_places id_ssn (1, col_ssn, Slot 0 23) ∧
  ∃ vs' p, parse_data_row row_body' = Ok vs' ∧ vs' !! 1 = Some (Some (hex_text_form p)).
Proof.
  assert (se_decryptor (cn_state described) = Some read_side) as Hd.
  { assert (match se_decryptor (cn_state described) with Some _ => true | None => false end = true) as Hn
      by (vm_compute; reflexivity).
    unfold read_side. by destruct (se_decryptor (cn_state described)). }
  destruct (session_shows_plaintext ring index_ring users_places empty_catalog why heap nonces source1 quiet
    source1_ok source1_index (λ _, ssn_wired) asked (told ++ row_frame) (Some users_ctx) true startup_default cold
    cold_ok users_wired described read_side row_body [] [] shown_row []
    (@upstream_turn hex aead hmac ff1 ascii_lowercase source1 quiet (row_frame ++ []) (cn_state described)).2)
    as (_ & _ & body' & d & formats & d1 & Hf & Hp & Hall).
  - apply rtc_nsteps. exists 5. apply described_reached.
  - exact Hd.
  - vm_compute. discriminate.
  - apply with_state. vm_compute. reflexivity.
  - assert ((positions_for_row (read_shared (cn_state described) read_side)).1 = Ok (the_positions, Some [])) as Hq
      by (vm_compute; reflexivity).
    rewrite Hp in Hq. injection Hq as -> _.
    assert (body' = row_body') as ->. { apply (f_equal (drop FRAME_HEADER_LEN)) in Hf. unfold shown_row in Hf. by rewrite !wire_frame_body in Hf. }
    destruct (Hall 1 col_ssn (Slot 0 23) e_ssn row (hex_text_form cell) cell true (drop 32 cell))
      as (_ & Hpl & vs' & p & _ & _ & _ & Hv & _ & Hi).
    + vm_compute. left.
    + reflexivity.
    + vm_compute. reflexivity.
    + reflexivity.
    + vm_compute. reflexivity.
    + vm_compute. reflexivity.
    + split; [exact Hpl|]. exists vs', p. split; [exact Hv|exact Hi].
Defined.

End SessionInvExample.
