(* ===== verification/Served.v ===== *)
(** * A served session

    From a configuration to running sessions: what [serve] wires and the refresher
    publishes meets what the theorems on sessions ask for, so a session of a served
    configuration stays sound whatever it is sent. *)

From S2P Require Import Prelude Sql Utf8 IntText Crates Pgwire Errors Envelope RowKeys Fields Transform.
From S2P Require Import Policy Keys Portal Rows RowsSpec Catalog Rewrite Frame FrameSpec Session SessionSpec.
From S2P Require Import Resolve ResolveSpec Config ConfigSpec Vault Process Serve ServeSpec SessionInv.

(** The transform a pointer of the catalog stands for: the column's, by its number. *)
Definition transform_at (columns : list ProtectedColumn) (ptr : TransformPtr) : bytes * DynTransform :=
  match columns !! ptr ≫= λ c, pair (pc_name c) <$> pc_transform c with
  | Some t => t
  | None => ([], DynToken {| token_key_name := [] |})
  end.

Lemma build_elem_wired p c t : c ∈ build p → pc_transform c = Some t → wired_to (pc_name c) t.
Proof. intros (cp & -> & _)%list_elem_of_fmap Ht. rewrite pc_name_build. by eapply build_wired. Qed.

Lemma transform_at_wired p ptr : wired_to (transform_at (build p) ptr).1 (transform_at (build p) ptr).2.
Proof.
  unfold transform_at. destruct (build p !! ptr) as [c|] eqn:E; [|done]. cbn.
  destruct (pc_transform c) as [t|] eqn:Et; [|done]. cbn. eapply build_elem_wired; [|done].
  by eapply list_elem_of_lookup_2.
Qed.

Section served.
Context `{Lowercase}.
Context (parse_hosts : bytes → option (list Host * list nat)).

Lemma read_column_wired p c read : c ∈ build p → read_column c = Some read → column_wired read.
Proof.
  intros Hc. unfold read_column. destruct (_ && _); [done|]. intros [= <-] t. cbn.
  destruct (pc_readable c); [|done]. by eapply build_elem_wired.
Qed.

Lemma resolve_each_wired p lookup dsn n columns r r' :
  (∀ c, c ∈ columns → c ∈ build p) → resolution_wired r →
  resolve_each parse_hosts lookup dsn n columns r = Ok r' → resolution_wired r'.
Proof.
  revert n r. induction columns as [|c columns IH]; intros n r Hc Hr; cbn [resolve_each]; [by intros [= <-]|].
  intros ([[oid att] ty] & _ & E)%bind_Ok_inv. eapply IH; [by intros; apply Hc; right| |exact E].
  intros k read. cbn. destruct (read_column c) as [x|] eqn:Ex; [|apply Hr].
  intros [[_ <-]|[_ Hk]]%lookup_insert_Some; [|by eapply Hr]. eapply read_column_wired; [|done]. apply Hc. by left.
Qed.

Lemma resolve_row_keys_wired lookup dsn n keys r r' :
  resolution_wired r → resolve_row_keys parse_hosts lookup dsn n keys r = Ok r' → resolution_wired r'.
Proof.
  revert n r. induction keys as [|d keys IH]; intros n r Hr; cbn [resolve_row_keys]; [by intros [= <-]|].
  intros ([[oid att] ty] & _ & E)%bind_Ok_inv. destruct (negb (supported ty)); [done|].
  eapply IH; [|exact E]. exact Hr.
Qed.

(** Whatever the database answers, what is resolved opens a column only under its name. *)
Lemma resolve_columns_wired p lookup dsn connected keys r :
  resolve_columns parse_hosts lookup dsn connected (build p) keys = Ok r → resolution_wired r.
Proof.
  unfold resolve_columns. intros ([] & _ & E)%bind_Ok_inv. apply bind_Ok_inv in E as (r1 & E1 & E2).
  eapply resolve_row_keys_wired; [|exact E2]. eapply resolve_each_wired; [| |exact E1]; [done|].
  intros k c. cbn. by rewrite lookup_empty.
Qed.

Lemma wire_session_wired lookup tls key_source connected v ctx cat :
  wire_session parse_hosts lookup tls key_source connected v = Ok (Some (ctx, cat)) →
  resolution_wired (cx_resolved ctx).
Proof.
  unfold wire_session. intros ([] & _ & E)%bind_Ok_inv. destruct (vcf_protected v) as [p|]; [|done].
  apply bind_Ok_inv in E as ([] & _ & E). apply bind_Ok_inv in E as (r & Hr & [= <- _]).
  by apply resolve_columns_wired in Hr.
Qed.

Context `{HexCrate, AeadCrate, HmacCrate, Ff1Crate, SqlParserCrate}.
Context `{!AeadLaws, !HmacLaws, !Ff1Laws}.
Context (K I : bytes → option bytes) (pl : Places) (why_text : RowKeyProblem → bytes) (nonce : nat → bytes) (ks : KeySource).
Context (display : Proxy.Error → bytes) (Hks : source_ok K ks) (Hi : index_ok I ks).
Context (v : ValidatedConfig) (catalog : WriteCatalog) (dsn : bytes).

#[local] Abbreviation policy := (config_policy (vcf_config v)).
#[local] Abbreviation deref := (transform_at (build policy)).

(** What happens to a session of the process: a turn, a pass of the refresher, whatever
    the database then answers, a refresh asked for by any session, and the caches as the
    other sessions left them. *)
Inductive served_step : Connection → Connection → Prop :=
  | served_turn c c' : turn catalog why_text deref nonce ks display c c' → served_step c c'
  | served_refresh c d lookup connected :
      se_decryptor (cn_state c) = Some d →
      (∀ r, resolve_columns parse_hosts lookup dsn connected (build policy) (row_keys policy) = Ok r →
        ∀ k column, rs_columns r !! k = Some column → pl k column) →
      served_step c (set_context d
        (refresh parse_hosts lookup dsn connected (build policy) (row_keys policy) (rd_ctx d)) c)
  | served_request c d :
      se_decryptor (cn_state c) = Some d → served_step c (set_context d (request_refresh (rd_ctx d)) c)
  | served_caches c caches : pstate_ok K I caches → served_step c (set_caches caches c).

#[local] Abbreviation step := (step K I pl catalog why_text deref nonce ks display).

Lemma served_steps c c' : served_step c c' → rtc step c c'.
Proof using Type.
  intros [c1 c2 Ht|c1 d lookup connected Hd HA|c1 d Hd|c1 caches Hc].
  - by apply rtc_once, step_turn.
  - unfold refresh. destruct (resolve_columns _ _ _ _ _ _) as [r|] eqn:Er.
    + specialize (HA r eq_refl). apply resolve_columns_wired in Er. unfold publish.
      destruct (publish_swap r (rd_ctx d)) as [g ctx] eqn:Ep.
      assert (ctx = (publish_swap r (rd_ctx d)).2) as Ec by by rewrite Ep.
      eapply rtc_l; [apply (step_context K I pl catalog why_text deref nonce ks display c1 d ctx Hd)|].
      { rewrite Ec. by apply refreshed_swap. }
      apply rtc_once. exact (step_context K I pl catalog why_text deref nonce ks display (set_context d ctx c1)
        (upd_ctx (λ _, ctx) d) (publish_store g ctx) eq_refl (refreshed_store _ _ g)).
    + destruct c1 as [cl up s]. cbn in Hd. unfold set_context. cbn. destruct d, s. cbn in *. subst. apply rtc_refl.
  - apply rtc_once. apply step_context; [done|apply refreshed_request].
  - by apply rtc_once, step_caches.
Qed.

(** A served session stays sound. From a configuration that was served, whatever the
    two peers send, whatever the refresher finds in the catalog, whatever the other
    sessions do: every cached key is the one the key source answers for its name, and
    every description in use names a position once and reads it as the column that was
    resolved to its place, under that column's name. *)
Theorem served_session_stays_sound lookup tls key_source connected ctx client upstream settings caches c :
  wire_session parse_hosts lookup tls key_source connected v = Ok (Some (ctx, catalog)) →
  (∀ k column, rs_columns (cx_resolved ctx) !! k = Some column → pl k column) → pstate_ok K I caches →
  rtc served_step (started client upstream (session_new (Some ctx) true settings caches)) c →
  state_ok K I pl (cn_state c).
Proof using All.
  intros Hwire%wire_session_wired HA Hc Hsteps. pose proof (Build_resolution_ok pl _ Hwire HA) as Hok.
  apply (session_stays_sound K I pl catalog why_text deref nonce ks display Hks Hi (transform_at_wired policy)
    client upstream (Some ctx) true settings caches Hc (λ x (E : Some ctx = Some x), match E with eq_refl => Hok end) c).
  induction Hsteps as [c|c1 c2 c3 Hs _ IH]; [done|]. etrans; [by apply served_steps|done].
Qed.

End served.

(** ** An example: a session over which the mapping is refreshed *)

Module ServedExample.
Import SessionInvExample Toy.

Definition ctx0 : RowContext := match ServeExample.wired with Ok (Some (ctx, _)) => ctx | _ => users_ctx end.
Definition catalog0 : WriteCatalog := match ServeExample.wired with Ok (Some (_, cat)) => cat | _ => empty_catalog end.

Lemma wired_Ok : ServeExample.wired = Ok (Some (ctx0, catalog0)).
Proof.
  assert (match ServeExample.wired with Ok (Some _) => true | _ => false end = true) as Hw by (vm_compute; reflexivity).
  unfold ctx0, catalog0. by destruct ServeExample.wired as [[[ctx cat]|]|].
Qed.

Definition opened0 : Connection := started asked (told ++ row_frame) (session_new (Some ctx0) true startup_default cold).
Definition side0 : RowDecryptor := decryptor ctx0 tracked_default cold.

(** The table moved: its new place is published while the session runs. *)
Definition moved (n : nat) (s t c : bytes) : Answer := Row (Some (20000, 3, 23)%Z).
Definition remapped : Connection := set_context side0
  (@refresh ascii_lowercase (λ _, None) moved b#"host=db" (Ok tt)
    (build (config_policy (vcf_config ServeExample.validated_config)))
    (row_keys (config_policy (vcf_config ServeExample.validated_config))) ctx0) opened0.

(** Both places: the column was at one, and is at the other. *)
Definition anywhere : Places := λ k _, k ∈ [(16384, 2); (20000, 3)]%Z.

Lemma known_anywhere r :
  forallb (λ k, bool_decide (k ∈ [(16384, 2); (20000, 3)]%Z)) (map_to_list (rs_columns r)).*1 = true →
  ∀ k c, rs_columns r !! k = Some c → anywhere k c.
Proof.
  intros Hf k c Hk%elem_of_map_to_list%(list_elem_of_fmap_2 fst). rewrite forallb_forall in Hf.
  apply (bool_decide_eq_true_1 _ (Hf k (proj1 (list_elem_of_In _ _) Hk))).
Qed.

Lemma resolved_there r :
  resolve_columns (H := ascii_lowercase) (λ _, None) moved b#"host=db" (Ok tt)
    (build (config_policy (vcf_config ServeExample.validated_config)))
    (row_keys (config_policy (vcf_config ServeExample.validated_config))) = Ok r →
  forallb (λ k, bool_decide (k ∈ [(16384, 2); (20000, 3)]%Z)) (map_to_list (rs_columns r)).*1 = true.
Proof. intros E. vm_compute in E. injection E as <-. vm_compute. reflexivity. Qed.

Lemma served_session_stays_sound_witness :
  state_ok ring index_ring anywhere (cn_state remapped) ∧
  match se_decryptor (cn_state remapped) with Some d => cx_generation (rd_ctx d) | None => 0%Z end = 1%Z.
Proof.
  split; [|vm_compute; reflexivity].
  apply (@served_session_stays_sound ascii_lowercase (λ _, None) hex aead hmac ff1 sqlparser aead_laws hmac_laws ff1_laws
    ring index_ring anywhere why nonces source1 quiet source1_ok source1_index ServeExample.validated_config catalog0 b#"host=db"
    (λ _ s t c, Row (ResolveExample.catalog s t c)) (Ok tt) (Ok tt) (Ok tt) ctx0 asked (told ++ row_frame)
    startup_default cold remapped wired_Ok (known_anywhere (cx_resolved ctx0) ltac:(vm_compute; reflexivity)) cold_ok).
  apply rtc_once.
  exact (@served_refresh ascii_lowercase (λ _, None) hex aead hmac ff1 sqlparser ring index_ring anywhere why nonces source1 quiet
    ServeExample.validated_config catalog0 b#"host=db" opened0 side0 moved (Ok tt) eq_refl
    (λ r E, known_anywhere r (resolved_there r E))).
Defined.

End ServedExample.
