(* ===== verification/Tls.v ===== *)
(** * TLS set-up ([crates/proxy/src/tls.rs])

    The process-wide crypto provider, the acceptor for clients and the connector for the
    server, from the configuration; and what they make of a session's two hops. [rustls]
    is a parameter: its errors are the texts they print, and a handshake turns a raw
    stream into the plaintext behind it. *)

From S2P Require Import Prelude Utf8 IntText Crates Pgwire Errors Envelope RowKeys Fields Transform.
From S2P Require Import Policy Keys Settings Unprotected Portal Rows Config ConfigSpec Catalog Rewrite Frame Session SessionSpec.

(** ** The crate *)

Class Rustls := {
  Certificate : Type;
  PrivateKey : Type;
  RootStore : Type;
  ServerConfig : Type;
  ClientConfig : Type;
  ServerName : Type;
  Provider : Type;
  (** The process-wide default. *)
  Global : Type;
  pem_file_iter : bytes → result bytes (list (result bytes Certificate));
  key_from_pem_file : bytes → result bytes PrivateKey;
  with_single_cert : list Certificate → PrivateKey → result bytes ServerConfig;
  roots_empty : RootStore;
  roots_add : Certificate → RootStore → result bytes RootStore;
  with_root_certificates : RootStore → ClientConfig;
  server_name : bytes → option ServerName;
  default_provider : Provider;
  cipher_suites : Provider → list bytes;
  kx_groups : Provider → list bytes;
  install_default : Provider → Global → result () () * Global;
  get_default : Global → option Provider;
  (** The handshakes of an acceptor and of a connector, over a raw stream. *)
  tls_accept : ServerConfig → bytes → result Proxy.Error bytes;
  tls_connect : ClientConfig → ServerName → bytes → result Proxy.Error bytes;
}.

(** The default is installed once. *)
Class RustlsLaws `{Rustls} := {
  install_ok p g g' : install_default p g = (Ok tt, g') → get_default g' = Some p;
  install_err p g e g' : install_default p g = (Err e, g') → g' = g;
}.

Section tls.
Context `{Rustls}.
(** The [Debug] of a list of names. *)
Context (debug_list : list bytes → bytes).

(** ** The crypto provider *)

Record ProviderPolicy := { pp_suites : list bytes; pp_kx_groups : list bytes }.

#[export] Instance provider_policy_eq_dec : EqDecision ProviderPolicy.
Proof. solve_decision. Defined.

Definition policy_of (provider : Provider) : ProviderPolicy :=
  {| pp_suites := cipher_suites provider; pp_kx_groups := kx_groups provider |}.

Definition policy_display (p : ProviderPolicy) : bytes :=
  b#"cipher suites " ++ debug_list (pp_suites p) ++ b#", key exchange groups " ++ debug_list (pp_kx_groups p).

Definition check_installed (in_force : Provider) (intended : ProviderPolicy) : result bytes () :=
  let in_force := policy_of in_force in
  if bool_decide (in_force = intended) then Ok tt
  else Err (b#"a foreign rustls crypto provider is already installed process-wide: in force "
            ++ policy_display in_force ++ b#"; intended (aws-lc-rs) " ++ policy_display intended).

(** The process: the default provider, and the [OnceLock] with the outcome of installing
    ours. *)
Record TlsProcess := { tp_global : Global; tp_outcome : option (result bytes ()) }.

Definition install_once (g : Global) : result bytes () * Global :=
  let intended := default_provider in
  match install_default intended g with
  | (Ok _, g) => (Ok tt, g)
  | (Err _, g) =>
      (match get_default g with
       | Some in_force => check_installed in_force (policy_of intended)
       | None => Err b#"rustls refused the crypto provider install but reports no default provider in force"
       end, g)
  end.

Definition install_crypto_provider : M TlsProcess Proxy.Error () := λ s,
  let '(outcome, s) :=
    match tp_outcome s with
    | Some outcome => (outcome, s)
    | None =>
        let '(outcome, g) := install_once (tp_global s) in
        (outcome, {| tp_global := g; tp_outcome := Some outcome |})
    end in
  (map_err Proxy.TlsConfig outcome, s).

(** ** The contexts *)

(** [str::rsplit_once(':')]. *)
Definition rsplit_colon (s : bytes) : option (bytes * bytes) :=
  (λ i, (take i s, drop (S i) s)) <$> rfind_byte (λ b, bool_decide (b = ":"%byte)) s.

Definition upstream_host (addr : bytes) : bytes :=
  match strip_prefix b#"[" addr with
  | Some rest => match split_once_at b#"]" rest with Some (host, _) => host | None => rest end
  | None =>
      match rsplit_colon addr with
      | Some (host, port) => if forallb is_ascii_digit port then host else addr
      | None => addr
      end
  end.

(** [collect] into a [Result]: the first error, or all of them. *)
Fixpoint collect {E A} (l : list (result E A)) : result E (list A) :=
  match l with
  | [] => Ok []
  | r :: l => a ← r; l ← collect l; Ok (a :: l)
  end.

Definition load_certs (path : bytes) : result Proxy.Error (list Certificate) :=
  iter ← map_err (λ e, Proxy.TlsConfig (b#"opening " ++ path ++ b#": " ++ e)) (pem_file_iter path);
  certs ← map_err (λ e, Proxy.TlsConfig (b#"reading " ++ path ++ b#": " ++ e)) (collect iter);
  match certs with
  | [] => Err (Proxy.TlsConfig (path ++ b#" contains no certificates"))
  | _ => Ok certs
  end.

Definition load_key (path : bytes) : result Proxy.Error PrivateKey :=
  map_err (λ e, Proxy.TlsConfig (b#"reading " ++ path ++ b#": " ++ e)) (key_from_pem_file path).

Fixpoint add_roots (ca : bytes) (roots : RootStore) (certs : list Certificate) : result Proxy.Error RootStore :=
  match certs with
  | [] => Ok roots
  | cert :: certs =>
      roots ← map_err (λ e, Proxy.TlsConfig (b#"upstream ca " ++ ca ++ b#": " ++ e)) (roots_add cert roots);
      add_roots ca roots certs
  end.

Record TlsContext := {
  tc_acceptor : option ServerConfig;
  tc_connector : option (ClientConfig * ServerName);
  tc_upstream_client : option ClientConfig;
}.

Definition downstream_acceptor (down : DownstreamTls) : result Proxy.Error ServerConfig :=
  certs ← load_certs (dt_cert down);
  key ← load_key (dt_key down);
  map_err (λ e, Proxy.TlsConfig (b#"downstream cert/key: " ++ e)) (with_single_cert certs key).

Definition upstream_connector (upstream : bytes) (up : UpstreamTls) : result Proxy.Error (ClientConfig * ServerName) :=
  certs ← load_certs (ut_ca up);
  roots ← add_roots (ut_ca up) roots_empty certs;
  let hostname := match ut_hostname up with Some name => name | None => upstream_host upstream end in
  name ← ok_or (Proxy.TlsConfig (b#"invalid upstream hostname " ++ hostname)) (server_name hostname);
  Ok (with_root_certificates roots, name).

Definition from_config (validated : ValidatedConfig) : M TlsProcess Proxy.Error TlsContext :=
  let config := vcf_config validated in
  _ ← install_crypto_provider;
  acceptor ← lift match tls_downstream (cf_tls config) with
                  | Some down => Some <$> downstream_acceptor down
                  | None => Ok None
                  end;
  '(connector, client) ← lift match tls_upstream (cf_tls config) with
                              | Some up => (λ c, (Some c, Some c.1)) <$> upstream_connector (cf_upstream config) up
                              | None => Ok (None, None)
                              end;
  mret {| tc_acceptor := acceptor; tc_connector := connector; tc_upstream_client := client |}.

(** A session over the contexts: [run] up to the relays. *)
Definition tls_session (tls : TlsContext) (addr client upstream : bytes) : result Proxy.Error (option Started) :=
  start_session (tls_accept <$> tc_acceptor tls) ((λ '(c, name), tls_connect c name) <$> tc_connector tls)
    addr client upstream.

End tls.
