(* ===== verification/TlsSpec.v ===== *)
(** * Both hops as configured

    What a configuration with TLS comes to in a session: the hop it is configured for
    carries nothing of the client's but inside TLS, with the certificate, key, authorities
    and name the configuration gives, under the crypto policy this build intends. *)

From S2P Require Import Prelude Utf8 IntText Crates Pgwire Errors Envelope RowKeys Fields Transform.
From S2P Require Import Policy Keys Settings Unprotected Portal Rows Config ConfigSpec Catalog Rewrite Frame Session SessionSpec Tls.

(** ** The name to verify *)

Lemma digits_no_colon port :
  forallb is_ascii_digit port = true → Forall (λ b, bool_decide (b = ":"%byte) = false) port.
Proof.
  intros Hp. apply List.Forall_forall. intros b Hb. apply bool_decide_eq_false. intros ->.
  by apply (proj1 (forallb_forall _ _) Hp) in Hb.
Qed.

(** The host the server's certificate is verified for, when none is configured, is that
    of the address: a name or an IPv4 address before a port, an IPv6 address out of its
    brackets, or an address that has no port. *)
Theorem upstream_host_is_the_host host port :
  forallb is_ascii_digit port = true →
  (strip_prefix b#"[" host = None → host ≠ [] → upstream_host (host ++ b#":" ++ port) = host) ∧
  (without ["]"%byte] host → upstream_host (b#"[" ++ host ++ b#"]:" ++ port) = host) ∧
  (strip_prefix b#"[" host = None → Forall (λ b, b ≠ ":"%byte) host → upstream_host host = host).
Proof.
  intros Hp. split_and!.
  - intros Hs Hne. unfold upstream_host. replace (strip_prefix b#"[" (host ++ b#":" ++ port)) with (None : option bytes).
    2:{ destruct host as [|b host]; [done|]. change b#"[" with ["["%byte] in *. cbn [app strip_prefix] in *. symmetry. by case_bool_decide. }
    change (b#":" ++ port) with (":"%byte :: port).
    unfold rsplit_colon. rewrite (rfind_byte_app _ host ":"%byte port) by (done || by apply digits_no_colon).
    cbn [fmap option_fmap option_map]. rewrite take_app_length, cons_middle, app_assoc, (drop_app_length' _ port).
    + by rewrite Hp.
    + rewrite length_app. cbn. lia.
  - intros Hh. unfold upstream_host.
    assert (strip_prefix b#"[" (b#"[" ++ host ++ b#"]:" ++ port) = Some (host ++ ["]"%byte] ++ (":"%byte :: port))) as ->
      by (by apply strip_prefix_Some).
    change (split_once_at b#"]") with (split_once_at ["]"%byte]). by rewrite (split_once_at_app "]"%byte []).
  - intros Hs Hc. unfold upstream_host. rewrite Hs. unfold rsplit_colon, rfind_byte.
    assert (position (λ b, bool_decide (b = ":"%byte)) (rev host) = None) as ->; [|done].
    apply position_None, List.Forall_forall. intros b Hb%in_rev. apply bool_decide_eq_false.
    by apply (proj1 (List.Forall_forall _ _) Hc).
Qed.

(** ** The crypto provider *)

Section provider.
Context `{RustlsLaws} (debug_list : list bytes → bytes).

(** The provider in force negotiates what the intended one would. *)
Definition intended_policy (g : Global) : Prop := policy_of <$> get_default g = Some (policy_of default_provider).

(** Once ours was installed, or found equivalent, that stays so. *)
Definition process_ok (s : TlsProcess) : Prop := tp_outcome s = Some (Ok tt) → intended_policy (tp_global s).

Lemma install_once_spec g outcome g' :
  install_once debug_list g = (outcome, g') → outcome = Ok tt ↔ intended_policy g'.
Proof.
  unfold install_once, intended_policy. destruct (install_default default_provider g) as [[[]|e] g1] eqn:E.
  - intros [= <- <-]. by rewrite (install_ok _ _ _ E).
  - intros [= <- <-]. destruct (get_default g1) as [p|]; cbn; [|done]. unfold check_installed.
    destruct (decide (policy_of p = policy_of default_provider)) as [E1|E1].
    + rewrite bool_decide_true by done. by rewrite E1.
    + rewrite bool_decide_false by done. split; [done|]. by intros E2%(inj Some).
Qed.

Lemma install_spec s r s' :
  process_ok s → install_crypto_provider debug_list s = (r, s') →
  process_ok s' ∧ (r = Ok tt → intended_policy (tp_global s')).
Proof.
  intros Hs. unfold install_crypto_provider. destruct (tp_outcome s) as [o|] eqn:Eo.
  - intros [= <- <-]. split; [done|]. intros E%map_err_Ok. apply Hs. by rewrite Eo, E.
  - destruct (install_once debug_list (tp_global s)) as [o g] eqn:Ei. intros [= <- <-]. apply install_once_spec in Ei.
    split; [intros [= ->]; by apply Ei|]. intros E%map_err_Ok. by apply Ei.
Qed.

(** ** The two hops *)

Context (files : Files) (parse_dsn : bytes → option DsnConfig) (url_scheme : bytes → result bytes bytes).
Context (debug : bytes → bytes) (display_core : Core.Error → bytes) (policy_text : PolicyProblem → bytes).

Lemma from_config_Ok v s tls s' :
  process_ok s → from_config debug_list v s = (Ok tls, s') →
  intended_policy (tp_global s') ∧
  match tls_downstream (cf_tls (vcf_config v)), tc_acceptor tls with
  | Some down, Some sc => downstream_acceptor down = Ok sc
  | None, None => True
  | _, _ => False
  end ∧
  match tls_upstream (cf_tls (vcf_config v)), tc_connector tls with
  | Some up, Some c => upstream_connector (cf_upstream (vcf_config v)) up = Ok c ∧ tc_upstream_client tls = Some c.1
  | None, None => tc_upstream_client tls = None
  | _, _ => False
  end.
Proof.
  intros Hs. unfold from_config. intros ([] & s1 & Ei & E)%M_bind_Ok. apply install_spec in Ei as [_ Hi]; [|done].
  apply M_bind_Ok in E as (acceptor & s2 & [= Ha <-] & E). apply M_bind_Ok in E as ([connector client] & s3 & [= Hc <-] & E).
  injection E as <- <-. cbn [tc_acceptor tc_connector tc_upstream_client]. split; [by apply Hi|]. split.
  - destruct (tls_downstream _) as [down|]; [|by injection Ha as <-].
    destruct (downstream_acceptor down); [by injection Ha as <-|done].
  - destruct (tls_upstream _) as [up|]; [|by injection Hc as <- <-].
    destruct (upstream_connector _ up); [by injection Hc as <- <-|done].
Qed.

(** C25: a hop configured for TLS carries nothing of the client's in the clear. Once the
    contexts are built from a validated configuration, the crypto policy in force is the
    one this build intends, and in a session that starts: with TLS for clients, the
    startup message and all that follows were read out of a handshake made with the
    configured certificate and a key no other user can read; with TLS for the server, the
    only bytes sent outside TLS are the request for it, and what follows went through a
    handshake that verifies the server for the configured name, or the host of its
    address, against the configured authorities, of which there is at least one. *)
Theorem configured_hops_are_encrypted config v s tls s' client upstream st :
  validated files parse_dsn url_scheme debug display_core policy_text config = Ok v →
  process_ok s → from_config debug_list v s = (Ok tls, s') →
  tls_session tls (cf_upstream config) client upstream = Ok (Some st) →
  intended_policy (tp_global s') ∧
  ∃ startup, startup_sized startup ∧ st_settings st = startup_settings startup ∧
    match tls_downstream (cf_tls config) with
    | Some down => private files (dt_key down) ∧ ∃ certs key sc before raw skipped,
        load_certs (dt_cert down) = Ok certs ∧ load_key (dt_key down) = Ok key ∧ with_single_cert certs key = Ok sc ∧
        client = before ++ raw ∧ tls_accept sc raw = Ok (skipped ++ startup ++ st_client st)
    | None => ∃ skipped, client = skipped ++ startup ++ st_client st
    end ∧
    match tls_upstream (cf_tls config) with
    | Some up => st_plain_sent st = ssl_request ∧ st_sent st = startup ∧ ∃ cert certs roots name answer,
        load_certs (ut_ca up) = Ok (cert :: certs) ∧ add_roots (ut_ca up) roots_empty (cert :: certs) = Ok roots ∧
        server_name (default (upstream_host (cf_upstream config)) (ut_hostname up)) = Some name ∧
        upstream = "S"%byte :: answer ∧ tls_connect (with_root_certificates roots) name answer = Ok (st_upstream st)
    | None => st_plain_sent st = startup ∧ st_sent st = [] ∧ st_upstream st = upstream
    end.
Proof.
  intros [Hcfg Hok]%validated_Ok Hs (Hi & Hd & Hu)%from_config_Ok; [|done]. rewrite Hcfg in Hd, Hu.
  intros (startup & Hl & Hst & Ha & Hc)%start_session_Ok. split; [done|]. exists startup. split; [done|]. split; [done|]. destruct Hok as (_ & _ & _ & Hkey & _). split.
  - destruct (tls_downstream _) as [down|], (tc_acceptor tls) as [sc|]; try done. split; [done|].
    unfold downstream_acceptor in Hd. apply bind_Ok_inv in Hd as (certs & Hcerts & Hd).
    apply bind_Ok_inv in Hd as (key & Hk & Hd%map_err_Ok). destruct Ha as (before & raw & skipped & ? & ?).
    by exists certs, key, sc, before, raw, skipped.
  - destruct (tls_upstream _) as [up|], (tc_connector tls) as [[cc name]|]; try done. destruct Hu as [Hu _].
    destruct Hc as (? & ? & answer & ? & ?). split; [done|]. split; [done|]. unfold upstream_connector in Hu.
    apply bind_Ok_inv in Hu as (certs & Hcerts & Hu). apply bind_Ok_inv in Hu as (roots & Hr & Hu).
    apply bind_Ok_inv in Hu as (n & Hn%ok_or_Ok & [= <- <-]).
    destruct certs as [|cert certs].
    { unfold load_certs in Hcerts. apply bind_Ok_inv in Hcerts as (? & _ & Hcerts).
      by apply bind_Ok_inv in Hcerts as ([|] & _ & ?). }
    exists cert, certs, roots, n, answer. split_and!; done.
Qed.

End provider.

(** ** An example: both hops over TLS *)

Module TlsExample.
Import SessionExample ConfigExample.

(** A crate whose handshakes change nothing and whose default was not installed yet. *)
#[export] Instance toy_rustls : Rustls := {|
  Certificate := bytes; PrivateKey := bytes; RootStore := list bytes; ServerConfig := list bytes * bytes;
  ClientConfig := list bytes; ServerName := bytes; Provider := list bytes; Global := option (list bytes);
  pem_file_iter path := Ok [Ok path]; key_from_pem_file path := Ok path;
  with_single_cert certs key := Ok (certs, key); roots_empty := [];
  roots_add cert roots := Ok (roots ++ [cert]); with_root_certificates roots := roots;
  server_name host := if bool_decide (host = []) then None else Some host;
  default_provider := [b#"TLS13_AES_256_GCM_SHA384"]; cipher_suites p := p; kx_groups _ := [b#"X25519"];
  install_default p g := match g with None => (Ok tt, Some p) | Some _ => (Err tt, g) end;
  get_default g := g; tls_accept _ := Ok; tls_connect _ _ := Ok |}.

#[export] Instance toy_rustls_laws : RustlsLaws.
Proof.
  split.
  - by intros p [q|] g' [= <-].
  - by intros p [q|] [] g' [= <-].
Qed.

Definition tls_config : Config := {|
  cf_listen := cf_listen config_default; cf_upstream := b#"db.internal:5432"; cf_keys_file := None; cf_vault := None;
  cf_control_dsn := None;
  cf_tls := {| tls_downstream := Some {| dt_cert := b#"cert"; dt_key := b#"key" |};
               tls_upstream := Some {| ut_ca := b#"ca"; ut_hostname := None |} |};
  cf_on_unprotected := Warn; cf_startup_timeout_secs := cf_startup_timeout_secs config_default;
  cf_max_sessions := cf_max_sessions config_default; cf_column_refresh_secs := 300;
  cf_max_protected_value_bytes := cf_max_protected_value_bytes config_default;
  cf_tables := []; cf_columns := [] |}.

Definition boot : TlsProcess := {| tp_global := None; tp_outcome := None |}.

Definition built : result Proxy.Error ValidatedConfig :=
  validated example_files (λ _, None) (λ _, Ok b#"https") (λ s, s) (λ _, []) (λ _, []) tls_config.
Definition built_ok : ValidatedConfig := {| vcf_config := tls_config; vcf_protected := None |}.
Definition contexts : result Proxy.Error TlsContext * TlsProcess := from_config (λ _, []) built_ok boot.
Definition context : TlsContext :=
  {| tc_acceptor := Some ([b#"cert"], b#"key"); tc_connector := Some ([b#"ca"], b#"db.internal");
     tc_upstream_client := Some [b#"ca"] |}.

(** The server is verified for the host of its address; only the request crosses bare. *)
Lemma configured_hops_are_encrypted_witness :
  intended_policy (tp_global contexts.2) ∧ private example_files b#"key" ∧
  tls_session context b#"db.internal:5432" (ssl_request ++ hello) b#"Sok" = Ok (Some greeted) ∧
  st_plain_sent greeted = ssl_request.
Proof.
  assert (tls_session context b#"db.internal:5432" (ssl_request ++ hello) b#"Sok" = Ok (Some greeted)) as Hst
    by (vm_compute; reflexivity).
  destruct (configured_hops_are_encrypted (λ _, []) example_files (λ _, None) (λ _, Ok b#"https") (λ s, s)
    (λ _, []) (λ _, []) tls_config built_ok boot context contexts.2 (ssl_request ++ hello) b#"Sok" greeted)
    as (Hi & startup & _ & _ & (Hp & _) & Hs & _).
  - vm_compute. reflexivity.
  - discriminate.
  - vm_compute. reflexivity.
  - exact Hst.
  - split; [exact Hi|]. split; [exact Hp|]. split; [exact Hst|exact Hs].
Defined.

(** An equivalent provider installed first is accepted; another is not, then or later. *)
Lemma foreign_provider_refused :
  (install_crypto_provider (λ _, []) {| tp_global := Some [b#"TLS13_AES_256_GCM_SHA384"]; tp_outcome := None |}).1 = Ok tt ∧
  is_ok (install_crypto_provider (λ _, []) {| tp_global := Some [b#"TLS_RSA"]; tp_outcome := None |}).1 = false.
Proof. split; vm_compute; reflexivity. Qed.

Lemma upstream_host_is_the_host_witness : upstream_host b#"[::1]:5432" = b#"::1" ∧ upstream_host b#"db:5432" = b#"db".
Proof.
  split.
  - apply (upstream_host_is_the_host b#"::1" b#"5432"); [reflexivity|].
    repeat apply Forall_cons_2; [..|apply Forall_nil_2]; apply (bool_decide_eq_true_1 _); vm_compute; reflexivity.
  - exact (proj1 (upstream_host_is_the_host b#"db" b#"5432" eq_refl) eq_refl
      (λ E, match E in _ = l return match l with [] => False | _ => True end with eq_refl => Logic.I end)).
Defined.

End TlsExample.
