(* ===== verification/Running.v ===== *)
(** * The running process ([crates/proxy/src/main.rs], [crates/proxy/src/resolve.rs])

    [main] from the command line on: what [serve] builds before it listens, and then the
    whole process as one step relation. The sessions, the accept loop, the refresher and
    shutdown run side by side over what they share: the row context, the transforms'
    caches and the key source. The peers, the database, the clock and the signals are
    free: a step that depends on them may happen whenever its conditions hold. *)

From S2P Require Import Prelude Sql Utf8 IntText Crates Pgwire Errors Envelope RowKeys Fields Transform.
From S2P Require Import Policy Keys Settings Unprotected Portal Rows Catalog Rewrite Frame Session.
From S2P Require Import Resolve Config Vault Process Serve Served Tls.

(** ** Key sources, as the sessions of a process use them *)

(** A source is called any number of times in the course of a turn, and other threads
    and other proxies call it, or its store, in between. [during w ks w'] says that [ks]
    answers what calls made between [w] and [w'] were answered; [keys_of] and
    [indexes_of] are the keys there are. *)
Class KeyService (W : Type) := {
  during : W → KeySource → W → Prop;
  keys_of : W → bytes → option bytes;
  indexes_of : W → bytes → option bytes;
}.

(** What the sessions rely on: the answers are the keys there are, of which none is ever
    replaced. *)
Class KeyServiceLaws (W : Type) `{!KeyService W} := {
  service_ok : W → Prop;
  during_law w ks w' :
    service_ok w → during w ks w' →
    service_ok w' ∧ source_ok (keys_of w') ks ∧ index_ok (indexes_of w') ks ∧
    (∀ id k, keys_of w id = Some k → keys_of w' id = Some k) ∧
    (∀ name k, indexes_of w name = Some k → indexes_of w' name = Some k);
}.

(** ** Before the listener *)

(** What [serve] holds as [dyn KeySource]; the store is the one the Vault source's
    configuration names. *)
Inductive Keys (St : Type) :=
  | NoKeys
  | FileKeys (source : FileKeySource)
  | VaultKeys (config : VaultConfig) (source : VaultKeySource * St).
Arguments NoKeys {_}.
Arguments FileKeys {_} source.
Arguments VaultKeys {_} config source.

(** What the process changes on its way up. *)
Record World `{Rustix, Rustls} (St : Type) := { w_kernel : Kernel; w_tls : TlsProcess; w_vault : St }.
Arguments w_kernel {_ _ _} _.
Arguments w_tls {_ _ _} _.
Arguments w_vault {_ _ _} _.

Definition on_kernel `{Rustix, Rustls} {St E A} (m : M Kernel E A) : M (World St) E A := λ w,
  let '(r, k) := m (w_kernel w) in (r, {| w_kernel := k; w_tls := w_tls w; w_vault := w_vault w |}).
Definition on_tls `{Rustix, Rustls} {St E A} (m : M TlsProcess E A) : M (World St) E A := λ w,
  let '(r, t) := m (w_tls w) in (r, {| w_kernel := w_kernel w; w_tls := t; w_vault := w_vault w |}).
Definition on_vault `{Rustix, Rustls} {St E A} (m : M St E A) : M (World St) E A := λ w,
  let '(r, st) := m (w_vault w) in (r, {| w_kernel := w_kernel w; w_tls := w_tls w; w_vault := st |}).

Record SessionContext `{Rustls} := {
  sc_upstream_addr : bytes;
  sc_tls : TlsContext;
  sc_rows : option RowContext;
  sc_writes : option WriteCatalog;
  sc_startup_timeout : Z;
}.

(** [Refresher], less the context and the TLS roots it shares. *)
Record Refresher := {
  rr_dsn : bytes;
  rr_columns : list ProtectedColumn;
  rr_row_keys : list RowKeyDecl;
  rr_interval : Z;
}.

(** What [serve] has when it starts to listen. *)
Record Serving `{Rustls} (W : Type) := {
  sv_config : Config;
  sv_context : SessionContext;
  sv_refresher : option Refresher;
  sv_keys : W;
}.
Arguments sv_config {_ _} _.
Arguments sv_context {_ _} _.
Arguments sv_refresher {_ _} _.
Arguments sv_keys {_ _} _.

Inductive ExitCode := SUCCESS | FAILURE.

(** What writing to stdout can fail with, as far as it is looked at. *)
Inductive WriteError := BrokenPipe | OtherWriteError.

Definition USAGE : bytes := b#"usage: dbsec [--plain-relay] [--allow-core-dumps] [config.toml]".
(** The line the literal starts with is continued from the one above it, which drops its
    indentation. *)
Definition OPTIONS : bytes :=
  b#"config.toml           config to load; with no path, ./dbsec.toml, and a run" ++ [x0a] ++
  b#"                        with neither is refused" ++ [x0a] ++
  b#"  --plain-relay         start with no config at all: no encryption, no TLS and" ++ [x0a] ++
  b#"                        no protected columns" ++ [x0a] ++
  b#"  --allow-core-dumps    leave core dumps enabled; a dump of this process can" ++ [x0a] ++
  b#"                        contain key material" ++ [x0a] ++
  b#"  -h, --help            print this help and exit".

(** [out] is writing and flushing. *)
Definition print_help (out : bytes → result WriteError ()) : ExitCode :=
  match out (USAGE ++ [x0a; x0a] ++ OPTIONS ++ [x0a]) with
  | Ok _ => SUCCESS
  | Err BrokenPipe => SUCCESS
  | Err OtherWriteError => FAILURE
  end.

(** A run that is over before it listens, or one that does. *)
Inductive Run `{Rustls} (W : Type) := Exit (code : ExitCode) | Listening (serving : Serving W).
Arguments Exit {_ _} code.
Arguments Listening {_ _} serving.

Section serve.
Context `{Rustix, Rustls, HexCrate, Lowercase} {St : Type} `{!VaultClient St}.
(** Of the file system, the configuration and its texts. *)
Context (files : Files) (parse_dsn : bytes → option DsnConfig) (url_scheme : bytes → result bytes bytes).
Context (debug : bytes → bytes) (display_core : Core.Error → bytes) (policy_text : PolicyProblem → bytes).
Context (toml : bytes → result TomlError Config) (exists_ : bytes → bool) (key_toml : bytes → option KeyFile).
(** Of the TLS and Vault clients, and the entropy of a key id. *)
Context (debug_list : list bytes → bytes) (base64_decode : bytes → option bytes).
Context (url_parse : bytes → result ClientError bytes) (build_client : ClientSettings → result ClientError ClientSettings).
Context (client_new : ClientSettings → result ClientError ()) (key_id : result Core.Error bytes).
(** Of the control connection and the listener. *)
Context (parse_hosts : bytes → option (list Host * list nat)) (lookup_column : nat → bytes → bytes → bytes → Answer).
Context (connect_control : bytes → TlsContext → result Proxy.Error ()) (bind : bytes → result () ()).

(** [FileKeySource::load]. *)
Definition load_key_file (path : bytes) : result Core.Error FileKeySource :=
  raw ← ok_or Core.KeyFileRead (file_text files path);
  parsed ← ok_or Core.KeyFileParse (key_toml raw);
  load parsed.

Definition load_key_source (source : KeySourceConfig) : M St Proxy.Error (Keys St) :=
  match source with
  | KeyFileSource path => lift (map_err Proxy.Wire (FileKeys <$> load_key_file path))
  | VaultSource setup => λ st,
      match connect base64_decode url_parse build_client client_new key_id setup st with
      | (Ok source, st) => (Ok (VaultKeys (vs_config setup) (source, st)), st)
      | (Err e, st) => (Err (Proxy.Wire e), st)
      end
  end.

(** [serve], up to the listener. *)
Definition serve (validated : ValidatedConfig) : M (World St) Proxy.Error (Serving (Keys St)) :=
  tls ← on_tls (from_config debug_list validated);
  let config := vcf_config validated in
  '(rows, writes, refresh, keys) ←
    match vcf_protected validated with
    | None => mret (None, None, None, NoKeys)
    | Some protected =>
        keys ← on_vault (load_key_source (pcf_keys protected));
        let policy := config_policy config in
        let columns := build policy in
        let dsn := pcf_control_dsn protected in
        resolved ← lift (resolve_columns parse_hosts lookup_column dsn (connect_control dsn tls) columns (row_keys policy));
        mret (Some (context_new resolved (cf_on_unprotected config) (Z.to_nat (cf_max_protected_value_bytes config))),
              Some (catalog_new columns (cf_on_unprotected config)),
              Some {| rr_dsn := dsn; rr_columns := columns; rr_row_keys := row_keys policy;
                      rr_interval := from_secs (Z.of_nat (cf_column_refresh_secs config)) |}, keys)
    end;
  _ ← lift (map_err (λ _, Proxy.Listen (cf_listen config)) (bind (cf_listen config)));
  mret {| sv_config := config;
          sv_context := {| sc_upstream_addr := cf_upstream config; sc_tls := tls; sc_rows := rows; sc_writes := writes;
                           sc_startup_timeout := from_secs (Z.of_nat (cf_startup_timeout_secs config)) |};
          sv_refresher := refresh; sv_keys := keys |}.

(** [main]; [runtime] is whether the runtime could be built. *)
Definition main (args : list bytes) (out : bytes → result WriteError ()) (runtime : bool) (w : World St)
    : Run (Keys St) * World St :=
  match on_kernel (start files parse_dsn url_scheme debug display_core policy_text toml exists_ args) w with
  | (Ok Help, w) => (Exit (print_help out), w)
  | (Err _, w) => (Exit FAILURE, w)
  | (Ok (Serve config _), w) =>
      if runtime then
        match serve config w with
        | (Ok serving, w) => (Listening serving, w)
        | (Err _, w) => (Exit FAILURE, w)
        end
      else (Exit FAILURE, w)
  end.

End serve.

(** The code [main] exits with once [serve] has returned. *)
Definition exit_code (outcome : result Proxy.Error ()) : ExitCode :=
  match outcome with Ok _ => SUCCESS | Err _ => FAILURE end.

(** ** The process *)

(** A spawned session: its client has connected, its relays run, or [run] has returned.
    Of the streams, what the peers send in the session, as it comes off the sockets. *)
Inductive Task :=
  | Starting (client upstream : bytes)
  | Relaying (client upstream : bytes) (c : Connection)
  | Over (outcome : result Proxy.Error ()).

(** Where [refresh_loop] is: at its [select], resolving, between the two halves of
    [publish], or returned. *)
Inductive Refreshing := Waiting | Resolving | Storing (generation : Z) | Returned.

(** Where [serve] is: in its [select], waiting for the rest to stop, or returned, with
    the sessions that were drained and aborted. *)
Inductive Phase :=
  | Accepting
  | Closing (outcome : result Proxy.Error ())
  | Exited (outcome : result Proxy.Error ()) (drained aborted : nat).

(** [pr_passes] counts the passes the refresher has begun. *)
Record Process (W : Type) := {
  pr_rows : option RowContext;
  pr_caches : PState;
  pr_keys : W;
  pr_tasks : list Task;
  pr_admission : Admission;
  pr_refreshing : Refreshing;
  pr_passes : nat;
  pr_phase : Phase;
}.
Arguments pr_rows {_} _.
Arguments pr_caches {_} _.
Arguments pr_keys {_} _.
Arguments pr_tasks {_} _.
Arguments pr_admission {_} _.
Arguments pr_refreshing {_} _.
Arguments pr_passes {_} _.
Arguments pr_phase {_} _.

Definition process_new `{Rustls} {W} (sv : Serving W) : Process W := {|
  pr_rows := sc_rows (sv_context sv); pr_caches := {| ps_ciphers := ciphers_new; ps_keys := ∅ |};
  pr_keys := sv_keys sv; pr_tasks := []; pr_admission := admission_new (cf_max_sessions (sv_config sv));
  pr_refreshing := match sv_refresher sv with Some _ => Waiting | None => Returned end;
  pr_passes := 0; pr_phase := Accepting |}.

Section updates.
Context {W : Type}.

Definition set_tasks (tasks : list Task) (adm : Admission) (p : Process W) : Process W := {|
  pr_rows := pr_rows p; pr_caches := pr_caches p; pr_keys := pr_keys p; pr_tasks := tasks; pr_admission := adm;
  pr_refreshing := pr_refreshing p; pr_passes := pr_passes p; pr_phase := pr_phase p |}.
Definition set_refreshing (rows : option RowContext) (r : Refreshing) (passes : nat) (p : Process W) : Process W := {|
  pr_rows := rows; pr_caches := pr_caches p; pr_keys := pr_keys p; pr_tasks := pr_tasks p;
  pr_admission := pr_admission p; pr_refreshing := r; pr_passes := passes; pr_phase := pr_phase p |}.
Definition set_phase (phase : Phase) (p : Process W) : Process W := {|
  pr_rows := pr_rows p; pr_caches := pr_caches p; pr_keys := pr_keys p; pr_tasks := pr_tasks p;
  pr_admission := pr_admission p; pr_refreshing := pr_refreshing p; pr_passes := pr_passes p; pr_phase := phase |}.
Definition set_keys (keys : W) (p : Process W) : Process W := {|
  pr_rows := pr_rows p; pr_caches := pr_caches p; pr_keys := keys; pr_tasks := pr_tasks p;
  pr_admission := pr_admission p; pr_refreshing := pr_refreshing p; pr_passes := pr_passes p; pr_phase := pr_phase p |}.

(** A session returns: its permit is given back when its task ends. *)
Definition finish (i : nat) (outcome : result Proxy.Error ()) (p : Process W) : Process W :=
  set_tasks (<[i := Over outcome]> (pr_tasks p)) (session_ended (pr_admission p)) p.

(** What a session shares with the rest of the process, as it finds it. *)
Definition attach (p : Process W) (c : Connection) : Connection :=
  let s := cn_state c in {|
  cn_client := cn_client c; cn_upstream := cn_upstream c;
  cn_state := {|
    se_rewriter := se_rewriter s;
    se_decryptor := d ← se_decryptor s; ctx ← pr_rows p; Some (upd_ctx (λ _, ctx) d);
    se_portals := se_portals s; se_caches := pr_caches p; se_tx_status := se_tx_status s;
    se_authenticated := se_authenticated s |};
  cn_shutdown := cn_shutdown c; cn_join := cn_join c |}.

(** A turn of session [i], and what it leaves of what is shared. *)
Definition detach (i : nat) (client upstream : bytes) (c : Connection) (keys : W) (p : Process W) : Process W := {|
  pr_rows := match se_decryptor (cn_state c) with Some d => Some (rd_ctx d) | None => pr_rows p end;
  pr_caches := se_caches (cn_state c); pr_keys := keys;
  pr_tasks := <[i := Relaying client upstream c]> (pr_tasks p); pr_admission := pr_admission p;
  pr_refreshing := pr_refreshing p; pr_passes := pr_passes p; pr_phase := pr_phase p |}.

(** [shutdown_tx] has been sent to. *)
Definition told (p : Process W) : bool := match pr_phase p with Accepting => false | _ => true end.
Definition alive (p : Process W) : Prop := match pr_phase p with Exited _ _ _ => False | _ => True end.

End updates.

(** [notified] takes the permit. *)
Definition refresh_requested (self : RowContext) : RowContext := {|
  cx_resolved := cx_resolved self; cx_generation := cx_generation self;
  cx_on_unprotected := cx_on_unprotected self;
  cx_max_protected_value_len := cx_max_protected_value_len self; cx_refresh := false |}.

Section process.
Context `{HexCrate, AeadCrate, HmacCrate, Ff1Crate, Lowercase, SqlParserCrate, Rustls} {W : Type} `{!KeyService W}.
Context (parse_hosts : bytes → option (list Host * list nat)).
Context (why_text : RowKeyProblem → bytes) (display : Proxy.Error → bytes).
Context (sv : Serving W).

#[local] Abbreviation ctx := (sv_context sv).
Definition sv_policy : Policy := config_policy (sv_config sv).
Definition sv_catalog : WriteCatalog := default (catalog_new [] (cf_on_unprotected (sv_config sv))) (sc_writes ctx).

(** [run], once the startup message is forwarded. *)
Definition session_opened (st : Started) (p : Process W) : Connection :=
  started (st_client st) (st_upstream st)
    (session_new (pr_rows p) (bool_decide (is_Some (sc_writes ctx))) (st_settings st) (pr_caches p)).

Inductive process_step (p : Process W) : Process W → Prop :=
  (** [accept_loop]: a session is spawned; anything else that does not stop it; an error
      that does. *)
  | accepts now adm client upstream :
      pr_phase p = Accepting → on_accept (Accepted now) (pr_admission p) = (Spawned, adm) →
      process_step p (set_tasks (pr_tasks p ++ [Starting client upstream]) adm p)
  | loops event effect adm :
      pr_phase p = Accepting → (event = Joined → ad_ended (pr_admission p) ≠ 0) →
      on_accept event (pr_admission p) = (effect, adm) → effect ≠ Spawned → (∀ e, effect ≠ Stopped e) →
      process_step p (set_tasks (pr_tasks p) adm p)
  | listener_fails event e adm :
      pr_phase p = Accepting → on_accept event (pr_admission p) = (Stopped e, adm) →
      process_step p (set_phase (Closing (Err Proxy.Io)) (set_tasks (pr_tasks p) adm p))
  (** A signal. *)
  | signalled : pr_phase p = Accepting → process_step p (set_phase (Closing (Ok tt)) p)
  (** A session: its startup and that startup's deadline, a turn, the end. *)
  | session_starts i client upstream st :
      alive p → pr_tasks p !! i = Some (Starting client upstream) →
      tls_session (sc_tls ctx) (sc_upstream_addr ctx) client upstream = Ok (Some st) →
      process_step p (set_tasks (<[i := Relaying client upstream (session_opened st p)]> (pr_tasks p)) (pr_admission p) p)
  | session_leaves i client upstream :
      alive p → pr_tasks p !! i = Some (Starting client upstream) →
      tls_session (sc_tls ctx) (sc_upstream_addr ctx) client upstream = Ok None →
      process_step p (finish i (Ok tt) p)
  | session_fails i client upstream e :
      alive p → pr_tasks p !! i = Some (Starting client upstream) →
      tls_session (sc_tls ctx) (sc_upstream_addr ctx) client upstream = Err e →
      process_step p (finish i (Err e) p)
  | startup_expires i client upstream :
      alive p → pr_tasks p !! i = Some (Starting client upstream) →
      process_step p (finish i (Err Proxy.StartupTimeout) p)
  | session_turns i client upstream c nonce ks keys c' :
      alive p → pr_tasks p !! i = Some (Relaying client upstream c) →
      during (pr_keys p) ks keys →
      turn sv_catalog why_text (transform_at (build sv_policy)) nonce ks display (attach p c) c' →
      (cn_shutdown c' = true → cn_shutdown c = true ∨ told p = true) →
      process_step p (detach i client upstream c' keys p)
  | session_over i client upstream c outcome :
      alive p → pr_tasks p !! i = Some (Relaying client upstream c) → cn_join c = Done outcome →
      process_step p (finish i outcome p)
  (** The key source, as other proxies and the token watch use its store. *)
  | keys_elsewhere ks keys :
      alive p → during (pr_keys p) ks keys → process_step p (set_keys keys p)
  (** [refresh_loop]: the timer, unless the interval is zero; a permit; shutdown; the
      pass, with whatever the database answers. *)
  | refresher_ticks r :
      alive p → sv_refresher sv = Some r → pr_refreshing p = Waiting → rr_interval r ≠ 0%Z →
      process_step p (set_refreshing (pr_rows p) Resolving (S (pr_passes p)) p)
  | refresher_notified rows :
      alive p → pr_refreshing p = Waiting → pr_rows p = Some rows → cx_refresh rows = true →
      process_step p (set_refreshing (Some (refresh_requested rows)) Resolving (S (pr_passes p)) p)
  | refresher_stops :
      alive p → pr_refreshing p = Waiting → told p = true →
      process_step p (set_refreshing (pr_rows p) Returned (pr_passes p) p)
  | refresher_swaps r rows lookup connected resolved :
      alive p → pr_refreshing p = Resolving → sv_refresher sv = Some r → pr_rows p = Some rows →
      resolve_columns parse_hosts lookup (rr_dsn r) connected (rr_columns r) (rr_row_keys r) = Ok resolved →
      process_step p (set_refreshing (Some (publish_swap resolved rows).2) (Storing (publish_swap resolved rows).1)
        (pr_passes p) p)
  | refresher_fails r lookup connected e :
      alive p → pr_refreshing p = Resolving → sv_refresher sv = Some r →
      resolve_columns parse_hosts lookup (rr_dsn r) connected (rr_columns r) (rr_row_keys r) = Err e →
      process_step p (set_refreshing (pr_rows p) Waiting (pr_passes p) p)
  | refresher_stores rows generation :
      alive p → pr_refreshing p = Storing generation → pr_rows p = Some rows →
      process_step p (set_refreshing (Some (publish_store generation rows)) Waiting (pr_passes p) p)
  (** [serve] returns once the refresher and the sessions have stopped, or their
      deadlines have passed; the sessions still there are aborted. *)
  | exits outcome drained aborted :
      pr_phase p = Closing outcome →
      drain_sessions (ad_live (pr_admission p) + ad_ended (pr_admission p)) (ad_ended (pr_admission p))
        = (drained, aborted) →
      process_step p (set_phase (Exited outcome drained aborted) p).

End process.
