(* ===== verification/RunningSpec.v ===== *)
(** * What the running process promises

    The key sources meet what sessions rely on, and so every session of a process, among
    all the others, keeps the invariants proved of one session in an environment that is
    left free; the accept loop's count is the number of sessions there are; and a refresh
    that a session asks for is not lost. *)

From S2P Require Import Prelude Sql Utf8 IntText Crates Pgwire Errors Envelope RowKeys Fields Transform.
From S2P Require Import Policy Keys Settings Unprotected Portal Rows RowsSpec Catalog Rewrite Frame FrameSpec Session SessionSpec.
From S2P Require Import Resolve ResolveSpec Config ConfigSpec Vault VaultSpec Process Serve ServeSpec SessionInv Served Tls TlsSpec Running.

(** ** The key sources *)

(** A key file does not change under the process. *)
Section file.
Context `{HexCrate, !HexLaws}.

#[export] Instance file_service : KeyService FileKeySource := {|
  during w ks w' := w' = w ∧ ks = file_source w;
  keys_of w id := fs_keys w !! id;
  indexes_of w name := fs_index_keys w !! name |}.

#[export] Instance file_service_laws : KeyServiceLaws FileKeySource.
Proof.
  refine {| service_ok w := ∃ parsed, load parsed = Ok w |}.
  intros w ks w' [parsed Hl] [-> ->]. destruct (file_source_sound _ _ Hl) as (? & ? & _). by split_and!; [exists parsed|..].
Defined.

End file.

(** The Vault source, in front of a store that other proxies use too. *)
Section vault.
Context `{HexCrate, !HexLaws} {St : Type} `{!KeyStore St, !KeyStoreLaws St}.

(** Every answer is that of a call made between [w] and [w']. *)
Record answered (w : VaultKeySource * St) (ks : KeySource) (w' : VaultKeySource * St) : Prop := {
  an_steps : rtc source_step w w';
  an_active id k : ks_active_key ks = Ok (id, k) → active_key w.1 = Ok (id, k);
  an_key id k : ks_key ks id = Ok k → ∃ mt timing now w1 w2,
    rtc source_step w w1 ∧ timing_ok w1.2 timing ∧ key mt timing now id w1 = (Ok k, w2) ∧ rtc source_step w2 w';
  an_index name k : ks_index_key ks name = Ok k → ∃ mt timing fresh w1 w2,
    rtc source_step w w1 ∧ timing_ok w1.2 timing ∧ fresh_ok fresh ∧
    index_key mt timing fresh name w1 = (Ok k, w2) ∧ rtc source_step w2 w';
}.

Definition stored_index (w : VaultKeySource * St) (name : bytes) : option bytes :=
  record ← records w.2 name; match current_key record with Ok key => Some key | Err _ => None end.

Lemma stored_agreed w name k : stored_index w name = Some k ↔ agreed name k w.2.
Proof using Type.
  unfold stored_index, agreed. destruct (records w.2 name) as [r|]; cbn; [|split; [done|by intros (? & ? & _)]].
  destruct (current_key r) as [k'|e] eqn:E; (split; [intros [= <-]; eauto|intros (r' & [= <-] & E')]); congruence.
Qed.

Lemma agreed_later name k st st' : later st st' → agreed name k st → agreed name k st'.
Proof using Type. intros [_ Hr _] (record & H1 & H2). exists record. auto. Qed.

#[export] Instance vault_service : KeyService (VaultKeySource * St) := {|
  during := answered; keys_of w := deks w.2; indexes_of := stored_index |}.

#[export] Instance vault_service_laws : KeyServiceLaws (VaultKeySource * St).
Proof.
  refine {| service_ok := source_inv |}. intros w ks w' Hinv [Hs Ha Hk Hi].
  destruct (source_steps_sound _ _ Hs Hinv) as [Hinv' Hkept]. pose proof Hkept as (Hact & _ & _ & Hl).
  split_and!; [done|split| |exact (la_deks _ _ Hl)|].
  - intros id k E%Ha. unfold active_key in E. injection E as E. pose proof (si_active _ Hinv') as [? ?].
    rewrite Hact, E in *. done.
  - intros id k (mt & timing & now & w1 & w2 & H1 & Ht & E & H2)%Hk.
    destruct (source_steps_sound _ _ H1 Hinv) as [Hinv1 _].
    apply key_sound in E as (Hinv2 & (_ & _ & _ & Hl1) & Hkey & _); [|done..].
    destruct (source_steps_sound _ _ H2 Hinv2) as [_ (_ & _ & _ & Hl2)].
    apply (la_deks _ _ Hl2), (la_deks _ _ Hl1). by apply Hkey.
  - intros name k (mt & timing & fresh & w1 & w2 & H1 & Ht & Hf & E & H2)%Hi.
    destruct (source_steps_sound _ _ H1 Hinv) as [Hinv1 _].
    apply index_key_sound in E as (Hinv2 & _ & Hkey); [|done..].
    destruct (source_steps_sound _ _ H2 Hinv2) as [_ (_ & _ & _ & Hl2)].
    apply stored_agreed. eapply agreed_later; [exact Hl2|]. by apply Hkey.
  - intros name k. rewrite !stored_agreed. by apply agreed_later.
Defined.

End vault.

(** Whichever the configuration names. *)
Section keys.
Context `{HexCrate, !HexLaws} {St : Type} `{!VaultClient St, !VaultClientLaws St} (base64_decode : bytes → option bytes).

#[local] Abbreviation vault_of config :=
  (vault_service (KeyStore0 := vault_store base64_decode config) (KeyStoreLaws0 := vault_store_laws base64_decode config)).

#[export] Instance keys_service : KeyService (Keys St) := {|
  during w ks w' :=
    match w with
    | NoKeys => w' = NoKeys ∧ ks = file_source {| fs_active := []; fs_keys := ∅; fs_index_keys := ∅ |}
    | FileKeys f => w' = FileKeys f ∧ during f ks f
    | VaultKeys config v => ∃ v', w' = VaultKeys config v' ∧ @during _ (vault_of config) v ks v'
    end;
  keys_of w := match w with NoKeys => λ _, None | FileKeys f => keys_of f
               | VaultKeys config v => @keys_of _ (vault_of config) v end;
  indexes_of w := match w with NoKeys => λ _, None | FileKeys f => indexes_of f
                  | VaultKeys config v => @indexes_of _ (vault_of config) v end |}.

#[export] Instance keys_service_laws : KeyServiceLaws (Keys St).
Proof.
  refine {| service_ok w := match w with NoKeys => True | FileKeys f => service_ok f
    | VaultKeys config v => source_inv (KeyStore0 := vault_store base64_decode config)
        (KeyStoreLaws0 := vault_store_laws base64_decode config) v end |}.
  intros [|f|config v] ks w' Hw.
  - by intros [-> ->].
  - intros [-> Hd]. by apply during_law in Hd.
  - intros (v' & -> & Hd). by apply during_law in Hd.
Defined.

End keys.

(** ** What a turn does to what the session shares *)

(** At most, it asks for a refresh. *)
Definition asks (ctx ctx' : RowContext) : Prop := ctx' = ctx ∨ ctx' = request_refresh ctx.

#[local] Instance asks_preorder : PreOrder asks.
Proof.
  split; [by left|]. intros a b c [-> | ->] [-> | ->]; [by left|by right|by right|by right].
Qed.

Definition asking {A} (m : M RowDecryptor Proxy.Error A) : Prop := ∀ s, asks (rd_ctx s) (rd_ctx (m s).2).

Lemma asking_bind {A B} (m : M RowDecryptor Proxy.Error A) (f : A → M RowDecryptor Proxy.Error B) :
  asking m → (∀ a, asking (f a)) → asking (m ≫= f).
Proof.
  intros Hm Hf s. unfold mbind, M_bind. specialize (Hm s). destruct (m s) as [[a|e] s1]; [|done].
  etrans; [exact Hm|apply Hf].
Qed.

Lemma asking_quiet {A} (m : M RowDecryptor Proxy.Error A) : (∀ s, rd_ctx (m s).2 = rd_ctx s) → asking m.
Proof. intros Hm s. by left. Qed.

Section shares.
Context `{HexCrate, AeadCrate, HmacCrate, Ff1Crate, Lowercase, SqlParserCrate}.
Context (catalog : WriteCatalog) (why_text : RowKeyProblem → bytes).
Context (deref : TransformPtr → bytes * DynTransform) (nonce : nat → bytes) (ks : KeySource).
Context (display : Proxy.Error → bytes).

Lemma stale_asks fields resolved positions : asking (check_for_stale_mapping fields resolved positions).
Proof using Type.
  intros s. unfold check_for_stale_mapping.
  destruct (find_uncovered _ _ false _); [destruct (bool_decide _)|]; [by left|..];
    (destruct (find_uncovered _ _ true _); [|by left]); [by right|]. destruct (bool_decide _); by right.
Qed.

Lemma positions_quiet s : rd_ctx (positions_for_row s).2 = rd_ctx s.
Proof using Type.
  unfold positions_for_row. destruct (row_source _) as [d f| |]; [|by destruct (rd_described s)|done].
  unfold current. by destruct (_ =? _)%Z.
Qed.

Lemma inspect_asks ty body : asking (inspect ks ty body).
Proof using Type.
  assert (∀ f o, asking (_ ← modify (upd_portals f); _ ← modify (upd_described o); mret (None : option bytes))) as Hset
    by (intros f o s; by left).
  unfold inspect. rewrite server_dispatch. repeat case_match.
  - apply asking_bind; [by apply asking_quiet|intros fields]. apply asking_bind; [by apply asking_quiet|intros resolved].
    apply asking_bind; [apply stale_asks|intros _]. apply Hset.
  - apply Hset.
  - apply asking_bind; [apply asking_quiet, positions_quiet|intros [positions formats]].
    destruct (bool_decide (d_columns positions = [])); [by apply asking_quiet|]. apply asking_bind; [by apply asking_quiet|intros n].
    apply asking_quiet. intros s. unfold on_transforms. by destruct (decrypt_row _ _ _ _ _ _).
  - apply Hset.
  - apply Hset.
  - apply asking_quiet. intros s. unfold function_call_result. by destruct (bool_decide (cx_on_unprotected _ = Reject)).
  - by apply asking_quiet.
Qed.

(** The rewriter and the decryptor of a session stay with it. *)
Record shares (s s' : SessionState) : Prop := {
  sh_rewriter : is_Some (se_rewriter s) → is_Some (se_rewriter s');
  sh_decryptor : match se_decryptor s, se_decryptor s' with
    | Some d, Some d' => asks (rd_ctx d) (rd_ctx d')
    | None, None => True
    | _, _ => False
    end;
}.

Lemma shares_refl s : shares s s.
Proof using Type. split; [done|]. destruct (se_decryptor s); [by left|done]. Qed.

Lemma client_shares ty body s r s' :
  client_transform catalog why_text deref nonce ks ty body s = (r, s') → shares s s'.
Proof using Type.
  unfold client_transform. destruct (se_rewriter s) as [q|] eqn:E; [|intros [= _ <-]; apply shares_refl].
  destruct (on_client_frame _ _ _ _ _ _ _ _ _) as [r1 q']. intros [= _ <-].
  split; [by eexists|]. cbn. destruct (se_decryptor s); [by left|done].
Qed.

Lemma note_shares ty body s :
  se_rewriter (note_backend_state ty body (note_authentication ty body s)) = se_rewriter s ∧
  se_decryptor (note_backend_state ty body (note_authentication ty body s)) = se_decryptor s.
Proof using Type.
  assert (se_rewriter (note_authentication ty body s) = se_rewriter s ∧
    se_decryptor (note_authentication ty body s) = se_decryptor s) as [<- <-].
  { unfold note_authentication. by destruct (_ && _). }
  unfold note_backend_state. destruct ty; try done. by destruct body.
Qed.

Lemma upstream_shares ty body s r s' : upstream_transform ks ty body s = (r, s') → shares s s'.
Proof using Type.
  unfold upstream_transform. destruct (note_shares ty body s) as [Ew Ed].
  revert Ew Ed. generalize (note_backend_state ty body (note_authentication ty body s)). intros s1 Ew Ed.
  destruct (se_decryptor s1) as [d|] eqn:E1.
  - destruct (on_frame ks ty body (read_shared s1 d)) as [r1 d'] eqn:E. intros [= _ <-]. split; cbn; [by rewrite Ew|].
    rewrite <- Ed. pose proof (inspect_asks ty body (read_shared s1 d)) as Ha. unfold on_frame in E.
    destruct (inspect ks ty body (read_shared s1 d)) as [[[b|]|e] s2]; [by injection E as _ <-..|].
    destruct (is_refusal e); by injection E as _ <-.
  - intros [= _ <-]. split; [by rewrite Ew|]. by rewrite <- Ed, E1.
Qed.

Lemma turn_shares c c' :
  turn catalog why_text deref nonce ks display c c' → shares (cn_state c) (cn_state c').
Proof using Type.
  intros Ht. destruct (turn_sides _ _ _ _ _ _ _ _ Ht) as [E|[E|[-> _]]]; [| |apply shares_refl];
    apply step_runs in E as [[-> _]|(ty & body & _ & r & _ & _ & E & _)]; try apply shares_refl.
  - by eapply client_shares.
  - by eapply upstream_shares.
Qed.

End shares.

(** ** Every session among the others *)

Lemma pstate_grows K I K' I' s :
  (∀ id k, K id = Some k → K' id = Some k) → (∀ name k, I name = Some k → I' name = Some k) →
  pstate_ok K I s → pstate_ok K' I' s.
Proof.
  intros HK HI [[Ha Hb] Hk]. assert (∀ id p, cell_ok K (ps_ciphers s) id p → cell_ok K' (ps_ciphers s) id p) as Hc.
  { intros id p (c & ? & ? & ?). exists c. auto. }
  split; [split|]; [intros id p []%Ha; auto|auto|auto].
Qed.

(** The permits the tasks hold. *)
Definition permit (t : Task) : nat := match t with Over _ => 0 | _ => 1 end.
Fixpoint permits (tasks : list Task) : nat :=
  match tasks with [] => 0 | t :: tasks => permit t + permits tasks end.

Lemma permits_app tasks tasks' : permits (tasks ++ tasks') = permits tasks + permits tasks'.
Proof. induction tasks as [|t tasks IH]; cbn; lia. Qed.

Lemma permits_insert tasks i t t' : tasks !! i = Some t → permits (<[i := t']> tasks) + permit t = permits tasks + permit t'.
Proof.
  revert i. induction tasks as [|u tasks IH]; intros [|i]; [done..| |].
  - intros [= ->]. cbn. lia.
  - intros Hi. specialize (IH i Hi). change (<[S i:=t']> (u :: tasks)) with (u :: <[i:=t']> tasks). cbn [permits]. lia.
Qed.

(** What a turn of the accept loop does to the counts. *)
Lemma on_accept_counts event s effect s' :
  on_accept event s = (effect, s') →
  (effect = Spawned ∧ ad_permits s = S (ad_permits s') ∧ ad_live s' = S (ad_live s)) ∨
  (effect ≠ Spawned ∧ ad_permits s' = ad_permits s ∧ ad_live s' = ad_live s).
Proof.
  destruct event as [now|e|]; cbn [on_accept].
  - destruct (ad_permits s) as [|n] eqn:Ep; [destruct (record_refusal _ _)|]; intros [= <- <-]; cbn; auto.
  - destruct (is_fatal_accept_error e); [|case_bool_decide]; intros [= <- <-]; cbn; auto.
  - intros [= <- <-]. cbn. auto.
Qed.

Section process.
Context `{HexCrate, AeadCrate, HmacCrate, Ff1Crate, Lowercase, SqlParserCrate, Rustls} {W : Type} `{!KeyService W}.
Context `{!AeadLaws, !HmacLaws, !Ff1Laws, !KeyServiceLaws W}.
Context (parse_hosts : bytes → option (list Host * list nat)).
Context (why_text : RowKeyProblem → bytes) (display : Proxy.Error → bytes).
Context (sv : Serving W).

#[local] Abbreviation step := (process_step parse_hosts why_text display sv).

(** Where the run from [p0] to [p] has found the columns: what a resolution that was in
    effect on the way puts at a place. *)
Definition published (p0 p : Process W) : Places := λ k c,
  ∃ p1 ctx, rtc step p0 p1 ∧ rtc step p1 p ∧ pr_rows p1 = Some ctx ∧ rs_columns (cx_resolved ctx) !! k = Some c.

(** What [serve] hands the process is wired to its columns' names. *)
Record serving_ok : Prop := {
  so_keys : service_ok (sv_keys sv);
  so_rows ctx : sc_rows (sv_context sv) = Some ctx → resolution_wired (cx_resolved ctx);
  so_columns r : sv_refresher sv = Some r → rr_columns r = build (sv_policy sv);
}.

(** What holds of a session whatever the state of what it shares. *)
Definition task_ok (pl : Places) (t : Task) : Prop :=
  match t with
  | Relaying client upstream c =>
      tracked_all (good pl) (se_portals (cn_state c)) ∧
      (∀ d x, se_decryptor (cn_state c) = Some d → rd_described d = Some x → good pl x) ∧
      side_framed (cn_client c) ∧ side_framed (cn_upstream c) ∧
      (is_Some (sc_writes (sv_context sv)) → is_Some (se_rewriter (cn_state c))) ∧
      (is_Some (sc_rows (sv_context sv)) → is_Some (se_decryptor (cn_state c))) ∧
      ∃ st, tls_session (sc_tls (sv_context sv)) (sc_upstream_addr (sv_context sv)) client upstream = Ok (Some st)
  | _ => True
  end.

Record process_inv (pl : Places) (p : Process W) : Prop := {
  pi_keys : service_ok (pr_keys p);
  pi_caches : pstate_ok (keys_of (pr_keys p)) (indexes_of (pr_keys p)) (pr_caches p);
  pi_rows ctx : pr_rows p = Some ctx → resolution_ok pl (cx_resolved ctx);
  pi_shared : is_Some (sc_rows (sv_context sv)) → is_Some (pr_rows p);
  pi_tasks : Forall (task_ok pl) (pr_tasks p);
  pi_live : permits (pr_tasks p) = ad_live (pr_admission p);
  pi_permits : ad_permits (pr_admission p) + ad_live (pr_admission p) = cf_max_sessions (sv_config sv);
}.

Lemma process_new_inv pl : serving_ok →
  (∀ ctx k c, pr_rows (process_new sv) = Some ctx → rs_columns (cx_resolved ctx) !! k = Some c → pl k c) →
  process_inv pl (process_new sv).
Proof using Type.
  intros [Hk Hr _] Ha. split; cbn; [done| |intros ctx E; split; [by apply Hr|by intros k c; apply Ha]|done|constructor|done|lia].
  split; [apply ciphers_new_ok|]. intros name k. cbn. by rewrite lookup_empty.
Qed.

(** A session of a sound process, with what it shares. *)
Lemma attached_ok pl p client upstream c i :
  process_inv pl p → pr_tasks p !! i = Some (Relaying client upstream c) →
  state_ok (keys_of (pr_keys p)) (indexes_of (pr_keys p)) pl (cn_state (attach p c)).
Proof using Type.
  intros Hp Hi. destruct (proj1 (Forall_lookup _ _) (pi_tasks _ _ Hp) _ _ Hi) as (Ht & Hd & _).
  split; [apply Hp|exact Ht| |]; cbn.
  - intros d x. destruct (se_decryptor (cn_state c)) as [d0|] eqn:E; [|done]. cbn.
    destruct (pr_rows p); [|done]. intros [= <-]. exact (Hd d0 x eq_refl).
  - intros d. destruct (se_decryptor (cn_state c)) as [d0|]; [|done]. cbn.
    destruct (pr_rows p) as [ctx|] eqn:E; [|done]. intros [= <-]. by apply (pi_rows _ _ Hp).
Qed.

Lemma finish_inv pl i t outcome p :
  process_inv pl p → pr_tasks p !! i = Some t → permit t = 1 → process_inv pl (finish i outcome p).
Proof using Type.
  intros [Hk Hc Hr Hh Ht Hl Hm] Hi Hone. pose proof (permits_insert _ _ _ (Over outcome) Hi). cbn in *.
  split; cbn; [done..|by apply Forall_insert|lia|lia].
Qed.

Lemma refreshing_inv pl rows r n p :
  process_inv pl p → (∀ ctx, rows = Some ctx → resolution_ok pl (cx_resolved ctx)) →
  (is_Some (pr_rows p) → is_Some rows) → process_inv pl (set_refreshing rows r n p).
Proof using Type. intros [] Hr Hs. split; cbn; auto. Qed.

Lemma turns_inv pl p i client upstream c nonce ks keys c' :
  process_inv pl p → pr_tasks p !! i = Some (Relaying client upstream c) → during (pr_keys p) ks keys →
  turn (sv_catalog sv) why_text (transform_at (build (sv_policy sv))) nonce ks display (attach p c) c' →
  process_inv pl (detach i client upstream c' keys p).
Proof using All.
  intros Hp Hi Hd Ht. pose proof (attached_ok _ _ _ _ _ _ Hp Hi) as Ha.
  destruct (during_law _ _ _ (pi_keys _ _ Hp) Hd) as (Hk & Hs & Hx & HK & HI).
  assert (state_ok (keys_of keys) (indexes_of keys) pl (cn_state (attach p c))) as Ha'.
  { destruct Ha as [Hca Hpo Hde Hre]. split; [by eapply pstate_grows|done..]. }
  destruct (step_call _ _ _ _ _ _ nonce ks display Hs Hx (transform_at_wired (sv_policy sv)) _ _ (step_turn _ _ _ _ _ _ _ _ _ _ _ Ht) Ha')
    as [Hn _].
  destruct (proj1 (Forall_lookup _ _) (pi_tasks _ _ Hp) _ _ Hi) as (_ & _ & Hc & Hu & Hwr & Hde & Htls).
  destruct (steps_framed _ _ _ _ _ _ _ _ (rtc_once _ _ Ht) Hc Hu) as [Hc' Hu'].
  pose proof (turn_shares _ _ _ _ _ _ _ _ Ht) as [Hsw Hsd]. cbn in Hsw, Hsd.
  assert (is_Some (sc_rows (sv_context sv)) → is_Some (se_decryptor (cn_state c'))) as Hde'.
  { intros Hrows. destruct (Hde Hrows) as [d E], (pi_shared _ _ Hp Hrows) as [rows E2]. rewrite E, E2 in Hsd. cbn in Hsd.
    destruct (se_decryptor (cn_state c')); [by eexists|done]. }
  destruct Hp as [_ _ Hr Hh Hts Hl Hm]. split; cbn; [done|apply Hn| | | | |done].
  - intros ctx. destruct (se_decryptor (cn_state c')) as [d|] eqn:Ed; [|apply Hr].
    intros [= <-]. by apply (sk_resolved _ _ _ _ Hn).
  - intros Hrows. destruct (se_decryptor (cn_state c')); [by eexists|auto].
  - apply Forall_insert; [done|]. cbn. split_and!; [apply Hn|apply Hn|done|done|auto|done|done].
  - pose proof (permits_insert _ _ _ (Relaying client upstream c') Hi). cbn in *. lia.
Qed.

Lemma step_inv pl p p' :
  serving_ok → step p p' →
  (∀ ctx k c, pr_rows p' = Some ctx → rs_columns (cx_resolved ctx) !! k = Some c → pl k c) →
  process_inv pl p → process_inv pl p'.
Proof using All.
  intros Hsv Hs Ha Hp. pose proof Hp as [Hk Hc Hr Hh Ht Hl Hm].
  destruct Hs as [now adm client upstream _ E|event effect adm _ _ E Hn _|event e adm _ E|_|i client upstream st _ Hi Hst
    |i client upstream _ Hi _|i client upstream e _ Hi _|i client upstream _ Hi|i client upstream c nonce ks keys c' _ Hi Hd Htn _
    |i client upstream c outcome _ Hi _|ks keys _ Hd|r _ _ _ _|rows _ _ Hrows _|_ _ _
    |r rows lookup connected resolved _ _ Hrr _ E|r lookup connected e _ _ _ _|rows generation _ _ Hrows|outcome drained aborted _ _].
  - destruct (on_accept_counts _ _ _ _ E) as [(_ & Hp1 & Hl1)|[? _]]; [|done].
    split; cbn; [done..|apply Forall_app; split; [done|by repeat constructor]|rewrite permits_app; cbn; lia|lia].
  - destruct (on_accept_counts _ _ _ _ E) as [[? _]|(_ & Hp1 & Hl1)]; [done|]. split; cbn; [done..|lia|lia].
  - destruct (on_accept_counts _ _ _ _ E) as [[? _]|(_ & Hp1 & Hl1)]; [done|]. split; cbn; [done..|lia|lia].
  - by split.
  - pose proof (permits_insert _ _ _ (Relaying client upstream (session_opened sv st p)) Hi).
    split; cbn in *; [done..| |lia|lia]. apply Forall_insert; [done|]. cbn.
    split_and!; [apply tracked_all_default| |apply framed_new|apply framed_new| | |by exists st].
    + intros d x. by destruct (pr_rows p); [intros [= <-]|].
    + intros Hw. by rewrite bool_decide_true.
    + intros [rows ->]%Hh. by eexists.
  - by eapply finish_inv.
  - by eapply finish_inv.
  - by eapply finish_inv.
  - by eapply turns_inv.
  - by eapply finish_inv.
  - destruct (during_law _ _ _ Hk Hd) as (Hk' & _ & _ & HK & HI). split; cbn; [done|by eapply pstate_grows|done..].
  - by apply refreshing_inv.
  - apply refreshing_inv; [done| |done]. intros ctx [= <-]. by apply (Hr rows).
  - by apply refreshing_inv.
  - apply refreshing_inv; [done| |done]. intros ctx [= <-]. rewrite (so_columns Hsv _ Hrr) in E. split; [|by intros k c; apply Ha].
    exact (resolve_columns_wired parse_hosts _ _ _ _ _ _ E).
  - by apply refreshing_inv.
  - apply refreshing_inv; [done| |done]. intros ctx [= <-]. by apply (Hr rows).
  - by split.
Qed.

(** Every state of the run is sound, with the columns where the run has found them. *)
Lemma process_sound p : serving_ok → rtc step (process_new sv) p → process_inv (published (process_new sv) p) p.
Proof using All.
  intros Hsv Hr. enough (∀ q, rtc step (process_new sv) q → rtc step q p → process_inv (published (process_new sv) p) q)
    as Hq by by apply Hq.
  intros q Hq. revert q Hq. refine (rtc_ind_r _ _ _ _); [|intros q q' Hq Hs IH]; intros Hp.
  - apply process_new_inv; [done|]. intros ctx k c Hx Hk. by exists (process_new sv), ctx.
  - eapply step_inv; [done|exact Hs| |apply IH; by eapply rtc_l]. intros ctx k c Hx Hk. exists q', ctx.
    split_and!; [by eapply rtc_r|done..].
Qed.

(** A refresh is asked for. *)
Definition asked (p : Process W) : Prop := ∃ rows, pr_rows p = Some rows ∧ cx_refresh rows = true.

Lemma asks_kept rows rows' : asks rows rows' → cx_refresh rows = true → cx_refresh rows' = true.
Proof using Type. by intros [-> | ->]. Qed.

Lemma turn_asked p i client upstream c nonce ks keys c' :
  turn (sv_catalog sv) why_text (transform_at (build (sv_policy sv))) nonce ks display (attach p c) c' →
  asked p → asked (detach i client upstream c' keys p).
Proof using Type.
  intros Ht (rows & Hr & Hf). apply turn_shares in Ht as [_ Hd]. cbn in Hd. rewrite Hr in Hd. unfold asked. cbn.
  destruct (se_decryptor (cn_state c)) as [d|], (se_decryptor (cn_state c')) as [d'|]; cbn in Hd; try done; [|eauto].
  eexists. split; [done|]. by eapply asks_kept.
Qed.

Lemma passes_grow p p' : step p p' → pr_passes p ≤ pr_passes p'.
Proof using Type. intros Hs. destruct Hs; cbn; lia. Qed.

Lemma passes_grow_steps p p' : rtc step p p' → pr_passes p ≤ pr_passes p'.
Proof using Type. induction 1 as [p|a b c Hs _ IH]; [done|]. etrans; [by eapply passes_grow|exact IH]. Qed.

Lemma step_asked p p' : step p p' → asked p → pr_passes p < pr_passes p' ∨ asked p'.
Proof using Type.
  intros Hs Ha. destruct Hs; cbn; try (right; exact Ha); try (left; lia); right; [by eapply turn_asked|..];
    destruct Ha as (x & Hx & Hf); simplify_eq; eexists; by split.
Qed.

(** C39: a refresh that a session asks for is not lost. From the moment it is asked for,
    whatever the process does, either the refresher has begun a pass since, whose answers
    are thus later than the request, or the request still stands; and while the process
    runs, a standing request lets a waiting refresher begin a pass at once, whether or not
    it has a timer. *)
Theorem refresh_requests_are_kept p p' :
  asked p → rtc step p p' →
  pr_passes p < pr_passes p' ∨
  asked p' ∧ (alive p' → pr_refreshing p' = Waiting →
    ∃ p'', step p' p'' ∧ pr_refreshing p'' = Resolving ∧ pr_passes p'' = S (pr_passes p')).
Proof using Type.
  intros Ha Hr. assert (pr_passes p < pr_passes p' ∨ asked p') as [Hlt|Hk].
  - induction Hr as [p|p1 p2 p3 Hs Hr IH]; [auto|]. destruct (step_asked _ _ Hs Ha) as [Hlt|Ha2].
    + left. eapply Nat.lt_le_trans; [exact Hlt|by apply passes_grow_steps].
    + destruct (IH Ha2) as [Hlt|?]; [left|by right]. eapply Nat.le_lt_trans; [by eapply passes_grow|done].
  - by left.
  - right. split; [done|]. intros Hal Hw. destruct Hk as (rows & Hrows & Hf). eexists. split; [by eapply refresher_notified|done].
Qed.

End process.

(** ** From the command line to every session *)

Section main.
Context `{Rustix, Rustls, HexCrate, AeadCrate, HmacCrate, Ff1Crate, Lowercase, SqlParserCrate} {St : Type} `{!VaultClient St}.
Context `{!HexLaws, !AeadLaws, !HmacLaws, !Ff1Laws, !VaultClientLaws St}.
Context (files : Files) (parse_dsn : bytes → option DsnConfig) (url_scheme : bytes → result bytes bytes).
Context (debug : bytes → bytes) (display_core : Core.Error → bytes) (policy_text : PolicyProblem → bytes).
Context (toml : bytes → result TomlError Config) (exists_ : bytes → bool) (key_toml : bytes → option KeyFile).
Context (debug_list : list bytes → bytes) (base64_decode : bytes → option bytes).
Context (url_parse : bytes → result ClientError bytes) (build_client : ClientSettings → result ClientError ClientSettings).
Context (client_new : ClientSettings → result ClientError ()) (key_id : result Core.Error bytes).
Context (parse_hosts : bytes → option (list Host * list nat)) (lookup_column : nat → bytes → bytes → bytes → Answer).
Context (connect_control : bytes → TlsContext → result Proxy.Error ()) (bind : bytes → result () ()).
Context (why_text : RowKeyProblem → bytes) (display : Proxy.Error → bytes).

#[local] Instance served_keys : KeyService (Keys St) := keys_service base64_decode.
#[local] Instance served_keys_laws : KeyServiceLaws (Keys St) := keys_service_laws base64_decode.
#[local] Abbreviation main_ :=
  (main files parse_dsn url_scheme debug display_core policy_text toml exists_ key_toml debug_list base64_decode
    url_parse build_client client_new key_id parse_hosts lookup_column connect_control bind).
#[local] Abbreviation serve_ :=
  (serve files key_toml debug_list base64_decode url_parse build_client client_new key_id
    parse_hosts lookup_column connect_control bind).

(** A connected Vault source, before anyone has asked it for anything. *)
Lemma connected_inv setup st self st' :
  (∀ id, key_id = Ok id → length id = KEY_ID_LEN) → VaultSpec.vault_ok (vs_config setup) st →
  connect base64_decode url_parse build_client client_new key_id setup st = (Ok self, st') →
  source_inv (KeyStore0 := vault_store base64_decode (vs_config setup))
    (KeyStoreLaws0 := vault_store_laws base64_decode (vs_config setup)) (self, st').
Proof using Type*.
  intros Hid Hok E. apply (connect_Ok base64_decode (vs_config setup)) in E as (id & key & Hi & -> & Hd & _ & Hkeep); [|done].
  split; cbn [fst snd].
  - by apply Hkeep.
  - by split; [apply Hid|].
  - intros id' k Hk. cbn in Hk. by apply lookup_singleton_Some in Hk as [<- <-].
  - intros name k Hk. cbn in Hk. by rewrite lookup_empty in Hk.
  - cbn. rewrite map_size_empty. lia.
Qed.

Lemma serve_Ok (v : ValidatedConfig) (w : World St) (sv : Serving (Keys St)) (w' : World St) :
  (∀ id, key_id = Ok id → length id = KEY_ID_LEN) →
  (∀ config source, sv_keys sv = VaultKeys config source → VaultSpec.vault_ok config (w_vault w)) →
  serve_ v w = (Ok sv, w') →
  serving_ok sv ∧ sv_config sv = vcf_config v ∧ sc_upstream_addr (sv_context sv) = cf_upstream (vcf_config v) ∧
  (is_Some (vcf_protected v) → is_Some (sc_rows (sv_context sv)) ∧ is_Some (sc_writes (sv_context sv))) ∧
  from_config debug_list v (w_tls w) = (Ok (sc_tls (sv_context sv)), w_tls w').
Proof using All.
  intros Hid Hv. unfold serve. intros (tls & w1 & Etls & E)%M_bind_Ok.
  unfold on_tls in Etls. destruct (from_config debug_list v (w_tls w)) as [rt t] eqn:Et. injection Etls as -> <-.
  apply M_bind_Ok in E as ([[[rows writes] refresh] keys] & w2 & Ep & E).
  apply M_bind_Ok in E as ([] & w3 & [= _ <-] & E). apply mret_Ok in E as [<- <-].
  cbn [sv_keys sv_config sv_context sv_refresher sc_rows sc_writes sc_tls sc_upstream_addr] in *.
  destruct (vcf_protected v) as [protected|].
  2:{ apply mret_Ok in Ep as [[= <- <- <- <-] <-]. split; [by split|]. split_and!; [done..|by intros [? ?]|done]. }
  apply M_bind_Ok in Ep as (keys' & w3 & Ek & Ep). apply M_bind_Ok in Ep as (resolved & w4 & [= Er <-] & Ep).
  apply mret_Ok in Ep as [[= <- <- <- <-] <-]. unfold on_vault in Ek. cbn [w_vault w_tls] in Ek.
  destruct (load_key_source _ _ _ _ _ _ _ _ (w_vault w)) as [rk st] eqn:El. injection Ek as -> <-. cbn [w_tls].
  split; [split; cbn|split_and!; [done..|intros _; split; by eexists|done]].
  - unfold load_key_source in El. destruct (pcf_keys protected) as [path|setup].
    + injection El as El _. apply map_err_Ok in El. unfold load_key_file in El.
      destruct (ok_or _ (file_text files path) ≫= _) as [f|] eqn:Ef; [|done]. injection El as <-.
      apply bind_Ok_inv in Ef as (raw & _ & Ef). apply bind_Ok_inv in Ef as (parsed & _ & Ef). by exists parsed.
    + destruct (connect _ _ _ _ _ setup (w_vault w)) as [[source|] st1] eqn:Ec; [|done]. injection El as <- _.
      eapply connected_inv; [done| |exact Ec]. by eapply Hv.
  - intros ctx [= <-]. cbn. exact (resolve_columns_wired parse_hosts _ _ _ _ _ _ Er).
  - by intros r [= <-].
Qed.

(** C20: every session of a process is sound, from the command line on. Whatever a
    process that came to listen is sent, however its sessions, its accept loop, its
    refresher, other proxies on the same store and shutdown interleave over the context,
    the caches and the key source they share: it never has more sessions than configured,
    and each of them that relays came through the startup that the TLS contexts ask for,
    has a rewriter and a decryptor when a column is configured, has written whole frames
    to both peers (the last cut short only when a write to that peer was given up), holds
    only the keys there are, and, in every description it has recorded or queued, reads a
    position as the column that a resolution in effect in this run put at the table and
    attribute the server described the position with, under that column's own name. *)
Theorem process_stays_sound args out runtime (w : World St) (sv : Serving (Keys St)) (w' : World St) p :
  (∀ id, key_id = Ok id → length id = KEY_ID_LEN) →
  (∀ config source, sv_keys sv = VaultKeys config source → VaultSpec.vault_ok config (w_vault w)) →
  main_ args out runtime w = (Listening sv, w') →
  rtc (process_step parse_hosts why_text display sv) (process_new sv) p →
  permits (pr_tasks p) ≤ cf_max_sessions (sv_config sv) ∧
  ∀ i client upstream c, pr_tasks p !! i = Some (Relaying client upstream c) →
    (∃ st, tls_session (sc_tls (sv_context sv)) (cf_upstream (sv_config sv)) client upstream = Ok (Some st)) ∧
    (cf_columns (sv_config sv) ≠ [] →
      is_Some (se_rewriter (cn_state (attach p c))) ∧ is_Some (se_decryptor (cn_state (attach p c)))) ∧
    side_framed (cn_client c) ∧ side_framed (cn_upstream c) ∧
    state_ok (keys_of (pr_keys p)) (indexes_of (pr_keys p))
      (published parse_hosts why_text display sv (process_new sv) p) (cn_state (attach p c)).
Proof using All.
  intros Hid Hv Hmain Hr. unfold main, on_kernel in Hmain.
  destruct (start _ _ _ _ _ _ _ _ args (w_kernel w)) as [[[|v warned]|] k] eqn:Es; try done.
  destruct runtime; [|done]. destruct (serve _ _ _ _ _ _ _ _ _ _ _ _ v _) as [[sv'|] w1] eqn:Esv; [|done].
  injection Hmain as -> _. apply serve_Ok in Esv as (Hsv & Hcfg & Haddr & Hpr & _); [|done..].
  assert (cf_columns (sv_config sv) ≠ [] → is_Some (vcf_protected v)) as Hcol.
  { unfold start in Es. apply M_bind_Ok in Es as (a & k0 & _ & E). destruct (ar_help a); [done|].
    apply M_bind_Ok in E as ([] & k1 & _ & E). apply M_bind_Ok in E as ([v' wd] & k2 & [= Hl <-] & [= -> -> _]).
    apply load_config_Ok in Hl as ((_ & _ & _ & _ & _ & _ & Hp) & _). rewrite Hcfg.
    destruct (vcf_protected v); [by eexists|done]. }
  pose proof (process_sound parse_hosts why_text display sv p Hsv Hr) as Hp.
  split; [rewrite (pi_live _ _ _ Hp); pose proof (pi_permits _ _ _ Hp); lia|]. intros i client upstream c Hi.
  destruct (proj1 (Forall_lookup _ _) (pi_tasks _ _ _ Hp) _ _ Hi) as (_ & _ & Hc & Hu & Hw & Hd & Htls).
  split_and!; [by rewrite Hcfg, <- Haddr| |done|done|by eapply attached_ok].
  intros Hne. destruct (Hpr (Hcol Hne)) as [Hrows Hwrites]. split; [by apply Hw|]. cbn.
  destruct (Hd Hrows) as [d ->], (pi_shared _ _ _ Hp Hrows) as [rows ->]. by eexists.
Qed.

End main.

(** ** An example: a process with a key file, and its first session *)

Module RunningExample.
Import Toy SessionExample ProcessExample TlsExample VaultExample KeysExample.

Definition files : Files := {| file_mode := λ _, Some 384%Z; file_text := λ _, Some [] |}.
Definition world : World Store := {| w_kernel := booted; w_tls := boot; w_vault := [] |}.

Definition run : Run (Keys Store) * World Store :=
  main (H2 := ascii_lowercase) files (λ _, Some {| dc_password := false; dc_ssl_mode := SslOther |}) (λ _, Ok b#"https") (λ s, s) (λ _, [])
    (λ _, []) (λ _, Ok ServeExample.config) (λ _, true) (λ _, Some file1) (λ _, []) Some (λ s, Ok s) (λ s, Ok s)
    (λ _, Ok tt) (Ok id1) (λ _, None) (λ _ s t c, Row (ResolveExample.catalog s t c)) (λ _ _, Ok tt) (λ _, Ok tt)
    [b#"dbsec.toml"] (λ _, Ok tt) true world.

Definition served : Serving (Keys Store) :=
  match run.1 with
  | Listening sv => sv
  | Exit _ => {| sv_config := ServeExample.config;
                 sv_context := {| sc_upstream_addr := []; sc_rows := None; sc_writes := None; sc_startup_timeout := 0;
                   sc_tls := {| tc_acceptor := None; tc_connector := None; tc_upstream_client := None |} |};
                 sv_refresher := None; sv_keys := NoKeys |}
  end.

Lemma listening : run = (Listening served, run.2).
Proof.
  assert (match run.1 with Listening _ => true | _ => false end = true) as Hr by (vm_compute; reflexivity).
  unfold served. destruct run as [[code|sv] w]; [discriminate Hr|reflexivity].
Qed.

Definition p0 : Process (Keys Store) := process_new served.
Definition p1 : Process (Keys Store) :=
  set_tasks [Starting hello ready] (on_accept (Accepted 0) (pr_admission p0)).2 p0.
Definition opening : Started :=
  match start_session None None [] hello ready with Ok (Some st) => st | _ => greeted end.
Definition p2 : Process (Keys Store) :=
  set_tasks [Relaying hello ready (session_opened served opening p1)] (pr_admission p1) p1.

#[local] Instance example_keys : KeyService (Keys Store) := keys_service Some.
Definition pstep : Process (Keys Store) → Process (Keys Store) → Prop :=
  process_step (H3 := ascii_lowercase) (λ _, None) why quiet served.

Lemma first_session : rtc pstep p0 p2.
Proof.
  apply (rtc_l _ _ p1); [|apply rtc_once].
  - apply (accepts (λ _, None) why quiet served p0 0 _ hello ready); vm_compute; reflexivity.
  - apply (session_starts (λ _, None) why quiet served p1 0 hello ready opening); [exact I|reflexivity|vm_compute; reflexivity].
Qed.

(** The file's keys are behind the session, which has both paths. *)
Lemma process_stays_sound_witness :
  state_ok (keys_of (pr_keys p2)) (indexes_of (pr_keys p2))
    (published (H3 := ascii_lowercase) (λ _, None) why quiet served p0 p2) (cn_state (attach p2 (session_opened served opening p1))) ∧
  is_Some (se_rewriter (cn_state (attach p2 (session_opened served opening p1)))) ∧
  keys_of (pr_keys p2) id1 = Some key1.
Proof.
  destruct (process_stays_sound files (λ _, Some {| dc_password := false; dc_ssl_mode := SslOther |}) (λ _, Ok b#"https") (λ s, s)
    (λ _, []) (λ _, []) (λ _, Ok ServeExample.config) (λ _, true) (λ _, Some file1) (λ _, []) Some (λ s, Ok s) (λ s, Ok s)
    (λ _, Ok tt) (Ok id1) (λ _, None) (λ _ s t c, Row (ResolveExample.catalog s t c)) (λ _ _, Ok tt) (λ _, Ok tt) why quiet
    [b#"dbsec.toml"] (λ _, Ok tt) true world served run.2 p2) as [_ Hs].
  - intros id [= <-]. reflexivity.
  - intros config source Hk.
    assert (match sv_keys served with VaultKeys _ _ => true | _ => false end = false) as Hf by (vm_compute; reflexivity).
    rewrite Hk in Hf. discriminate Hf.
  - exact listening.
  - exact first_session.
  - destruct (Hs 0 hello ready (session_opened served opening p1) eq_refl) as (_ & Hp & _ & _ & Hok).
    split; [exact Hok|]. split; [apply Hp; vm_compute; discriminate|vm_compute; reflexivity].
Defined.

(** A session whose description cannot be explained asks; the request stands until a pass
    begins. *)
Definition asking_ctx : RowContext :=
  match pr_rows p2 with Some ctx => request_refresh ctx | None => rd_ctx RowsExample.session end.
Definition p3 : Process (Keys Store) := set_refreshing (Some asking_ctx) Waiting 0 p2.

Lemma refresh_requests_are_kept_witness :
  ∃ p, pstep p3 p ∧ pr_refreshing p = Resolving ∧ pr_passes p = 1.
Proof.
  destruct (refresh_requests_are_kept (H3 := ascii_lowercase) (λ _, None) why quiet served p3 p3) as [Hlt|[_ Hp]].
  - exists asking_ctx. split; [reflexivity|vm_compute; reflexivity].
  - apply rtc_refl.
  - exfalso. revert Hlt. apply Nat.lt_irrefl.
  - apply Hp; [exact I|reflexivity].
Defined.

End RunningExample.
